(* ===== verification/_CoqProject ===== *)
-Q . S2P
Prelude.v
Refinement.v
SendQueue.v
ChunkPool.v
InputChainBuffer.v
InputBuffers.v
Timestamp.v
TimerQueue.v
IoUringLoop.v
PendingFunctors.v
Task.v
TcpConnection.v
ConnectionSafety.v
ConnectionProgress.v
ClientProtocol.v
LoopConnections.v
LoopSystem.v
ThreadPool.v
Text.v
InetAddress.v
Socket.v
ConnectionFaults.v
Logger.v
LoopThread.v
LoopThreadPool.v
LoopLife.v
Server.v
ServerSystem.v
