(* ===== verification/Prelude.v ===== *)
(** * mylib-proactor: a verification library

    mylib-proactor is a C++20 network library on Linux io_uring: one event loop
    per thread, completions instead of readiness, and business logic written as
    coroutines.  This library models its core in Rocq and proves the properties
    that make it correct; where the code does not have the property it means to
    have, a theorem shows the failing run.

    ** The program and its model

    Paths are relative to the repository's [src/] and [include/].

    - [Prelude.v]: outcomes of C++ operations, pointers and heaps, linked chains,
      machine integers, byte strings, and the automation shared by all files.
    - [Refinement.v]: abstract machines with preconditions, forward simulation and
      its lifting to sequences of operations.
    - [SendQueue.v] ([include/SendQueue.hpp]): the queue of fragments to send, on
      an explicit heap whose allocator may reuse addresses ([Allocator]).
    - [ChunkPool.v] ([include/ChunkPool.h], [src/ChunkPoolManagerInput.cc]): the
      receive buffers a loop lends to the kernel.  The kernel's buffer ring is the
      interface [BufRing]; [ListRing] is an instance.
    - [InputChainBuffer.v] ([src/InputChainBuffer.cc]): the chain of received
      chunks of a connection, proved against the pool.
    - [InputBuffers.v]: the input buffers of several connections on one pool, and
      the byte queues they implement.
    - [Timestamp.v] ([src/MonotonicTimestamp.cc], [src/Timestamp.cc] and the
      conversion in [src/TimerQueue.cc]): 64-bit microseconds, delays as IEEE
      doubles.
    - [TimerQueue.v] ([src/TimerQueue.cc], [src/Timer.cc]): timers on a heap, the
      ordered map, the active and the cancelling set, callbacks that add and
      cancel timers while they run.
    - [IoUringLoop.v] ([src/IoUringLoop.cc]): submission, the waiting queue used
      under back-pressure, dispatch of completions and one iteration of [loop()].
      The ring is the interface [Uring]; [ListRing] is an instance.
    - [PendingFunctors.v] (the same source): what other threads do to a loop,
      [queueInLoop], [wakeUp] and [quit], as interleaved atomic steps of the loop
      thread, other threads and the kernel.
    - [Task.v] ([include/Task.hpp]): coroutine frames, the [Task] objects that own
      them, and the promises of [Task<T>] and [Task<void>].
    - [TcpConnection.v] ([src/TcpConnection.cc], [src/WriteContext.cc],
      [src/ReadContext.cc]): a connection with its two
      contexts, its awaiters and its coroutine, an arbitrary client program; the
      references that keep the connection alive are part of the state.
    - [ConnectionSafety.v]: the invariant of a connection and its preservation by
      every completion, on top of the theorems of [SendQueue.v] and
      [InputChainBuffer.v].
    - [ConnectionProgress.v]: what only the kernel changes, the received stream,
      how many completions it takes to send what was queued, and the batch that is
      never sent.
    - [ClientProtocol.v]: what a coroutine promises about its input and output
      holds of the connection; the echo server of the README is the instance.
    - [LoopConnections.v] (also [TcpServer::removeConnectionInLoop]): any number of
      connections on one loop, with its buffer pool shared between them.
    - [LoopSystem.v]: the loop of [IoUringLoop.v] with those connections: their
      requests go through the submission paths, completions are dispatched to
      their contexts.
    - [ConnectionFaults.v]: runs of connections that go wrong.
    - [ThreadPool.v] ([src/ThreadPool.cc]): the pool that resumes coroutines on
      other threads, with the mutex and who holds it, and its destructor.
    - [Text.v], [InetAddress.v] ([src/InetAddress.cc]): C strings and addresses.
    - [Socket.v] ([src/Socket.cc]): the owner of a descriptor, against the
      interface [SocketApi] of a kernel that reuses descriptor numbers.
    - [Logger.v] ([src/Logger.cc], [Timestamp::to_string]): the shared logger and
      the macros, as interleaved steps of threads.
    - [LoopThread.v] ([src/Thread.cc], [src/CurrentThread.cc],
      [src/IoUringLoopThread.cc]): a thread with its loop, as interleaved steps of
      its owner and of the thread, [quit()] in its two halves; of the loop itself only
      [quit_] and whether it exists are kept.
    - [LoopThreadPool.v] ([src/IoUringLoopThreadPool.cc]): the round robin.
    - [LoopLife.v] (constructor and destructor of [src/IoUringLoop.cc],
      [src/ChunkPoolManagerInput.cc], [include/ChunkPool.h]): what a loop acquires
      and releases.
    - [Server.v] ([src/TcpServer.cc], [src/Acceptor.cc], [src/AcceptContext.cc]):
      accepting, naming and distributing connections, and their removal.
    - [ServerSystem.v]: that server in front of its worker loops with the
      connections of [LoopConnections.v] on them: establishment, the close callback
      and the removal are the closures and calls that connect the parts.

    A C++ object is a [Record] with the members of the class under their names, a
    member function is a function of the same name on that record, and a failed
    [assert], a bad pointer, [LOG_FATAL] or undefined behaviour is a [Fault]: a
    theorem that an operation returns [Ok] excludes all of them.  Objects reached
    through pointers live in heaps ([gmap]) or arrays; a member that no claim
    depends on is left out.  Concurrent parts are step functions on one event at
    a time, with reachability by any sequence of events.

    ** What is proved

    - Data structures: each operation of the send queue and of the input buffer
      has its functional specification over byte strings, without faults for any
      allocator, and its invariant; buffers in flight stay valid.  Both refine an
      abstract queue: the send queue one of fragments with a batch in flight, the
      input buffers of a loop independent queues of bytes over one shared pool.
    - Timers: which timers run, in which order, which are armed again, and that
      cancelling, also from callbacks of the same pass, releases them.
    - Loop: no request is lost or duplicated under back-pressure, an iteration
      preserves the invariant for all well-behaved clients, waiting requests are
      served in their order as long as new ones leave room above the mark, and the
      sleep is bounded by the next timer.
    - Threads: functors run once, in order, and no wake-up is lost (but for a functor
      that the loop thread queues before it calls [loop()]); a loop thread starts
      safely when nobody else stops its loop, and what can go wrong when it ends is
      told; the thread pool takes coroutines in order and resumes each once.
    - Ownership: a coroutine frame has at most one [Task], a descriptor is closed
      once and by its [Socket], a thread has one loop.
    - Connections, under the conditions below: any sequence of completions is handled
      safely, the byte streams sent and received are exact, buffering is bounded, a
      suspended coroutine always has an operation in flight, and the completions that
      take data are at most as many as the bytes sent.  A relation between input and
      output that the coroutine's own code keeps holds of the bytes on the wire; the
      echo server echoes.
    - Composition, under the same conditions: the connections of a loop do not disturb
      each other's streams, chunks are neither lost nor duplicated and come back when a
      connection is dropped; the loop and its connections agree on what is in flight,
      so that no handler fails and no coroutine waits for an operation that was not
      submitted.
    - Server: distinct names, an exact table, round robin, one armed accept.
    - The whole, under the same conditions: a server with worker loops does not fail in
      any interleaving of accepts, completions and closures; its runs project to runs
      of the server alone and of each loop alone, so that their theorems apply; the
      table lists the connections the loops have, closed connections leave it, and an
      echo service returns to every client what that client sent.
    - Defects: runs that end in a failed assertion, in the use of freed memory, in
      a lost [quit()], in a hanging start or stop of a loop thread, in the use of a
      loop that its thread has destroyed, in a data race, in a stopped acceptor, in an
      idle thread pool, in a batch that is sent without end, in bytes of a closed
      connection that reach another peer.

    ** Conditions of the theorems about connections

    The code does not survive everything that can happen to it, and the theorems about
    connections, their loops and the server say what they leave out in predicates of
    their own, apart from what the kernel can do ([valid], [lvalid], [svalid],
    [wvalid]):

    - [polite]: the coroutine stays on the loop thread and returns when a call tells
      it that the connection failed.
    - [smooth], in [lcalm], [scalm] and [wcalm]: no write fails with [EAGAIN],
      [ENOBUFS] or [EINTR].  [handleError] means to retry these, but the batch is lost
      or an assertion fails ([transient_error_skips_a_batch],
      [transient_error_asserts]).
    - [lcalm], [scalm] and [wcalm]: a closed connection is removed from the table when
      none of its operations is in flight.  [TcpServer] does not wait for that
      ([late_completion_uses_freed_context]).
    - The loop is not the base loop of the server
      ([close_on_base_loop_uses_freed_context]), and fewer than [INT_MAX] connections
      are accepted.

    Whether writes may fail at all is a parameter of these theorems ([WriteErrors]):
    where they may, a polite coroutine returns when [send] gives false; where they may
    not, it need not look at the result.  The coroutine of the README and of the
    integration test does not, so that the echo service is correct with it as long as no
    write fails ([unchecked_send_asserts] is what happens otherwise), and with one that
    tests the result also when writes fail for good.

    Of [io_uring_submit] it is not assumed that it takes anything: an operation that
    needs an entry of a full ring succeeds or ends the program through [LOG_FATAL], as
    [getIoUringSqe] does then ([finishes], [refused]).

    ** Bounds

    The loops of the sources recurse on fuel that is the length of the structure
    they consume ([retrieve_loop], [remove_loop], [destroy_loop]) or on the list
    itself; every theorem about them shows that the result is [Ok], so the fuel
    is enough.  [size_t] is arithmetic modulo 2^64 and [int64_t] is checked for
    overflow; hypotheses bound lengths where a wrap-around would change the
    result.  [D] bounds the data of one [send]; for the echo server it is 2^31, as
    [PrepareToRead] returns an [int].  A coroutine is a finite program tree, so
    that a server loop is modelled for any number [n] of rounds and its theorems
    hold for all [n].  Decimal numbers use ten digits, enough for 32 bits.

    ** What is not modelled

    Exceptions that a business coroutine throws through a connection, type aliases
    ([Callbacks.h]) and [noncopyable], accessors that return a member, the
    callbacks of [TcpServer] that the code stores and never calls, [createTimerFd],
    which nothing calls, and the interleaving of the characters that several
    threads write to one stream.  A coroutine of a connection that returns is taken
    to reach its final suspend point.  The kernel appears through [Uring], [BufRing],
    [SocketApi] and the events of a connection or a server; clocks, [localtime],
    [inet_addr] and [mmap] are parameters.

    In [ServerSystem.v] the server is not destroyed while it is used, handlers and
    closures are atomic (they touch the state of their own loop and queue closures
    in others), and the members of a connection that exist before its coroutine is
    started are made when it starts.  The connections keep descriptor numbers, not
    the [Socket] objects of [Socket.v], and the loops under the server are those of
    [LoopConnections.v]: that each of them submits and dispatches as
    [LoopSystem.v] says is proved for one loop, and not once more for several. *)

From stdpp Require Export base gmap sets list list_numbers fin_maps fin_map_dom.
From Stdlib Require Export ZArith Lia.
From Stdlib Require Export Strings.Byte.

#[global] Open Scope Z_scope.

(** ** Outcomes

    A C++ operation either returns or ends in one of the ways the sources can
    stop abnormally: a failed [assert], a null or dangling pointer, the
    [exit(-1)] of [LOG_FATAL], a call of [std::terminate], a signed overflow or
    another operation the language leaves undefined.  [OutOfFuel] is the artefact
    of a loop that is given a bound; every theorem about a loop shows that it is
    not returned. *)

Inductive fault :=
  | AssertionFailed
  | NullDeref
  | Dangling
  | FatalExit
  | Terminated
  | UndefinedBehaviour
  | OutOfFuel.

Inductive result (A : Type) :=
  | Ok (a : A)
  | Fault (f : fault).
Arguments Ok {A} a.
Arguments Fault {A} f.

Lemma Ok_inj {T} (x y : T) : Ok x = Ok y -> x = y.
Proof. congruence. Qed.

(** The value of a computation that is known to succeed. *)
Definition from_ok {A} (d : A) (r : result A) : A := match r with Ok x => x | Fault _ => d end.
Definition is_ok {A} (r : result A) : bool := match r with Ok _ => true | Fault _ => false end.
Lemma from_ok_eq {A} (d : A) r : is_ok r = true -> r = Ok (from_ok d r).
Proof. destruct r; [reflexivity | discriminate]. Qed.

#[global] Instance fault_eq_dec : EqDecision fault.
Proof. solve_decision. Defined.

#[global] Instance result_ret : MRet result := fun A a => Ok a.
#[global] Instance result_bind : MBind result := fun A B k m =>
  match m with
  | Ok a => k a
  | Fault f => Fault f
  end.

(** A computation that returns a value with [Q], or that ends the program through
    [LOG_FATAL], for the reason [E]. *)
Definition finishes {A} (E : Prop) (r : result A) (Q : A -> Prop) : Prop :=
  (exists x, r = Ok x /\ Q x) \/ (r = Fault FatalExit /\ E).

Lemma finishes_ok {A} E (x : A) (Q : A -> Prop) : Q x -> finishes E (Ok x) Q.
Proof. left. eauto. Qed.

Lemma finishes_bind {A B} E (r : result A) (f : A -> result B) Q R :
  finishes E r Q -> (forall x, r = Ok x -> Q x -> finishes E (f x) R) -> finishes E (r ≫= f) R.
Proof.
  intros [(x & Hx & HQ)|[Hr HE]] Hf; [|right; by rewrite Hr].
  specialize (Hf x Hx HQ). rewrite Hx. exact Hf.
Qed.

Lemma finishes_mono {A} E (r : result A) (Q R : A -> Prop) :
  finishes E r Q -> (forall x, r = Ok x -> Q x -> R x) -> finishes E r R.
Proof. intros [(x & Hx & HQ)|Hf] H; [left; eauto | by right]. Qed.

Lemma finishes_value {A} E (r : result A) (Q : A -> Prop) x : finishes E r Q -> r = Ok x -> Q x.
Proof. intros [(y & -> & HQ)|[-> _]] Hx; [by apply Ok_inj in Hx; subst | done]. Qed.

(** The steps of a run: a condition on the state and the next event that holds all
    along it. *)
Section throughout.
Context {S E : Type} (step : E -> S -> result S).

Fixpoint throughout (P : S -> E -> Prop) (s : S) (es : list E) : Prop :=
  match es with
  | [] => True
  | e :: es => P s e /\ forall s', step e s = Ok s' -> throughout P s' es
  end.

Lemma throughout_cons (P : S -> E -> Prop) s e es :
  P s e -> is_ok (step e s) = true -> throughout P (from_ok s (step e s)) es -> throughout P s (e :: es).
Proof. intros HP Hs Hr. split; [done|]. intros s' Hs'. rewrite Hs' in Hr. exact Hr. Qed.

Lemma throughout_app P es1 es2 : forall s, throughout P s (es1 ++ es2) -> throughout P s es1.
Proof. induction es1 as [|e es1 IH]; intros s H; [done|]. destruct H as [H Hr]. split; [done|]. eauto. Qed.
End throughout.

(** [assert(b)] of the sources. *)
Definition assert_ (b : bool) : result unit :=
  if b then Ok tt else Fault AssertionFailed.

(** ** Pointers

    A heap maps the live addresses of one node type to the nodes.  A pointer is
    [None] for [nullptr]. *)

Abbreviation addr := nat (only parsing).
Abbreviation ptr := (option nat) (only parsing).

Definition deref {N H} `{Lookup nat N H} (h : H) (p : ptr) : result N :=
  match p with
  | None => Fault NullDeref
  | Some a =>
      match h !! a with
      | Some x => Ok x
      | None => Fault Dangling
      end
  end.

(** [operator new]: an address that is not live.  Any choice is allowed, in
    particular the reuse of an address that was freed before. *)
Class Allocator := {
  malloc : gset nat -> nat;
  malloc_fresh : forall s, malloc s ∉ s
}.

Lemma fresh_elements (s : gset nat) : fresh (elements s) ∉ s.
Proof. intros Hin. apply elem_of_elements in Hin. exact (infinite_is_fresh _ Hin). Qed.

Definition first_fit : Allocator :=
  {| malloc := fun s => fresh (elements s); malloc_fresh := fresh_elements |}.

(** ** Null-terminated chains

    The sources link nodes with a [next_] pointer.  [chain next h p l]: following
    [next] from [p] in the store [h] visits the nodes [l] and ends in [nullptr].
    The store is a heap ([gmap]) or an array of nodes ([list]). *)

Section chain.
Context {N H : Type} `{Lookup nat N H} (next : N -> ptr).

Inductive chain (h : H) : ptr -> list (nat * N) -> Prop :=
  | chain_nil : chain h None []
  | chain_cons a f l :
      h !! a = Some f -> chain h (next f) l -> chain h (Some a) ((a, f) :: l).

(** A chain depends on the nodes it visits only. *)
Lemma chain_frame h h' p l :
  chain h p l -> (forall a, a ∈ l.*1 -> h' !! a = h !! a) -> chain h' p l.
Proof.
  induction 1 as [|b f l Hb Hc IH]; intros Hn; [constructor|].
  constructor; [rewrite Hn; [done|] | apply IH; intros; apply Hn]; simpl; set_solver.
Qed.

Lemma chain_lookup h p l i a f : chain h p l -> l !! i = Some (a, f) -> h !! a = Some f.
Proof.
  intros Hc. revert i. induction Hc as [|b g l Hb Hc IH]; intros i Hi; [done|].
  destruct i as [|i]; simpl in Hi; [by simplify_eq | eauto].
Qed.

Lemma chain_at h p s a f l :
  chain h p (s ++ (a, f) :: l) -> h !! a = Some f /\ next f = fst <$> head l.
Proof.
  revert p. induction s as [|[b g] s IH]; simpl; intros p Hc;
    inversion Hc as [|? ? ? Ha Hc']; subst; [|eauto].
  split; [done|]. inversion Hc'; by subst.
Qed.

Lemma chain_head h p l : chain h p l -> p = fst <$> head l.
Proof. by destruct 1. Qed.

(** Linking a node behind the last one: [h'] differs from [h] in the last node
    [f], which becomes [f'], and in the new node [b]. *)
Lemma chain_snoc h h' p l a f f' b g :
  chain h p (l ++ [(a, f)]) -> NoDup (l ++ [(a, f)]).*1 -> b ∉ (l ++ [(a, f)]).*1 ->
  (forall c, c ∈ l.*1 -> h' !! c = h !! c) ->
  h' !! a = Some f' -> next f' = Some b -> h' !! b = Some g -> next g = None ->
  chain h' p (l ++ [(a, f'); (b, g)]).
Proof.
  revert p. induction l as [|[c x] l IH]; simpl; intros p Hc Hnd Hb Hfr Ha Hn Hg Hng.
  - inversion Hc as [|? ? ? Ha' Hc']; subst. constructor; [done|]. rewrite Hn.
    constructor; [done | rewrite Hng; constructor].
  - inversion Hc as [|? ? ? Hx Hc']; subst. apply NoDup_cons in Hnd as [Hnc Hnd].
    apply not_elem_of_cons in Hb as [Hbc Hb].
    constructor; [rewrite Hfr; [done|set_solver] | apply IH; try done].
    intros d Hd. apply Hfr. set_solver.
Qed.
End chain.

(** Writing a field of the last node of a chain. *)
Section upd_last.
Context {K N : Type} (g : N -> N).

Fixpoint upd_last (l : list (K * N)) : list (K * N) :=
  match l with
  | [] => []
  | [(a, f)] => [(a, g f)]
  | x :: l => x :: upd_last l
  end.

Lemma upd_last_snoc l a f : upd_last (l ++ [(a, f)]) = l ++ [(a, g f)].
Proof.
  induction l as [|[c x] l IH]; [done|].
  change (upd_last (((c, x) :: l) ++ [(a, f)])) with
    (match l ++ [(a, f)] with [] => [(c, g x)] | _ => (c, x) :: upd_last (l ++ [(a, f)]) end).
  rewrite IH. by destruct l.
Qed.

Lemma upd_last_fst l : (upd_last l).*1 = l.*1.
Proof.
  destruct l as [|[a f] l _] using rev_ind; [done|]. by rewrite upd_last_snoc, !fmap_app.
Qed.

Lemma length_upd_last l : length (upd_last l) = length l.
Proof. by rewrite <- (length_fmap fst), upd_last_fst, length_fmap. Qed.

Lemma upd_last_app l k : k <> [] -> upd_last (l ++ k) = l ++ upd_last k.
Proof.
  intros Hk. destruct k as [|[a f] k _] using rev_ind; [done|].
  by rewrite app_assoc, !upd_last_snoc, app_assoc.
Qed.

Lemma upd_last_Forall (P : N -> Prop) l :
  (forall f, P f -> P (g f)) ->
  Forall (fun x => P x.2) l -> Forall (fun x => P x.2) (upd_last l).
Proof.
  intros Hg. destruct l as [|[a f] l _] using rev_ind; [done|].
  rewrite upd_last_snoc, !Forall_app. intros [? Hf]. split; [done|].
  apply Forall_cons in Hf as [Hf _]. constructor; [by apply Hg | constructor].
Qed.

Lemma upd_last_lookup l i a f :
  l !! i = Some (a, f) -> exists f', upd_last l !! i = Some (a, f') /\ (f' = f \/ f' = g f).
Proof.
  destruct l as [|[c x] l _] using rev_ind; [done|]. rewrite upd_last_snoc.
  intros [Hi|[Hi Hx]]%lookup_app_Some.
  - exists f. split; [by apply lookup_app_l_Some | auto].
  - apply list_lookup_singleton_Some in Hx as [Hz Hx]. simplify_eq.
    eexists. rewrite lookup_app_r, Hz by done. split; [done|auto].
Qed.
End upd_last.

(** ** Machine integers *)

Definition wrap (w z : Z) : Z := z mod 2 ^ w.
Abbreviation u64 := (wrap 64) (only parsing).
Abbreviation u16 := (wrap 16) (only parsing).
Abbreviation SIZE_MAX := (2 ^ 64) (only parsing).

Lemma wrap_small w z : 0 <= z < 2 ^ w -> wrap w z = z.
Proof. intros H. unfold wrap. by apply Z.mod_small. Qed.

Lemma wrap_range w z : 0 <= w -> 0 <= wrap w z < 2 ^ w.
Proof. intros H. unfold wrap. apply Z.mod_pos_bound. lia. Qed.

Lemma wrap_add_l w x y : wrap w (wrap w x + y) = wrap w (x + y).
Proof. unfold wrap. by rewrite Zplus_mod_idemp_l. Qed.

Lemma wrap_sub_l w x y : wrap w (wrap w x - y) = wrap w (x - y).
Proof. unfold wrap. by rewrite Zminus_mod_idemp_l. Qed.

(** The length of a byte string as the [size_t] the sources compute with. *)
Definition zlen {A} (l : list A) : Z := Z.of_nat (length l).

Lemma zlen_nonneg {A} (l : list A) : 0 <= zlen l.
Proof. unfold zlen. lia. Qed.

Lemma zlen_app {A} (l k : list A) : zlen (l ++ k) = zlen l + zlen k.
Proof. unfold zlen. rewrite length_app. lia. Qed.

Lemma zlen_nil {A} : zlen (@nil A) = 0.
Proof. reflexivity. Qed.

Lemma zlen_cons {A} (x : A) l : zlen (x :: l) = 1 + zlen l.
Proof. unfold zlen. simpl. lia. Qed.

Lemma zlen_insert {A} i (x : A) l : zlen (<[i := x]> l) = zlen l.
Proof. unfold zlen. by rewrite length_insert. Qed.

Lemma zlen_fmap {A B} (f : A -> B) l : zlen (f <$> l) = zlen l.
Proof. unfold zlen. by rewrite length_fmap. Qed.

Definition ztake {A} (n : Z) (l : list A) : list A := take (Z.to_nat n) l.
Definition zdrop {A} (n : Z) (l : list A) : list A := drop (Z.to_nat n) l.

Lemma zlen_ztake {A} n (l : list A) : 0 <= n -> zlen (ztake n l) = Z.min n (zlen l).
Proof. intros. unfold zlen, ztake. rewrite length_take. lia. Qed.

Lemma zlen_zdrop {A} n (l : list A) : 0 <= n -> zlen (zdrop n l) = Z.max 0 (zlen l - n).
Proof. intros. unfold zlen, zdrop. rewrite length_drop. lia. Qed.

Lemma ztake_zdrop {A} n (l : list A) : ztake n l ++ zdrop n l = l.
Proof. apply take_drop. Qed.

Lemma zdrop_all {A} n (l : list A) : zlen l <= n -> zdrop n l = [].
Proof. unfold zlen, zdrop. intros. apply drop_ge. lia. Qed.

Lemma ztake_all {A} n (l : list A) : zlen l <= n -> ztake n l = l.
Proof. unfold zlen, ztake. intros. apply take_ge. lia. Qed.

Lemma zdrop_0 {A} (l : list A) : zdrop 0 l = l.
Proof. reflexivity. Qed.

Lemma zdrop_app_l {A} n (l k : list A) :
  0 <= n <= zlen l -> zdrop n (l ++ k) = zdrop n l ++ k.
Proof. unfold zlen, zdrop. intros. apply drop_app_le. lia. Qed.

Lemma zdrop_app_r {A} n (l k : list A) :
  zlen l <= n -> zdrop n (l ++ k) = zdrop (n - zlen l) k.
Proof.
  unfold zlen, zdrop. intros. rewrite drop_app_ge by lia. f_equal. lia.
Qed.

Lemma ztake_app_l {A} n (l k : list A) :
  0 <= n <= zlen l -> ztake n (l ++ k) = ztake n l.
Proof. unfold zlen, ztake. intros. apply take_app_le. lia. Qed.

Lemma ztake_app_r {A} n (l k : list A) :
  zlen l <= n -> ztake n (l ++ k) = l ++ ztake (n - zlen l) k.
Proof.
  unfold zlen, ztake. intros. rewrite take_app_ge by lia. do 2 f_equal. lia.
Qed.

Lemma zdrop_zdrop {A} n m (l : list A) :
  0 <= n -> 0 <= m -> zdrop n (zdrop m l) = zdrop (m + n) l.
Proof. unfold zdrop. intros. rewrite drop_drop. f_equal. lia. Qed.
Lemma ztake_split {A} n m (l : list A) :
  0 <= n <= m -> ztake m l = ztake n l ++ ztake (m - n) (zdrop n l).
Proof.
  intros H. rewrite <- (ztake_zdrop n (ztake m l)). unfold ztake, zdrop. f_equal.
  - rewrite take_take. f_equal. lia.
  - rewrite take_drop_commute. do 2 f_equal. lia.
Qed.

(** Filtering a list whose elements all satisfy, or all fail, the predicate. *)
Section filter.
Context {A : Type} (P : A -> Prop) `{!forall x, Decision (P x)}.

Lemma filter_keep l : Forall P l -> filter P l = l.
Proof. induction 1 as [|x l Hx Hl IH]; [done|]. rewrite filter_cons_True by done. by f_equal. Qed.

Lemma filter_drop l : Forall (fun x => ~ P x) l -> filter P l = [].
Proof. induction 1 as [|x l Hx Hl IH]; [done|]. by rewrite filter_cons_False. Qed.

(** Predicates that agree on the list filter it alike. *)
Lemma filter_agree (Q : A -> Prop) `{!forall x, Decision (Q x)} (l : list A) :
  (forall x, x ∈ l -> P x <-> Q x) -> filter P l = filter Q l.
Proof.
  induction l as [|x l IH]; intros HPQ; [done|]. rewrite !filter_cons, IH by set_solver.
  assert (P x <-> Q x) by (apply HPQ; set_solver). repeat case_decide; done || tauto.
Qed.
End filter.

Create HintDb proactor.
Create Rewrite HintDb zlen.
#[export] Hint Resolve zlen_nonneg : proactor.
#[export] Hint Rewrite @zlen_app @zlen_nil @zlen_cons @zlen_insert @zlen_fmap : zlen.

(** ** Proof automation *)

(** A computation that returned: its sub-computations returned, and its tests went
    one way or the other. *)
Ltac ok_step :=
  match goal with
  | H : Fault _ = Ok _ |- _ => discriminate H
  | H : Ok _ = Ok _ |- _ => injection H as H; subst
  | H : mbind _ ?x = Ok _ |- _ => let E := fresh "E" in destruct x eqn:E; simpl in H
  | H : (let '(_, _) := ?x in _) = Ok _ |- _ => let E := fresh "E" in destruct x eqn:E; simpl in H
  | H : (if ?b then _ else _) = Ok _ |- _ => let E := fresh "E" in destruct b eqn:E; simpl in H
  end.
Ltac ok_inv := repeat (ok_step; simplify_eq/=).

Ltac zlen_solve := autorewrite with zlen in *; lia.
