(* ===== verification/Refinement.v ===== *)
(** * Abstract specifications and simulations

    A component is described to its clients by an abstract machine: a state, and
    for every operation a precondition and the outcomes it allows.  The
    implementation refines the machine if a relation between their states is
    kept by every operation that is called under its precondition; the lemma of
    this file lifts that from one operation to every sequence of them. *)

From S2P Require Import Prelude.

Section simulation.
Context {Op Out C A : Type}.
Context (cstep : Op -> C -> result (Out * C)).
Context (pre : Op -> A -> Prop) (astep : Op -> A -> Out -> A -> Prop).
Context (R : C -> A -> Prop).

(** The implementation on a sequence of operations, with what it returns. *)
Fixpoint crun (ops : list Op) (c : C) : result (list Out * C) :=
  match ops with
  | [] => Ok ([], c)
  | op :: ops =>
      '(out, c) ← cstep op c;
      '(outs, c) ← crun ops c;
      Ok (out :: outs, c)
  end.

(** The runs of the specification. *)
Inductive arun : list Op -> A -> list Out -> A -> Prop :=
  | arun_nil a : arun [] a [] a
  | arun_cons op ops a out a1 outs a2 :
      astep op a out a1 -> arun ops a1 outs a2 -> arun (op :: ops) a (out :: outs) a2.

(** The client calls every operation under its precondition, whatever the
    specification answered before. *)
Fixpoint allowed (ops : list Op) (a : A) : Prop :=
  match ops with
  | [] => True
  | op :: ops => pre op a /\ forall out a', astep op a out a' -> allowed ops a'
  end.

Definition forward_simulation : Prop :=
  forall op c a, R c a -> pre op a ->
  exists out c' a', cstep op c = Ok (out, c') /\ astep op a out a' /\ R c' a'.

Lemma simulation_runs ops : forall c a,
  forward_simulation -> R c a -> allowed ops a ->
  exists outs c' a', crun ops c = Ok (outs, c') /\ arun ops a outs a' /\ R c' a'.
Proof.
  induction ops as [|op ops IH]; intros c a Hsim HR Hal; simpl.
  - exists [], c, a. split_and!; [done | constructor | done].
  - destruct Hal as [Hpre Hal]. destruct (Hsim op c a HR Hpre) as (out & c1 & a1 & -> & Ha & HR1). simpl.
    destruct (IH c1 a1 Hsim HR1 (Hal _ _ Ha)) as (outs & c2 & a2 & -> & Hr & HR2). simpl.
    exists (out :: outs), c2, a2. split_and!; [done | by econstructor | done].
Qed.
End simulation.
