(* ===== verification/SendQueue.v ===== *)
(** * The output queue ([include/SendQueue.hpp])

    [SendQueue] is a singly linked list of [TxFragment]s with a head, a tail and
    a cursor [curr_] at the first fragment that was not handed to the kernel.
    The nodes live in a heap, so that the aliasing of the three pointers, the
    [delete] of a popped node and the pointers stored in an [iovec] are explicit. *)

From S2P Require Import Prelude Refinement.

Module SendQueue.

(** A [TxFragment].  [data_] is the buffer that [ptr_] points to and [guard_]
    keeps alive ([[]] for [nullptr]); the buffer has one owner, its fragment. *)
Record TxFragment := mkTxFragment {
  data_ : list byte;
  len_ : Z;
  written_ : Z;
  next_ : ptr
}.

Definition new_TxFragment : TxFragment :=
  {| data_ := []; len_ := 0; written_ := 0; next_ := None |}.

(** [len_ - written_], in [size_t]. *)
Definition remainData (f : TxFragment) : Z := u64 (len_ f - written_ f).

(** An [iovec] whose base points [offset] bytes into the buffer of a fragment. *)
Record iovec := mkIovec {
  iov_base : option (nat * Z);
  iov_len : Z
}.

Definition set_next (n : ptr) (f : TxFragment) : TxFragment :=
  {| data_ := data_ f; len_ := len_ f; written_ := written_ f; next_ := n |}.
Definition set_written (w : Z) (f : TxFragment) : TxFragment :=
  {| data_ := data_ f; len_ := len_ f; written_ := w; next_ := next_ f |}.
Definition set_buffer (d : list byte) (f : TxFragment) : TxFragment :=
  {| data_ := d; len_ := zlen d; written_ := written_ f; next_ := next_ f |}.

Record SendQueue := mkSendQueue {
  heap : gmap nat TxFragment;
  head_ : ptr;
  tail_ : ptr;
  curr_ : ptr;
  slice_size_ : Z;
  total_len_ : Z
}.

Definition new_SendQueue : SendQueue :=
  {| heap := ∅; head_ := None; tail_ := None; curr_ := None;
     slice_size_ := 0; total_len_ := 0 |}.

Definition set_heap (h : gmap nat TxFragment) (q : SendQueue) : SendQueue :=
  {| heap := h; head_ := head_ q; tail_ := tail_ q; curr_ := curr_ q;
     slice_size_ := slice_size_ q; total_len_ := total_len_ q |}.
Definition set_ends (hd tl cu : ptr) (q : SendQueue) : SendQueue :=
  {| heap := heap q; head_ := hd; tail_ := tl; curr_ := cu;
     slice_size_ := slice_size_ q; total_len_ := total_len_ q |}.
Definition set_slice_size (n : Z) (q : SendQueue) : SendQueue :=
  {| heap := heap q; head_ := head_ q; tail_ := tail_ q; curr_ := curr_ q;
     slice_size_ := n; total_len_ := total_len_ q |}.
Definition set_total_len (n : Z) (q : SendQueue) : SendQueue :=
  {| heap := heap q; head_ := head_ q; tail_ := tail_ q; curr_ := curr_ q;
     slice_size_ := slice_size_ q; total_len_ := n |}.

(** Write through a pointer: [p->field = ...]. *)
Definition update (p : ptr) (f : TxFragment -> TxFragment) (q : SendQueue) : result SendQueue :=
  x ← deref (heap q) p;
  match p with
  | Some a => Ok (set_heap (<[a := f x]> (heap q)) q)
  | None => Fault NullDeref
  end.

Section operations.
Context {A : Allocator}.

Definition push_back (q : SendQueue) : result SendQueue :=
  let fragment := malloc (dom (heap q)) in
  let q := set_heap (<[fragment := new_TxFragment]> (heap q)) q in
  q ← match tail_ q with
      | None => Ok (set_ends (Some fragment) (Some fragment) (Some fragment) q)
      | Some _ =>
          q ← update (tail_ q) (set_next (Some fragment)) q;
          Ok (set_ends (head_ q) (Some fragment) (curr_ q) q)
      end;
  let q := match curr_ q with
           | None => set_ends (head_ q) (tail_ q) (tail_ q) q
           | Some _ => q
           end in
  Ok (set_slice_size (u64 (slice_size_ q + 1)) q).

Definition pop_front (q : SendQueue) : result SendQueue :=
  match head_ q with
  | None => Ok q
  | Some del_fragment =>
      f ← deref (heap q) (head_ q);
      let q := match next_ f with
               | None => set_ends None None None q
               | Some _ => set_ends (next_ f) (tail_ q) (curr_ q) q
               end in
      let q := set_heap (delete del_fragment (heap q)) q in
      Ok (set_slice_size (u64 (slice_size_ q - 1)) q)
  end.

(** [append]: both overloads; a [std::string], a [std::vector<char>] or
    [(data, len)] is the byte string that is copied or moved into the holder. *)
Definition append (data : list byte) (q : SendQueue) : result SendQueue :=
  q ← push_back q;
  q ← update (tail_ q) (set_buffer data) q;
  Ok (set_total_len (u64 (total_len_ q + zlen data)) q).

Definition getOneIovec (q : SendQueue) : result (iovec * SendQueue) :=
  match curr_ q with
  | None => Ok ({| iov_base := None; iov_len := 0 |}, q)
  | Some a =>
      f ← deref (heap q) (curr_ q);
      Ok ({| iov_base := Some (a, written_ f); iov_len := remainData f |},
          set_ends (head_ q) (tail_ q) (next_ f) q)
  end.

(** [getBatchFragment] with the vector emptied by the caller: the loop runs at
    most [max_count] times, which is the structural argument. *)
Fixpoint getBatchFragment (max_count : nat) (q : SendQueue) : result (list iovec * SendQueue) :=
  match max_count with
  | O => Ok ([], q)
  | S n =>
      match curr_ q with
      | None => Ok ([], q)
      | Some _ =>
          '(v, q) ← getOneIovec q;
          '(vs, q) ← getBatchFragment n q;
          Ok (v :: vs, q)
      end
  end.

Fixpoint retrieve_loop (fuel : nat) (len written : Z) (q : SendQueue) : result (Z * SendQueue) :=
  match fuel with
  | O => Fault OutOfFuel
  | S fuel =>
      match head_ q with
      | Some _ =>
          if written <? len then
            f ← deref (heap q) (head_ q);
            let offset := Z.min (remainData f) (u64 (len - written)) in
            let f' := set_written (u64 (written_ f + offset)) f in
            q ← update (head_ q) (fun _ => f') q;
            let written := u64 (written + offset) in
            q ← (if written_ f' =? len_ f' then pop_front q else Ok q);
            retrieve_loop fuel len written q
          else Ok (written, q)
      | None => Ok (written, q)
      end
  end.

Definition retrieve (len : Z) (q : SendQueue) : result SendQueue :=
  '(written, q) ← retrieve_loop (S (size (heap q))) len 0 q;
  let q := set_ends (head_ q) (tail_ q) (head_ q) q in
  Ok (set_total_len (u64 (total_len_ q - written)) q).

Definition isEmpty (q : SendQueue) : bool := total_len_ q =? 0.
Definition getTotalLen (q : SendQueue) : Z := total_len_ q.

(** [~SendQueue]: [while (head_) pop_front();] *)
Fixpoint destroy_loop (fuel : nat) (q : SendQueue) : result SendQueue :=
  match fuel with
  | O => Fault OutOfFuel
  | S fuel =>
      match head_ q with
      | None => Ok q
      | Some _ => q ← pop_front q; destroy_loop fuel q
      end
  end.
Definition destroy (q : SendQueue) : result SendQueue :=
  destroy_loop (S (size (heap q))) q.

End operations.

(** The bytes an [iovec] denotes: what [writev] reads through it. *)
Definition iov_bytes (h : gmap nat TxFragment) (v : iovec) : result (list byte) :=
  match iov_base v with
  | None => Ok []
  | Some (a, off) => f ← deref h (Some a); Ok (ztake (iov_len v) (zdrop off (data_ f)))
  end.
Fixpoint iovs_bytes (h : gmap nat TxFragment) (vs : list iovec) : result (list byte) :=
  match vs with
  | [] => Ok []
  | v :: vs => b ← iov_bytes h v; bs ← iovs_bytes h vs; Ok (b ++ bs)
  end.
(** ** Representation *)

(** The bytes of a fragment that are still to be sent, and of a chain. *)
Definition rest (f : TxFragment) : list byte := zdrop (written_ f) (data_ f).
Definition frags (l : list (nat * TxFragment)) : list (list byte) := map (fun x => rest x.2) l.
Definition bytes (l : list (nat * TxFragment)) : list byte := concat (frags l).

Definition frag_ok (f : TxFragment) : Prop :=
  len_ f = zlen (data_ f) /\ 0 <= written_ f <= len_ f /\ len_ f < SIZE_MAX.

(** [shape q l]: the nodes of [q] are [l], in order, and no other node is live. *)
Record shape (q : SendQueue) (l : list (nat * TxFragment)) : Prop := {
  shape_chain : chain next_ (heap q) (head_ q) l;
  shape_nodup : NoDup l.*1;
  shape_dom : dom (heap q) = list_to_set l.*1;
  shape_tail : tail_ q = fst <$> last l;
  shape_slices : slice_size_ q = u64 (zlen l);
  shape_frags : Forall (fun x => frag_ok x.2) l
}.

(** [rep q sent pending]: [sent] are the fragments the cursor has passed (their
    [iovec]s were handed out), [pending] the ones from [curr_] on. *)
Record rep (q : SendQueue) (sent pending : list (nat * TxFragment)) : Prop := {
  rep_shape : shape q (sent ++ pending);
  rep_curr : curr_ q = fst <$> head pending;
  rep_total : total_len_ q = zlen (bytes (sent ++ pending));
  rep_bound : zlen (bytes (sent ++ pending)) < SIZE_MAX
}.

(** ** Lemmas on chains *)

Lemma bytes_app l k : bytes (l ++ k) = bytes l ++ bytes k.
Proof. unfold bytes, frags. by rewrite map_app, concat_app. Qed.

Lemma bytes_cons a f l : bytes ((a, f) :: l) = rest f ++ bytes l.
Proof. reflexivity. Qed.

Lemma zlen_rest f : frag_ok f -> zlen (rest f) = len_ f - written_ f.
Proof. intros (? & ? & ?). unfold rest. rewrite zlen_zdrop by lia. lia. Qed.

Lemma remainData_ok f : frag_ok f -> remainData f = zlen (rest f).
Proof.
  intros Hf. rewrite zlen_rest by done. destruct Hf as (? & ? & ?).
  unfold remainData. apply wrap_small. lia.
Qed.

Lemma shape_size q l : shape q l -> size (heap q) = length l.
Proof.
  intros H. rewrite <- (size_dom (D := gset nat)), (shape_dom _ _ H).
  rewrite size_list_to_set by apply (shape_nodup _ _ H). by rewrite length_fmap.
Qed.

Lemma shape_fresh {A : Allocator} q l : shape q l -> malloc (dom (heap q)) ∉ l.*1.
Proof.
  intros H Hin. apply (malloc_fresh (dom (heap q))).
  rewrite (shape_dom _ _ H) at 2. by apply elem_of_list_to_set.
Qed.

Lemma frag_ok_set_next n f : frag_ok f -> frag_ok (set_next n f).
Proof. done. Qed.

Lemma new_frag_ok d : zlen d < SIZE_MAX -> frag_ok (set_buffer d new_TxFragment).
Proof. intros H. pose proof (zlen_nonneg d). repeat split; simpl; lia. Qed.

Lemma rep_nil : rep new_SendQueue [] [].
Proof. repeat split; simpl; try constructor; done. Qed.

(** ** [append] *)

(** The nodes after the last one was linked to [b]. *)
Definition link (b : nat) : list (nat * TxFragment) -> list (nat * TxFragment) :=
  upd_last (set_next (Some b)).

Lemma frags_link b l : frags (link b l) = frags l.
Proof.
  destruct l as [|[a f] l _] using rev_ind; [done|].
  unfold link, frags. rewrite upd_last_snoc, !map_app. reflexivity.
Qed.

Lemma bytes_link b l : bytes (link b l) = bytes l.
Proof. unfold bytes. by rewrite frags_link. Qed.

Lemma shape_link q q' l t f b g :
  shape q (l ++ [(t, f)]) -> b ∉ (l ++ [(t, f)]).*1 -> frag_ok g -> next_ g = None ->
  heap q' = <[t := set_next (Some b) f]> (<[b := g]> (heap q)) ->
  head_ q' = head_ q -> tail_ q' = Some b -> slice_size_ q' = u64 (slice_size_ q + 1) ->
  shape q' (l ++ [(t, set_next (Some b) f); (b, g)]).
Proof.
  intros [Hc Hnd Hdom Htl Hsl Hfr] Hb Hg Hn Hh Hhd Ht Hs.
  assert (Hk : (l ++ [(t, set_next (Some b) f); (b, g)]).*1 = (l ++ [(t, f)]).*1 ++ [b])
    by by rewrite !fmap_app, <- app_assoc.
  split; rewrite ?Hk, ?Hh, ?Hhd, ?Ht.
  - eapply chain_snoc; eauto.
    + rewrite fmap_app in Hnd, Hb. apply NoDup_app in Hnd as (_ & Hnd & _).
      intros c Hc'. rewrite !lookup_insert_ne; [done | set_solver|].
      intros ->. apply (Hnd c Hc'). set_solver.
    + by rewrite lookup_insert_eq.
    + rewrite lookup_insert_ne, lookup_insert_eq; [done|].
      intros ->. apply Hb. rewrite fmap_app. set_solver.
  - apply NoDup_app. split_and!; [done | set_solver | apply NoDup_singleton].
  - rewrite !dom_insert_L, Hdom, fmap_app, !list_to_set_app_L. simpl. set_solver.
  - rewrite last_app. done.
  - rewrite Hs, Hsl, wrap_add_l. f_equal. autorewrite with zlen. lia.
  - apply Forall_app in Hfr as [? Hf]. apply Forall_cons in Hf as [Hf _].
    rewrite Forall_app, !Forall_cons. done.
Qed.

Section append.
Context {A : Allocator}.

Lemma append_shape d q l :
  let b := malloc (dom (heap q)) in
  shape q l -> zlen d < SIZE_MAX ->
  exists q', append d q = Ok q' /\
    shape q' (link b l ++ [(b, set_buffer d new_TxFragment)]) /\
    curr_ q' = match l, curr_ q with [], _ | _, None => Some b | _, c => c end /\
    total_len_ q' = u64 (total_len_ q + zlen d).
Proof.
  intros b Hs Hd. pose proof (shape_fresh _ _ Hs) as Hb. fold b in Hb.
  pose proof Hs as [Hc Hnd Hdom Htl Hsl Hfr].
  destruct l as [|[t f] l _] using rev_ind.
  - inversion Hc as [Hh|]; subst. simpl in Htl.
    unfold append, push_back, update, set_ends, set_slice_size, set_heap, set_total_len.
    fold b. simpl. rewrite Htl. simpl. rewrite lookup_insert_eq. simpl.
    eexists. split; [done|]. simpl. split; [|done]. split; simpl; try done.
    + constructor; [by rewrite lookup_insert_eq | constructor].
    + apply NoDup_singleton.
    + rewrite insert_insert_eq, dom_insert_L, Hdom. simpl. set_solver.
    + by rewrite Hsl.
    + apply Forall_singleton. by apply new_frag_ok.
  - rewrite last_snoc in Htl. simpl in Htl.
    destruct (chain_at _ _ _ _ _ _ _ Hc) as [Hf Hnx].
    assert (Htb : t <> b) by (intros ->; apply Hb; rewrite fmap_app; set_solver).
    assert (Hcur : match l ++ [(t, f)], curr_ q with [], _ | _, None => Some b | _, c => c end
                   = match curr_ q with None => Some b | c => c end)
      by by destruct l.
    unfold link. rewrite Hcur, upd_last_snoc, <- app_assoc.
    unfold append, push_back, update, set_ends, set_slice_size, set_heap, set_total_len.
    fold b. simpl. rewrite Htl. simpl. rewrite lookup_insert_ne, Hf by done. simpl.
    destruct (curr_ q) as [c|]; simpl;
      rewrite (lookup_insert_ne _ t b), lookup_insert_eq by done; simpl;
      (eexists; split; [done|]; split; [|done]);
      (eapply shape_link; eauto using new_frag_ok; simpl;
       by rewrite (insert_insert_ne _ b t), insert_insert_eq).
Qed.

(** [append] adds a fragment behind everything that is queued, and the fragments
    already handed to the kernel stay in front of the cursor. *)
Lemma append_frags d q s p :
  rep q s p -> zlen (bytes (s ++ p)) + zlen d < SIZE_MAX ->
  exists q' s' p', append d q = Ok q' /\ rep q' s' p' /\
    frags s' = frags s /\ frags p' = frags p ++ [d] /\ length s' = length s /\ p' <> [].
Proof.
  intros [Hs Hcu Htot Hbd] Hlen. set (b := malloc (dom (heap q))).
  pose proof (zlen_nonneg (bytes (s ++ p))). pose proof (zlen_nonneg d).
  destruct (append_shape d q _ Hs) as (q' & Hq & Hs' & Hcu' & Ht'); [lia|]. fold b in Hs', Hcu'.
  assert (Hnew : bytes [(b, set_buffer d new_TxFragment)] = d) by apply app_nil_r.
  exists q'. destruct (decide (p = [])) as [->|Hp].
  - exists (link b s), [(b, set_buffer d new_TxFragment)].
    rewrite app_nil_r in *. simpl in Hcu. rewrite Hcu in Hcu'.
    split_and!; [done| split | apply frags_link | done | apply length_upd_last | done].
    + done.
    + rewrite Hcu'. by destruct s.
    + rewrite Ht', Htot, bytes_app, bytes_link, zlen_app, Hnew. apply wrap_small. lia.
    + rewrite bytes_app, bytes_link, Hnew, zlen_app. lia.
  - exists s, (link b p ++ [(b, set_buffer d new_TxFragment)]).
    unfold link in Hs'. rewrite upd_last_app, <- app_assoc in Hs' by done. fold (link b p) in Hs'.
    rewrite bytes_app, zlen_app in *.
    split_and!; [done| split | done | | done | by destruct (link b p)]; rewrite ?bytes_app, ?bytes_link, ?Hnew; try done.
    + rewrite Hcu', Hcu. by destruct p as [|[a f] [|y p]], s.
    + rewrite Ht', Htot, !zlen_app, wrap_small; lia.
    + rewrite !zlen_app. lia.
    + unfold frags. rewrite map_app. f_equal. apply frags_link.
Qed.

Lemma append_rep d q s p :
  rep q s p -> zlen (bytes (s ++ p)) + zlen d < SIZE_MAX ->
  exists q' s' p', append d q = Ok q' /\ rep q' s' p' /\
    bytes s' = bytes s /\ bytes p' = bytes p ++ d /\ length s' = length s /\ p' <> [].
Proof.
  intros Hr Hl. destruct (append_frags d q s p Hr Hl) as (q' & s' & p' & ? & ? & Hs & Hp & ? & ?).
  exists q', s', p'. unfold bytes. rewrite Hs, Hp, concat_app. simpl. by rewrite app_nil_r.
Qed.

End append.

(** ** [getOneIovec] and [getBatchFragment] *)

Definition iovec_of (x : nat * TxFragment) : iovec :=
  {| iov_base := Some (x.1, written_ x.2); iov_len := remainData x.2 |}.

Lemma getOneIovec_rep q s a f p :
  rep q s ((a, f) :: p) ->
  let q' := set_ends (head_ q) (tail_ q) (next_ f) q in
  getOneIovec q = Ok (iovec_of (a, f), q') /\ rep q' (s ++ [(a, f)]) p.
Proof.
  intros [Hs Hcu Ht Hb] q'. destruct (chain_at _ _ _ _ _ _ _ (shape_chain _ _ Hs)) as [Ha Hn].
  assert (He : (s ++ [(a, f)]) ++ p = s ++ (a, f) :: p) by by rewrite <- app_assoc.
  split.
  - unfold getOneIovec. rewrite Hcu. simpl. by rewrite Ha.
  - destruct Hs. split; rewrite ?He; try done.
Qed.

Lemma iov_bytes_of h x :
  h !! x.1 = Some x.2 -> frag_ok x.2 -> iov_bytes h (iovec_of x) = Ok (rest x.2).
Proof.
  intros Hx Hf. unfold iov_bytes, iovec_of. simpl. rewrite Hx. simpl.
  rewrite remainData_ok by done. unfold rest. by rewrite ztake_all.
Qed.

Lemma iovs_bytes_of h l :
  Forall (fun x => h !! x.1 = Some x.2 /\ frag_ok x.2) l ->
  iovs_bytes h (map iovec_of l) = Ok (bytes l).
Proof.
  induction 1 as [|[a f] l [Ha Hf] _ IH]; [done|]. simpl in *.
  rewrite (iov_bytes_of h (a, f)) by done. simpl. by rewrite IH.
Qed.

Lemma shape_nodes q l : shape q l -> Forall (fun x => heap q !! x.1 = Some x.2 /\ frag_ok x.2) l.
Proof.
  intros H. apply Forall_forall. intros [a f] Hin.
  apply list_elem_of_lookup in Hin as [i Hi]. split.
  - by eapply chain_lookup; [apply (shape_chain _ _ H)|].
  - apply (Forall_lookup_1 _ _ _ _ (shape_frags _ _ H) Hi).
Qed.

(** The batch is the next [n] fragments behind the cursor: their [iovec]s denote
    exactly the bytes that follow what was handed out before. *)
Lemma getBatchFragment_rep n q s p :
  rep q s p ->
  exists q', getBatchFragment n q = Ok (map iovec_of (take n p), q') /\
    rep q' (s ++ take n p) (drop n p) /\ heap q' = heap q /\
    iovs_bytes (heap q') (map iovec_of (take n p)) = Ok (bytes (take n p)).
Proof.
  intros Hr. enough (exists q', getBatchFragment n q = Ok (map iovec_of (take n p), q') /\
    rep q' (s ++ take n p) (drop n p) /\ heap q' = heap q) as (q' & ? & Hr' & ?).
  { exists q'. split_and!; try done. apply iovs_bytes_of.
    pose proof (shape_nodes _ _ (rep_shape _ _ _ Hr')) as Hn.
    apply Forall_app in Hn as [Hn _]. by apply Forall_app in Hn as [_ Hn]. }
  revert q s p Hr. induction n as [|n IH]; intros q s p Hr.
  - exists q. simpl. by rewrite app_nil_r.
  - destruct p as [|[a f] p]; simpl.
    + rewrite (rep_curr _ _ _ Hr). simpl. exists q. by rewrite app_nil_r.
    + destruct (getOneIovec_rep _ _ _ _ _ Hr) as [Hg Hr'].
      destruct (IH _ _ _ Hr') as (q' & Hq' & Hr'' & Hh).
      exists q'. rewrite (rep_curr _ _ _ Hr), Hg. simpl. rewrite Hq'. simpl.
      rewrite <- app_assoc in Hr''. done.
Qed.

(** ** [pop_front], [retrieve], the destructor *)

Lemma pop_front_shape q a f l :
  shape q ((a, f) :: l) ->
  exists q', pop_front q = Ok q' /\ shape q' l /\ total_len_ q' = total_len_ q.
Proof.
  intros [Hc Hnd Hdom Htl Hsl Hfr]. inversion Hc as [|? ? ? Ha Hc' Hp]; subst.
  apply NoDup_cons in Hnd as [Hna Hnd]. apply Forall_cons in Hfr as [_ Hfr].
  unfold pop_front. rewrite <- Hp. simpl. rewrite Ha. simpl.
  eexists. split; [done|]. split; [split|]; try done.
  - apply (chain_frame _ (heap q)); simpl; [by destruct (next_ f)|].
    intros b Hb. destruct (next_ f); simpl; rewrite lookup_delete_ne by set_solver; done.
  - simpl. destruct (next_ f); simpl; rewrite dom_delete_L, Hdom; simpl in *; set_solver.
  - inversion Hc' as [|b g k]; subst; simpl; [done|]. rewrite Htl. by destruct k.
  - destruct (next_ f); simpl; rewrite Hsl, wrap_sub_l; f_equal; autorewrite with zlen; lia.
  - by destruct (next_ f).
Qed.

Lemma update_head_shape q a f f' l :
  shape q ((a, f) :: l) -> frag_ok f' -> next_ f' = next_ f ->
  exists q', update (head_ q) (fun _ => f') q = Ok q' /\ shape q' ((a, f') :: l) /\
    total_len_ q' = total_len_ q.
Proof.
  intros [Hc Hnd Hdom Htl Hsl Hfr] Hf Hn. inversion Hc as [|? ? ? Ha Hc' Hp]; subst.
  pose proof Hnd as Hnd'. apply NoDup_cons in Hnd' as [Hna _]. apply Forall_cons in Hfr as [_ Hfr].
  unfold update. simpl. rewrite Ha. simpl.
  eexists. split; [done|]. split; [split|]; simpl; try done.
  - rewrite <- Hp. constructor; [by rewrite lookup_insert_eq|].
    rewrite Hn. apply (chain_frame _ (heap q)); [done|].
    intros b Hb. rewrite lookup_insert_ne; [done | set_solver].
  - rewrite dom_insert_lookup_L by done. done.
  - rewrite Htl. by destruct l.
  - by constructor.
Qed.

(** The first [n] bytes of a list of fragments go; a fragment that is used up goes
    with them, and one that is empty goes only when bytes behind it do. *)
Fixpoint drop_frags (n : Z) (fs : list (list byte)) : list (list byte) :=
  match fs with
  | [] => []
  | f :: fs' =>
      if n <=? 0 then fs
      else if zlen f <=? n then drop_frags (n - zlen f) fs'
      else zdrop n f :: fs'
  end.

Lemma concat_drop_frags fs : forall n, 0 <= n -> concat (drop_frags n fs) = zdrop n (concat fs).
Proof.
  induction fs as [|f fs IH]; intros n Hn; simpl; [by rewrite zdrop_all by (rewrite zlen_nil; lia)|].
  destruct (Z.leb_spec n 0); [by replace n with 0 by lia|].
  destruct (Z.leb_spec (zlen f) n); [rewrite IH, zdrop_app_r by lia; done|].
  simpl. by rewrite zdrop_app_l by lia.
Qed.

Lemma retrieve_loop_shape fuel len w q l :
  shape q l -> 0 <= w <= len -> len < SIZE_MAX -> (length l < fuel)%nat ->
  exists q' l', retrieve_loop fuel len w q = Ok (w + Z.min (len - w) (zlen (bytes l)), q') /\
    shape q' l' /\ frags l' = drop_frags (len - w) (frags l) /\ total_len_ q' = total_len_ q.
Proof.
  revert w q l. induction fuel as [|fuel IH]; intros w q l Hs Hw Hlen Hfu; [lia|].
  simpl. destruct l as [|[a f] l].
  - pose proof (shape_chain _ _ Hs) as Hc. inversion Hc as [Hh|]. exists q, [].
    change (zlen (bytes [])) with 0. rewrite Z.min_r, Z.add_0_r by lia.
    done.
  - pose proof (shape_chain _ _ Hs) as Hc. inversion Hc as [|? ? ? Ha Hc' Hp]; subst.
    pose proof (shape_frags _ _ Hs) as Hfr. apply Forall_cons in Hfr as [Hf _]. simpl in Hf.
    pose proof (zlen_rest _ Hf) as Hrest. rewrite bytes_cons, zlen_app.
    pose proof (zlen_nonneg (bytes l)).
    destruct (Z.ltb_spec w len) as [Hlt|Hge].
    2:{ exists q, ((a, f) :: l). rewrite Z.min_l by (pose proof (zlen_nonneg (rest f)); lia).
        replace (len - w) with 0 by lia. rewrite Z.add_0_r. done. }
    assert (Hdf : drop_frags (len - w) (frags ((a, f) :: l)) =
      if zlen (rest f) <=? len - w then drop_frags (len - w - zlen (rest f)) (frags l)
      else zdrop (len - w) (rest f) :: frags l).
    { simpl. by rewrite (proj2 (Z.leb_gt (len - w) 0)) by lia. }
    rewrite Hdf.
    simpl. rewrite Ha. simpl. rewrite remainData_ok, (wrap_small 64 (len - w)) by (done || lia).
    set (off := Z.min (zlen (rest f)) (len - w)).
    pose proof Hf as (Hfl & Hfw & Hfb).
    rewrite (wrap_small 64 (written_ f + off)), (wrap_small 64 (w + off)) by (unfold off; lia).
    set (f' := set_written (written_ f + off) f).
    assert (Hf' : frag_ok f') by (unfold f', off; repeat split; simpl; lia).
    assert (Hr' : rest f' = zdrop off (rest f)).
    { unfold rest, f'. simpl. rewrite zdrop_zdrop by (unfold off; lia). done. }
    destruct (update_head_shape _ _ _ f' _ Hs Hf' eq_refl) as (q1 & Hq1 & Hs1 & Ht1).
    rewrite <- Hp in Hq1. rewrite Hq1. simpl.
    destruct (Z.eqb_spec (written_ f + off) (len_ f)) as [Heq|Hne].
    + destruct (pop_front_shape _ _ _ _ Hs1) as (q2 & Hq2 & Hs2 & Ht2). rewrite Hq2. simpl.
      destruct (IH (w + off) q2 l Hs2) as (q3 & l3 & Hq3 & Hs3 & Hb3 & Ht3);
        [unfold off; lia | done | simpl in Hfu; lia|].
      assert (Hoff : off = zlen (rest f)) by lia.
      exists q3, l3. rewrite Hq3. split_and!; [do 2 f_equal; lia | done | | congruence].
      rewrite Hb3, (proj2 (Z.leb_le _ _)) by lia. f_equal. lia.
    + assert (Hoff : off = len - w) by (unfold off in *; lia).
      destruct fuel as [|fuel]; [simpl in Hfu; lia|]. simpl.
      pose proof (shape_chain _ _ Hs1) as Hc1. inversion Hc1 as [|? ? ? _ _ Hp1].
      rewrite (proj2 (Z.ltb_ge _ _)) by lia. exists q1, ((a, f') :: l).
      split_and!; [do 2 f_equal; lia | done | | done].
      rewrite (proj2 (Z.leb_gt _ _)) by (unfold off in *; lia). simpl. by rewrite Hr', Hoff.
Qed.

Lemma retrieve_frags len q s p :
  rep q s p -> 0 <= len < SIZE_MAX ->
  exists q' p', retrieve len q = Ok q' /\ rep q' [] p' /\ frags p' = drop_frags len (frags (s ++ p)).
Proof.
  intros [Hs Hcu Ht Hb] Hlen.
  destruct (retrieve_loop_shape (S (size (heap q))) len 0 q _ Hs) as (q' & l' & Hq & Hs' & Hb' & Ht');
    [lia | lia | rewrite (shape_size _ _ Hs); lia |].
  unfold retrieve. rewrite Hq. simpl. rewrite Z.sub_0_r in Hb'.
  pose proof (zlen_nonneg (bytes (s ++ p))).
  assert (Hz : zlen (bytes l') = zlen (bytes (s ++ p)) - Z.min len (zlen (bytes (s ++ p)))).
  { unfold bytes at 1. rewrite Hb', concat_drop_frags, zlen_zdrop by lia. unfold bytes. lia. }
  eexists _, l'. split; [done|]. split; [|done]. destruct Hs' as [Hc Hn Hd Htl Hsl Hfr]. split; simpl.
  - by split.
  - inversion Hc; by subst.
  - rewrite Ht', Ht, Hz, Z.sub_0_r. apply wrap_small. lia.
  - lia.
Qed.

Lemma retrieve_rep len q s p :
  rep q s p -> 0 <= len < SIZE_MAX ->
  exists q' p', retrieve len q = Ok q' /\ rep q' [] p' /\
    bytes p' = zdrop len (bytes (s ++ p)).
Proof.
  intros Hr Hl. destruct (retrieve_frags len q s p Hr Hl) as (q' & p' & ? & ? & Hf).
  exists q', p'. unfold bytes. rewrite Hf, concat_drop_frags by lia. done.
Qed.

Lemma destroy_loop_shape fuel q l :
  shape q l -> (length l < fuel)%nat ->
  exists q', destroy_loop fuel q = Ok q' /\ heap q' = ∅.
Proof.
  revert q l. induction fuel as [|fuel IH]; intros q l Hs Hfu; [lia|]. simpl.
  destruct l as [|[a f] l]; pose proof (shape_chain _ _ Hs) as Hc; inversion Hc as [|? ? ? Ha Hc' Hp]; subst.
  - exists q. split; [done|]. apply dom_empty_inv_L. by rewrite (shape_dom _ _ Hs).
  - destruct (pop_front_shape _ _ _ _ Hs) as (q1 & Hq1 & Hs1 & _). rewrite Hq1. simpl.
    apply (IH q1 l); [done|]. simpl in Hfu. lia.
Qed.

(** Buffers of live fragments are not touched by [append]. *)
Lemma destroy_rep q s p : rep q s p -> exists q', destroy q = Ok q' /\ heap q' = ∅.
Proof.
  intros Hr. apply (destroy_loop_shape _ _ (s ++ p)); [apply (rep_shape _ _ _ Hr)|].
  rewrite (shape_size _ _ (rep_shape _ _ _ Hr)). lia.
Qed.

Lemma append_heap {A : Allocator} d q q' l a f :
  shape q l -> shape q' (link (malloc (dom (heap q))) l ++ [(malloc (dom (heap q)), d)]) ->
  heap q !! a = Some f -> exists f', heap q' !! a = Some f' /\ data_ f' = data_ f.
Proof.
  intros Hs Hs' Ha.
  assert (Hin : a ∈ l.*1).
  { apply (elem_of_list_to_set (C := gset nat)). rewrite <- (shape_dom _ _ Hs).
    by apply elem_of_dom_2 in Ha. }
  apply list_elem_of_fmap in Hin as ([a' g] & Heq & Hin). simpl in Heq. subst a'.
  apply list_elem_of_lookup in Hin as [i Hi].
  pose proof (chain_lookup _ _ _ _ _ _ _ (shape_chain _ _ Hs) Hi) as Hg. simplify_eq.
  destruct (upd_last_lookup (set_next (Some (malloc (dom (heap q))))) _ _ _ _ Hi) as (f' & Hi' & Hd).
  exists f'. split; [|by destruct Hd as [->| ->]]. eapply chain_lookup; [apply (shape_chain _ _ Hs')|].
  by apply lookup_app_l_Some.
Qed.

Lemma iovs_bytes_data h h' vs bs :
  (forall a f, h !! a = Some f -> exists f', h' !! a = Some f' /\ data_ f' = data_ f) ->
  iovs_bytes h vs = Ok bs -> iovs_bytes h' vs = Ok bs.
Proof.
  intros Hh. revert bs. induction vs as [|v vs IH]; simpl; intros bs Hb; [done|].
  unfold iov_bytes in *. destruct (iov_base v) as [[a o]|]; simpl in *.
  - destruct (h !! a) as [f|] eqn:Ha; [|done]. destruct (Hh _ _ Ha) as (f' & Hf' & Hd).
    rewrite Hf'. simpl in *. rewrite Hd.
    destruct (iovs_bytes h vs) as [bs'|] eqn:Hbs; [|done]. simpl in *. by rewrite (IH bs').
  - destruct (iovs_bytes h vs) as [bs'|] eqn:Hbs; [|done]. simpl in *. by rewrite (IH bs').
Qed.

(** [append] with what it means for the batch in flight: every [iovec] still
    denotes the bytes it denoted. *)
Lemma append_in_flight {A : Allocator} d q s p :
  rep q s p -> zlen (bytes (s ++ p)) + zlen d < SIZE_MAX ->
  exists q' s' p', append d q = Ok q' /\ rep q' s' p' /\
    bytes s' = bytes s /\ bytes p' = bytes p ++ d /\ length s' = length s /\ p' <> [] /\
    (forall vs bs, iovs_bytes (heap q) vs = Ok bs -> iovs_bytes (heap q') vs = Ok bs).
Proof.
  intros Hr Hl. destruct (append_rep d q s p Hr Hl) as (q' & s' & p' & Hq & Hr' & Hs & Hp & Hn & Hne).
  exists q', s', p'. split_and!; try done. intros vs bs.
  destruct (append_shape d q _ (rep_shape _ _ _ Hr)) as (q2 & Hq2 & Hs2 & _).
  { pose proof (zlen_nonneg (bytes (s ++ p))). lia. }
  rewrite Hq in Hq2. simplify_eq. apply iovs_bytes_data. intros a f.
  by eapply append_heap; [apply (rep_shape _ _ _ Hr)|].
Qed.

(** ** The contract: a queue of fragments with a batch in flight

    The abstract queue is the list of fragments handed out since the last
    [retrieve] and the list of those still queued; [in_flight] is what the kernel
    reads through the [iovec]s of the last batch, until the next [retrieve]. *)

Inductive op :=
  | Append (d : list byte)
  | Batch (n : nat)      (** [getBatchFragment] *)
  | Transmit             (** the kernel reads the batch *)
  | Retrieve (len : Z)
  | TotalLen
  | IsEmpty
  | Destroy.             (** [~SendQueue] *)
Inductive out :=
  | ODone
  | OBatch (slices : nat) (bs : list byte)
  | OBytes (bs : list byte)
  | OLen (n : Z)
  | OBool (b : bool).

Record spec := mkSpec {
  handed : list (list byte);
  queued : list (list byte);
  in_flight : option (list byte);
  destroyed : bool
}.

(** Nothing is called on a destroyed queue. *)
Definition spec_pre (o : op) (a : spec) : Prop :=
  destroyed a = false /\
  match o with
  | Append d => zlen (concat (handed a ++ queued a)) + zlen d < SIZE_MAX
  | Transmit => in_flight a <> None
  | Retrieve len => 0 <= len < SIZE_MAX
  | Batch _ | TotalLen | IsEmpty | Destroy => True
  end.

Definition spec_step (o : op) (a : spec) (r : out) (a' : spec) : Prop :=
  match o with
  | Append d => r = ODone /\ a' = mkSpec (handed a) (queued a ++ [d]) (in_flight a) false
  | Batch n =>
      let b := take n (queued a) in
      r = OBatch (length b) (concat b) /\ a' = mkSpec (handed a ++ b) (drop n (queued a)) (Some (concat b)) false
  | Transmit => in_flight a = Some match r with OBytes bs => bs | _ => [] end /\ (exists bs, r = OBytes bs) /\ a' = a
  | Retrieve len => r = ODone /\ a' = mkSpec [] (drop_frags len (handed a ++ queued a)) None false
  | TotalLen => r = OLen (zlen (concat (handed a ++ queued a))) /\ a' = a
  | IsEmpty => r = OBool (bool_decide (concat (handed a ++ queued a) = [])) /\ a' = a
  | Destroy => r = ODone /\ a' = mkSpec [] [] None true
  end.

Definition impl_step {A : Allocator} (o : op) (c : SendQueue * list iovec) : result (out * (SendQueue * list iovec)) :=
  let '(q, vs) := c in
  match o with
  | Append d => q ← append d q; Ok (ODone, (q, vs))
  | Batch n =>
      '(vs, q) ← getBatchFragment n q;
      bs ← iovs_bytes (heap q) vs;
      Ok (OBatch (length vs) bs, (q, vs))
  | Transmit => bs ← iovs_bytes (heap q) vs; Ok (OBytes bs, (q, vs))
  | Retrieve len => q ← retrieve len q; Ok (ODone, (q, vs))
  | TotalLen => Ok (OLen (getTotalLen q), (q, vs))
  | IsEmpty => Ok (OBool (isEmpty q), (q, vs))
  | Destroy => q ← destroy q; Ok (ODone, (q, vs))
  end.

(** A destroyed queue has freed every fragment. *)
Definition refines (c : SendQueue * list iovec) (a : spec) : Prop :=
  if destroyed a then heap c.1 = ∅
  else exists s p, rep c.1 s p /\ handed a = frags s /\ queued a = frags p /\
    (forall bs, in_flight a = Some bs -> iovs_bytes (heap c.1) c.2 = Ok bs).

Lemma frags_app l k : frags (l ++ k) = frags l ++ frags k.
Proof. apply map_app. Qed.

Lemma frags_take n l : take n (frags l) = frags (take n l).
Proof. unfold frags. by rewrite firstn_map. Qed.

Lemma send_queue_simulates {A : Allocator} : forward_simulation impl_step spec_pre spec_step refines.
Proof.
  intros o [q vs] [hd qd fl de] HR [Hde Hpre]. simpl in Hde. subst de. destruct HR as (s & p & Hr & Hh & Hq & Hf).
  simpl in *. subst hd qd. destruct o as [d|n| |len| | |]; simpl in *.
  - rewrite <- frags_app in Hpre. destruct (append_frags d q s p Hr Hpre) as (q' & s' & p' & E & Hr' & Hs & Hp & _).
    destruct (append_in_flight d q s p Hr Hpre) as (q2 & _ & _ & E2 & _ & _ & _ & _ & _ & Hio).
    rewrite E in E2. injection E2 as <-. rewrite E. simpl. eexists _, _, _. split; [done|]. split; [done|].
    exists s', p'. simpl. split_and!; try done. intros bs Hb. by apply Hio, Hf.
  - destruct (getBatchFragment_rep n q s p Hr) as (q' & E & Hr' & Hhe & Hb). rewrite E. simpl. rewrite Hb. simpl.
    eexists _, _, _. split; [done|]. split.
    + split; [|done]. rewrite frags_take. unfold frags. by rewrite !length_map.
    + exists (s ++ take n p), (drop n p). simpl. split_and!; try done.
      * by rewrite frags_app, frags_take.
      * unfold frags. by rewrite skipn_map.
      * intros bs [= <-]. by rewrite Hb, frags_take.
  - destruct fl as [bs|]; [|done]. rewrite (Hf bs eq_refl). simpl. eexists _, _, _. split; [done|].
    split; [by eauto|]. by exists s, p.
  - destruct (retrieve_frags len q s p Hr Hpre) as (q' & p' & E & Hr' & Hp). rewrite E. simpl.
    eexists _, _, _. split; [done|]. split; [done|]. exists [], p'. by rewrite <- frags_app.
  - exists (OLen (getTotalLen q)), (q, vs), (mkSpec (frags s) (frags p) fl false).
    split; [done|]. split; [|by exists s, p]. simpl. split; [|done].
    unfold getTotalLen. by rewrite (rep_total _ _ _ Hr), <- frags_app.
  - exists (OBool (isEmpty q)), (q, vs), (mkSpec (frags s) (frags p) fl false).
    split; [done|]. split; [|by exists s, p]. simpl. split; [|done]. unfold isEmpty. f_equal.
    rewrite (rep_total _ _ _ Hr), <- frags_app. unfold bytes. apply eq_bool_prop_intro.
    rewrite Is_true_true, Z.eqb_eq, bool_decide_spec. unfold zlen. rewrite <- length_zero_iff_nil. lia.
  - destruct (destroy_rep q s p Hr) as (q' & E & Hh). rewrite E. by eexists _, _, _.
Qed.

(** ** Properties *)

(** C21. The linked queue on the heap implements the abstract queue of fragments:
    on every sequence of calls that keeps the total below the range of [size_t],
    and whatever addresses [new] returns, no call faults, the batches and lengths
    returned are those of the abstract queue, what the kernel reads through
    the [iovec]s of a batch stays the same until [retrieve], also while data is
    appended, and the destructor frees every fragment. *)
Theorem send_queue_refines {A : Allocator} ops :
  allowed spec_pre spec_step ops (mkSpec [] [] None false) ->
  exists outs c a, crun impl_step ops (new_SendQueue, []) = Ok (outs, c) /\
    arun spec_step ops (mkSpec [] [] None false) outs a /\ refines c a.
Proof.
  intros Hal. eapply (simulation_runs _ spec_pre _ refines); [apply send_queue_simulates | | done].
  exists [], []. split_and!; try done. apply rep_nil.
Qed.

(** [append] never faults, whatever address [new] returns; it adds the data
    behind all queued bytes, keeps the fragments already handed to the kernel in
    front of the cursor, and leaves every [iovec] that is in flight pointing to
    the bytes it pointed to. *)
Theorem append_correct {A : Allocator} d q s p :
  rep q s p -> zlen (bytes (s ++ p)) + zlen d < SIZE_MAX ->
  exists q' s' p', append d q = Ok q' /\ rep q' s' p' /\
    bytes s' = bytes s /\ bytes p' = bytes p ++ d /\
    (forall vs bs, iovs_bytes (heap q) vs = Ok bs -> iovs_bytes (heap q') vs = Ok bs).
Proof.
  intros Hr Hl. destruct (append_in_flight d q s p Hr Hl) as (q' & s' & p' & ? & ? & ? & ? & _ & _ & ?).
  by exists q', s', p'.
Qed.

(** A batch of at most [n] fragments: [getBatchFragment] hands out the next
    fragments behind the cursor, in order; the [iovec]s are valid pointers and
    denote exactly the bytes that follow those handed out before; the cursor
    moves behind them and nothing is removed from the queue. *)
Theorem getBatchFragment_correct n q s p :
  rep q s p ->
  exists vs q', getBatchFragment n q = Ok (vs, q') /\
    rep q' (s ++ take n p) (drop n p) /\
    iovs_bytes (heap q') vs = Ok (bytes (take n p)) /\
    length vs = Nat.min n (length p) /\ total_len_ q' = total_len_ q.
Proof.
  intros Hr. destruct (getBatchFragment_rep n q s p Hr) as (q' & Hq & Hr' & Hh & Hb).
  eexists _, q'. split_and!; try done.
  - by rewrite length_map, length_take.
  - rewrite (rep_total _ _ _ Hr), (rep_total _ _ _ Hr'), <- app_assoc, take_drop. done.
Qed.

(** [retrieve(len)] terminates without a fault and removes exactly the first
    [len] queued bytes (all of them when fewer are queued), across fragment
    boundaries; the cursor returns to the first remaining byte and [getTotalLen]
    is the exact number of bytes left, with no wrap-around. *)
Theorem retrieve_correct len q s p :
  rep q s p -> 0 <= len < SIZE_MAX ->
  exists q' p', retrieve len q = Ok q' /\ rep q' [] p' /\
    bytes p' = zdrop len (bytes (s ++ p)) /\
    getTotalLen q' = Z.max 0 (getTotalLen q - len).
Proof.
  intros Hr Hlen. destruct (retrieve_rep len q s p Hr Hlen) as (q' & p' & Hq & Hr' & Hb).
  exists q', p'. split_and!; try done. unfold getTotalLen.
  rewrite (rep_total _ _ _ Hr'), (rep_total _ _ _ Hr). simpl. rewrite Hb, zlen_zdrop by lia. lia.
Qed.

(** The destructor terminates and deletes every fragment exactly once: no
    fault on the way and no live node at the end. *)
Theorem destroy_correct q s p :
  rep q s p -> exists q', destroy q = Ok q' /\ heap q' = ∅.
Proof. apply destroy_rep. Qed.

(** ** Witnesses *)

(** The queue of the unit test [AppendVectorAndCString]: "abc" then "XY". *)
Definition demo : SendQueue :=
  {| heap := {[ 0%nat := {| data_ := [x61; x62; x63]; len_ := 3; written_ := 0; next_ := Some 1%nat |};
                1%nat := {| data_ := [x58; x59]; len_ := 2; written_ := 0; next_ := None |} ]};
     head_ := Some 0%nat; tail_ := Some 1%nat; curr_ := Some 0%nat;
     slice_size_ := 2; total_len_ := 5 |}.
Definition demo_nodes : list (nat * TxFragment) :=
  [(0%nat, {| data_ := [x61; x62; x63]; len_ := 3; written_ := 0; next_ := Some 1%nat |});
   (1%nat, {| data_ := [x58; x59]; len_ := 2; written_ := 0; next_ := None |})].

Lemma demo_rep : rep demo [] demo_nodes.
Proof.
  split; [|done..]. split; try done.
  - constructor; [done|]. constructor; [done|]. constructor.
  - apply (bool_decide_unpack _). done.
  - repeat constructor; simpl; done.
Qed.

Definition demo_ops : list op :=
  [Append [x61; x62; x63]; Batch 4; Append [x58; x59]; Transmit; Retrieve 2; TotalLen; IsEmpty; Destroy].

Lemma send_queue_refines_witness :
  exists c, crun (impl_step (A := first_fit)) demo_ops (new_SendQueue, []) =
    Ok ([ODone; OBatch 1 [x61; x62; x63]; ODone; OBytes [x61; x62; x63]; ODone; OLen 3; OBool false; ODone], c).
Proof.
  destruct (send_queue_refines (A := first_fit) demo_ops) as (outs & c & a & E & H & _).
  { simpl. repeat (split; [vm_compute; done | intros ? ? HH; simpl in HH; destruct_and? HH; subst]). done. }
  exists c. rewrite E. do 2 f_equal. unfold demo_ops in H.
  repeat match goal with H : arun _ (_ :: _) _ _ _ |- _ => inversion H; clear H; subst end.
  match goal with H : arun _ [] _ _ _ |- _ => inversion H; subst end.
  clear E. repeat (progress simpl in * || destruct_and? || subst).
  repeat match goal with H : exists bs, _ = OBytes bs |- _ => destruct H as [? ->] end.
  simplify_eq/=. reflexivity.
Defined.

Lemma append_correct_witness :
  rep demo [] demo_nodes /\
  exists q', @append first_fit [x7a] demo = Ok q' /\ getTotalLen q' = 6.
Proof.
  split; [exact demo_rep|].
  destruct (@append_correct first_fit [x7a] demo [] demo_nodes demo_rep) as (q' & s' & p' & H & R & Hs & Hp & _).
  { vm_compute. done. }
  exists q'. split; [exact H|]. unfold getTotalLen.
  rewrite (rep_total _ _ _ R), bytes_app, Hs, Hp. reflexivity.
Defined.

Lemma getBatchFragment_correct_witness :
  exists vs q', getBatchFragment 1 demo = Ok (vs, q') /\ iovs_bytes (heap q') vs = Ok [x61; x62; x63].
Proof.
  destruct (getBatchFragment_correct 1 demo [] demo_nodes demo_rep) as (vs & q' & H & _ & Hb & _).
  exists vs, q'. split; [exact H | exact Hb].
Defined.

Lemma retrieve_correct_witness :
  exists q', retrieve 4 demo = Ok q' /\ getTotalLen q' = 1.
Proof.
  destruct (retrieve_correct 4 demo [] demo_nodes demo_rep) as (q' & p' & H & _ & _ & Ht).
  { lia. }
  exists q'. split; [exact H | exact Ht].
Defined.

Lemma destroy_correct_witness : exists q', destroy demo = Ok q' /\ heap q' = ∅.
Proof. exact (destroy_correct demo [] demo_nodes demo_rep). Defined.

End SendQueue.
