(* ===== verification/ChunkPool.v ===== *)
(** * The receive buffers ([include/ChunkPool.h], [src/ChunkPoolManagerInput.cc])

    One [ChunkPoolManagerInput] per loop owns a block of memory cut into chunks
    and a provided-buffer ring through which the kernel borrows them.  The ring
    is liburing's: it is the class [BufRing], a record of the functions the
    sources call with what their manual pages promise. *)

From S2P Require Import Prelude.

(** ** The provided-buffer ring of liburing *)

(** [available r]: the buffer ids the kernel may take, oldest first;
    [kernel_take]: the kernel takes the oldest one for a receive.
    [staged r i]: the id that was added at offset [i] behind the tail and that is
    not visible to the kernel before an [advance].  An entry beyond the capacity
    ([mask + 1] entries) would overwrite one the kernel can see, so the promises
    about [add] hold within the capacity only. *)
Class BufRing := {
  buf_ring : Type;
  io_uring_buf_ring_init : Z -> buf_ring;
  io_uring_buf_ring_mask : Z -> Z;
  io_uring_buf_ring_add : buf_ring -> Z -> Z -> Z -> Z -> Z -> buf_ring;
  io_uring_buf_ring_advance : buf_ring -> Z -> buf_ring;
  kernel_take : buf_ring -> buf_ring;
  available : buf_ring -> list Z;
  staged : buf_ring -> Z -> option Z;
  init_available : forall a, available (io_uring_buf_ring_init a) = [];
  init_staged : forall a i, staged (io_uring_buf_ring_init a) i = None;
  mask_entries : forall n, io_uring_buf_ring_mask n = n - 1;
  add_available : forall r addr len bid mask off,
    zlen (available r) + off <= mask ->
    available (io_uring_buf_ring_add r addr len bid mask off) = available r;
  add_staged : forall r addr len bid mask off i,
    zlen (available r) + off <= mask -> 0 <= off ->
    staged (io_uring_buf_ring_add r addr len bid mask off) i =
      if i =? off then Some bid else staged r i;
  advance_available : forall r bids,
    (forall i b, bids !! i = Some b -> staged r (Z.of_nat i) = Some b) ->
    available (io_uring_buf_ring_advance r (zlen bids)) = available r ++ bids;
  advance_staged : forall r n i, 0 <= n -> 0 <= i ->
    staged (io_uring_buf_ring_advance r n) i = staged r (n + i);
  take_available : forall r b bs, available r = b :: bs -> available (kernel_take r) = bs;
  take_staged : forall r b bs i, available r = b :: bs -> staged (kernel_take r) i = staged r i
}.

(** A ring that satisfies the promises, for evaluation. *)
Module ListRing.
Definition ring : Type := list Z * (Z -> option Z).
Definition add (r : ring) (_ _ bid _ off : Z) : ring :=
  (r.1, fun i => if i =? off then Some bid else r.2 i).
Definition advance (r : ring) (n : Z) : ring :=
  (r.1 ++ omap (fun i => r.2 (Z.of_nat i)) (seq 0 (Z.to_nat n)), fun i => r.2 (n + i)).

Lemma omap_staged (f : nat -> option Z) bids k :
  (forall i b, bids !! i = Some b -> f (k + i)%nat = Some b) ->
  omap f (seq k (length bids)) = bids.
Proof.
  revert k. induction bids as [|b bids IH]; intros k Hf; [done|]. simpl.
  rewrite <- (Nat.add_0_r k) at 1. rewrite (Hf 0%nat b) by done. f_equal.
  apply IH. intros i c Hi. rewrite <- (Hf (S i) c) by done. f_equal. lia.
Qed.
End ListRing.

Definition list_ring : BufRing.
Proof.
  refine {| buf_ring := ListRing.ring;
            io_uring_buf_ring_init := fun _ => ([], fun _ => None);
            io_uring_buf_ring_mask := fun n => n - 1;
            io_uring_buf_ring_add := ListRing.add;
            io_uring_buf_ring_advance := ListRing.advance;
            kernel_take := fun r => (tail r.1, r.2);
            available := fst; staged := snd |}; try done.
  - intros [av st] bids Hb. simpl. f_equal. unfold zlen. rewrite Nat2Z.id.
    by apply ListRing.omap_staged.
  - intros [av st] b bs Hb. simpl in *. by rewrite Hb.
Defined.

(** ** [Chunk] *)

Module Chunk.

(** [data_ptr_] is an address in the memory of the pool, [next_] points to a
    chunk of the manager's array. *)
Record Chunk := mkChunk {
  data_ptr_ : Z;
  index_ : Z;
  next_ : ptr;
  head_ : Z;
  tail_ : Z
}.

Definition new_Chunk (data_ptr idx : Z) : Chunk :=
  {| data_ptr_ := data_ptr; index_ := u16 idx; next_ := None; head_ := 0; tail_ := 0 |}.
Definition readableBytes (c : Chunk) : Z := u64 (tail_ c - head_ c).
Definition reset (c : Chunk) : Chunk :=
  {| data_ptr_ := data_ptr_ c; index_ := index_ c; next_ := None; head_ := 0; tail_ := 0 |}.
Definition beginWrite (c : Chunk) : Z := data_ptr_ c + tail_ c.
Definition beginRead (c : Chunk) : Z := data_ptr_ c + head_ c.

Definition set_next (n : ptr) (c : Chunk) : Chunk :=
  {| data_ptr_ := data_ptr_ c; index_ := index_ c; next_ := n; head_ := head_ c; tail_ := tail_ c |}.
Definition set_head (h : Z) (c : Chunk) : Chunk :=
  {| data_ptr_ := data_ptr_ c; index_ := index_ c; next_ := next_ c; head_ := h; tail_ := tail_ c |}.
Definition set_tail (t : Z) (c : Chunk) : Chunk :=
  {| data_ptr_ := data_ptr_ c; index_ := index_ c; next_ := next_ c; head_ := head_ c; tail_ := t |}.

End Chunk.
Import Chunk.

(** ** [ChunkPool] and [ChunkPoolManagerInput] *)

Module ChunkPoolManagerInput.

(** [mmap bytes huge]: [None] for [MAP_FAILED]; [huge] tells [MAP_HUGETLB]. *)
Record ChunkPool := mkChunkPool {
  pool_data_ptr_ : Z;
  bytes_ : Z;
  chunks_ : Z
}.
Definition new_ChunkPool (mmap : Z -> bool -> option Z) (chunk_size chunk_num : Z) : result ChunkPool :=
  let bytes := u64 (chunk_size * chunk_num) in
  match mmap bytes true with
  | Some p => Ok {| pool_data_ptr_ := p; bytes_ := bytes; chunks_ := chunk_num |}
  | None =>
      match mmap bytes false with
      | Some p => Ok {| pool_data_ptr_ := p; bytes_ := bytes; chunks_ := chunk_num |}
      | None => Fault FatalExit
      end
  end.

Section manager.
Context `{BufRing}.

(** [memory] is the content of the mapped memory, which the kernel writes.
    [CHUNK_SIZE] is the constant of the loop the manager belongs to. *)
Record Manager := mkManager {
  pool_ : ChunkPool;
  chunks_data_ : list Chunk;
  input_buf_ring_ : buf_ring;
  ring_size_ : Z;
  input_buf_ring_mask_ : Z;
  ring_entries : Z;
  bgid : Z;
  count_ : Z;
  CHUNK_SIZE : Z;
  memory : Z -> byte
}.

Definition set_chunks (cs : list Chunk) (m : Manager) : Manager :=
  {| pool_ := pool_ m; chunks_data_ := cs; input_buf_ring_ := input_buf_ring_ m;
     ring_size_ := ring_size_ m; input_buf_ring_mask_ := input_buf_ring_mask_ m;
     ring_entries := ring_entries m; bgid := bgid m; count_ := count_ m;
     CHUNK_SIZE := CHUNK_SIZE m; memory := memory m |}.
Definition set_ring (r : buf_ring) (c : Z) (m : Manager) : Manager :=
  {| pool_ := pool_ m; chunks_data_ := chunks_data_ m; input_buf_ring_ := r;
     ring_size_ := ring_size_ m; input_buf_ring_mask_ := input_buf_ring_mask_ m;
     ring_entries := ring_entries m; bgid := bgid m; count_ := c;
     CHUNK_SIZE := CHUNK_SIZE m; memory := memory m |}.
Definition set_memory (mem : Z -> byte) (m : Manager) : Manager :=
  {| pool_ := pool_ m; chunks_data_ := chunks_data_ m; input_buf_ring_ := input_buf_ring_ m;
     ring_size_ := ring_size_ m; input_buf_ring_mask_ := input_buf_ring_mask_ m;
     ring_entries := ring_entries m; bgid := bgid m; count_ := count_ m;
     CHUNK_SIZE := CHUNK_SIZE m; memory := mem |}.

(** [generateBid]: the function-local static counter is threaded. *)
Definition generateBid (bid : Z) : Z * Z := (bid, u16 (bid + 1)).

(** The constructor.  [sizeof_ring] and [sizeof_buf] are the sizes of liburing's
    structures, [register_ret] what [io_uring_register_buf_ring] returns. *)
Definition new_Manager (mmap : Z -> bool -> option Z) (sizeof_ring sizeof_buf register_ret : Z)
    (chunk_size chunk_num : Z) (mem : Z -> byte) (bid : Z) : result (Manager * Z) :=
  pool ← new_ChunkPool mmap chunk_size chunk_num;
  let chunks := (fun i => new_Chunk (pool_data_ptr_ pool + chunk_size * Z.of_nat i) (Z.of_nat i))
                  <$> seq 0 (Z.to_nat (chunks_ pool)) in
  if negb (Z.land (chunks_ pool) (u64 (chunks_ pool - 1)) =? 0) then Fault FatalExit else
  let ring_size := u64 (sizeof_ring + chunks_ pool * sizeof_buf) in
  match mmap ring_size false with
  | None => Fault FatalExit
  | Some ring_mem =>
      let ring := io_uring_buf_ring_init ring_mem in
      let mask := io_uring_buf_ring_mask (chunks_ pool) in
      let '(id, bid) := generateBid bid in
      if register_ret <? 0 then Fault FatalExit else
      let ring := foldl (fun r c => io_uring_buf_ring_add r (data_ptr_ c) chunk_size
                                      (index_ c) mask (index_ c)) ring chunks in
      let ring := io_uring_buf_ring_advance ring (chunks_ pool) in
      Ok ({| pool_ := pool; chunks_data_ := chunks; input_buf_ring_ := ring;
             ring_size_ := ring_size; input_buf_ring_mask_ := mask;
             ring_entries := chunks_ pool; bgid := id; count_ := 0;
             CHUNK_SIZE := chunk_size; memory := mem |}, bid)
  end.

(** [getChunkById]: the pointer to the chunk, [nullptr] out of range. *)
Definition getChunkById (id : Z) (m : Manager) : ptr :=
  if id >=? zlen (chunks_data_ m) then None else Some (Z.to_nat id).

(** [p->field = ...] on a chunk. *)
Definition update (p : ptr) (f : Chunk -> Chunk) (m : Manager) : result Manager :=
  c ← deref (chunks_data_ m) p;
  match p with
  | Some i => Ok (set_chunks (<[i := f c]> (chunks_data_ m)) m)
  | None => Fault NullDeref
  end.

Definition returnOneChunk (p : ptr) (m : Manager) : result Manager :=
  m ← update p reset m;
  c ← deref (chunks_data_ m) p;
  let r := io_uring_buf_ring_add (input_buf_ring_ m) (data_ptr_ c) (CHUNK_SIZE m) (index_ c)
             (input_buf_ring_mask_ m) (count_ m) in
  let count := u16 (count_ m + 1) in
  if 1 <=? count then Ok (set_ring (io_uring_buf_ring_advance r count) 0 m)
  else Ok (set_ring r count m).

Definition get_buf_group_id (m : Manager) : Z := bgid m.

(** What is in memory at an address. *)
Definition mem_read (mem : Z -> byte) (a n : Z) : list byte :=
  (fun i => mem (a + Z.of_nat i)) <$> seq 0 (Z.to_nat n).

(** The kernel stores received data at an address. *)
Definition mem_write (mem : Z -> byte) (a : Z) (d : list byte) : Z -> byte :=
  fun x => if (a <=? x) && (x <? a + zlen d) then nth (Z.to_nat (x - a)) d x00 else mem x.

Lemma zlen_mem_read mem a n : 0 <= n -> zlen (mem_read mem a n) = n.
Proof. intros Hn. unfold zlen, mem_read. rewrite length_fmap, length_seq. lia. Qed.

Lemma mem_read_app mem a n k :
  0 <= n -> 0 <= k -> mem_read mem a (n + k) = mem_read mem a n ++ mem_read mem (a + n) k.
Proof.
  intros Hn Hk. unfold mem_read. rewrite Z2Nat.inj_add, seq_app, fmap_app by lia. f_equal.
  rewrite Nat.add_0_l, <- (Nat.add_0_r (Z.to_nat n)) at 1.
  rewrite <- fmap_add_seq, <- list_fmap_compose. apply list_fmap_ext.
  intros i x _. simpl. f_equal. lia.
Qed.

Lemma zdrop_mem_read mem a n k :
  0 <= k <= n -> zdrop k (mem_read mem a n) = mem_read mem (a + k) (n - k).
Proof.
  intros Hk. replace n with (k + (n - k)) at 1 by lia. rewrite mem_read_app by lia.
  rewrite zdrop_app_r by (rewrite zlen_mem_read; lia). rewrite zlen_mem_read by lia.
  by rewrite Z.sub_diag.
Qed.

Lemma ztake_mem_read mem a n k :
  0 <= k <= n -> ztake k (mem_read mem a n) = mem_read mem a k.
Proof.
  intros Hk. replace n with (k + (n - k)) at 1 by lia. rewrite mem_read_app by lia.
  rewrite ztake_app_l by (rewrite zlen_mem_read; lia).
  apply ztake_all. rewrite zlen_mem_read; lia.
Qed.

Lemma mem_read_ext mem mem' a n :
  (forall x, a <= x < a + n -> mem' x = mem x) -> mem_read mem' a n = mem_read mem a n.
Proof.
  intros Hx. unfold mem_read. apply list_fmap_ext. intros i j Hj.
  apply lookup_seq in Hj as [-> Hj]. apply Hx. lia.
Qed.

Lemma mem_read_write_ne mem a d b n :
  b + n <= a \/ a + zlen d <= b -> mem_read (mem_write mem a d) b n = mem_read mem b n.
Proof.
  intros Hd. apply mem_read_ext. intros x Hx. unfold mem_write.
  destruct (Z.leb_spec a x), (Z.ltb_spec x (a + zlen d)); simpl; (done || lia).
Qed.

Lemma mem_read_write_eq mem a d : mem_read (mem_write mem a d) a (zlen d) = d.
Proof.
  unfold mem_read, zlen. rewrite Nat2Z.id. apply list_eq. intros i.
  rewrite list_lookup_fmap. destruct (decide (i < length d)%nat) as [Hi|Hi].
  - rewrite lookup_seq_lt by done. simpl. unfold mem_write, zlen.
    rewrite (proj2 (Z.leb_le _ _)), (proj2 (Z.ltb_lt _ _)) by lia. simpl.
    replace (Z.to_nat (a + Z.of_nat i - a)) with i by lia.
    destruct (lookup_lt_is_Some_2 _ _ Hi) as [x Hx]. rewrite Hx.
    by rewrite (nth_lookup_Some _ _ _ _ Hx).
  - rewrite lookup_seq_ge by lia. simpl. symmetry. apply lookup_ge_None. lia.
Qed.

(** Where chunk [i] is, and the kernel receiving [d] into it. *)
Definition chunk_addr (m : Manager) (i : nat) : Z :=
  pool_data_ptr_ (pool_ m) + CHUNK_SIZE m * Z.of_nat i.
Definition kernel_take_chunk (m : Manager) : Manager := set_ring (kernel_take (input_buf_ring_ m)) (count_ m) m.
Definition kernel_fill (i : nat) (d : list byte) (m : Manager) : Manager :=
  set_memory (mem_write (memory m) (chunk_addr m i) d) m.

(** ** The ownership invariant

    Every chunk is in exactly one place: [avail], the ring (where the kernel may
    take it), [infl], taken by the kernel but not yet reported by a completion,
    or [held], in the input buffer of some connection. *)
Record pool_ok (m : Manager) (avail infl held : list nat) : Prop := {
  pool_some : 0 < zlen (chunks_data_ m) <= 2 ^ 16;
  pool_size : 0 <= CHUNK_SIZE m /\ CHUNK_SIZE m * zlen (chunks_data_ m) < SIZE_MAX;
  pool_chunk : forall i c, chunks_data_ m !! i = Some c ->
    index_ c = Z.of_nat i /\ data_ptr_ c = pool_data_ptr_ (pool_ m) + CHUNK_SIZE m * Z.of_nat i;
  pool_perm : avail ++ infl ++ held ≡ₚ seq 0 (length (chunks_data_ m));
  pool_free : forall i c, i ∉ held -> chunks_data_ m !! i = Some c -> reset c = c;
  pool_avail : available (input_buf_ring_ m) = Z.of_nat <$> avail;
  pool_staged : forall i, 0 <= i -> staged (input_buf_ring_ m) i = None;
  pool_mask : input_buf_ring_mask_ m = zlen (chunks_data_ m) - 1;
  pool_count : count_ m = 0
}.

Lemma pool_nodup m av fl hd : pool_ok m av fl hd -> NoDup (av ++ fl ++ hd).
Proof. intros Hp. rewrite (pool_perm _ _ _ _ Hp). apply NoDup_seq. Qed.

Lemma pool_lookup m av fl hd i :
  pool_ok m av fl hd -> i ∈ av ++ fl ++ hd -> is_Some (chunks_data_ m !! i).
Proof.
  intros Hp Hi. rewrite (pool_perm _ _ _ _ Hp) in Hi. apply elem_of_seq in Hi.
  apply lookup_lt_is_Some. lia.
Qed.

Lemma pool_held_perm m av fl hd hd' : hd ≡ₚ hd' -> pool_ok m av fl hd -> pool_ok m av fl hd'.
Proof.
  intros Hh [? ? ? Hp Hf ? ? ? ?]. split; try done.
  - by rewrite <- Hh.
  - intros i c. rewrite <- Hh. apply Hf.
Qed.

(** Every chunk is free, with the kernel or held. *)
Lemma pool_length m av fl hd :
  pool_ok m av fl hd -> length (chunks_data_ m) = (length av + length fl + length hd)%nat.
Proof.
  intros Hp. pose proof (Permutation_length (pool_perm _ _ _ _ Hp)) as Hl.
  rewrite !length_app, length_seq in Hl. lia.
Qed.

Lemma pool_chunk_size m av fl hd : pool_ok m av fl hd -> 0 <= CHUNK_SIZE m < SIZE_MAX.
Proof. intros [[? ?] [? ?] _ _ _ _ _ _ _]. nia. Qed.

(** [k] chunks cannot hold more bytes than a [size_t] can count. *)
Lemma pool_bytes_bound m av fl hd k :
  pool_ok m av fl hd -> 0 <= k <= zlen hd -> CHUNK_SIZE m * k < SIZE_MAX.
Proof.
  intros [[? ?] [? ?] _ Hp _ _ _ _ _] Hk. apply Permutation_length in Hp.
  rewrite !length_app, length_seq in Hp. unfold zlen in *. nia.
Qed.

Lemma pool_fill m av fl hd i d : pool_ok m av fl hd -> pool_ok (kernel_fill i d m) av fl hd.
Proof. by intros []. Qed.

(** A completion reports a chunk the kernel took. *)
Lemma pool_take m av fl hd i : pool_ok m (i :: av) fl hd -> pool_ok (kernel_take_chunk m) av (i :: fl) hd.
Proof.
  intros [? ? ? Hp Hf Ha Hs ? ?]. split; simpl; try done.
  - rewrite <- Hp. solve_Permutation.
  - by apply (take_available _ (Z.of_nat i)).
  - intros j Hj. rewrite (take_staged _ (Z.of_nat i) (Z.of_nat <$> av)) by done. by apply Hs.
Qed.

Lemma pool_report m av fl hd i : pool_ok m av (i :: fl) hd -> pool_ok m av fl (i :: hd).
Proof.
  intros [? ? ? Hp Hf ? ? ? ?]. split; try done.
  - rewrite <- Hp. solve_Permutation.
  - intros j c Hj. apply Hf. set_solver.
Qed.

Lemma getChunkById_ok m av fl hd i :
  pool_ok m av fl hd -> i ∈ av ++ fl ++ hd -> getChunkById (Z.of_nat i) m = Some i.
Proof.
  intros Hp Hi. destruct (pool_lookup _ _ _ _ _ Hp Hi) as [c Hc].
  apply lookup_lt_Some in Hc. unfold getChunkById. rewrite Z.geb_leb, (proj2 (Z.leb_gt _ _)).
  - by rewrite Nat2Z.id.
  - unfold zlen. lia.
Qed.

(** A chunk the kernel took is not in any buffer and has been reset. *)
Lemma pool_infl m av fl hd i :
  pool_ok m av (i :: fl) hd ->
  exists c, chunks_data_ m !! i = Some c /\ i ∉ hd /\ reset c = c /\
    data_ptr_ c = chunk_addr m i /\ getChunkById (Z.of_nat i) m = Some i.
Proof.
  intros Hp. destruct (pool_lookup _ _ _ _ i Hp) as [c Hc]; [set_solver|].
  assert (Hi : i ∉ hd).
  { pose proof (pool_nodup _ _ _ _ Hp) as Hnd. apply NoDup_app in Hnd as (_ & _ & Hnd).
    apply NoDup_app in Hnd as (_ & Hnd & _). apply Hnd. set_solver. }
  exists c. split_and!; try done.
  - by apply (pool_free _ _ _ _ Hp i).
  - apply (pool_chunk _ _ _ _ Hp _ _ Hc).
  - eapply getChunkById_ok; [done|]. set_solver.
Qed.

(** Writing the fields of chunks that are held keeps the invariant. *)
Lemma pool_set_held m av fl hd i c c' :
  pool_ok m av fl hd -> i ∈ hd -> chunks_data_ m !! i = Some c ->
  index_ c' = index_ c -> data_ptr_ c' = data_ptr_ c ->
  pool_ok (set_chunks (<[i := c']> (chunks_data_ m)) m) av fl hd.
Proof.
  intros [Hs Hz Hc Hp Hf ? ? ? ?] Hi Hl Hx Hd.
  split; simpl; rewrite ?zlen_insert, ?length_insert; try done.
  - intros j x [(<- & -> & _)|[_ Hj]]%list_lookup_insert_Some; [|by apply Hc].
    rewrite Hx, Hd. by apply Hc.
  - intros j x Hj. rewrite list_lookup_insert_ne by (intros ->; done). by apply Hf.
Qed.

(** [returnOneChunk] makes a held chunk available again, behind the others; the
    ring has room for it because a chunk is in one place only. *)
Lemma returnOneChunk_ok m av fl i hd :
  pool_ok m av fl (i :: hd) ->
  exists m' c, returnOneChunk (Some i) m = Ok m' /\ pool_ok m' (av ++ [i]) fl hd /\
    chunks_data_ m !! i = Some c /\
    chunks_data_ m' = <[i := reset c]> (chunks_data_ m) /\
    memory m' = memory m /\ pool_ m' = pool_ m /\ CHUNK_SIZE m' = CHUNK_SIZE m.
Proof.
  intros Hp. pose proof Hp as [Hs Hz Hc Hperm Hf Hav Hst Hmask Hcnt].
  destruct (pool_lookup m av fl (i :: hd) i Hp) as [c Hci]; [set_solver|].
  assert (Hlt : (i < length (chunks_data_ m))%nat) by by eapply lookup_lt_Some.
  unfold returnOneChunk, update. simpl. rewrite Hci. simpl.
  rewrite list_lookup_insert_eq by done. simpl. rewrite Hcnt.
  change (wrap 16 (0 + 1)) with (zlen [Z.of_nat i]). simpl.
  eexists _, c. split; [done|]. split; [|by simpl].
  assert (Hcap : zlen (available (input_buf_ring_ m)) + 0 <= input_buf_ring_mask_ m).
  { rewrite Hav, Hmask. apply Permutation_length in Hperm.
    rewrite !length_app, length_seq in Hperm. unfold zlen. rewrite length_fmap. simpl in *. lia. }
  destruct (Hc _ _ Hci) as [Hix Hdp]. set (r := io_uring_buf_ring_add _ _ _ _ _ _).
  split; simpl; rewrite ?zlen_insert, ?length_insert; try done.
  - intros j x [(<- & <- & _)|[_ Hj]]%list_lookup_insert_Some; [done|by apply Hc].
  - rewrite <- Hperm. solve_Permutation.
  - intros j x Hj [(<- & <- & _)|[Hd Hx]]%list_lookup_insert_Some; [done|].
    apply (Hf j); [|done]. apply not_elem_of_cons. done.
  - rewrite advance_available.
    + unfold r. rewrite add_available, Hav, fmap_app by done. done.
    + intros [|k] b Hb; [|done]. simpl in Hb. simplify_eq. unfold r.
      rewrite add_staged by lia. simpl. by rewrite Hix.
  - intros k Hk. change (zlen [Z.of_nat i]) with 1. rewrite advance_staged by lia.
    unfold r. rewrite add_staged, (proj2 (Z.eqb_neq _ _)) by lia. apply Hst. lia.
Qed.

(** ** The constructor *)

Definition init_chunks (p chunk_size : Z) (n : nat) : list Chunk :=
  (fun i => new_Chunk (p + chunk_size * Z.of_nat i) (Z.of_nat i)) <$> seq 0 n.

Lemma init_chunks_lookup p sz n i c :
  Z.of_nat n <= 2 ^ 16 -> init_chunks p sz n !! i = Some c ->
  (i < n)%nat /\ c = mkChunk (p + sz * Z.of_nat i) (Z.of_nat i) None 0 0.
Proof.
  intros Hn Hi. unfold init_chunks in Hi. rewrite list_lookup_fmap in Hi. apply fmap_Some in Hi as (j & Hj & ->).
  apply lookup_seq in Hj as [-> Hj]. simpl. split; [lia|]. unfold new_Chunk.
  rewrite wrap_small by lia. done.
Qed.

(** The initial fill stages chunk [i] at offset [i] for every [i]. *)
Lemma fill_staged (cs : list Chunk) sz mask r k :
  (forall i c, cs !! i = Some c -> index_ c = Z.of_nat (k + i)) ->
  available r = [] -> Z.of_nat (k + length cs) <= mask + 1 ->
  let r' := foldl (fun r c => io_uring_buf_ring_add r (data_ptr_ c) sz (index_ c) mask (index_ c)) r cs in
  available r' = [] /\
  forall i, staged r' i = if (Z.of_nat k <=? i) && (i <? Z.of_nat (k + length cs)) then Some i else staged r i.
Proof.
  revert r k. induction cs as [|c cs IH]; intros r k Hc Hav Hm; simpl.
  - split; [done|]. intros i. rewrite Nat.add_0_r.
    destruct (Z.leb_spec (Z.of_nat k) i), (Z.ltb_spec i (Z.of_nat k)); simpl; (done || lia).
  - assert (Hc0 : index_ c = Z.of_nat k) by (rewrite (Hc 0%nat c) by done; lia).
    assert (Hcap : zlen (available r) + index_ c <= mask) by (rewrite Hav; simpl in Hm; unfold zlen; simpl; lia).
    destruct (IH (io_uring_buf_ring_add r (data_ptr_ c) sz (index_ c) mask (index_ c)) (S k)) as [Ha Hs].
    + intros i d Hd. rewrite (Hc (S i) d) by done. f_equal. lia.
    + by rewrite add_available.
    + simpl in Hm. lia.
    + split; [done|]. intros i. rewrite Hs, add_staged by lia. rewrite Hc0.
      replace (S k + length cs)%nat with (k + S (length cs))%nat by lia.
      destruct (Z.leb_spec (Z.of_nat (S k)) i), (Z.ltb_spec i (Z.of_nat (k + S (length cs)))),
        (Z.leb_spec (Z.of_nat k) i), (Z.eqb_spec i (Z.of_nat k)); simpl; try lia; subst; done.
Qed.

(** The constructor on valid parameters (a power of two of chunks, at most
    2^16 of them so that [uint16_t] indices do not collide; the mappings and the
    registration succeed, with or without huge pages) establishes the ownership
    invariant with every chunk available to the kernel, in index order; the
    chunks are disjoint slices of the mapped memory. *)
Theorem new_Manager_ok mmap sr sb ret sz n mem bid :
  0 < n <= 2 ^ 16 -> Z.land n (n - 1) = 0 -> 0 <= sz -> sz * n < SIZE_MAX -> 0 <= ret ->
  (is_Some (mmap (u64 (sz * n)) true) \/ is_Some (mmap (u64 (sz * n)) false)) ->
  is_Some (mmap (u64 (sr + n * sb)) false) ->
  exists m, new_Manager mmap sr sb ret sz n mem bid = Ok (m, u16 (bid + 1)) /\
    pool_ok m (seq 0 (Z.to_nat n)) [] [] /\ get_buf_group_id m = bid /\ memory m = mem.
Proof.
  intros Hn Hp2 Hsz Hszn Hret Hmm [ra Hra].
  assert (exists p, new_ChunkPool mmap sz n = Ok (mkChunkPool p (u64 (sz * n)) n)) as [p Hpool].
  { unfold new_ChunkPool. destruct (mmap (u64 (sz * n)) true); [by eexists|].
    destruct Hmm as [[? ?]|[q ->]]; [done|]. by eexists. }
  unfold new_Manager. rewrite Hpool. simpl. rewrite (wrap_small 64 (n - 1)) by lia.
  rewrite Hp2. simpl. rewrite Hra, (proj2 (Z.ltb_ge _ _)) by done.
  eexists. split; [done|]. split; [|done].
  change ((fun i => new_Chunk (p + sz * Z.of_nat i) (Z.of_nat i)) <$> seq 0 (Z.to_nat n))
    with (init_chunks p sz (Z.to_nat n)).
  assert (Hlen : zlen (init_chunks p sz (Z.to_nat n)) = n)
    by (unfold zlen, init_chunks; rewrite length_fmap, length_seq; lia).
  assert (Hlk : forall i c, init_chunks p sz (Z.to_nat n) !! i = Some c ->
                  c = mkChunk (p + sz * Z.of_nat i) (Z.of_nat i) None 0 0)
    by (intros i c Hi; apply (init_chunks_lookup p sz (Z.to_nat n)); [lia|done]).
  destruct (fill_staged (init_chunks p sz (Z.to_nat n)) sz (io_uring_buf_ring_mask n)
              (io_uring_buf_ring_init ra) 0) as [Hav Hst].
  { intros i c Hi. by rewrite (Hlk _ _ Hi). }
  { apply init_available. }
  { rewrite mask_entries. unfold zlen in Hlen. simpl. lia. }
  set (r := foldl _ _ _) in *. unfold zlen in Hlen.
  split; simpl; unfold zlen; rewrite ?Hlen; try done.
  - intros i c Hi. by rewrite (Hlk _ _ Hi).
  - rewrite app_nil_r. replace (length (init_chunks p sz (Z.to_nat n))) with (Z.to_nat n) by lia. done.
  - intros i c _ Hi. by rewrite (Hlk _ _ Hi).
  - replace n with (zlen (Z.of_nat <$> seq 0 (Z.to_nat n))) at 1
      by (unfold zlen; rewrite length_fmap, length_seq; lia).
    rewrite advance_available, Hav; [done|].
    intros i b Hb. rewrite list_lookup_fmap in Hb. apply fmap_Some in Hb as (j & Hj & ->).
    apply lookup_seq in Hj as [-> Hj]. rewrite Hst. simpl.
    rewrite (proj2 (Z.leb_le _ _)), (proj2 (Z.ltb_lt _ _)) by lia. done.
  - intros i Hi. rewrite advance_staged, Hst by lia. simpl.
    rewrite (proj2 (Z.ltb_ge _ _)), andb_false_r by lia. apply init_staged.
  - by rewrite mask_entries.
Qed.

End manager.

(** The parameters of the unit tests: 32 chunks of 4096 bytes, huge pages refused. *)
Lemma new_Manager_ok_witness :
  exists m, @new_Manager list_ring (fun b huge => if huge then None else Some (b + 4096)) 16 16 0 4096 32
      (fun _ => x00) 1 = Ok (m, 2) /\ @pool_ok list_ring m (seq 0 32) [] [].
Proof.
  destruct (@new_Manager_ok list_ring (fun b huge => if huge then None else Some (b + 4096)) 16 16 0 4096 32
              (fun _ => x00) 1) as (m & Hm & Hp & _).
  - lia.
  - reflexivity.
  - lia.
  - lia.
  - lia.
  - right. by eexists.
  - by eexists.
  - exists m. split; [exact Hm | exact Hp].
Defined.

End ChunkPoolManagerInput.
