(* ===== verification/InputChainBuffer.v ===== *)
(** * The input buffer of a connection ([src/InputChainBuffer.cc])

    A queue of received chunks.  The chunks are nodes of the array of the
    [ChunkPoolManagerInput] that all connections of a loop share, linked through
    their [next_] fields; every operation therefore takes and returns the
    manager, and the theorems say what it does to the other connections. *)

From S2P Require Import Prelude ChunkPool.
Import Chunk ChunkPoolManagerInput.

Module InputChainBuffer.

Record InputChainBuffer := mkInputChainBuffer {
  first_ : ptr;
  last_ : ptr;
  n_chunks_ : Z;
  total_len_ : Z
}.

Definition new_InputChainBuffer : InputChainBuffer :=
  {| first_ := None; last_ := None; n_chunks_ := 0; total_len_ := 0 |}.

Definition set_ends (hd tl : ptr) (n : Z) (b : InputChainBuffer) : InputChainBuffer :=
  {| first_ := hd; last_ := tl; n_chunks_ := n; total_len_ := total_len_ b |}.
Definition set_total_len (n : Z) (b : InputChainBuffer) : InputChainBuffer :=
  {| first_ := first_ b; last_ := last_ b; n_chunks_ := n_chunks_ b; total_len_ := n |}.

Section operations.
Context `{BufRing}.

Definition push_back (index : Z) (b : InputChainBuffer) (m : Manager) : result (InputChainBuffer * Manager) :=
  let new_chunk := getChunkById index m in
  '(b, m) ← match last_ b with
            | None => Ok (set_ends new_chunk new_chunk (n_chunks_ b) b, m)
            | Some _ =>
                m ← update (last_ b) (set_next new_chunk) m;
                t ← deref (chunks_data_ m) (last_ b);
                Ok (set_ends (first_ b) (next_ t) (n_chunks_ b) b, m)
            end;
  Ok (set_ends (first_ b) (last_ b) (u64 (n_chunks_ b + 1)) b, m).

Definition pop_front (b : InputChainBuffer) (m : Manager) : result (bool * InputChainBuffer * Manager) :=
  if n_chunks_ b =? 0 then Ok (false, b, m) else
  let ret := first_ b in
  b ← (if bool_decide (first_ b = last_ b) then Ok (set_ends None None (n_chunks_ b) b)
       else h ← deref (chunks_data_ m) (first_ b);
            Ok (set_ends (next_ h) (last_ b) (n_chunks_ b) b));
  m ← returnOneChunk ret m;
  Ok (true, set_ends (first_ b) (last_ b) (u64 (n_chunks_ b - 1)) b, m).

(** The loop of [remove]; [copied] is what [std::copy] wrote to the target. *)
Fixpoint remove_loop (fuel : nat) (len read_count : Z) (copied : list byte)
    (b : InputChainBuffer) (m : Manager) : result (Z * list byte * InputChainBuffer * Manager) :=
  match fuel with
  | O => Fault OutOfFuel
  | S fuel =>
      match first_ b with
      | Some _ =>
          if read_count <? len then
            h ← deref (chunks_data_ m) (first_ b);
            let fill_size := Z.min (readableBytes h) (u64 (len - read_count)) in
            let copied := copied ++ mem_read (memory m) (beginRead h) fill_size in
            m ← update (first_ b) (set_head (u64 (head_ h + fill_size))) m;
            let read_count := u64 (read_count + fill_size) in
            h ← deref (chunks_data_ m) (first_ b);
            '(b, m) ← (if readableBytes h =? 0
                       then '(_, b, m) ← pop_front b m; Ok (b, m)
                       else Ok (b, m));
            remove_loop fuel len read_count copied b m
          else Ok (read_count, copied, b, m)
      | None => Ok (read_count, copied, b, m)
      end
  end.

Definition remove (len : Z) (b : InputChainBuffer) (m : Manager) : result (Z * list byte * InputChainBuffer * Manager) :=
  '(read_count, copied, b, m) ← remove_loop (S (Z.to_nat (n_chunks_ b))) len 0 [] b m;
  Ok (read_count, copied, set_total_len (u64 (total_len_ b - read_count)) b, m).

(** The string has [size] zero bytes, [remove] overwrites the first ones and
    [resize] keeps as many as were read. *)
Definition removeAsString (size : Z) (b : InputChainBuffer) (m : Manager) : result (list byte * InputChainBuffer * Manager) :=
  '(len, copied, b, m) ← remove size b m;
  let ret := copied ++ replicate (Z.to_nat (size - zlen copied)) x00 in
  Ok (ztake len ret, b, m).

Definition removeAllAsString (b : InputChainBuffer) (m : Manager) : result (list byte * InputChainBuffer * Manager) :=
  removeAsString (total_len_ b) b m.

(** A pointer into the pool memory and a length, [(nullptr, 0)] when empty. *)
Definition peek (b : InputChainBuffer) (m : Manager) : result (option Z * Z) :=
  match first_ b with
  | None => Ok (None, 0)
  | Some _ => h ← deref (chunks_data_ m) (first_ b); Ok (Some (beginRead h), readableBytes h)
  end.

Fixpoint retrieve_loop (fuel : nat) (len read_bytes : Z) (b : InputChainBuffer) (m : Manager)
    : result (Z * InputChainBuffer * Manager) :=
  match fuel with
  | O => Fault OutOfFuel
  | S fuel =>
      match first_ b with
      | Some _ =>
          if read_bytes <? len then
            h ← deref (chunks_data_ m) (first_ b);
            let offset := Z.min (readableBytes h) (u64 (len - read_bytes)) in
            m ← update (first_ b) (set_head (u64 (head_ h + offset))) m;
            let read_bytes := u64 (read_bytes + offset) in
            h ← deref (chunks_data_ m) (first_ b);
            '(b, m) ← (if readableBytes h =? 0
                       then '(_, b, m) ← pop_front b m; Ok (b, m)
                       else Ok (b, m));
            retrieve_loop fuel len read_bytes b m
          else Ok (read_bytes, b, m)
      | None => Ok (read_bytes, b, m)
      end
  end.

Definition retrieve (len : Z) (b : InputChainBuffer) (m : Manager) : result (InputChainBuffer * Manager) :=
  '(read_bytes, b, m) ← retrieve_loop (S (Z.to_nat (n_chunks_ b))) len 0 b m;
  Ok (set_total_len (u64 (total_len_ b - read_bytes)) b, m).

Definition append (index len : Z) (b : InputChainBuffer) (m : Manager) : result (InputChainBuffer * Manager) :=
  '(b, m) ← push_back index b m;
  t ← deref (chunks_data_ m) (last_ b);
  m ← update (last_ b) (set_tail (u64 (tail_ t + len))) m;
  Ok (set_total_len (u64 (total_len_ b + len)) b, m).

Definition getTotalLen (b : InputChainBuffer) : Z := total_len_ b.
Definition getTotalChunk (b : InputChainBuffer) : Z := n_chunks_ b.

(** [~InputChainBuffer]: [while(chunks_) pop_front();] *)
Fixpoint destroy_loop (fuel : nat) (b : InputChainBuffer) (m : Manager) : result (InputChainBuffer * Manager) :=
  match fuel with
  | O => Fault OutOfFuel
  | S fuel =>
      if n_chunks_ b =? 0 then Ok (b, m)
      else '(_, b, m) ← pop_front b m; destroy_loop fuel b m
  end.
Definition destroy (b : InputChainBuffer) (m : Manager) : result (InputChainBuffer * Manager) :=
  destroy_loop (S (Z.to_nat (n_chunks_ b))) b m.

(** ** Representation *)

Definition chunk_ok (m : Manager) (c : Chunk) : Prop :=
  0 <= head_ c <= tail_ c /\ tail_ c <= CHUNK_SIZE m.

Definition content (m : Manager) (c : Chunk) : list byte :=
  mem_read (memory m) (beginRead c) (tail_ c - head_ c).
Definition bytes (m : Manager) (l : list (nat * Chunk)) : list byte :=
  concat (map (fun x => content m x.2) l).

(** [shape m b l]: the chunks of [b] are [l], in order. *)
Record shape (m : Manager) (b : InputChainBuffer) (l : list (nat * Chunk)) : Prop := {
  shape_chain : chain next_ (chunks_data_ m) (first_ b) l;
  shape_last : last_ b = fst <$> last l;
  shape_chunks : n_chunks_ b = zlen l;
  shape_ok : Forall (fun x => chunk_ok m x.2) l
}.
Record rep (m : Manager) (b : InputChainBuffer) (l : list (nat * Chunk)) : Prop := {
  rep_shape : shape m b l;
  rep_total : total_len_ b = zlen (bytes m l)
}.

(** No chunk of the buffer is used up. *)
Definition filled (l : list (nat * Chunk)) : Prop := Forall (fun x => head_ x.2 < tail_ x.2) l.

(** An operation on the chunks [own] leaves the rest of the pool alone. *)
Record frame (own : list nat) (m m' : Manager) : Prop := {
  frame_chunks : forall i, i ∉ own -> chunks_data_ m' !! i = chunks_data_ m !! i;
  frame_memory : memory m' = memory m;
  frame_pool : pool_ m' = pool_ m;
  frame_size : CHUNK_SIZE m' = CHUNK_SIZE m
}.

Lemma frame_refl own m : frame own m m.
Proof. done. Qed.

Lemma frame_trans own m1 m2 m3 : frame own m1 m2 -> frame own m2 m3 -> frame own m1 m3.
Proof.
  intros [H1 ? ? ?] [H2 ? ? ?]. split; try congruence. intros i Hi. by rewrite H2, H1.
Qed.

Lemma frame_mono own own' m m' : own ⊆ own' -> frame own m m' -> frame own' m m'.
Proof. intros Ho [H1 ? ? ?]. split; try done. intros i Hi. apply H1. set_solver. Qed.

Lemma bytes_memory m m' l : memory m' = memory m -> bytes m' l = bytes m l.
Proof. intros Hm. unfold bytes, content. by rewrite Hm. Qed.

(** The input buffers of the other connections are not affected. *)
Lemma shape_frame own m m' b l :
  frame own m m' -> (forall i, i ∈ l.*1 -> i ∉ own) -> shape m b l -> shape m' b l.
Proof.
  intros [Hc Hm Hp Hz] Hd [Hch Hl Hn Hok]. split; try done.
  - eapply chain_frame; [done|]. intros i Hi. apply Hc. by apply Hd.
  - unfold chunk_ok in *. by rewrite Hz.
Qed.

Lemma rep_frame own m m' b l :
  frame own m m' -> (forall i, i ∈ l.*1 -> i ∉ own) -> rep m b l ->
  rep m' b l /\ bytes m' l = bytes m l.
Proof.
  intros Hf Hd [Hs Ht]. pose proof (bytes_memory m m' l (frame_memory _ _ _ Hf)) as Hb.
  split; [split|done]; [by eapply shape_frame | by rewrite Hb].
Qed.

Lemma chain_bytes_cons m i c l : bytes m ((i, c) :: l) = content m c ++ bytes m l.
Proof. reflexivity. Qed.

Lemma chain_bytes_app m l k : bytes m (l ++ k) = bytes m l ++ bytes m k.
Proof. unfold bytes. by rewrite map_app, concat_app. Qed.

Lemma zlen_content m c : chunk_ok m c -> zlen (content m c) = tail_ c - head_ c.
Proof. intros [? ?]. unfold content. apply zlen_mem_read. lia. Qed.

Lemma zlen_bytes_le m l : Forall (fun x => chunk_ok m x.2) l -> zlen (bytes m l) <= CHUNK_SIZE m * zlen l.
Proof.
  induction 1 as [|[i c] l Hc _ IH]; [by rewrite Z.mul_0_r|]. simpl in Hc.
  rewrite chain_bytes_cons, zlen_app, zlen_cons, zlen_content by done. destruct Hc. lia.
Qed.

Lemma readable_ok m av fl hd c :
  pool_ok m av fl hd -> chunk_ok m c -> readableBytes c = zlen (content m c).
Proof.
  intros Hp Hc. pose proof (pool_chunk_size _ _ _ _ Hp). rewrite zlen_content by done.
  destruct Hc. apply wrap_small. lia.
Qed.

(** Writing [head_] of the first chunk. *)
Lemma update_first_shape m b i c l av fl o h :
  pool_ok m av fl (i :: l.*1 ++ o) -> shape m b ((i, c) :: l) -> 0 <= h <= tail_ c ->
  let m' := set_chunks (<[i := set_head h c]> (chunks_data_ m)) m in
  update (first_ b) (set_head h) m = Ok m' /\ pool_ok m' av fl (i :: l.*1 ++ o) /\
  shape m' b ((i, set_head h c) :: l) /\ frame [i] m m'.
Proof.
  intros Hp [Hc Hl Hn Hok] Hh m'. inversion Hc as [|? ? ? Hi Hc' Hf]; subst.
  pose proof (lookup_lt_Some _ _ _ Hi) as Hlt. unfold update. simpl. rewrite Hi.
  split; [done|]. split; [|split].
  - eapply pool_set_held; [done | set_solver | done..].
  - apply Forall_cons in Hok as [Hok1 Hok]. split; simpl; rewrite <- ?Hf; try done.
    + constructor; simpl; [by rewrite list_lookup_insert_eq|].
      apply (chain_frame _ (chunks_data_ m)); [done|]. intros j Hj.
      rewrite list_lookup_insert_ne; [done|]. intros ->.
      pose proof (pool_nodup _ _ _ _ Hp) as Hnd. rewrite !NoDup_app, NoDup_cons in Hnd.
      destruct_and!. set_solver.
    + rewrite Hl. by destruct l.
    + constructor; [|done]. destruct Hok1. split; simpl in *; lia.
  - split; try done. intros j Hj. simpl. rewrite list_lookup_insert_ne; [done|set_solver].
Qed.

Lemma chain_pop_front_shape m b i c l av fl o :
  pool_ok m av fl (i :: l.*1 ++ o) -> shape m b ((i, c) :: l) ->
  exists b' m', pop_front b m = Ok (true, b', m') /\ shape m' b' l /\
    pool_ok m' (av ++ [i]) fl (l.*1 ++ o) /\ frame [i] m m' /\ total_len_ b' = total_len_ b.
Proof.
  intros Hp [Hc Hl Hn Hok]. inversion Hc as [|? ? ? Hi Hc' Hf]; subst.
  pose proof (pool_nodup _ _ _ _ Hp) as Hnd. rewrite !NoDup_app, NoDup_cons in Hnd. destruct_and!.
  destruct (returnOneChunk_ok _ _ _ _ _ Hp) as (m' & c' & Hr & Hp' & Hc2 & Hcs & Hm & Hpo & Hz).
  assert (Hfr : frame [i] m m').
  { split; try done. intros j Hj. rewrite Hcs, list_lookup_insert_ne; [done | set_solver]. }
  apply Forall_cons in Hok as [_ Hok].
  pose proof (zlen_nonneg l). rewrite zlen_cons in Hn.
  unfold pop_front. rewrite (proj2 (Z.eqb_neq _ _)) by lia. rewrite <- Hf.
  assert (Hw : u64 (n_chunks_ b - 1) = zlen l).
  { rewrite Hn. replace (1 + zlen l - 1) with (zlen l) by lia. apply wrap_small.
    pose proof (pool_perm _ _ _ _ Hp) as Hpm. apply Permutation_length in Hpm.
    pose proof (pool_some _ _ _ _ Hp) as Hsm. unfold zlen in *.
    rewrite !length_app in Hpm. simpl in Hpm. rewrite length_app, length_fmap, length_seq in Hpm. lia. }
  assert (Hsh : forall b', first_ b' = next_ c -> last_ b' = fst <$> last l ->
            n_chunks_ b' = zlen l -> shape m' b' l).
  { intros b' Hb1 Hb2 Hb3. apply (shape_frame [i] m); [done | set_solver |].
    split; [by rewrite Hb1 | done | done | done]. }
  destruct l as [|[j d] l].
  - rewrite bool_decide_eq_true_2 by by rewrite Hl. simpl. rewrite Hr. simpl.
    eexists _, m'. split; [done|]. split; [|done]. apply Hsh; [|done|by simpl].
    by inversion Hc'.
  - rewrite bool_decide_eq_false_2.
    + simpl. rewrite Hi. simpl. rewrite Hr. simpl. eexists _, m'. split; [done|]. split; [|done].
      by apply Hsh.
    + rewrite Hl. simpl. intros Heq.
      match goal with Hx : i ∉ _ |- _ => apply Hx end.
      assert (Hin : i ∈ ((j, d) :: l).*1).
      { destruct (last ((j, d) :: l)) as [[k e]|] eqn:Hla; [|done]. simpl in Heq.
        simplify_eq. apply last_Some_elem_of in Hla. by apply (list_elem_of_fmap_2 fst) in Hla. }
      set_solver.
Qed.

(** Advancing the head of a chunk by [off] bytes: what is copied out and what is
    left. *)
Lemma consume_chunk m c off :
  chunk_ok m c -> 0 <= off <= zlen (content m c) ->
  let c' := set_head (head_ c + off) c in
  chunk_ok m c' /\ mem_read (memory m) (beginRead c) off = ztake off (content m c) /\
  content m c' = zdrop off (content m c).
Proof.
  intros Hok Hoff c'. pose proof (zlen_content _ _ Hok) as Hzc. pose proof Hok as [Hht Htl]. split_and!.
  - split; simpl; lia.
  - unfold content. rewrite ztake_mem_read; [done | lia].
  - unfold content. rewrite zdrop_mem_read by lia. unfold beginRead. simpl. f_equal; lia.
Qed.

(** One turn of the loop of [remove] on a non-empty buffer: take [off] bytes from
    the first chunk and return the chunk when it is used up. *)
Lemma remove_turn fuel len rc cp b m i c l av fl o :
  pool_ok m av fl (((i, c) :: l).*1 ++ o) -> shape m b ((i, c) :: l) -> 0 <= rc < len -> len < SIZE_MAX ->
  let off := Z.min (zlen (content m c)) (len - rc) in
  exists b2 m2 l2 ret,
    remove_loop (S fuel) len rc cp b m = remove_loop fuel len (rc + off) (cp ++ ztake off (content m c)) b2 m2 /\
    shape m2 b2 l2 /\ bytes m2 l2 = zdrop off (content m c) ++ bytes m l /\
    ((i, c) :: l).*1 = ret ++ l2.*1 /\ pool_ok m2 (av ++ ret) fl (l2.*1 ++ o) /\ frame ((i, c) :: l).*1 m m2 /\
    total_len_ b2 = total_len_ b /\ (filled ((i, c) :: l) -> filled l2) /\
    (l2 = l \/ (off = len - rc /\ is_Some (first_ b2))).
Proof.
  intros Hp Hs Hrc Hlen off. pose proof (shape_chain _ _ _ Hs) as Hc. inversion Hc as [|? ? ? Hi Hc' Hf]; subst.
  pose proof (shape_ok _ _ _ Hs) as Hok. apply Forall_cons in Hok as [Hok _]. simpl in Hok.
  pose proof (zlen_content _ _ Hok) as Hzc. pose proof (pool_chunk_size _ _ _ _ Hp) as Hsz.
  pose proof (zlen_nonneg (content m c)). simpl. rewrite <- Hf, (proj2 (Z.ltb_lt _ _)) by lia. simpl. rewrite Hi. simpl.
  rewrite (readable_ok _ _ _ _ _ Hp Hok), (wrap_small 64 (len - rc)) by lia. fold off. pose proof Hok as [Hht Htl].
  rewrite (wrap_small 64 (head_ c + off)), (wrap_small 64 (rc + off)) by (unfold off; lia).
  destruct (update_first_shape m b i c l av fl o (head_ c + off) Hp Hs) as (Hu & Hp1 & Hs1 & Hf1); [unfold off; lia|].
  rewrite <- Hf in Hu. rewrite Hu. simpl. rewrite list_lookup_insert_eq by by eapply lookup_lt_Some. simpl.
  set (c' := set_head (head_ c + off) c) in *. set (m1 := set_chunks _ m) in *.
  destruct (consume_chunk m c off Hok) as (Hok1 & Hcp & Hct); [unfold off; lia|].
  change (chunk_ok m1 c') in Hok1. change (content m1 c' = zdrop off (content m c)) in Hct.
  rewrite (readable_ok _ _ _ _ _ Hp1 Hok1), Hct, zlen_zdrop by (unfold off; lia). rewrite Hcp.
  destruct (Z.eqb_spec (Z.max 0 (zlen (content m c) - off)) 0) as [Hz|Hz].
  - destruct (chain_pop_front_shape m1 b i c' l av fl o Hp1 Hs1) as (b2 & m2 & -> & Hs2 & Hp2 & Hf2 & Ht2). simpl.
    exists b2, m2, l, [i]. rewrite (bytes_memory m m2) by by rewrite (frame_memory _ _ _ Hf2).
    rewrite zdrop_all by (unfold off in *; lia). split_and!; try done; [| |by left].
    + apply (frame_trans _ _ m1); [eapply frame_mono, Hf1 | eapply frame_mono, Hf2]; set_solver.
    + intros Hfl. by apply Forall_cons in Hfl as [_ Hfl].
  - simpl. exists b, m1, ((i, c') :: l), []. rewrite chain_bytes_cons, Hct, app_nil_r.
    split_and!; try done; [eapply frame_mono, Hf1; set_solver | |right; rewrite <- Hf; split; [unfold off in *; lia | done]].
    intros Hfl. apply Forall_cons in Hfl as [_ Hfl]. constructor; [|done]. simpl. unfold off in *. lia.
Qed.

Lemma remove_loop_ok fuel : forall len rc cp b m l av fl o,
  pool_ok m av fl (l.*1 ++ o) -> shape m b l -> 0 <= rc <= len -> len < SIZE_MAX ->
  (length l < fuel)%nat ->
  exists b' m' l' ret,
    remove_loop fuel len rc cp b m =
      Ok (rc + Z.min (len - rc) (zlen (bytes m l)), cp ++ ztake (len - rc) (bytes m l), b', m') /\
    shape m' b' l' /\ bytes m' l' = zdrop (len - rc) (bytes m l) /\
    l.*1 = ret ++ l'.*1 /\ pool_ok m' (av ++ ret) fl (l'.*1 ++ o) /\
    frame l.*1 m m' /\ total_len_ b' = total_len_ b /\ (filled l -> filled l').
Proof.
  induction fuel as [|fuel IH]; intros len rc cp b m l av fl o Hp Hs Hrc Hlen Hfu; [lia|].
  destruct l as [|[i c] l].
  { pose proof (shape_chain _ _ _ Hs) as Hc. inversion Hc as [Hh|]. exists b, m, [], []. simpl. rewrite <- Hh.
    change (bytes m []) with (@nil byte). unfold ztake, zdrop. rewrite take_nil, drop_nil.
    rewrite zlen_nil, Z.min_r, Z.add_0_r, !app_nil_r by lia. split_and!; try done. }
  rewrite chain_bytes_cons, zlen_app. pose proof (zlen_nonneg (bytes m l)). pose proof (zlen_nonneg (content m c)).
  destruct (Z.eq_dec rc len) as [->|Hne].
  { pose proof (shape_chain _ _ _ Hs) as Hc. inversion Hc as [|? ? ? _ _ Hf]; subst.
    exists b, m, ((i, c) :: l), []. simpl. rewrite <- Hf, Z.ltb_irrefl, Z.sub_diag.
    rewrite Z.min_l, Z.add_0_r, !app_nil_r by lia. split_and!; try done. }
  destruct (remove_turn fuel len rc cp b m i c l av fl o Hp Hs) as
    (b2 & m2 & l2 & ret & -> & Hs2 & Hb2 & Hl2 & Hp2 & Hf2 & Ht2 & Hfl2 & Hnext); [lia | done|].
  set (off := Z.min (zlen (content m c)) (len - rc)) in *.
  assert (Hcat : zdrop off (content m c) ++ bytes m l = zdrop off (content m c ++ bytes m l))
    by (symmetry; apply zdrop_app_l; unfold off; lia).
  assert (Htk : ztake off (content m c) = ztake off (content m c ++ bytes m l))
    by (symmetry; apply ztake_app_l; unfold off; lia).
  rewrite Hcat in Hb2. rewrite Htk. rewrite <- zlen_app. set (bs := content m c ++ bytes m l) in *.
  assert (Hoff : 0 <= off <= zlen bs) by (unfold bs, off; rewrite zlen_app; lia).
  destruct Hnext as [->|[Hend [x Hx]]].
  - destruct (IH len (rc + off) (cp ++ ztake off bs) b2 m2 l (av ++ ret) fl o Hp2 Hs2)
      as (b3 & m3 & l3 & ret3 & -> & Hs3 & Hb3 & Hl3 & Hp3 & Hf3 & Ht3 & Hfl3); [unfold off; lia | done | simpl in Hfu; lia |].
    exists b3, m3, l3, (ret ++ ret3). rewrite Hb2, zlen_zdrop in * by lia.
    rewrite (ztake_split off (len - rc)), <- !app_assoc in * by (unfold off; lia).
    split_and!; try done; [| | congruence | | congruence | auto].
    + replace (len - (rc + off)) with (len - rc - off) by lia. do 4 f_equal. unfold off in *. lia.
    + rewrite Hb3, zdrop_zdrop by (unfold off; lia). f_equal. lia.
    + apply (frame_trans _ _ m2); [done|]. eapply frame_mono, Hf3. set_solver.
  - destruct fuel as [|fuel]; [simpl in Hfu; lia|]. simpl. rewrite Hx, (proj2 (Z.ltb_ge _ _)) by lia.
    exists b2, m2, l2, ret. rewrite <- Hend, Z.min_l in * by lia. done.
Qed.

(** [retrieve] makes the same moves as [remove], without the copy. *)
Lemma retrieve_loop_remove fuel : forall len rc cp b m rc' cp' b' m',
  remove_loop fuel len rc cp b m = Ok (rc', cp', b', m') ->
  retrieve_loop fuel len rc b m = Ok (rc', b', m').
Proof.
  induction fuel as [|fuel IH]; intros len rc cp b m rc' cp' b' m' Hr; [done|]. simpl in *.
  destruct (first_ b) as [a|]; [|by simplify_eq].
  destruct (rc <? len); [|by simplify_eq].
  destruct (deref (chunks_data_ m) (Some a)) as [h|]; [|done]. simpl in *.
  destruct (update (Some a) _ m) as [m1|]; [|done]. simpl in *.
  destruct (chunks_data_ m1 !! a) as [h1|]; [|done]. simpl in *.
  destruct (readableBytes h1 =? 0).
  - destruct (pop_front b m1) as [[[? b2] m2]|]; [|done]. simpl in *. eauto.
  - simpl in *. eauto.
Qed.

Lemma n_chunks_fuel m b l : shape m b l -> (length l < S (Z.to_nat (n_chunks_ b)))%nat.
Proof. intros Hs. rewrite (shape_chunks _ _ _ Hs). unfold zlen. lia. Qed.

Lemma total_sub m b b' m' l l' len :
  rep m b l -> shape m' b' l' -> 0 <= len -> zlen (bytes m l) < SIZE_MAX ->
  bytes m' l' = zdrop len (bytes m l) -> total_len_ b' = total_len_ b ->
  rep m' (set_total_len (u64 (total_len_ b' - Z.min len (zlen (bytes m l)))) b') l'.
Proof.
  intros [_ Ht] Hs Hlen Hbd Hb Ht'. split; [by destruct Hs|]. simpl.
  pose proof (zlen_nonneg (bytes m l)).
  rewrite Ht', Ht, Hb, zlen_zdrop, wrap_small by lia. lia.
Qed.

Lemma rep_bound m b l av fl o :
  pool_ok m av fl (l.*1 ++ o) -> shape m b l -> zlen (bytes m l) < SIZE_MAX.
Proof.
  intros Hp Hs. pose proof (zlen_bytes_le _ _ (shape_ok _ _ _ Hs)).
  pose proof (pool_bytes_bound _ _ _ _ (zlen l) Hp). pose proof (zlen_nonneg l).
  rewrite zlen_app, zlen_fmap in *. pose proof (zlen_nonneg o). lia.
Qed.

Lemma remove_ok len b m l av fl o :
  pool_ok m av fl (l.*1 ++ o) -> rep m b l -> 0 <= len < SIZE_MAX ->
  exists b' m' l' ret,
    remove len b m = Ok (Z.min len (zlen (bytes m l)), ztake len (bytes m l), b', m') /\
    rep m' b' l' /\ bytes m' l' = zdrop len (bytes m l) /\
    l.*1 = ret ++ l'.*1 /\ pool_ok m' (av ++ ret) fl (l'.*1 ++ o) /\ frame l.*1 m m' /\
    (filled l -> filled l').
Proof.
  intros Hp Hr Hlen. pose proof (rep_shape _ _ _ Hr) as Hs.
  destruct (remove_loop_ok (S (Z.to_nat (n_chunks_ b))) len 0 [] b m l av fl o Hp Hs)
    as (b' & m' & l' & ret & Hq & Hs' & Hb & Hl & Hp' & Hf & Ht & Hfl);
    [lia | lia | by eapply n_chunks_fuel |].
  unfold remove. rewrite Hq. simpl. rewrite Z.sub_0_r in *.
  eexists _, m', l', ret. split; [done|]. split; [|done].
  eapply total_sub; eauto using rep_bound. lia.
Qed.

Lemma bytes_upd_next m n l : bytes m (upd_last (set_next n) l) = bytes m l.
Proof.
  destruct l as [|[a f] l _] using rev_ind; [done|]. rewrite upd_last_snoc, !chain_bytes_app. reflexivity.
Qed.

(** The chunks after [c] was linked behind [l]. *)
Definition linked (i : nat) (c : Chunk) (l : list (nat * Chunk)) : list (nat * Chunk) :=
  upd_last (set_next (Some i)) l ++ [(i, c)].

Lemma linked_fst i c l : (linked i c l).*1 = l.*1 ++ [i].
Proof. unfold linked. by rewrite fmap_app, upd_last_fst. Qed.

Lemma bytes_linked m i c l : bytes m (linked i c l) = bytes m l ++ content m c.
Proof. unfold linked. by rewrite chain_bytes_app, bytes_upd_next, chain_bytes_cons, app_nil_r. Qed.

(** Linking [i] behind the last chunk [t]. *)
Lemma linked_chain h p l t d i c :
  chain next_ h p (l ++ [(t, d)]) -> NoDup (l ++ [(t, d)]).*1 -> i ∉ (l ++ [(t, d)]).*1 ->
  (i < length h)%nat -> next_ c = None ->
  chain next_ (<[i := c]> (<[t := set_next (Some i) d]> h)) p (linked i c (l ++ [(t, d)])).
Proof.
  intros Hc Hnd Hi Hlt Hnx. destruct (chain_at _ _ _ _ _ _ _ Hc) as [Hd _].
  pose proof (lookup_lt_Some _ _ _ Hd). pose proof Hi as Hi'. pose proof Hnd as Hnd'.
  rewrite fmap_app in Hi', Hnd'. rewrite NoDup_app in Hnd'. destruct_and!.
  unfold linked. rewrite upd_last_snoc, <- app_assoc. simpl.
  eapply (chain_snoc _ h); [exact Hc | done | done | | | | |exact Hnx].
  - intros x Hx. rewrite !list_lookup_insert_ne; [done | |]; intros ->; set_solver.
  - rewrite list_lookup_insert_ne, list_lookup_insert_eq; [done | done | set_solver].
  - done.
  - rewrite list_lookup_insert_eq; [done|]. by rewrite length_insert.
Qed.

Lemma linked_rep m m' b b' l i c av fl o :
  rep m b l -> chunk_ok m c -> memory m' = memory m -> CHUNK_SIZE m' = CHUNK_SIZE m ->
  pool_ok m' av fl (i :: l.*1 ++ o) ->
  chain next_ (chunks_data_ m') (first_ b') (linked i c l) -> last_ b' = Some i ->
  n_chunks_ b' = u64 (n_chunks_ b + 1) -> total_len_ b' = u64 (total_len_ b + zlen (content m c)) ->
  rep m' b' (linked i c l) /\ pool_ok m' av fl ((linked i c l).*1 ++ o).
Proof.
  intros [[Hc Hl Hn Hok] Ht] Hcok Hmem Hsz Hp Hch Hla Hn' Ht'.
  assert (Hp' : pool_ok m' av fl ((linked i c l).*1 ++ o)).
  { rewrite linked_fst. eapply pool_held_perm, Hp. solve_Permutation. }
  assert (Hs : shape m' b' (linked i c l)).
  { split; [done | unfold linked; by rewrite last_snoc | |].
    - rewrite Hn', Hn. unfold linked. rewrite zlen_app. unfold zlen at 2. rewrite length_upd_last.
      apply wrap_small. pose proof (pool_perm _ _ _ _ Hp) as Hpm. apply Permutation_length in Hpm.
      pose proof (pool_some _ _ _ _ Hp). unfold zlen in *.
      rewrite !length_app in Hpm. simpl in Hpm. rewrite length_app, length_fmap, length_seq in Hpm. simpl. lia.
    - apply Forall_app. split; [|constructor; [|done]; unfold chunk_ok in *; by rewrite Hsz].
      apply (upd_last_Forall _ (chunk_ok m')); [done|].
      eapply Forall_impl; [exact Hok|]. intros [? ?]. unfold chunk_ok. by rewrite Hsz. }
  split; [|done]. split; [done|].
  pose proof (rep_bound _ _ _ _ _ o Hp' Hs) as Hbd.
  rewrite (bytes_memory m m'), bytes_linked, zlen_app in * by done.
  rewrite Ht', Ht. apply wrap_small. pose proof (zlen_nonneg (bytes m l)).
  pose proof (zlen_nonneg (content m c)). lia.
Qed.

(** What [append] computes, on an empty and on a non-empty buffer. *)
Lemma append_empty index i len b m c :
  last_ b = None -> getChunkById index m = Some i -> chunks_data_ m !! i = Some c ->
  append index len b m =
    Ok (mkInputChainBuffer (Some i) (Some i) (u64 (n_chunks_ b + 1)) (u64 (total_len_ b + len)),
        set_chunks (<[i := set_tail (u64 (tail_ c + len)) c]> (chunks_data_ m)) m).
Proof.
  intros Hl Hg Hc. unfold append, push_back. rewrite Hg, Hl. simpl. rewrite Hc. simpl.
  unfold update. simpl. by rewrite Hc.
Qed.

Lemma append_linked index i t len b m c d :
  last_ b = Some t -> t <> i -> getChunkById index m = Some i ->
  chunks_data_ m !! i = Some c -> chunks_data_ m !! t = Some d ->
  append index len b m =
    Ok (mkInputChainBuffer (first_ b) (Some i) (u64 (n_chunks_ b + 1)) (u64 (total_len_ b + len)),
        set_chunks (<[i := set_tail (u64 (tail_ c + len)) c]>
                      (<[t := set_next (Some i) d]> (chunks_data_ m))) m).
Proof.
  intros Hl Hne Hg Hc Hd. pose proof (lookup_lt_Some _ _ _ Hd).
  unfold append, push_back, update. rewrite Hg, Hl. simpl. rewrite Hd. simpl.
  rewrite list_lookup_insert_eq by done. simpl.
  rewrite list_lookup_insert_ne, Hc by done. simpl. done.
Qed.

(** The chunk [i] with [len] bytes is linked behind the others. *)
Lemma append_links i len b m l av fl o c :
  pool_ok m av (i :: fl) (l.*1 ++ o) -> rep m b l -> chunks_data_ m !! i = Some c -> i ∉ l.*1 ++ o ->
  getChunkById (Z.of_nat i) m = Some i -> next_ c = None ->
  let c' := set_tail (u64 (tail_ c + len)) c in
  exists b' m', append (Z.of_nat i) len b m = Ok (b', m') /\ memory m' = memory m /\ CHUNK_SIZE m' = CHUNK_SIZE m /\
    pool_ok m' av fl (i :: l.*1 ++ o) /\ chain next_ (chunks_data_ m') (first_ b') (linked i c' l) /\
    last_ b' = Some i /\ n_chunks_ b' = u64 (n_chunks_ b + 1) /\ total_len_ b' = u64 (total_len_ b + len) /\
    frame (l.*1 ++ [i]) m m'.
Proof.
  intros Hp [[Hc Hl _ _] _] Hci Hil Hget Hnx c'. pose proof (pool_report _ _ _ _ _ Hp) as Hp1.
  pose proof (lookup_lt_Some _ _ _ Hci) as Hlt. destruct l as [|[t d] l _] using rev_ind.
  - rewrite (append_empty _ i len b m c Hl Hget Hci). fold c'. eexists _, _. split; [done|]. split_and!; try done.
    + eapply pool_set_held; [exact Hp1 | set_solver | done..].
    + simpl. constructor; [by rewrite list_lookup_insert_eq|]. simpl. rewrite Hnx. constructor.
    + split; try done. intros j Hj. simpl. rewrite list_lookup_insert_ne; [done | set_solver].
  - rewrite last_snoc in Hl. simpl in Hl. destruct (chain_at _ _ _ _ _ _ _ Hc) as [Hd Hdn].
    assert (Hti : t <> i) by (intros ->; apply Hil; rewrite fmap_app; set_solver).
    rewrite (append_linked _ i t len b m c d Hl Hti Hget Hci Hd). fold c'. pose proof (pool_nodup _ _ _ _ Hp) as Hnd.
    eexists _, _. split; [done|]. split_and!; try done.
    + apply (pool_set_held (set_chunks (<[t:=set_next (Some i) d]> (chunks_data_ m)) m) _ _ _ _ c);
        [|set_solver | etransitivity; [by apply list_lookup_insert_ne | done] | done | done].
      eapply pool_set_held; [exact Hp1 | rewrite fmap_app; set_solver | done..].
    + apply linked_chain; try done; [rewrite !NoDup_app in Hnd; tauto | set_solver].
    + split; try done. intros j Hj. simpl. rewrite fmap_app in Hj.
      rewrite !list_lookup_insert_ne; [done | set_solver | set_solver].
Qed.

(** [append] of a chunk the kernel filled with [len] bytes. *)
Lemma append_ok i len b m l av fl o :
  pool_ok m av (i :: fl) (l.*1 ++ o) -> rep m b l -> 0 <= len <= CHUNK_SIZE m ->
  exists b' m' l',
    append (Z.of_nat i) len b m = Ok (b', m') /\
    rep m' b' l' /\ l'.*1 = l.*1 ++ [i] /\ pool_ok m' av fl (l'.*1 ++ o) /\
    bytes m' l' = bytes m l ++ mem_read (memory m) (chunk_addr m i) len /\
    frame (l.*1 ++ [i]) m m' /\ (filled l -> 0 < len -> filled l').
Proof.
  intros Hp Hr Hlen. pose proof (pool_chunk_size _ _ _ _ Hp) as Hsz.
  destruct (pool_infl _ _ _ _ _ Hp) as (c & Hci & Hil & Hfree & Hdp & Hget).
  destruct (append_links i len b m l av fl o c Hp Hr Hci Hil Hget) as
    (b' & m' & Ha & Hm & Hs & Hpo & Hch & Hla & Hn & Ht & Hf); [by rewrite <- Hfree|].
  assert (Hc' : u64 (tail_ c + len) = len) by (rewrite <- Hfree; simpl; apply wrap_small; lia).
  rewrite Hc' in Hch. set (c' := set_tail len c) in *.
  assert (Hcok : chunk_ok m c') by (unfold c'; rewrite <- Hfree; split; simpl; lia).
  assert (Hcb : content m c' = mem_read (memory m) (chunk_addr m i) len).
  { unfold content, beginRead, c'. rewrite <- Hfree. simpl. rewrite Hdp. f_equal; lia. }
  destruct (linked_rep m m' b b' l i c' av fl o) as [Hrep Hpool]; try done; [by rewrite Hcb, zlen_mem_read by lia|].
  exists b', m', (linked i c' l). split_and!; try done; [apply linked_fst | by rewrite (bytes_memory m), bytes_linked, Hcb|].
  intros Hk Hpos. apply Forall_app. split; [by apply (upd_last_Forall _ (fun c => head_ c < tail_ c))|].
  constructor; [|done]. unfold c'. by rewrite <- Hfree.
Qed.

Lemma destroy_loop_ok fuel : forall b m l av fl o,
  pool_ok m av fl (l.*1 ++ o) -> shape m b l -> (length l < fuel)%nat ->
  exists b' m', destroy_loop fuel b m = Ok (b', m') /\ n_chunks_ b' = 0 /\
    pool_ok m' (av ++ l.*1) fl o /\ frame l.*1 m m'.
Proof.
  induction fuel as [|fuel IH]; intros b m l av fl o Hp Hs Hfu; [lia|]. simpl.
  rewrite (shape_chunks _ _ _ Hs). destruct l as [|[i c] l].
  - exists b, m. simpl. rewrite app_nil_r. split_and!; try done. apply (shape_chunks _ _ _ Hs).
  - rewrite zlen_cons, (proj2 (Z.eqb_neq _ _)) by (pose proof (zlen_nonneg l); lia).
    destruct (chain_pop_front_shape m b i c l av fl o Hp Hs) as (b1 & m1 & Hq & Hs1 & Hp1 & Hf1 & _).
    rewrite Hq. simpl.
    destruct (IH b1 m1 l (av ++ [i]) fl o Hp1 Hs1) as (b2 & m2 & Hq2 & Hn2 & Hp2 & Hf2);
      [simpl in Hfu; lia|].
    exists b2, m2. rewrite <- app_assoc in Hp2. split_and!; try done.
    apply (frame_trans _ _ m1); eapply frame_mono; [|exact Hf1| |exact Hf2]; set_solver.
Qed.

(** The kernel writes into a chunk that is in no buffer: nobody's data changes. *)
Lemma fill_rep m av fl hd i d b l :
  pool_ok m av (i :: fl) hd -> zlen d <= CHUNK_SIZE m -> l.*1 ⊆ hd -> rep m b l ->
  rep (kernel_fill i d m) b l /\ bytes (kernel_fill i d m) l = bytes m l.
Proof.
  intros Hp Hd Hl [Hs Ht]. destruct (pool_infl _ _ _ _ _ Hp) as (_ & _ & Hi & _).
  assert (Hb : bytes (kernel_fill i d m) l = bytes m l).
  { unfold bytes. f_equal. apply map_ext_in. intros [j c] Hin. apply list_elem_of_In in Hin.
    pose proof (shape_ok _ _ _ Hs) as Hok. rewrite Forall_forall in Hok. specialize (Hok _ Hin).
    assert (Hji : j <> i).
    { intros ->. apply Hi, Hl. by apply (list_elem_of_fmap_2 fst) in Hin. }
    apply list_elem_of_lookup in Hin as [k Hk].
    pose proof (chain_lookup _ _ _ _ _ _ _ (shape_chain _ _ _ Hs) Hk) as Hj.
    destruct (pool_chunk _ _ _ _ Hp _ _ Hj) as [_ Hdp]. destruct Hok as [Hh Htl]. simpl in *.
    unfold content. simpl. apply mem_read_write_ne. unfold chunk_addr, beginRead. rewrite Hdp.
    pose proof (pool_chunk_size _ _ _ _ Hp). destruct (Nat.lt_gt_cases j i) as [[?|?] _]; [done|left|right]; nia. }
  split; [|done]. split; [by destruct Hs | by rewrite Hb].
Qed.

(** Consuming with [retrieve] ends in the state [remove] ends in. *)
Lemma retrieve_as_remove len b m k d b' m' :
  remove len b m = Ok (k, d, b', m') -> retrieve len b m = Ok (b', m').
Proof.
  unfold remove, retrieve. generalize (S (Z.to_nat (n_chunks_ b))). intros fuel Hq.
  destruct (remove_loop _ _ _ _ _ _) as [[[[r cp] b1] m1]|] eqn:Hrl; [|done]. simpl in *.
  rewrite (retrieve_loop_remove _ _ _ _ _ _ _ _ _ _ Hrl). simpl. by simplify_eq.
Qed.

(** The other connections' chunks are not among those an operation touches. *)
Lemma others_framed own m m' av fl b2 l2 o :
  frame own m m' -> NoDup (av ++ fl ++ own ++ o) -> l2.*1 ⊆ o -> rep m b2 l2 ->
  rep m' b2 l2 /\ bytes m' l2 = bytes m l2.
Proof.
  intros Hf Hnd Hl2 Hr2. apply (rep_frame _ _ _ _ _ Hf); [|done]. intros i Hi Hin.
  rewrite !NoDup_app in Hnd. destruct_and!. set_solver.
Qed.

(** The kernel stores [d] in a chunk it took and the completion appends it. *)
Lemma receive_ok i d b m l av fl o :
  pool_ok m av (i :: fl) (l.*1 ++ o) -> rep m b l -> zlen d <= CHUNK_SIZE m ->
  exists b' m' l',
    append (Z.of_nat i) (zlen d) b (kernel_fill i d m) = Ok (b', m') /\
    rep m' b' l' /\ bytes m' l' = bytes m l ++ d /\ pool_ok m' av fl (l'.*1 ++ o) /\
    (forall b2 l2, l2.*1 ⊆ o -> rep m b2 l2 -> rep m' b2 l2 /\ bytes m' l2 = bytes m l2) /\
    CHUNK_SIZE m' = CHUNK_SIZE m /\ l'.*1 = l.*1 ++ [i] /\ (filled l -> 0 < zlen d -> filled l').
Proof.
  intros Hp Hr Hd. destruct (fill_rep _ _ _ _ _ d b l Hp Hd) as [Hr1 Hb1]; [set_solver | done |].
  destruct (append_ok i (zlen d) b (kernel_fill i d m) l av fl o)
    as (b' & m' & l' & Hq & Hr' & Hl' & Hp' & Hb' & Hf' & Hfl); [by apply pool_fill | done | |].
  { simpl. pose proof (zlen_nonneg d). lia. }
  exists b', m', l'. split_and!; try done.
  - rewrite Hb', Hb1. f_equal. apply mem_read_write_eq.
  - intros b2 l2 Hl2 Hr2.
    destruct (fill_rep _ _ _ _ _ d b2 l2 Hp Hd) as [Hr3 Hb3]; [set_solver | exact Hr2 |].
    destruct (others_framed _ _ _ av fl b2 l2 o Hf') as [Hr4 Hb4]; [|done|done|split; [done|congruence]].
    rewrite <- Hl'. by apply (pool_nodup _ _ _ _ Hp').
  - by rewrite (frame_size _ _ _ Hf').
Qed.

Lemma removeAsString_ok size b m l av fl o :
  pool_ok m av fl (l.*1 ++ o) -> rep m b l -> 0 <= size < SIZE_MAX ->
  exists b' m' l' ret,
    removeAsString size b m = Ok (ztake size (bytes m l), b', m') /\ retrieve size b m = Ok (b', m') /\
    rep m' b' l' /\ bytes m' l' = zdrop size (bytes m l) /\
    l.*1 = ret ++ l'.*1 /\ pool_ok m' (av ++ ret) fl (l'.*1 ++ o) /\
    (forall b2 l2, l2.*1 ⊆ o -> rep m b2 l2 -> rep m' b2 l2 /\ bytes m' l2 = bytes m l2) /\
    CHUNK_SIZE m' = CHUNK_SIZE m /\ (filled l -> filled l').
Proof.
  intros Hp Hr Hsz.
  destruct (remove_ok size b m l av fl o Hp Hr Hsz) as (b' & m' & l' & ret & Hq & Hr' & Hb & Hl & Hp' & Hf & Hfl).
  exists b', m', l', ret. split_and!; try done.
  - unfold removeAsString. rewrite Hq. simpl. do 3 f_equal.
    pose proof (zlen_nonneg (bytes m l)).
    rewrite ztake_app_l by (rewrite zlen_ztake; lia). apply ztake_all. rewrite zlen_ztake; lia.
  - by eapply retrieve_as_remove.
  - intros b2 l2 Hl2. apply (others_framed _ _ _ av fl _ _ o Hf); [|done]. by apply (pool_nodup _ _ _ _ Hp).
  - by rewrite (frame_size _ _ _ Hf).
Qed.

Lemma destroy_ok b m l av fl o :
  pool_ok m av fl (l.*1 ++ o) -> rep m b l ->
  exists b' m', destroy b m = Ok (b', m') /\ n_chunks_ b' = 0 /\ pool_ok m' (av ++ l.*1) fl o /\
    CHUNK_SIZE m' = CHUNK_SIZE m /\
    (forall b2 l2, l2.*1 ⊆ o -> rep m b2 l2 -> rep m' b2 l2 /\ bytes m' l2 = bytes m l2).
Proof.
  intros Hp Hr. pose proof (rep_shape _ _ _ Hr) as Hs.
  destruct (destroy_loop_ok (S (Z.to_nat (n_chunks_ b))) b m l av fl o Hp Hs) as (b' & m' & Hq & Hn & Hp' & Hf);
    [by eapply n_chunks_fuel|].
  exists b', m'. split_and!; try done; [apply (frame_size _ _ _ Hf)|]. intros b2 l2 Hl2.
  apply (others_framed _ _ _ av fl _ _ o Hf); [|done]. by apply (pool_nodup _ _ _ _ Hp).
Qed.

(** ** Properties *)

(** Receiving: the kernel stores [d] in a chunk it took from the ring and the
    completion handler appends the chunk.  The buffer's content grows by exactly
    [d], the chunk changes hands (kernel to buffer), no pointer is null, and the
    buffers of the other connections on the loop keep their content. *)
Theorem receive_correct i d b m l av fl o :
  pool_ok m av (i :: fl) (l.*1 ++ o) -> rep m b l -> zlen d <= CHUNK_SIZE m ->
  exists b' m' l',
    append (Z.of_nat i) (zlen d) b (kernel_fill i d m) = Ok (b', m') /\
    rep m' b' l' /\ bytes m' l' = bytes m l ++ d /\ pool_ok m' av fl (l'.*1 ++ o) /\
    (forall b2 l2, l2.*1 ⊆ o -> rep m b2 l2 -> rep m' b2 l2 /\ bytes m' l2 = bytes m l2).
Proof.
  intros Hp Hr Hd. destruct (receive_ok i d b m l av fl o Hp Hr Hd) as (b' & m' & l' & ? & ? & ? & ? & ? & _).
  by exists b', m', l'.
Qed.

(** Reading: [removeAsString(size)] terminates, returns the first [size]
    buffered bytes (all of them when there are fewer) in order and leaves the
    rest; the chunks that are used up go back to the ring, oldest first, and the
    other connections are not affected. *)
Theorem removeAsString_correct size b m l av fl o :
  pool_ok m av fl (l.*1 ++ o) -> rep m b l -> 0 <= size < SIZE_MAX ->
  exists b' m' l' ret,
    removeAsString size b m = Ok (ztake size (bytes m l), b', m') /\
    rep m' b' l' /\ bytes m' l' = zdrop size (bytes m l) /\
    getTotalLen b' = Z.max 0 (getTotalLen b - size) /\
    l.*1 = ret ++ l'.*1 /\ pool_ok m' (av ++ ret) fl (l'.*1 ++ o) /\
    (forall b2 l2, l2.*1 ⊆ o -> rep m b2 l2 -> rep m' b2 l2 /\ bytes m' l2 = bytes m l2).
Proof.
  intros Hp Hr Hsz.
  destruct (removeAsString_ok size b m l av fl o Hp Hr Hsz)
    as (b' & m' & l' & ret & ? & _ & Hr' & Hb & ? & ? & ? & _).
  exists b', m', l', ret. split_and!; try done.
  unfold getTotalLen. rewrite (rep_total _ _ _ Hr'), (rep_total _ _ _ Hr), Hb, zlen_zdrop by lia. lia.
Qed.

Lemma peek_ok b m l av fl o :
  pool_ok m av fl (l.*1 ++ o) -> rep m b l ->
  exists p n rest, peek b m = Ok (p, n) /\
     match p with
     | None => n = 0 /\ bytes m l = []
     | Some a => bytes m l = mem_read (memory m) a n ++ rest
     end.
Proof.
  intros Hp Hr. pose proof (rep_shape _ _ _ Hr) as Hs.
  unfold peek. destruct l as [|[i c] l]; pose proof (shape_chain _ _ _ Hs) as Hc;
    inversion Hc as [|? ? ? Hi Hc' Hf]; subst.
  - by exists None, 0, [].
  - simpl. rewrite Hi. simpl. exists (Some (beginRead c)), (readableBytes c), (bytes m l).
    split; [done|]. pose proof (shape_ok _ _ _ Hs) as Hok. apply Forall_cons in Hok as [Hok _]. simpl in Hok.
    rewrite chain_bytes_cons, (readable_ok _ _ _ _ _ Hp Hok), zlen_content by done. done.
Qed.

(** C35. [peek] + [retrieve] is an equivalent way to consume: [peek] points at a
    prefix of the content, and [retrieve(len)] leaves the buffer and the pool in
    the very state [remove(len)] leaves them in. *)
Theorem peek_retrieve_correct len b m l av fl o :
  pool_ok m av fl (l.*1 ++ o) -> rep m b l -> 0 <= len < SIZE_MAX ->
  (exists p n rest, peek b m = Ok (p, n) /\
     match p with
     | None => n = 0 /\ bytes m l = []
     | Some a => bytes m l = mem_read (memory m) a n ++ rest
     end) /\
  exists k d b' m', remove len b m = Ok (k, d, b', m') /\ retrieve len b m = Ok (b', m').
Proof.
  intros Hp Hr Hlen. split; [by eapply peek_ok|].
  destruct (remove_ok len b m l av fl o Hp Hr Hlen) as (b' & m' & l' & ret & Hq & _).
  eexists _, _, b', m'. split; [exact Hq|]. by eapply retrieve_as_remove.
Qed.

(** Destroying the buffer of a connection terminates and gives every chunk it
    held back to the ring, in order: no chunk is leaked and none is returned twice. *)
Theorem destroy_returns_all b m l av fl o :
  pool_ok m av fl (l.*1 ++ o) -> rep m b l ->
  exists b' m', destroy b m = Ok (b', m') /\ pool_ok m' (av ++ l.*1) fl o /\
    (forall b2 l2, l2.*1 ⊆ o -> rep m b2 l2 -> rep m' b2 l2).
Proof.
  intros Hp Hr. destruct (destroy_ok b m l av fl o Hp Hr) as (b' & m' & Hq & _ & Hp' & _ & Ho).
  exists b', m'. split_and!; try done. intros b2 l2 Hl2 Hr2. by apply Ho.
Qed.

End operations.

(** ** Witnesses: a pool of four 8-byte chunks at address 1000.  Chunk 1 holds
    "abc" in one connection, chunk 0 was taken by the kernel. *)

Definition demo_pool : @Manager list_ring :=
  {| pool_ := mkChunkPool 1000 32 4;
     chunks_data_ := [mkChunk 1000 0 None 0 0; mkChunk 1008 1 None 0 3;
                      mkChunk 1016 2 None 0 0; mkChunk 1024 3 None 0 0];
     input_buf_ring_ := (([2; 3], fun _ => None) : @buf_ring list_ring);
     ring_size_ := 80; input_buf_ring_mask_ := 3; ring_entries := 4; bgid := 1; count_ := 0;
     CHUNK_SIZE := 8; memory := mem_write (fun _ => x00) 1008 [x61; x62; x63] |}.
Definition demo_buf : InputChainBuffer := mkInputChainBuffer (Some 1%nat) (Some 1%nat) 1 3.
Definition demo_chunks : list (nat * Chunk) := [(1%nat, mkChunk 1008 1 None 0 3)].

Lemma demo_pool_ok : @pool_ok list_ring demo_pool [2; 3]%nat [0%nat] (demo_chunks.*1 ++ []).
Proof.
  split; try done.
  - intros i c Hi. do 4 (destruct i as [|i]; [by simplify_eq/=|]). done.
  - simpl. change ([2; 3; 0; 1]%nat ≡ₚ [0; 1; 2; 3]%nat). solve_Permutation.
  - intros i c Hn Hi. do 4 (destruct i as [|i]; [simpl in *; simplify_eq; (done || set_solver)|]). done.
Qed.

Lemma demo_buf_rep : @rep list_ring demo_pool demo_buf demo_chunks.
Proof.
  split; [split|]; try done.
  - constructor; [done|]. constructor.
  - repeat constructor; done.
Qed.

Lemma receive_correct_witness :
  exists b' m' l', @append list_ring 0 2 demo_buf (kernel_fill 0 [x64; x65] demo_pool) = Ok (b', m') /\
    bytes m' l' = [x61; x62; x63; x64; x65].
Proof.
  destruct (@receive_correct list_ring 0%nat [x64; x65] demo_buf demo_pool demo_chunks [2; 3]%nat [] []
              demo_pool_ok demo_buf_rep) as (b' & m' & l' & Hq & _ & Hb & _).
  - vm_compute. done.
  - exists b', m', l'. split; [exact Hq | rewrite Hb; reflexivity].
Defined.

Lemma removeAsString_correct_witness :
  exists b' m', @removeAsString list_ring 2 demo_buf demo_pool = Ok ([x61; x62], b', m') /\
    getTotalLen b' = 1.
Proof.
  destruct (@removeAsString_correct list_ring 2 demo_buf demo_pool demo_chunks [2; 3]%nat [0%nat] []
              demo_pool_ok demo_buf_rep) as (b' & m' & l' & ret & Hq & _ & _ & Ht & _).
  - lia.
  - exists b', m'. split; [exact Hq | exact Ht].
Defined.

Lemma peek_retrieve_correct_witness :
  exists k d b' m', @remove list_ring 3 demo_buf demo_pool = Ok (k, d, b', m') /\
    @retrieve list_ring 3 demo_buf demo_pool = Ok (b', m').
Proof.
  destruct (@peek_retrieve_correct list_ring 3 demo_buf demo_pool demo_chunks [2; 3]%nat [0%nat] []
              demo_pool_ok demo_buf_rep) as [_ Hq].
  - lia.
  - exact Hq.
Defined.

Lemma destroy_returns_all_witness :
  exists b' m', @destroy list_ring demo_buf demo_pool = Ok (b', m') /\
    @pool_ok list_ring m' [2; 3; 1]%nat [0%nat] [].
Proof.
  destruct (@destroy_returns_all list_ring demo_buf demo_pool demo_chunks [2; 3]%nat [0%nat] []
              demo_pool_ok demo_buf_rep) as (b' & m' & Hq & Hp & _).
  exists b', m'. split; [exact Hq | exact Hp].
Defined.

End InputChainBuffer.
