(* ===== verification/InputBuffers.v ===== *)
(** * The input buffers of a loop

    All connections of a loop receive into chunks of one pool
    ([src/ChunkPoolManagerInput.cc]), and each keeps its own chain of chunks
    ([src/InputChainBuffer.cc]).  To its users this is a family of independent
    byte queues.  The file states that contract and proves that the chains on
    the shared pool implement it, for any number of connections and any
    interleaving of their operations. *)

From S2P Require Import Prelude Refinement ChunkPool InputChainBuffer.
Import Chunk ChunkPoolManagerInput InputChainBuffer.

Module InputBuffers.

(** A connection is a number. *)
Inductive op :=
  | Open (c : nat)
  | Receive (c : nat) (d : list byte)   (** the kernel receives for the connection *)
  | Read (c : nat) (size : Z)           (** [removeAsString] *)
  | Peek (c : nat)                      (** the bytes [peek] points to *)
  | Retrieve (c : nat) (size : Z)
  | TotalLen (c : nat)
  | Close (c : nat).                    (** the destructor of the buffer *)
Inductive out :=
  | ODone
  | OReceived
  | ORefused                            (** [ENOBUFS] *)
  | OData (d : list byte)
  | OLen (n : Z).

(** ** The contract *)

Definition buffered (a : gmap nat (list byte)) : list byte := map_to_list a ≫= snd.

Section spec.
Context (size n_chunks : Z).

Definition pre (o : op) (a : gmap nat (list byte)) : Prop :=
  match o with
  | Open c => a !! c = None
  | Receive c d => is_Some (a !! c) /\ 0 < zlen d <= size
  | Read c k | Retrieve c k => is_Some (a !! c) /\ 0 <= k < SIZE_MAX
  | Peek c | TotalLen c | Close c => is_Some (a !! c)
  end.

(** Data can be refused only if as many bytes are buffered as there are chunks. *)
Definition astep (o : op) (a : gmap nat (list byte)) (r : out) (a' : gmap nat (list byte)) : Prop :=
  match o with
  | Open c => r = ODone /\ a' = <[c := []]> a
  | Receive c d =>
      exists bs, a !! c = Some bs /\
        ((r = OReceived /\ a' = <[c := bs ++ d]> a) \/
         (r = ORefused /\ a' = a /\ n_chunks <= zlen (buffered a)))
  | Read c k => exists bs, a !! c = Some bs /\ r = OData (ztake k bs) /\ a' = <[c := zdrop k bs]> a
  | Peek c => exists bs d rest, a !! c = Some bs /\ bs = d ++ rest /\ (bs <> [] -> d <> []) /\ r = OData d /\ a' = a
  | Retrieve c k => exists bs, a !! c = Some bs /\ r = ODone /\ a' = <[c := zdrop k bs]> a
  | TotalLen c => exists bs, a !! c = Some bs /\ r = OLen (zlen bs) /\ a' = a
  | Close c => r = ODone /\ a' = delete c a
  end.
End spec.

(** ** The implementation *)

Section implementation.
Context `{BufRing}.

Definition state : Type := Manager * gmap nat InputChainBuffer.

(** The buffer of a connection. *)
Definition buffer (c : nat) (bufs : gmap nat InputChainBuffer) : result InputChainBuffer :=
  match bufs !! c with Some b => Ok b | None => Fault Dangling end.

Definition cstep (o : op) (x : state) : result (out * state) :=
  let '(m, bufs) := x in
  match o with
  | Open c => Ok (ODone, (m, <[c := new_InputChainBuffer]> bufs))
  | Receive c d =>
      b ← buffer c bufs;
      match available (input_buf_ring_ m) with
      | [] => Ok (ORefused, (m, bufs))
      | i :: _ =>
          '(b, m) ← append i (zlen d) b (kernel_fill (Z.to_nat i) d (kernel_take_chunk m));
          Ok (OReceived, (m, <[c := b]> bufs))
      end
  | Read c k =>
      b ← buffer c bufs;
      '(d, b, m) ← removeAsString k b m;
      Ok (OData d, (m, <[c := b]> bufs))
  | Peek c =>
      b ← buffer c bufs;
      '(p, n) ← peek b m;
      Ok (OData match p with Some a => mem_read (memory m) a n | None => [] end, (m, bufs))
  | Retrieve c k =>
      b ← buffer c bufs;
      '(b, m) ← retrieve k b m;
      Ok (ODone, (m, <[c := b]> bufs))
  | TotalLen c => b ← buffer c bufs; Ok (OLen (getTotalLen b), (m, bufs))
  | Close c =>
      b ← buffer c bufs;
      '(_, m) ← destroy b m;
      Ok (ODone, (m, delete c bufs))
  end.

(** ** The simulation *)

(** The chunks of all connections. *)
Definition held (ls : gmap nat (list (nat * Chunk))) : list nat := map_to_list ls ≫= fun x => x.2.*1.

Record R (size n_chunks : Z) (x : state) (a : gmap nat (list byte)) (ls : gmap nat (list (nat * Chunk)))
    (av : list nat) : Prop := {
  R_pool : pool_ok x.1 av [] (held ls);
  R_size : CHUNK_SIZE x.1 = size;
  R_chunks : zlen (chunks_data_ x.1) = n_chunks;
  R_abs : a = bytes x.1 <$> ls;
  R_rep c l : ls !! c = Some l -> exists b, x.2 !! c = Some b /\ rep x.1 b l /\ filled l;
  R_dom c : ls !! c = None -> x.2 !! c = None
}.

Definition related (size n_chunks : Z) (x : state) (a : gmap nat (list byte)) : Prop :=
  exists ls av, R size n_chunks x a ls av.

Lemma held_delete ls c l : ls !! c = Some l -> held ls ≡ₚ l.*1 ++ held (delete c ls).
Proof. intros Hc. unfold held. by rewrite <- (map_to_list_delete ls c l Hc). Qed.

Lemma held_insert ls c l : held (<[c := l]> ls) ≡ₚ l.*1 ++ held (delete c ls).
Proof.
  unfold held. rewrite <- insert_delete_eq. rewrite map_to_list_insert by apply lookup_delete_eq. done.
Qed.

Lemma elem_of_held ls c l i : ls !! c = Some l -> i ∈ l.*1 -> i ∈ held ls.
Proof.
  intros Hc Hi. apply list_elem_of_bind. exists (c, l). split; [done|]. by apply elem_of_map_to_list.
Qed.

(** An operation on connection [c] takes its chunks from [l] to [l'] and keeps
    those of the others. *)
Lemma R_update size n m bufs a ls av c l m' b' l' av' :
  R size n (m, bufs) a ls av -> ls !! c = Some l ->
  pool_ok m' av' [] (l'.*1 ++ held (delete c ls)) -> rep m' b' l' -> filled l' -> CHUNK_SIZE m' = CHUNK_SIZE m ->
  (length av' + length l' = length av + length l)%nat ->
  (forall b2 l2, l2.*1 ⊆ held (delete c ls) -> rep m b2 l2 -> rep m' b2 l2 /\ bytes m' l2 = bytes m l2) ->
  R size n (m', <[c := b']> bufs) (<[c := bytes m' l']> a) (<[c := l']> ls) av'.
Proof.
  intros [Hp Hz Hn Ha Hrep Hdom] Hc Hp' Hr' Hfl Hz' Hlen Hoth. simpl in *.
  assert (Hother : forall c2 l2, c2 <> c -> ls !! c2 = Some l2 -> l2.*1 ⊆ held (delete c ls)).
  { intros c2 l2 Hne Hl2 i Hi. apply (elem_of_held _ c2 l2); [by rewrite lookup_delete_ne | done]. }
  split; simpl.
  - eapply pool_held_perm, Hp'. by rewrite held_insert.
  - congruence.
  - rewrite <- Hn. unfold zlen. f_equal.
    pose proof (Permutation_length (pool_perm _ _ _ _ Hp)) as H1. pose proof (Permutation_length (pool_perm _ _ _ _ Hp')) as H2.
    rewrite (held_delete _ _ _ Hc) in H1. rewrite !length_app, !length_fmap, !length_seq in H1, H2. simpl in *. lia.
  - rewrite fmap_insert, Ha. apply map_eq. intros c2. destruct (decide (c2 = c)) as [->|Hne].
    { by rewrite !lookup_insert_eq. }
    rewrite !lookup_insert_ne, !lookup_fmap by done. destruct (ls !! c2) as [l2|] eqn:El; [|done]. simpl. f_equal.
    destruct (Hrep _ _ El) as (b2 & _ & Hr2 & _). destruct (Hoth b2 l2) as [_ Hb2]; [by eapply Hother | done | done].
  - intros c2 l2. destruct (decide (c2 = c)) as [->|Hne].
    { rewrite !lookup_insert_eq. intros [= <-]. eauto. }
    rewrite !lookup_insert_ne by done. intros El. destruct (Hrep _ _ El) as (b2 & Hb2 & Hr2 & Hf2).
    exists b2. split_and!; try done. eapply Hoth; [by eapply Hother | done].
  - intros c2. destruct (decide (c2 = c)) as [->|Hne]; [by rewrite lookup_insert_eq|].
    rewrite !lookup_insert_ne by done. apply Hdom.
Qed.

(** The state of one connection in a related state. *)
Lemma R_lookup size n m bufs a ls av c :
  R size n (m, bufs) a ls av -> is_Some (a !! c) ->
  exists l b, ls !! c = Some l /\ bufs !! c = Some b /\ rep m b l /\ filled l /\ a !! c = Some (bytes m l) /\
    pool_ok m av [] (l.*1 ++ held (delete c ls)).
Proof.
  intros [Hp Hz Hn Ha Hrep Hdom] [bs Hbs]. simpl in *. rewrite Ha, lookup_fmap in Hbs.
  destruct (ls !! c) as [l|] eqn:El; [|done]. destruct (Hrep _ _ El) as (b & ? & ? & ?).
  exists l, b. split_and!; try done; [by rewrite Ha, lookup_fmap, El|].
  eapply pool_held_perm, Hp. by apply held_delete.
Qed.

(** Every chunk that is held has at least one byte. *)
Lemma held_bytes size n x a ls av : R size n x a ls av -> zlen (held ls) <= zlen (buffered a).
Proof.
  intros [Hp Hz Hn Ha Hrep _]. unfold held, buffered. rewrite Ha, map_to_list_fmap.
  assert (Hall : Forall (fun y => exists b, rep x.1 b y.2 /\ filled y.2) (map_to_list ls)).
  { apply Forall_forall. intros [c l] Hin. apply elem_of_map_to_list in Hin. destruct (Hrep _ _ Hin) as (b & _ & ? & ?). eauto. }
  induction Hall as [|[c l] k (b & Hr & Hfl) _ IH]; [done|]. rewrite fmap_cons, !bind_cons, !zlen_app.
  cbn [prod_map fst snd] in *. rewrite zlen_fmap.
  assert (zlen l <= zlen (bytes x.1 l)); [|lia]. pose proof (shape_ok _ _ _ (rep_shape _ _ _ Hr)) as Hok.
  clear -Hfl Hok. induction l as [|[i ch] l IH]; [done|]. apply Forall_cons in Hfl as [H1 H2], Hok as [H3 H4].
  rewrite chain_bytes_cons, zlen_app, zlen_cons, zlen_content by done. simpl in *. specialize (IH H2 H4). lia.
Qed.

Lemma sim_receive size n m bufs a c d :
  related size n (m, bufs) a -> is_Some (a !! c) -> 0 < zlen d <= size ->
  exists r x' a', cstep (Receive c d) (m, bufs) = Ok (r, x') /\ astep n (Receive c d) a r a' /\ related size n x' a'.
Proof.
  intros (ls & av & HR) Hc Hd. pose proof HR as HR'. destruct HR' as [Hp Hz Hn _ _ _]. simpl in *.
  destruct (R_lookup _ _ _ _ _ _ _ _ HR Hc) as (l & b & Hl & Hb & Hr & Hfl & Ha & Hpl).
  unfold buffer. rewrite Hb. simpl. rewrite (pool_avail _ _ _ _ Hp). destruct av as [|i av]; simpl.
  - exists ORefused, (m, bufs), a. split_and!; [done | | by exists ls, []]. exists (bytes m l). split; [done|]. right.
    split_and!; try done. pose proof (held_bytes _ _ _ _ _ _ HR).
    pose proof (Permutation_length (pool_perm _ _ _ _ Hp)) as Hlen. rewrite length_seq in Hlen. simpl in Hlen.
    unfold zlen in *. lia.
  - assert (Hi : (i < length (chunks_data_ m))%nat).
    { apply lookup_lt_is_Some. apply (pool_lookup _ _ _ _ _ Hp). set_solver. }
    rewrite Nat2Z.id. pose proof (pool_take _ _ _ _ _ Hpl) as Hpt.
    destruct (receive_ok i d b (kernel_take_chunk m) l av [] (held (delete c ls)) Hpt)
      as (b' & m' & l' & Hq & Hr' & Hbs & Hp' & Hoth & Hsz & Hl' & Hfl'); [by destruct Hr as [[]] | simpl; lia |].
    rewrite Hq. simpl. eexists _, _, (<[c := bytes m l ++ d]> a). split; [done|]. split.
    { exists (bytes m l). split; [done|]. by left. }
    change (bytes m l) with (bytes (kernel_take_chunk m) l). rewrite <- Hbs.
    exists (<[c := l']> ls), av. eapply (R_update _ _ m); try done.
    + apply Hfl'; [done|lia].
    + assert (length l' = S (length l)) as ->.
      { rewrite <- (length_fmap fst l'), Hl', length_app, length_fmap. simpl. lia. }
      simpl. lia.
    + intros b2 l2 Hl2 Hr2. apply Hoth; [done|]. by destruct Hr2 as [[]].
Qed.

Lemma sim_read size n m bufs a c k :
  related size n (m, bufs) a -> is_Some (a !! c) -> 0 <= k < SIZE_MAX ->
  exists bs b b' m', a !! c = Some bs /\ bufs !! c = Some b /\
    removeAsString k b m = Ok (ztake k bs, b', m') /\ retrieve k b m = Ok (b', m') /\
    related size n (m', <[c := b']> bufs) (<[c := zdrop k bs]> a).
Proof.
  intros (ls & av & HR) Hc Hk. destruct (R_lookup _ _ _ _ _ _ _ _ HR Hc) as (l & b & Hl & Hb & Hr & Hfl & Ha & Hpl).
  destruct (removeAsString_ok k b m l av [] _ Hpl Hr Hk)
    as (b' & m' & l' & ret & Hq & Hq2 & Hr' & Hbs & Hl' & Hp' & Hoth & Hsz & Hfl').
  exists (bytes m l), b, b', m'. split_and!; try done. rewrite <- Hbs.
  exists (<[c := l']> ls), (av ++ ret). eapply (R_update _ _ m); try done; [auto|].
  apply (f_equal length) in Hl'. rewrite length_app, !length_fmap in Hl'. rewrite length_app. lia.
Qed.

Lemma sim_close size n m bufs a c :
  related size n (m, bufs) a -> is_Some (a !! c) ->
  exists b b' m', bufs !! c = Some b /\ destroy b m = Ok (b', m') /\
    related size n (m', delete c bufs) (delete c a).
Proof.
  intros (ls & av & HR) Hc. destruct (R_lookup _ _ _ _ _ _ _ _ HR Hc) as (l & b & Hl & Hb & Hr & Hfl & Ha & Hpl).
  destruct (destroy_ok b m l av [] _ Hpl Hr) as (b' & m' & Hq & Hn0 & Hp' & Hsz & Hoth).
  exists b, b', m'. split_and!; try done.
  assert (H1 : R size n (m', <[c := new_InputChainBuffer]> bufs) (<[c := bytes m' []]> a) (<[c := []]> ls) (av ++ l.*1)).
  { eapply (R_update _ _ m); try done.
    - split; [split|]; try done. constructor.
    - constructor.
    - rewrite length_app, length_fmap. simpl. lia. }
  exists (delete c ls), (av ++ l.*1). destruct H1 as [Hp1 Hz1 Hc1 Ha1 Hrep1 Hdom1]. simpl in *. split; simpl; try done.
  - apply (f_equal (delete c)) in Ha1. rewrite delete_insert_eq, <- fmap_delete, delete_insert_eq in Ha1. done.
  - intros c2 l2. destruct (decide (c2 = c)) as [->|Hne]; [by rewrite lookup_delete_eq|].
    rewrite !lookup_delete_ne by done. intros El. destruct (Hrep1 c2 l2) as (b2 & Hb2 & ?); [by rewrite lookup_insert_ne|].
    rewrite lookup_insert_ne in Hb2 by done. eauto.
  - intros c2. destruct (decide (c2 = c)) as [->|Hne]; [by rewrite !lookup_delete_eq|].
    rewrite !lookup_delete_ne by done. intros El. specialize (Hdom1 c2). rewrite !lookup_insert_ne in Hdom1 by done. auto.
Qed.

Lemma sim_open size n m bufs a c :
  related size n (m, bufs) a -> a !! c = None -> related size n (m, <[c := new_InputChainBuffer]> bufs) (<[c := []]> a).
Proof.
  intros (ls & av & [Hp Hz Hn Ha Hrep Hdom]) Hc. simpl in *. rewrite Ha, lookup_fmap in Hc.
  destruct (ls !! c) eqn:El; [done|]. exists (<[c := []]> ls), av. split; simpl; try done.
  - eapply pool_held_perm, Hp. rewrite held_insert, delete_id by done. done.
  - by rewrite fmap_insert, Ha.
  - intros c2 l2. destruct (decide (c2 = c)) as [->|Hne].
    + rewrite !lookup_insert_eq. intros [= <-]. eexists. split; [done|]. split; [|constructor].
      split; [split|]; try done; constructor.
    + rewrite !lookup_insert_ne by done. apply Hrep.
  - intros c2. destruct (decide (c2 = c)) as [->|Hne]; [by rewrite lookup_insert_eq|].
    rewrite !lookup_insert_ne by done. apply Hdom.
Qed.

Lemma sim_peek size n m bufs a c :
  related size n (m, bufs) a -> is_Some (a !! c) ->
  exists r, cstep (Peek c) (m, bufs) = Ok (r, (m, bufs)) /\ astep n (Peek c) a r a.
Proof.
  intros (ls & av & HR) Hc. destruct (R_lookup _ _ _ _ _ _ _ _ HR Hc) as (l & b & Hl & Hb & Hr & Hfl & Ha & Hpl).
  destruct (peek_ok b m l av [] _ Hpl Hr) as (p & k & rest & Hpk & Hbs). simpl. unfold buffer. rewrite Hb. simpl.
  rewrite Hpk. simpl. eexists. split; [done|]. exists (bytes m l). destruct p as [ad|].
  - exists (mem_read (memory m) ad k), rest. split_and!; try done. intros _ E. revert Hpk. unfold peek.
    destruct l as [|[i ch] l]; pose proof (shape_chain _ _ _ (rep_shape _ _ _ Hr)) as Hch; inversion Hch as [|? ? ? Hi ? Hfi]; subst.
    { done. }
    simpl. rewrite Hi. simpl. intros [= <- <-]. apply Forall_cons in Hfl as [Hlt _]. simpl in Hlt.
    pose proof (shape_ok _ _ _ (rep_shape _ _ _ Hr)) as Hok. apply Forall_cons in Hok as [Hok _]. simpl in Hok.
    apply (f_equal zlen) in E. rewrite (readable_ok _ _ _ _ _ Hpl Hok), zlen_content, zlen_mem_read, zlen_nil in E by (done || lia). lia.
  - destruct Hbs as [-> Hbs]. exists [], []. by rewrite Hbs in Ha |- *.
Qed.

Lemma input_buffers_simulate size n : forward_simulation cstep (pre size) (astep n) (related size n).
Proof.
  intros o [m bufs] a HR Hpre. destruct o as [c|c d|c k|c|c k|c|c]; simpl in Hpre.
  - exists ODone, (m, <[c := new_InputChainBuffer]> bufs), (<[c := []]> a). split_and!; [done | done | by apply sim_open].
  - destruct Hpre. by apply sim_receive.
  - destruct Hpre as [Hc Hk]. destruct (sim_read _ _ _ _ _ _ _ HR Hc Hk) as (bs & b & b' & m' & Ha & Hb & Hq & _ & HR').
    simpl. unfold buffer. rewrite Hb. simpl. rewrite Hq. simpl. eexists _, _, _. split; [done|]. split; [|done]. eauto.
  - destruct (sim_peek _ _ _ _ _ _ HR Hpre) as (r & ? & ?). by exists r, (m, bufs), a.
  - destruct Hpre as [Hc Hk]. destruct (sim_read _ _ _ _ _ _ _ HR Hc Hk) as (bs & b & b' & m' & Ha & Hb & _ & Hq & HR').
    simpl. unfold buffer. rewrite Hb. simpl. rewrite Hq. simpl. eexists _, _, _. split; [done|]. split; [|done]. eauto.
  - destruct HR as (ls & av & HR). destruct (R_lookup _ _ _ _ _ _ _ _ HR Hpre) as (l & b & Hl & Hb & Hr & _ & Ha & _).
    simpl. unfold buffer. rewrite Hb. simpl. eexists _, _, a. split; [done|]. split; [|by exists ls, av].
    exists (bytes m l). unfold getTotalLen. by rewrite (rep_total _ _ _ Hr).
  - destruct (sim_close _ _ _ _ _ _ HR Hpre) as (b & b' & m' & Hb & Hq & HR').
    simpl. unfold buffer. rewrite Hb. simpl. rewrite Hq. simpl. by eexists _, _, _.
Qed.

(** C22. The chains of chunks on the shared pool implement a family of independent
    byte queues: from a fresh pool, on every sequence of operations of any number
    of connections, no operation faults, reads return exactly the oldest bytes
    received for that connection, other connections are not affected, and data is
    refused only when at least as many bytes are buffered as there are chunks. *)
Theorem input_buffers_refine m n ops :
  pool_ok m (seq 0 n) [] [] -> allowed (pre (CHUNK_SIZE m)) (astep (Z.of_nat n)) ops ∅ ->
  exists outs x a, crun cstep ops (m, ∅) = Ok (outs, x) /\ arun (astep (Z.of_nat n)) ops ∅ outs a /\
    related (CHUNK_SIZE m) (Z.of_nat n) x a.
Proof.
  intros Hp Hal. apply (simulation_runs _ (pre (CHUNK_SIZE m)) _ _ _ _ _ (input_buffers_simulate _ _)); [|done].
  exists ∅, (seq 0 n). split; simpl; try done.
  pose proof (Permutation_length (pool_perm _ _ _ _ Hp)) as Hl. rewrite !length_app, !length_seq in Hl. simpl in Hl.
  unfold zlen. lia.
Qed.
End implementation.

(** ** Witness: two connections on a pool of two 8-byte chunks *)

Definition demo_fresh : @Manager list_ring :=
  {| pool_ := mkChunkPool 1000 16 2;
     chunks_data_ := [mkChunk 1000 0 None 0 0; mkChunk 1008 1 None 0 0];
     input_buf_ring_ := (([0; 1], fun _ => None) : @buf_ring list_ring);
     ring_size_ := 48; input_buf_ring_mask_ := 1; ring_entries := 2; bgid := 1; count_ := 0;
     CHUNK_SIZE := 8; memory := fun _ => x00 |}.

Lemma demo_fresh_ok : @pool_ok list_ring demo_fresh (seq 0 2) [] [].
Proof.
  split; try done.
  - intros i c Hi. do 2 (destruct i as [|i]; [by simplify_eq/=|]). done.
  - intros i c Hn Hi. do 2 (destruct i as [|i]; [by simplify_eq/=|]). done.
Qed.

Definition demo_ops : list op := [Open 1; Open 2; Receive 1 [x61; x62; x63]; Read 1 2; TotalLen 2].

Lemma input_buffers_refine_witness :
  exists outs x, crun (cstep (H := list_ring)) demo_ops (demo_fresh, ∅) = Ok (outs, x) /\ length outs = 5%nat.
Proof.
  destruct (input_buffers_refine (H := list_ring) demo_fresh 2 demo_ops demo_fresh_ok) as (outs & x & a & E & H & _).
  - simpl. split; [done|]. intros ? a1 [_ ->]. split; [done|]. intros ? a2 [_ ->].
    split; [split; [by eexists | by vm_compute]|]. intros ? a3 (bs & Hbs & [[_ ->]|(_ & _ & Hn)]); [|by vm_compute in Hn].
    split; [split; [by eexists | lia]|]. intros ? a4 (bs2 & _ & _ & ->). split; [by eexists|]. done.
  - exists outs, x. split; [exact E|]. clear E. unfold demo_ops in H.
    repeat match goal with H : arun _ (_ :: _) _ _ _ |- _ => inversion H; clear H; subst end.
    match goal with H : arun _ [] _ _ _ |- _ => inversion H; subst end. reflexivity.
Defined.

End InputBuffers.
