(* ===== verification/Timestamp.v ===== *)
(** * Time ([Timestamp], [MonotonicTimestamp], [addTime], [howMuchTimeFromNow])

    A time stamp is a signed 64-bit count of microseconds.  Delays are C++
    [double]s of seconds: they are IEEE binary64 numbers of the specification
    [SpecFloat] (53 bits of precision, maximal exponent 1024), so that the
    multiplication by 10^6 of [std::chrono::duration_cast] rounds as the code does
    and the conversion to an integer truncates as the code does. *)

From S2P Require Import Prelude.
From Stdlib Require Import Floats.SpecFloat.

Definition in_int64 (z : Z) : bool := (- 2 ^ 63 <=? z) && (z <? 2 ^ 63).

(** Signed 64-bit arithmetic: overflow is undefined. *)
Definition int64 (z : Z) : result Z :=
  if in_int64 z then Ok z else Fault UndefinedBehaviour.

Abbreviation double := spec_float.

(** [1000000.0] as a [double]. *)
Definition million : double := binary_normalize 53 1024 1000000 0 false.

(** Conversion of a [double] to an integer: truncation; undefined for a NaN, an
    infinity or a value out of range. *)
Definition trunc (x : double) : result Z :=
  match x with
  | S754_zero _ => Ok 0
  | S754_finite s m e =>
      let a := if 0 <=? e then Z.pos m * 2 ^ e else Z.pos m / 2 ^ (- e) in
      int64 (if s then - a else a)
  | _ => Fault UndefinedBehaviour
  end.

Module MonotonicTimestamp.

(** Construction and assignment. *)
Definition new_default : Z := 0.
Definition new_of (microSecondsSinceEpoch : Z) : Z := microSecondsSinceEpoch.
Definition new_copy (ts : Z) : Z := ts.
Definition assign_int (microSecondsSinceEpoch this : Z) : Z := microSecondsSinceEpoch.
Definition assign (ts this : Z) : Z := ts.

Definition lt (a b : Z) : bool := a <? b.
Definition eq (a b : Z) : bool := a =? b.
Definition ne (a b : Z) : bool := negb (a =? b).
Definition gt (a b : Z) : bool := b <? a.
Definition invaild : Z := new_default.
Definition vaild (a : Z) : bool := 0 <? a.

(** [now()]: the clock counts nanoseconds, [duration_cast] truncates. *)
Definition now (steady_clock_ns : Z) : Z := new_of (Z.quot steady_clock_ns 1000).

(** [duration_cast<microseconds>(duration<double>(seconds)).count()] *)
Definition to_microseconds (seconds : double) : result Z :=
  trunc (SFmul 53 1024 seconds million).

Definition addTime (ts : Z) (seconds : double) : result Z :=
  us ← to_microseconds seconds; int64 (ts + us).

End MonotonicTimestamp.

(** [Timestamp] is the same class over the system clock. *)
Module Timestamp.
(** Construction and assignment. *)
Definition new_default : Z := 0.
Definition new_of (microSecondsSinceEpoch : Z) : Z := microSecondsSinceEpoch.
Definition new_copy (ts : Z) : Z := ts.
Definition assign_int (microSecondsSinceEpoch this : Z) : Z := microSecondsSinceEpoch.
Definition assign (ts this : Z) : Z := ts.

Definition lt (a b : Z) : bool := a <? b.
Definition eq (a b : Z) : bool := a =? b.
Definition ne (a b : Z) : bool := negb (a =? b).
Definition gt (a b : Z) : bool := b <? a.
Definition invaild : Z := new_default.
Definition vaild (a : Z) : bool := 0 <? a.
Definition now (system_clock_ns : Z) : Z := new_of (Z.quot system_clock_ns 1000).
Definition addTime (ts : Z) (seconds : double) : result Z :=
  us ← MonotonicTimestamp.to_microseconds seconds; int64 (ts + us).
End Timestamp.

Import MonotonicTimestamp.

Record timespec := mkTimespec { tv_sec : Z; tv_nsec : Z }.

(** [howMuchTimeFromNow] of [src/TimerQueue.cc]. *)
Definition howMuchTimeFromNow (when now : Z) : result timespec :=
  us ← int64 (when - now);
  let us := if us <? 100 then 100 else us in
  Ok {| tv_sec := Z.quot us 1000000; tv_nsec := Z.rem us 1000000 * 1000 |}.

(** ** Lemmas *)

Lemma int64_ok z y : int64 z = Ok y -> y = z.
Proof. unfold int64. destruct (in_int64 z); congruence. Qed.

Definition positive (x : double) : bool :=
  match x with
  | S754_zero s | S754_infinity s | S754_finite s _ _ => negb s
  | S754_nan => false
  end.

Lemma binary_round_aux_sign p emax m e l :
  match binary_round_aux p emax false m e l with
  | S754_zero s | S754_infinity s | S754_finite s _ _ => s = false
  | S754_nan => True
  end.
Proof.
  unfold binary_round_aux. destruct (shr_fexp _ _ _ _ _) as [mrs e1].
  destruct (shr_fexp _ _ _ _ _) as [mrs2 e2].
  destruct (shr_m mrs2); try done. by destruct (Z.leb _ _).
Qed.

Lemma trunc_nonneg x z :
  match x with S754_finite s _ _ => s = false | _ => True end -> trunc x = Ok z -> 0 <= z.
Proof.
  destruct x as [s|s| |s m e]; simpl; intros Hs Hz; simplify_eq; try done.
  apply int64_ok in Hz. subst z. destruct (0 <=? e) eqn:He; [|apply Z.div_pos; lia].
  apply Z.leb_le in He. apply Z.mul_nonneg_nonneg; lia.
Qed.

(** A positive delay is never negative in microseconds (it may round to zero). *)
Lemma to_microseconds_nonneg x z : positive x = true -> to_microseconds x = Ok z -> 0 <= z.
Proof.
  intros Hx. unfold to_microseconds. apply trunc_nonneg.
  destruct x as [[]|[]| |[] m e]; try done. simpl in Hx.
  change million with (S754_finite false 8589934592000000 (-33)). unfold SFmul. simpl xorb.
  pose proof (binary_round_aux_sign 53 1024 (Z.pos (m * 8589934592000000)) (e + -33) loc_Exact) as H.
  by destruct (binary_round_aux _ _ _ _ _ _).
Qed.

Lemma addTime_ge ts x z : positive x = true -> addTime ts x = Ok z -> ts <= z.
Proof.
  intros Hx. unfold addTime. destruct (to_microseconds x) as [us|] eqn:Hu; [|done].
  simpl. intros Hz%int64_ok. pose proof (to_microseconds_nonneg _ _ Hx Hu). lia.
Qed.

Example addTime_100ms : addTime 5000000 (binary_normalize 53 1024 3602879701896397 (-55) false) = Ok 5100000.
Proof. reflexivity. Qed.

Lemma howMuchTimeFromNow_value when now :
  in_int64 (when - now) = true ->
  exists ts, howMuchTimeFromNow when now = Ok ts /\
    0 <= tv_nsec ts < 1000000000 /\ 0 <= tv_sec ts /\
    tv_sec ts * 1000000000 + tv_nsec ts = 1000 * Z.max 100 (when - now).
Proof.
  intros Hi. unfold howMuchTimeFromNow, int64. rewrite Hi. simpl.
  set (us := if when - now <? 100 then 100 else when - now).
  assert (Hus : us = Z.max 100 (when - now)).
  { unfold us. destruct (Z.ltb_spec (when - now) 100); lia. }
  eexists. split; [done|]. simpl.
  pose proof (Z.quot_rem' us 1000000). pose proof (Z.rem_bound_pos us 1000000).
  pose proof (Z.quot_pos us 1000000). lia.
Qed.

(** ** Properties *)

(** The relative time given to the kernel for the next timer is well formed
    (nanoseconds below one second), never below 100 microseconds, and otherwise
    exactly the time left until [when]; for a timer armed by [addTime] with a
    non-negative delay it is that delay in (non-negative) microseconds. *)
Theorem howMuchTimeFromNow_correct now delay when :
  positive delay = true -> addTime now delay = Ok when -> in_int64 (when - now) = true ->
  exists ts us, to_microseconds delay = Ok us /\ 0 <= us /\ howMuchTimeFromNow when now = Ok ts /\
    0 <= tv_nsec ts < 1000000000 /\ 0 <= tv_sec ts /\
    tv_sec ts * 1000000000 + tv_nsec ts = 1000 * Z.max 100 us.
Proof.
  intros Hp Ha Hi. destruct (howMuchTimeFromNow_value when now Hi) as (ts & Hts & Hn & Hs & Hv).
  unfold addTime in Ha. destruct (to_microseconds delay) as [us|] eqn:Hu; [|done]. simpl in Ha.
  apply int64_ok in Ha. subst when. exists ts, us.
  pose proof (to_microseconds_nonneg _ _ Hp Hu). split_and!; try done; lia.
Qed.

Lemma howMuchTimeFromNow_correct_witness :
  exists ts us, howMuchTimeFromNow 5100000 5000000 = Ok ts /\ us = 100000 /\
    tv_sec ts * 1000000000 + tv_nsec ts = 1000 * Z.max 100 us.
Proof.
  destruct (howMuchTimeFromNow_correct 5000000 (binary_normalize 53 1024 3602879701896397 (-55) false) 5100000)
    as (ts & us & Hu & _ & Hts & _ & _ & Hv).
  - reflexivity.
  - reflexivity.
  - reflexivity.
  - exists ts, us. split; [exact Hts|]. split; [|exact Hv]. vm_compute in Hu. congruence.
Defined.
