(* ===== verification/TimerQueue.v ===== *)
(** * Timers ([include/Timer.h], [include/TimerId.h], [src/TimerQueue.cc])

    The timers of a loop: an ordered map from (expiration, sequence number) to
    the owned [Timer], a set of (address, sequence number) pairs by which a timer
    is cancelled, and the set of cancellations that arrive while callbacks run.
    [Timer]s live in a heap, ownership by [std::unique_ptr] is the presence of
    the node in it, and an address may be reused as soon as it is freed. *)

From stdpp Require Import sorting.
From S2P Require Import Prelude Timestamp.
From Stdlib Require Import Floats.SpecFloat Sorted.
Import MonotonicTimestamp.

Module TimerQueue.

(** Callbacks are client code, named by a number ([None]: an empty
    [std::function]). *)
Record Timer := mkTimer {
  callback_ : option nat;
  expiration_ : Z;
  interval_ : double;
  repeat_ : bool;
  sequence_ : Z
}.

(** The constructor draws the sequence number from the global counter. *)
Definition new_Timer (callback : option nat) (when : Z) (interval : double) (seq : Z) : Timer :=
  {| callback_ := callback; expiration_ := when; interval_ := interval;
     repeat_ := SFltb (S754_zero false) interval; sequence_ := seq |}.

Definition restart (now : Z) (t : Timer) : result Timer :=
  e ← (if repeat_ t then addTime now (interval_ t) else Ok invaild);
  Ok {| callback_ := callback_ t; expiration_ := e; interval_ := interval_ t;
        repeat_ := repeat_ t; sequence_ := sequence_ t |}.

(** [fetch_add] on a [std::atomic_int64_t] wraps around. *)
Definition wrap_int64 (z : Z) : Z := (z + 2 ^ 63) mod 2 ^ 64 - 2 ^ 63.

Abbreviation Entry := (Z * Z)%type.
Abbreviation ActiveTimer := (nat * Z)%type.
Definition TimerId : Type := (nat * Z)%type.

(** What a loop-queued closure of [addTimer] and [cancelTimer] does. *)
Inductive Functor :=
  | AddInLoop (timer : nat)
  | CancelInLoop (timer_id : TimerId).

Record TimerQueue := mkTimerQueue {
  timers : gmap nat Timer;
  timer_list_ : list (Entry * nat);
  active_timer_set_ : gset ActiveTimer;
  canceling_timer_set_ : gset ActiveTimer;
  is_running_callback_ : bool;
  s_global_sequence_ : Z;
  pending : list Functor
}.

Definition new_TimerQueue (seq : Z) : TimerQueue :=
  {| timers := ∅; timer_list_ := []; active_timer_set_ := ∅; canceling_timer_set_ := ∅;
     is_running_callback_ := false; s_global_sequence_ := seq; pending := [] |}.

Definition set_timers (h : gmap nat Timer) (q : TimerQueue) : TimerQueue :=
  {| timers := h; timer_list_ := timer_list_ q; active_timer_set_ := active_timer_set_ q;
     canceling_timer_set_ := canceling_timer_set_ q; is_running_callback_ := is_running_callback_ q;
     s_global_sequence_ := s_global_sequence_ q; pending := pending q |}.
Definition set_index (l : list (Entry * nat)) (a : gset ActiveTimer) (q : TimerQueue) : TimerQueue :=
  {| timers := timers q; timer_list_ := l; active_timer_set_ := a;
     canceling_timer_set_ := canceling_timer_set_ q; is_running_callback_ := is_running_callback_ q;
     s_global_sequence_ := s_global_sequence_ q; pending := pending q |}.
Definition set_canceling (c : gset ActiveTimer) (r : bool) (q : TimerQueue) : TimerQueue :=
  {| timers := timers q; timer_list_ := timer_list_ q; active_timer_set_ := active_timer_set_ q;
     canceling_timer_set_ := c; is_running_callback_ := r;
     s_global_sequence_ := s_global_sequence_ q; pending := pending q |}.
Definition set_sequence (s : Z) (q : TimerQueue) : TimerQueue :=
  {| timers := timers q; timer_list_ := timer_list_ q; active_timer_set_ := active_timer_set_ q;
     canceling_timer_set_ := canceling_timer_set_ q; is_running_callback_ := is_running_callback_ q;
     s_global_sequence_ := s; pending := pending q |}.
Definition set_pending (p : list Functor) (q : TimerQueue) : TimerQueue :=
  {| timers := timers q; timer_list_ := timer_list_ q; active_timer_set_ := active_timer_set_ q;
     canceling_timer_set_ := canceling_timer_set_ q; is_running_callback_ := is_running_callback_ q;
     s_global_sequence_ := s_global_sequence_ q; pending := p |}.

(** ** [std::map<Entry, TimerPtr>] *)

(** [operator<] of [std::pair<MonotonicTimestamp, int64_t>]. *)
Definition entry_lt (a b : Entry) : bool := lt a.1 b.1 || (negb (lt b.1 a.1) && (a.2 <? b.2)).

(** [m[k] = v] on a map kept in key order. *)
Fixpoint map_set (k : Entry) (v : nat) (m : list (Entry * nat)) : list (Entry * nat) :=
  match m with
  | [] => [(k, v)]
  | (k', v') :: m' =>
      if entry_lt k k' then (k, v) :: m
      else if entry_lt k' k then (k', v') :: map_set k v m'
      else (k, v) :: m'
  end.
Fixpoint map_erase (k : Entry) (m : list (Entry * nat)) : list (Entry * nat) :=
  match m with
  | [] => []
  | (k', v') :: m' => if decide (k' = k) then m' else (k', v') :: map_erase k m'
  end.
Fixpoint map_find (k : Entry) (m : list (Entry * nat)) : option nat :=
  match m with
  | [] => None
  | (k', v') :: m' => if decide (k' = k) then Some v' else map_find k m'
  end.

(** The elements before and from [upper_bound(edge)] on. *)
Fixpoint split_upper_bound (edge : Entry) (m : list (Entry * nat)) : list (Entry * nat) * list (Entry * nat) :=
  match m with
  | [] => ([], [])
  | (k, v) :: m' =>
      if entry_lt edge k then ([], m)
      else let '(a, b) := split_upper_bound edge m' in ((k, v) :: a, b)
  end.

Definition sizes_agree (q : TimerQueue) : bool :=
  (length (timer_list_ q) =? size (active_timer_set_ q))%nat.

(** [delete] of a timer whose [unique_ptr] goes away. *)
Definition free (p : nat) (q : TimerQueue) : TimerQueue := set_timers (delete p (timers q)) q.

(** ** Operations *)

(** [insert]; [in_loop] is [loop_.isInLoopThread()].  Assigning to an existing
    key would destroy the timer stored there. *)
Definition insert (in_loop : bool) (timer : nat) (q : TimerQueue) : result (bool * TimerQueue) :=
  _ ← assert_ in_loop;
  _ ← assert_ (sizes_agree q);
  t ← deref (timers q) (Some timer);
  let new_entry := (expiration_ t, sequence_ t) in
  let new_timer := (timer, new_entry.2) in
  let is_earily_changed := match timer_list_ q with
                           | [] => true
                           | (k, _) :: _ => lt new_entry.1 k.1
                           end in
  let q := match map_find new_entry (timer_list_ q) with
           | Some old => free old q
           | None => q
           end in
  let success := negb (bool_decide (new_timer ∈ active_timer_set_ q)) in
  let q := set_index (map_set new_entry timer (timer_list_ q)) ({[new_timer]} ∪ active_timer_set_ q) q in
  _ ← assert_ success;
  _ ← assert_ (sizes_agree q);
  Ok (is_earily_changed, q).

Definition erase (del_timer : ActiveTimer) (q : TimerQueue) : result (bool * TimerQueue) :=
  if bool_decide (del_timer ∈ active_timer_set_ q) then
    t ← deref (timers q) (Some del_timer.1);
    let del_entry := (expiration_ t, sequence_ t) in
    let owned := map_find del_entry (timer_list_ q) in
    let q := set_index (map_erase del_entry (timer_list_ q)) (active_timer_set_ q ∖ {[del_timer]}) q in
    Ok (true, match owned with Some p => free p q | None => q end)
  else Ok (false, q).

Definition addTimerInLoop (in_loop : bool) (timer : nat) (q : TimerQueue) : result TimerQueue :=
  _ ← assert_ in_loop;
  '(_, q) ← insert in_loop timer q;
  Ok q.

Definition cancelTimerInLoop (in_loop : bool) (timer_id : TimerId) (q : TimerQueue) : result TimerQueue :=
  _ ← assert_ in_loop;
  _ ← assert_ (sizes_agree q);
  '(erased, q) ← erase timer_id q;
  let q := if negb erased && is_running_callback_ q
           then set_canceling ({[timer_id]} ∪ canceling_timer_set_ q) (is_running_callback_ q) q
           else q in
  _ ← assert_ (sizes_agree q);
  Ok q.

Section operations.
Context {A : Allocator}.

(** [addTimer] and [cancelTimer] may be called from any thread: the change runs
    at once on the loop thread and is queued from another one. *)
Definition addTimer (in_loop : bool) (cb : option nat) (when : Z) (interval : double) (q : TimerQueue)
    : result (TimerId * TimerQueue) :=
  let seq := s_global_sequence_ q in
  let p := malloc (dom (timers q)) in
  let q := set_sequence (wrap_int64 (seq + 1)) (set_timers (<[p := new_Timer cb when interval seq]> (timers q)) q) in
  q ← (if in_loop then addTimerInLoop in_loop p q
       else Ok (set_pending (pending q ++ [AddInLoop p]) q));
  Ok ((p, seq), q).

Definition cancelTimer (in_loop : bool) (timer_id : TimerId) (q : TimerQueue) : result TimerQueue :=
  if in_loop then cancelTimerInLoop in_loop timer_id q
  else Ok (set_pending (pending q ++ [CancelInLoop timer_id]) q).

(** The timer interface of the loop; [now] is what the clock shows. *)
Definition runAt (in_loop : bool) (when : Z) (cb : option nat) (q : TimerQueue) : result (TimerId * TimerQueue) :=
  addTimer in_loop cb when (S754_zero false) q.
Definition runAfter (in_loop : bool) (now : Z) (delay : double) (cb : option nat) (q : TimerQueue)
    : result (TimerId * TimerQueue) :=
  when ← addTime now delay;
  addTimer in_loop cb when (S754_zero false) q.
Definition runEveny (in_loop : bool) (now : Z) (interval : double) (cb : option nat) (q : TimerQueue)
    : result (TimerId * TimerQueue) :=
  when ← addTime now interval;
  addTimer in_loop cb when interval q.
Definition cancel (in_loop : bool) (timer_id : TimerId) (q : TimerQueue) : result TimerQueue :=
  cancelTimer in_loop timer_id q.

(** A queued closure, run by the loop. *)
Definition run_functor (f : Functor) (q : TimerQueue) : result TimerQueue :=
  match f with
  | AddInLoop p => addTimerInLoop true p q
  | CancelInLoop id => cancelTimerInLoop true id q
  end.

(** What a callback can do to the queue: it runs on the loop thread and calls
    [runAt]/[runAfter]/[runEveny] and [cancel], any number of times. *)
Inductive command :=
  | CmdAdd (cb : option nat) (when : Z) (interval : double)
  | CmdCancel (timer_id : TimerId).

Definition exec (c : command) (q : TimerQueue) : result TimerQueue :=
  match c with
  | CmdAdd cb when interval => '(_, q) ← addTimer true cb when interval q; Ok q
  | CmdCancel id => cancelTimer true id q
  end.
Fixpoint execs (cs : list command) (q : TimerQueue) : result TimerQueue :=
  match cs with
  | [] => Ok q
  | c :: cs => q ← exec c q; execs cs q
  end.

(** The clients' code: what callback [n] does when it is run in a state. *)
Context (body : nat -> TimerQueue -> list command).

Definition run (t : Timer) (q : TimerQueue) : result TimerQueue :=
  match callback_ t with
  | None => Ok q
  | Some n => execs (body n q) q
  end.

(** [LLONG_MAX] *)
Definition LLONG_MAX : Z := 2 ^ 63 - 1.

(** The loop that takes the expired timers out of the active set. *)
Fixpoint erase_active (h : gmap nat Timer) (l : list (Entry * nat)) (s : gset ActiveTimer)
    : result (gset ActiveTimer) :=
  match l with
  | [] => Ok s
  | (_, p) :: l => t ← deref h (Some p); erase_active h l (s ∖ {[(p, sequence_ t)]})
  end.

Definition getExpiredTimers (now : Z) (q : TimerQueue) : result (list nat * TimerQueue) :=
  _ ← assert_ (sizes_agree q);
  let '(expired, rest) := split_upper_bound (now, LLONG_MAX) (timer_list_ q) in
  _ ← match rest with
      | [] => Ok tt
      | (_, p) :: _ => t ← deref (timers q) (Some p); assert_ (gt (expiration_ t) now)
      end;
  active ← erase_active (timers q) expired (active_timer_set_ q);
  Ok (expired.*2, set_index rest active q).

Fixpoint run_all (ps : list nat) (q : TimerQueue) : result (list Z * TimerQueue) :=
  match ps with
  | [] => Ok ([], q)
  | p :: ps =>
      t ← deref (timers q) (Some p);
      q ← run t q;
      '(log, q) ← run_all ps q;
      Ok (sequence_ t :: log, q)
  end.

(** [reset] returns the timers that were not moved back into the map: they are
    destroyed with the vector [expired_timers] at the end of [handleRead]. *)
Fixpoint reset (ps : list nat) (now : Z) (q : TimerQueue) : result (list nat * TimerQueue) :=
  match ps with
  | [] => Ok ([], q)
  | p :: ps =>
      t ← deref (timers q) (Some p);
      if repeat_ t && negb (bool_decide ((p, sequence_ t) ∈ canceling_timer_set_ q)) then
        t' ← restart now t;
        let q := set_timers (<[p := t']> (timers q)) q in
        '(_, q) ← insert true p q;
        reset ps now q
      else
        '(dead, q) ← reset ps now q;
        Ok (p :: dead, q)
  end.

(** [handleRead(now)], with the sequence numbers of the timers that ran. *)
Definition handleRead (now : Z) (q : TimerQueue) : result (list Z * TimerQueue) :=
  match timer_list_ q with
  | [] => Ok ([], q)
  | (k, _) :: _ =>
      if lt now k.1 then Ok ([], q) else
      _ ← assert_ (sizes_agree q);
      '(expired_timers, q) ← getExpiredTimers now q;
      let q := set_canceling ∅ true q in
      '(log, q) ← run_all expired_timers q;
      let q := set_canceling (canceling_timer_set_ q) false q in
      '(dead, q) ← reset expired_timers now q;
      _ ← assert_ (sizes_agree q);
      Ok (log, foldr free q dead)
  end.

Definition LONG_MAX : Z := 2 ^ 63 - 1.
Definition getRecentExpireTime (now : Z) (q : TimerQueue) : result timespec :=
  match timer_list_ q with
  | [] => Ok {| tv_sec := LONG_MAX; tv_nsec := 0 |}
  | (k, _) :: _ => howMuchTimeFromNow k.1 now
  end.

End operations.

(** ** The ordered map *)

Lemma entry_lt_spec a b : entry_lt a b = true <-> a.1 < b.1 \/ (a.1 = b.1 /\ a.2 < b.2).
Proof.
  unfold entry_lt, lt. destruct (Z.ltb_spec a.1 b.1), (Z.ltb_spec b.1 a.1), (Z.ltb_spec a.2 b.2);
    simpl; split; intros; try done; try lia.
Qed.

Lemma entry_lt_ge a b : entry_lt a b = false -> entry_lt b a = false -> a = b.
Proof.
  destruct a as [a1 a2], b as [b1 b2].
  unfold entry_lt, lt. simpl. destruct (Z.ltb_spec a1 b1), (Z.ltb_spec b1 a1), (Z.ltb_spec a2 b2),
    (Z.ltb_spec b2 a2); simpl; intros; try done. f_equal; lia.
Qed.

Definition before (x y : Entry * nat) : Prop := entry_lt x.1 y.1 = true.

Lemma before_trans x y z : before x y -> before y z -> before x z.
Proof. unfold before. rewrite !entry_lt_spec. lia. Qed.

Lemma before_irrefl x y : before x y -> x.1 <> y.1.
Proof. unfold before. rewrite entry_lt_spec. intros H Heq. rewrite Heq in H. lia. Qed.

Abbreviation sorted := (StronglySorted before).

Lemma map_set_perm k v m : (forall x, x ∈ m -> x.1 <> k) -> map_set k v m ≡ₚ (k, v) :: m.
Proof.
  induction m as [|[k' v'] m IH]; intros Hk; [done|]. simpl.
  destruct (entry_lt k k') eqn:E1; [done|]. destruct (entry_lt k' k) eqn:E2.
  - rewrite IH by set_solver. solve_Permutation.
  - exfalso. apply (Hk (k', v')); [set_solver|]. by apply entry_lt_ge.
Qed.

Lemma map_set_sorted k v m :
  (forall x, x ∈ m -> x.1 <> k) -> sorted m -> sorted (map_set k v m).
Proof.
  intros Hk Hs. induction Hs as [|[k' v'] m Hs IH Hb]; [repeat constructor|]. simpl.
  destruct (entry_lt k k') eqn:E1.
  - constructor; [by constructor|]. constructor; [done|].
    eapply Forall_impl; [exact Hb|]. intros y Hy. by apply (before_trans _ (k', v')).
  - destruct (entry_lt k' k) eqn:E2.
    + constructor; [apply IH; set_solver|]. rewrite map_set_perm by set_solver. by constructor.
    + exfalso. apply (Hk (k', v')); [set_solver|]. by apply entry_lt_ge.
Qed.

Lemma sorted_key_unique m k p p' : sorted m -> (k, p) ∈ m -> (k, p') ∈ m -> p = p'.
Proof.
  induction 1 as [|x m Hs IH Hb]; [set_solver|]. rewrite Forall_forall in Hb.
  intros [E1|H1]%elem_of_cons [E2|H2]%elem_of_cons.
  - congruence.
  - specialize (Hb _ H2). apply before_irrefl in Hb. by subst x.
  - specialize (Hb _ H1). apply before_irrefl in Hb. by subst x.
  - auto.
Qed.

Lemma map_find_Some m k p : sorted m -> (k, p) ∈ m -> map_find k m = Some p.
Proof.
  intros Hs Hin. pose proof (fun p' => sorted_key_unique m k p p' Hs Hin) as Hu. clear Hs.
  induction m as [|[k' v'] m IH]; [set_solver|]. simpl. case_decide as Hd.
  - subst. f_equal. symmetry. apply Hu. set_solver.
  - apply elem_of_cons in Hin as [Heq|Hin]; [congruence|]. apply IH; [done|]. set_solver.
Qed.

Lemma map_find_None m k : (forall x, x ∈ m -> x.1 <> k) -> map_find k m = None.
Proof.
  induction m as [|[k' v'] m IH]; intros Hk; [done|]. simpl. case_decide as Hd.
  - exfalso. by apply (Hk (k', v')); [set_solver|].
  - apply IH. set_solver.
Qed.

Lemma map_erase_perm m k p : sorted m -> (k, p) ∈ m -> m ≡ₚ (k, p) :: map_erase k m.
Proof.
  induction 1 as [|[k' v'] m Hs IH Hb]; [set_solver|]. intros Hin. simpl. case_decide as Hd.
  - subst k'. apply elem_of_cons in Hin as [Heq|Hin]; [by simplify_eq|].
    rewrite Forall_forall in Hb. by specialize (Hb _ Hin); apply before_irrefl in Hb.
  - apply elem_of_cons in Hin as [Heq|Hin]; [congruence|]. rewrite IH at 1 by done. solve_Permutation.
Qed.

Lemma map_erase_sorted m k : sorted m -> sorted (map_erase k m).
Proof.
  induction 1 as [|[k' v'] m Hs IH Hb]; [constructor|]. simpl. case_decide; [done|].
  constructor; [done|]. rewrite Forall_forall in *. intros x Hx. apply Hb.
  clear -Hx. induction m as [|[k2 v2] m IH]; [set_solver|]. simpl in Hx. case_decide; set_solver.
Qed.

Lemma sorted_app_inv a b : sorted (a ++ b) -> sorted a /\ sorted b.
Proof.
  induction a as [|x a IH]; simpl; intros H; [by split; [constructor|]|].
  inversion H as [|? ? Hs Hf]; subst. destruct (IH Hs). apply Forall_app in Hf as [? ?].
  split; [by constructor | done].
Qed.

(** [upper_bound((now, LLONG_MAX))] separates the timers that are due. *)
Lemma split_upper_bound_spec now m :
  sorted m -> Forall (fun x => x.1.2 <= LLONG_MAX) m ->
  let '(a, b) := split_upper_bound (now, LLONG_MAX) m in
  m = a ++ b /\ Forall (fun x => x.1.1 <= now) a /\ Forall (fun x => now < x.1.1) b.
Proof.
  induction 1 as [|[k v] m Hs IH Hb]; intros Hq; [done|]. simpl.
  apply Forall_cons in Hq as [Hk Hq]. simpl in Hk. destruct (entry_lt (now, LLONG_MAX) k) eqn:E.
  - split; [done|]. split; [constructor|]. apply entry_lt_spec in E. simpl in E.
    constructor; [simpl; lia|]. eapply Forall_impl; [exact Hb|]. intros y Hy.
    apply entry_lt_spec in Hy. simpl in Hy. lia.
  - specialize (IH Hq). destruct (split_upper_bound _ m) as [a b]. destruct IH as (-> & Ha & Hb').
    split; [done|]. split; [|done]. constructor; [|done]. simpl.
    apply not_true_iff_false in E. rewrite entry_lt_spec in E. simpl in E. lia.
Qed.

(** ** The invariant

    [own]: the timers that are live but not in the map: held by the vector of
    expired timers while callbacks run, or by a queued [addTimer] closure. *)
Definition key_of (t : Timer) : Entry := (expiration_ t, sequence_ t).
Definition active_of (x : Entry * nat) : ActiveTimer := (x.2, x.1.2).

Record inv (q : TimerQueue) (own : list nat) : Prop := {
  inv_sorted : sorted (timer_list_ q);
  inv_entries : Forall (fun x => exists t, timers q !! x.2 = Some t /\ x.1 = key_of t) (timer_list_ q);
  inv_nodup : NoDup ((timer_list_ q).*2 ++ own);
  inv_dom : dom (timers q) = list_to_set ((timer_list_ q).*2 ++ own);
  inv_active : active_timer_set_ q = list_to_set (active_of <$> timer_list_ q);
  inv_seq : forall p t, timers q !! p = Some t -> 0 <= sequence_ t < s_global_sequence_ q;
  inv_inj : forall p1 p2 t1 t2, timers q !! p1 = Some t1 -> timers q !! p2 = Some t2 ->
    sequence_ t1 = sequence_ t2 -> p1 = p2;
  inv_global : 0 <= s_global_sequence_ q <= LLONG_MAX
}.

(** Everything but the map and the active set is as before. *)
Record same_rest (q q' : TimerQueue) : Prop := {
  same_canceling : canceling_timer_set_ q' = canceling_timer_set_ q;
  same_running : is_running_callback_ q' = is_running_callback_ q;
  same_global : s_global_sequence_ q' = s_global_sequence_ q;
  same_pending : pending q' = pending q
}.

Lemma active_nodup q own : inv q own -> NoDup (active_of <$> timer_list_ q).
Proof.
  intros H. apply (NoDup_fmap_1 fst). rewrite <- list_fmap_compose.
  pose proof (inv_nodup _ _ H) as Hn. by apply NoDup_app in Hn as [Hn _].
Qed.

Lemma inv_sizes q own : inv q own -> sizes_agree q = true.
Proof.
  intros H. unfold sizes_agree. apply Nat.eqb_eq.
  rewrite (inv_active _ _ H), size_list_to_set, length_fmap by by eapply active_nodup. done.
Qed.

Lemma inv_live q own p : inv q own -> p ∈ own -> exists t, timers q !! p = Some t.
Proof.
  intros H Hp. apply (elem_of_dom (D := gset nat)). rewrite (inv_dom _ _ H), elem_of_list_to_set.
  set_solver.
Qed.

Lemma inv_perm q own own' : own ≡ₚ own' -> inv q own -> inv q own'.
Proof.
  intros Hp [? ? Hn Hd ? ? ? ?]. split; try done.
  - by rewrite <- Hp.
  - rewrite Hd. apply set_eq. intros x. rewrite !elem_of_list_to_set, !elem_of_app. by rewrite Hp.
Qed.

(** No entry of the map has the sequence number of a timer outside the map. *)
Lemma inv_fresh_key q own p t :
  inv q (p :: own) -> timers q !! p = Some t ->
  forall x, x ∈ timer_list_ q -> x.2 <> p /\ x.1.2 <> sequence_ t.
Proof.
  intros H Ht x Hx.
  assert (Hne : x.2 <> p).
  { intros Heq. pose proof (inv_nodup _ _ H) as Hn. apply NoDup_app in Hn as (_ & Hn & _).
    apply (Hn x.2); [by apply list_elem_of_fmap_2 | set_solver]. }
  split; [done|]. intros Heq. apply Hne.
  pose proof (inv_entries _ _ H) as He. rewrite Forall_forall in He.
  destruct (He _ Hx) as (t' & Ht' & Hk). apply (inv_inj _ _ H _ _ _ _ Ht' Ht).
  rewrite Hk in Heq. exact Heq.
Qed.

Lemma insert_ok q own p t :
  inv q (p :: own) -> timers q !! p = Some t ->
  exists b q', insert true p q = Ok (b, q') /\ inv q' own /\ same_rest q q' /\
    timers q' = timers q /\ timer_list_ q' = map_set (key_of t) p (timer_list_ q).
Proof.
  intros H Ht. pose proof (inv_fresh_key _ _ _ _ H Ht) as Hfr.
  assert (Hk : forall x, x ∈ timer_list_ q -> x.1 <> key_of t).
  { intros x Hx Heq. destruct (Hfr x Hx) as [_ Hs]. apply Hs. by rewrite Heq. }
  assert (Hna : (p, sequence_ t) ∉ active_timer_set_ q).
  { rewrite (inv_active _ _ H), elem_of_list_to_set. intros Hin.
    apply list_elem_of_fmap in Hin as (x & Heq & Hx). destruct (Hfr x Hx) as [Hp _].
    unfold active_of in Heq. congruence. }
  unfold insert. simpl. rewrite (inv_sizes _ _ H), Ht. simpl. fold (key_of t).
  rewrite (map_find_None _ _ Hk). rewrite bool_decide_eq_false_2 by exact Hna. simpl.
  set (q' := set_index _ _ q). pose proof (map_set_perm (key_of t) p _ Hk) as Hperm.
  assert (Hq' : inv q' own).
  { destruct H as [Hs He Hn Hd Ha Hq Hi Hg]. split; try done; simpl.
    - by apply map_set_sorted.
    - rewrite Hperm. constructor; [by exists t | done].
    - rewrite Hperm. simpl. rewrite <- Permutation_middle in Hn. done.
    - rewrite Hd. apply set_eq. intros x. rewrite !elem_of_list_to_set, !elem_of_app, Hperm.
      set_solver.
    - rewrite Ha. apply set_eq. intros x.
      rewrite elem_of_union, !elem_of_list_to_set, Hperm. set_solver. }
  rewrite (inv_sizes _ _ Hq'). simpl. eexists _, q'. split; [done|]. done.
Qed.

(** Taking the entry of timer [p] out of the map and freeing the timer. *)
Lemma erase_entry_inv q own t p l' :
  inv q own -> timers q !! p = Some t -> timer_list_ q ≡ₚ (key_of t, p) :: l' -> sorted l' ->
  p ∉ l'.*2 ++ own /\ (forall x, x ∈ l' -> x.2 <> p) /\
  inv (free p (set_index l' (active_timer_set_ q ∖ {[(p, sequence_ t)]}) q)) own.
Proof.
  intros [Hs He Hn Hd Ha Hq Hi Hg] Ht Hperm Hse.
  rewrite Hperm in Hn. simpl in Hn. apply NoDup_cons in Hn as [Hpn Hn].
  assert (Hpx : forall x, x ∈ l' -> x.2 <> p).
  { intros x Hxe Heq. apply Hpn. rewrite <- Heq. apply elem_of_app. left. by apply list_elem_of_fmap_2. }
  split; [done|]. split; [done|]. split; simpl; try done.
  - rewrite Hperm in He. apply Forall_cons in He as [_ He].
    apply Forall_forall. intros x Hxe. rewrite Forall_forall in He. destruct (He x Hxe) as (t' & Ht' & ?).
    exists t'. split; [|done]. rewrite lookup_delete_ne; [done|]. intros Heq. by apply (Hpx x Hxe).
  - rewrite dom_delete_L, Hd. apply set_eq. intros x.
    rewrite elem_of_difference, !elem_of_list_to_set, Hperm, elem_of_singleton. simpl.
    rewrite elem_of_cons. split; [intros [[?|?] ?]; done|]. intros Hxe. split; [by right|]. by intros ->.
  - rewrite Ha. apply set_eq. intros x. rewrite elem_of_difference, !elem_of_list_to_set, Hperm.
    rewrite elem_of_singleton, fmap_cons, elem_of_cons.
    change (active_of (key_of t, p)) with (p, sequence_ t).
    split; [intros [[->|?] ?]; done|]. intros Hxe. split; [by right|]. intros ->.
    apply list_elem_of_fmap in Hxe as (y & Hy & Hye). apply (Hpx y Hye).
    unfold active_of in Hy. congruence.
  - intros p' t' Hp'. apply lookup_delete_Some in Hp' as [_ Hp']. eauto.
  - intros p1 p2 t1 t2 [_ H1]%lookup_delete_Some [_ H2]%lookup_delete_Some. eauto.
Qed.

(** [erase] of an id: found exactly when it is in the active set. *)
Lemma erase_ok q own id :
  inv q own ->
  exists q', erase id q = Ok (bool_decide (id ∈ active_timer_set_ q), q') /\ inv q' own /\ same_rest q q' /\
    id ∉ active_timer_set_ q' /\
    (forall p, p ∈ own -> timers q' !! p = timers q !! p) /\
    (forall x, x ∈ timer_list_ q' <-> x ∈ timer_list_ q /\ active_of x <> id).
Proof.
  intros H. unfold erase. case_bool_decide as Hid.
  2:{ exists q. split_and!; try done. intros x. split; [|by intros [? ?]].
      intros Hx. split; [done|]. intros Heq. apply Hid. rewrite (inv_active _ _ H), elem_of_list_to_set.
      rewrite <- Heq. by apply list_elem_of_fmap_2. }
  rewrite (inv_active _ _ H), elem_of_list_to_set in Hid.
  apply list_elem_of_fmap in Hid as ([k p] & -> & Hx).
  pose proof (inv_entries _ _ H) as He. rewrite Forall_forall in He.
  destruct (He _ Hx) as (t & Ht & Hk). simpl in Ht, Hk. subst k. pose proof (inv_sorted _ _ H) as Hs.
  unfold active_of. simpl. rewrite Ht. simpl. fold (key_of t).
  rewrite (map_find_Some _ _ p Hs Hx). pose proof (map_erase_perm _ _ _ Hs Hx) as Hperm.
  destruct (erase_entry_inv q own t p _ H Ht Hperm (map_erase_sorted _ (key_of t) Hs)) as (Hpn & Hpx & Hi).
  set (l' := map_erase (key_of t) (timer_list_ q)) in *. clearbody l'.
  eexists. split; [done|]. split_and!; [exact Hi | done | simpl; set_solver | |].
  - intros p' Hp'. simpl. rewrite lookup_delete_ne; [done|]. set_solver.
  - intros x. simpl. rewrite Hperm, elem_of_cons. split.
    + intros Hxe. split; [by right|]. intros Heq. apply (Hpx x Hxe). unfold active_of in Heq. congruence.
    + intros [[->|Hxe] Hne]; [|done]. exfalso. by apply Hne.
Qed.

(** What callbacks cannot disturb: the timers in [own], the flags, the queued
    closures; cancellations only accumulate; [n] bounds the timers created. *)
Record stable (own : list nat) (n : Z) (q q' : TimerQueue) : Prop := {
  st_own : forall p, p ∈ own -> timers q' !! p = timers q !! p;
  st_running : is_running_callback_ q' = is_running_callback_ q;
  st_pending : pending q' = pending q;
  st_canceling : canceling_timer_set_ q ⊆ canceling_timer_set_ q';
  st_global : s_global_sequence_ q <= s_global_sequence_ q' <= s_global_sequence_ q + n
}.

Lemma stable_refl own q : stable own 0 q q.
Proof. split; try done. lia. Qed.

Lemma stable_trans own n m q1 q2 q3 :
  stable own n q1 q2 -> stable own m q2 q3 -> stable own (n + m) q1 q3.
Proof.
  intros [H1 ? ? ? ?] [H2 ? ? ? ?]. split; try congruence; try lia.
  - intros p Hp. by rewrite H2, H1.
  - set_solver.
Qed.

Lemma wrap_int64_small z : 0 <= z <= LLONG_MAX -> wrap_int64 z = z.
Proof. unfold wrap_int64, LLONG_MAX. intros. rewrite Z.mod_small by lia. lia. Qed.

Lemma cancel_ok q own id :
  inv q own ->
  exists q', cancelTimerInLoop true id q = Ok q' /\ inv q' own /\ stable own 0 q q' /\
    id ∉ active_timer_set_ q' /\
    (forall x, x ∈ timer_list_ q' <-> x ∈ timer_list_ q /\ active_of x <> id) /\
    (id ∉ active_timer_set_ q -> is_running_callback_ q = true -> id ∈ canceling_timer_set_ q').
Proof.
  intros H. unfold cancelTimerInLoop. simpl. rewrite (inv_sizes _ _ H). simpl.
  destruct (erase_ok q own id H) as (q1 & -> & H1 & [Hc Hr Hg Hpd] & Hid & Ho & Hx). simpl.
  set (q2 := if _ && _ then _ else q1).
  assert (Hq2 : inv q2 own /\ timers q2 = timers q1 /\ timer_list_ q2 = timer_list_ q1 /\
    active_timer_set_ q2 = active_timer_set_ q1 /\ is_running_callback_ q2 = is_running_callback_ q1 /\
    pending q2 = pending q1 /\ s_global_sequence_ q2 = s_global_sequence_ q1).
  { unfold q2. destruct (_ && _); split_and!; try done. by destruct H1. }
  destruct Hq2 as (H2 & Ht2 & Hl2 & Ha2 & Hr2 & Hp2 & Hg2).
  rewrite (inv_sizes _ _ H2). simpl. exists q2. split; [done|]. rewrite Hl2, Ha2. split_and!; try done.
  - split; [|congruence|congruence| |lia].
    + intros p Hp. rewrite Ht2. by apply Ho.
    + unfold q2. destruct (_ && _); simpl; set_solver.
  - intros Hna Hrun. unfold q2. rewrite bool_decide_eq_false_2, Hr, Hrun by done. simpl. set_solver.
Qed.

Section runs.
Context {A : Allocator}.

(** A new timer that is not in the map yet. *)
Lemma new_timer_inv q own cb when iv :
  inv q own -> s_global_sequence_ q < LLONG_MAX ->
  let p := malloc (dom (timers q)) in
  inv (set_sequence (wrap_int64 (s_global_sequence_ q + 1))
        (set_timers (<[p := new_Timer cb when iv (s_global_sequence_ q)]> (timers q)) q)) (p :: own) /\
  p ∉ dom (timers q).
Proof.
  intros H Hg p. pose proof (malloc_fresh (dom (timers q))) as Hf. fold p in Hf.
  destruct H as [Hs He Hn Hd Ha Hq Hi [Hg0 Hg1]]. split; [|done].
  assert (Hpn : p ∉ (timer_list_ q).*2 ++ own) by (rewrite Hd, elem_of_list_to_set in Hf; done).
  rewrite wrap_int64_small by lia. split; simpl; try done.
  - eapply Forall_impl; [exact He|]. intros x (t & Ht & ?). exists t. split; [|done].
    rewrite lookup_insert_ne; [done|]. intros ->. apply Hf. by apply elem_of_dom_2 in Ht.
  - rewrite <- Permutation_middle. by constructor.
  - rewrite dom_insert_L, Hd. apply set_eq. intros x.
    rewrite elem_of_union, elem_of_singleton, !elem_of_list_to_set. set_solver.
  - intros p' t [[<- <-]|[_ Hp']]%lookup_insert_Some; simpl; [lia|]. specialize (Hq _ _ Hp'). lia.
  - intros p1 p2 t1 t2 [[<- <-]|[_ H1]]%lookup_insert_Some [[<- <-]|[_ H2]]%lookup_insert_Some; simpl; [done| | |].
    + specialize (Hq _ _ H2). lia.
    + specialize (Hq _ _ H1). lia.
    + eauto.
  - lia.
Qed.

Lemma addTimer_ok q own cb when iv :
  inv q own -> s_global_sequence_ q < LLONG_MAX ->
  exists p q', addTimer true cb when iv q = Ok ((p, s_global_sequence_ q), q') /\ inv q' own /\
    stable own 1 q q' /\ p ∉ own /\
    timers q' !! p = Some (new_Timer cb when iv (s_global_sequence_ q)) /\
    timer_list_ q' = map_set (when, s_global_sequence_ q) p (timer_list_ q).
Proof.
  intros H Hg. destruct (new_timer_inv q own cb when iv H Hg) as [H1 Hp].
  unfold addTimer. set (p := malloc _) in *. set (q1 := set_sequence _ _) in *. simpl.
  assert (Htp : timers q1 !! p = Some (new_Timer cb when iv (s_global_sequence_ q)))
    by apply lookup_insert_eq.
  destruct (insert_ok q1 own p _ H1 Htp) as (b & q2 & Hq2 & H2 & [Hc Hr Hgl Hpd] & Ht2 & Hl2).
  unfold addTimerInLoop. simpl. rewrite Hq2. simpl. exists p, q2.
  assert (Hpo : p ∉ own).
  { intros Hin. apply Hp. destruct (inv_live _ _ _ H Hin) as [t Ht]. by apply elem_of_dom_2 in Ht. }
  split_and!; try done.
  - split; try done.
    + intros p' Hp'. rewrite Ht2. apply lookup_insert_ne. congruence.
    + rewrite Hc. done.
    + rewrite Hgl. simpl. pose proof (inv_global _ _ H). rewrite wrap_int64_small by lia. lia.
  - by rewrite Ht2.
Qed.

Lemma timer_exec_ok q own c :
  inv q own -> s_global_sequence_ q < LLONG_MAX ->
  exists q', exec c q = Ok q' /\ inv q' own /\ stable own 1 q q'.
Proof.
  intros H Hg. destruct c as [cb when iv|id]; simpl.
  - destruct (addTimer_ok q own cb when iv H Hg) as (p & q' & -> & H' & Hs & _). by exists q'.
  - destruct (cancel_ok q own id H) as (q' & -> & H' & Hs & _). exists q'. split_and!; try done.
    destruct Hs. split; try done. lia.
Qed.

Lemma timer_execs_ok cs : forall q own,
  inv q own -> s_global_sequence_ q + zlen cs <= LLONG_MAX ->
  exists q', execs cs q = Ok q' /\ inv q' own /\ stable own (zlen cs) q q'.
Proof.
  induction cs as [|c cs IH]; intros q own H Hg; simpl.
  - exists q. split_and!; try done. apply stable_refl.
  - rewrite zlen_cons in *. pose proof (zlen_nonneg cs).
    destruct (timer_exec_ok q own c H) as (q1 & -> & H1 & S1); [lia|]. simpl.
    destruct (IH q1 own H1) as (q2 & -> & H2 & S2); [destruct S1; lia|].
    exists q2. split_and!; try done. by eapply stable_trans.
Qed.

(** A command that cancels a timer of [own] is remembered. *)
Lemma execs_cancel cs : forall q own id,
  inv q own -> s_global_sequence_ q + zlen cs <= LLONG_MAX ->
  is_running_callback_ q = true -> id.1 ∈ own -> CmdCancel id ∈ cs ->
  forall q', execs cs q = Ok q' -> id ∈ canceling_timer_set_ q'.
Proof.
  induction cs as [|c cs IH]; intros q own id H Hg Hr Hid Hin q' Hq'; [set_solver|].
  simpl in Hq'. rewrite zlen_cons in *. pose proof (zlen_nonneg cs).
  apply elem_of_cons in Hin as [<-|Hin].
  - destruct (cancel_ok q own id H) as (q1 & Hq1 & H1 & S1 & _ & _ & Hc).
    simpl in Hq'. rewrite Hq1 in Hq'. simpl in Hq'.
    destruct (timer_execs_ok cs q1 own H1) as (q2 & Hq2 & _ & S2); [destruct S1; lia|].
    assert (q2 = q') as -> by congruence.
    eapply elem_of_weaken; [|apply (st_canceling _ _ _ _ S2)]. apply Hc; [|done].
    rewrite (inv_active _ _ H), elem_of_list_to_set. intros Hx.
    apply list_elem_of_fmap in Hx as (x & -> & Hx).
    pose proof (inv_nodup _ _ H) as Hn. apply NoDup_app in Hn as (_ & Hn & _).
    apply (Hn x.2); [by apply list_elem_of_fmap_2 | done].
  - destruct (timer_exec_ok q own c H) as (q1 & Hq1 & H1 & S1); [lia|].
    rewrite Hq1 in Hq'. simpl in Hq'. apply (IH q1 own id); try done; [destruct S1; lia|].
    by rewrite (st_running _ _ _ _ S1).
Qed.

(** A timer that no command cancels stays out of the set. *)
Lemma exec_no_cancel c q own id q' :
  inv q own -> s_global_sequence_ q < LLONG_MAX -> CmdCancel id <> c ->
  exec c q = Ok q' -> id ∉ canceling_timer_set_ q -> id ∉ canceling_timer_set_ q'.
Proof.
  intros H Hg Hc Hq' Hid. destruct c as [cb when iv|id']; simpl in Hq'.
  - unfold addTimer, addTimerInLoop in Hq'. destruct (new_timer_inv q own cb when iv H Hg) as [H1 _].
    set (q1 := set_sequence _ _) in *. set (p := malloc _) in *.
    destruct (insert_ok q1 own p _ H1 (lookup_insert_eq _ _ _)) as (b & q2 & Hq2 & _ & [Hs _ _ _] & _).
    simpl in Hq'. rewrite Hq2 in Hq'. simpl in Hq'. simplify_eq. rewrite Hs. done.
  - unfold cancelTimer, cancelTimerInLoop in Hq'. simpl in Hq'. rewrite (inv_sizes _ _ H) in Hq'. simpl in Hq'.
    destruct (erase_ok q own id' H) as (q1 & Hq1 & H1 & [Hs _ _ _] & _). rewrite Hq1 in Hq'. simpl in Hq'.
    assert (Hne : id <> id') by congruence.
    destruct (_ && _); simpl in Hq'; destruct (sizes_agree _); simpl in Hq'; simplify_eq; simpl;
      rewrite Hs; set_solver.
Qed.

Lemma execs_no_cancel cs : forall q own id,
  inv q own -> s_global_sequence_ q + zlen cs <= LLONG_MAX -> CmdCancel id ∉ cs ->
  forall q', execs cs q = Ok q' -> id ∉ canceling_timer_set_ q -> id ∉ canceling_timer_set_ q'.
Proof.
  induction cs as [|c cs IH]; intros q own id H Hg Hn q' Hq' Hid; simpl in Hq'; [by simplify_eq|].
  rewrite zlen_cons in *. pose proof (zlen_nonneg cs). apply not_elem_of_cons in Hn as [Hc Hn].
  destruct (timer_exec_ok q own c H) as (q1 & Hq1 & H1 & S1); [lia|].
  rewrite Hq1 in Hq'. simpl in Hq'. apply (IH q1 own id); try done; [destruct S1; lia|].
  by apply (exec_no_cancel c q own id q1); [|lia| | |].
Qed.

(** ** One pass of [handleRead]

    [body] is the clients' code: callback [n] issues at most [B] calls. *)
Context (body : nat -> TimerQueue -> list command) (B : Z).
Context (B_nonneg : 0 <= B) (body_bound : forall n q, zlen (body n q) <= B).

Lemma timer_run_ok q own t :
  inv q own -> s_global_sequence_ q + B <= LLONG_MAX ->
  exists q', run body t q = Ok q' /\ inv q' own /\ stable own B q q'.
Proof.
  intros H Hg. unfold run. destruct (callback_ t) as [n|].
  - specialize (body_bound n q). destruct (timer_execs_ok (body n q) q own H) as (q' & -> & H' & S'); [lia|].
    exists q'. split_and!; try done. destruct S'. split; try done. lia.
  - exists q. split_and!; try done. split; try done. lia.
Qed.

Lemma run_all_ok ps : forall q own,
  inv q own -> (forall p, p ∈ ps -> p ∈ own) -> s_global_sequence_ q + B * zlen ps <= LLONG_MAX ->
  exists log q', run_all body ps q = Ok (log, q') /\ inv q' own /\ stable own (B * zlen ps) q q' /\
    Forall2 (fun p s => exists t, timers q !! p = Some t /\ s = sequence_ t) ps log.
Proof.
  induction ps as [|p ps IH]; intros q own H Hin Hg; simpl.
  - exists [], q. split_and!; try done. rewrite zlen_nil, Z.mul_0_r. apply stable_refl.
  - rewrite zlen_cons in *. pose proof (zlen_nonneg ps).
    destruct (inv_live q own p H) as [t Ht]; [set_solver|]. rewrite Ht. simpl.
    destruct (timer_run_ok q own t H) as (q1 & -> & H1 & S1); [nia|]. simpl.
    destruct (IH q1 own H1) as (log & q2 & -> & H2 & S2 & Hl); [set_solver | destruct S1; nia|]. simpl.
    exists (sequence_ t :: log), q2. split_and!; try done.
    + replace (B * (1 + zlen ps)) with (B + B * zlen ps) by lia. by eapply stable_trans.
    + constructor; [by exists t|]. eapply Forall2_impl; [apply Forall2_same_length_lookup; split; [by eapply Forall2_length|]|].
      * intros i a b Ha Hb. pose proof (Forall2_lookup_lr _ _ _ _ _ _ Hl Ha Hb) as (t' & Ht' & ->).
        rewrite (st_own _ _ _ _ S1) in Ht'; [|apply Hin; right; by eapply list_elem_of_lookup_2].
        instantiate (1 := fun p s => exists t, timers q !! p = Some t /\ s = sequence_ t). by exists t'.
      * done.
Qed.

(** A cancellation issued by one of the callbacks of a pass is remembered. *)
Lemma run_all_cancel ps : forall q own id p0 t0 n,
  inv q own -> (forall p, p ∈ ps -> p ∈ own) -> s_global_sequence_ q + B * zlen ps <= LLONG_MAX ->
  is_running_callback_ q = true -> id.1 ∈ own ->
  p0 ∈ ps -> timers q !! p0 = Some t0 -> callback_ t0 = Some n -> (forall q, CmdCancel id ∈ body n q) ->
  forall log q', run_all body ps q = Ok (log, q') -> id ∈ canceling_timer_set_ q'.
Proof.
  induction ps as [|p ps IH]; intros q own id p0 t0 n H Hin Hg Hr Hid Hp0 Ht0 Hn Hb log q' Hq'; [set_solver|].
  rewrite zlen_cons in *. pose proof (zlen_nonneg ps). simpl in Hq'.
  destruct (inv_live q own p H) as [t Ht]; [set_solver|]. rewrite Ht in Hq'. simpl in Hq'.
  destruct (timer_run_ok q own t H) as (q1 & Hq1 & H1 & S1); [nia|]. rewrite Hq1 in Hq'. simpl in Hq'.
  destruct (run_all_ok ps q1 own H1) as (l & q2 & Hq2 & H2 & S2 & _); [set_solver | destruct S1; nia|].
  apply elem_of_cons in Hp0 as [->|Hp0].
  - rewrite Hq2 in Hq'. simpl in Hq'. simplify_eq.
    eapply elem_of_weaken; [|apply (st_canceling _ _ _ _ S2)].
    unfold run in Hq1. rewrite Hn in Hq1. specialize (body_bound n q).
    by apply (execs_cancel (body n q) q own id H); [nia| | | |].
  - destruct (run_all body ps q1) as [[l' q3]|] eqn:E; [|done]. simpl in Hq'. simplify_eq.
    apply (IH q1 own id p0 t0 n) with (log := l); try done; [set_solver | destruct S1; nia | |].
    + by rewrite (st_running _ _ _ _ S1).
    + rewrite (st_own _ _ _ _ S1); [done|]. set_solver.
Qed.

Lemma run_all_no_cancel ps : forall q own id,
  inv q own -> (forall p, p ∈ ps -> p ∈ own) -> s_global_sequence_ q + B * zlen ps <= LLONG_MAX ->
  (forall n q, CmdCancel id ∉ body n q) ->
  forall log q', run_all body ps q = Ok (log, q') ->
  id ∉ canceling_timer_set_ q -> id ∉ canceling_timer_set_ q'.
Proof.
  induction ps as [|p ps IH]; intros q own id H Hin Hg Hb log q' Hq' Hid; [by simplify_eq/=|].
  rewrite zlen_cons in *. pose proof (zlen_nonneg ps). simpl in Hq'.
  destruct (inv_live q own p H) as [t Ht]; [set_solver|]. rewrite Ht in Hq'. simpl in Hq'.
  destruct (timer_run_ok q own t H) as (q1 & Hq1 & H1 & S1); [nia|]. rewrite Hq1 in Hq'. simpl in Hq'.
  destruct (run_all body ps q1) as [[l' q3]|] eqn:E; [|done]. simpl in Hq'. simplify_eq.
  apply (IH q1 own id) with (log := l'); try done; [set_solver | destruct S1; nia|].
  unfold run in Hq1. destruct (callback_ t) as [n|]; [|by simplify_eq]. specialize (body_bound n q).
  by apply (execs_no_cancel (body n q) q own id); [|nia| | |].
Qed.

(** The timers that are due, in the order of the map. *)
Definition due (now : Z) (q : TimerQueue) : list (Entry * nat) :=
  filter (fun x => x.1.1 <= now) (timer_list_ q).
Definition later (now : Z) (q : TimerQueue) : list (Entry * nat) :=
  filter (fun x => now < x.1.1) (timer_list_ q).

Lemma erase_active_ok h l : forall s,
  Forall (fun x => exists t, h !! x.2 = Some t /\ x.1 = key_of t) l ->
  erase_active h l s = Ok (s ∖ list_to_set (active_of <$> l)).
Proof.
  induction l as [|[k p] l IH]; intros s Hf; simpl.
  - f_equal. set_solver.
  - apply Forall_cons in Hf as [(t & Ht & Hk) Hf]. simpl in Ht, Hk. rewrite Ht. simpl.
    rewrite IH by done. f_equal. unfold active_of at 2. simpl. rewrite Hk. simpl. set_solver.
Qed.

Lemma split_due now q own :
  inv q own -> split_upper_bound (now, LLONG_MAX) (timer_list_ q) = (due now q, later now q) /\
  timer_list_ q = due now q ++ later now q.
Proof.
  intros H. pose proof (inv_global _ _ H) as Hg.
  assert (Hq : Forall (fun x => x.1.2 <= LLONG_MAX) (timer_list_ q)).
  { eapply Forall_impl; [apply (inv_entries _ _ H)|]. intros x (t & Ht & ->). simpl.
    pose proof (inv_seq _ _ H _ _ Ht). lia. }
  pose proof (split_upper_bound_spec now _ (inv_sorted _ _ H) Hq) as Hs.
  destruct (split_upper_bound _ _) as [a b]. destruct Hs as (Hl & Ha & Hb).
  assert (due now q = a /\ later now q = b) as [-> ->]; [|done].
  unfold due, later. rewrite Hl, !filter_app.
  rewrite (filter_keep _ a) by done. rewrite (filter_drop _ b) by (eapply Forall_impl; [exact Hb|]; simpl; lia).
  rewrite (filter_drop _ a) by (eapply Forall_impl; [exact Ha|]; simpl; lia). rewrite (filter_keep _ b) by done.
  by rewrite app_nil_r.
Qed.

Lemma getExpiredTimers_ok now q own :
  inv q own ->
  exists q', getExpiredTimers now q = Ok ((due now q).*2, q') /\ inv q' ((due now q).*2 ++ own) /\
    same_rest q q' /\ timers q' = timers q /\ timer_list_ q' = later now q.
Proof.
  intros H. destruct (split_due now q own H) as [Hsp Hl].
  unfold getExpiredTimers. rewrite (inv_sizes _ _ H), Hsp. simpl.
  assert (Hlast : match later now q with
    | [] => Ok tt
    | (_, p) :: _ => t ← deref (timers q) (Some p); assert_ (gt (expiration_ t) now)
    end = Ok tt).
  { destruct (later now q) as [|[k p] l] eqn:E; [done|].
    assert (Hin : (k, p) ∈ later now q) by (rewrite E; set_solver).
    apply list_elem_of_filter in Hin as [Hk Hin]. simpl in Hk.
    pose proof (inv_entries _ _ H) as He. rewrite Forall_forall in He. destruct (He _ Hin) as (t & Ht & Hkt).
    simpl in Ht, Hkt. simpl. rewrite Ht. simpl. unfold gt, key_of in *. subst k. simpl in *.
    by destruct (Z.ltb_spec now (expiration_ t)); [|lia]. }
  simpl in Hlast. rewrite Hlast. simpl. pose proof (inv_entries _ _ H) as He. rewrite Hl, Forall_app in He.
  rewrite erase_active_ok by by destruct He. simpl. eexists. split; [done|].
  destruct H as [Hs He' Hn Hd Ha Hq Hi Hg]. split_and!; try done. split; simpl; try done.
  - rewrite Hl in Hs. by apply sorted_app_inv in Hs as [_ ?].
  - by destruct He.
  - rewrite Hl, fmap_app in Hn. rewrite app_assoc, (Permutation_app_comm (later now q).*2). done.
  - rewrite Hd. apply set_eq. intros x. rewrite Hl at 1. rewrite fmap_app.
    rewrite !elem_of_list_to_set, !elem_of_app. tauto.
  - rewrite Ha. apply set_eq. intros x. rewrite Hl at 1. rewrite fmap_app.
    rewrite elem_of_difference, !elem_of_list_to_set, elem_of_app.
    split; [tauto|]. intros Hx. split; [by right|]. intros Hx'. rewrite Hl, fmap_app in Hn.
    apply list_elem_of_fmap in Hx as (y & -> & Hy), Hx' as (z & Heq & Hz).
    apply NoDup_app in Hn as [Hn _]. apply NoDup_app in Hn as (_ & Hn & _).
    apply (Hn z.2); [by apply list_elem_of_fmap_2|]. unfold active_of in Heq. simplify_eq.
    rewrite <- H. by apply list_elem_of_fmap_2.
Qed.

(** [reset] moves a timer back when it repeats and was not cancelled. *)
Definition rearms (q : TimerQueue) (p : nat) : bool :=
  match timers q !! p with
  | Some t => repeat_ t && negb (bool_decide ((p, sequence_ t) ∈ canceling_timer_set_ q))
  | None => false
  end.

(** The entry of a timer that [reset] moves back. *)
Definition rearmed_entry (now : Z) (q : TimerQueue) (p : nat) (x : Entry * nat) : Prop :=
  exists t e, timers q !! p = Some t /\ rearms q p = true /\ addTime now (interval_ t) = Ok e /\
    x = ((e, sequence_ t), p).

Definition re_add_ok (now : Z) (q : TimerQueue) (ps : list nat) : Prop :=
  forall p t, p ∈ ps -> timers q !! p = Some t -> repeat_ t = true ->
  exists e, addTime now (interval_ t) = Ok e.

(** Changing the expiration of a timer outside the map. *)
Lemma restart_inv q own p t e :
  inv q (p :: own) -> timers q !! p = Some t ->
  let t' := {| callback_ := callback_ t; expiration_ := e; interval_ := interval_ t;
               repeat_ := repeat_ t; sequence_ := sequence_ t |} in
  inv (set_timers (<[p := t']> (timers q)) q) (p :: own).
Proof.
  intros H Ht t'. pose proof (inv_fresh_key _ _ _ _ H Ht) as Hfr.
  destruct H as [Hs He Hn Hd Ha Hq Hi Hg]. split; simpl; try done.
  - apply Forall_forall. intros x Hx. rewrite Forall_forall in He. destruct (He _ Hx) as (t1 & Ht1 & ?).
    exists t1. split; [|done]. rewrite lookup_insert_ne; [done|]. intros ->. by destruct (Hfr x Hx).
  - rewrite dom_insert_L, <- Hd. apply elem_of_dom_2 in Ht. set_solver.
  - intros p1 t1 [[<- <-]|[_ H1]]%lookup_insert_Some; [simpl|]; eauto.
  - intros p1 p2 t1 t2 [[<- <-]|[_ H1]]%lookup_insert_Some [[<- <-]|[_ H2]]%lookup_insert_Some; simpl; eauto.
Qed.

(** Moving one timer back. *)
Lemma rearm_ok now q own p t e :
  inv q (p :: own) -> timers q !! p = Some t -> repeat_ t = true -> addTime now (interval_ t) = Ok e ->
  exists t' b q', restart now t = Ok t' /\ insert true p (set_timers (<[p := t']> (timers q)) q) = Ok (b, q') /\
    inv q' own /\ same_rest q q' /\ (forall p', p' <> p -> timers q' !! p' = timers q !! p') /\
    (forall x, x ∈ timer_list_ q' <-> x = ((e, sequence_ t), p) \/ x ∈ timer_list_ q).
Proof.
  intros H Ht Hrep He. unfold restart. rewrite Hrep, He. simpl.
  pose proof (restart_inv q own p t e H Ht) as H1. simpl in H1. rewrite Hrep in H1.
  eexists. set (q1 := set_timers _ q) in *.
  assert (Ht1 : timers q1 !! p = Some {| callback_ := callback_ t; expiration_ := e; interval_ := interval_ t;
    repeat_ := true; sequence_ := sequence_ t |}) by apply lookup_insert_eq.
  destruct (insert_ok q1 own p _ H1 Ht1) as (b & q2 & Hq2 & H2 & S2 & Ht2 & Hl2).
  exists b, q2. split; [done|]. split_and!; try done; [by destruct S2; split|..].
  - intros p' Hp'. rewrite Ht2. by apply lookup_insert_ne.
  - intros x. rewrite Hl2, map_set_perm, elem_of_cons; [done|].
    intros y Hy Heq. destruct (inv_fresh_key _ _ _ _ H1 Ht1 y Hy) as [_ Hs]. apply Hs. by rewrite Heq.
Qed.

Lemma reset_ok now ps : forall q own,
  inv q (ps ++ own) -> re_add_ok now q ps ->
  exists q', reset ps now q = Ok (filter (fun p => rearms q p = false) ps, q') /\
    inv q' (filter (fun p => rearms q p = false) ps ++ own) /\ same_rest q q' /\
    (forall x, x ∈ timer_list_ q' <-> x ∈ timer_list_ q \/ exists p, p ∈ ps /\ rearmed_entry now q p x).
Proof.
  induction ps as [|p ps IH]; intros q own H Hok; simpl.
  { exists q. split_and!; try done. intros x. split; [by left|]. intros [?|(p & Hp & _)]; [done|set_solver]. }
  destruct (inv_live q (p :: ps ++ own) p H) as [t Ht]; [set_solver|]. rewrite Ht. simpl.
  assert (Hnp : forall p', p' ∈ ps -> p' <> p).
  { pose proof (inv_nodup _ _ H) as Hn. apply NoDup_app in Hn as (_ & _ & Hn). simpl in Hn.
    apply NoDup_cons in Hn as [Hn _]. set_solver. }
  rewrite filter_cons.
  assert (Hra : rearms q p = repeat_ t && negb (bool_decide ((p, sequence_ t) ∈ canceling_timer_set_ q)))
    by (unfold rearms; by rewrite Ht).
  rewrite <- Hra. destruct (rearms q p) eqn:Er.
  - assert (repeat_ t = true) as Hrep by by destruct (repeat_ t).
    destruct (Hok p t) as [e He]; [set_solver | done | done |].
    destruct (rearm_ok now q (ps ++ own) p t e H Ht Hrep He) as (t1 & b & q2 & Hrs & Hin & H2 & S2 & Ht2 & Hl2).
    rewrite Hrs. simpl. rewrite Hin. simpl.
    assert (Hre : forall p', p' ∈ ps -> rearms q2 p' = rearms q p').
    { intros p' Hp'. unfold rearms. rewrite Ht2 by auto. by rewrite (same_canceling _ _ S2). }
    destruct (IH q2 own H2) as (q3 & -> & H3 & S3 & Hx3).
    { intros p' t' Hp'. rewrite Ht2 by auto. apply Hok. set_solver. }
    rewrite (filter_agree (fun p => rearms q2 p = false) (fun p => rearms q p = false)) in *
      by (intros p' Hp'; by rewrite Hre).
    exists q3. split_and!; [done | done | destruct S2, S3; split; congruence |].
    intros x. rewrite Hx3, Hl2. split.
    + intros [[->|?]|(p' & Hp' & t' & e' & Ha & Hb & Hc & ->)]; [right|by left|right].
      * exists p. split; [set_solver|]. by exists t, e.
      * exists p'. split; [set_solver|]. exists t', e'. rewrite Ht2 in Ha by auto. by rewrite Hre in Hb.
    + intros [?|(p' & [->|Hp']%elem_of_cons & t' & e' & ? & ? & ? & ->)]; [by left; right| |].
      * left. left. assert (t' = t) as -> by congruence. assert (e' = e) as -> by congruence. done.
      * right. exists p'. split; [done|]. exists t', e'. by rewrite Ht2, Hre by auto.
  - rewrite decide_True by done.
    assert (H1 : inv q (ps ++ p :: own)) by (eapply inv_perm; [|exact H]; apply Permutation_middle).
    destruct (IH q (p :: own) H1) as (q3 & -> & H3 & S3 & Hx3).
    { intros p' t' Hp'. apply Hok. set_solver. }
    simpl. exists q3. split_and!; try done.
    + eapply inv_perm; [|exact H3]. symmetry. apply Permutation_middle.
    + intros x. rewrite Hx3. split; (intros [?|(p' & Hp' & Hr)]; [by left|right; exists p'; split; [|done]]).
      * set_solver.
      * apply elem_of_cons in Hp' as [->|?]; [|done]. destruct Hr as (? & ? & _ & Hr & _). congruence.
Qed.

(** Destroying the vector of expired timers frees the ones left in it. *)
Lemma free_inv q own p : inv q (p :: own) -> inv (free p q) own.
Proof.
  intros H. destruct H as [Hs He Hn Hd Ha Hq Hi Hg]. rewrite <- Permutation_middle in Hn.
  apply NoDup_cons in Hn as [Hp Hn]. split; simpl; try done.
  - apply Forall_forall. intros x Hx. rewrite Forall_forall in He. destruct (He _ Hx) as (t & Ht & ?).
    exists t. split; [|done]. rewrite lookup_delete_ne; [done|]. intros ->. apply Hp.
    apply elem_of_app. left. by apply list_elem_of_fmap_2.
  - rewrite dom_delete_L, Hd. apply set_eq. intros x.
    rewrite elem_of_difference, !elem_of_list_to_set, elem_of_singleton. set_solver.
  - intros p1 t1 [_ H1]%lookup_delete_Some. eauto.
  - intros p1 p2 t1 t2 [_ H1]%lookup_delete_Some [_ H2]%lookup_delete_Some. eauto.
Qed.

Lemma free_all_inv ps : forall q own, inv q (ps ++ own) -> inv (foldr free q ps) own.
Proof.
  induction ps as [|p ps IH]; intros q own H; [done|]. simpl. apply free_inv. apply IH.
  eapply inv_perm; [|exact H]. apply Permutation_middle.
Qed.

Lemma free_all_rest ps q :
  same_rest q (foldr free q ps) /\ timer_list_ (foldr free q ps) = timer_list_ q /\
  active_timer_set_ (foldr free q ps) = active_timer_set_ q.
Proof. induction ps as [|p ps [[] [IH1 IH2]]]; simpl; [done|]. done. Qed.

(** The state in which the first callback of a pass runs. *)
Definition firing (now : Z) (q q0 : TimerQueue) : Prop :=
  timers q0 = timers q /\ timer_list_ q0 = later now q /\ canceling_timer_set_ q0 = ∅ /\
  is_running_callback_ q0 = true /\ s_global_sequence_ q0 = s_global_sequence_ q /\ pending q0 = pending q.

(** The whole of [handleRead]: the callbacks run from [q0] to [q1], then the map
    is refilled. *)
Lemma handleRead_ok now q own :
  inv q own -> due now q <> [] -> s_global_sequence_ q + B * zlen (due now q) <= LLONG_MAX ->
  re_add_ok now q (due now q).*2 ->
  exists q0 q1 q', handleRead body now q = Ok ((due now q).*1.*2, q') /\
    firing now q q0 /\ inv q0 ((due now q).*2 ++ own) /\
    run_all body (due now q).*2 q0 = Ok ((due now q).*1.*2, q1) /\ inv q1 ((due now q).*2 ++ own) /\
    stable ((due now q).*2 ++ own) (B * zlen (due now q)) q0 q1 /\
    inv q' own /\ is_running_callback_ q' = false /\
    (forall x, x ∈ timer_list_ q' <->
      x ∈ timer_list_ q1 \/ exists p, p ∈ (due now q).*2 /\ rearmed_entry now q1 p x).
Proof.
  intros H Hdue Hg Hre. destruct (split_due now q own H) as [_ Hl].
  assert (Hhd : exists k p l, timer_list_ q = (k, p) :: l /\ lt now k.1 = false).
  { destruct (due now q) as [|[k p] l] eqn:E; [done|]. simpl in Hl. eexists k, p, _. split; [exact Hl|].
    assert (Hin : (k, p) ∈ due now q) by (rewrite E; set_solver).
    apply list_elem_of_filter in Hin as [Hin _]. simpl in Hin. unfold lt. by apply Z.ltb_ge. }
  destruct Hhd as (k & p & l & Hhd & Hlt). unfold handleRead. rewrite Hhd, Hlt, (inv_sizes _ _ H). simpl.
  destruct (getExpiredTimers_ok now q own H) as (qe & -> & He & [Hc Hr Hgl Hpd] & Hte & Hle). simpl.
  set (q0 := set_canceling ∅ true qe).
  assert (Hf : firing now q q0) by (unfold firing, q0; simpl; by rewrite Hte, Hle, Hgl, Hpd).
  assert (H0 : inv q0 ((due now q).*2 ++ own)) by (destruct He; by split).
  destruct (run_all_ok (due now q).*2 q0 _ H0) as (log & q1 & Hrun & H1 & S1 & Hlog);
    [set_solver | rewrite zlen_fmap; unfold q0; simpl; lia|].
  rewrite zlen_fmap in S1.
  assert (log = (due now q).*1.*2) as ->.
  { apply list_eq_same_length with (length log); [by rewrite !length_fmap, <- (Forall2_length _ _ _ Hlog), length_fmap | done |].
    intros i x y _ Hx Hy. rewrite !list_lookup_fmap, !fmap_Some in Hy.
    destruct Hy as (k' & ([k2 p2] & Hi & ->)%fmap_Some & ->). simpl.
    destruct (Forall2_lookup_r _ _ _ _ _ Hlog Hx) as (p3 & Hp3 & t & Ht & ->).
    rewrite list_lookup_fmap, Hi in Hp3. simpl in Hp3. simplify_eq.
    apply list_elem_of_lookup_2 in Hi. apply list_elem_of_filter in Hi as [_ Hi].
    pose proof (inv_entries _ _ H) as Hen. rewrite Forall_forall in Hen.
    destruct (Hen _ Hi) as (t' & Ht' & Hk). destruct Hf as (Hf & _). simpl in Ht', Hk. rewrite Hf in Ht.
    simplify_eq. done. }
  rewrite Hrun. simpl. set (q2 := set_canceling _ false q1).
  assert (H2 : inv q2 ((due now q).*2 ++ own)) by (destruct H1; by split).
  destruct (reset_ok now (due now q).*2 q2 own H2) as (q3 & -> & H3 & S3 & Hx3).
  { intros p' t' Hp' Ht'. apply (Hre p'); [done|]. unfold q2 in Ht'. simpl in Ht'.
    rewrite (st_own _ _ _ _ S1) in Ht' by set_solver. by rewrite <- Hte. }
  simpl. rewrite (inv_sizes _ _ H3). simpl. set (dead := filter _ _) in *.
  destruct (free_all_rest dead q3) as ([_ Hr4 _ _] & Hl4 & _).
  exists q0, q1, (foldr free q3 dead). split_and!; try done.
  - by apply free_all_inv.
  - rewrite Hr4, (same_running _ _ S3). done.
  - intros x. rewrite Hl4. apply Hx3.
Qed.

Lemma handleRead_nothing_due now q own :
  inv q own -> due now q = [] -> handleRead body now q = Ok ([], q).
Proof.
  intros H Hd. unfold handleRead. destruct (timer_list_ q) as [|[k p] l] eqn:E; [done|].
  unfold lt. destruct (Z.ltb_spec now k.1) as [|Hk]; [done|]. exfalso.
  assert (Hin : (k, p) ∈ due now q) by (apply list_elem_of_filter; rewrite E; set_solver).
  rewrite Hd in Hin. set_solver.
Qed.

Lemma due_live now q own p t :
  inv q own -> timers q !! p = Some t -> p ∈ (due now q).*2 -> (key_of t, p) ∈ due now q.
Proof.
  intros H Ht Hp. apply list_elem_of_fmap in Hp as ([k p'] & -> & Hx). simpl in *.
  pose proof Hx as Hx'. apply list_elem_of_filter in Hx' as [_ Hin].
  pose proof (inv_entries _ _ H) as He. rewrite Forall_forall in He.
  destruct (He _ Hin) as (t' & Ht' & Hk). simpl in Ht', Hk. by simplify_eq.
Qed.

(** A due timer is in the map after the pass only if [reset] put it back. *)
Lemma not_in_map q own p x : inv q own -> p ∈ own -> x ∈ timer_list_ q -> x.2 <> p.
Proof.
  intros H Hp Hx Heq. pose proof (inv_nodup _ _ H) as Hn. apply NoDup_app in Hn as (_ & Hn & _).
  apply (Hn x.2); [by apply list_elem_of_fmap_2 | by subst p].
Qed.

(** C15. [handleRead] runs exactly the timers whose expiration has passed, each
    once, in the order of their expiration and, among equal ones, of their
    creation, whatever timers the callbacks add or cancel; it never trips an
    assertion or follows a freed timer, and leaves the queue well formed. *)
Theorem handleRead_runs_due now q own :
  inv q own -> is_running_callback_ q = false ->
  s_global_sequence_ q + B * zlen (due now q) <= LLONG_MAX -> re_add_ok now q (due now q).*2 ->
  exists q', handleRead body now q = Ok ((due now q).*1.*2, q') /\ inv q' own /\
    is_running_callback_ q' = false /\ sorted (due now q) /\
    (forall x, x ∈ due now q <-> x ∈ timer_list_ q /\ x.1.1 <= now).
Proof.
  intros H Hr Hg Hre.
  assert (Hs : sorted (due now q)).
  { destruct (split_due now q own H) as [_ Hl]. pose proof (inv_sorted _ _ H) as Hs. rewrite Hl in Hs.
    by apply sorted_app_inv in Hs as [? _]. }
  assert (Hx : forall x, x ∈ due now q <-> x ∈ timer_list_ q /\ x.1.1 <= now).
  { intros x. unfold due. rewrite list_elem_of_filter. tauto. }
  destruct (decide (due now q = [])) as [Hd|Hd].
  - exists q. rewrite (handleRead_nothing_due now q own H Hd), Hd in *. done.
  - destruct (handleRead_ok now q own H Hd Hg Hre) as (q0 & q1 & q' & ? & _ & _ & _ & _ & _ & ? & ? & _).
    by exists q'.
Qed.

(** C24. A repeating timer that no callback cancels is armed again, under the
    same id, at [now] plus its interval. *)
Theorem periodic_rearmed now q own p t :
  inv q own -> s_global_sequence_ q + B * zlen (due now q) <= LLONG_MAX ->
  re_add_ok now q (due now q).*2 ->
  timers q !! p = Some t -> p ∈ (due now q).*2 -> repeat_ t = true ->
  (forall n q, CmdCancel (p, sequence_ t) ∉ body n q) ->
  exists log q' e, handleRead body now q = Ok (log, q') /\ addTime now (interval_ t) = Ok e /\
    ((e, sequence_ t), p) ∈ timer_list_ q' /\ (p, sequence_ t) ∈ active_timer_set_ q'.
Proof.
  intros H Hg Hre Ht Hp Hrep Hnc. destruct (Hre p t Hp Ht Hrep) as [e He].
  assert (Hd : due now q <> []) by (destruct (due now q); [set_solver | done]).
  destruct (handleRead_ok now q own H Hd Hg Hre)
    as (q0 & q1 & q' & Hq' & (Ht0 & _ & Hc0 & Hr0 & Hg0 & _) & H0 & Hrun & H1 & S1 & H' & _ & Hx).
  exists (due now q).*1.*2, q', e. split; [done|]. split; [done|].
  assert (Ht1 : timers q1 !! p = Some t) by (rewrite (st_own _ _ _ _ S1), Ht0 by set_solver; done).
  assert (Hin : ((e, sequence_ t), p) ∈ timer_list_ q').
  { apply Hx. right. exists p. split; [done|]. exists t, e. split_and!; try done.
    unfold rearms. rewrite Ht1, Hrep. simpl. apply negb_true_iff, bool_decide_eq_false.
    apply (run_all_no_cancel (due now q).*2 q0 ((due now q).*2 ++ own) (p, sequence_ t) H0) with
      (log := (due now q).*1.*2); [set_solver | rewrite zlen_fmap; lia | done | done |].
    rewrite Hc0. set_solver. }
  split; [done|]. rewrite (inv_active _ _ H'), elem_of_list_to_set.
  apply (list_elem_of_fmap_2 active_of _ _ Hin).
Qed.

(** C23. A due timer that does not repeat, or that some callback of the pass
    cancels (its own, or that of a timer that runs before or after it), is not
    armed again and its memory is released. *)
Theorem finished_or_cancelled_released now q own p t :
  inv q own -> s_global_sequence_ q + B * zlen (due now q) <= LLONG_MAX ->
  re_add_ok now q (due now q).*2 ->
  timers q !! p = Some t -> p ∈ (due now q).*2 ->
  (repeat_ t = false \/
   exists p0 t0 n, p0 ∈ (due now q).*2 /\ timers q !! p0 = Some t0 /\ callback_ t0 = Some n /\
     forall q, CmdCancel (p, sequence_ t) ∈ body n q) ->
  exists log q', handleRead body now q = Ok (log, q') /\ sequence_ t ∈ log /\
    (p, sequence_ t) ∉ active_timer_set_ q' /\ timers q' !! p = None.
Proof.
  intros H Hg Hre Ht Hp Hfin.
  assert (Hd : due now q <> []) by (destruct (due now q); [set_solver | done]).
  destruct (handleRead_ok now q own H Hd Hg Hre)
    as (q0 & q1 & q' & Hq' & (Ht0 & _ & Hc0 & Hr0 & Hg0 & _) & H0 & Hrun & H1 & S1 & H' & _ & Hx).
  exists (due now q).*1.*2, q'. split; [done|].
  split; [apply (list_elem_of_fmap_2 snd _ (key_of t)), (list_elem_of_fmap_2 fst _ (key_of t, p));
    by apply (due_live now q own)|].
  assert (Ht1 : timers q1 !! p = Some t) by (rewrite (st_own _ _ _ _ S1), Ht0 by set_solver; done).
  assert (Hra : rearms q1 p = false).
  { unfold rearms. rewrite Ht1. destruct Hfin as [->|(p0 & t0 & n & Hp0 & Ht00 & Hn & Hb)]; [done|].
    rewrite bool_decide_eq_true_2, andb_false_r; [done|].
    apply (run_all_cancel (due now q).*2 q0 ((due now q).*2 ++ own) (p, sequence_ t) p0 t0 n H0) with
      (log := (due now q).*1.*2); try done; [set_solver | rewrite zlen_fmap; lia | set_solver | by rewrite Ht0]. }
  assert (Hno : forall x, x ∈ timer_list_ q' -> x.2 <> p).
  { intros x [Hx1|(p' & Hp' & t' & e & _ & Hr & _ & ->)]%Hx.
    - by apply (not_in_map q1 ((due now q).*2 ++ own)); [|set_solver|].
    - simpl. congruence. }
  assert (Hpo : p ∉ own).
  { pose proof (inv_nodup _ _ H0) as Hn. apply NoDup_app in Hn as (_ & _ & Hn).
    apply NoDup_app in Hn as (_ & Hn & _). by apply Hn. }
  split.
  - rewrite (inv_active _ _ H'), elem_of_list_to_set. intros Hin.
    apply list_elem_of_fmap in Hin as (x & Heq & Hin). apply (Hno x Hin). unfold active_of in Heq. congruence.
  - apply not_elem_of_dom. rewrite (inv_dom _ _ H'), elem_of_list_to_set.
    intros [Hin|Hin]%elem_of_app; [|done]. apply list_elem_of_fmap in Hin as (x & -> & Hin).
    by apply (Hno x Hin).
Qed.

End runs.

Section add_cancel.
Context {A : Allocator}.

Lemma inv_new seq : 0 <= seq <= LLONG_MAX -> inv (new_TimerQueue seq) [].
Proof. intros H. split; simpl; try done; constructor. Qed.

Lemma sorted_elements_eq (l k : list (Entry * nat)) :
  sorted l -> sorted k -> (forall x, x ∈ l <-> x ∈ k) -> l = k.
Proof.
  intros Hl Hk Hx.
  assert (Hnd : forall m, sorted m -> NoDup m).
  { intros m. induction 1 as [|x m Hs IH Hb]; constructor; [|done].
    rewrite Forall_forall in Hb. intros Hin. by apply (before_irrefl x x (Hb _ Hin)). }
  assert (Ha : AntiSymm (=) before).
  { intros x y Hxy Hyx. unfold before in *. rewrite entry_lt_spec in *. lia. }
  apply (StronglySorted_unique before); [done|done|]. apply NoDup_Permutation; auto.
Qed.

(** A timer is armed by [addTimer] under a fresh id at its expiration, and
    cancelling that id gives back the queue as it was: same timers, same order,
    same heap. *)
Theorem addTimer_cancelTimer_roundtrip q own cb when iv :
  inv q own -> s_global_sequence_ q < LLONG_MAX ->
  exists id q1 q2, addTimer true cb when iv q = Ok (id, q1) /\ inv q1 own /\
    id ∉ active_timer_set_ q /\ ((when, id.2), id.1) ∈ timer_list_ q1 /\
    cancelTimer true id q1 = Ok q2 /\ inv q2 own /\
    timer_list_ q2 = timer_list_ q /\ active_timer_set_ q2 = active_timer_set_ q /\ dom (timers q2) = dom (timers q).
Proof.
  intros H Hg. destruct (addTimer_ok q own cb when iv H Hg) as (p & q1 & Hadd & H1 & S1 & Hp & Htp & Hl1).
  set (s := s_global_sequence_ q) in *.
  assert (Hfr : forall x, x ∈ timer_list_ q -> x.1.2 <> s).
  { intros x Hx. pose proof (inv_entries _ _ H) as He. rewrite Forall_forall in He.
    destruct (He _ Hx) as (t & Ht & ->). pose proof (inv_seq _ _ H _ _ Ht). simpl. lia. }
  assert (Hk : forall x, x ∈ timer_list_ q -> x.1 <> (when, s)).
  { intros x Hx Heq. apply (Hfr x Hx). by rewrite Heq. }
  destruct (cancel_ok q1 own (p, s) H1) as (q2 & Hcan & H2 & S2 & _ & Hx2 & _).
  assert (Hl2 : timer_list_ q2 = timer_list_ q).
  { apply sorted_elements_eq; [apply (inv_sorted _ _ H2) | apply (inv_sorted _ _ H)|].
    intros x. rewrite Hx2, Hl1, map_set_perm by done. rewrite elem_of_cons. unfold active_of. split.
    - intros [[->|?] Hne]; [|done]. by destruct Hne.
    - intros Hx. split; [by right|]. intros Heq. apply (Hfr x Hx). congruence. }
  exists (p, s), q1, q2. split_and!; try done; simpl.
  - rewrite (inv_active _ _ H), elem_of_list_to_set. intros Hin.
    apply list_elem_of_fmap in Hin as (x & Heq & Hx). apply (Hfr x Hx). unfold active_of in Heq. congruence.
  - rewrite Hl1, map_set_perm by done. set_solver.
  - by rewrite (inv_active _ _ H2), (inv_active _ _ H), Hl2.
  - by rewrite (inv_dom _ _ H2), (inv_dom _ _ H), Hl2.
Qed.

(** [runAfter] and [runEveny] arm a timer at [now] plus the delay, not in the
    past, and it is due from that moment on and not before; it repeats exactly
    when it was created by [runEveny] with a positive interval. *)
Theorem runAfter_runEveny_correct q own now delay when cb (every : bool) :
  inv q own -> s_global_sequence_ q < LLONG_MAX -> positive delay = true -> addTime now delay = Ok when ->
  exists id q' t, (if every then runEveny true now delay cb q else runAfter true now delay cb q) = Ok (id, q') /\
    inv q' own /\ now <= when /\ timers q' !! id.1 = Some t /\ callback_ t = cb /\
    repeat_ t = every && SFltb (S754_zero false) delay /\
    forall later, ((when, id.2), id.1) ∈ due later q' <-> when <= later.
Proof.
  intros H Hg Hp Ha. pose proof (addTime_ge _ _ _ Hp Ha) as Hge.
  assert (Hdue : forall iv p q', timer_list_ q' = map_set (when, s_global_sequence_ q) p (timer_list_ q) ->
    addTimer true cb when iv q = Ok ((p, s_global_sequence_ q), q') ->
    forall later, ((when, s_global_sequence_ q), p) ∈ due later q' <-> when <= later).
  { intros iv p q' Hl _ later. unfold due. rewrite list_elem_of_filter, Hl. simpl. rewrite map_set_perm.
    - set_solver.
    - intros x Hx Heq. pose proof (inv_entries _ _ H) as He. rewrite Forall_forall in He.
      destruct (He _ Hx) as (t & Ht & Hk). pose proof (inv_seq _ _ H _ _ Ht). rewrite Hk in Heq. unfold key_of in Heq.
      simplify_eq. lia. }
  unfold runEveny, runAfter. rewrite Ha. simpl.
  destruct every.
  - destruct (addTimer_ok q own cb when delay H Hg) as (p & q' & Hq & Hi & _ & _ & Ht & Hl).
    eexists _, q', _. split_and!; [exact Hq|done|done|exact Ht|done|done|]. by apply (Hdue delay).
  - destruct (addTimer_ok q own cb when (S754_zero false) H Hg) as (p & q' & Hq & Hi & _ & _ & Ht & Hl).
    eexists _, q', _. split_and!; [exact Hq|done|done|exact Ht|done|done|]. by apply (Hdue (S754_zero false)).
Qed.

Lemma getRecentExpireTime_ok now q own :
  inv q own -> Forall (fun x => in_int64 (x.1.1 - now) = true) (timer_list_ q) ->
  exists ts, getRecentExpireTime now q = Ok ts /\ 0 <= tv_nsec ts < 1000000000 /\
    (timer_list_ q = [] -> tv_sec ts = LONG_MAX) /\
    (forall x, x ∈ timer_list_ q -> tv_sec ts * 1000000000 + tv_nsec ts <= 1000 * Z.max 100 (x.1.1 - now)) /\
    (timer_list_ q <> [] -> exists x, x ∈ timer_list_ q /\
      tv_sec ts * 1000000000 + tv_nsec ts = 1000 * Z.max 100 (x.1.1 - now)).
Proof.
  intros H Hf. unfold getRecentExpireTime. pose proof (inv_sorted _ _ H) as Hs.
  destruct (timer_list_ q) as [|[k p] l]; [eexists; split_and!; [done|done|done|done|set_solver|done]|].
  apply Forall_cons in Hf as [Hk _]. simpl in Hk.
  destruct (howMuchTimeFromNow_value k.1 now Hk) as (ts & Hts & Hn & _ & Hv). exists ts.
  split_and!; [done|lia|lia|done| |].
  - intros x Hx. apply elem_of_cons in Hx as [->|Hx]; simpl; [lia|].
    inversion Hs as [|? ? _ Hb]; subst. rewrite Forall_forall in Hb. specialize (Hb _ Hx).
    unfold before in Hb. rewrite entry_lt_spec in Hb. simpl in Hb. lia.
  - intros _. exists (k, p). split; [set_solver|done].
Qed.

End add_cancel.

(** ** Witnesses *)

(** Three timers: one due at 10, one repeating every 100 ms and due at 20, one
    due at 5000. *)
Definition tenth : double := binary_normalize 53 1024 3602879701896397 (-55) false.
Definition demo_cmds : list command :=
  [CmdAdd (Some 1%nat) 20 tenth; CmdAdd (Some 0%nat) 10 (S754_zero false); CmdAdd None 5000 (S754_zero false)].
Definition demo_queue : TimerQueue :=
  match execs (A := first_fit) demo_cmds (new_TimerQueue 0) with Ok q => q | Fault _ => new_TimerQueue 0 end.

Lemma demo_inv : inv demo_queue [].
Proof.
  destruct (timer_execs_ok (A := first_fit) demo_cmds (new_TimerQueue 0) []) as (q & Hq & H & _).
  - apply inv_new. unfold LLONG_MAX. lia.
  - vm_compute. discriminate.
  - unfold demo_queue. by rewrite Hq.
Qed.

(** A bool version of [re_add_ok]. *)
Definition re_add_okb (now : Z) (q : TimerQueue) (ps : list nat) : bool :=
  forallb (fun p => match timers q !! p with
                    | Some t => negb (repeat_ t) ||
                        match addTime now (interval_ t) with Ok _ => true | Fault _ => false end
                    | None => true
                    end) ps.
Lemma re_add_okb_spec now q ps : re_add_okb now q ps = true -> re_add_ok now q ps.
Proof.
  unfold re_add_okb. rewrite forallb_forall. intros H p t Hp Ht Hr.
  specialize (H p (proj1 (list_elem_of_In _ _) Hp)). rewrite Ht, Hr in H. simpl in H. destruct (addTime _ _); [eauto | done].
Qed.

(** Callback 0 cancels the repeating timer, callback 1 adds a timer. *)
Definition demo_body (n : nat) (q : TimerQueue) : list command :=
  match n with
  | O => [CmdCancel (0%nat, 0)]
  | _ => [CmdAdd None 7 (S754_zero false)]
  end.
Lemma demo_body_bound n q : zlen (demo_body n q) <= 1.
Proof. by destruct n. Qed.

Lemma handleRead_runs_due_witness :
  exists q', handleRead (A := first_fit) demo_body 30 demo_queue = Ok ([1; 0], q') /\ inv q' [].
Proof.
  destruct (handleRead_runs_due (A := first_fit) demo_body 1 ltac:(lia) demo_body_bound 30 demo_queue [])
    as (q' & Hq' & H' & _).
  - exact demo_inv.
  - vm_compute. reflexivity.
  - vm_compute. discriminate.
  - apply re_add_okb_spec. vm_compute. reflexivity.
  - exists q'. split; [exact Hq' | exact H'].
Defined.

Lemma periodic_rearmed_witness :
  exists log q' e, handleRead (A := first_fit) (fun _ _ => []) 30 demo_queue = Ok (log, q') /\
    ((e, 0), 0%nat) ∈ timer_list_ q' /\ e = 100030.
Proof.
  destruct (periodic_rearmed (A := first_fit) (fun _ _ => []) 0 ltac:(lia) ltac:(intros; vm_compute; discriminate)
    30 demo_queue [] 0%nat (new_Timer (Some 1%nat) 20 tenth 0)) as (log & q' & e & Hq' & He & Hin & _).
  - exact demo_inv.
  - vm_compute. discriminate.
  - apply re_add_okb_spec. vm_compute. reflexivity.
  - vm_compute. reflexivity.
  - apply (bool_decide_unpack _). vm_compute. exact I.
  - vm_compute. reflexivity.
  - intros n q Hin. inversion Hin.
  - exists log, q', e. split; [exact Hq'|]. split; [exact Hin|]. vm_compute in He. by injection He.
Defined.

Lemma finished_or_cancelled_released_witness :
  exists log q', handleRead (A := first_fit) demo_body 30 demo_queue = Ok (log, q') /\
    (0%nat, 0) ∉ active_timer_set_ q' /\ timers q' !! 0%nat = None.
Proof.
  destruct (finished_or_cancelled_released (A := first_fit) demo_body 1 ltac:(lia) demo_body_bound 30
    demo_queue [] 0%nat (new_Timer (Some 1%nat) 20 tenth 0)) as (log & q' & Hq' & _ & Hact & Hfree).
  - exact demo_inv.
  - vm_compute. discriminate.
  - apply re_add_okb_spec. vm_compute. reflexivity.
  - vm_compute. reflexivity.
  - apply (bool_decide_unpack _). vm_compute. exact I.
  - right. exists 1%nat, (new_Timer (Some 0%nat) 10 (S754_zero false) 1), 0%nat. split.
    + apply (bool_decide_unpack _). vm_compute. exact I.
    + split; [vm_compute; reflexivity|]. split; [reflexivity|]. intros q. simpl. left.
  - exists log, q'. split; [exact Hq'|]. split; [exact Hact | exact Hfree].
Defined.

Lemma runAfter_runEveny_correct_witness :
  exists id q' t, runEveny (A := first_fit) true 1000 tenth (Some 2%nat) demo_queue = Ok (id, q') /\
    timers q' !! id.1 = Some t /\ repeat_ t = true /\ ((101000, id.2), id.1) ∈ due 101000 q'.
Proof.
  destruct (runAfter_runEveny_correct (A := first_fit) demo_queue [] 1000 tenth 101000 (Some 2%nat) true)
    as (id & q' & t & Hq & _ & _ & Ht & _ & Hr & Hd).
  - exact demo_inv.
  - vm_compute. reflexivity.
  - vm_compute. reflexivity.
  - vm_compute. reflexivity.
  - exists id, q', t. split; [exact Hq|]. split; [exact Ht|]. split; [exact Hr|]. apply Hd. lia.
Defined.

Lemma addTimer_cancelTimer_roundtrip_witness :
  exists id q1 q2, addTimer (A := first_fit) true (Some 2%nat) 15 (S754_zero false) demo_queue = Ok (id, q1) /\
    cancelTimer true id q1 = Ok q2 /\ timer_list_ q2 = timer_list_ demo_queue.
Proof.
  destruct (addTimer_cancelTimer_roundtrip (A := first_fit) demo_queue [] (Some 2%nat) 15 (S754_zero false))
    as (id & q1 & q2 & Hadd & _ & _ & _ & Hcan & _ & Hl & _).
  - exact demo_inv.
  - vm_compute. reflexivity.
  - exists id, q1, q2. split; [exact Hadd|]. split; [exact Hcan | exact Hl].
Defined.

End TimerQueue.
