(* ===== verification/IoUringLoop.v ===== *)
(** * The event loop ([include/IoUringLoop.h], [src/IoUringLoop.cc], [include/IoContext.h])

    The submission side of the loop: contexts are put into the submission ring
    while enough entries are free and wait in a queue otherwise; the queue is
    drained once per iteration.  The ring itself is liburing's: its operations
    and their documented behaviour are the class [Uring].  The iteration of
    [loop()] is modelled over the handlers of the contexts, which are the
    subject of the other files. *)

From S2P Require Import Prelude Timestamp SendQueue TimerQueue.

(** ** liburing *)

(** What an entry asks the kernel to do, and the [user_data] it carries
    (0: no context). *)
Inductive Op :=
  | RecvMultishot (fd bgid : Z)
  | Writev (fd : Z) (iov : list SendQueue.iovec)
  | AcceptMultishot (fd : Z) (addr : nat)
  | AsyncCancel (target : nat)
  | ReadFd (fd : Z).
Record Sqe := mkSqe { op : Op; user_data : nat }.

(** [sq_pending]: the entries reserved and filled since the last submit.
    [io_uring_get_sqe] reserves the next entry, or returns no entry when the
    ring is full; [io_uring_submit] hands the oldest entries to the kernel, all
    of them unless the kernel stops early. *)
Class Uring := {
  ring : Type;
  sq_entries : ring -> Z;
  sq_pending : ring -> list Sqe;
  io_uring_sq_space_left : ring -> Z;
  io_uring_get_sqe : ring -> option (nat * ring);
  sqe_write : nat -> Sqe -> ring -> ring;
  io_uring_submit : ring -> list Sqe * ring;
  space_left_spec r : io_uring_sq_space_left r = sq_entries r - zlen (sq_pending r);
  space_left_nonneg r : 0 <= io_uring_sq_space_left r;
  get_sqe_full r : io_uring_get_sqe r = None <-> io_uring_sq_space_left r = 0;
  get_sqe_next r i r' : io_uring_get_sqe r = Some (i, r') ->
    i = length (sq_pending r) /\ sq_entries r' = sq_entries r /\
    exists old, sq_pending r' = sq_pending r ++ [old];
  sqe_write_entries i s r : sq_entries (sqe_write i s r) = sq_entries r;
  sqe_write_pending i s r : sq_pending (sqe_write i s r) = <[i := s]> (sq_pending r);
  submit_entries r : sq_entries (io_uring_submit r).2 = sq_entries r;
  submit_prefix r : sq_pending r = (io_uring_submit r).1 ++ sq_pending (io_uring_submit r).2
}.

(** A ring that behaves so: a list of at most [n] entries, submitted as a whole. *)
Module ListRing.
Record lring := mkLring { cap : nat; entries : list Sqe; fits : (length entries <=? cap)%nat = true }.

Lemma fits_snoc c (l : list Sqe) s : (length l <? c)%nat = true -> (length (l ++ [s]) <=? c)%nat = true.
Proof. rewrite length_app, Nat.ltb_lt, Nat.leb_le. simpl. lia. Qed.
Lemma fits_insert c (l : list Sqe) i s : (length l <=? c)%nat = true -> (length (<[i := s]> l) <=? c)%nat = true.
Proof. by rewrite length_insert. Qed.

Definition get_sqe (r : lring) : option (nat * lring) :=
  match bool_dec (length (entries r) <? cap r)%nat true with
  | left H => Some (length (entries r),
      mkLring (cap r) (entries r ++ [mkSqe (ReadFd 0) 0%nat]) (fits_snoc _ _ _ H))
  | right _ => None
  end.

Definition write (i : nat) (s : Sqe) (r : lring) : lring :=
  mkLring (cap r) (<[i := s]> (entries r)) (fits_insert _ _ _ _ (fits r)).

Definition submit (r : lring) : list Sqe * lring := (entries r, mkLring (cap r) [] eq_refl).

Definition list_uring : Uring.
Proof.
  refine {| ring := lring; sq_entries := fun r => Z.of_nat (cap r); sq_pending := entries;
            io_uring_sq_space_left := fun r => Z.of_nat (cap r) - zlen (entries r);
            io_uring_get_sqe := get_sqe; sqe_write := write; io_uring_submit := submit |}.
  - done.
  - intros r. pose proof (fits r) as H. apply Nat.leb_le in H. unfold zlen. lia.
  - intros r. pose proof (fits r) as Hf. apply Nat.leb_le in Hf. unfold get_sqe, zlen.
    destruct (bool_dec _ _) as [H|H]; pose proof H as H';
      rewrite Nat.ltb_lt in H'; split; intros Hr; try done; lia.
  - intros r i r'. unfold get_sqe. destruct (bool_dec _ _); [|done]. intros Hr. simplify_eq.
    split; [done|]. split; [done|]. by eexists.
  - done.
  - done.
  - done.
  - intros r. simpl. by rewrite app_nil_r.
Defined.
End ListRing.

Module IoUringLoop.

(** ** State *)

Inductive ContextType := Read | Write | Accept | Wakeup.

(** What the loop reads and writes of a context: the header [IoContext], the
    descriptor, and for a write the [iovec]s to send. *)
Record IoContext := mkIoContext {
  type_ : ContextType;
  res_ : Z;
  flags_ : Z;
  fd_ : Z;
  temp_data_ : list SendQueue.iovec
}.

Definition set_result (res flags : Z) (c : IoContext) : IoContext :=
  mkIoContext (type_ c) res flags (fd_ c) (temp_data_ c).

Section loop.
Context {U : Uring}.

(** [kernel] is the history of the entries handed to the kernel; [self] the
    address of the loop as a context. *)
Record IoUringLoop := mkIoUringLoop {
  ring_ : ring;
  kernel : list Sqe;
  contexts : gmap nat IoContext;
  sqe_low_water_mark_ : Z;
  waiting_submit_queue_ : list nat;
  buf_group_id : Z;
  wakeup_fd_ : Z;
  self : nat;
  time_out_ : timespec
}.

Definition set_ring (r : ring) (L : IoUringLoop) : IoUringLoop :=
  mkIoUringLoop r (kernel L) (contexts L) (sqe_low_water_mark_ L) (waiting_submit_queue_ L)
    (buf_group_id L) (wakeup_fd_ L) (self L) (time_out_ L).
Definition set_kernel (k : list Sqe) (L : IoUringLoop) : IoUringLoop :=
  mkIoUringLoop (ring_ L) k (contexts L) (sqe_low_water_mark_ L) (waiting_submit_queue_ L)
    (buf_group_id L) (wakeup_fd_ L) (self L) (time_out_ L).
Definition set_contexts (c : gmap nat IoContext) (L : IoUringLoop) : IoUringLoop :=
  mkIoUringLoop (ring_ L) (kernel L) c (sqe_low_water_mark_ L) (waiting_submit_queue_ L)
    (buf_group_id L) (wakeup_fd_ L) (self L) (time_out_ L).
Definition set_waiting (w : list nat) (L : IoUringLoop) : IoUringLoop :=
  mkIoUringLoop (ring_ L) (kernel L) (contexts L) (sqe_low_water_mark_ L) w
    (buf_group_id L) (wakeup_fd_ L) (self L) (time_out_ L).

(** ** Operations *)

Definition remainedSqe (L : IoUringLoop) : Z := io_uring_sq_space_left (ring_ L).

Definition submit_ring (L : IoUringLoop) : IoUringLoop :=
  let '(done, r) := io_uring_submit (ring_ L) in set_kernel (kernel L ++ done) (set_ring r L).

Definition getIoUringSqe (force_submit : bool) (L : IoUringLoop) : result (option nat * IoUringLoop) :=
  match io_uring_get_sqe (ring_ L) with
  | Some (sqe, r) => Ok (Some sqe, set_ring r L)
  | None =>
      if force_submit then
        let L := submit_ring L in
        match io_uring_get_sqe (ring_ L) with
        | Some (sqe, r) => Ok (Some sqe, set_ring r L)
        | None => Fault FatalExit
        end
      else Ok (None, L)
  end.

(** The [io_uring_prep_*] and [io_uring_sqe_set_data] calls on an entry. *)
Definition prep (sqe : option nat) (s : Sqe) (L : IoUringLoop) : result IoUringLoop :=
  match sqe with
  | Some i => Ok (set_ring (sqe_write i s (ring_ L)) L)
  | None => Fault NullDeref
  end.

Definition _submitReadMultishut (read_ctx : nat) (L : IoUringLoop) : result IoUringLoop :=
  '(sqe, L) ← getIoUringSqe false L;
  _ ← assert_ (bool_decide (sqe <> None));
  c ← deref (contexts L) (Some read_ctx);
  prep sqe (mkSqe (RecvMultishot (fd_ c) (buf_group_id L)) read_ctx) L.

Definition _submitWriteMsg (write_ctx : nat) (L : IoUringLoop) : result IoUringLoop :=
  '(sqe, L) ← getIoUringSqe false L;
  _ ← assert_ (bool_decide (sqe <> None));
  c ← deref (contexts L) (Some write_ctx);
  prep sqe (mkSqe (Writev (fd_ c) (temp_data_ c)) write_ctx) L.

Definition _submitAcceptMultishut (accept_ctx : nat) (L : IoUringLoop) : result IoUringLoop :=
  '(sqe, L) ← getIoUringSqe false L;
  _ ← assert_ (bool_decide (sqe <> None));
  c ← deref (contexts L) (Some accept_ctx);
  prep sqe (mkSqe (AcceptMultishot (fd_ c) accept_ctx) accept_ctx) L.

Definition submitReadMultishut (ctx : nat) (L : IoUringLoop) : result IoUringLoop :=
  if remainedSqe L <? sqe_low_water_mark_ L
  then Ok (set_waiting (waiting_submit_queue_ L ++ [ctx]) L)
  else _submitReadMultishut ctx L.

Definition submitWriteMsg (ctx : nat) (L : IoUringLoop) : result IoUringLoop :=
  if remainedSqe L <? sqe_low_water_mark_ L
  then Ok (set_waiting (waiting_submit_queue_ L ++ [ctx]) L)
  else _submitWriteMsg ctx L.

Definition submitAcceptMultishut (ctx : nat) (L : IoUringLoop) : result IoUringLoop :=
  if remainedSqe L <? sqe_low_water_mark_ L
  then Ok (set_waiting (waiting_submit_queue_ L ++ [ctx]) L)
  else _submitAcceptMultishut ctx L.

(** The [switch] of [doingSubmitWaitingTask]: a context of another type would be
    dropped. *)
Definition submit_by_type (ctx : nat) (L : IoUringLoop) : result IoUringLoop :=
  c ← deref (contexts L) (Some ctx);
  match type_ c with
  | Read => _submitReadMultishut ctx L
  | Write => _submitWriteMsg ctx L
  | Accept => _submitAcceptMultishut ctx L
  | Wakeup => Ok L
  end.

Definition max_process_per_loop : nat := 100%nat.

Fixpoint submit_waiting (budget : nat) (L : IoUringLoop) : result IoUringLoop :=
  match budget with
  | O => Ok L
  | S budget =>
      match waiting_submit_queue_ L with
      | [] => Ok L
      | ctx :: _ =>
          if sqe_low_water_mark_ L <? remainedSqe L then
            L ← submit_by_type ctx L;
            submit_waiting budget (set_waiting (tail (waiting_submit_queue_ L)) L)
          else Ok L
      end
  end.

Definition doingSubmitWaitingTask (L : IoUringLoop) : result IoUringLoop :=
  submit_waiting max_process_per_loop L.

Definition submitCancel (ctx : nat) (L : IoUringLoop) : result IoUringLoop :=
  '(sqe, L) ← getIoUringSqe true L;
  _ ← assert_ (bool_decide (sqe <> None));
  L ← prep sqe (mkSqe (AsyncCancel ctx) 0%nat) L;
  Ok (submit_ring L).

(** The completion of the wake-up read: it is armed again. *)
Definition on_completion (L : IoUringLoop) : result IoUringLoop :=
  '(sqe, L) ← getIoUringSqe true L;
  _ ← assert_ (bool_decide (sqe <> None));
  match sqe with
  | None => Fault FatalExit
  | Some _ => prep sqe (mkSqe (ReadFd (wakeup_fd_ L)) (self L)) L
  end.

(** The sleep of an iteration: the next timer, but 10 seconds at most. *)
Definition kPollTimeS : timespec := mkTimespec 10 0.
Definition getTimeOutPeriod (now : Z) (q : TimerQueue.TimerQueue) (L : IoUringLoop) : result timespec :=
  expired_time ← TimerQueue.getRecentExpireTime now q;
  Ok (if tv_sec expired_time <? tv_sec (time_out_ L) then expired_time else time_out_ L).

(** ** What the rest of the program asks of the loop

    Handlers, timers and queued functors register contexts, submit them, cancel
    a read, and release contexts that are not waiting; the loop itself arms the
    wake-up read, submits the ring and drains the waiting queue. *)
Inductive request :=
  | Register (p : nat) (c : IoContext)
  | Release (p : nat)
  | SubmitRead (p : nat)
  | SubmitWrite (p : nat)
  | SubmitAccept (p : nat)
  | SubmitCancel (p : nat)
  | ArmWakeup
  | SubmitRing
  | Drain.

Definition exec (r : request) (L : IoUringLoop) : result IoUringLoop :=
  match r with
  | Register p c => Ok (set_contexts (<[p := c]> (contexts L)) L)
  | Release p => Ok (set_contexts (delete p (contexts L)) L)
  | SubmitRead p => submitReadMultishut p L
  | SubmitWrite p => submitWriteMsg p L
  | SubmitAccept p => submitAcceptMultishut p L
  | SubmitCancel p => submitCancel p L
  | ArmWakeup => on_completion L
  | SubmitRing => Ok (submit_ring L)
  | Drain => doingSubmitWaitingTask L
  end.
Fixpoint execs (rs : list request) (L : IoUringLoop) : result IoUringLoop :=
  match rs with
  | [] => Ok L
  | r :: rs => L ← exec r L; execs rs L
  end.

(** One iteration of [loop()].  [cqes] are the completions the ring delivered
    (user data, result, flags); [on_timers], [on_cqe] and [on_functors] are what
    the timer callbacks, the handler of a completed context and the queued
    functors do in the state they run in. *)
Section iteration.
Context (on_timers : IoUringLoop -> list request).
Context (on_cqe : nat -> IoUringLoop -> list request).
Context (on_functors : IoUringLoop -> list request).

Definition dispatch (cqe : nat * Z * Z) (L : IoUringLoop) : result IoUringLoop :=
  let '(p, res, flags) := cqe in
  if (p =? 0)%nat then Ok L else
  c ← deref (contexts L) (Some p);
  let L := set_contexts (<[p := set_result res flags c]> (contexts L)) L in
  match type_ c with
  | Wakeup => on_completion L
  | _ => execs (on_cqe p L) L
  end.

Fixpoint dispatch_all (cqes : list (nat * Z * Z)) (L : IoUringLoop) : result IoUringLoop :=
  match cqes with
  | [] => Ok L
  | cqe :: cqes => L ← dispatch cqe L; dispatch_all cqes L
  end.

Definition loop_iteration (cqes : list (nat * Z * Z)) (L : IoUringLoop) : result IoUringLoop :=
  let L := submit_ring L in
  L ← execs (on_timers L) L;
  L ← dispatch_all cqes L;
  L ← doingSubmitWaitingTask L;
  execs (on_functors L) L.
End iteration.

#[local] Arguments prep : simpl never.

(** ** Lemmas *)

(** Everything placed in the ring since the start, in order. *)
Definition stream (L : IoUringLoop) : list Sqe := kernel L ++ sq_pending (ring_ L).

(** The parts of the state that taking an entry leaves alone. *)
Record same_rest (L L' : IoUringLoop) : Prop := {
  same_entries : sq_entries (ring_ L') = sq_entries (ring_ L);
  same_contexts : contexts L' = contexts L;
  same_mark : sqe_low_water_mark_ L' = sqe_low_water_mark_ L;
  same_waiting : waiting_submit_queue_ L' = waiting_submit_queue_ L;
  same_group : buf_group_id L' = buf_group_id L;
  same_fd : wakeup_fd_ L' = wakeup_fd_ L;
  same_self : self L' = self L;
  same_timeout : time_out_ L' = time_out_ L
}.

Lemma submit_ring_ok L : stream (submit_ring L) = stream L /\ same_rest L (submit_ring L).
Proof.
  unfold submit_ring, stream. pose proof (submit_prefix (ring_ L)) as Hp.
  pose proof (submit_entries (ring_ L)) as He. destruct (io_uring_submit (ring_ L)) as [d r]. simpl in *.
  split; [by rewrite Hp, app_assoc | by split].
Qed.

Lemma remainedSqe_spec L : remainedSqe L = sq_entries (ring_ L) - zlen (sq_pending (ring_ L)).
Proof. apply space_left_spec. Qed.

(** An entry that was obtained is the last of the pending ones. *)
Definition reserved (i : nat) (L L1 : IoUringLoop) : Prop :=
  exists pl old, sq_pending (ring_ L1) = pl ++ [old] /\ i = length pl /\
    kernel L1 ++ pl = stream L /\ same_rest L L1.

Lemma get_sqe_ok L :
  remainedSqe L <> 0 ->
  exists i r, io_uring_get_sqe (ring_ L) = Some (i, r) /\ reserved i L (set_ring r L) /\
    zlen (sq_pending r) = zlen (sq_pending (ring_ L)) + 1.
Proof.
  intros Hs. unfold remainedSqe in Hs. rewrite <- get_sqe_full in Hs.
  destruct (io_uring_get_sqe (ring_ L)) as [[i r]|] eqn:E; [|done].
  destruct (get_sqe_next _ _ _ E) as (Hi & He & old & Hp). exists i, r. split; [done|]. split.
  - exists (sq_pending (ring_ L)), old. split_and!; try done.
  - rewrite Hp. zlen_solve.
Qed.

Lemma getIoUringSqe_free L :
  remainedSqe L <> 0 ->
  exists i L1, getIoUringSqe false L = Ok (Some i, L1) /\ reserved i L L1 /\
    kernel L1 = kernel L /\ remainedSqe L1 = remainedSqe L - 1.
Proof.
  intros Hs. destruct (get_sqe_ok L Hs) as (i & r & Hg & Hr & Hl).
  unfold getIoUringSqe. rewrite Hg. exists i, (set_ring r L). split_and!; try done.
  rewrite !remainedSqe_spec. simpl. destruct (get_sqe_next _ _ _ Hg) as (_ & He & _). lia.
Qed.

Lemma prep_ok i s L L1 :
  reserved i L L1 ->
  exists L2, prep (Some i) s L1 = Ok L2 /\ stream L2 = stream L ++ [s] /\ same_rest L L2 /\
    kernel L2 = kernel L1 /\ remainedSqe L2 = remainedSqe L1.
Proof.
  intros (pl & old & Hp & -> & Hs & Hr). eexists. split; [done|].
  split_and!; try done.
  - unfold stream. simpl. rewrite sqe_write_pending, Hp, insert_app_r_alt by lia.
    rewrite Nat.sub_diag. simpl. by rewrite app_assoc, Hs.
  - destruct Hr. split; try done. simpl. by rewrite sqe_write_entries.
  - rewrite !remainedSqe_spec. simpl. rewrite sqe_write_entries, sqe_write_pending, zlen_insert. done.
Qed.

(** The entry of a context, as the three [_submit*] fill it. *)
Definition sqe_for (L : IoUringLoop) (p : nat) (c : IoContext) : Sqe :=
  match type_ c with
  | Read => mkSqe (RecvMultishot (fd_ c) (buf_group_id L)) p
  | Write => mkSqe (Writev (fd_ c) (temp_data_ c)) p
  | Accept => mkSqe (AcceptMultishot (fd_ c) p) p
  | Wakeup => mkSqe (ReadFd (fd_ c)) p
  end.

(** One more entry [s] in the ring, nothing else changed. *)
Record placed (s : Sqe) (L L' : IoUringLoop) : Prop := {
  placed_stream : stream L' = stream L ++ [s];
  placed_rest : same_rest L L';
  placed_kernel : kernel L' = kernel L;
  placed_remained : remainedSqe L' = remainedSqe L - 1
}.

Lemma place_ok (f : IoContext -> IoUringLoop -> Sqe) p c L :
  remainedSqe L <> 0 -> contexts L !! p = Some c ->
  (forall L', same_rest L L' -> f c L' = f c L) ->
  exists L', ('(sqe, L) ← getIoUringSqe false L;
     _ ← assert_ (bool_decide (sqe <> None));
     c ← deref (contexts L) (Some p);
     prep sqe (f c L) L) = Ok L' /\ placed (f c L) L L'.
Proof.
  intros Hs Hc Hf. destruct (getIoUringSqe_free L Hs) as (i & L1 & -> & Hr & Hk & Hm). simpl.
  pose proof Hr as (pl & old & _ & _ & _ & Hsr). rewrite (same_contexts _ _ Hsr), Hc. simpl.
  rewrite (Hf L1 Hsr). destruct (prep_ok i (f c L) L L1 Hr) as (L2 & -> & Hst & Hr2 & Hk2 & Hm2).
  exists L2. split; [done|]. split; try done; congruence.
Qed.

Lemma submit_by_type_ok p c L :
  remainedSqe L <> 0 -> contexts L !! p = Some c -> type_ c <> Wakeup ->
  exists L', submit_by_type p L = Ok L' /\ placed (sqe_for L p c) L L'.
Proof.
  intros Hs Hc Ht. unfold submit_by_type. simpl. rewrite Hc. simpl. unfold sqe_for.
  destruct (type_ c); [| | |done].
  - apply (place_ok (fun c L => mkSqe (RecvMultishot (fd_ c) (buf_group_id L)) p) p c L Hs Hc).
    intros L' Hr. by rewrite (same_group _ _ Hr).
  - by apply (place_ok (fun c L => mkSqe (Writev (fd_ c) (temp_data_ c)) p) p c L Hs Hc).
  - by apply (place_ok (fun c L => mkSqe (AcceptMultishot (fd_ c) p) p) p c L Hs Hc).
Qed.

(** The invariant of the submission side: a positive low-water mark, a ring with
    entries, and live, submittable contexts in the waiting queue. *)
Definition submittable (L : IoUringLoop) (p : nat) : Prop :=
  p <> 0%nat /\ exists c, contexts L !! p = Some c /\ type_ c <> Wakeup.
Record inv (L : IoUringLoop) : Prop := {
  inv_mark : 1 <= sqe_low_water_mark_ L;
  inv_entries : 1 <= sq_entries (ring_ L);
  inv_self : self L <> 0%nat;
  inv_waiting : Forall (submittable L) (waiting_submit_queue_ L)
}.

Lemma inv_same L L' : same_rest L L' -> inv L -> inv L'.
Proof.
  intros [? Hc ? Hw ? ? ? ?] [? ? ? H]. split; try congruence.
  rewrite Hw. eapply Forall_impl; [exact H|]. intros p [? (c & ? & ?)]. split; [done|].
  exists c. by rewrite Hc.
Qed.

(** ** Draining the waiting queue *)

Lemma submit_waiting_ok n : forall L,
  inv L ->
  let k := Nat.min n (Nat.min (length (waiting_submit_queue_ L))
             (Z.to_nat (remainedSqe L - sqe_low_water_mark_ L))) in
  exists L' ss, submit_waiting n L = Ok L' /\ inv L' /\
    waiting_submit_queue_ L' = drop k (waiting_submit_queue_ L) /\
    stream L' = stream L ++ ss /\
    Forall2 (fun p s => exists c, contexts L !! p = Some c /\ s = sqe_for L p c)
      (take k (waiting_submit_queue_ L)) ss /\
    kernel L' = kernel L /\ contexts L' = contexts L /\ sq_entries (ring_ L') = sq_entries (ring_ L) /\
    sqe_low_water_mark_ L' = sqe_low_water_mark_ L /\ self L' = self L.
Proof.
  induction n as [|n IH]; intros L H k.
  { exists L, []. by rewrite app_nil_r. }
  subst k. simpl. pose proof (inv_mark _ H) as Hm. destruct (waiting_submit_queue_ L) as [|p w] eqn:Ew.
  { exists L, []. rewrite app_nil_r, Ew. by destruct n. }
  destruct (Z.ltb_spec (sqe_low_water_mark_ L) (remainedSqe L)) as [Hlt|Hge].
  2:{ exists L, []. replace (Z.to_nat (remainedSqe L - sqe_low_water_mark_ L)) with 0%nat by lia.
      rewrite app_nil_r, Ew. simpl. done. }
  pose proof (inv_waiting _ H) as Hw. rewrite Ew in Hw. apply Forall_cons in Hw as [[Hp0 (c & Hc & Ht)] Hw].
  destruct (submit_by_type_ok p c L) as (L1 & -> & [Hst1 Hr1 Hk1 Hm1]); [lia|done|done|]. simpl.
  rewrite (same_waiting _ _ Hr1), Ew. simpl. set (L2 := set_waiting w L1).
  assert (H2 : inv L2).
  { destruct (inv_same _ _ Hr1 H) as [? ? ? Hw1]. split; try done. simpl.
    rewrite (same_waiting _ _ Hr1), Ew in Hw1. by apply Forall_cons in Hw1 as [_ Hw1]. }
  assert (Hr2 : remainedSqe L2 = remainedSqe L - 1) by exact Hm1.
  destruct (IH L2 H2) as (L' & ss & HL' & H' & Hw' & Hs' & Hf & Hk' & Hc' & He' & Hma' & Hse').
  exists L', (sqe_for L p c :: ss). split; [done|]. split; [done|].
  change (waiting_submit_queue_ L2) with w in *. rewrite Hr2 in *.
  change (sqe_low_water_mark_ L2) with (sqe_low_water_mark_ L1) in *. rewrite (same_mark _ _ Hr1) in *.
  replace (Z.to_nat (remainedSqe L - sqe_low_water_mark_ L)) with
    (S (Z.to_nat (remainedSqe L - 1 - sqe_low_water_mark_ L))) by lia. simpl.
  split_and!; try done.
  - rewrite Hs'. change (stream L2) with (stream L1). rewrite Hst1, <- app_assoc. done.
  - constructor; [by exists c|]. eapply Forall2_impl; [exact Hf|]. intros p' s' (c' & Hc'' & ->).
    exists c'. simpl in Hc''. rewrite (same_contexts _ _ Hr1) in Hc''. split; [done|].
    unfold sqe_for. simpl. by rewrite (same_group _ _ Hr1).
  - rewrite Hk'. exact Hk1.
  - rewrite Hc'. exact (same_contexts _ _ Hr1).
  - rewrite He'. exact (same_entries _ _ Hr1).
  - rewrite Hse'. exact (same_self _ _ Hr1).
Qed.

(** ** What a request can change

    The table of contexts changes only where it is told to, and what the kernel was
    given it keeps. *)
Record grows (L L' : IoUringLoop) : Prop := {
  grows_contexts : contexts L' = contexts L;
  grows_kernel : kernel L `prefix_of` kernel L'
}.

#[local] Instance grows_preorder : PreOrder grows.
Proof. split; [done|]. intros L1 L2 L3 [? ?] [? ?]. split; [congruence | by etrans]. Qed.

Lemma submit_ring_grows L : grows L (submit_ring L).
Proof. unfold submit_ring. destruct (io_uring_submit _). split; [done | by apply prefix_app_r]. Qed.

Lemma getIoUringSqe_grows b L s L' : getIoUringSqe b L = Ok (s, L') -> grows L L'.
Proof.
  unfold getIoUringSqe. intros H. pose proof (submit_ring_grows L) as [Hc Hk].
  destruct (io_uring_get_sqe (ring_ L)) as [[i r]|]; [by simplify_eq|]. destruct b; [|by simplify_eq].
  destruct (io_uring_get_sqe (ring_ (submit_ring L))) as [[i r]|]; [|done]. simplify_eq. by split.
Qed.

Lemma prep_grows sqe s L L' : prep sqe s L = Ok L' -> grows L L'.
Proof. unfold prep. destruct sqe; [|done]. intros [= <-]. done. Qed.

(** What every function that fills an entry does. *)
Definition fills (b : bool) (L L' : IoUringLoop) : Prop :=
  exists sqe s L1, getIoUringSqe b L = Ok (sqe, L1) /\ prep sqe s L1 = Ok L'.

Lemma fills_grows b L L' : fills b L L' -> grows L L'.
Proof. intros (sqe & s & L1 & Hg & Hp). etrans; [by eapply getIoUringSqe_grows | by eapply prep_grows]. Qed.

Lemma _submitReadMultishut_fills p L L' : _submitReadMultishut p L = Ok L' -> fills false L L'.
Proof.
  unfold _submitReadMultishut, fills. intros H. destruct (getIoUringSqe false L) as [[sqe L1]|]; [|done]. simpl in H.
  destruct (assert_ _); [|done]. simpl in H. destruct (contexts L1 !! p); [|done]. eauto.
Qed.
Lemma _submitWriteMsg_fills p L L' : _submitWriteMsg p L = Ok L' -> fills false L L'.
Proof.
  unfold _submitWriteMsg, fills. intros H. destruct (getIoUringSqe false L) as [[sqe L1]|]; [|done]. simpl in H.
  destruct (assert_ _); [|done]. simpl in H. destruct (contexts L1 !! p); [|done]. eauto.
Qed.
Lemma _submitAcceptMultishut_fills p L L' : _submitAcceptMultishut p L = Ok L' -> fills false L L'.
Proof.
  unfold _submitAcceptMultishut, fills. intros H. destruct (getIoUringSqe false L) as [[sqe L1]|]; [|done]. simpl in H.
  destruct (assert_ _); [|done]. simpl in H. destruct (contexts L1 !! p); [|done]. eauto.
Qed.
#[local] Hint Resolve _submitReadMultishut_fills _submitWriteMsg_fills _submitAcceptMultishut_fills fills_grows : core.

Lemma submit_waiting_grows n : forall L L', submit_waiting n L = Ok L' -> grows L L'.
Proof.
  induction n as [|n IH]; intros L L' H; simpl in H; [by simplify_eq|].
  destruct (waiting_submit_queue_ L) as [|p w]; [by simplify_eq|]. destruct (_ <? _); [|by simplify_eq].
  destruct (submit_by_type p L) as [L1|] eqn:E; [|done]. simpl in H. apply IH in H as [Hc Hk]. simpl in *.
  assert (grows L L1) as [Hc1 Hk1]; [|split; [congruence | by etrans]].
  unfold submit_by_type in E. simpl in E. destruct (contexts L !! p) as [c|]; [|done]. simpl in E.
  destruct (type_ c); [eauto..|by simplify_eq].
Qed.

Lemma on_completion_fills L L' : on_completion L = Ok L' -> fills true L L'.
Proof.
  unfold on_completion, fills. intros H. destruct (getIoUringSqe true L) as [[sqe L1]|]; [|done]. simpl in H.
  destruct (assert_ _); [|done]. simpl in H. destruct sqe; [|done]. eauto.
Qed.

Lemma submitCancel_fills p L L' : submitCancel p L = Ok L' -> exists L1, fills true L L1 /\ L' = submit_ring L1.
Proof.
  unfold submitCancel, fills. intros H. destruct (getIoUringSqe true L) as [[sqe L1]|]; [|done]. simpl in H.
  destruct (assert_ _); [|done]. simpl in H. destruct (prep _ _ _) as [L2|] eqn:E; [|done]. simpl in H. simplify_eq.
  eauto 10.
Qed.

(** A submission waits, or fills an entry. *)
Lemma submission_cases p (f : nat -> IoUringLoop -> result IoUringLoop) L L' :
  (forall L1, f p L = Ok L1 -> fills false L L1) ->
  (if remainedSqe L <? sqe_low_water_mark_ L then Ok (set_waiting (waiting_submit_queue_ L ++ [p]) L) else f p L) = Ok L' ->
  L' = set_waiting (waiting_submit_queue_ L ++ [p]) L \/ fills false L L'.
Proof. intros Hf H. destruct (_ <? _); [left; by simplify_eq | right; by apply Hf]. Qed.

(** What a request does. *)
Lemma exec_cases r L L' :
  exec r L = Ok L' ->
  match r with
  | Register p c => L' = set_contexts (<[p := c]> (contexts L)) L
  | Release p => L' = set_contexts (delete p (contexts L)) L
  | SubmitRead p | SubmitWrite p | SubmitAccept p =>
      L' = set_waiting (waiting_submit_queue_ L ++ [p]) L \/ fills false L L'
  | SubmitCancel p => exists L1, fills true L L1 /\ L' = submit_ring L1
  | ArmWakeup => fills true L L'
  | SubmitRing => L' = submit_ring L
  | Drain => submit_waiting max_process_per_loop L = Ok L'
  end.
Proof.
  destruct r; intros H; try (by apply Ok_inj in H).
  all: try (eapply submission_cases; [|exact H]; by eauto).
  - by eapply submitCancel_fills.
  - by apply on_completion_fills.
  - exact H.
Qed.

Lemma exec_frame r L L' :
  exec r L = Ok L' ->
  contexts L' = (match r with
                 | Register p c => <[p := c]> (contexts L)
                 | Release p => delete p (contexts L)
                 | _ => contexts L
                 end) /\ kernel L `prefix_of` kernel L'.
Proof.
  assert (Hg : grows L L' -> contexts L' = contexts L /\ kernel L `prefix_of` kernel L') by by intros [].
  intros H. apply exec_cases in H. destruct r; try (by subst L'); apply Hg.
  1-3: destruct H as [->|H]; [done | by eauto].
  - destruct H as (L1 & H & ->). etrans; [by eauto | apply submit_ring_grows].
  - by eauto.
  - subst L'. apply submit_ring_grows.
  - by eapply submit_waiting_grows.
Qed.

(** ** Requests are neither lost nor duplicated *)

(** The contexts asked for so far: those placed in the ring, then those that
    wait ([user_data] 0 marks an entry without a context). *)
Definition asked (L : IoUringLoop) : list nat :=
  filter (fun p => p <> 0%nat) (user_data <$> stream L) ++ waiting_submit_queue_ L.

Definition requested (self : nat) (r : request) : list nat :=
  match r with
  | SubmitRead p | SubmitWrite p | SubmitAccept p => [p]
  | ArmWakeup => [self]
  | _ => []
  end.

(** What callers respect: a context is live and of the right kind when it is
    submitted, and is neither released nor retyped while it waits. *)
Definition request_ok (L : IoUringLoop) (r : request) : Prop :=
  match r with
  | Register p c => p ∈ waiting_submit_queue_ L -> type_ c <> Wakeup
  | Release p => p ∉ waiting_submit_queue_ L
  | SubmitRead p => p <> 0%nat /\ exists c, contexts L !! p = Some c /\ type_ c = Read
  | SubmitWrite p => p <> 0%nat /\ exists c, contexts L !! p = Some c /\ type_ c = Write
  | SubmitAccept p => p <> 0%nat /\ exists c, contexts L !! p = Some c /\ type_ c = Accept
  | _ => True
  end.
Fixpoint requests_ok (L : IoUringLoop) (rs : list request) : Prop :=
  match rs with
  | [] => True
  | r :: rs => request_ok L r /\ forall L', exec r L = Ok L' -> requests_ok L' rs
  end.

(** The submission ring is full and [io_uring_submit] takes nothing from it: the
    case in which [getIoUringSqe] ends the program with [LOG_FATAL]. *)
Definition refused : Prop :=
  exists r, sq_pending r <> [] /\ io_uring_sq_space_left r = 0 /\ (io_uring_submit r).1 = [].

(** The operation succeeds with a result in [Q], or ends the program in that case;
    it fails in no other way. *)
Notation completes := (finishes refused).

Lemma getIoUringSqe_forced L :
  1 <= sq_entries (ring_ L) ->
  completes (getIoUringSqe true L) (fun x => exists i, x.1 = Some i /\ reserved i L x.2).
Proof.
  intros He. unfold getIoUringSqe. destruct (decide (remainedSqe L = 0)) as [Hz|Hz].
  - pose proof Hz as Hn. unfold remainedSqe in Hn. apply get_sqe_full in Hn. rewrite Hn.
    destruct (submit_ring_ok L) as [Hst Hr]. destruct (decide (remainedSqe (submit_ring L) = 0)) as [Hz2|Hz2].
    + pose proof Hz2 as Hn2. unfold remainedSqe in Hn2. apply get_sqe_full in Hn2. rewrite Hn2. right. split; [done|].
      exists (ring_ L). rewrite remainedSqe_spec in Hz, Hz2. rewrite (same_entries _ _ Hr) in Hz2.
      split; [intros E; rewrite E, zlen_nil in Hz; lia|]. split; [by apply get_sqe_full|].
      pose proof (submit_prefix (ring_ L)) as Hpre. unfold submit_ring in Hz2.
      destruct (io_uring_submit (ring_ L)) as [d r]. simpl in *. rewrite Hpre, zlen_app in Hz.
      destruct d as [|x d]; [done|]. rewrite zlen_cons in Hz. pose proof (zlen_nonneg d). lia.
    + destruct (get_sqe_ok _ Hz2) as (i & r & -> & (pl & old & Hp & Hi & Hs & Hr2) & _).
      apply finishes_ok. exists i. split; [done|]. cbn [snd]. exists pl, old. split_and!; try done; [congruence|].
      destruct Hr, Hr2. split; simpl in *; congruence.
  - destruct (get_sqe_ok L Hz) as (i & r & Hg & Hr & _). rewrite Hg. apply finishes_ok. by exists i.
Qed.

Lemma submit_ok p c L (f : nat -> IoUringLoop -> result IoUringLoop) :
  inv L -> submittable L p -> contexts L !! p = Some c ->
  (remainedSqe L <> 0 -> exists L', f p L = Ok L' /\ placed (sqe_for L p c) L L') ->
  exists L', (if remainedSqe L <? sqe_low_water_mark_ L
              then Ok (set_waiting (waiting_submit_queue_ L ++ [p]) L) else f p L) = Ok L' /\
    inv L' /\ asked L' ≡ₚ asked L ++ [p] /\ self L' = self L /\ contexts L' = contexts L.
Proof.
  intros H Hp Hc Hf. destruct (Z.ltb_spec (remainedSqe L) (sqe_low_water_mark_ L)) as [Hlt|Hge].
  - eexists. split; [done|]. split; [|split; [|done]].
    + destruct H as [? ? ? Hw]. split; try done. simpl. apply Forall_app. split; [done|]. by constructor.
    + unfold asked, stream. simpl. by rewrite app_assoc.
  - pose proof (inv_mark _ H). destruct Hf as (L' & HL' & [Hs Hr _ _]); [lia|]. exists L'.
    split; [done|]. split; [by eapply inv_same|].
    split; [|split; [by rewrite (same_self _ _ Hr) | by rewrite (same_contexts _ _ Hr)]].
    unfold asked. rewrite Hs, (same_waiting _ _ Hr), fmap_app, filter_app. simpl.
    assert (user_data (sqe_for L p c) = p) as -> by (unfold sqe_for; by destruct (type_ c)).
    rewrite filter_cons_True by by destruct Hp. rewrite filter_nil.
    rewrite <- !app_assoc. f_equiv. apply Permutation_app_comm.
Qed.

Lemma asked_ignored s L L2 :
  user_data s = 0%nat -> stream L2 = stream L ++ [s] -> same_rest L L2 -> asked L2 = asked L.
Proof.
  intros Hu Hs Hr. unfold asked. rewrite Hs, (same_waiting _ _ Hr), fmap_app, filter_app. simpl.
  rewrite Hu, filter_cons_False by (intros Hn; by apply Hn). by rewrite filter_nil, app_nil_r.
Qed.

Lemma same_rest_trans L1 L2 L3 : same_rest L1 L2 -> same_rest L2 L3 -> same_rest L1 L3.
Proof. intros [] []. split; congruence. Qed.

(** A request keeps the contexts it does not release. *)
Definition keeps (rs : list request) (L L' : IoUringLoop) : Prop :=
  forall p, Release p ∉ rs -> is_Some (contexts L !! p) -> is_Some (contexts L' !! p).

Lemma keeps_same rs L L' : contexts L' = contexts L -> keeps rs L L'.
Proof. intros Hc p _. by rewrite Hc. Qed.

(** Requests that only change the table of contexts. *)
Lemma register_ok p c L :
  inv L -> (p ∈ waiting_submit_queue_ L -> type_ c <> Wakeup) ->
  exists L', Ok (set_contexts (<[p := c]> (contexts L)) L) = Ok L' /\ inv L' /\
    asked L' ≡ₚ asked L ++ [] /\ self L' = self L /\ keeps [Register p c] L L'.
Proof.
  intros H Hr. eexists. split; [done|]. rewrite app_nil_r. split_and!; try done.
  - destruct H as [? ? ? Hw]. split; try done.
    simpl. rewrite Forall_forall in *. intros q Hq. destruct (Hw q Hq) as [? (c' & Hc' & ?)]. split; [done|].
    simpl. destruct (decide (q = p)) as [->|].
    + exists c. rewrite lookup_insert_eq. auto.
    + exists c'. by rewrite lookup_insert_ne.
  - intros q _ Hq. simpl. destruct (decide (q = p)) as [->|]; [by rewrite lookup_insert_eq; eauto|].
    by rewrite lookup_insert_ne.
Qed.

Lemma release_ok p L :
  inv L -> p ∉ waiting_submit_queue_ L ->
  exists L', Ok (set_contexts (delete p (contexts L)) L) = Ok L' /\ inv L' /\
    asked L' ≡ₚ asked L ++ [] /\ self L' = self L /\ keeps [Release p] L L'.
Proof.
  intros H Hr. eexists. split; [done|]. rewrite app_nil_r. split_and!; try done.
  - destruct H as [? ? ? Hw]. split; try done.
    simpl. rewrite Forall_forall in *. intros q Hq. destruct (Hw q Hq) as [? (c' & Hc' & ?)]. split; [done|].
    exists c'. simpl. rewrite lookup_delete_ne; [done|]. by intros ->.
  - intros q Hn Hq. simpl. rewrite lookup_delete_ne; [done|]. intros ->. set_solver.
Qed.

Lemma submitCancel_ok p L :
  inv L ->
  completes (submitCancel p L) (fun L' => inv L' /\ asked L' ≡ₚ asked L ++ [] /\
    self L' = self L /\ keeps [SubmitCancel p] L L').
Proof.
  intros H. unfold submitCancel. eapply finishes_bind; [apply (getIoUringSqe_forced L (inv_entries _ H))|].
  intros [sqe L1] _ (i & Hi & Hres). simpl in Hi, Hres. subst sqe. cbn [assert_ mbind result_bind].
  destruct (prep_ok i (mkSqe (AsyncCancel p) 0%nat) L L1 Hres) as (L2 & HL2 & Hs2 & Hr2 & _).
  apply finishes_ok. injection HL2 as HL2. rewrite HL2. clear HL2. destruct (submit_ring_ok L2) as [Hs3 Hr3].
  pose proof (same_rest_trans _ _ _ Hr2 Hr3) as Hr4. rewrite app_nil_r.
  split; [by eapply inv_same|]. split; [|split; [by rewrite (same_self _ _ Hr4)|]].
  - rewrite (asked_ignored (mkSqe (AsyncCancel p) 0%nat) L (submit_ring L2)); [done|done|congruence|done].
  - apply keeps_same, (same_contexts _ _ Hr4).
Qed.

Lemma on_completion_ok L :
  inv L ->
  completes (on_completion L) (fun L' => inv L' /\ asked L' ≡ₚ asked L ++ [self L] /\
    self L' = self L /\ keeps [ArmWakeup] L L').
Proof.
  intros H. unfold on_completion. eapply finishes_bind; [apply (getIoUringSqe_forced L (inv_entries _ H))|].
  intros [sqe L1] _ (i & Hi & Hres). simpl in Hi, Hres. subst sqe. cbn [assert_ mbind result_bind].
  pose proof Hres as (_ & _ & _ & _ & _ & Hr1). rewrite (same_fd _ _ Hr1), (same_self _ _ Hr1).
  destruct (prep_ok i (mkSqe (ReadFd (wakeup_fd_ L)) (self L)) L L1 Hres) as (L2 & -> & Hs2 & Hr2 & _).
  apply finishes_ok. split; [by eapply inv_same|].
  split; [|split; [by rewrite (same_self _ _ Hr2) | apply keeps_same, (same_contexts _ _ Hr2)]].
  unfold asked. rewrite Hs2, (same_waiting _ _ Hr2), fmap_app, filter_app. simpl.
  rewrite filter_cons_True by apply (inv_self _ H). rewrite filter_nil, <- !app_assoc. f_equiv.
  apply Permutation_app_comm.
Qed.

Lemma drain_ok L :
  inv L ->
  exists L', doingSubmitWaitingTask L = Ok L' /\ inv L' /\ asked L' ≡ₚ asked L ++ [] /\
    self L' = self L /\ keeps [Drain] L L'.
Proof.
  intros H. unfold doingSubmitWaitingTask.
  destruct (submit_waiting_ok max_process_per_loop L H) as (L' & ss & -> & H' & Hw & Hs & Hf & _ & Hc & _ & _ & Hse).
  exists L'. split; [done|]. split; [done|]. split; [|split; [done | by apply keeps_same]].
  rewrite app_nil_r. unfold asked. rewrite Hs, Hw, fmap_app, filter_app, <- app_assoc. f_equiv.
  set (k := Nat.min _ _) in *. clearbody k.
  assert (Hu : user_data <$> ss = take k (waiting_submit_queue_ L)).
  { clear -Hf. induction Hf as [|p s ps ss (c & _ & ->) _ IH]; [done|]. rewrite fmap_cons, IH. f_equal.
    unfold sqe_for. by destruct (type_ c). }
  rewrite Hu, filter_keep; [by rewrite take_drop|]. apply Forall_take.
  eapply Forall_impl; [apply (inv_waiting _ H)|]. by intros q [? _].
Qed.

Lemma exec_ok r L :
  inv L -> request_ok L r ->
  completes (exec r L) (fun L' => inv L' /\ asked L' ≡ₚ asked L ++ requested (self L) r /\
    self L' = self L /\ keeps [r] L L').
Proof.
  assert (Hsub : forall p c f, inv L -> submittable L p -> contexts L !! p = Some c ->
    (remainedSqe L <> 0 -> exists L', f p L = Ok L' /\ placed (sqe_for L p c) L L') ->
    exists L', (if remainedSqe L <? sqe_low_water_mark_ L
                then Ok (set_waiting (waiting_submit_queue_ L ++ [p]) L) else f p L) = Ok L' /\
      inv L' /\ asked L' ≡ₚ asked L ++ [p] /\ self L' = self L /\ keeps [r] L L').
  { intros p c f H Hp Hc Hf. destruct (submit_ok p c L f H Hp Hc Hf) as (L' & ? & ? & ? & ? & ?).
    exists L'. split_and!; try done. by apply keeps_same. }
  intros H Hr. destruct r as [p c|p|p|p|p|p| | |]; simpl in *.
  - left. by apply register_ok.
  - left. by apply release_ok.
  - destruct Hr as [Hp (c & Hc & Ht)]. left. apply (Hsub p c _submitReadMultishut H); [|done|].
    + split; [done|]. exists c. by rewrite Ht.
    + intros Hz. unfold sqe_for. rewrite Ht.
      apply (place_ok (fun c L => mkSqe (RecvMultishot (fd_ c) (buf_group_id L)) p) p c L Hz Hc).
      intros L' Hr. by rewrite (same_group _ _ Hr).
  - destruct Hr as [Hp (c & Hc & Ht)]. left. apply (Hsub p c _submitWriteMsg H); [|done|].
    + split; [done|]. exists c. by rewrite Ht.
    + intros Hz. unfold sqe_for. rewrite Ht.
      by apply (place_ok (fun c L => mkSqe (Writev (fd_ c) (temp_data_ c)) p) p c L Hz Hc).
  - destruct Hr as [Hp (c & Hc & Ht)]. left. apply (Hsub p c _submitAcceptMultishut H); [|done|].
    + split; [done|]. exists c. by rewrite Ht.
    + intros Hz. unfold sqe_for. rewrite Ht.
      by apply (place_ok (fun c L => mkSqe (AcceptMultishot (fd_ c) p) p) p c L Hz Hc).
  - apply submitCancel_ok; done.
  - apply on_completion_ok; done.
  - destruct (submit_ring_ok L) as [Hs3 Hr3]. apply finishes_ok. rewrite app_nil_r.
    split; [by eapply inv_same|]. split; [|split; [by rewrite (same_self _ _ Hr3)|]].
    + unfold asked. by rewrite Hs3, (same_waiting _ _ Hr3).
    + apply keeps_same, (same_contexts _ _ Hr3).
  - left. by apply drain_ok.
Qed.

Lemma execs_ok rs : forall L,
  inv L -> requests_ok L rs ->
  completes (execs rs L) (fun L' => inv L' /\
    asked L' ≡ₚ asked L ++ concat (requested (self L) <$> rs) /\ self L' = self L /\ keeps rs L L').
Proof.
  induction rs as [|r rs IH]; intros L H Hok; cbn [execs fmap list_fmap concat].
  - apply finishes_ok. rewrite app_nil_r. split_and!; try done. by apply keeps_same.
  - destruct Hok as [Hr Hrs]. eapply finishes_bind; [exact (exec_ok r L H Hr)|].
    intros L1 HL1 (H1 & Ha1 & Hs1 & Hk1). eapply finishes_mono; [exact (IH L1 H1 (Hrs _ HL1))|].
    intros L' _ (H' & Ha' & Hs' & Hk'). split_and!; try done; [|congruence|].
    + rewrite Ha', Ha1, Hs1. by rewrite <- app_assoc.
    + intros p Hp Hs. apply Hk'; [set_solver|]. apply Hk1; [set_solver|done].
Qed.

(** ** One iteration of the loop *)

Definition cqes_live (cqes : list (nat * Z * Z)) (L : IoUringLoop) : Prop :=
  Forall (fun x => x.1.1 = 0%nat \/ is_Some (contexts L !! x.1.1)) cqes.

(** Code that runs inside an iteration: its requests are in order, and it does
    not release a context the batch still has a completion for. *)
Definition well_behaved (cqes : list (nat * Z * Z)) (rs : IoUringLoop -> list request) : Prop :=
  forall L, inv L -> requests_ok L (rs L) /\ forall x, x ∈ cqes -> Release x.1.1 ∉ rs L.

Lemma keeps_live cqes rs L L' :
  keeps rs L L' -> (forall x, x ∈ cqes -> Release x.1.1 ∉ rs) -> cqes_live cqes L -> cqes_live cqes L'.
Proof.
  intros Hk Hr Hl. unfold cqes_live in *. rewrite Forall_forall in *. intros x Hx.
  destruct (Hl x Hx) as [?|Hs]; [by left|]. right. apply Hk; [by apply Hr | done].
Qed.

Lemma dispatch_all_ok on_cqe cqes : forall L,
  (forall p, well_behaved cqes (on_cqe p)) -> inv L -> cqes_live cqes L ->
  completes (dispatch_all on_cqe cqes L) (fun L' => inv L' /\ exists new, asked L' ≡ₚ asked L ++ new).
Proof.
  induction cqes as [|[[p res] flags] cqes IH]; intros L Hh H Hl; cbn [dispatch_all dispatch].
  { apply finishes_ok. split; [done|]. exists []. by rewrite app_nil_r. }
  assert (Hh' : forall p, well_behaved cqes (on_cqe p)).
  { intros q L0 H0. destruct (Hh q L0 H0) as [? Hrel]. split; [done|]. intros x Hx. apply Hrel. set_solver. }
  apply Forall_cons in Hl as [Hp Hl]. simpl in Hp. unfold dispatch.
  destruct (Nat.eqb_spec p 0) as [->|Hp0]; [by apply IH|].
  destruct Hp as [?|[c Hc]]; [done|]. unfold deref. rewrite Hc. cbn [mbind result_bind].
  set (L1 := set_contexts _ L).
  destruct (register_ok p (set_result res flags c) L H) as (L1' & HL1 & H1 & Ha1 & Hs1 & Hk1).
  { intros Hw. pose proof (inv_waiting _ H) as Hi. rewrite Forall_forall in Hi.
    destruct (Hi p Hw) as [_ (c' & Hc' & ?)]. by simplify_eq. }
  injection HL1 as HL1. fold L1 in HL1. subst L1'. rewrite app_nil_r in Ha1.
  assert (Hl1 : cqes_live cqes L1) by (eapply keeps_live; [exact Hk1 | | done]; set_solver).
  eapply (finishes_bind refused _ _ (fun L2 => inv L2 /\ (exists n1, asked L2 ≡ₚ asked L1 ++ n1) /\ cqes_live cqes L2)).
  { destruct (Hh' p L1 H1) as [Hok Hrel]. destruct (type_ c).
    all: first [ eapply finishes_mono; [exact (on_completion_ok L1 H1)|];
                 intros L3 _ (H3 & Ha3 & _ & Hk3); pose proof (keeps_live cqes _ _ _ Hk3 ltac:(set_solver) Hl1)
               | eapply finishes_mono; [exact (execs_ok _ L1 H1 Hok)|];
                 intros L2 _ (H2 & Ha2 & _ & Hk2); pose proof (keeps_live cqes _ _ _ Hk2 Hrel Hl1) ]; eauto. }
  intros L2 _ (H2 & (n1 & Ha2) & Hl2). eapply finishes_mono; [exact (IH L2 Hh' H2 Hl2)|].
  intros L' _ (H' & n2 & Ha'). split; [done|]. exists (n1 ++ n2). by rewrite Ha', Ha2, Ha1, app_assoc.
Qed.

Lemma iteration_ok on_timers on_cqe on_functors cqes L :
  inv L -> cqes_live cqes L -> well_behaved cqes on_timers ->
  (forall p, well_behaved cqes (on_cqe p)) -> well_behaved cqes on_functors ->
  completes (loop_iteration on_timers on_cqe on_functors cqes L)
    (fun L' => inv L' /\ exists new, asked L' ≡ₚ asked L ++ new).
Proof.
  intros H Hl Ht Hc Hf. unfold loop_iteration. destruct (submit_ring_ok L) as [Hs0 Hr0].
  set (L0 := submit_ring L) in *. pose proof (inv_same _ _ Hr0 H) as H0.
  assert (Ha0 : asked L0 = asked L) by (unfold asked; by rewrite Hs0, (same_waiting _ _ Hr0)).
  destruct (Ht L0 H0) as [Hok Hrel]. eapply finishes_bind; [exact (execs_ok _ L0 H0 Hok)|].
  intros L1 _ (H1 & Ha1 & _ & Hk1).
  assert (Hl0 : cqes_live cqes L0).
  { eapply (keeps_live cqes []); [apply keeps_same, (same_contexts _ _ Hr0) | set_solver | done]. }
  pose proof (keeps_live cqes _ _ _ Hk1 Hrel Hl0) as Hl1.
  eapply finishes_bind; [exact (dispatch_all_ok on_cqe cqes L1 Hc H1 Hl1)|]. intros L2 _ (H2 & n2 & Ha2).
  destruct (drain_ok L2 H2) as (L3 & HL3 & H3 & Ha3 & _). rewrite HL3, app_nil_r in *. cbn [mbind result_bind].
  destruct (Hf L3 H3) as [Hok3 _]. eapply finishes_mono; [exact (execs_ok _ L3 H3 Hok3)|].
  intros L4 _ (H4 & Ha4 & _). split; [done|]. eexists. rewrite Ha4, Ha3, Ha2, Ha1, Ha0, <- !app_assoc. reflexivity.
Qed.

(** C11. Whatever requests in order the rest of the program makes of the loop, and
    however full the submission ring is, with a low-water mark of at least 1
    (part of [inv]) no assertion on a missing entry fails: the requests succeed, and
    each context that was submitted is in the ring exactly once or still in the
    waiting queue, so that back-pressure neither loses nor duplicates a request.
    The one other outcome is [LOG_FATAL], when [io_uring_submit] takes nothing from
    a full ring. *)
Theorem requests_conserved rs L :
  inv L -> requests_ok L rs ->
  completes (execs rs L) (fun L' => inv L' /\
    asked L' ≡ₚ asked L ++ concat (requested (self L) <$> rs)).
Proof.
  intros H Hok. eapply finishes_mono; [exact (execs_ok rs L H Hok)|]. by intros L' _ (? & ? & _).
Qed.

(** C14. An iteration of [loop()] completes with the invariant restored for any
    batch of completions on live contexts and any handlers, timers and functors
    whose requests are in order (submitted contexts are live and of the right kind,
    none is released while it waits or while the batch has a completion for it);
    what was submitted before is still accounted for.  The one other outcome is
    [LOG_FATAL], when [io_uring_submit] takes nothing from a full ring. *)
Theorem loop_iteration_safe on_timers on_cqe on_functors cqes L :
  inv L -> cqes_live cqes L -> well_behaved cqes on_timers ->
  (forall p, well_behaved cqes (on_cqe p)) -> well_behaved cqes on_functors ->
  completes (loop_iteration on_timers on_cqe on_functors cqes L)
    (fun L' => inv L' /\ exists new, asked L' ≡ₚ asked L ++ new).
Proof. apply iteration_ok. Qed.

(** [doingSubmitWaitingTask] moves the oldest waiting contexts into the ring,
    in order, each with the entry for its kind: as many as are waiting, up to
    100, and no more than leave [sqe_low_water_mark_] entries free. *)
Theorem doingSubmitWaitingTask_correct L :
  inv L ->
  let k := Nat.min 100 (Nat.min (length (waiting_submit_queue_ L))
             (Z.to_nat (remainedSqe L - sqe_low_water_mark_ L))) in
  exists L' ss, doingSubmitWaitingTask L = Ok L' /\
    waiting_submit_queue_ L' = drop k (waiting_submit_queue_ L) /\
    sq_pending (ring_ L') = sq_pending (ring_ L) ++ ss /\
    Forall2 (fun p s => exists c, contexts L !! p = Some c /\ s = sqe_for L p c)
      (take k (waiting_submit_queue_ L)) ss /\
    (k <> 0%nat -> sqe_low_water_mark_ L <= remainedSqe L').
Proof.
  intros H k. destruct (submit_waiting_ok max_process_per_loop L H)
    as (L' & ss & HL' & _ & Hw & Hs & Hf & Hk & _ & He & _). change max_process_per_loop with 100%nat in *. fold k in Hw, Hf.
  exists L', ss. unfold stream in Hs. rewrite Hk, <- app_assoc in Hs. apply app_inv_head in Hs.
  split_and!; try done. intros Hk0. rewrite remainedSqe_spec, Hs, He, zlen_app.
  assert (zlen ss = Z.of_nat k) as ->.
  { unfold zlen. rewrite <- (Forall2_length _ _ _ Hf), length_take. subst k. lia. }
  pose proof (remainedSqe_spec L). subst k. lia.
Qed.

(** ** The waiting queue is served *)

(** From [L] to [L'] at most [n] entries are added to the ring, and what is new in
    the waiting queue is at its end. *)
Record queues (n : nat) (L L' : IoUringLoop) : Prop := {
  queues_waiting : waiting_submit_queue_ L `prefix_of` waiting_submit_queue_ L';
  queues_entries : sq_entries (ring_ L') = sq_entries (ring_ L);
  queues_mark : sqe_low_water_mark_ L' = sqe_low_water_mark_ L;
  queues_pending : zlen (sq_pending (ring_ L')) <= zlen (sq_pending (ring_ L)) + Z.of_nat n
}.

Lemma queues_refl n L : queues n L L.
Proof. split; try done. lia. Qed.

Lemma queues_trans n m L1 L2 L3 : queues n L1 L2 -> queues m L2 L3 -> queues (n + m) L1 L3.
Proof. intros [] []. split; [by etrans | congruence.. | lia]. Qed.

Lemma queues_weaken n m L L' : (n <= m)%nat -> queues n L L' -> queues m L L'.
Proof. intros ? []. split; try done. lia. Qed.

Lemma submit_ring_queues L : queues 0 L (submit_ring L).
Proof.
  destruct (submit_ring_ok L) as [_ Hr].
  split; [by rewrite (same_waiting _ _ Hr) | apply (same_entries _ _ Hr) | apply (same_mark _ _ Hr)|].
  unfold submit_ring. pose proof (submit_prefix (ring_ L)) as Hp. destruct (io_uring_submit (ring_ L)) as [d r].
  simpl in *. rewrite Hp, zlen_app. pose proof (zlen_nonneg d). lia.
Qed.

Lemma get_sqe_queues L i r : io_uring_get_sqe (ring_ L) = Some (i, r) -> queues 1 L (set_ring r L).
Proof.
  intros H. apply get_sqe_next in H as (_ & He & old & Hp). split; try done. simpl. rewrite Hp, zlen_app.
  unfold zlen. simpl. lia.
Qed.

Lemma fills_queues b L L' : fills b L L' -> queues 1 L L'.
Proof.
  intros (sqe & s & L1 & Hg & Hp). apply (queues_trans 1 0 L L1).
  - unfold getIoUringSqe in Hg. destruct (io_uring_get_sqe (ring_ L)) as [[i r]|] eqn:E.
    { apply get_sqe_queues in E. by simplify_eq. }
    destruct b; [|simplify_eq; apply queues_refl].
    destruct (io_uring_get_sqe (ring_ (submit_ring L))) as [[i r]|] eqn:E2; [|done]. simplify_eq.
    apply (queues_trans 0 1 L (submit_ring L)); [apply submit_ring_queues | by apply get_sqe_queues in E2].
  - unfold prep in Hp. destruct sqe as [i|]; [|done]. simplify_eq. split; simpl; try done.
    + apply sqe_write_entries.
    + rewrite sqe_write_pending. unfold zlen. rewrite length_insert. lia.
Qed.

Lemma exec_queues r L L' : r <> Drain -> exec r L = Ok L' -> queues 1 L L'.
Proof.
  intros Hr H. apply exec_cases in H.
  destruct r; try done; try (by eapply fills_queues).
  1-2: subst L'; split; simpl; done || lia.
  1-3: destruct H as [->|H]; [|by eapply fills_queues]; split; simpl; try done; [by apply prefix_app_r | lia].
  - destruct H as (L1 & H & ->). apply (queues_trans 1 0 L L1); [by eapply fills_queues | apply submit_ring_queues].
  - subst L'. eapply queues_weaken, submit_ring_queues. lia.
Qed.

Lemma execs_queues rs : forall L L', Drain ∉ rs -> execs rs L = Ok L' -> queues (length rs) L L'.
Proof.
  induction rs as [|r rs IH]; intros L L' Hd H; cbn [execs] in H; [simplify_eq; apply queues_refl|].
  apply not_elem_of_cons in Hd as [Hr Hd]. destruct (exec r L) as [L1|] eqn:E; [|done]. cbn [mbind result_bind] in H.
  apply (queues_trans 1 (length rs) L L1); [by eapply exec_queues | by apply IH].
Qed.

(** At most [m] requests; the queue is left to the loop. *)
Definition modest (m : nat) (rs : IoUringLoop -> list request) : Prop :=
  forall L, (length (rs L) <= m)%nat /\ Drain ∉ rs L.

Lemma modest_queues m rs L L' : modest m rs -> execs (rs L) L = Ok L' -> queues m L L'.
Proof. intros Hm H. destruct (Hm L) as [Hl Hd]. eapply queues_weaken; [exact Hl | by apply execs_queues]. Qed.

Lemma dispatch_all_queues m on_cqe cqes : forall L L',
  (1 <= m)%nat -> (forall p, modest m (on_cqe p)) -> dispatch_all on_cqe cqes L = Ok L' ->
  queues (m * length cqes) L L'.
Proof.
  induction cqes as [|[[p res] flags] cqes IH]; intros L L' H1 Hm H; cbn [dispatch_all] in H.
  { simplify_eq. apply queues_refl. }
  destruct (dispatch _ _ _) as [L1|] eqn:E; [|done]. cbn [mbind result_bind] in H.
  cbn [length]. rewrite Nat.mul_succ_r, Nat.add_comm. apply (queues_trans m _ L L1); [|by apply IH].
  unfold dispatch in E. destruct (p =? 0)%nat; [simplify_eq; apply queues_refl|].
  unfold deref in E. destruct (contexts L !! p) as [c|]; [|done]. cbn [mbind result_bind] in E.
  set (L0 := set_contexts _ L) in E. assert (queues m L0 L1) as [] by (
    destruct (type_ c); try (by eapply modest_queues; [apply Hm|]); eapply queues_weaken; [exact H1|];
    by eapply fills_queues, on_completion_fills).
  by split.
Qed.

Lemma fills_waiting b L L' : fills b L L' -> waiting_submit_queue_ L' = waiting_submit_queue_ L.
Proof.
  intros (sqe & s & L1 & Hg & Hp). assert (waiting_submit_queue_ L' = waiting_submit_queue_ L1) as ->.
  { unfold prep in Hp. destruct sqe; [|done]. by simplify_eq. }
  unfold getIoUringSqe in Hg. destruct (io_uring_get_sqe (ring_ L)) as [[i r]|]; [by simplify_eq|].
  destruct b; [|by simplify_eq]. destruct (submit_ring_ok L) as [_ Hr].
  destruct (io_uring_get_sqe (ring_ (submit_ring L))) as [[i r]|]; [|done]. simplify_eq. apply (same_waiting _ _ Hr).
Qed.

(** The drain takes contexts off the front, and one at least when there is room. *)
Lemma submit_waiting_serves n : forall L L',
  submit_waiting n L = Ok L' ->
  exists k, waiting_submit_queue_ L' = drop k (waiting_submit_queue_ L) /\
    (k <= length (waiting_submit_queue_ L))%nat /\
    (n <> 0%nat -> sqe_low_water_mark_ L < remainedSqe L -> (Nat.min 1 (length (waiting_submit_queue_ L)) <= k)%nat).
Proof.
  induction n as [|n IH]; intros L L' H; cbn [submit_waiting] in H.
  { simplify_eq. exists 0%nat. split_and!; [done | lia | done]. }
  destruct (waiting_submit_queue_ L) as [|p w] eqn:Ew; [simplify_eq; exists 0%nat; rewrite Ew; simpl; split_and!; done || lia|].
  destruct (Z.ltb_spec (sqe_low_water_mark_ L) (remainedSqe L)) as [Hlt|Hge].
  2: { simplify_eq. exists 0%nat. rewrite Ew. split_and!; [done | lia | lia]. }
  destruct (submit_by_type p L) as [L1|] eqn:E; [|done]. cbn [mbind result_bind] in H.
  assert (Hw : waiting_submit_queue_ L1 = p :: w).
  { rewrite <- Ew. unfold submit_by_type in E. unfold deref in E. destruct (contexts L !! p) as [c|]; [|done].
    cbn [mbind result_bind] in E. destruct (type_ c); try (eapply fills_waiting; by eauto). by simplify_eq. }
  apply IH in H as (k & Hk & Hkl & _). cbn [set_waiting waiting_submit_queue_] in Hk, Hkl. rewrite Hw in Hk, Hkl.
  cbn [tail] in Hk, Hkl. exists (S k). split_and!; [done | simpl; lia | simpl; lia].
Qed.

(** What happens in an iteration: the completions delivered, and what the timers, the
    handlers and the functors ask for. *)
Record round := mkRound {
  timers : IoUringLoop -> list request;
  handlers : nat -> IoUringLoop -> list request;
  functors : IoUringLoop -> list request;
  batch : list (nat * Z * Z)
}.
Definition iterate (rd : round) (L : IoUringLoop) : result IoUringLoop :=
  loop_iteration (timers rd) (handlers rd) (functors rd) (batch rd) L.

Fixpoint iterates (rds : list round) (L : IoUringLoop) : result IoUringLoop :=
  match rds with
  | [] => Ok L
  | rd :: rds => L ← iterate rd L; iterates rds L
  end.

(** The iteration is in order, and its timers and handlers, with at most [m] requests
    each, leave an entry above the mark. *)
Definition moderate (m : nat) (L : IoUringLoop) (rd : round) : Prop :=
  cqes_live (batch rd) L /\ well_behaved (batch rd) (timers rd) /\
  (forall p, well_behaved (batch rd) (handlers rd p)) /\ well_behaved (batch rd) (functors rd) /\
  modest m (timers rd) /\ (forall p, modest m (handlers rd p)) /\ (exists k, modest k (functors rd)) /\
  Z.of_nat (m * S (length (batch rd))) < sq_entries (ring_ L) - sqe_low_water_mark_ L.

(** The kernel takes whatever is submitted. *)
Definition takes_all : Prop := forall r, sq_pending (io_uring_submit r).2 = [].

Lemma takes_all_ok {A} (r : result A) Q : takes_all -> completes r Q -> exists x, r = Ok x /\ Q x.
Proof.
  intros Ht [?|[_ (r0 & Hne & _ & Hs)]]; [done|]. pose proof (submit_prefix r0) as Hp.
  by rewrite Hs, (Ht r0) in Hp.
Qed.

Lemma submit_ring_empty L : takes_all -> sq_pending (ring_ (submit_ring L)) = [].
Proof. intros Ht. unfold submit_ring. pose proof (Ht (ring_ L)). by destruct (io_uring_submit (ring_ L)). Qed.

(** An iteration takes at least one context off a queue that is not empty. *)
Lemma iterate_serves m rd L :
  (1 <= m)%nat -> takes_all -> inv L -> moderate m L rd ->
  exists L' k new, iterate rd L = Ok L' /\ inv L' /\ (exists more, asked L' ≡ₚ asked L ++ more) /\
    waiting_submit_queue_ L' = drop k (waiting_submit_queue_ L ++ new) /\
    (Nat.min 1 (length (waiting_submit_queue_ L)) <= k <= length (waiting_submit_queue_ L ++ new))%nat.
Proof.
  intros H1 Ht H (Hl & Ww & Wh & Wf & Mt & Mh & [mf Mf] & Hroom).
  destruct (takes_all_ok _ _ Ht (iteration_ok _ _ _ _ L H Hl Ww Wh Wf)) as (L' & HL' & H' & Ha).
  change (iterate rd L = Ok L') in HL'. pose proof HL' as HL. unfold iterate, loop_iteration in HL.
  pose proof (submit_ring_queues L) as Q0. pose proof (submit_ring_empty L Ht) as Hz. set (L0 := submit_ring L) in *.
  destruct (execs (timers rd L0) L0) as [L1|] eqn:E1; [|done]. cbn [mbind result_bind] in HL.
  apply (modest_queues _ _ _ _ Mt) in E1.
  destruct (dispatch_all _ _ L1) as [L2|] eqn:E2; [|done]. cbn [mbind result_bind] in HL.
  apply (dispatch_all_queues m _ _ _ _ H1 Mh) in E2. pose proof (queues_trans _ _ _ _ _ E1 E2) as Q2.
  destruct (doingSubmitWaitingTask L2) as [L3|] eqn:E3; [|done]. cbn [mbind result_bind] in HL.
  apply (modest_queues _ _ _ _ Mf) in HL. exists L'.
  assert (Hk : exists k, waiting_submit_queue_ L3 = drop k (waiting_submit_queue_ L2) /\
    (Nat.min 1 (length (waiting_submit_queue_ L2)) <= k <= length (waiting_submit_queue_ L2))%nat).
  { apply submit_waiting_serves in E3 as (k & Hk & Hkl & Hk1). exists k. split; [done|]. split; [|done].
    apply Hk1; [done|]. rewrite remainedSqe_spec. destruct Q0 as [_ He0 Hm0 _], Q2 as [_ He2 Hm2 Hp2].
    rewrite Hz, zlen_nil in Hp2. rewrite He2, He0, Hm2, Hm0. lia. }
  destruct Hk as (k & Hk & Hk1). destruct (queues_waiting _ _ _ Q0) as [w0 Hw0].
  destruct (queues_waiting _ _ _ Q2) as [w2 Hw2]. destruct (queues_waiting _ _ _ HL) as [w4 Hw4].
  rewrite Hw2, Hw0, <- app_assoc in *. exists k, ((w0 ++ w2) ++ w4).
  split_and!; try done; rewrite ?app_assoc in *; rewrite ?length_app in *; [|lia..].
  rewrite Hw4, Hk, <- !app_assoc. rewrite <- drop_app_le by (rewrite !length_app; lia). by rewrite <- !app_assoc.
Qed.


(** The loop sleeps until the earliest timer or for ten seconds, whichever
    comes first. *)
Theorem getTimeOutPeriod_correct now q own L :
  TimerQueue.inv q own -> Forall (fun x => in_int64 (x.1.1 - now) = true) (TimerQueue.timer_list_ q) ->
  time_out_ L = kPollTimeS ->
  exists ts, getTimeOutPeriod now q L = Ok ts /\
    tv_sec ts * 1000000000 + tv_nsec ts <= 10000000000 /\
    (forall x, x ∈ TimerQueue.timer_list_ q ->
      tv_sec ts * 1000000000 + tv_nsec ts <= 1000 * Z.max 100 (x.1.1 - now)) /\
    (tv_sec ts * 1000000000 + tv_nsec ts < 10000000000 ->
      exists x, x ∈ TimerQueue.timer_list_ q /\
        tv_sec ts * 1000000000 + tv_nsec ts = 1000 * Z.max 100 (x.1.1 - now)).
Proof.
  intros H Hf Ht. destruct (TimerQueue.getRecentExpireTime_ok now q own H Hf) as (ts & Hts & Hns & He & Hle & Hex).
  unfold getTimeOutPeriod. rewrite Hts. simpl. rewrite Ht. simpl.
  destruct (Z.ltb_spec (tv_sec ts) 10) as [Hlt|Hge]; (eexists; split; [done|]); simpl.
  - split_and!; [lia | done|]. intros _. apply Hex. intros E. rewrite (He E) in Hlt. done.
  - split_and!; [lia| |lia]. intros x Hx. specialize (Hle x Hx). lia.
Qed.

End loop.

(** ** Witnesses *)

(** A ring of four entries with one free to use above the mark, and two contexts
    waiting. *)
Definition demo_contexts : gmap nat IoContext :=
  <[1%nat := mkIoContext Read 0 0 5 []]> (<[2%nat := mkIoContext Write 0 0 5 []]>
    (<[3%nat := mkIoContext Accept 0 0 4 []]> (<[9%nat := mkIoContext Wakeup 0 0 7 []]> ∅))).
Definition demo_loop : @IoUringLoop ListRing.list_uring :=
  @mkIoUringLoop ListRing.list_uring (ListRing.mkLring 4 [mkSqe (ReadFd 7) 9%nat] eq_refl) [] demo_contexts 2
    [2%nat; 3%nat] 0 7 9%nat kPollTimeS.

Lemma demo_loop_inv : @inv ListRing.list_uring demo_loop.
Proof.
  split; try (vm_compute; congruence).
  constructor; [split; [done|]; eexists; split; [vm_compute; reflexivity | done]|].
  constructor; [split; [done|]; eexists; split; [vm_compute; reflexivity | done]|]. constructor.
Qed.

Lemma demo_takes_all : @takes_all ListRing.list_uring.
Proof. done. Qed.

(** A handler that answers with a write of its own, and functors that cancel a read and
    submit. *)
Definition demo_answer : list request := [Register 5%nat (mkIoContext Write 0 0 6 []); SubmitWrite 5%nat].
Definition demo_functors : list request := [SubmitCancel 1%nat; SubmitRing].

Lemma demo_answer_ok cqes : @well_behaved ListRing.list_uring cqes (fun _ => demo_answer).
Proof.
  intros L _. split; [|set_solver]. split; [done|]. intros L1 HL1. apply Ok_inj in HL1. subst L1. split; [|done].
  split; [done|]. eexists. split; [apply lookup_insert_eq | done].
Qed.

Lemma demo_functors_ok cqes : @well_behaved ListRing.list_uring cqes (fun _ => demo_functors).
Proof. intros L _. split; [done | set_solver]. Qed.

Definition demo_requests : list request := [SubmitRead 1%nat; Drain; SubmitCancel 1%nat].

Lemma demo_requests_ok : @requests_ok ListRing.list_uring demo_loop demo_requests.
Proof.
  split; [split; [done|]; eexists; split; [vm_compute; reflexivity | done]|].
  intros L1 _. split; [exact I|]. intros L2 _. split; [exact I|]. intros L3 _. exact I.
Qed.

Lemma requests_conserved_witness :
  exists L', @execs ListRing.list_uring demo_requests demo_loop = Ok L' /\
    asked L' ≡ₚ asked demo_loop ++ [1%nat].
Proof.
  destruct (takes_all_ok _ _ demo_takes_all (@requests_conserved ListRing.list_uring
    demo_requests demo_loop demo_loop_inv demo_requests_ok)) as (L' & HL' & _ & Ha).
  exists L'. split; [exact HL' | exact Ha].
Defined.

(** An iteration with completions of the wake-up, of a cancelled read and of a read,
    with a handler and functors that make requests. *)
Definition demo_batch : list (nat * Z * Z) := [(9%nat, 8, 0); (0%nat, 0, 0); (1%nat, 100, 1)].

Lemma demo_batch_live : @cqes_live ListRing.list_uring demo_batch demo_loop.
Proof.
  constructor; [right; eexists; vm_compute; reflexivity|]. constructor; [left; reflexivity|].
  constructor; [right; eexists; vm_compute; reflexivity|]. constructor.
Qed.

Lemma loop_iteration_safe_witness :
  exists L' new, @loop_iteration ListRing.list_uring (fun _ => demo_answer) (fun _ _ => demo_answer)
      (fun _ => demo_functors) demo_batch demo_loop = Ok L' /\
    asked L' ≡ₚ asked demo_loop ++ new.
Proof.
  destruct (takes_all_ok _ _ demo_takes_all (@loop_iteration_safe ListRing.list_uring (fun _ => demo_answer)
      (fun _ _ => demo_answer) (fun _ => demo_functors) demo_batch demo_loop demo_loop_inv
      demo_batch_live
      (demo_answer_ok _) (fun _ => demo_answer_ok _) (demo_functors_ok _))) as (L' & HL' & _ & new & Ha).
  exists L', new. split; [exact HL' | exact Ha].
Defined.

Lemma doingSubmitWaitingTask_correct_witness :
  exists L', @doingSubmitWaitingTask ListRing.list_uring demo_loop = Ok L' /\ waiting_submit_queue_ L' = [3%nat].
Proof.
  destruct (@doingSubmitWaitingTask_correct ListRing.list_uring demo_loop) as (L' & ss & HL' & Hw & _).
  - exact demo_loop_inv.
  - exists L'. split; [exact HL'|]. vm_compute in Hw. exact Hw.
Defined.

(** A larger ring, in which two contexts wait behind the mark. *)
Definition demo_busy : @IoUringLoop ListRing.list_uring :=
  @mkIoUringLoop ListRing.list_uring (ListRing.mkLring 8 [mkSqe (ReadFd 7) 9%nat] eq_refl) [] demo_contexts 2
    [2%nat; 3%nat] 0 7 9%nat kPollTimeS.
Definition demo_round : @round ListRing.list_uring :=
  mkRound (fun _ => [SubmitRing]) (fun _ _ => demo_answer) (fun _ => demo_functors) [(1%nat, 100, 1)].

Lemma demo_moderate L :
  is_Some (contexts L !! 1%nat) -> 4 < @sq_entries ListRing.list_uring (ring_ L) - sqe_low_water_mark_ L ->
  moderate 2 L demo_round.
Proof.
  intros Hc Hr. split_and!.
  - constructor; [by right | constructor].
  - intros L0 _. split; [done | set_solver].
  - intros p. apply demo_answer_ok.
  - apply demo_functors_ok.
  - intros L0. split; [simpl; lia | set_solver].
  - intros p L0. split; [simpl; lia | set_solver].
  - exists 2%nat. intros L0. split; [simpl; lia | set_solver].
  - exact Hr.
Qed.


Lemma getTimeOutPeriod_correct_witness :
  exists ts, @getTimeOutPeriod ListRing.list_uring 0 TimerQueue.demo_queue demo_loop = Ok ts /\
    tv_sec ts * 1000000000 + tv_nsec ts <= 10000000000.
Proof.
  destruct (@getTimeOutPeriod_correct ListRing.list_uring 0 TimerQueue.demo_queue [] demo_loop) as (ts & Hts & Hle & _).
  - exact TimerQueue.demo_inv.
  - apply (bool_decide_unpack _). vm_compute. exact I.
  - reflexivity.
  - exists ts. split; [exact Hts | exact Hle].
Defined.

End IoUringLoop.
