(* ===== verification/PendingFunctors.v ===== *)
(** * Cross-thread work and shutdown ([queueInLoop], [wakeUp], [quit], [loop])

    The part of [src/IoUringLoop.cc] that other threads touch: the vector of
    pending functors, the eventfd that wakes the loop, and the [quit_] flag.  The
    loop thread and any number of other threads interleave: an event is one
    atomic action of one thread or of the kernel, [step] its effect, and a
    reachable state is the result of any sequence of enabled events. *)

From S2P Require Import Prelude.

Module PendingFunctors.

(** Where the loop thread is. *)
Inductive Phase :=
  | Idle        (** before [loop()] *)
  | Starting    (** after [if(quit_) return] *)
  | Head        (** at the condition of the [while] *)
  | Polling     (** after [io_uring_submit], before the first peek *)
  | Sleeping    (** in [io_uring_wait_cqe_timeout] *)
  | Handling    (** timers and completions *)
  | Running     (** in [doingPendingFunctors], after the swap *)
  | Stopped.

(** The read on the eventfd: in the submission ring, with the kernel, completed,
    or in the batch of completions the loop is handling. *)
Inductive ReadState := Unarmed | Queued | Submitted | Completed | InBatch.

(** Ghost parts: [producers] counts the threads between the change they made and
    their [write] to the eventfd, [queued] and [executed] are the histories,
    [early] tells that a functor was queued on the loop thread before [loop()]. *)
Record st := mkSt {
  phase : Phase;
  tasks : list nat;
  pendingFunctors_ : list nat;
  calling_pending_functors_ : bool;
  quit_ : bool;
  wakeup_read : ReadState;
  eventfd : Z;
  producers : nat;
  early : bool;
  queued : list nat;
  executed : list nat
}.

Definition init : st := mkSt Idle [] [] false false Unarmed 0 0 false [] [].

Definition set_phase (p : Phase) (s : st) : st :=
  mkSt p (tasks s) (pendingFunctors_ s) (calling_pending_functors_ s) (quit_ s) (wakeup_read s) (eventfd s)
    (producers s) (early s) (queued s) (executed s).
Definition set_quit (b : bool) (s : st) : st :=
  mkSt (phase s) (tasks s) (pendingFunctors_ s) (calling_pending_functors_ s) b (wakeup_read s) (eventfd s)
    (producers s) (early s) (queued s) (executed s).
Definition set_read (r : ReadState) (n : Z) (s : st) : st :=
  mkSt (phase s) (tasks s) (pendingFunctors_ s) (calling_pending_functors_ s) (quit_ s) r n
    (producers s) (early s) (queued s) (executed s).
Definition set_producers (n : nat) (s : st) : st :=
  mkSt (phase s) (tasks s) (pendingFunctors_ s) (calling_pending_functors_ s) (quit_ s) (wakeup_read s) (eventfd s)
    n (early s) (queued s) (executed s).
Definition set_early (b : bool) (s : st) : st :=
  mkSt (phase s) (tasks s) (pendingFunctors_ s) (calling_pending_functors_ s) (quit_ s) (wakeup_read s) (eventfd s)
    (producers s) b (queued s) (executed s).

(** ** Operations *)

(** [write(wakeup_fd_, &one, 8)]: the counter of an eventfd stays below 2^64 - 1;
    a write that would exceed it fails. *)
Definition EVENTFD_MAX : Z := 2 ^ 64 - 2.
Definition eventfd_write (n : Z) : Z := if n <? EVENTFD_MAX then n + 1 else n.
Definition wakeUp (s : st) : st := set_read (wakeup_read s) (eventfd_write (eventfd s)) s.

(** The locked part of [queueInLoop]. *)
Definition push (cb : nat) (s : st) : st :=
  mkSt (phase s) (tasks s) (pendingFunctors_ s ++ [cb]) (calling_pending_functors_ s) (quit_ s) (wakeup_read s)
    (eventfd s) (producers s) (early s) (queued s ++ [cb]) (executed s).

(** [queueInLoop] on the loop thread. *)
Definition queueInLoop (cb : nat) (s : st) : st :=
  let s := push cb s in
  if calling_pending_functors_ s then wakeUp s else s.

(** [runInLoop]: on the loop thread ([here]) the functor is called, [call] being what
    it does; on another thread it is queued, and the thread's [wakeUp] is due. *)
Definition runInLoop (here : bool) (call : nat -> st -> st) (cb : nat) (s : st) : st :=
  if here then call cb s
  else set_producers (S (producers s)) (push cb s).

(** The start of [doingPendingFunctors]: the flag, then the swap. *)
Definition swap (s : st) : st :=
  mkSt Running (pendingFunctors_ s) [] true (quit_ s) (wakeup_read s) (eventfd s) (producers s) false
    (queued s) (executed s).
Definition run_task (s : st) : option st :=
  match tasks s with
  | [] => None
  | t :: ts => Some (mkSt (phase s) ts (pendingFunctors_ s) (calling_pending_functors_ s) (quit_ s) (wakeup_read s)
                       (eventfd s) (producers s) (early s) (queued s) (executed s ++ [t]))
  end.
Definition end_tasks (s : st) : st :=
  mkSt Head [] (pendingFunctors_ s) false (quit_ s) (wakeup_read s) (eventfd s) (producers s) (early s)
    (queued s) (executed s).

Inductive event :=
  | EPush (cb : nat)        (** another thread: [queueInLoop], locked part *)
  | EWake                   (** that thread's [wakeUp()] *)
  | EQuit                   (** another thread: [quit()], the flag *)
  | EQueueHere (cb : nat)   (** the loop thread: [queueInLoop] *)
  | EQuitHere               (** the loop thread: [quit()] *)
  | EKernelRead             (** the kernel completes the read *)
  | EStart                  (** [if(quit_) return] *)
  | EEnter                  (** [on_completion(); looping_ = true; quit_ = false] *)
  | EHead                   (** [while(!quit_)] and [io_uring_submit] *)
  | EPollBatch              (** the peek returns a batch with the wake-up *)
  | EPollOther              (** the peek returns a batch without it *)
  | ESleep                  (** the peek returns nothing *)
  | EHandleWakeup           (** the wake-up completion is dispatched *)
  | ESwap                   (** all completions dispatched: [doingPendingFunctors] *)
  | ERunTask
  | EEndTasks.

Definition phase_eqb (p q : Phase) : bool :=
  match p, q with
  | Idle, Idle | Starting, Starting | Head, Head | Polling, Polling | Sleeping, Sleeping
  | Handling, Handling | Running, Running | Stopped, Stopped => true
  | _, _ => false
  end.
Definition read_eqb (p q : ReadState) : bool :=
  match p, q with
  | Unarmed, Unarmed | Queued, Queued | Submitted, Submitted | Completed, Completed | InBatch, InBatch => true
  | _, _ => false
  end.

Definition guard_ {A} (b : bool) (x : A) : option A := if b then Some x else None.

Definition step (e : event) (s : st) : option st :=
  match e with
  | EPush cb => Some (runInLoop false (fun _ s => s) cb s)
  | EWake =>
      match producers s with
      | O => None
      | S n => Some (wakeUp (set_producers n s))
      end
  | EQuit => Some (set_producers (S (producers s)) (set_quit true s))
  | EQueueHere cb =>
      match phase s with
      | Idle => Some (set_early true (queueInLoop cb s))
      | Handling | Running => Some (queueInLoop cb s)
      | _ => None
      end
  | EQuitHere =>
      match phase s with
      | Idle | Handling | Running => Some (set_quit true s)
      | _ => None
      end
  | EKernelRead =>
      guard_ (read_eqb (wakeup_read s) Submitted && (0 <? eventfd s)) (set_read Completed 0 s)
  | EStart => guard_ (phase_eqb (phase s) Idle) (set_phase (if quit_ s then Stopped else Starting) s)
  | EEnter =>
      guard_ (phase_eqb (phase s) Starting) (set_phase Head (set_quit false (set_read Queued (eventfd s) s)))
  | EHead =>
      guard_ (phase_eqb (phase s) Head)
        (if quit_ s then set_phase Stopped s
         else set_phase Polling
                (set_read (if read_eqb (wakeup_read s) Queued then Submitted else wakeup_read s) (eventfd s) s))
  | EPollBatch =>
      guard_ ((phase_eqb (phase s) Polling || phase_eqb (phase s) Sleeping) && read_eqb (wakeup_read s) Completed)
        (set_phase Handling (set_read InBatch (eventfd s) s))
  | EPollOther =>
      guard_ (phase_eqb (phase s) Polling || phase_eqb (phase s) Sleeping) (set_phase Handling s)
  | ESleep =>
      guard_ (phase_eqb (phase s) Polling && negb (read_eqb (wakeup_read s) Completed)) (set_phase Sleeping s)
  | EHandleWakeup =>
      guard_ (phase_eqb (phase s) Handling && read_eqb (wakeup_read s) InBatch) (set_read Queued (eventfd s) s)
  | ESwap =>
      guard_ (phase_eqb (phase s) Handling && negb (read_eqb (wakeup_read s) InBatch)) (swap s)
  | ERunTask => if phase_eqb (phase s) Running then run_task s else None
  | EEndTasks =>
      guard_ (phase_eqb (phase s) Running && match tasks s with [] => true | _ => false end) (end_tasks s)
  end.

Fixpoint run (es : list event) (s : st) : option st :=
  match es with
  | [] => Some s
  | e :: es => match step e s with Some s => run es s | None => None end
  end.

Inductive reachable : st -> Prop :=
  | reachable_init : reachable init
  | reachable_step e s s' : reachable s -> step e s = Some s' -> reachable s'.

(** ** Invariants *)

Lemma guard_Some {A} b (x y : A) : guard_ b x = Some y -> b = true /\ x = y.
Proof. destruct b; simpl; intros; simplify_eq; done. Qed.

(** A wake-up that will reach the loop. *)
Definition signalled (s : st) : Prop :=
  0 < eventfd s \/ wakeup_read s = Completed \/ (0 < producers s)%nat.

Definition listening (s : st) : Prop :=
  match phase s with Handling | Stopped => False | _ => True end.

Record inv (s : st) : Prop := {
  inv_fifo : executed s ++ tasks s ++ pendingFunctors_ s = queued s;
  inv_tasks : phase s <> Running -> tasks s = [];
  inv_calling : calling_pending_functors_ s = phase_eqb (phase s) Running;
  inv_eventfd : 0 <= eventfd s <= EVENTFD_MAX;
  inv_read :
    match phase s with
    | Idle | Starting => wakeup_read s = Unarmed
    | Head | Running => wakeup_read s <> Unarmed /\ wakeup_read s <> InBatch
    | Polling | Sleeping => wakeup_read s = Submitted \/ wakeup_read s = Completed
    | _ => wakeup_read s <> Unarmed \/ phase s = Stopped
    end;
  inv_signal : listening s -> pendingFunctors_ s <> [] -> signalled s \/ early s = true;
  inv_quit : (phase s = Polling \/ phase s = Sleeping) -> quit_ s = true -> signalled s
}.

Lemma init_inv : inv init.
Proof. split; simpl; try done. Qed.

Lemma eventfd_write_pos n : 0 <= n <= EVENTFD_MAX -> 0 < eventfd_write n <= EVENTFD_MAX.
Proof.
  intros He. unfold eventfd_write. destruct (Z.ltb_spec n EVENTFD_MAX); unfold EVENTFD_MAX in *; lia.
Qed.

(** The common shape of the cases: split the invariant, open the guards and the
    phase, and leave the arithmetic of the eventfd. *)
Ltac step_cases :=
  repeat match goal with
  | H : guard_ _ _ = Some _ |- _ => apply guard_Some in H as [? ?]; subst
  | H : (_ && _) = true |- _ => apply andb_true_iff in H as [? ?]
  | H : (_ || _) = true |- _ => apply orb_true_iff in H
  | H : Some _ = Some _ |- _ => injection H as H; subst
  | H : None = Some _ |- _ => discriminate H
  end.

Lemma step_inv e s s' : inv s -> step e s = Some s' -> inv s'.
Proof.
  intros [Hf Ht Hc He Hr Hs Hq] Hstep.
  pose proof (eventfd_write_pos _ He) as Hw.
  destruct s as [ph tk pd ca qu rd ef pr ea qd ex]; unfold signalled, listening, wakeUp in *; simpl in *.
  destruct e; simpl in Hstep; unfold queueInLoop, wakeUp, run_task in *; simpl in *; step_cases;
    destruct ph; simpl in *; try subst ca; step_cases; simpl in *; try done;
    repeat (case_match; simpl in *; step_cases; simpl in *; try done).
  all: split; simpl in *; try solve [done | lia | intuition (congruence || lia)];
    try (rewrite ?Ht in * by done; simpl in *; subst; rewrite ?app_nil_r, <- ?app_assoc; simpl; done).
  all: unfold signalled, listening; simpl; try solve [intuition (congruence || lia)].
  all: destruct rd; simpl in *; intuition congruence.
Qed.

Lemma reachable_inv s : reachable s -> inv s.
Proof. induction 1; [exact init_inv | eauto using step_inv]. Qed.

Lemma run_reachable es s s' : reachable s -> run es s = Some s' -> reachable s'.
Proof.
  revert s. induction es as [|e es IH]; intros s Hs Hr; simpl in Hr; [by simplify_eq|].
  destruct (step e s) as [s1|] eqn:E; [|done]. eapply IH; [|exact Hr]. by eapply reachable_step.
Qed.

(** ** Properties *)

(** C13. Whatever the interleaving, the functors handed to [queueInLoop] run in the
    order in which they were queued, each exactly once: those executed, those
    being run and those pending are together the queue's history. *)
Theorem functors_run_once_in_order s :
  reachable s -> executed s ++ tasks s ++ pendingFunctors_ s = queued s.
Proof. intros H. apply (inv_fifo _ (reachable_inv _ H)). Qed.

(** C12. No wake-up is lost: if the loop sleeps while functors are pending, or while
    it was asked to quit, then, as soon as no thread is between its change and its
    write to the eventfd, the wake-up is there and takes the loop out of the wait
    without a timeout.  For functors this needs that the loop thread itself queued none
    before it called [loop()], or that the functors have run since ([early] is false):
    such a functor is not signalled ([early_functor_not_signalled]). *)
Theorem no_lost_wakeup s :
  reachable s -> phase s = Sleeping -> producers s = 0%nat ->
  (pendingFunctors_ s <> [] /\ early s = false) \/ quit_ s = true ->
  exists es s', run es s = Some s' /\ phase s' = Handling /\
    (es = [EPollBatch] \/ es = [EKernelRead; EPollBatch]).
Proof.
  intros H Hp Hpr Hw. destruct (reachable_inv _ H) as [_ _ _ _ Hr Hs Hq]. rewrite Hp in Hr.
  assert (Hsig : 0 < eventfd s \/ wakeup_read s = Completed).
  { assert (Hsig : signalled s).
    { destruct Hw as [[Hpd He]|Hqu]; [|apply Hq; auto].
      destruct Hs as [?|?]; [unfold listening; by rewrite Hp | done | done | congruence]. }
    destruct Hsig as [?|[?|?]]; [auto | auto | lia]. }
  destruct Hr as [Hr|Hr].
  - destruct Hsig as [He|He]; [|congruence].
    exists [EKernelRead; EPollBatch]. eexists. simpl. rewrite Hr. simpl.
    rewrite (proj2 (Z.ltb_lt _ _) He). simpl. rewrite Hp. simpl. eauto.
  - exists [EPollBatch]. eexists. simpl. rewrite Hr, Hp. simpl. eauto.
Qed.

(** Once [loop()] has entered its [while], [quit()] is not lost: the flag is
    never cleared again and the next evaluation of the condition stops the loop. *)
Theorem quit_is_kept e s s' :
  reachable s -> step e s = Some s' -> quit_ s = true -> phase s <> Idle -> phase s <> Starting ->
  quit_ s' = true /\ phase s' <> Starting /\ (e = EHead -> phase s' = Stopped).
Proof.
  intros _ Hstep Hq Hi Hst. destruct s as [ph tk pd ca qu rd ef pr ea qd ex]. simpl in *. subst qu.
  destruct e; simpl in Hstep; unfold queueInLoop, run_task in *; simpl in *; step_cases;
    destruct ph; simpl in *; step_cases; simpl in *; try done; repeat (case_match; step_cases; simpl in *; try done).
Qed.

(** A [quit()] of another thread that falls between the test of [quit_] at
    the start of [loop()] and the assignment [quit_ = false] is lost: the loop
    keeps running and goes back to sleep with no wake-up left. *)
Theorem quit_lost_at_start :
  exists s, run [EStart; EQuit; EWake; EEnter; EHead; EKernelRead; EPollBatch; EHandleWakeup; ESwap; EEndTasks;
                 EHead; ESleep] init = Some s /\
    phase s = Sleeping /\ quit_ s = false /\ ~ signalled s.
Proof.
  exists (mkSt Sleeping [] [] false false Submitted 0 0 false [] []).
  split; [vm_compute; reflexivity|]. split; [reflexivity|]. split; [reflexivity|].
  unfold signalled. simpl. intros [H|[H|H]]; [lia | discriminate | lia].
Qed.

(** A functor that the loop thread itself queues before it calls [loop()] is
    left waiting: [queueInLoop] does not write to the eventfd then (the flag
    [calling_pending_functors_] is not set), and the loop sleeps with the functor
    pending and no wake-up on its way. *)
Lemma early_functor_not_signalled cb :
  exists s, run [EQueueHere cb; EStart; EEnter; EHead; ESleep] init = Some s /\
    phase s = Sleeping /\ pendingFunctors_ s = [cb] /\ ~ signalled s.
Proof.
  exists (mkSt Sleeping [] [cb] false false Submitted 0 0 true [cb] []).
  split; [reflexivity|]. split; [reflexivity|]. split; [reflexivity|].
  unfold signalled. simpl. intros [H|[H|H]]; [lia | discriminate | lia].
Qed.

(** ** Witnesses *)

Definition demo_run : list event :=
  [EStart; EEnter; EHead; ESleep; EPush 5%nat; EQuit; EWake; EWake].
Definition demo_st : st := mkSt Sleeping [] [5%nat] false true Submitted 2 0 false [5%nat] [].
Lemma demo_reachable : reachable demo_st.
Proof. apply (run_reachable demo_run init); [constructor | vm_compute; reflexivity]. Qed.

Lemma functors_run_once_in_order_witness :
  executed demo_st ++ tasks demo_st ++ pendingFunctors_ demo_st = [5%nat].
Proof. apply (functors_run_once_in_order demo_st). exact demo_reachable. Defined.

Lemma no_lost_wakeup_witness :
  exists es s', run es demo_st = Some s' /\ phase s' = Handling.
Proof.
  destruct (no_lost_wakeup demo_st) as (es & s' & Hr & Hp & _).
  - exact demo_reachable.
  - reflexivity.
  - reflexivity.
  - left. split; [discriminate | reflexivity].
  - exists es, s'. split; [exact Hr | exact Hp].
Defined.

Lemma quit_is_kept_witness :
  exists s', step EPollOther demo_st = Some s' /\ quit_ s' = true.
Proof.
  eexists. split; [reflexivity|].
  apply (quit_is_kept EPollOther demo_st).
  - exact demo_reachable.
  - reflexivity.
  - reflexivity.
  - discriminate.
  - discriminate.
Defined.

End PendingFunctors.
