(* ===== verification/Task.v ===== *)
(** * Coroutines and their owners ([Task])

    [Task.hpp] declares the return object of a coroutine twice, for a value type
    and for [void]; the two texts have the same owner part: a [Task] is a handle to
    a coroutine frame, moves hand the handle over, the destructor destroys the
    frame.  The owner part is modelled once, over any kind of frame; the promises
    of [Task<T>] and of [Task<void>] are the two kinds.

    State: the frames that exist ([frames], at addresses that can be used again)
    and the [Task] objects with their [handle_] ([tasks], by the name of the
    object; [None] is a null handle). *)

From S2P Require Import Prelude.

Module Task.

(** ** The promise of [Task<T>] *)

Inductive exn :=
  | StdException   (** derived from [std::exception] *)
  | OtherException.

Section promise.
Context {T : Type}.

(** The rest of the body of a coroutine, up to what it does at its suspension
    points.  [FallOff]: the closing brace is reached without a [co_return]. *)
Inductive body :=
  | Yield (v : T) (k : body)
  | Await (k : body)
  | CoReturn (v : T)
  | FallOff
  | Throw (e : exn).

(** A frame is suspended between operations; [at_end]: at the final suspend point.
    A value that was not assigned has the initial value of its type, [None]. *)
Record frame := mkFrame {
  code : body;
  at_end : bool;
  curr_value : option T;
  ret_value : option T
}.

(** [initial_suspend] is [suspend_always]: nothing of the body has run. *)
Definition initial_suspend (b : body) : frame := mkFrame b false None None.

Definition yield_value (v : T) (k : body) (f : frame) : frame := mkFrame k (at_end f) (Some v) (ret_value f).
Definition return_value (v : T) (f : frame) : frame := mkFrame (code f) (at_end f) (curr_value f) (Some v).

(** [final_suspend] is [suspend_always]: the frame stays until it is destroyed. *)
Definition final_suspend (f : frame) : frame := mkFrame (code f) true (curr_value f) (ret_value f).

(** The exception is thrown again and caught as a [std::exception]; any other one
    leaves [unhandled_exception] and comes out of [resume()]. *)
Definition unhandled_exception (e : exn) : option exn :=
  match e with
  | StdException => None
  | OtherException => Some OtherException
  end.

(** The body runs to its next suspension point; the exception that comes out. *)
Definition advance (f : frame) : result (option exn * frame) :=
  if at_end f then Fault UndefinedBehaviour
  else
    match code f with
    | Yield v k => Ok (None, yield_value v k f)
    | Await k => Ok (None, mkFrame k false (curr_value f) (ret_value f))
    | CoReturn v => Ok (None, final_suspend (return_value v f))
    | FallOff => Fault UndefinedBehaviour
    | Throw e => Ok (unhandled_exception e, final_suspend f)
    end.

End promise.
Arguments body : clear implicits.
Arguments frame : clear implicits.

(** ** The promise of [Task<void>]

    It has no [return_void]: a coroutine can end by an exception only, and one that
    reaches its closing brace has undefined behaviour. *)

Inductive void_body :=
  | VoidAwait (k : void_body)
  | VoidFallOff
  | VoidThrow (e : exn).

Record void_frame := mkVoidFrame {
  void_code : void_body;
  void_at_end : bool
}.

Definition void_initial_suspend (b : void_body) : void_frame := mkVoidFrame b false.
Definition void_final_suspend (f : void_frame) : void_frame := mkVoidFrame (void_code f) true.
Definition void_unhandled_exception (e : exn) : option exn :=
  match e with
  | StdException => None
  | OtherException => Some OtherException
  end.

Definition void_advance (f : void_frame) : result (option exn * void_frame) :=
  if void_at_end f then Fault UndefinedBehaviour
  else
    match void_code f with
    | VoidAwait k => Ok (None, mkVoidFrame k false)
    | VoidFallOff => Fault UndefinedBehaviour
    | VoidThrow e => Ok (void_unhandled_exception e, void_final_suspend f)
    end.

(** ** The owner *)

Section owner.
Context {A : Allocator} {F : Type} (adv : F -> result (option exn * F)).

Record st := mkSt {
  frames : gmap nat F;
  tasks : gmap nat ptr
}.
Definition init : st := mkSt ∅ ∅.

(** The [handle_] of an object that exists. *)
Definition handle_ (x : nat) (s : st) : result ptr :=
  match tasks s !! x with
  | Some h => Ok h
  | None => Fault Dangling
  end.
Definition set_tasks (t : gmap nat ptr) (s : st) : st := mkSt (frames s) t.

(** A coroutine is called: its frame is allocated, [get_return_object] makes the
    object [x] of the handle of the frame. *)
Definition get_return_object (x : nat) (f : F) (s : st) : result st :=
  match tasks s !! x with
  | Some _ => Fault UndefinedBehaviour
  | None =>
      let a := malloc (dom (frames s)) in
      Ok (mkSt (<[a := f]> (frames s)) (<[x := Some a]> (tasks s)))
  end.

Definition destroy (x : nat) (s : st) : result st :=
  h ← handle_ x s;
  match h with
  | None => Ok s
  | Some a =>
      _ ← deref (frames s) (Some a);
      Ok (mkSt (delete a (frames s)) (<[x := None]> (tasks s)))
  end.

(** [~Task] *)
Definition destruct_Task (x : nat) (s : st) : result st :=
  s ← destroy x s;
  Ok (set_tasks (delete x (tasks s)) s).

(** [Task(Task&& other)]: the new object is [x]. *)
Definition move_construct (x other : nat) (s : st) : result st :=
  h ← handle_ other s;
  match tasks s !! x with
  | Some _ => Fault UndefinedBehaviour
  | None => Ok (set_tasks (<[other := None]> (<[x := h]> (tasks s))) s)
  end.

(** [operator=(Task&& other)] *)
Definition move_assign (x other : nat) (s : st) : result st :=
  h ← handle_ other s;
  _ ← handle_ x s;
  Ok (set_tasks (<[other := None]> (<[x := h]> (tasks s))) s).

Definition resume (x : nat) (s : st) : result (option exn * st) :=
  h ← handle_ x s;
  f ← deref (frames s) h;
  '(e, f') ← adv f;
  match h with
  | None => Fault NullDeref
  | Some a => Ok (e, mkSt (<[a := f']> (frames s)) (tasks s))
  end.

Inductive op :=
  | Call (x : nat) (f : F)
  | Destroy (x : nat)
  | Destruct (x : nat)
  | MoveConstruct (x other : nat)
  | MoveAssign (x other : nat)
  | Resume (x : nat).

Definition step (o : op) (s : st) : result st :=
  match o with
  | Call x f => get_return_object x f s
  | Destroy x => destroy x s
  | Destruct x => destruct_Task x s
  | MoveConstruct x other => move_construct x other s
  | MoveAssign x other => move_assign x other s
  | Resume x => '(_, s) ← resume x s; Ok s
  end.

Fixpoint run (os : list op) (s : st) : result st :=
  match os with
  | [] => Ok s
  | o :: os => s ← step o s; run os s
  end.
End owner.
Arguments st : clear implicits.
Arguments op : clear implicits.

(** [currentValue()] and [returnValue()] of [Task<T>]. *)
Definition currentValue {T} (x : nat) (s : st (frame T)) : result (option T) :=
  h ← handle_ x s;
  f ← deref (frames s) h;
  Ok (curr_value f).
Definition returnValue {T} (x : nat) (s : st (frame T)) : result (option T) :=
  h ← handle_ x s;
  f ← deref (frames s) h;
  Ok (ret_value f).

(** The members of [Task<void>]. *)
Definition void_get_return_object {A : Allocator} : nat -> void_frame -> st void_frame -> result (st void_frame) :=
  get_return_object.
Definition void_destroy : nat -> st void_frame -> result (st void_frame) := destroy.
Definition void_destruct_Task : nat -> st void_frame -> result (st void_frame) := destruct_Task.
Definition void_move_construct : nat -> nat -> st void_frame -> result (st void_frame) := move_construct.
Definition void_move_assign : nat -> nat -> st void_frame -> result (st void_frame) := move_assign.
Definition void_resume : nat -> st void_frame -> result (option exn * st void_frame) := resume void_advance.

(** ** Who owns a frame *)

Section ownership.
Context {A : Allocator} {F : Type} (adv : F -> result (option exn * F)).

(** Non-null handles are handles of frames that exist, and no two objects have the
    same one. *)
Record owned (s : st F) : Prop := {
  owned_live : forall x a, tasks s !! x = Some (Some a) -> is_Some (frames s !! a);
  owned_unique : forall x y a, tasks s !! x = Some (Some a) -> tasks s !! y = Some (Some a) -> x = y
}.

(** No frame is without an owner. *)
Definition accounted (s : st F) : Prop := forall a, is_Some (frames s !! a) -> exists x, tasks s !! x = Some (Some a).

(** What the language asks of the client: objects are used between their
    construction and their destruction, and a coroutine is resumed through a
    non-null handle, at a suspension point from which it can go on. *)
Definition enabled (o : op F) (s : st F) : Prop :=
  match o with
  | Call x _ => tasks s !! x = None
  | Destroy x | Destruct x => is_Some (tasks s !! x)
  | MoveConstruct x other => tasks s !! x = None /\ is_Some (tasks s !! other)
  | MoveAssign x other => is_Some (tasks s !! x) /\ is_Some (tasks s !! other)
  | Resume x => exists a f r, tasks s !! x = Some (Some a) /\ frames s !! a = Some f /\ adv f = Ok r
  end.

(** An assignment to another object, which is empty. *)
Definition clean (o : op F) (s : st F) : Prop :=
  match o with
  | MoveAssign x other => x <> other /\ tasks s !! x = Some None
  | _ => True
  end.

Lemma owned_init : owned init /\ accounted init.
Proof. split; [split|]; unfold accounted; simpl; intros *; rewrite lookup_empty; [done|done|]. by intros [? ?]. Qed.

(** The handle of [other] goes to [x]. *)
Lemma move_owned x other h s :
  owned s -> tasks s !! other = Some h ->
  owned (set_tasks (<[other := None]> (<[x := h]> (tasks s))) s).
Proof.
  intros [Hl Hu] Ho.
  assert (Hx : forall y a, <[other := None]> (<[x := h]> (tasks s)) !! y = Some (Some a) ->
    y <> other /\ ((y = x /\ h = Some a) \/ (y <> x /\ tasks s !! y = Some (Some a)))).
  { intros y a Hy. destruct (decide (y = other)) as [->|Hyo]; [by rewrite lookup_insert_eq in Hy|].
    rewrite lookup_insert_ne in Hy by done. split; [done|].
    destruct (decide (y = x)) as [->|Hyx]; [rewrite lookup_insert_eq in Hy; simplify_eq; by left|].
    rewrite lookup_insert_ne in Hy by done. by right. }
  split; simpl.
  - intros y a Hy. destruct (Hx _ _ Hy) as (_ & [[-> ->]|[_ Hy']]); eauto.
  - intros y z a Hy Hz. destruct (Hx _ _ Hy) as (Hyo & Hy'), (Hx _ _ Hz) as (Hzo & Hz').
    destruct Hy' as [[-> ->]|[? Hy']], Hz' as [[-> ?]|[? Hz']]; simplify_eq; try done; eauto.
    + by destruct Hzo; eauto.
    + by destruct Hyo; eauto.
Qed.

Lemma move_accounted x other h s :
  accounted s -> tasks s !! other = Some h -> x <> other -> tasks s !! x = None \/ tasks s !! x = Some None ->
  accounted (set_tasks (<[other := None]> (<[x := h]> (tasks s))) s).
Proof.
  intros Ha Ho Hne Hx a Hf. destruct (Ha a Hf) as [y Hy]. simpl.
  destruct (decide (y = other)) as [->|Hyo].
  - exists x. rewrite lookup_insert_ne by done. simplify_eq. by rewrite lookup_insert_eq.
  - exists y. rewrite !lookup_insert_ne; [done | by intros ->; destruct Hx; congruence | done].
Qed.

Lemma destroy_owned x s :
  owned s -> is_Some (tasks s !! x) ->
  exists s', destroy x s = Ok s' /\ owned s' /\ (accounted s -> accounted s') /\ tasks s' !! x = Some None.
Proof.
  intros [Hl Hu] [h Hx]. unfold destroy, handle_. rewrite Hx. simpl. destruct h as [a|]; [|exists s; by split_and!].
  destruct (Hl x a Hx) as [f Hf]. simpl. rewrite Hf. simpl. eexists. split; [done|].
  assert (Ht : forall y b, <[x := None]> (tasks s) !! y = Some (Some b) -> y <> x /\ b <> a /\ tasks s !! y = Some (Some b)).
  { intros y b Hy. destruct (decide (y = x)) as [->|Hyx]; [by rewrite lookup_insert_eq in Hy|].
    rewrite lookup_insert_ne in Hy by done. split_and!; try done. intros ->. by destruct Hyx; eauto. }
  split; [split|split]; simpl.
  - intros y b Hy. destruct (Ht _ _ Hy) as (_ & Hb & Hy'). rewrite lookup_delete_ne by done. eauto.
  - intros y z b Hy Hz. destruct (Ht _ _ Hy) as (_ & _ & ?), (Ht _ _ Hz) as (_ & _ & ?). eauto.
  - intros Ha b [g Hb]. simpl in Hb. apply lookup_delete_Some in Hb as [Hab Hb]. destruct (Ha b) as [y Hy]; [by eauto|].
    exists y. simpl. rewrite lookup_insert_ne; [done|]. intros ->. simplify_eq.
  - apply lookup_insert_eq.
Qed.

Lemma destruct_owned x s :
  owned s -> is_Some (tasks s !! x) ->
  exists s', destruct_Task x s = Ok s' /\ owned s' /\ (accounted s -> accounted s').
Proof.
  intros Ho Hx. destruct (destroy_owned x s Ho Hx) as (s1 & Hs1 & [Hl Hu] & Ha & Hn). unfold destruct_Task.
  rewrite Hs1. simpl. eexists. split; [done|]. split; [split|]; simpl.
  - intros y a Hy. apply lookup_delete_Some in Hy as [_ Hy]. eauto.
  - intros y z a Hy Hz. apply lookup_delete_Some in Hy as [_ Hy], Hz as [_ Hz]. eauto.
  - intros Hac a Hf. destruct (Ha Hac a Hf) as [y Hy]. exists y. simpl. rewrite lookup_delete_ne; [done|].
    intros ->. congruence.
Qed.

Lemma call_owned x f s :
  owned s -> tasks s !! x = None ->
  exists s', get_return_object x f s = Ok s' /\ owned s' /\ (accounted s -> accounted s').
Proof.
  intros [Hl Hu] Hx. unfold get_return_object. rewrite Hx. set (a := malloc _).
  assert (Hfr : frames s !! a = None) by (apply not_elem_of_dom, malloc_fresh).
  assert (Ht : forall y b, <[x := Some a]> (tasks s) !! y = Some (Some b) ->
    (y = x /\ b = a) \/ (y <> x /\ b <> a /\ tasks s !! y = Some (Some b))).
  { intros y b Hy. destruct (decide (y = x)) as [->|Hyx]; [rewrite lookup_insert_eq in Hy; simplify_eq; by left|].
    rewrite lookup_insert_ne in Hy by done. right. split_and!; try done. intros ->.
    destruct (Hl _ _ Hy). congruence. }
  eexists. split; [done|]. split; [split|]; simpl.
  - intros y b Hy. destruct (Ht _ _ Hy) as [[_ ->]|(_ & ? & Hy')]; [rewrite lookup_insert_eq; eauto|].
    rewrite lookup_insert_ne by done. eauto.
  - intros y z b Hy Hz. destruct (Ht _ _ Hy) as [[-> ->]|(? & ? & ?)], (Ht _ _ Hz) as [[-> ?]|(? & ? & ?)]; try done; eauto.
  - intros Ha b [g Hb]. simpl in *. destruct (decide (b = a)) as [->|Hb']; [exists x; by rewrite lookup_insert_eq|].
    rewrite lookup_insert_ne in Hb by done. destruct (Ha b) as [y Hy]; [by eauto|]. exists y.
    rewrite lookup_insert_ne; [done|]. congruence.
Qed.

Lemma resume_owned x s a f r :
  owned s -> tasks s !! x = Some (Some a) -> frames s !! a = Some f -> adv f = Ok r ->
  exists s', resume adv x s = Ok (r.1, s') /\ owned s' /\ (accounted s -> accounted s').
Proof.
  intros [Hl Hu] Hx Hf Hr. unfold resume, handle_. rewrite Hx. simpl. rewrite Hf. simpl. rewrite Hr.
  destruct r as [e f']. simpl. eexists. split; [done|]. split; [split|]; simpl.
  - intros y b Hy. destruct (decide (b = a)) as [->|Hb]; [rewrite lookup_insert_eq; eauto|].
    rewrite lookup_insert_ne by done. eauto.
  - done.
  - intros Ha b [g Hb]. simpl in *. destruct (decide (b = a)) as [->|Hb']; [by eauto|].
    rewrite lookup_insert_ne in Hb by done. eauto.
Qed.

Lemma step_owned o s :
  owned s -> enabled o s ->
  exists s', step adv o s = Ok s' /\ owned s' /\ (accounted s -> clean o s -> accounted s').
Proof.
  intros Hs He. destruct o as [x f|x|x|x other|x other|x]; simpl in He |- *.
  - destruct (call_owned x f s Hs He) as (s' & ? & ? & ?). eauto.
  - destruct (destroy_owned x s Hs He) as (s' & ? & ? & ? & _). eauto.
  - destruct (destruct_owned x s Hs He) as (s' & ? & ? & ?). eauto.
  - destruct He as [Hx [h Ho]]. unfold move_construct, handle_. rewrite Ho, Hx. simpl. eexists. split; [done|].
    split; [by apply move_owned|]. intros Ha _. apply move_accounted; try done; [congruence | by left].
  - destruct He as [[k Hx] [h Ho]]. unfold move_assign, handle_. rewrite Ho, Hx. simpl. eexists. split; [done|].
    split; [by apply move_owned|]. intros Ha [? ?]. apply move_accounted; try done. right. congruence.
  - destruct He as (a & f & r & Hx & Hf & Hr). destruct (resume_owned x s a f r Hs Hx Hf Hr) as (s' & -> & ? & ?).
    simpl. eauto.
Qed.

(** [P] holds of every operation of a run, in the state in which it is done. *)
Fixpoint during (P : op F -> st F -> Prop) (os : list (op F)) (s : st F) : Prop :=
  match os with
  | [] => True
  | o :: os => P o s /\ forall s', step adv o s = Ok s' -> during P os s'
  end.

(** C28. A coroutine frame has at most one owner: in every sequence of calls, moves,
    resumptions and destructions no frame is destroyed twice or used after it was
    destroyed, every non-null handle is the handle of a live frame and no two
    [Task] objects share one.  If moreover only empty objects are assigned to,
    every live frame has an owner, so that no frame is left when the last object
    is gone. *)
Theorem frames_have_one_owner os :
  during enabled os init ->
  exists s, run adv os init = Ok s /\ owned s /\
    (during clean os init -> accounted s /\ (tasks s = ∅ -> frames s = ∅)).
Proof.
  intros He. destruct owned_init as [Hi Ha].
  assert (Hrun : forall os s, owned s -> during enabled os s ->
    exists s', run adv os s = Ok s' /\ owned s' /\ (accounted s -> during clean os s -> accounted s')).
  { clear. induction os as [|o os IH]; intros s Hs He; simpl; [by exists s|]. destruct He as [He Hes].
    destruct (step_owned o s Hs He) as (s1 & Hs1 & Ho1 & Ha1). rewrite Hs1. simpl.
    destruct (IH s1 Ho1 (Hes _ Hs1)) as (s2 & Hs2 & Ho2 & Ha2). exists s2. split_and!; try done.
    intros Ha [Hc Hcs]. apply Ha2; [by apply Ha1 | by apply Hcs]. }
  destruct (Hrun os init Hi He) as (s & Hs & Ho & Hac). exists s. split; [done|]. split; [done|]. intros Hc.
  split; [by apply Hac|]. intros Ht. apply map_eq. intros a. rewrite lookup_empty.
  destruct (frames s !! a) as [f|] eqn:Hf; [|done]. destruct (Hac Ha Hc a) as [x Hx]; [by rewrite Hf|].
  by rewrite Ht, lookup_empty in Hx.
Qed.

(** A frame without an owner stays: no operation reaches it. *)
Definition orphan (a : nat) (s : st F) : Prop :=
  is_Some (frames s !! a) /\ forall x, tasks s !! x <> Some (Some a).

Lemma destroy_orphan a x s s' : orphan a s -> destroy x s = Ok s' -> orphan a s'.
Proof.
  intros [[f Hf] Hn] H. unfold destroy, handle_ in H. destruct (tasks s !! x) as [h|] eqn:Hx; [|done]. simpl in H.
  destruct h as [b|]; [|simplify_eq; by split]. simpl in H. destruct (frames s !! b) eqn:Hb; [|done]. simplify_eq/=.
  assert (a <> b) by (intros ->; by apply (Hn x)). split; simpl.
  - rewrite lookup_delete_ne by done. eauto.
  - intros y. destruct (decide (y = x)) as [->|?]; [by rewrite lookup_insert_eq|]. rewrite lookup_insert_ne by done. apply Hn.
Qed.

Lemma move_orphan a x other h s :
  orphan a s -> tasks s !! other = Some h -> orphan a (set_tasks (<[other := None]> (<[x := h]> (tasks s))) s).
Proof.
  intros [Hf Hn] Ho. split; [done|]. intros y. simpl. destruct (decide (y = other)) as [->|?]; [by rewrite lookup_insert_eq|].
  rewrite lookup_insert_ne by done. destruct (decide (y = x)) as [->|?]; [|rewrite lookup_insert_ne by done; apply Hn].
  rewrite lookup_insert_eq. intros ?. simplify_eq. by apply (Hn other).
Qed.

Lemma step_orphan a o s s' : orphan a s -> step adv o s = Ok s' -> orphan a s'.
Proof.
  intros Hor H. pose proof Hor as [[f Hf] Hn]. destruct o as [x g|x|x|x other|x other|x]; simpl in H.
  - unfold get_return_object in H. destruct (tasks s !! x); simplify_eq/=. set (b := malloc _).
    assert (frames s !! b = None) by (apply not_elem_of_dom, malloc_fresh). assert (a <> b) by congruence. split; simpl.
    + rewrite lookup_insert_ne by done. eauto.
    + intros y. destruct (decide (y = x)) as [->|?]; [rewrite lookup_insert_eq; congruence|].
      rewrite lookup_insert_ne by done. apply Hn.
  - by eapply destroy_orphan.
  - unfold destruct_Task in H. destruct (destroy x s) as [s1|] eqn:Hd; [|done]. simplify_eq/=.
    destruct (destroy_orphan a x s s1 Hor Hd) as [? Hn1]. split; [done|]. simpl. intros y Hy.
    apply lookup_delete_Some in Hy as [_ Hy]. by apply (Hn1 y).
  - unfold move_construct, handle_ in H. destruct (tasks s !! other) eqn:Ho; [|done]. simpl in H.
    destruct (tasks s !! x); simplify_eq. by apply move_orphan.
  - unfold move_assign, handle_ in H. destruct (tasks s !! other) eqn:Ho; [|done]. simpl in H.
    destruct (tasks s !! x); simplify_eq/=. by apply move_orphan.
  - unfold resume, handle_ in H. destruct (tasks s !! x) as [[b|]|] eqn:Hx; try done. simpl in H.
    destruct (frames s !! b) eqn:Hb; [|done]. simpl in H. destruct (adv _) as [[e f']|]; [|done]. simplify_eq/=.
    assert (a <> b) by (intros ->; by apply (Hn x)). split; [|done]. simpl. rewrite lookup_insert_ne by done. eauto.
Qed.

(** Moving into a [Task] that still has a coroutine leaks that coroutine
    (also the move of an object into itself): [operator=] overwrites [handle_]
    without destroying the frame, which nothing that follows can resume or
    destroy any more. *)
Theorem move_assign_leaks x other a s :
  owned s -> tasks s !! x = Some (Some a) -> is_Some (tasks s !! other) ->
  exists s', move_assign x other s = Ok s' /\
    forall os s'', run adv os s' = Ok s'' -> is_Some (frames s'' !! a) /\ forall y, tasks s'' !! y <> Some (Some a).
Proof.
  intros [Hl Hu] Hx [h Ho]. unfold move_assign, handle_. rewrite Ho, Hx. simpl. eexists. split; [done|].
  set (s1 := set_tasks _ s). assert (H1 : orphan a s1).
  { split; [exact (Hl x a Hx)|]. intros y. simpl. destruct (decide (y = other)) as [->|Hyo]; [by rewrite lookup_insert_eq|].
    rewrite lookup_insert_ne by done. destruct (decide (y = x)) as [->|Hyx].
    - rewrite lookup_insert_eq. intros ?. simplify_eq. by destruct Hyo; eauto.
    - rewrite lookup_insert_ne by done. intros Hy. by destruct Hyx; eauto. }
  clearbody s1. intros os. revert s1 H1. induction os as [|o os IH]; intros s1 H1 s2 Hr; simpl in Hr; [by simplify_eq|].
  destruct (step adv o s1) as [s1'|] eqn:Hst; [|done]. eapply IH; [|done]. by eapply step_orphan.
Qed.

End ownership.

(** ** Values *)

Section values.
Context {A : Allocator} {T : Type}.

(** A coroutine that yields [vs] and returns [r]. *)
Definition generator (vs : list T) (r : T) : body T := foldr Yield (CoReturn r) vs.

Lemma resume_frame x a (f f' : frame T) e s :
  tasks s !! x = Some (Some a) -> frames s !! a = Some f -> advance f = Ok (e, f') ->
  resume advance x s = Ok (e, mkSt (<[a := f']> (frames s)) (tasks s)).
Proof. intros Hx Hf Ha. unfold resume, handle_. rewrite Hx. simpl. rewrite Hf. simpl. by rewrite Ha. Qed.

Lemma generator_runs x a r vs : forall n c0 r0 s,
  tasks s !! x = Some (Some a) -> frames s !! a = Some (mkFrame (generator vs r) false c0 r0) -> (n <= length vs)%nat ->
  exists s', run advance (replicate n (Resume x)) s = Ok s' /\ tasks s' !! x = Some (Some a) /\
    frames s' !! a = Some (mkFrame (generator (drop n vs) r) false
      (if n is S m then vs !! m else c0) r0).
Proof.
  induction vs as [|v vs IH]; intros n c0 r0 s Hx Hf Hn; destruct n as [|n]; simpl in Hn; try lia;
    [by exists s.. |].
  cbn [replicate run step]. rewrite (resume_frame x a _ (mkFrame (generator vs r) false (Some v) r0) None s Hx Hf eq_refl).
  cbn [mbind result_bind]. set (s1 := mkSt _ _).
  destruct (IH n (Some v) r0 s1) as (s' & Hs' & Hx' & Hf'); [done | by apply lookup_insert_eq | lia|].
  exists s'. split; [done|]. split; [done|]. rewrite Hf'. by destruct n.
Qed.

(** A generator gives its values one by one: after the [n]-th resumption
    [currentValue] is its [n]-th [co_yield], after one more resumption than there
    are values [returnValue] is the [co_return], and a resumption after that is
    undefined. *)
Theorem generator_values x a r vs s :
  tasks s !! x = Some (Some a) -> frames s !! a = Some (initial_suspend (generator vs r)) ->
  (forall n v, vs !! n = Some v -> exists s', run advance (replicate (S n) (Resume x)) s = Ok s' /\
     currentValue x s' = Ok (Some v)) /\
  exists s', run advance (replicate (S (length vs)) (Resume x)) s = Ok s' /\
    returnValue x s' = Ok (Some r) /\ resume advance x s' = Fault UndefinedBehaviour.
Proof.
  intros Hx Hf. split.
  - intros n v Hv. destruct (generator_runs x a r vs (S n) None None s Hx Hf) as (s' & Hs' & Hx' & Hf').
    { apply lookup_lt_Some in Hv. lia. }
    exists s'. split; [done|]. unfold currentValue, handle_. rewrite Hx'. simpl. rewrite Hf'. simpl. by rewrite Hv.
  - destruct (generator_runs x a r vs (length vs) None None s Hx Hf (le_n _)) as (s' & Hs' & Hx' & Hf').
    rewrite drop_all in Hf'. simpl in Hf'. eexists. rewrite replicate_S_end.
    assert (Happ : forall os o (s s1 s2 : st (frame T)), run advance os s = Ok s1 -> step advance o s1 = Ok s2 ->
      run advance (os ++ [o]) s = Ok s2).
    { induction os as [|o os IH]; intros o' s1 s2 s3 H1 H2; simpl in *; [simplify_eq; by rewrite H2|].
      destruct (step advance o s1) as [s4|]; [|done]. simpl in *. by eapply IH. }
    split; [eapply Happ; [exact Hs'|]|].
    { cbn [step]. by rewrite (resume_frame x a _ _ _ s' Hx' Hf' eq_refl). }
    unfold returnValue, resume, handle_. simpl. rewrite Hx'. simpl. by rewrite !lookup_insert_eq.
Qed.

End values.

(** ** Concrete runs *)

(** Two coroutines; one is moved into a new object and then destroyed with it, the
    other is moved into the emptied object, resumed and destroyed. *)
Definition demo_ops : list (op (frame Z)) :=
  [Call 0 (initial_suspend (generator [5; 6] 7)); Call 1 (initial_suspend (generator [8] 9)); MoveConstruct 2 0;
   MoveAssign 0 1; Resume 2; Resume 0; Destruct 2; Destroy 0; Destruct 0; Destruct 1].

Ltac next_op := intros ? H; vm_compute in H; injection H as <-.

Lemma demo_ops_enabled : during (A := first_fit) advance (enabled advance) demo_ops init.
Proof.
  split; [reflexivity|next_op]. split; [reflexivity|next_op]. split; [split; [reflexivity | eexists; reflexivity]|next_op].
  split; [split; eexists; reflexivity|next_op]. split; [eexists _, _, _; split_and!; reflexivity|next_op].
  split; [eexists _, _, _; split_and!; reflexivity|next_op]. split; [eexists; reflexivity|next_op].
  split; [eexists; reflexivity|next_op]. split; [eexists; reflexivity|next_op]. split; [eexists; reflexivity|next_op].
  exact I.
Qed.
Lemma demo_clean : during (A := first_fit) advance clean demo_ops init.
Proof.
  do 3 (split; [exact I|next_op]). split; [split; [discriminate | reflexivity]|next_op].
  do 6 (split; [exact I|next_op]). exact I.
Qed.

Lemma frames_have_one_owner_witness :
  exists s, run (A := first_fit) advance demo_ops init = Ok s /\ accounted s.
Proof.
  destruct (frames_have_one_owner (A := first_fit) (advance (T := Z)) demo_ops) as (s & Hs & _ & Hac).
  - exact demo_ops_enabled.
  - exists s. split; [exact Hs|]. apply Hac. exact demo_clean.
Defined.

Definition demo_two : st (frame Z) :=
  mkSt (<[0%nat := initial_suspend (generator [5; 6] 7)]> {[1%nat := initial_suspend (generator [8] 9)]})
    (<[0%nat := Some 0%nat]> {[1%nat := Some 1%nat]}).
Lemma demo_two_owned : owned demo_two.
Proof.
  assert (H : forall x a, tasks demo_two !! x = Some (Some a) -> a = x /\ (x = 0%nat \/ x = 1%nat)).
  { intros x a. unfold demo_two. simpl. rewrite lookup_insert_Some, lookup_singleton_Some. naive_solver. }
  split.
  - intros x a Hx. destruct (H _ _ Hx) as [-> [-> | ->]]; eexists; reflexivity.
  - intros x y a Hx Hy. destruct (H _ _ Hx), (H _ _ Hy). congruence.
Qed.

Lemma move_assign_leaks_witness :
  exists s', move_assign 0 1 demo_two = Ok s' /\
    forall os s'', run (A := first_fit) advance os s' = Ok s'' -> is_Some (frames s'' !! 0%nat).
Proof.
  destruct (move_assign_leaks (A := first_fit) advance 0 1 0 demo_two) as (s' & Hs' & Hr).
  - exact demo_two_owned.
  - reflexivity.
  - eexists. reflexivity.
  - exists s'. split; [exact Hs'|]. intros os s'' H. exact (proj1 (Hr os s'' H)).
Defined.

Lemma generator_values_witness :
  exists s', run (A := first_fit) advance [Resume 0; Resume 0] demo_two = Ok s' /\ currentValue 0 s' = Ok (Some 6).
Proof.
  destruct (generator_values (A := first_fit) 0 0 7 [5; 6] demo_two) as [H _].
  - reflexivity.
  - reflexivity.
  - apply (H 1%nat 6). reflexivity.
Defined.

End Task.
