(* ===== verification/TcpConnection.v ===== *)
(** * Connections ([src/TcpConnection.cc], [src/WriteContext.cc], [src/ReadContext.cc], [include/Task.hpp])

    A connection owns a read context (a multishot receive that fills an input
    buffer), a write context (a queue of fragments that is flushed in batches)
    and a business coroutine that suspends in two awaiters.  Completions resume
    the coroutine; the coroutine's calls change the contexts.  The coroutine is
    client code: it is any program over the calls a connection offers.

    Lifetime is part of the model: the [holder_] pointers of the contexts, the
    coroutine frame, the server's table and queued closures each hold a
    reference, and a member that is used after the last one is gone faults. *)

From S2P Require Import Prelude SendQueue ChunkPool InputChainBuffer.
Import ChunkPoolManagerInput.

(** ** The contexts *)

Module WriteContext.
Record WriteContext := mk {
  res_ : Z;
  flags_ : Z;
  holder_ : bool;
  write_handle_ : bool;
  output_buffer_ : SendQueue.SendQueue;
  high_water_mark_ : Z;
  is_sending_ : bool;
  is_error_ : bool;
  max_slices_ : nat;
  temp_data_ : list SendQueue.iovec;
  fd_ : Z
}.
Definition new_WriteContext (high_water_mark fd : Z) (max_slices : nat) : result WriteContext :=
  _ ← assert_ (negb (fd =? 0));
  Ok (mk 0 0 false false SendQueue.new_SendQueue high_water_mark false false max_slices [] fd).

Definition set_result (res flags : Z) (w : WriteContext) : WriteContext :=
  mk res flags (holder_ w) (write_handle_ w) (output_buffer_ w) (high_water_mark_ w) (is_sending_ w) (is_error_ w)
    (max_slices_ w) (temp_data_ w) (fd_ w).
Definition set_holder (b : bool) (w : WriteContext) : WriteContext :=
  mk (res_ w) (flags_ w) b (write_handle_ w) (output_buffer_ w) (high_water_mark_ w) (is_sending_ w) (is_error_ w)
    (max_slices_ w) (temp_data_ w) (fd_ w).
Definition set_handle (b : bool) (w : WriteContext) : WriteContext :=
  mk (res_ w) (flags_ w) (holder_ w) b (output_buffer_ w) (high_water_mark_ w) (is_sending_ w) (is_error_ w)
    (max_slices_ w) (temp_data_ w) (fd_ w).
Definition set_buffer (q : SendQueue.SendQueue) (vs : list SendQueue.iovec) (w : WriteContext) : WriteContext :=
  mk (res_ w) (flags_ w) (holder_ w) (write_handle_ w) q (high_water_mark_ w) (is_sending_ w) (is_error_ w)
    (max_slices_ w) vs (fd_ w).
Definition set_sending (b : bool) (w : WriteContext) : WriteContext :=
  mk (res_ w) (flags_ w) (holder_ w) (write_handle_ w) (output_buffer_ w) (high_water_mark_ w) b (is_error_ w)
    (max_slices_ w) (temp_data_ w) (fd_ w).
Definition set_error (b : bool) (w : WriteContext) : WriteContext :=
  mk (res_ w) (flags_ w) (holder_ w) (write_handle_ w) (output_buffer_ w) (high_water_mark_ w) (is_sending_ w) b
    (max_slices_ w) (temp_data_ w) (fd_ w).

Definition overLoad (w : WriteContext) : bool :=
  high_water_mark_ w <? SendQueue.getTotalLen (output_buffer_ w).
Definition isError (w : WriteContext) : bool := is_error_ w.
End WriteContext.

Inductive ReadStatus := STOPED | READING | CANCELING.
#[global] Instance ReadStatus_eq_dec : EqDecision ReadStatus.
Proof. solve_decision. Defined.

Module ReadContext.
Record ReadContext := mk {
  res_ : Z;
  flags_ : Z;
  holder_ : bool;
  read_handle_ : bool;
  input_buffer_ : InputChainBuffer.InputChainBuffer;
  high_water_mark_ : Z;
  high_water_mark_chunk_ : Z;
  is_error_ : bool;
  status_ : ReadStatus;
  fd_ : Z
}.
Definition new_ReadContext (high_water_mark high_water_mark_chunk fd : Z) : ReadContext :=
  mk 0 0 false false InputChainBuffer.new_InputChainBuffer high_water_mark high_water_mark_chunk false STOPED fd.

Definition set_result (res flags : Z) (r : ReadContext) : ReadContext :=
  mk res flags (holder_ r) (read_handle_ r) (input_buffer_ r) (high_water_mark_ r) (high_water_mark_chunk_ r)
    (is_error_ r) (status_ r) (fd_ r).
Definition set_holder (b : bool) (r : ReadContext) : ReadContext :=
  mk (res_ r) (flags_ r) b (read_handle_ r) (input_buffer_ r) (high_water_mark_ r) (high_water_mark_chunk_ r)
    (is_error_ r) (status_ r) (fd_ r).
Definition set_handle (b : bool) (r : ReadContext) : ReadContext :=
  mk (res_ r) (flags_ r) (holder_ r) b (input_buffer_ r) (high_water_mark_ r) (high_water_mark_chunk_ r)
    (is_error_ r) (status_ r) (fd_ r).
Definition set_buffer (q : InputChainBuffer.InputChainBuffer) (r : ReadContext) : ReadContext :=
  mk (res_ r) (flags_ r) (holder_ r) (read_handle_ r) q (high_water_mark_ r) (high_water_mark_chunk_ r)
    (is_error_ r) (status_ r) (fd_ r).
Definition set_error (b : bool) (r : ReadContext) : ReadContext :=
  mk (res_ r) (flags_ r) (holder_ r) (read_handle_ r) (input_buffer_ r) (high_water_mark_ r)
    (high_water_mark_chunk_ r) b (status_ r) (fd_ r).
Definition set_status (s : ReadStatus) (r : ReadContext) : ReadContext :=
  mk (res_ r) (flags_ r) (holder_ r) (read_handle_ r) (input_buffer_ r) (high_water_mark_ r)
    (high_water_mark_chunk_ r) (is_error_ r) s (fd_ r).

Definition overLoad (r : ReadContext) : bool :=
  (high_water_mark_ r <? InputChainBuffer.getTotalLen (input_buffer_ r)) ||
  (high_water_mark_chunk_ r <? InputChainBuffer.getTotalChunk (input_buffer_ r)).
Definition isEmpty (r : ReadContext) : bool := InputChainBuffer.getTotalLen (input_buffer_ r) =? 0.
End ReadContext.

Module TcpConnection.
Import WriteContext(WriteContext). Import ReadContext(ReadContext).
Module W := WriteContext.
Module R := ReadContext.

(** ** The coroutine

    What a business coroutine can do with its connection.  [Offload k]: it goes
    on with [k] on a thread that is not the loop's.  [Return]: it ends, at its final
    suspend point. *)
Inductive prog :=
  | Send (data : list byte) (k : bool -> prog)
  | PrepareToRead (k : Z -> prog)
  | Read (size : Z) (k : list byte -> prog)
  | Peek (k : option Z * Z -> prog)
  | Retrieve (size : Z) (k : prog)
  | Offload (k : prog)
  | Return.

(** The coroutine frame: suspended at the start, in an awaiter or at the end, or
    executing, or destroyed. *)
Inductive Frame :=
  | NotStarted (p : prog)
  | AtSend (k : bool -> prog)
  | AtRecv (k : Z -> prog)
  | Running
  | Elsewhere (p : prog)
  | Finished
  | FrameDestroyed.  (** also: no coroutine yet *)

(** What the connection asks of its loop, and the closures it queues there. *)
Inductive Request :=
  | SubmitRead (fd : Z)
  | SubmitWrite (fd : Z) (iov : list SendQueue.iovec)
  | SubmitCancel.
Inductive Functor :=
  | SendLater (data : list byte)
  | RecvLater
  | DestroyLater.

Section connection.
Context {A : Allocator} {B : BufRing}.

(** [base_here]: the server's base loop is the loop of the connection, so that
    the close callback takes the connection out of the server's table at once.
    [pool] is the buffer pool of the loop.  Ghost parts: the requests made, the
    operations in flight, the bytes given to [sendInLoop], the bytes the kernel
    took, the number of calls of the close callback, the bytes the kernel
    delivered and those of them the coroutine has consumed. *)
Record TcpConnection := mkConn {
  closing_ : bool;
  sock_closed_ : bool;
  task_handle_ : bool;
  frame_ : Frame;
  close_callback_ : bool;
  in_map : bool;
  base_here : bool;
  read_context_ : ReadContext;
  write_context_ : WriteContext;
  pool : Manager;
  functors : list Functor;
  requests : list Request;
  reads_in_flight : nat;
  writes_in_flight : nat;
  appended : list byte;
  wire : list byte;
  close_calls : nat;
  received : list byte;
  consumed : list byte
}.

Definition set_closing (b s : bool) (c : TcpConnection) : TcpConnection :=
  mkConn b s (task_handle_ c) (frame_ c) (close_callback_ c) (in_map c) (base_here c) (read_context_ c)
    (write_context_ c) (pool c) (functors c) (requests c) (reads_in_flight c) (writes_in_flight c) (appended c)
    (wire c) (close_calls c) (received c) (consumed c).
Definition set_frame (h : bool) (f : Frame) (c : TcpConnection) : TcpConnection :=
  mkConn (closing_ c) (sock_closed_ c) h f (close_callback_ c) (in_map c) (base_here c) (read_context_ c)
    (write_context_ c) (pool c) (functors c) (requests c) (reads_in_flight c) (writes_in_flight c) (appended c)
    (wire c) (close_calls c) (received c) (consumed c).
Definition set_map (m : bool) (n : nat) (c : TcpConnection) : TcpConnection :=
  mkConn (closing_ c) (sock_closed_ c) (task_handle_ c) (frame_ c) (close_callback_ c) m (base_here c)
    (read_context_ c) (write_context_ c) (pool c) (functors c) (requests c) (reads_in_flight c) (writes_in_flight c)
    (appended c) (wire c) n (received c) (consumed c).
Definition on_read (f : ReadContext -> ReadContext) (c : TcpConnection) : TcpConnection :=
  mkConn (closing_ c) (sock_closed_ c) (task_handle_ c) (frame_ c) (close_callback_ c) (in_map c) (base_here c)
    (f (read_context_ c)) (write_context_ c) (pool c) (functors c) (requests c) (reads_in_flight c)
    (writes_in_flight c) (appended c) (wire c) (close_calls c) (received c) (consumed c).
Definition on_write (f : WriteContext -> WriteContext) (c : TcpConnection) : TcpConnection :=
  mkConn (closing_ c) (sock_closed_ c) (task_handle_ c) (frame_ c) (close_callback_ c) (in_map c) (base_here c)
    (read_context_ c) (f (write_context_ c)) (pool c) (functors c) (requests c) (reads_in_flight c)
    (writes_in_flight c) (appended c) (wire c) (close_calls c) (received c) (consumed c).
Definition set_pool (m : Manager) (c : TcpConnection) : TcpConnection :=
  mkConn (closing_ c) (sock_closed_ c) (task_handle_ c) (frame_ c) (close_callback_ c) (in_map c) (base_here c)
    (read_context_ c) (write_context_ c) m (functors c) (requests c) (reads_in_flight c) (writes_in_flight c)
    (appended c) (wire c) (close_calls c) (received c) (consumed c).
Definition set_functors (fs : list Functor) (c : TcpConnection) : TcpConnection :=
  mkConn (closing_ c) (sock_closed_ c) (task_handle_ c) (frame_ c) (close_callback_ c) (in_map c) (base_here c)
    (read_context_ c) (write_context_ c) (pool c) fs (requests c) (reads_in_flight c) (writes_in_flight c)
    (appended c) (wire c) (close_calls c) (received c) (consumed c).
Definition request (q : Request) (nr nw : nat) (c : TcpConnection) : TcpConnection :=
  mkConn (closing_ c) (sock_closed_ c) (task_handle_ c) (frame_ c) (close_callback_ c) (in_map c) (base_here c)
    (read_context_ c) (write_context_ c) (pool c) (functors c) (requests c ++ [q]) nr nw (appended c) (wire c)
    (close_calls c) (received c) (consumed c).
Definition set_in_flight (nr nw : nat) (c : TcpConnection) : TcpConnection :=
  mkConn (closing_ c) (sock_closed_ c) (task_handle_ c) (frame_ c) (close_callback_ c) (in_map c) (base_here c)
    (read_context_ c) (write_context_ c) (pool c) (functors c) (requests c) nr nw (appended c) (wire c)
    (close_calls c) (received c) (consumed c).
Definition set_bytes (a w : list byte) (c : TcpConnection) : TcpConnection :=
  mkConn (closing_ c) (sock_closed_ c) (task_handle_ c) (frame_ c) (close_callback_ c) (in_map c) (base_here c)
    (read_context_ c) (write_context_ c) (pool c) (functors c) (requests c) (reads_in_flight c) (writes_in_flight c)
    a w (close_calls c) (received c) (consumed c).
Definition set_input (r k : list byte) (c : TcpConnection) : TcpConnection :=
  mkConn (closing_ c) (sock_closed_ c) (task_handle_ c) (frame_ c) (close_callback_ c) (in_map c) (base_here c)
    (read_context_ c) (write_context_ c) (pool c) (functors c) (requests c) (reads_in_flight c) (writes_in_flight c)
    (appended c) (wire c) (close_calls c) r k.

(** References that keep the connection alive. *)
Definition refs (c : TcpConnection) : nat :=
  ((if R.holder_ (read_context_ c) then 1 else 0) + (if W.holder_ (write_context_ c) then 1 else 0) +
   (match frame_ c with FrameDestroyed => 0 | _ => 1 end) + (if in_map c then 1 else 0) +
   length (List.filter (fun f => match f with DestroyLater => true | _ => false end) (functors c)))%nat.

(** A member is used after a [holder_.reset()]. *)
Definition alive (c : TcpConnection) : result unit :=
  match refs c with O => Fault Dangling | S _ => Ok tt end.

(** ** [submitRead], [submitWrite], [submitCancel] *)

Definition submitWrite (c : TcpConnection) : TcpConnection :=
  request (SubmitWrite (W.fd_ (write_context_ c)) (W.temp_data_ (write_context_ c))) (reads_in_flight c) (S (writes_in_flight c)) c.
Definition submitRead (c : TcpConnection) : TcpConnection :=
  let c := on_read (R.set_holder true) c in
  let c := request (SubmitRead (R.fd_ (read_context_ c))) (S (reads_in_flight c)) (writes_in_flight c) c in
  on_read (R.set_status READING) c.
Definition submitCancel (c : TcpConnection) : TcpConnection :=
  request SubmitCancel (reads_in_flight c) (writes_in_flight c) c.

(** ** Sending *)

Definition flush (c : TcpConnection) : result TcpConnection :=
  let w := write_context_ c in
  '(vs, q) ← SendQueue.getBatchFragment (W.max_slices_ w) (W.output_buffer_ w);
  let c := on_write (W.set_buffer q vs) c in
  _ ← assert_ (negb (bool_decide (vs = [])));
  if W.holder_ (write_context_ c)
  then Ok (on_write (W.set_sending true) (submitWrite c))
  else Fault NullDeref.

Definition sendInLoop (data : list byte) (c : TcpConnection) : result TcpConnection :=
  let w := write_context_ c in
  q ← SendQueue.append data (W.output_buffer_ w);
  let c := on_write (W.set_buffer q (W.temp_data_ w)) (set_bytes (appended c ++ data) (wire c) c) in
  if W.is_sending_ (write_context_ c) then Ok c
  else
    let c := on_write (W.set_holder true) c in
    c ← flush c;
    Ok (on_write (W.set_sending true) c).

(** ** The awaiters *)

Definition queue_destroy (c : TcpConnection) : TcpConnection := set_functors (functors c ++ [DestroyLater]) c.

(** The conversion of a [size_t] to the [int] that [PrepareToRead] returns. *)
Definition to_int (z : Z) : Z := (z + 2 ^ 31) mod 2 ^ 32 - 2 ^ 31.

Definition recv_await_resume (c : TcpConnection) : Z * TcpConnection :=
  if R.is_error_ (read_context_ c) then (-1, c)
  else if closing_ c then (-1, queue_destroy c)
  else (to_int (InputChainBuffer.getTotalLen (R.input_buffer_ (read_context_ c))), c).

Definition send_await_resume (c : TcpConnection) : bool * TcpConnection :=
  if closing_ c then (false, queue_destroy c)
  else (negb (W.isError (write_context_ c)), c).

(** The tests of [await_ready]: a closed connection never suspends, another
    thread always does.  On the loop thread [send] appends its data at once. *)
Definition recv_await_ready (here : bool) (c : TcpConnection) : bool :=
  if closing_ c then true
  else if negb here then false
  else negb (R.isEmpty (read_context_ c)).
Definition send_await_ready (here : bool) (data : list byte) (c : TcpConnection) : result (bool * TcpConnection) :=
  if closing_ c then Ok (true, c)
  else if negb here then Ok (false, c)
  else
    c ← sendInLoop data c;
    Ok (negb (W.overLoad (write_context_ c)), c).

(** [await_suspend]: the handle goes to the context that will wake the coroutine,
    on the loop thread directly and on another thread through a closure. *)
Definition recv_suspend_here (c : TcpConnection) : TcpConnection :=
  let c := on_read (R.set_handle true) c in
  if decide (R.status_ (read_context_ c) = STOPED) then submitRead c else c.
Definition recv_await_suspend (here : bool) (c : TcpConnection) : TcpConnection :=
  if negb here then set_functors (functors c ++ [RecvLater]) c
  else recv_suspend_here c.
Definition send_await_suspend (here : bool) (data : list byte) (c : TcpConnection) : TcpConnection :=
  if negb here then set_functors (functors c ++ [SendLater data]) c
  else on_write (W.set_handle true) c.

(** ** The calls that do not suspend *)

Definition read (size : Z) (c : TcpConnection) : result (list byte * TcpConnection) :=
  '(d, b, m) ← InputChainBuffer.removeAsString size (R.input_buffer_ (read_context_ c)) (pool c);
  Ok (d, set_input (received c) (consumed c ++ d) (set_pool m (on_read (R.set_buffer b) c))).
Definition peek (c : TcpConnection) : result (option Z * Z) :=
  InputChainBuffer.peek (R.input_buffer_ (read_context_ c)) (pool c).
(** The bytes [retrieve] skips, which are those [read] would have returned. *)
Definition skipped (size : Z) (c : TcpConnection) : list byte :=
  match InputChainBuffer.removeAsString size (R.input_buffer_ (read_context_ c)) (pool c) with
  | Ok (d, _, _) => d
  | Fault _ => []
  end.
Definition retrieve (size : Z) (c : TcpConnection) : result TcpConnection :=
  '(b, m) ← InputChainBuffer.retrieve size (R.input_buffer_ (read_context_ c)) (pool c);
  Ok (set_input (received c) (consumed c ++ skipped size c) (set_pool m (on_read (R.set_buffer b) c))).

(** The coroutine executes until it suspends; [here] tells whether it is on the
    loop thread.  [co_await] asks [await_ready], and then either suspends the
    frame and calls [await_suspend] or goes on with [await_resume]. *)
Fixpoint run (here : bool) (p : prog) (c : TcpConnection) : result TcpConnection :=
  match p with
  | Send data k =>
      '(ready, c) ← send_await_ready here data c;
      if (ready : bool) then let '(b, c) := send_await_resume c in run here (k b) c
      else Ok (send_await_suspend here data (set_frame (task_handle_ c) (AtSend k) c))
  | PrepareToRead k =>
      if recv_await_ready here c then let '(n, c) := recv_await_resume c in run here (k n) c
      else Ok (recv_await_suspend here (set_frame (task_handle_ c) (AtRecv k) c))
  | Read size k => '(d, c) ← read size c; run here (k d) c
  | Peek k => x ← peek c; run here (k x) c
  | Retrieve size k => c ← retrieve size c; run here k c
  | Offload k => Ok (set_frame (task_handle_ c) (Elsewhere k) c)
  | Return => Ok (set_frame (task_handle_ c) Finished c)
  end.

(** [handle.resume()] on the loop thread. *)
Definition resume (c : TcpConnection) : result TcpConnection :=
  match frame_ c with
  | NotStarted p => run true p (set_frame (task_handle_ c) Running c)
  | AtSend k =>
      let '(b, c) := send_await_resume (set_frame (task_handle_ c) Running c) in run true (k b) c
  | AtRecv k =>
      let '(n, c) := recv_await_resume (set_frame (task_handle_ c) Running c) in run true (k n) c
  | FrameDestroyed => Fault Dangling
  | _ => Fault UndefinedBehaviour
  end.

Definition is_done (c : TcpConnection) : bool :=
  match frame_ c with Finished => true | _ => false end.

(** [task_handle_.destroy()]: a coroutine that is executing must not be destroyed. *)
Definition destroy_task (c : TcpConnection) : result TcpConnection :=
  if task_handle_ c then
    match frame_ c with
    | Running | Elsewhere _ => Fault UndefinedBehaviour
    | FrameDestroyed => Fault Dangling
    | _ => Ok (set_frame false FrameDestroyed c)
    end
  else Ok c.

(** ** Closing *)

Definition handleClose (c : TcpConnection) : result TcpConnection :=
  if closing_ c then destroy_task c
  else
    let c := set_closing true true c in
    c ← (if R.read_handle_ (read_context_ c) || W.write_handle_ (write_context_ c) then destroy_task c else Ok c);
    let c := on_write (W.set_handle false) (on_read (R.set_handle false) c) in
    Ok (if close_callback_ c
        then set_map (if base_here c then false else in_map c) (S (close_calls c)) c
        else c).

(** ** Completion of a write *)

Definition EINTR := 4.
Definition EBADF := 9.
Definition EAGAIN := 11.
Definition EPIPE := 32.
Definition ECONNRESET := 104.
Definition ENOBUFS := 105.
Definition ENOTCONN := 107.
Definition ECANCELED := 125.

(** [WriteContext::handleError]: whether to close. *)
Definition write_handleError (c : TcpConnection) : bool * TcpConnection :=
  let res := W.res_ (write_context_ c) in
  if res <? 0 then
    let err := - res in
    if (err =? EPIPE) || (err =? ECONNRESET) then (true, on_write (W.set_error true) c)
    else if (err =? EAGAIN) || (err =? ENOBUFS) then (false, c)
    else if err =? EINTR then (false, c)
    else if (err =? EBADF) || (err =? ENOTCONN) then (true, on_write (W.set_error true) c)
    else (true, on_write (W.set_error true) c)
  else (true, c).

(** The part of [on_completion] behind the error handling. *)
Definition write_continue (c : TcpConnection) : result TcpConnection :=
  c ← (if 0 <? SendQueue.getTotalLen (W.output_buffer_ (write_context_ c)) then flush c
       else Ok (on_write (W.set_holder false) (on_write (W.set_sending false) c)));
  _ ← alive c;
  if W.write_handle_ (write_context_ c) && negb (W.overLoad (write_context_ c)) then
    let c := on_write (W.set_handle false) c in
    _ ← assert_ (negb (is_done c));
    resume c
  else Ok c.

Definition write_on_completion (c : TcpConnection) : result TcpConnection :=
  let w := write_context_ c in
  _ ← assert_ (W.holder_ w);
  if W.res_ w <? 0 then
    let '(need_close, c) := write_handleError c in
    let c := on_write (W.set_sending false) c in
    if need_close then
      c ← (if W.write_handle_ (write_context_ c) then resume c else Ok c);
      c ← (if W.holder_ (write_context_ c) then handleClose c else Fault NullDeref);
      let c := on_write (W.set_holder false) c in
      _ ← alive c;
      Ok (on_write (W.set_sending false) c)
    else write_continue c
  else
    q ← SendQueue.retrieve (W.res_ w) (W.output_buffer_ w);
    write_continue (on_write (W.set_buffer q (W.temp_data_ w)) c).

(** ** Completion of a read *)

Definition IORING_CQE_F_BUFFER (flags : Z) : bool := Z.testbit flags 0.
Definition IORING_CQE_F_MORE (flags : Z) : bool := Z.testbit flags 1.
Definition IORING_CQE_BUFFER_SHIFT : Z := 16.

Definition read_handleError (c : TcpConnection) : bool * TcpConnection :=
  let res := R.res_ (read_context_ c) in
  if res =? 0 then (true, on_read (R.set_error true) c)
  else if res <? 0 then
    let err := - res in
    if (err =? EPIPE) || (err =? ECONNRESET) then (true, on_read (R.set_error true) c)
    else if err =? ENOBUFS then (false, c)
    else if err =? EAGAIN then (false, c)
    else if (err =? ENOTCONN) || (err =? EBADF) then (true, on_read (R.set_error true) c)
    else if err =? ECANCELED then (false, c)
    else (true, on_read (R.set_error true) c)
  else (true, c).

(** The data of a completion goes into the input buffer; over a high-water mark
    the receive is cancelled. *)
Definition read_data (c : TcpConnection) : result TcpConnection :=
  let r := read_context_ c in
  _ ← assert_ (IORING_CQE_F_BUFFER (R.flags_ r));
  let buf_id := u16 (Z.shiftr (R.flags_ r) IORING_CQE_BUFFER_SHIFT) in
  '(b, m) ← InputChainBuffer.append buf_id (R.res_ r) (R.input_buffer_ r) (pool c);
  let c := set_pool m (on_read (R.set_buffer b) c) in
  let r := read_context_ c in
  Ok (if R.overLoad r && negb (bool_decide (R.status_ r = CANCELING))
      then on_read (R.set_status CANCELING) (submitCancel c) else c).

Definition read_wake (c : TcpConnection) : result TcpConnection :=
  if R.read_handle_ (read_context_ c) then
    let c := on_read (R.set_handle false) c in
    _ ← assert_ (negb (is_done c));
    resume c
  else Ok c.

(** The part of [on_completion] behind the error handling and the data. *)
Definition read_finish (need_close : bool) (c : TcpConnection) : result TcpConnection :=
  let r := read_context_ c in
  if negb (IORING_CQE_F_MORE (R.flags_ r)) then
    if bool_decide (R.status_ r = CANCELING) && negb need_close then
      let c := on_read (R.set_holder false) (on_read (R.set_status STOPED) c) in
      _ ← alive c;
      read_wake c
    else if bool_decide (R.status_ r = READING) && negb need_close then
      read_wake (submitRead c)
    else
      c ← (if R.read_handle_ r then resume c else Ok c);
      c ← (if R.holder_ (read_context_ c) then handleClose c else Fault NullDeref);
      let c := on_read (R.set_holder false) c in
      _ ← alive c;
      Ok (on_read (R.set_status STOPED) c)
  else read_wake c.

Definition read_on_completion (c : TcpConnection) : result TcpConnection :=
  let r := read_context_ c in
  _ ← assert_ (R.holder_ r);
  _ ← assert_ (bool_decide (R.status_ r = CANCELING) || bool_decide (R.status_ r = READING));
  '(need_close, c) ← (if R.res_ r <=? 0 then Ok (read_handleError c)
                      else c ← read_data c; Ok (false, c));
  read_finish need_close c.

(** ** Life cycle *)

Definition new_TcpConnection (sockfd : Z) (m : Manager) (input_high_water_mark input_high_water_mark_chunk
    out_put_high_water_mark : Z) (close_cb here : bool) : result TcpConnection :=
  w ← W.new_WriteContext out_put_high_water_mark sockfd 256;
  Ok (mkConn false false false FrameDestroyed close_cb true here
    (R.new_ReadContext input_high_water_mark input_high_water_mark_chunk sockfd) w m [] [] 0 0 [] [] 0 [] []).

Definition Established (p : prog) (c : TcpConnection) : result TcpConnection :=
  resume (set_frame true (NotStarted p) c).
(** A connection that is created and started. *)
Definition open_connection (sockfd : Z) (m : Manager) (ihw ihc ohw : Z) (close_cb here : bool) (p : prog)
    : result TcpConnection :=
  c ← new_TcpConnection sockfd m ihw ihc ohw close_cb here;
  Established p c.
Definition Destroyed (c : TcpConnection) : result TcpConnection := handleClose c.

(** [~TcpConnection] when the last reference is gone: the members go in the
    reverse order of their declaration, the output buffer frees its fragments, the
    input buffer gives its chunks back to the pool, the socket is closed and the
    coroutine destroyed. *)
Definition destruct_TcpConnection (c : TcpConnection) : result TcpConnection :=
  q ← SendQueue.destroy (W.output_buffer_ (write_context_ c));
  let c := on_write (W.set_buffer q (W.temp_data_ (write_context_ c))) c in
  '(b, m) ← InputChainBuffer.destroy (R.input_buffer_ (read_context_ c)) (pool c);
  let c := set_pool m (on_read (R.set_buffer b) c) in
  destroy_task (set_closing (closing_ c) true c).

(** The closures the connection queues in its loop; the awaiter they refer to lives
    in the coroutine frame. *)
Definition send_later (data : list byte) (c : TcpConnection) : result TcpConnection :=
  match frame_ c with
  | AtSend _ =>
      c ← sendInLoop data c;
      if negb (W.overLoad (write_context_ c)) then resume c
      else Ok (on_write (W.set_handle true) c)
  | FrameDestroyed => Fault Dangling
  | _ => Fault UndefinedBehaviour
  end.
Definition recv_later (c : TcpConnection) : result TcpConnection :=
  match frame_ c with
  | AtRecv _ =>
      if R.isEmpty (read_context_ c) then Ok (recv_suspend_here c) else resume c
  | FrameDestroyed => Fault Dangling
  | _ => Fault UndefinedBehaviour
  end.
Definition run_functor (f : Functor) (c : TcpConnection) : result TcpConnection :=
  match f with
  | DestroyLater => Destroyed c
  | SendLater data => send_later data c
  | RecvLater => recv_later c
  end.

(** ** Events

    What can happen to a connection from outside: the kernel completes a write
    (it took the first [res] bytes of the batch) or a receive (after filling the
    chunk it took from the ring), the loop runs a queued closure, another thread
    runs its part of the coroutine, the server drops the connection from its
    table. *)
Inductive event :=
  | WriteDone (res : Z)
  | ReadDone (res flags : Z) (data : list byte)
  | RunFunctor
  | OtherThread
  | MapErase.

(** The kernel takes the oldest chunk of the ring and stores the data in it. *)
Definition kernel_deliver (data : list byte) (m : Manager) : Manager :=
  match available (input_buf_ring_ m) with
  | b :: _ => kernel_fill (Z.to_nat b) data (kernel_take_chunk m)
  | [] => m
  end.

Definition step (e : event) (c : TcpConnection) : result TcpConnection :=
  match e with
  | WriteDone res =>
      let w := write_context_ c in
      bs ← SendQueue.iovs_bytes (SendQueue.heap (W.output_buffer_ w)) (W.temp_data_ w);
      let c := set_bytes (appended c) (wire c ++ ztake res bs) c in
      let c := set_in_flight (reads_in_flight c) (pred (writes_in_flight c)) c in
      write_on_completion (on_write (W.set_result res 0) c)
  | ReadDone res flags data =>
      let c := if 0 <? res
               then set_input (received c ++ data) (consumed c) (set_pool (kernel_deliver data (pool c)) c)
               else c in
      let c := if IORING_CQE_F_MORE flags then c
               else set_in_flight (pred (reads_in_flight c)) (writes_in_flight c) c in
      read_on_completion (on_read (R.set_result res flags) c)
  | RunFunctor =>
      match functors c with
      | [] => Ok c
      | f :: fs => run_functor f (set_functors fs c)
      end
  | OtherThread =>
      match frame_ c with
      | Elsewhere p => run false p (set_frame (task_handle_ c) Running c)
      | _ => Ok c
      end
  | MapErase => Ok (set_map false (close_calls c) c)
  end.

Fixpoint steps (es : list event) (c : TcpConnection) : result TcpConnection :=
  match es with
  | [] => Ok c
  | e :: es => c ← step e c; steps es c
  end.

End connection.
End TcpConnection.
