(* ===== verification/ConnectionSafety.v ===== *)
(** * Safety of a connection

    The invariant that ties the parts of a connection together, and its
    preservation by every completion: what is queued is what was sent and not
    yet taken by the kernel, the input buffer owns its chunks, a suspended
    coroutine is registered with the context that will wake it.

    The theorems have three conditions.  The coroutine is polite: it stays on the loop
    thread and returns when it is told that the connection is gone.  The run is smooth:
    no write fails with one of the errors that the code takes for transient, and the
    table of the server keeps the connection; what happens otherwise is the subject of
    [ConnectionFaults.v].  The loop is not the one the server runs in. *)

From S2P Require Import Prelude SendQueue ChunkPool InputChainBuffer TcpConnection.
Import ChunkPoolManagerInput TcpConnection.

Module ConnectionSafety.

(** Whether writes may fail at all.  A coroutine that tests the result of [send] can
    be trusted with writes that fail; one that does not is examined in runs in which
    none does. *)
Class WriteErrors := write_errors : bool.

Section safety.
Context {A : Allocator} {B : BufRing} {F : WriteErrors}.

(** ** Clients

    [D] bounds the data of one [send].  A polite coroutine stays on the loop thread
    and returns as soon as a call tells it of a failure, where writes may fail also a
    [send]; the result of [PrepareToRead] is an [int]. *)
Context (D : Z).

Fixpoint polite (p : prog) : Prop :=
  match p with
  | Send data k => zlen data <= D /\ (write_errors = true -> k false = Return) /\ polite (k true)
  | PrepareToRead k => k (-1) = Return /\ forall n, n <> -1 -> n < 2 ^ 31 -> polite (k n)
  | Read size k => 0 <= size < SIZE_MAX /\ forall d, zlen d <= size -> polite (k d)
  | Peek k => forall x, polite (k x)
  | Retrieve size k => 0 <= size < SIZE_MAX /\ polite k
  | Offload _ => False
  | Return => True
  end.

Definition buffered (c : TcpConnection) : Z := SendQueue.getTotalLen (W.output_buffer_ (write_context_ c)).

(** ** The invariant *)

(** The write side; [s] are the fragments of the batch in flight, [p] the rest. *)
Record write_inv (c : TcpConnection) (s p : list (nat * SendQueue.TxFragment)) : Prop := {
  wi_rep : SendQueue.rep (W.output_buffer_ (write_context_ c)) s p;
  wi_stream : wire c ++ SendQueue.bytes (s ++ p) = appended c;
  wi_slices : (0 < W.max_slices_ (write_context_ c))%nat;
  wi_mark : 0 <= W.high_water_mark_ (write_context_ c) /\ W.high_water_mark_ (write_context_ c) + D < SIZE_MAX;
  wi_sending :
    if W.is_sending_ (write_context_ c)
    then W.holder_ (write_context_ c) = true /\ writes_in_flight c = 1%nat /\
         SendQueue.iovs_bytes (SendQueue.heap (W.output_buffer_ (write_context_ c)))
           (W.temp_data_ (write_context_ c)) = Ok (SendQueue.bytes s)
    else W.holder_ (write_context_ c) = false /\ writes_in_flight c = 0%nat /\
         (closing_ c = true \/ (s = [] /\ SendQueue.bytes p = []));
  wi_error : W.is_error_ (write_context_ c) = true -> write_errors = true
}.

(** The other connections of the loop: the chunks they hold, and the pool as they
    left it. *)
Record others := mkOthers {
  theirs : list nat;
  before : Manager
}.

(** A pool in which the others find their data as they left it. *)
Record keeps (o : others) (m : Manager) : Prop := {
  keeps_size : CHUNK_SIZE m = CHUNK_SIZE (before o);
  keeps_chunks : length (chunks_data_ m) = length (chunks_data_ (before o));
  keeps_data b l : l.*1 ⊆ theirs o -> InputChainBuffer.rep (before o) b l ->
    InputChainBuffer.rep m b l /\ InputChainBuffer.bytes m l = InputChainBuffer.bytes (before o) l
}.

Lemma keeps_refl t m : keeps (mkOthers t m) m.
Proof. done. Qed.

Lemma keeps_step o m m' :
  keeps o m -> CHUNK_SIZE m' = CHUNK_SIZE m -> length (chunks_data_ m') = length (chunks_data_ m) ->
  (forall b l, l.*1 ⊆ theirs o -> InputChainBuffer.rep m b l ->
     InputChainBuffer.rep m' b l /\ InputChainBuffer.bytes m' l = InputChainBuffer.bytes m l) -> keeps o m'.
Proof.
  intros [Hz Hn Hd] Hz' Hn' Hd'. split; [congruence | congruence |]. intros b l Hl Hr. destruct (Hd b l Hl Hr) as [Hr1 Hb1].
  destruct (Hd' b l Hl Hr1) as [Hr2 Hb2]. split; [done | congruence].
Qed.

(** The input buffer; [l] are its chunks: it holds what was received and not yet
    consumed. *)
Record input_inv (o : others) (c : TcpConnection) (l : list (nat * Chunk.Chunk)) (av : list nat) : Prop := {
  ii_pool : pool_ok (pool c) av [] (l.*1 ++ theirs o);
  ii_rep : InputChainBuffer.rep (pool c) (R.input_buffer_ (read_context_ c)) l;
  ii_keeps : keeps o (pool c);
  ii_stream : received c = consumed c ++ InputChainBuffer.bytes (pool c) l
}.

(** The read side: the receive is in flight just when it is not stopped. *)
Record read_inv (o : others) (c : TcpConnection) (l : list (nat * Chunk.Chunk)) (av : list nat) : Prop := {
  ri_input : input_inv o c l av;
  ri_status :
    match R.status_ (read_context_ c) with
    | STOPED => R.holder_ (read_context_ c) = false /\ reads_in_flight c = 0%nat
    | _ => R.holder_ (read_context_ c) = true /\ reads_in_flight c = 1%nat
    end
}.

(** The coroutine: where it is suspended, and who will wake it.  Between events
    the reason it waits for holds ([sw] for a send, [sr] for a receive); a
    completion may have removed it. *)
Definition coroutine_ok (sw sr : bool) (c : TcpConnection) : Prop :=
  in_map c = true /\ base_here c = false /\ functors c = [] /\
  if closing_ c then
    R.read_handle_ (read_context_ c) = false /\ W.write_handle_ (write_context_ c) = false /\
    ((frame_ c = FrameDestroyed /\ task_handle_ c = false) \/ (frame_ c = Finished /\ task_handle_ c = true))
  else
    task_handle_ c = true /\
    match frame_ c with
    | AtSend k =>
        R.read_handle_ (read_context_ c) = false /\ W.write_handle_ (write_context_ c) = true /\
        (write_errors = true -> k false = Return) /\ polite (k true) /\
        (sw = true -> W.overLoad (write_context_ c) = true) /\ buffered c <= W.high_water_mark_ (write_context_ c) + D
    | AtRecv k =>
        R.read_handle_ (read_context_ c) = true /\ W.write_handle_ (write_context_ c) = false /\
        k (-1) = Return /\ (forall n, n <> -1 -> n < 2 ^ 31 -> polite (k n)) /\
        (sr = true -> R.status_ (read_context_ c) <> STOPED) /\ W.overLoad (write_context_ c) = false
    | Finished =>
        R.read_handle_ (read_context_ c) = false /\ W.write_handle_ (write_context_ c) = false /\
        buffered c <= W.high_water_mark_ (write_context_ c) + D
    | _ => False
    end.

Definition inv (o : others) (c : TcpConnection) : Prop :=
  (exists s p, write_inv c s p) /\ (exists l av, read_inv o c l av) /\ coroutine_ok true true c.

(** ** Sending *)

(** What an operation on the write side leaves alone. *)
Record untouched (c c' : TcpConnection) : Prop := {
  un_closing : closing_ c' = closing_ c;
  un_task : task_handle_ c' = task_handle_ c;
  un_frame : frame_ c' = frame_ c;
  un_callback : close_callback_ c' = close_callback_ c;
  un_map : in_map c' = in_map c;
  un_base : base_here c' = base_here c;
  un_read : read_context_ c' = read_context_ c;
  un_pool : pool c' = pool c;
  un_functors : functors c' = functors c;
  un_reads : reads_in_flight c' = reads_in_flight c;
  un_wire : wire c' = wire c;
  un_handle : W.write_handle_ (write_context_ c') = W.write_handle_ (write_context_ c);
  un_mark : W.high_water_mark_ (write_context_ c') = W.high_water_mark_ (write_context_ c);
  un_slices : W.max_slices_ (write_context_ c') = W.max_slices_ (write_context_ c);
  un_error : W.is_error_ (write_context_ c') = W.is_error_ (write_context_ c);
  un_received : received c' = received c;
  un_consumed : consumed c' = consumed c
}.

Lemma buffered_bytes c s p :
  SendQueue.rep (W.output_buffer_ (write_context_ c)) s p -> buffered c = zlen (SendQueue.bytes (s ++ p)).
Proof. intros H. apply (SendQueue.rep_total _ _ _ H). Qed.

Lemma flush_ok c p :
  SendQueue.rep (W.output_buffer_ (write_context_ c)) [] p -> p <> [] ->
  (0 < W.max_slices_ (write_context_ c))%nat -> W.holder_ (write_context_ c) = true ->
  exists c' s' p', flush c = Ok c' /\ untouched c c' /\ s' ++ p' = p /\
    SendQueue.rep (W.output_buffer_ (write_context_ c')) s' p' /\
    SendQueue.iovs_bytes (SendQueue.heap (W.output_buffer_ (write_context_ c')))
      (W.temp_data_ (write_context_ c')) = Ok (SendQueue.bytes s') /\
    W.is_sending_ (write_context_ c') = true /\ W.holder_ (write_context_ c') = true /\
    writes_in_flight c' = S (writes_in_flight c) /\ appended c' = appended c /\
    s' = take (W.max_slices_ (write_context_ c)) p.
Proof.
  intros Hr Hp Hm Hh. set (n := W.max_slices_ (write_context_ c)) in *.
  destruct (SendQueue.getBatchFragment_rep n _ _ _ Hr) as (q' & Hq & Hr' & _ & Hb).
  unfold flush. fold n. rewrite Hq. simpl.
  assert (Hne : map SendQueue.iovec_of (take n p) <> []) by (destruct n; [lia|]; by destruct p).
  rewrite (bool_decide_eq_false_2 _ Hne). simpl. rewrite Hh.
  eexists _, (take n p), (drop n p). split; [done|]. split; [by split|]. split; [apply take_drop|]. done.
Qed.

(** The queue after a flush satisfies the invariant of the write side. *)
Lemma flush_inv c p :
  SendQueue.rep (W.output_buffer_ (write_context_ c)) [] p -> p <> [] ->
  wire c ++ SendQueue.bytes p = appended c -> (0 < W.max_slices_ (write_context_ c))%nat ->
  0 <= W.high_water_mark_ (write_context_ c) /\ W.high_water_mark_ (write_context_ c) + D < SIZE_MAX ->
  W.holder_ (write_context_ c) = true -> writes_in_flight c = 0%nat ->
  (W.is_error_ (write_context_ c) = true -> write_errors = true) ->
  exists c' s' p', flush c = Ok c' /\ untouched c c' /\ write_inv c' s' p' /\
    W.is_sending_ (write_context_ c') = true /\ buffered c' = buffered c /\ appended c' = appended c /\
    s' = take (W.max_slices_ (write_context_ c)) p.
Proof.
  intros Hr Hp Hs Hm Hmk Hh Hn He.
  destruct (flush_ok c p Hr Hp Hm Hh) as (c' & s' & p' & Hf & Hu & Hl & Hr' & Hb & Hse & Hho & Hw & Ha & Ht).
  exists c', s', p'. split; [done|]. split; [done|]. split; [|split; [done|]].
  - destruct Hu. split; try congruence; [|by rewrite un_error0]. rewrite Hse. split; [done|]. split; [lia|done].
  - split; [|done]. rewrite (buffered_bytes _ _ _ Hr), (buffered_bytes _ _ _ Hr'), Hl. done.
Qed.

Lemma sendInLoop_ok data c s p :
  write_inv c s p -> closing_ c = false -> buffered c + zlen data < SIZE_MAX ->
  exists c' s' p', sendInLoop data c = Ok c' /\ untouched c c' /\ write_inv c' s' p' /\
    W.is_sending_ (write_context_ c') = true /\ buffered c' = buffered c + zlen data /\
    appended c' = appended c ++ data.
Proof.
  intros [Hr Hst Hsl Hmk Hse Her] Hcl Hb. rewrite (buffered_bytes _ _ _ Hr) in *.
  destruct (SendQueue.append_in_flight data _ s p Hr Hb) as (q' & s' & p' & Hq & Hr' & Hs' & Hp' & Hn & Hne & Hio).
  unfold sendInLoop. rewrite Hq. simpl.
  assert (Hby : SendQueue.bytes (s' ++ p') = SendQueue.bytes (s ++ p) ++ data).
  { by rewrite !SendQueue.bytes_app, Hs', Hp', app_assoc. }
  destruct (W.is_sending_ (write_context_ c)) eqn:Es.
  - destruct Hse as (Hh & Hw & Hv). eexists _, s', p'. split; [done|]. split; [by split|].
    split; [split; simpl; try done|split; [done|]].
    + by rewrite Hby, app_assoc, Hst.
    + rewrite Es. split; [done|]. split; [done|]. rewrite Hs'. by apply Hio.
    + split; [|done]. rewrite (buffered_bytes _ s' p') by done. rewrite Hby. zlen_solve.
  - destruct Hse as (Hh & Hw & Hpe). destruct Hpe as [?|[-> Hpe]]; [congruence|]. destruct s'; [|done]. simpl in Hby.
    set (c1 := on_write (W.set_holder true) _).
    destruct (flush_inv c1 p') as (c' & s2 & p2 & -> & Hu & Hi & Hse & Hbu & Ha & _); try done.
    { simpl. rewrite Hby, app_assoc. simpl in Hst. by rewrite Hst. }
    simpl. exists (on_write (W.set_sending true) c'), s2, p2. split; [done|].
    split; [destruct Hu; by split|]. split.
    { destruct Hi as [? ? ? ? Hs ?]. split; try done. simpl. by rewrite Hse in Hs. }
    split; [done|]. split; [|done]. change (buffered (on_write _ c')) with (buffered c'). rewrite Hbu.
    rewrite (buffered_bytes c1 [] p') by done. simpl. rewrite Hby. zlen_solve.
Qed.

(** ** The coroutine runs *)

(** The state in which the coroutine executes on the loop thread. *)
Record ready (o : others) (c : TcpConnection) : Prop := {
  rd_write : exists s p, write_inv c s p;
  rd_read : exists l av, read_inv o c l av;
  rd_map : in_map c = true;
  rd_base : base_here c = false;
  rd_functors : functors c = [];
  rd_closing : closing_ c = false;
  rd_task : task_handle_ c = true;
  rd_rhandle : R.read_handle_ (read_context_ c) = false;
  rd_whandle : W.write_handle_ (write_context_ c) = false;
  rd_load : W.overLoad (write_context_ c) = false
}.

Lemma write_inv_mono c c' s p :
  write_inv c s p -> write_context_ c' = write_context_ c -> wire c' = wire c -> appended c' = appended c ->
  writes_in_flight c' = writes_in_flight c -> closing_ c' = closing_ c -> write_inv c' s p.
Proof. intros [? ? ? ? ? ?] Hw Hwi Ha Hf Hc. split; rewrite ?Hw, ?Hwi, ?Ha, ?Hf, ?Hc; done. Qed.

Lemma input_inv_mono o c c' l av :
  input_inv o c l av -> R.input_buffer_ (read_context_ c') = R.input_buffer_ (read_context_ c) -> pool c' = pool c ->
  received c' = received c -> consumed c' = consumed c -> input_inv o c' l av.
Proof. intros [? ? ? ?] Hr Hp Hi Hk. split; rewrite ?Hr, ?Hp, ?Hi, ?Hk; done. Qed.

Lemma read_inv_mono o c c' l av :
  read_inv o c l av -> read_context_ c' = read_context_ c -> pool c' = pool c ->
  reads_in_flight c' = reads_in_flight c -> received c' = received c -> consumed c' = consumed c ->
  read_inv o c' l av.
Proof.
  intros [Hi ?] Hr Hp Hf Hrv Hcn. split; [|by rewrite Hr, Hf]. eapply input_inv_mono; [exact Hi|..]; congruence.
Qed.

Lemma overLoad_false c : W.overLoad (write_context_ c) = false -> buffered c <= W.high_water_mark_ (write_context_ c).
Proof. apply Z.ltb_ge. Qed.

Lemma ready_untouched o c c' s p :
  ready o c -> untouched c c' -> write_inv c' s p -> W.overLoad (write_context_ c') = false -> ready o c'.
Proof.
  intros [_ (l & av & Hri) ? ? ? ? ? ? ? ?] Hu Hw Ho. destruct Hu. split; try congruence; eauto.
  exists l, av. by eapply read_inv_mono.
Qed.

Lemma ready_error o c : ready o c -> W.is_error_ (write_context_ c) = true -> write_errors = true.
Proof. intros Hr. destruct (rd_write _ _ Hr) as (s & p & Hw). apply (wi_error _ _ _ Hw). Qed.

Lemma to_int_lt z : to_int z < 2 ^ 31.
Proof. unfold to_int. pose proof (Z.mod_pos_bound (z + 2 ^ 31) (2 ^ 32)). lia. Qed.

Lemma finish_ok o c : 0 <= D -> ready o c -> inv o (set_frame (task_handle_ c) Finished c).
Proof.
  intros HD [(s & p & Hw) (l & av & Hr) ? ? ? Hc ? ? ? Ho]. split; [|split].
  - exists s, p. by eapply write_inv_mono.
  - exists l, av. by eapply read_inv_mono.
  - unfold coroutine_ok. simpl. rewrite Hc. apply overLoad_false in Ho.
    change (buffered (set_frame _ _ c)) with (buffered c). split_and!; try done. lia.
Qed.

(** The reads of the coroutine give chunks back to the ring, and what they return
    is what was received first. *)
Lemma ready_read o c size :
  ready o c -> 0 <= size < SIZE_MAX ->
  exists d c', read size c = Ok (d, c') /\ retrieve size c = Ok c' /\ zlen d <= size /\ ready o c'.
Proof.
  intros [(s & p & Hw) (l & av & [[Hp Hr Hk Hst] ?]) ? ? ? ? ? ? ? ?] Hsz.
  destruct (InputChainBuffer.removeAsString_ok size _ _ _ _ _ _ Hp Hr Hsz)
    as (b' & m' & l' & ret & Hq & Hq2 & Hr' & Hb' & Hl & Hp' & Ho & Hz & _).
  apply (f_equal length) in Hl. rewrite length_app, !length_fmap in Hl.
  unfold read, retrieve, skipped. rewrite Hq, Hq2. simpl. eexists _, _. split; [done|]. split; [done|].
  pose proof (zlen_nonneg (InputChainBuffer.bytes (pool c) l)).
  split; [rewrite zlen_ztake; lia|]. split; try done.
  - exists s, p. by eapply write_inv_mono.
  - exists l', (av ++ ret). split; [|done]. split; try done; simpl; [|by rewrite Hb', <- app_assoc, ztake_zdrop].
    eapply keeps_step; [exact Hk | done | | done]. rewrite (pool_length _ _ _ _ Hp), (pool_length _ _ _ _ Hp').
    rewrite !length_app, !length_fmap. lia.
Qed.

Lemma recv_suspend_ok o c k :
  ready o c -> k (-1) = Return -> (forall n, n <> -1 -> n < 2 ^ 31 -> polite (k n)) ->
  inv o (recv_suspend_here (set_frame (task_handle_ c) (AtRecv k) c)).
Proof.
  intros [(s & p & Hw) (l & av & Hr) ? ? ? Hc ? ? ? ?] Hk1 Hk2.
  unfold recv_suspend_here. simpl. destruct Hr as [Hin Hst]. case_decide as Hs; (split; [|split]).
  - exists s, p. by eapply write_inv_mono.
  - exists l, av. rewrite Hs in Hst. destruct Hst as [_ Hst]. split; [by eapply input_inv_mono|]. simpl. by rewrite Hst.
  - unfold coroutine_ok. simpl. rewrite Hc. done.
  - exists s, p. by eapply write_inv_mono.
  - exists l, av. split; [by eapply input_inv_mono | done].
  - unfold coroutine_ok. simpl. rewrite Hc. done.
Qed.

Context (D_nonneg : 0 <= D).

(** A [send] that finds room goes on, one that does not suspends. *)
Lemma send_ready_ok o c data k :
  ready o c -> zlen data <= D -> (write_errors = true -> k false = Return) -> polite (k true) ->
  exists rdy c', send_await_ready true data c = Ok (rdy, c') /\ closing_ c' = false /\
    if rdy then ready o c' else inv o (send_await_suspend true data (set_frame (task_handle_ c') (AtSend k) c')).
Proof.
  intros Hrd Hd Hkf Hkt. unfold send_await_ready. rewrite (rd_closing _ _ Hrd). simpl.
  destruct (rd_write _ _ Hrd) as (s & q & Hw). pose proof (overLoad_false _ (rd_load _ _ Hrd)) as Hl.
  destruct (sendInLoop_ok data c s q Hw (rd_closing _ _ Hrd)) as (c' & s' & q' & -> & Hu & Hw' & Hse & Hb & _).
  { pose proof (wi_mark _ _ _ Hw). lia. }
  simpl. eexists _, c'. split; [done|]. split; [rewrite (un_closing _ _ Hu); apply (rd_closing _ _ Hrd)|].
  destruct (W.overLoad (write_context_ c')) eqn:Eo; simpl; [|by eapply ready_untouched].
  destruct Hrd as [_ (l & av & Hr) ? ? ? Hcl ? ? ? ?]. pose proof Hu as []. split; [|split].
  - exists s', q'. destruct Hw'. by split.
  - exists l, av. by eapply read_inv_mono.
  - unfold coroutine_ok. simpl. rewrite un_closing0, Hcl. change (buffered (send_await_suspend _ _ _)) with (buffered c').
    simpl. split_and!; try congruence; [done | intros _; exact Eo | lia].
Qed.

Lemma run_ok o p : forall c, polite p -> ready o c ->
  exists c', run true p c = Ok c' /\ inv o c' /\ closing_ c' = false.
Proof.
  induction p as [d k IH|k IH|sz k IH|k IH|sz k IH|k IH|]; intros c Hp Hrd; simpl in Hp |- *.
  - destruct Hp as (Hd & Hkf & Hkt).
    destruct (send_ready_ok o c d k Hrd Hd Hkf Hkt) as (rdy & c' & -> & Hcl & Hrd'). simpl.
    destruct rdy; [|by eexists]. unfold send_await_resume. rewrite Hcl. simpl.
    unfold W.isError. destruct (W.is_error_ (write_context_ c')) eqn:Ee; [|by apply IH]. simpl.
    rewrite Hkf by (by eapply ready_error). eexists. split; [done|]. split; [by apply finish_ok | done].
  - destruct Hp as [Hk1 Hk2]. unfold recv_await_ready. rewrite (rd_closing _ _ Hrd). simpl.
    destruct (R.isEmpty (read_context_ c)) eqn:Ee; simpl.
    + eexists. split; [done|]. split; [by apply recv_suspend_ok|].
      unfold recv_await_suspend, recv_suspend_here. simpl. case_decide; apply (rd_closing _ _ Hrd).
    + unfold recv_await_resume. rewrite (rd_closing _ _ Hrd).
      assert (Hret : exists c', run true (k (-1)) c = Ok c' /\ inv o c' /\ closing_ c' = false).
      { rewrite Hk1. simpl. eexists. split; [done|]. split; [by apply finish_ok | apply (rd_closing _ _ Hrd)]. }
      destruct (R.is_error_ _); [done|].
      destruct (decide (to_int (InputChainBuffer.getTotalLen (R.input_buffer_ (read_context_ c))) = -1)) as [->|Hn];
        [done|]. apply IH; [apply Hk2; [done | apply to_int_lt] | done].
  - destruct Hp as [Hsz Hk]. destruct (ready_read o c sz Hrd Hsz) as (d & c' & -> & _ & Hd & Hrd').
    apply IH; [by apply Hk | done].
  - destruct (rd_read _ _ Hrd) as (l & av & [[Hpo Hre _ _] _]). unfold peek.
    destruct (InputChainBuffer.peek_ok _ _ _ _ _ _ Hpo Hre) as (a & n & rest & -> & _). by apply IH.
  - destruct Hp as [Hsz Hk]. destruct (ready_read o c sz Hrd Hsz) as (d & c' & _ & -> & _ & Hrd'). by apply IH.
  - done.
  - eexists. split; [done|]. split; [by apply finish_ok | apply (rd_closing _ _ Hrd)].
Qed.

(** ** Closing *)

(** Everything but the coroutine, the handles and the closing flag is kept. *)
Record closed (c c' : TcpConnection) : Prop := {
  cl_closing : closing_ c' = true;
  cl_read : exists h, read_context_ c' = R.set_handle h (read_context_ c);
  cl_write : exists h, write_context_ c' = W.set_handle h (write_context_ c);
  cl_pool : pool c' = pool c;
  cl_reads : reads_in_flight c' = reads_in_flight c;
  cl_writes : writes_in_flight c' = writes_in_flight c;
  cl_wire : wire c' = wire c;
  cl_appended : appended c' = appended c;
  cl_received : received c' = received c;
  cl_consumed : consumed c' = consumed c
}.

(** A coroutine that [handleClose] can deal with: it is suspended, and registered
    with a context unless it has finished. *)
Definition closable (c : TcpConnection) : Prop :=
  in_map c = true /\ base_here c = false /\ functors c = [] /\
  if closing_ c then
    R.read_handle_ (read_context_ c) = false /\ W.write_handle_ (write_context_ c) = false /\
    ((frame_ c = FrameDestroyed /\ task_handle_ c = false) \/ (frame_ c = Finished /\ task_handle_ c = true))
  else
    task_handle_ c = true /\
    (frame_ c = Finished \/
     (R.read_handle_ (read_context_ c) || W.write_handle_ (write_context_ c) = true /\
      match frame_ c with AtSend _ | AtRecv _ => True | _ => False end)).

Lemma coroutine_closable sw sr c : coroutine_ok sw sr c -> closable c.
Proof.
  unfold coroutine_ok, closable. destruct (closing_ c); [done|].
  intros (? & ? & ? & ? & Hf). split_and!; try done.
  destruct (frame_ c); try done; [right|right|by left].
  - destruct Hf as (-> & -> & _). done.
  - destruct Hf as (-> & -> & _). done.
Qed.

Lemma handleClose_ok c :
  closable c -> exists c', handleClose c = Ok c' /\ closed c c' /\ coroutine_ok true true c'.
Proof.
  intros (Hm & Hb & Hf & Hc). unfold handleClose, destroy_task.
  destruct (closing_ c) eqn:Ec.
  - destruct Hc as (Hr & Hw & [[Hfr Ht]|[Hfr Ht]]); rewrite Ht, ?Hfr; (eexists; split; [done|]); (split; [split|]);
      try done; try (by eexists).
    + exists false. rewrite <- Hr. by destruct (read_context_ c).
    + exists false. rewrite <- Hw. by destruct (write_context_ c).
    + unfold coroutine_ok. rewrite Ec. auto 10.
    + exists false. simpl. rewrite <- Hr. by destruct (read_context_ c).
    + exists false. simpl. rewrite <- Hw. by destruct (write_context_ c).
    + unfold coroutine_ok. simpl. rewrite Ec. auto 10.
  - destruct Hc as [Ht Hfr]. simpl.
    assert (Hd : exists h f, (if R.read_handle_ (read_context_ c) || W.write_handle_ (write_context_ c) then
        if task_handle_ c
        then match frame_ c with
             | Running | Elsewhere _ => Fault UndefinedBehaviour
             | FrameDestroyed => Fault Dangling
             | _ => Ok (set_frame false FrameDestroyed (set_closing true true c))
             end
        else Ok (set_closing true true c)
      else Ok (set_closing true true c)) = Ok (set_frame h f (set_closing true true c)) /\
      ((f = FrameDestroyed /\ h = false) \/ (f = Finished /\ h = true))).
    { rewrite Ht. destruct (R.read_handle_ _ || W.write_handle_ _) eqn:Eh.
      - destruct Hfr as [->|[_ Hfr]]; [by eauto 10|]. destruct (frame_ c); try done; by eauto 10.
      - destruct Hfr as [Hfr|[? _]]; [|done]. exists true, Finished. split; [|auto].
        unfold set_frame, set_closing. simpl. rewrite <- Ht, <- Hfr. done. }
    destruct Hd as (h & f & Hd & Hhf). simpl in Hd. rewrite Hd. simpl. rewrite Hb.
    eexists. split; [done|]. destruct (close_callback_ c); (split; [split|]); simpl; try done; try (by eexists);
      unfold coroutine_ok; simpl; split_and!; try done.
Qed.

Lemma closed_write_inv c c' s p : closed c c' -> write_inv c s p -> write_inv c' s p.
Proof.
  intros [Hc _ [h Hw] _ _ Hf Hwi Ha _ _] [? ? ? ? Hs ?]. split; rewrite ?Hw, ?Hwi, ?Ha, ?Hc, ?Hf; try done. simpl.
  destruct (W.is_sending_ _); [done|]. destruct Hs as (? & ? & ?). auto.
Qed.

Lemma closed_input_inv o c c' l av : closed c c' -> input_inv o c l av -> input_inv o c' l av.
Proof. intros [_ [h Hr] _ Hp _ _ _ _ Hi Hk] H. eapply input_inv_mono; [exact H|by rewrite Hr|done..]. Qed.

Lemma alive_ok c : in_map c = true -> alive c = Ok tt.
Proof.
  intros Hm. unfold alive. destruct (refs c) eqn:E; [|done]. unfold refs in E. rewrite Hm in E. lia.
Qed.

(** ** Completion of a write *)

Lemma overLoad_same c c' :
  buffered c' = buffered c -> W.high_water_mark_ (write_context_ c') = W.high_water_mark_ (write_context_ c) ->
  W.overLoad (write_context_ c') = W.overLoad (write_context_ c).
Proof. unfold buffered, W.overLoad. by intros -> ->. Qed.

Lemma coroutine_untouched sw sr c c' :
  untouched c c' -> buffered c' = buffered c -> coroutine_ok sw sr c -> coroutine_ok sw sr c'.
Proof.
  intros Hu Hb Hc. pose proof (overLoad_same _ _ Hb (un_mark _ _ Hu)) as Ho. destruct Hu.
  unfold coroutine_ok in *.
  rewrite un_map0, un_base0, un_functors0, un_closing0, un_task0, un_frame0, un_read0, un_handle0, un_mark0, Ho, Hb.
  done.
Qed.

(** The coroutine is resumed out of a [send]. *)
Lemma resume_send_ok o c k :
  ready o c -> frame_ c = AtSend k -> (write_errors = true -> k false = Return) -> polite (k true) ->
  exists c', resume c = Ok c' /\ inv o c'.
Proof.
  intros Hrd Hf Hk1 Hk2. unfold resume, send_await_resume. rewrite Hf. simpl. rewrite (rd_closing _ _ Hrd).
  assert (Hrd' : ready o (set_frame (task_handle_ c) Running c)).
  { destruct Hrd as [(s & p & Hw) (l & av & Hr) ? ? ? ? ? ? ? ?]. split; try done.
    - exists s, p. by eapply write_inv_mono.
    - exists l, av. by eapply read_inv_mono. }
  unfold W.isError. destruct (W.is_error_ (write_context_ c)) eqn:Ee; cbn [negb andb].
  2:{ destruct (run_ok o (k true) _ Hk2 Hrd') as (c' & ? & ? & _). eauto. }
  - rewrite Hk1 by (by eapply ready_error). simpl. eexists. split; [done|]. by apply (finish_ok o (set_frame _ Running c)).
Qed.

Lemma write_continue_ok o c p l av :
  SendQueue.rep (W.output_buffer_ (write_context_ c)) [] p -> wire c ++ SendQueue.bytes p = appended c ->
  (0 < W.max_slices_ (write_context_ c))%nat ->
  0 <= W.high_water_mark_ (write_context_ c) /\ W.high_water_mark_ (write_context_ c) + D < SIZE_MAX ->
  W.holder_ (write_context_ c) = true -> writes_in_flight c = 0%nat ->
  (W.is_error_ (write_context_ c) = true -> write_errors = true) -> read_inv o c l av -> coroutine_ok false true c ->
  exists c', write_continue c = Ok c' /\ inv o c'.
Proof.
  intros Hr Hst Hsl Hmk Hh Hf Her Hri Hco. unfold write_continue.
  assert (Hc1 : exists c1 s1 p1, (if 0 <? SendQueue.getTotalLen (W.output_buffer_ (write_context_ c)) then flush c
       else Ok (on_write (W.set_holder false) (on_write (W.set_sending false) c))) = Ok c1 /\
       untouched c c1 /\ write_inv c1 s1 p1 /\ buffered c1 = buffered c).
  { fold (buffered c). destruct (Z.ltb_spec 0 (buffered c)) as [Hlt|Hge].
    - destruct (flush_inv c p) as (c1 & s1 & p1 & ? & ? & ? & _ & ? & _); try done; [|by eauto 10].
      intros ->. rewrite (buffered_bytes _ _ _ Hr) in Hlt. by vm_compute in Hlt.
    - eexists _, [], p. split; [done|]. split; [by split|]. split; [|done]. split; simpl; try done.
      split_and!; try done. right. split; [done|]. rewrite (buffered_bytes _ _ _ Hr) in Hge. simpl in Hge.
      pose proof (zlen_nonneg (SendQueue.bytes p)). apply length_zero_iff_nil. unfold zlen in *. lia. }
  destruct Hc1 as (c1 & s1 & p1 & -> & Hu & Hw1 & Hb1). simpl.
  pose proof (coroutine_untouched _ _ _ _ Hu Hb1 Hco) as Hco1.
  assert (Hri1 : read_inv o c1 l av) by (destruct Hu; by eapply read_inv_mono).
  pose proof Hco1 as (Hmap & Hba & Hfu & Hcl). rewrite (alive_ok _ Hmap). simpl.
  destruct (W.write_handle_ (write_context_ c1)) eqn:Ewh; simpl.
  2:{ eexists. split; [done|]. split; [by eauto|]. split; [by eauto|]. unfold coroutine_ok.
      rewrite Ewh. split_and!; try done. destruct (closing_ c1); [done|]. destruct Hcl as [? Hfr]. split; [done|].
      destruct (frame_ c1); try done. by destruct Hfr as (_ & ? & _). }
  destruct (closing_ c1) eqn:Ecl; [destruct Hcl as (_ & ? & _); congruence|].
  destruct Hcl as [Htk Hfr]. destruct (frame_ c1) as [|k| | | | |] eqn:Efr; try done;
    [|destruct Hfr as (_ & ? & _); congruence|destruct Hfr as (_ & ? & _); congruence].
  destruct Hfr as (Hrh & _ & Hk1 & Hk2 & _ & Hbd).
  destruct (W.overLoad (write_context_ c1)) eqn:Eo; simpl.
  - eexists. split; [done|]. split; [by eauto|]. split; [by eauto|]. unfold coroutine_ok.
    rewrite Ecl, Efr. split_and!; try done.
  - unfold is_done. simpl. rewrite Efr. simpl.
    apply (resume_send_ok o _ k); [|done|done|done]. split; simpl; try done.
    + exists s1, p1. destruct Hw1. by split.
    + exists l, av. by eapply read_inv_mono.
Qed.

(** Errors after which [on_completion] does not close but goes on. *)
Definition retryable (res : Z) : bool := (- res =? EAGAIN) || (- res =? ENOBUFS) || (- res =? EINTR).

Lemma write_handleError_close c :
  W.res_ (write_context_ c) < 0 -> retryable (W.res_ (write_context_ c)) = false ->
  write_handleError c = (true, on_write (W.set_error true) c).
Proof.
  intros Hneg Hr. unfold write_handleError, retryable in *. set (r := W.res_ (write_context_ c)) in *.
  rewrite (proj2 (Z.ltb_lt _ _) Hneg). apply orb_false_iff in Hr as [Hr Hi]. rewrite Hr, Hi.
  by repeat case_match.
Qed.

(** The coroutine is told that the connection failed, and returns. *)
Lemma resume_send_failed c k :
  frame_ c = AtSend k -> k false = Return -> closing_ c = false -> W.is_error_ (write_context_ c) = true ->
  resume c = Ok (set_frame (task_handle_ c) Finished c).
Proof.
  intros Hf Hk Hc He. unfold resume, send_await_resume, W.isError. rewrite Hf. simpl. rewrite Hc, He. simpl.
  by rewrite Hk.
Qed.

Lemma write_failed_ok o c s p l av res :
  write_inv c s p -> read_inv o c l av -> coroutine_ok true true c -> W.is_sending_ (write_context_ c) = true ->
  res < 0 -> retryable res = false -> write_errors = true ->
  exists c', write_on_completion (on_write (W.set_result res 0)
      (set_in_flight (reads_in_flight c) (pred (writes_in_flight c)) c)) = Ok c' /\ inv o c'.
Proof.
  intros Hw Hr Hco Hse Hneg Hrt HF. pose proof (wi_sending _ _ _ Hw) as Hs. rewrite Hse in Hs.
  destruct Hs as (Hh & Hfl & _). unfold write_on_completion. simpl. rewrite Hh. simpl.
  rewrite (proj2 (Z.ltb_lt _ _) Hneg), write_handleError_close by done. rewrite Hfl. simpl.
  set (c1 := on_write (W.set_sending false) _).
  assert (Hw1 : forall c2, closing_ c2 = true -> wire c2 = wire c -> appended c2 = appended c ->
    writes_in_flight c2 = 0%nat -> (exists h, write_context_ c2 = W.set_handle h (write_context_ c1)) ->
    write_inv (on_write (W.set_sending false) (on_write (W.set_holder false) c2)) s p).
  { intros c2 Hc2 Hwi Ha Hn [h Hwc]. destruct Hw. split; simpl; rewrite ?Hwc, ?Hwi, ?Ha; simpl; auto. }
  assert (Hc2 : exists c2, (if W.write_handle_ (write_context_ c) then resume c1 else Ok c1) = Ok c2 /\
    (c2 = c1 \/ c2 = set_frame (task_handle_ c) Finished c1) /\ closable c2).
  { destruct (W.write_handle_ (write_context_ c)) eqn:Ewh.
    - pose proof Hco as (Hmap & Hba & Hfu & Hcl).
      destruct (closing_ c) eqn:Ecl; [destruct Hcl as (_ & ? & _); congruence|]. destruct Hcl as [Htk Hfr].
      destruct (frame_ c) as [|k| | | | |] eqn:Efr; try done;
        [|destruct Hfr as (_ & ? & _); congruence|destruct Hfr as (_ & ? & _); congruence].
      destruct Hfr as (_ & _ & Hk & _). specialize (Hk HF).
      rewrite (resume_send_failed c1 k) by done. eexists. split; [done|]. split; [by right|].
      unfold closable. simpl. rewrite Ecl. auto 10.
    - exists c1. split; [done|]. split; [by left|]. by apply (coroutine_closable true true c). }
  destruct Hc2 as (c2 & -> & Hc2 & Hcl2). simpl.
  assert (W.holder_ (write_context_ c2) = true) as -> by (by destruct Hc2; subst c2).
  destruct (handleClose_ok c2 Hcl2) as (c3 & -> & Hcd & Hco3). simpl.
  rewrite (alive_ok (on_write _ c3)) by (simpl; apply Hco3). simpl. eexists. split; [done|].
  assert (Hin3 : input_inv o c3 l av).
  { eapply closed_input_inv; [exact Hcd|]. destruct Hr as [Hin _].
    destruct Hc2; subst c2; by eapply input_inv_mono. }
  destruct Hcd as [Hc3 [h Hrc] [h' Hwc] Hpo Hre Hwf Hwi Hap _ _]. split; [|split].
  - exists s, p. apply Hw1; [done | | | |].
    + rewrite Hwi. by destruct Hc2; subst c2.
    + rewrite Hap. by destruct Hc2; subst c2.
    + rewrite Hwf. by destruct Hc2; subst c2.
    + exists h'. rewrite Hwc. by destruct Hc2; subst c2.
  - exists l, av. destruct Hr as [_ ?]. split; [by eapply input_inv_mono|].
    simpl; rewrite Hrc, Hre; by destruct Hc2; subst c2.
  - unfold coroutine_ok in *. simpl in *. rewrite Hc3 in *. done.
Qed.

(** What the kernel can report: a completion of an operation in flight; a write fails,
    or takes at most the batch; a receive that succeeds used the oldest chunk of
    the ring, one that fails ends the multishot. *)
Definition in_flight (c : TcpConnection) (e : event) : Prop :=
  match e with
  | WriteDone _ => writes_in_flight c <> 0%nat
  | ReadDone _ _ _ => reads_in_flight c <> 0%nat
  | _ => True
  end.
Definition reported (c : TcpConnection) (e : event) : Prop :=
  match e with
  | WriteDone res =>
      res < 0 \/
      (0 <= res /\ forall bs, SendQueue.iovs_bytes (SendQueue.heap (W.output_buffer_ (write_context_ c)))
                               (W.temp_data_ (write_context_ c)) = Ok bs -> res <= zlen bs)
  | ReadDone res flags data =>
      if 0 <? res then
        zlen data = res /\ res <= CHUNK_SIZE (pool c) /\ IORING_CQE_F_BUFFER flags = true /\
        exists b bs, available (input_buf_ring_ (pool c)) = b :: bs /\
          u16 (Z.shiftr flags IORING_CQE_BUFFER_SHIFT) = b
      else IORING_CQE_F_MORE flags = false
  | _ => True
  end.
(** A smooth run: no write fails with an error that the code takes for transient
    ([EAGAIN], [ENOBUFS], [EINTR]), none fails at all if [write_errors] is false, and
    the server's table keeps the connection. *)
Definition smooth (e : event) : Prop :=
  match e with
  | WriteDone res => 0 <= res \/ (write_errors = true /\ retryable res = false)
  | MapErase => False
  | _ => True
  end.
Definition valid (c : TcpConnection) (e : event) : Prop := in_flight c e /\ reported c e.

Lemma in_flight_sending c s p :
  write_inv c s p -> writes_in_flight c <> 0%nat -> W.is_sending_ (write_context_ c) = true.
Proof.
  intros [_ _ _ _ Hs _] Hn. destruct (W.is_sending_ _); [done|]. destruct Hs as (_ & ? & _). congruence.
Qed.

(** Less in the buffer keeps the coroutine's state, but it may have to be woken. *)
Lemma coroutine_less c c' :
  in_map c' = in_map c -> base_here c' = base_here c -> functors c' = functors c -> closing_ c' = closing_ c ->
  task_handle_ c' = task_handle_ c -> frame_ c' = frame_ c -> read_context_ c' = read_context_ c ->
  W.write_handle_ (write_context_ c') = W.write_handle_ (write_context_ c) ->
  W.high_water_mark_ (write_context_ c') = W.high_water_mark_ (write_context_ c) -> buffered c' <= buffered c ->
  coroutine_ok true true c -> coroutine_ok false true c'.
Proof.
  intros H1 H2 H3 H4 H5 H6 H7 H8 H9 Hb Hc. unfold coroutine_ok in *. rewrite H1, H2, H3, H4, H5, H6, H7, H8, H9.
  destruct Hc as (? & ? & ? & Hc). split_and!; try done. destruct (closing_ c); [done|].
  destruct Hc as [? Hc]. split; [done|]. destruct (frame_ c); try done.
  - destruct Hc as (? & ? & ? & ? & _ & ?). split_and!; try done. lia.
  - destruct Hc as (? & ? & ? & ? & ? & Ho). split_and!; try done. apply overLoad_false in Ho.
    apply Z.ltb_ge. rewrite H9. unfold buffered in *. lia.
  - destruct Hc as (? & ? & ?). split_and!; try done. lia.
Qed.

Lemma write_done_ok o c res :
  inv o c -> valid c (WriteDone res) -> smooth (WriteDone res) -> exists c', step (WriteDone res) c = Ok c' /\ inv o c'.
Proof.
  intros ((s & p & Hw) & (l & av & Hr) & Hco) [Hfl Hres] Hsm.
  pose proof (in_flight_sending _ _ _ Hw Hfl) as Hse. pose proof (wi_sending _ _ _ Hw) as Hs. rewrite Hse in Hs.
  destruct Hs as (Hh & Hn & Hv). unfold step. rewrite Hv. simpl.
  destruct Hres as [Hneg|[Hpos Hle]].
  - destruct Hsm as [?|[HF Hrt]]; [lia|].
    destruct (write_failed_ok o (set_bytes (appended c) (wire c ++ ztake res (SendQueue.bytes s)) c) s p l av res)
      as (c' & ? & ?); try done; [| | by eauto].
    + destruct Hw as [? Hst ? ? ? ?]. split; try done. simpl. unfold ztake.
      replace (Z.to_nat res) with 0%nat by lia. by rewrite take_0, app_nil_r.
    + by eapply read_inv_mono.
  - specialize (Hle _ Hv). pose proof (SendQueue.rep_bound _ _ _ (wi_rep _ _ _ Hw)) as Hbd.
    rewrite SendQueue.bytes_app, zlen_app in Hbd. pose proof (zlen_nonneg (SendQueue.bytes p)).
    unfold write_on_completion. simpl. rewrite Hh. simpl. rewrite (proj2 (Z.ltb_ge _ _) Hpos).
    destruct (SendQueue.retrieve_rep res _ _ _ (wi_rep _ _ _ Hw)) as (q' & p' & -> & Hr' & Hb'); [lia|]. simpl.
    rewrite SendQueue.bytes_app, zdrop_app_l in Hb' by lia.
    set (c1 := on_write (W.set_buffer q' _) _).
    assert (Hbu : buffered c1 <= buffered c).
    { rewrite (buffered_bytes c1 [] p') by done. rewrite (buffered_bytes c s p) by apply (wi_rep _ _ _ Hw).
      simpl. rewrite Hb', SendQueue.bytes_app, !zlen_app, zlen_zdrop by lia. lia. }
    destruct Hw as [? Hst ? ? _ ?].
    apply (write_continue_ok o c1 p' l av); simpl; try done.
    + rewrite Hb', <- Hst, SendQueue.bytes_app, <- !app_assoc. f_equal. by rewrite app_assoc, ztake_zdrop.
    + by rewrite Hn.
    + by eapply read_inv_mono.
    + by eapply (coroutine_less c).
Qed.

(** ** Completion of a read *)

Lemma resume_recv_ok o c k :
  ready o c -> frame_ c = AtRecv k -> k (-1) = Return -> (forall n, n <> -1 -> n < 2 ^ 31 -> polite (k n)) ->
  exists c', resume c = Ok c' /\ inv o c'.
Proof.
  intros Hrd Hf Hk1 Hk2. unfold resume, recv_await_resume. rewrite Hf. simpl. rewrite (rd_closing _ _ Hrd).
  assert (Hrd' : ready o (set_frame (task_handle_ c) Running c)).
  { destruct Hrd as [(s & p & Hw) (l & av & Hr) ? ? ? ? ? ? ? ?]. split; try done.
    - exists s, p. by eapply write_inv_mono.
    - exists l, av. by eapply read_inv_mono. }
  assert (Hret : exists c', run true (k (-1)) (set_frame (task_handle_ c) Running c) = Ok c' /\ inv o c').
  { rewrite Hk1. simpl. eexists. split; [done|]. by apply (finish_ok o (set_frame _ Running c)). }
  destruct (R.is_error_ _); [done|].
  destruct (decide (to_int (InputChainBuffer.getTotalLen (R.input_buffer_ (read_context_ c))) = -1)) as [->|Hn];
    [done|]. destruct (run_ok o (k _) _ (Hk2 _ Hn (to_int_lt _)) Hrd') as (c' & ? & ? & _). eauto.
Qed.

(** Waking a coroutine that waits for data; the read side is in order. *)
Lemma read_wake_ok o c s p l av :
  write_inv c s p -> read_inv o c l av -> coroutine_ok true false c ->
  exists c', read_wake c = Ok c' /\ inv o c'.
Proof.
  intros Hw Hr Hco. pose proof Hco as (Hmap & Hba & Hfu & Hcl). unfold read_wake.
  destruct (R.read_handle_ (read_context_ c)) eqn:Erh.
  2:{ eexists. split; [done|]. split; [by eauto|]. split; [by eauto|]. unfold coroutine_ok.
      rewrite Erh. split_and!; try done. destruct (closing_ c); [done|]. destruct Hcl as [? Hfr]. split; [done|].
      destruct (frame_ c); try done. by destruct Hfr as (? & _). }
  destruct (closing_ c) eqn:Ecl; [destruct Hcl as (? & _); congruence|].
  destruct Hcl as [Htk Hfr]. destruct (frame_ c) as [| |k| | | |] eqn:Efr; try done;
    [destruct Hfr as (? & _); congruence| |destruct Hfr as (? & _); congruence].
  destruct Hfr as (_ & Hwh & Hk1 & Hk2 & _ & Ho).
  unfold is_done. simpl. rewrite Efr. simpl.
  apply (resume_recv_ok o _ k); [|done|done|done]. split; simpl; try done.
  - exists s, p. by eapply write_inv_mono.
  - exists l, av. destruct Hr. split; [by eapply input_inv_mono | done].
Qed.

(** Whatever happened to the receive, the coroutine is where it was. *)
Lemma coroutine_received c c' :
  in_map c' = in_map c -> base_here c' = base_here c -> functors c' = functors c -> closing_ c' = closing_ c ->
  task_handle_ c' = task_handle_ c -> frame_ c' = frame_ c -> write_context_ c' = write_context_ c ->
  R.read_handle_ (read_context_ c') = R.read_handle_ (read_context_ c) ->
  coroutine_ok true true c -> coroutine_ok true false c'.
Proof.
  intros H1 H2 H3 H4 H5 H6 H7 H8 (? & ? & ? & Hc). unfold coroutine_ok, buffered in *.
  rewrite H1, H2, H3, H4, H5, H6, H7, H8. split_and!; try done. destruct (closing_ c); [done|].
  destruct Hc as [? Hc]. split; [done|]. destruct (frame_ c); try done. by destruct Hc as (? & ? & ? & ? & _ & ?).
Qed.

(** The receive goes on, stops for back-pressure, or is still running. *)
Lemma read_finish_ok o c s p l av :
  write_inv c s p -> coroutine_ok true true c ->
  input_inv o c l av -> R.holder_ (read_context_ c) = true -> R.status_ (read_context_ c) <> STOPED ->
  reads_in_flight c = (if IORING_CQE_F_MORE (R.flags_ (read_context_ c)) then 1 else 0)%nat ->
  exists c', read_finish false c = Ok c' /\ inv o c'.
Proof.
  intros Hw Hco Hin Hh Hst Hfl. unfold read_finish.
  destruct (IORING_CQE_F_MORE _) eqn:Em; simpl.
  - apply (read_wake_ok o c s p l av); [done| |by apply (coroutine_received c)].
    split; [done|]. by destruct (R.status_ _).
  - destruct (R.status_ (read_context_ c)) eqn:Es; [done| |]; simpl.
    + apply (read_wake_ok o (submitRead c) s p l av).
      * by eapply write_inv_mono.
      * split; [by eapply input_inv_mono|]. simpl. by rewrite Hfl.
      * by apply (coroutine_received c).
    + rewrite (alive_ok (on_read _ _)) by apply Hco. simpl.
      apply (read_wake_ok o (on_read _ (on_read _ c)) s p l av).
      * by eapply write_inv_mono.
      * split; [by eapply input_inv_mono | done].
      * by apply (coroutine_received c).
Qed.

Lemma resume_recv_failed c k :
  frame_ c = AtRecv k -> k (-1) = Return -> R.is_error_ (read_context_ c) = true ->
  resume c = Ok (set_frame (task_handle_ c) Finished c).
Proof.
  intros Hf Hk He. unfold resume, recv_await_resume. rewrite Hf. simpl. rewrite He. simpl. by rewrite Hk.
Qed.

(** The receive failed for good: the connection is closed. *)
Lemma read_failed_ok o c s p l av :
  write_inv c s p -> coroutine_ok true true c ->
  input_inv o c l av -> R.holder_ (read_context_ c) = true -> R.is_error_ (read_context_ c) = true ->
  IORING_CQE_F_MORE (R.flags_ (read_context_ c)) = false -> reads_in_flight c = 0%nat ->
  exists c', read_finish true c = Ok c' /\ inv o c'.
Proof.
  intros Hw Hco Hin Hh He Hm Hfl. unfold read_finish. rewrite Hm. simpl. rewrite !andb_false_r. simpl.
  assert (Hc2 : exists c2, (if R.read_handle_ (read_context_ c) then resume c else Ok c) = Ok c2 /\
    (c2 = c \/ c2 = set_frame (task_handle_ c) Finished c) /\ closable c2).
  { destruct (R.read_handle_ (read_context_ c)) eqn:Erh.
    - pose proof Hco as (Hmap & Hba & Hfu & Hcl).
      destruct (closing_ c) eqn:Ecl; [destruct Hcl as (? & _); congruence|]. destruct Hcl as [Htk Hfr].
      destruct (frame_ c) as [| |k| | | |] eqn:Efr; try done;
        [destruct Hfr as (? & _); congruence| |destruct Hfr as (? & _); congruence].
      destruct Hfr as (_ & _ & Hk & _). rewrite (resume_recv_failed c k) by done.
      eexists. split; [done|]. split; [by right|]. unfold closable. simpl. rewrite Ecl. auto 10.
    - exists c. split; [done|]. split; [by left|]. by apply (coroutine_closable true true c). }
  destruct Hc2 as (c2 & -> & Hc2 & Hcl2). simpl.
  assert (R.holder_ (read_context_ c2) = true) as -> by (by destruct Hc2; subst c2).
  destruct (handleClose_ok c2 Hcl2) as (c3 & -> & Hcd & Hco3). simpl.
  rewrite (alive_ok (on_read _ c3)) by (simpl; apply Hco3). simpl. eexists. split; [done|].
  assert (Hw3 : write_inv c3 s p).
  { eapply closed_write_inv; [exact Hcd|]. destruct Hc2; subst c2; [done|]. by eapply write_inv_mono. }
  assert (Hin3 : input_inv o c3 l av).
  { eapply closed_input_inv; [exact Hcd|]. destruct Hc2; subst c2; by eapply input_inv_mono. }
  destruct Hcd as [Hc3 [h Hrc] _ _ Hre _ _ _ _ _]. split; [|split].
  - exists s, p. by eapply write_inv_mono.
  - exists l, av. split; [by eapply input_inv_mono|]. simpl. rewrite Hre. by destruct Hc2; subst c2.
  - unfold coroutine_ok in *. simpl in *. rewrite Hc3 in *. done.
Qed.

(** The data of a completion reaches the input buffer; [m] is the pool without the
    chunk [i] that the kernel took. *)
Lemma read_data_ok o c s p l av m i data :
  write_inv c s p -> coroutine_ok true true c ->
  pool c = kernel_fill i data m -> pool_ok m av [i] (l.*1 ++ theirs o) ->
  InputChainBuffer.rep m (R.input_buffer_ (read_context_ c)) l -> keeps o m ->
  received c = consumed c ++ InputChainBuffer.bytes m l ++ data ->
  R.res_ (read_context_ c) = zlen data -> zlen data <= CHUNK_SIZE m ->
  IORING_CQE_F_BUFFER (R.flags_ (read_context_ c)) = true ->
  u16 (Z.shiftr (R.flags_ (read_context_ c)) IORING_CQE_BUFFER_SHIFT) = Z.of_nat i ->
  R.status_ (read_context_ c) <> STOPED ->
  exists c' l', read_data c = Ok c' /\ write_inv c' s p /\ coroutine_ok true true c' /\ input_inv o c' l' av /\
    R.holder_ (read_context_ c') = R.holder_ (read_context_ c) /\ R.status_ (read_context_ c') <> STOPED /\
    R.flags_ (read_context_ c') = R.flags_ (read_context_ c) /\ reads_in_flight c' = reads_in_flight c.
Proof.
  intros Hw Hco Hpl Hp Hb Hk Hrv Hres Hsz Hbuf Hbid Hst. unfold read_data. rewrite Hbuf. simpl. rewrite Hbid, Hres, Hpl.
  destruct (InputChainBuffer.receive_ok i data _ m l av [] (theirs o) Hp Hb Hsz)
    as (b' & m' & l' & -> & Hr' & Hby & Hp' & Ho & Hz & Hl & _). simpl.
  apply (f_equal length) in Hl. rewrite length_app, !length_fmap in Hl.
  assert (Hin : forall c1, pool c1 = m' -> R.input_buffer_ (read_context_ c1) = b' -> received c1 = received c ->
    consumed c1 = consumed c -> input_inv o c1 l' av).
  { intros c1 H1 H2 H3 H4. split; rewrite ?H1, ?H2, ?H3, ?H4, ?Hby; try done.
    eapply keeps_step; [exact Hk | done | | done]. rewrite (pool_length _ _ _ _ Hp), (pool_length _ _ _ _ Hp').
    rewrite !length_app, !length_fmap, Hl. simpl. lia. }
  destruct (_ && _); (eexists _, l'; split; [done|]); split_and!; simpl; try done.
  - by eapply write_inv_mono.
  - unfold coroutine_ok in *. simpl. destruct Hco as (? & ? & ? & Hc). split_and!; try done.
    destruct (closing_ c); [done|]. destruct Hc as [? Hc]. split; [done|].
    destruct (frame_ c); try done. destruct Hc as (? & ? & ? & ? & _ & ?). done.
  - by apply Hin.
  - by eapply write_inv_mono.
  - by apply Hin.
Qed.

Lemma read_handleError_cases c :
  R.res_ (read_context_ c) <= 0 ->
  read_handleError c = (true, on_read (R.set_error true) c) \/ read_handleError c = (false, c).
Proof.
  intros Hle. unfold read_handleError. set (r := R.res_ _) in *.
  destruct (Z.eqb_spec r 0); [by left|]. rewrite (proj2 (Z.ltb_lt _ _)) by lia. repeat case_match; auto.
Qed.

Lemma in_flight_reading o c l av :
  read_inv o c l av -> reads_in_flight c <> 0%nat ->
  R.holder_ (read_context_ c) = true /\ R.status_ (read_context_ c) <> STOPED /\ reads_in_flight c = 1%nat.
Proof.
  intros [_ Hs] Hn. destruct (R.status_ _); destruct Hs; try done.
Qed.

(** A receive that brought data. *)
Lemma read_some_ok o c s p l av res flags data :
  write_inv c s p -> read_inv o c l av -> coroutine_ok true true c -> 0 < res ->
  valid c (ReadDone res flags data) ->
  exists c', step (ReadDone res flags data) c = Ok c' /\ inv o c'.
Proof.
  intros Hw Hr Hco Hpos [Hfl Hv]. simpl in Hfl, Hv. destruct (in_flight_reading _ _ _ _ Hr Hfl) as (Hh & Hst & Hone).
  destruct Hr as [[Hp Hb Hk Hrs] _]. unfold step. rewrite (proj2 (Z.ltb_lt _ _) Hpos) in *.
  destruct Hv as (Hlen & Hsz & Hbuf & b & bs & Hav & Hbid).
  pose proof (pool_avail _ _ _ _ Hp) as Hring. rewrite Hav in Hring.
  destruct av as [|i av]; [done|]. simpl in Hring. injection Hring as Hbi _.
  set (c1 := on_read (R.set_result res flags) _).
  assert (Hpool : pool c1 = kernel_fill i data (kernel_take_chunk (pool c))).
  { unfold c1, kernel_deliver. rewrite Hav, Hbi, Nat2Z.id. by destruct (IORING_CQE_F_MORE flags). }
  assert (Hrc : read_context_ c1 = R.set_result res flags (read_context_ c))
    by (unfold c1; simpl; by destruct (IORING_CQE_F_MORE flags)).
  assert (Hin : received c1 = received c ++ data /\ consumed c1 = consumed c)
    by (unfold c1; simpl; by destruct (IORING_CQE_F_MORE flags)). destruct Hin as [Hrv Hcn].
  destruct (read_data_ok o c1 s p l av (kernel_take_chunk (pool c)) i data)
    as (c2 & l2 & Hd & Hw2 & Hco2 & Hin2 & Hh2 & Hst2 & Hfg2 & Hfl2); rewrite ?Hrc, ?Hrv, ?Hcn; try done.
  { unfold c1. destruct (IORING_CQE_F_MORE flags); by eapply write_inv_mono. }
  { unfold c1. destruct (IORING_CQE_F_MORE flags); done. }
  { by apply pool_take. }
  { destruct Hb as [[] ?]; by split; [split|]. }
  { eapply keeps_step; [exact Hk | done | done |]. intros b2 l2 _ [[] ?]. split; [by split; [split|] | done]. }
  { by rewrite Hrs, <- app_assoc. }
  { simpl. lia. }
  { simpl. congruence. }
  unfold read_on_completion. rewrite Hrc. simpl. rewrite Hh.
  assert (bool_decide (R.status_ (read_context_ c) = CANCELING) ||
          bool_decide (R.status_ (read_context_ c) = READING) = true) as -> by by destruct (R.status_ _).
  simpl. rewrite (proj2 (Z.leb_gt _ _) Hpos), Hd. simpl.
  apply (read_finish_ok o c2 s p l2 av); try done; [by rewrite Hh2, Hrc|].
  rewrite Hfl2, Hfg2, Hrc. simpl. unfold c1. destruct (IORING_CQE_F_MORE flags); simpl; [done|]. by rewrite Hone.
Qed.

Lemma read_done_ok o c res flags data :
  inv o c -> valid c (ReadDone res flags data) ->
  exists c', step (ReadDone res flags data) c = Ok c' /\ inv o c'.
Proof.
  intros ((s & p & Hw) & (l & av & Hr) & Hco) Hval.
  destruct (Z.ltb_spec 0 res) as [Hpos|Hle]; [by eapply read_some_ok|].
  destruct Hval as [Hfl Hv]. simpl in Hfl, Hv. destruct (in_flight_reading _ _ _ _ Hr Hfl) as (Hh & Hst & Hone).
  unfold step. rewrite (proj2 (Z.ltb_ge _ _) Hle) in *. rewrite Hv. set (c1 := on_read (R.set_result res flags) _).
  assert (Hw1 : write_inv c1 s p) by by eapply write_inv_mono.
  destruct Hr as [Hin _]. assert (Hin1 : input_inv o c1 l av) by by eapply input_inv_mono.
  unfold read_on_completion. simpl. rewrite Hh.
  assert (bool_decide (R.status_ (read_context_ c) = CANCELING) ||
          bool_decide (R.status_ (read_context_ c) = READING) = true) as -> by by destruct (R.status_ _).
  simpl. rewrite (proj2 (Z.leb_le _ _) Hle). fold c1.
  destruct (read_handleError_cases c1 Hle) as [->| ->]; simpl.
  - apply (read_failed_ok o _ s p l av); simpl; try done;
      [by eapply write_inv_mono | by eapply input_inv_mono | by rewrite Hone].
  - apply (read_finish_ok o c1 s p l av); simpl; try done. by rewrite Hv, Hone.
Qed.

Lemma step_ok o e c : inv o c -> valid c e -> smooth e -> exists c', step e c = Ok c' /\ inv o c'.
Proof.
  intros H Hv Hsm. destruct e as [res|res flags data| | |].
  - by apply write_done_ok.
  - by apply read_done_ok.
  - destruct H as (? & ? & Hco). pose proof Hco as (_ & _ & Hf & _). simpl. rewrite Hf. by exists c.
  - destruct H as (? & ? & Hco). pose proof Hco as (_ & _ & _ & Hc). simpl. exists c. split; [|done].
    destruct (closing_ c); [by destruct Hc as (_ & _ & [[-> _]|[-> _]])|].
    destruct Hc as [_ Hc]. by destruct (frame_ c).
  - done.
Qed.

Fixpoint valid_run (c : TcpConnection) (es : list event) : Prop :=
  match es with
  | [] => True
  | e :: es => valid c e /\ forall c', step e c = Ok c' -> valid_run c' es
  end.

Lemma steps_ok o es : forall c, inv o c -> valid_run c es -> Forall smooth es -> exists c', steps es c = Ok c' /\ inv o c'.
Proof.
  induction es as [|e es IH]; intros c H Hv Hsm; simpl; [by exists c|].
  destruct Hv as [Hv Hvs]. apply Forall_cons in Hsm as [Hsm Hsms]. destruct (step_ok o e c H Hv Hsm) as (c1 & Hc1 & H1). rewrite Hc1. simpl.
  apply IH; [done | by apply Hvs | done].
Qed.

(** A new connection whose coroutine is started. *)
Lemma established_ok o fd m av ihw ihc ohw cb p :
  fd <> 0 -> pool_ok m av [] o -> 0 <= ohw -> ohw + D < SIZE_MAX -> polite p ->
  exists c, open_connection fd m ihw ihc ohw cb false p = Ok c /\ inv (mkOthers o m) c.
Proof.
  intros Hfd Hp H0 H1 Hpo. unfold open_connection, new_TcpConnection, W.new_WriteContext.
  rewrite (proj2 (Z.eqb_neq _ _) Hfd). simpl. set (cn := mkConn _ _ _ _ _ _ _ _ _ _ _ _ _ _ _ _ _ _ _).
  unfold Established, resume. simpl.
  destruct (run_ok (mkOthers o m) p (set_frame true Running (set_frame true (NotStarted p) cn)) Hpo) as (c & ? & ? & _);
    [|by eauto].
  split; simpl; try done.
  - exists [], []. split; simpl; try done; [apply SendQueue.rep_nil | lia | auto].
  - exists [], av. split; [|done]. split; simpl; try done. split; [split|]; simpl; try done; constructor.
  - unfold W.overLoad. simpl. by apply Z.ltb_ge.
Qed.

(** Whatever a run reaches satisfies the invariant. *)
Lemma run_inv o fd m av ihw ihc ohw cb p es c0 c :
  fd <> 0 -> pool_ok m av [] o -> 0 <= ohw -> ohw + D < SIZE_MAX -> polite p ->
  open_connection fd m ihw ihc ohw cb false p = Ok c0 -> valid_run c0 es -> Forall smooth es -> steps es c0 = Ok c ->
  inv (mkOthers o m) c0 /\ inv (mkOthers o m) c.
Proof.
  intros Hfd Hm H0 H1 Hp Hc0 Hv Hsm Hs.
  destruct (established_ok o fd m av ihw ihc ohw cb p Hfd Hm H0 H1 Hp) as (c0' & Hc0' & Hi).
  assert (c0' = c0) as -> by congruence. split; [done|].
  destruct (steps_ok _ es c0 Hi Hv Hsm) as (c' & Hc' & Hi'). by assert (c' = c) as -> by congruence.
Qed.

(** The invariant, read as facts about the state. *)
Lemma write_inv_stream c s p :
  write_inv c s p -> exists queued, appended c = wire c ++ queued /\ zlen queued = buffered c /\
    (closing_ c = false -> writes_in_flight c = 0%nat -> queued = []).
Proof.
  intros Hw. exists (SendQueue.bytes (s ++ p)). split; [symmetry; apply (wi_stream _ _ _ Hw)|].
  split; [symmetry; apply (buffered_bytes _ _ _ (wi_rep _ _ _ Hw))|]. intros Hc Hn.
  pose proof (wi_sending _ _ _ Hw) as Hs. destruct (W.is_sending_ _); [destruct Hs as (_ & ? & _); congruence|].
  destruct Hs as (_ & _ & [?|[-> Hp]]); [congruence|]. done.
Qed.

Lemma inv_stream o c :
  inv o c -> exists queued, appended c = wire c ++ queued /\ zlen queued = buffered c /\
    (closing_ c = false -> writes_in_flight c = 0%nat -> queued = []).
Proof. intros ((s & p & Hw) & _ & _). by apply (write_inv_stream c s p). Qed.

Lemma inv_send_in_flight o c k :
  inv o c -> closing_ c = false -> frame_ c = AtSend k -> writes_in_flight c = 1%nat.
Proof.
  intros ((s & p & Hw) & _ & (_ & _ & _ & Hc)) Hcl Hf. rewrite Hcl, Hf in Hc.
  destruct Hc as (_ & _ & _ & _ & _ & Ho & _). specialize (Ho eq_refl). apply Z.ltb_lt in Ho.
  pose proof (wi_sending _ _ _ Hw) as Hs. destruct (W.is_sending_ _); [by destruct Hs as (_ & ? & _)|].
  destruct Hs as (_ & _ & [?|[-> Hp]]); [congruence|].
  pose proof (buffered_bytes _ _ _ (wi_rep _ _ _ Hw)) as Hb. simpl in Hb. rewrite Hp, zlen_nil in Hb.
  unfold buffered in Hb. pose proof (wi_mark _ _ _ Hw). lia.
Qed.

Lemma inv_recv_in_flight o c k :
  inv o c -> closing_ c = false -> frame_ c = AtRecv k -> reads_in_flight c = 1%nat.
Proof.
  intros (_ & (l & av & Hr) & (_ & _ & _ & Hc)) Hcl Hf. rewrite Hcl, Hf in Hc.
  destruct Hc as (_ & _ & _ & _ & _ & Hs & _). specialize (Hs eq_refl).
  pose proof (ri_status _ _ _ _ Hr) as Hst. by destruct (R.status_ _), Hst.
Qed.

Lemma inv_backpressure o c :
  inv o c -> closing_ c = false -> buffered c <= W.high_water_mark_ (write_context_ c) + D.
Proof.
  intros (_ & _ & (_ & _ & _ & Hc)) Hcl. rewrite Hcl in Hc. destruct Hc as [_ Hc].
  destruct (frame_ c); try done; destruct_and!; try done.
  match goal with H : W.overLoad _ = false |- _ => apply overLoad_false in H end. lia.
Qed.

(** ** Properties *)

(** C6. A connection on a loop that is not the base loop, with a polite coroutine (it
    stays on the loop thread and returns when it is told of a failure), is safe in
    every smooth run: whatever the kernel reports, in whatever order (data, partial
    writes, end of stream, errors, cancellations, the buffer ring running dry), every
    completion is handled without a failed assertion, a null or dangling pointer or a
    coroutine destroyed while it runs, and the invariant of the connection holds
    again.  Smooth means that no write fails with [EAGAIN], [ENOBUFS] or [EINTR], which
    the code does not survive, that the server's table keeps the connection, and, for
    a coroutine that ignores the result of [send], that no write fails at all. *)
Theorem connection_safe o fd m av ihw ihc ohw cb p :
  fd <> 0 -> pool_ok m av [] o -> 0 <= ohw -> ohw + D < SIZE_MAX -> polite p ->
  exists c0, open_connection fd m ihw ihc ohw cb false p = Ok c0 /\
    forall es, valid_run c0 es -> Forall smooth es -> exists c, steps es c0 = Ok c /\ inv (mkOthers o m) c.
Proof.
  intros Hfd Hm H0 H1 Hp. destruct (established_ok o fd m av ihw ihc ohw cb p Hfd Hm H0 H1 Hp) as (c0 & Hc0 & Hi).
  exists c0. split; [done|]. intros es. by apply steps_ok.
Qed.

(** C7. Nothing the coroutine sent is lost, duplicated or reordered: at any point
    of a smooth run (no write fails with [EAGAIN], [ENOBUFS] or [EINTR], after which
    the code skips the batch; the table keeps the connection) of a polite coroutine
    the bytes the kernel took followed by the bytes still queued are exactly the bytes
    given to [send], in order; an open connection without a write in flight has
    nothing left to send. *)
Theorem send_stream_integrity o fd m av ihw ihc ohw cb p es c0 c :
  fd <> 0 -> pool_ok m av [] o -> 0 <= ohw -> ohw + D < SIZE_MAX -> polite p ->
  open_connection fd m ihw ihc ohw cb false p = Ok c0 -> valid_run c0 es -> Forall smooth es -> steps es c0 = Ok c ->
  exists queued, appended c = wire c ++ queued /\ zlen queued = buffered c /\
    (closing_ c = false -> writes_in_flight c = 0%nat -> wire c = appended c).
Proof.
  intros Hfd Hm H0 H1 Hp Hc0 Hv Hsm Hs.
  destruct (run_inv _ _ _ _ _ _ _ _ _ _ _ _ Hfd Hm H0 H1 Hp Hc0 Hv Hsm Hs) as [_ Hi].
  destruct (inv_stream _ c Hi) as (q & Hq & Hz & He).
  exists q. split_and!; try done. intros Hcl Hn. by rewrite Hq, (He Hcl Hn), app_nil_r.
Qed.

(** C10. Back-pressure bounds the output buffer, and a suspended polite coroutine (one
    that stays on the loop thread and returns on a failure) is never forgotten in a
    smooth run (no transient write errors, no removal from the table): while the
    connection is open at most the high-water mark plus one message is buffered; a
    coroutine that waits in [send] has a write in flight, one that waits for data has a
    receive in flight, and each of the two contexts has at most one operation in
    flight. *)
Theorem backpressure_and_progress o fd m av ihw ihc ohw cb p es c0 c :
  fd <> 0 -> pool_ok m av [] o -> 0 <= ohw -> ohw + D < SIZE_MAX -> polite p ->
  open_connection fd m ihw ihc ohw cb false p = Ok c0 -> valid_run c0 es -> Forall smooth es -> steps es c0 = Ok c ->
  closing_ c = false ->
  buffered c <= W.high_water_mark_ (write_context_ c) + D /\
  (writes_in_flight c <= 1)%nat /\ (reads_in_flight c <= 1)%nat /\
  match frame_ c with
  | AtSend _ => writes_in_flight c = 1%nat
  | AtRecv _ => reads_in_flight c = 1%nat
  | Finished => True
  | _ => False
  end.
Proof.
  intros Hfd Hm H0 H1 Hp Hc0 Hv Hsm Hs Hcl.
  destruct (run_inv _ _ _ _ _ _ _ _ _ _ _ _ Hfd Hm H0 H1 Hp Hc0 Hv Hsm Hs) as [_ Hi].
  split; [by eapply inv_backpressure|]. pose proof Hi as ((s & q & Hw) & (l & av' & Hr) & (_ & _ & _ & Hco)).
  split; [pose proof (wi_sending _ _ _ Hw) as Hx; destruct (W.is_sending_ _), Hx as (_ & ? & _); lia|].
  split; [pose proof (ri_status _ _ _ _ Hr) as Hx; destruct (R.status_ _), Hx; lia|].
  rewrite Hcl in Hco. destruct Hco as [_ Hco]. destruct (frame_ c) eqn:Ef; try done.
  - by eapply inv_send_in_flight.
  - by eapply inv_recv_in_flight.
Qed.

End safety.

(** ** Concrete runs *)

#[local] Instance demo_errors : WriteErrors := true.

(** A pool of two free chunks of eight bytes. *)
Definition demo_m : @Manager list_ring :=
  {| pool_ := mkChunkPool 1000 16 2;
     chunks_data_ := [Chunk.mkChunk 1000 0 None 0 0; Chunk.mkChunk 1008 1 None 0 0];
     input_buf_ring_ := (([0; 1], fun _ => None) : @buf_ring list_ring);
     ring_size_ := 48; input_buf_ring_mask_ := 1; ring_entries := 2; bgid := 1; count_ := 0;
     CHUNK_SIZE := 8; memory := fun _ => x00 |}.

Lemma demo_m_ok : @pool_ok list_ring demo_m [0; 1]%nat [] [].
Proof.
  split; try done.
  - intros i c Hi. do 2 (destruct i as [|i]; [by simplify_eq/=|]). done.
  - intros i c Hn Hi. do 2 (destruct i as [|i]; [by simplify_eq/=|]). done.
Qed.

(** An echo server that handles [n] messages of at most four bytes. *)
Fixpoint echo (n : nat) : prog :=
  match n with
  | O => Return
  | S n => PrepareToRead (fun r =>
      if r <? 0 then Return else Read 4 (fun d => Send d (fun ok => if ok then echo n else Return)))
  end.
Lemma echo_polite n : polite 4 (echo n).
Proof.
  induction n as [|n IH]; simpl; [done|]. split; [done|]. intros r _ _. destruct (r <? 0); [done|].
  simpl. split; [lia|]. intros d Hd. done.
Qed.

Definition flags_of (bid : Z) (more : bool) : Z := bid * 65536 + (if more then 3 else 1).

(** Three bytes arrive and are echoed; the kernel takes two of them, then the
    third; the peer closes. *)
Definition demo_events : list event :=
  [ReadDone 3 (flags_of 0 true) [x61; x62; x63]; WriteDone 2; WriteDone 1; ReadDone 0 0 []].

Definition demo_open (here : bool) (p : prog) : result (@TcpConnection list_ring) :=
  open_connection (A := first_fit) 5 demo_m 64 16 64 true here p.
Definition demo_c0 : @TcpConnection list_ring :=
  from_ok (mkConn false false true Finished true true false (R.new_ReadContext 64 16 5)
             (W.mk 0 0 false false SendQueue.new_SendQueue 64 false false 256 [] 5) demo_m [] [] 0 0 [] [] 0 [] [])
    (demo_open false (echo 3)).

Lemma demo_established : demo_open false (echo 3) = Ok demo_c0.
Proof. vm_compute. reflexivity. Qed.

(** The kernel may take any part of the batch, and its completions say so. *)
Lemma demo_valid : valid_run (A := first_fit) demo_c0 demo_events.
Proof.
  split.
  { split; [vm_compute; discriminate|]. change (0 <? 3) with true.
    split; [reflexivity|]. split; [vm_compute; discriminate|]. split; [reflexivity|].
    exists 0, [1]. split; reflexivity. }
  intros c1 H1. vm_compute in H1. injection H1 as <-. split.
  { split; [vm_compute; discriminate|]. right. split; [lia|]. intros bs Hbs. vm_compute in Hbs.
    injection Hbs as <-. vm_compute. discriminate. }
  intros c2 H2. vm_compute in H2. injection H2 as <-. split.
  { split; [vm_compute; discriminate|]. right. split; [lia|]. intros bs Hbs. vm_compute in Hbs.
    injection Hbs as <-. vm_compute. discriminate. }
  intros c3 H3. vm_compute in H3. injection H3 as <-. split.
  { split; [vm_compute; discriminate|]. reflexivity. }
  intros c4 H4. exact I.
Qed.

Lemma demo_smooth : Forall smooth demo_events.
Proof. repeat constructor; lia. Qed.

(** ** Witnesses *)

Lemma connection_safe_witness :
  exists c, steps (A := first_fit) demo_events demo_c0 = Ok c /\ inv 4 (mkOthers [] demo_m) c.
Proof.
  destruct (connection_safe (A := first_fit) 4 ltac:(lia) [] 5 demo_m [0; 1]%nat 64 16 64 true (echo 3))
    as (c0 & Hc0 & Hrun).
  - lia.
  - exact demo_m_ok.
  - lia.
  - lia.
  - exact (echo_polite 3).
  - assert (c0 = demo_c0) as -> by (pose proof demo_established as He; unfold demo_open in He; congruence).
    apply Hrun; [exact demo_valid | exact demo_smooth].
Defined.

Lemma send_stream_integrity_witness :
  exists c queued, steps (A := first_fit) demo_events demo_c0 = Ok c /\ appended c = wire c ++ queued /\
    wire c = [x61; x62; x63].
Proof.
  assert (Hs : exists c, steps (A := first_fit) demo_events demo_c0 = Ok c /\ wire c = [x61; x62; x63])
    by (eexists; split; [vm_compute; reflexivity | reflexivity]).
  destruct Hs as (c & Hs & Hwire).
  destruct (send_stream_integrity (A := first_fit) 4 ltac:(lia) [] 5 demo_m [0; 1]%nat 64 16 64 true (echo 3)
              demo_events demo_c0 c) as (q & Hq & _).
  - lia.
  - exact demo_m_ok.
  - lia.
  - lia.
  - exact (echo_polite 3).
  - exact demo_established.
  - exact demo_valid.
  - exact demo_smooth.
  - exact Hs.
  - exists c, q. split; [exact Hs|]. split; [exact Hq | exact Hwire].
Defined.

Lemma backpressure_and_progress_witness :
  buffered demo_c0 <= W.high_water_mark_ (write_context_ demo_c0) + 4 /\ reads_in_flight demo_c0 = 1%nat.
Proof.
  destruct (backpressure_and_progress (A := first_fit) 4 ltac:(lia) [] 5 demo_m [0; 1]%nat 64 16 64 true (echo 3)
              [] demo_c0 demo_c0) as (Hb & _ & _ & Hf).
  - lia.
  - exact demo_m_ok.
  - lia.
  - lia.
  - exact (echo_polite 3).
  - exact demo_established.
  - exact I.
  - constructor.
  - reflexivity.
  - reflexivity.
  - split; [exact Hb | exact Hf].
Defined.

End ConnectionSafety.
