(* ===== verification/ConnectionProgress.v ===== *)
(** * Streams and progress of a connection

    The code of a connection neither puts bytes on the wire nor invents received
    ones; what the kernel delivered is what the coroutine consumed followed by
    what is buffered.

    The kernel takes a batch in as many pieces as it likes.  Every piece that is
    not empty brings the output closer to its end, so that a message is sent after
    at most as many completions as it has bytes; a batch of empty fragments, on
    the other hand, is submitted again and again. *)

From S2P Require Import Prelude SendQueue ChunkPool InputChainBuffer TcpConnection ConnectionSafety.
Import ChunkPoolManagerInput TcpConnection ConnectionSafety.

Module ConnectionProgress.

Section progress.
Context {A : Allocator} {B : BufRing} {F : WriteErrors}.

(** ** What only the kernel does

    The bytes on the wire, the bytes received and the descriptors: the code of the
    connection never touches them, and only [handleClose] closes.  Every operation
    that comes into flight is one the connection asked its loop for: the number in
    flight less the number of requests is [reads_due] and [writes_due], and only a
    completion changes it. *)

Definition is_read (q : Request) : bool := match q with TcpConnection.SubmitRead _ => true | _ => false end.
Definition is_write (q : Request) : bool := match q with TcpConnection.SubmitWrite _ _ => true | _ => false end.
Definition reads_asked (qs : list Request) : Z := zlen (List.filter is_read qs).
Definition writes_asked (qs : list Request) : Z := zlen (List.filter is_write qs).
Definition reads_due (c : TcpConnection) : Z := Z.of_nat (reads_in_flight c) - reads_asked (requests c).
Definition writes_due (c : TcpConnection) : Z := Z.of_nat (writes_in_flight c) - writes_asked (requests c).
Definition due (c : TcpConnection) : Z * Z := (reads_due c, writes_due c).

Lemma due_submitRead c : due (submitRead c) = due c.
Proof.
  unfold due, reads_due, writes_due, reads_asked, writes_asked. simpl. rewrite !List.filter_app. simpl.
  unfold zlen. rewrite !length_app. simpl. f_equal; lia.
Qed.
Lemma due_submitWrite c : due (submitWrite c) = due c.
Proof.
  unfold due, reads_due, writes_due, reads_asked, writes_asked. simpl. rewrite !List.filter_app. simpl.
  unfold zlen. rewrite !length_app. simpl. f_equal; lia.
Qed.
Lemma due_submitCancel c : due (submitCancel c) = due c.
Proof.
  unfold due, reads_due, writes_due, reads_asked, writes_asked. simpl. by rewrite !List.filter_app, !app_nil_r.
Qed.
Lemma due_on_read f c : due (on_read f c) = due c.
Proof. done. Qed.
Lemma due_on_write f c : due (on_write f c) = due c.
Proof. done. Qed.
Lemma due_set_frame h f c : due (set_frame h f c) = due c.
Proof. done. Qed.
Lemma due_set_functors fs c : due (set_functors fs c) = due c.
Proof. done. Qed.
Lemma due_set_pool m c : due (set_pool m c) = due c.
Proof. done. Qed.
Lemma due_set_input r k c : due (set_input r k c) = due c.
Proof. done. Qed.
Lemma due_set_bytes a w c : due (set_bytes a w c) = due c.
Proof. done. Qed.
Lemma due_set_closing b s c : due (set_closing b s c) = due c.
Proof. done. Qed.
Lemma due_set_map m n c : due (set_map m n c) = due c.
Proof. done. Qed.
Hint Rewrite due_submitRead due_submitWrite due_submitCancel due_on_read due_on_write due_set_frame due_set_functors
  due_set_pool due_set_input due_set_bytes due_set_closing due_set_map : due.

Notation io c := (wire c, received c, W.fd_ (write_context_ c), R.fd_ (read_context_ c), due c) (only parsing).
Notation kept c :=
  (wire c, received c, W.fd_ (write_context_ c), R.fd_ (read_context_ c), due c, closing_ c, sock_closed_ c,
   close_callback_ c, close_calls c) (only parsing).
Ltac io_solve := simpl in *; unfold queue_destroy in *; autorewrite with due in *; congruence.

Ltac io_tac := ok_inv; try io_solve.

Lemma flush_io c c' : flush c = Ok c' -> kept c' = kept c.
Proof. unfold flush. intros H. io_tac. Qed.

Lemma sendInLoop_io d c c' : sendInLoop d c = Ok c' -> kept c' = kept c.
Proof.
  unfold sendInLoop. intros H. io_tac.
  match goal with H : flush _ = _ |- _ => apply flush_io in H end. io_solve.
Qed.

Lemma send_await_ready_io here d c b c' : send_await_ready here d c = Ok (b, c') -> kept c' = kept c.
Proof.
  unfold send_await_ready. intros H. io_tac.
  match goal with H : sendInLoop _ _ = _ |- _ => apply sendInLoop_io in H; io_solve end.
Qed.

Lemma send_await_suspend_io here d c : kept (send_await_suspend here d c) = kept c.
Proof. unfold send_await_suspend. destruct here; io_solve. Qed.

Lemma recv_suspend_here_io c : kept (recv_suspend_here c) = kept c.
Proof. unfold recv_suspend_here. case_decide; io_solve. Qed.

Lemma recv_await_suspend_io here c : kept (recv_await_suspend here c) = kept c.
Proof. unfold recv_await_suspend. destruct here; [apply recv_suspend_here_io | io_solve]. Qed.

Lemma send_await_resume_io c b c' : send_await_resume c = (b, c') -> kept c' = kept c.
Proof. unfold send_await_resume. intros H. destruct (closing_ c) eqn:E; simplify_eq/=; io_solve. Qed.

Lemma recv_await_resume_io c n c' : recv_await_resume c = (n, c') -> kept c' = kept c.
Proof. unfold recv_await_resume. intros H. destruct (R.is_error_ _), (closing_ c) eqn:E; simplify_eq/=; io_solve. Qed.

Lemma read_io sz c d c' : read sz c = Ok (d, c') -> kept c' = kept c.
Proof. unfold read. intros H. io_tac. Qed.

Lemma retrieve_io sz c c' : retrieve sz c = Ok c' -> kept c' = kept c.
Proof. unfold retrieve. intros H. io_tac. Qed.

Lemma run_io here p : forall c c', run here p c = Ok c' -> kept c' = kept c.
Proof.
  induction p as [d k IH|k IH|sz k IH|k IH|sz k IH|k IH|]; intros c c' H; simpl in H; io_tac;
    repeat match goal with
    | H : send_await_ready _ _ _ = _ |- _ => apply send_await_ready_io in H
    | H : send_await_resume _ = _ |- _ => apply send_await_resume_io in H
    | H : recv_await_resume _ = _ |- _ => apply recv_await_resume_io in H
    | H : read _ _ = _ |- _ => apply read_io in H
    | H : retrieve _ _ = _ |- _ => apply retrieve_io in H
    | H : run _ _ _ = Ok _ |- _ => apply IH in H; simpl in H
    end; rewrite ?send_await_suspend_io, ?recv_await_suspend_io; io_solve.
Qed.

Lemma resume_io c c' : resume c = Ok c' -> kept c' = kept c.
Proof.
  unfold resume. destruct (frame_ c); intros H; io_tac; apply run_io in H;
    try apply send_await_resume_io in E; try apply recv_await_resume_io in E; io_solve.
Qed.

Lemma handleClose_io c c' : handleClose c = Ok c' -> io c' = io c.
Proof.
  unfold handleClose, destroy_task. intros H. destruct (closing_ c); simpl in *.
  - destruct (task_handle_ c); [|by simplify_eq]. destruct (frame_ c); simplify_eq; io_solve.
  - destruct (R.read_handle_ _ || W.write_handle_ _), (task_handle_ c), (frame_ c); simplify_eq/=;
      destruct (close_callback_ c); io_solve.
Qed.

Lemma write_handleError_io c b c' : write_handleError c = (b, c') -> kept c' = kept c.
Proof. unfold write_handleError. intros H. repeat case_match; simplify_eq; io_solve. Qed.

Lemma read_handleError_io c b c' : read_handleError c = (b, c') -> kept c' = kept c.
Proof. unfold read_handleError. intros H. repeat case_match; simplify_eq; io_solve. Qed.

Lemma read_data_io c c' : read_data c = Ok c' -> kept c' = kept c.
Proof. unfold read_data. intros H. io_tac; case_match; io_solve. Qed.

Ltac io_chain :=
  repeat match goal with
  | H : resume _ = Ok _ |- _ => apply resume_io in H; simpl in H
  | H : flush _ = Ok _ |- _ => apply flush_io in H; simpl in H
  | H : handleClose _ = Ok _ |- _ => apply handleClose_io in H; simpl in H
  | H : write_handleError _ = _ |- _ => apply write_handleError_io in H; simpl in H
  | H : read_handleError _ = _ |- _ => apply read_handleError_io in H; simpl in H
  | H : read_data _ = Ok _ |- _ => apply read_data_io in H; simpl in H
  | H : sendInLoop _ _ = Ok _ |- _ => apply sendInLoop_io in H; simpl in H
  | H : run _ _ _ = Ok _ |- _ => apply run_io in H; simpl in H
  end; io_solve.

Lemma write_continue_io c c' : write_continue c = Ok c' -> kept c' = kept c.
Proof. unfold write_continue. intros H. io_tac; io_chain. Qed.

Lemma write_on_completion_io c c' : write_on_completion c = Ok c' -> io c' = io c.
Proof.
  unfold write_on_completion. intros H. io_tac;
    repeat match goal with H : write_continue _ = Ok _ |- _ => apply write_continue_io in H; simpl in H end; io_chain.
Qed.

Lemma read_wake_io c c' : read_wake c = Ok c' -> kept c' = kept c.
Proof. unfold read_wake. intros H. io_tac; io_chain. Qed.

Lemma read_finish_io b c c' : read_finish b c = Ok c' -> io c' = io c.
Proof.
  unfold read_finish. intros H. io_tac;
    repeat match goal with H : read_wake _ = Ok _ |- _ => apply read_wake_io in H; simpl in H end; io_chain.
Qed.

Lemma read_on_completion_io c c' : read_on_completion c = Ok c' -> io c' = io c.
Proof. unfold read_on_completion. intros H. io_tac; apply read_finish_io in H; io_chain. Qed.

Lemma run_functor_io f c c' : run_functor f c = Ok c' -> io c' = io c.
Proof.
  unfold run_functor, send_later, recv_later. intros H. destruct f; [| |by apply handleClose_io in H].
  - destruct (frame_ c); io_tac; io_chain.
  - destruct (frame_ c); io_tac; [pose proof (recv_suspend_here_io c); io_solve | io_chain].
Qed.

(** What a completion put on the wire or delivered, in any state and under any
    circumstances. *)
Definition delivered (e : event) : list byte :=
  match e with ReadDone res _ data => if 0 <? res then data else [] | _ => [] end.
Definition taken (e : event) (c : TcpConnection) : list byte :=
  match e with
  | WriteDone res =>
      match SendQueue.iovs_bytes (SendQueue.heap (W.output_buffer_ (write_context_ c))) (W.temp_data_ (write_context_ c)) with
      | Ok bs => ztake res bs
      | Fault _ => []
      end
  | _ => []
  end.

Lemma step_io e c c' :
  step e c = Ok c' -> wire c' = wire c ++ taken e c /\ received c' = received c ++ delivered e.
Proof.
  destruct e as [res|res flags data| | |]; simpl; intros H; rewrite ?app_nil_r.
  - destruct (SendQueue.iovs_bytes _ _) as [bs|]; [|done]. simpl in H. apply write_on_completion_io in H.
    simpl in H. split; congruence.
  - apply read_on_completion_io in H. simpl in H.
    destruct (0 <? res), (IORING_CQE_F_MORE flags); simpl in *; rewrite ?app_nil_r; split; congruence.
  - destruct (functors c); [by simplify_eq|]. apply run_functor_io in H. simpl in H. split; congruence.
  - destruct (frame_ c); try by simplify_eq. apply run_io in H. simpl in H. split; congruence.
  - by simplify_eq.
Qed.

(** The operation a completion ends: a write always, a receive when it is the last
    of its multishot. *)
Definition ends_read (e : event) : bool :=
  match e with ReadDone _ flags _ => negb (IORING_CQE_F_MORE flags) | _ => false end.
Definition ends_write (e : event) : bool := match e with WriteDone _ => true | _ => false end.

Lemma step_due e c c' :
  in_flight c e -> step e c = Ok c' ->
  reads_due c' = reads_due c - (if ends_read e then 1 else 0) /\
  writes_due c' = writes_due c - (if ends_write e then 1 else 0).
Proof.
  intros Hv. assert (Hd : forall x y : TcpConnection, due y = due x -> reads_due y = reads_due x /\ writes_due y = writes_due x)
    by (intros x y [=]; done).
  destruct e as [res|res flags data| | |]; simpl; intros H.
  - destruct (SendQueue.iovs_bytes _ _) as [bs|]; [|done]. simpl in H. apply write_on_completion_io in H.
    assert (H1 : due c' = (reads_due c, writes_due c - 1)); [|injection H1; lia].
    simpl in Hv. unfold due. injection H as _ _ _ _ -> ->. unfold reads_due, writes_due. simpl. f_equal. lia.
  - apply read_on_completion_io in H. simpl in Hv.
    assert (H1 : due c' = (reads_due c - (if negb (IORING_CQE_F_MORE flags) then 1 else 0), writes_due c)); [|injection H1; lia].
    injection H as _ _ _ _ Hr Hw. unfold due. rewrite Hr, Hw. unfold reads_due, writes_due.
    destruct (0 <? res), (IORING_CQE_F_MORE flags); simpl; f_equal; lia.
  - rewrite !Z.sub_0_r. apply Hd. destruct (functors c); [by simplify_eq|]. apply run_functor_io in H. io_solve.
  - rewrite !Z.sub_0_r. apply Hd. destruct (frame_ c); try by simplify_eq. apply run_io in H. io_solve.
  - rewrite !Z.sub_0_r. apply Hd. by simplify_eq.
Qed.

(** *** The close callback *)

(** A connection with a close callback calls it once, when it closes. *)
Definition told (c : TcpConnection) : Prop :=
  close_callback_ c = true /\ close_calls c = if closing_ c then 1%nat else 0%nat.
Definition tells (c c' : TcpConnection) : Prop :=
  told c -> told c' /\ (closing_ c = true -> closing_ c' = true).

Lemma kept_tells c c' : kept c' = kept c -> tells c c'.
Proof. intros H [Hb Hn]. unfold told. assert (closing_ c' = closing_ c) as Hc by congruence. rewrite Hc. split; [split|]; congruence. Qed.

Lemma tells_trans c1 c2 c3 : tells c1 c2 -> tells c2 c3 -> tells c1 c3.
Proof. intros H1 H2 H. destruct (H1 H) as [H' ?]. destruct (H2 H') as [? ?]. auto. Qed.

Lemma handleClose_tells c c' : handleClose c = Ok c' -> tells c c'.
Proof.
  unfold handleClose, destroy_task, tells, told. intros H [Hb Hn]. destruct (closing_ c) eqn:Ec; simpl in *.
  - destruct (task_handle_ c); [|simplify_eq; by rewrite Ec]. destruct (frame_ c); simplify_eq/=; by rewrite Ec.
  - destruct (R.read_handle_ _ || W.write_handle_ _), (task_handle_ c), (frame_ c); simplify_eq/=;
      rewrite Hb; simpl; by rewrite ?Hb, ?Hn.
Qed.

(** The end of a handler that closes: the coroutine is told, then the connection
    closes. *)
Lemma close_tells (h b : bool) c c1 c' :
  (if h then resume c else Ok c) = Ok c1 -> (if b then handleClose c1 else Fault NullDeref) = Ok c' -> tells c c'.
Proof.
  intros H1 H2. destruct b; [|done]. apply (tells_trans _ c1); [|by apply handleClose_tells].
  apply kept_tells. destruct h; [by apply resume_io | by apply Ok_inj in H1; subst].
Qed.

Lemma write_on_completion_tells c c' : write_on_completion c = Ok c' -> tells c c'.
Proof.
  unfold write_on_completion. intros H. ok_step; [|done]. cbn [mbind result_bind] in H. destruct (W.res_ _ <? 0).
  - destruct (write_handleError c) as [b c1] eqn:E1. apply write_handleError_io in E1.
    apply (tells_trans _ (on_write (W.set_sending false) c1)); [by apply kept_tells|]. destruct b.
    + do 3 (ok_step; [|done]; cbn [mbind result_bind] in H). apply Ok_inj in H. subst c'.
      eapply tells_trans; [by eapply close_tells | by apply kept_tells].
    + by apply kept_tells, write_continue_io.
  - ok_step; [|done]. cbn [mbind result_bind] in H. apply write_continue_io in H. by apply kept_tells.
Qed.

Lemma read_finish_tells b c c' : read_finish b c = Ok c' -> tells c c'.
Proof.
  unfold read_finish. intros H. destruct (negb _); [|by apply kept_tells, read_wake_io].
  destruct (_ && _); [|destruct (_ && _)].
  - ok_step; [|done]. apply read_wake_io in H. by apply kept_tells.
  - apply read_wake_io in H. apply kept_tells. io_solve.
  - do 3 (ok_step; [|done]; cbn [mbind result_bind] in H). apply Ok_inj in H. subst c'.
    eapply tells_trans; [by eapply close_tells | by apply kept_tells].
Qed.

Lemma read_on_completion_tells c c' : read_on_completion c = Ok c' -> tells c c'.
Proof.
  unfold read_on_completion. intros H. do 2 (ok_step; [|done]; cbn [mbind result_bind] in H).
  destruct (_ <=? 0); cbn [mbind result_bind] in H.
  - destruct (read_handleError c) as [b c1] eqn:E1. apply read_handleError_io in E1. apply read_finish_tells in H.
    by apply (tells_trans _ c1); [apply kept_tells|].
  - destruct (read_data c) as [c1|] eqn:E1; [|done]. apply read_data_io in E1. apply read_finish_tells in H.
    by apply (tells_trans _ c1); [apply kept_tells|].
Qed.

Lemma run_functor_tells f c c' : run_functor f c = Ok c' -> tells c c'.
Proof.
  unfold run_functor. intros H. destruct f; [| |by apply handleClose_tells].
  - apply kept_tells. unfold send_later in H. destruct (frame_ c); ok_inv; io_chain.
  - apply kept_tells. unfold recv_later in H. destruct (frame_ c); ok_inv; [apply recv_suspend_here_io | io_chain].
Qed.

Lemma step_tells e c c' : step e c = Ok c' -> tells c c'.
Proof.
  intros H. destruct e as [res|res flags data| | |]; simpl in H.
  - destruct (SendQueue.iovs_bytes _ _) as [bs|]; [|done]. cbn [mbind result_bind] in H.
    apply write_on_completion_tells in H. done.
  - apply read_on_completion_tells in H. by destruct (0 <? res), (IORING_CQE_F_MORE flags).
  - destruct (functors c); [by apply Ok_inj in H; subst; apply kept_tells|]. by apply run_functor_tells in H.
  - destruct (frame_ c); try (by apply Ok_inj in H; subst; apply kept_tells). apply run_io in H. by apply kept_tells.
  - apply Ok_inj in H. subst. by apply kept_tells.
Qed.

Lemma steps_received es : forall c c', steps es c = Ok c' -> received c' = received c ++ concat (map delivered es).
Proof.
  induction es as [|e es IH]; intros c c' H; simpl in H; [simplify_eq; by rewrite app_nil_r|].
  destruct (step e c) as [c1|] eqn:E; [|done]. simpl in H. apply step_io in E as [_ E]. apply IH in H.
  by rewrite H, E, <- app_assoc.
Qed.

(** ** Counting the completions *)

(** A completion that took something. *)
Definition took (e : event) : bool := match e with WriteDone res => 0 <? res | _ => false end.

Definition writes_done (es : list event) : Z := zlen (List.filter took es).

Context (D : Z) (D_nonneg : 0 <= D).

Lemma step_wire o e c c' :
  inv D o c -> valid c e -> step e c = Ok c' -> zlen (wire c) + (if took e then 1 else 0) <= zlen (wire c').
Proof.
  intros ((s & p & Hw) & _ & _) Hv Hs. apply step_io in Hs as [-> _]. rewrite zlen_app.
  pose proof (zlen_nonneg (taken e c)). destruct e as [res|res flags data| | |]; simpl in *; try lia.
  destruct Hv as [Hfl Hres]. pose proof (in_flight_sending _ _ _ _ Hw Hfl) as Hse.
  pose proof (wi_sending _ _ _ _ Hw) as Hb. rewrite Hse in Hb. destruct Hb as (_ & _ & Hb). rewrite Hb in *.
  destruct (Z.ltb_spec 0 res) as [Hp|]; [|lia]. destruct Hres as [?|[_ Hle]]; [lia|].
  specialize (Hle _ Hb). rewrite zlen_ztake by lia. lia.
Qed.

Lemma steps_wire o es : forall c c',
  inv D o c -> valid_run c es -> Forall smooth es -> steps es c = Ok c' -> zlen (wire c) + writes_done es <= zlen (wire c').
Proof.
  induction es as [|e es IH]; intros c c' Hi Hv Hsm Hs; simpl in Hs.
  - simplify_eq. change (writes_done []) with 0. lia.
  - destruct Hv as [Hv Hvs]. apply Forall_cons in Hsm as [Hsm Hsms].
    destruct (step_ok D D_nonneg o e c Hi Hv Hsm) as (c1 & Hc1 & Hi1).
    rewrite Hc1 in Hs. simpl in Hs. pose proof (step_wire o e c c1 Hi Hv Hc1).
    pose proof (IH c1 c' Hi1 (Hvs _ Hc1) Hsms Hs). unfold writes_done in *. simpl. destruct (took e); rewrite ?zlen_cons; lia.
Qed.

(** ** A batch without data *)

(** The batch in flight has no bytes, although there are bytes behind it. *)
Definition stuck (c : TcpConnection) : Prop :=
  exists s p, write_inv D c s p /\ W.is_sending_ (write_context_ c) = true /\
    SendQueue.bytes s = [] /\ length s = W.max_slices_ (write_context_ c) /\ SendQueue.bytes p <> [] /\
    (W.write_handle_ (write_context_ c) = false \/ W.overLoad (write_context_ c) = true).

Lemma drop_frags_0 fs : SendQueue.drop_frags 0 fs = fs.
Proof. by destruct fs. Qed.

(** The kernel has nothing to take: the only completion without an error is 0. *)
Lemma stuck_zero c res : stuck c -> 0 <= res -> valid c (WriteDone res) <-> res = 0.
Proof.
  intros (s & p & Hw & Hse & Hs & _) Hres. pose proof (wi_sending _ _ _ _ Hw) as Hb. rewrite Hse, Hs in Hb.
  destruct Hb as (_ & Hn & Hb). split.
  - intros [_ [?|[_ Hle]]]; [lia|]. specialize (Hle _ Hb). rewrite zlen_nil in Hle. lia.
  - intros ->. split; [simpl; by rewrite Hn|]. right. split; [done|]. intros bs Hbs.
    rewrite Hb in Hbs. by simplify_eq.
Qed.

(** Going on when the first [max_slices_] fragments are empty. *)
Lemma continue_stuck c p :
  SendQueue.rep (W.output_buffer_ (write_context_ c)) [] p -> wire c ++ SendQueue.bytes p = appended c ->
  (0 < W.max_slices_ (write_context_ c))%nat ->
  0 <= W.high_water_mark_ (write_context_ c) /\ W.high_water_mark_ (write_context_ c) + D < SIZE_MAX ->
  W.holder_ (write_context_ c) = true -> writes_in_flight c = 0%nat ->
  (W.is_error_ (write_context_ c) = true -> write_errors = true) ->
  (W.max_slices_ (write_context_ c) <= length p)%nat ->
  SendQueue.bytes (take (W.max_slices_ (write_context_ c)) p) = [] -> SendQueue.bytes p <> [] ->
  W.write_handle_ (write_context_ c) = false \/ W.overLoad (write_context_ c) = true ->
  exists c', write_continue c = Ok c' /\ stuck c' /\ wire c' = wire c /\ buffered c' = buffered c.
Proof.
  intros Hr Hst Hsl Hmk Hh Hn Her Hlen Hem Hne Hnw.
  destruct (flush_inv D c p) as (c2 & s2 & p2 & Hc2 & Hu & Hw2 & Hse2 & Hb2 & _ & Hs2); try done; [by intros ->|].
  assert (Hpos : 0 < buffered c).
  { rewrite (buffered_bytes c [] p Hr). simpl. destruct (SendQueue.bytes p) as [|b bs]; [done|].
    rewrite zlen_cons. pose proof (zlen_nonneg bs). lia. }
  unfold write_continue. fold (buffered c). rewrite (proj2 (Z.ltb_lt _ _) Hpos), Hc2. simpl.
  assert (Hal : alive c2 = Ok tt).
  { unfold alive, refs. pose proof (wi_sending _ _ _ _ Hw2) as Hx. rewrite Hse2 in Hx. destruct Hx as (-> & _).
    by destruct (R.holder_ _). }
  rewrite Hal. simpl.
  assert (Hnw2 : W.write_handle_ (write_context_ c2) = false \/ W.overLoad (write_context_ c2) = true).
  { rewrite (un_handle _ _ Hu), (overLoad_same c c2); [done | congruence | apply (un_mark _ _ Hu)]. }
  assert (W.write_handle_ (write_context_ c2) && negb (W.overLoad (write_context_ c2)) = false) as ->.
  { destruct Hnw2 as [-> | ->]; [done|]. apply andb_false_r. }
  exists c2. split; [done|]. split; [|split; [apply (un_wire _ _ Hu)|done]].
  subst s2. eexists _, p2. split; [exact Hw2|]. split_and!; try done.
  - rewrite (un_slices _ _ Hu), length_take. lia.
  - intros Hp2. pose proof (buffered_bytes _ _ _ (wi_rep _ _ _ _ Hw2)) as Hz.
    rewrite SendQueue.bytes_app, Hem, Hp2 in Hz. simpl in Hz. rewrite zlen_nil in Hz. lia.
Qed.

Lemma stuck_step c :
  stuck c -> exists c', step (WriteDone 0) c = Ok c' /\ stuck c' /\ wire c' = wire c /\ buffered c' = buffered c.
Proof.
  intros (s & p & Hw & Hse & Hs & Hl & Hp & Hnw). pose proof (wi_sending _ _ _ _ Hw) as Hb. rewrite Hse in Hb.
  destruct Hb as (Hh & Hn & Hb). unfold step. rewrite Hb, Hs. simpl. unfold write_on_completion. simpl.
  rewrite Hh. simpl.
  destruct (SendQueue.retrieve_frags 0 _ _ _ (wi_rep _ _ _ _ Hw)) as (q' & p' & -> & Hr' & Hf); [done|]. simpl.
  rewrite drop_frags_0 in Hf. set (c1 := on_write (W.set_buffer q' _) _).
  assert (Hby : SendQueue.bytes p' = SendQueue.bytes p).
  { unfold SendQueue.bytes at 1. rewrite Hf. change (concat _) with (SendQueue.bytes (s ++ p)).
    by rewrite SendQueue.bytes_app, Hs. }
  assert (Hbu : buffered c1 = buffered c).
  { rewrite (buffered_bytes c1 [] p' Hr'), (buffered_bytes c s p (wi_rep _ _ _ _ Hw)). simpl.
    by rewrite SendQueue.bytes_app, Hs, Hby. }
  assert (Hlp : length p' = length (s ++ p)).
  { apply (f_equal length) in Hf. unfold SendQueue.frags in Hf. by rewrite !length_map in Hf. }
  assert (Hn1 : writes_in_flight c1 = 0%nat) by (simpl; by rewrite Hn).
  destruct (continue_stuck c1 p') as (c' & Hc' & Hst & Hwi & Hb2); simpl; try apply Hw; try done.
  - rewrite Hby, app_nil_r, <- (wi_stream _ _ _ _ Hw), SendQueue.bytes_app, Hs. done.
  - rewrite Hlp, length_app. lia.
  - unfold SendQueue.bytes. rewrite <- SendQueue.frags_take, Hf, SendQueue.frags_app, take_app_length'; [done|].
    unfold SendQueue.frags. by rewrite length_map.
  - by rewrite Hby.
  - destruct Hnw as [?|Ho]; [by left|]. right. rewrite <- Ho. by apply (overLoad_same c c1).
  - exists c'. split; [done|]. split; [done|]. rewrite Hwi, Hb2. simpl. by rewrite app_nil_r.
Qed.

(** ** Properties *)

(** C27. Sending comes to an end: in any smooth run (no write fails with [EAGAIN],
    [ENOBUFS] or [EINTR], after which the code skips the batch; the table keeps the
    connection) of a polite coroutine the completions that took at least one byte,
    together with the bytes still buffered, are at most as many as the bytes the
    coroutine gave to [send]; so that after as many of them as there are bytes
    everything is on the wire. *)
Theorem write_completions_bounded o fd m av ihw ihc ohw cb p es c0 c :
  fd <> 0 -> pool_ok m av [] o -> 0 <= ohw -> ohw + D < SIZE_MAX -> polite D p ->
  open_connection fd m ihw ihc ohw cb false p = Ok c0 -> valid_run c0 es -> Forall smooth es -> steps es c0 = Ok c ->
  writes_done es + buffered c <= zlen (appended c) /\
  (writes_done es = zlen (appended c) -> wire c = appended c).
Proof.
  intros Hfd Hm H0 H1 Hp Hc0 Hv Hsm Hs.
  destruct (run_inv D D_nonneg _ _ _ _ _ _ _ _ _ _ _ _ Hfd Hm H0 H1 Hp Hc0 Hv Hsm Hs) as [Hi Hi'].
  pose proof (steps_wire _ es c0 c Hi Hv Hsm Hs) as Hle. destruct (inv_stream D _ c Hi') as (q & Hq & Hz & _). pose proof (zlen_nonneg (wire c0)).
  rewrite Hq, zlen_app. split; [lia|]. intros He.
  assert (q = []) as -> by (apply length_zero_iff_nil; unfold zlen in *; lia). by rewrite app_nil_r.
Qed.

Lemma open_kept fd m ihw ihc ohw cb here p c :
  open_connection fd m ihw ihc ohw cb here p = Ok c -> kept c = ([], [], fd, fd, (0, 0), false, false, cb, 0%nat).
Proof.
  unfold open_connection, new_TcpConnection, W.new_WriteContext, Established. intros H. io_tac.
  apply resume_io in H. rewrite H. done.
Qed.

(** C8. Nothing the peer sent is lost, duplicated, reordered or mixed with another
    connection's: at any point of a smooth run (no transient write error, the table
    keeps the connection) of a polite coroutine the bytes the coroutine has read or
    skipped, followed by the bytes in the input buffer, are exactly the bytes the
    kernel delivered, in order; and the other connections on the loop find in the
    shared pool what they left there. *)
Theorem receive_stream_integrity o fd m av ihw ihc ohw cb p es c0 c :
  fd <> 0 -> pool_ok m av [] o -> 0 <= ohw -> ohw + D < SIZE_MAX -> polite D p ->
  open_connection fd m ihw ihc ohw cb false p = Ok c0 -> valid_run c0 es -> Forall smooth es -> steps es c0 = Ok c ->
  (exists unread, concat (map delivered es) = consumed c ++ unread /\
     zlen unread = InputChainBuffer.getTotalLen (R.input_buffer_ (read_context_ c))) /\
  (forall b l, l.*1 ⊆ o -> InputChainBuffer.rep m b l ->
     InputChainBuffer.rep (pool c) b l /\ InputChainBuffer.bytes (pool c) l = InputChainBuffer.bytes m l).
Proof.
  intros Hfd Hm H0 H1 Hp Hc0 Hv Hsm Hs.
  destruct (run_inv D D_nonneg _ _ _ _ _ _ _ _ _ _ _ _ Hfd Hm H0 H1 Hp Hc0 Hv Hsm Hs) as [_ (_ & (l & av' & [[_ Hr [_ _ Hk] Hst] _]) & _)].
  split; [|exact Hk]. exists (InputChainBuffer.bytes (pool c) l). apply steps_received in Hs.
  pose proof (open_kept _ _ _ _ _ _ _ _ _ Hc0) as Ho. assert (received c0 = []) as Hr0 by congruence.
  rewrite Hr0 in Hs. simpl in Hs. split; [congruence|].
  symmetry. apply (InputChainBuffer.rep_total _ _ _ Hr).
Qed.

(** A batch of empty fragments never ends: [send] of empty data appends a
    fragment without bytes, and once a whole batch ([max_slices_] fragments) is
    empty while data is queued behind it, the kernel can only report that it took
    nothing, [retrieve(0)] frees no fragment, and the same batch is submitted
    again, any number of times, with nothing on the wire. *)
Theorem empty_fragments_livelock c n :
  stuck c ->
  (forall res, 0 <= res -> valid c (WriteDone res) <-> res = 0) /\
  exists c', steps (replicate n (WriteDone 0)) c = Ok c' /\ stuck c' /\ wire c' = wire c /\ buffered c' = buffered c.
Proof.
  intros Hst. split; [intros res; by apply stuck_zero|]. revert c Hst. induction n as [|n IH]; intros c Hst; [by exists c|].
  destruct (stuck_step c Hst) as (c1 & Hc1 & Hst1 & Hw1 & Hb1). cbn [replicate steps]. rewrite Hc1.
  destruct (IH c1 Hst1) as (c' & Hc' & Hst' & Hw' & Hb'). exists c'. split; [exact Hc'|]. split; [done|]. split; congruence.
Qed.

End progress.

(** ** Concrete runs *)

#[local] Existing Instance demo_errors.

Lemma write_completions_bounded_witness :
  exists c, steps (A := first_fit) demo_events demo_c0 = Ok c /\ writes_done demo_events = 2 /\
    writes_done demo_events + buffered c <= 3.
Proof.
  assert (Hs : exists c, steps (A := first_fit) demo_events demo_c0 = Ok c /\ zlen (appended c) = 3)
    by (eexists; split; [vm_compute; reflexivity | reflexivity]).
  destruct Hs as (c & Hs & Ha). exists c. split; [exact Hs|]. split; [reflexivity|]. rewrite <- Ha.
  apply (write_completions_bounded (A := first_fit) 4 ltac:(lia) [] 5 demo_m [0; 1]%nat 64 16 64 true (echo 3)
           demo_events demo_c0 c).
  - lia.
  - exact demo_m_ok.
  - lia.
  - lia.
  - exact (echo_polite 3).
  - exact demo_established.
  - exact demo_valid.
  - exact demo_smooth.
  - exact Hs.
Defined.

Lemma receive_stream_integrity_witness :
  exists c unread, steps (A := first_fit) demo_events demo_c0 = Ok c /\ [x61; x62; x63] = consumed c ++ unread /\
    zlen unread = 0.
Proof.
  assert (Hs : exists c, steps (A := first_fit) demo_events demo_c0 = Ok c /\
      InputChainBuffer.getTotalLen (R.input_buffer_ (read_context_ c)) = 0)
    by (eexists; split; [vm_compute; reflexivity | reflexivity]).
  destruct Hs as (c & Hs & Hz).
  destruct (receive_stream_integrity (A := first_fit) 4 ltac:(lia) [] 5 demo_m [0; 1]%nat 64 16 64 true (echo 3)
              demo_events demo_c0 c) as [(u & Hu & Hlen) _].
  - lia.
  - exact demo_m_ok.
  - lia.
  - lia.
  - exact (echo_polite 3).
  - exact demo_established.
  - exact demo_valid.
  - exact demo_smooth.
  - exact Hs.
  - exists c, u. split; [exact Hs|]. split; [exact Hu|]. rewrite Hlen. exact Hz.
Defined.

(** A coroutine that sends [n] empty messages behind a first one of one byte, and a
    last one of one byte. *)
Fixpoint send_empty (n : nat) (k : prog) : prog :=
  match n with
  | O => k
  | S n => Send [] (fun ok => if ok then send_empty n k else Return)
  end.
Definition chatty : prog :=
  Send [x61] (fun ok => if ok then send_empty 256 (Send [x62] (fun _ => Return)) else Return).

Lemma send_empty_polite n k : polite 4 k -> polite 4 (send_empty n k).
Proof. intros Hk. induction n as [|n IH]; simpl; [done|]. split; [vm_compute; discriminate|]. done. Qed.

Lemma chatty_polite : polite 4 chatty.
Proof.
  unfold chatty. split; [vm_compute; discriminate|]. split; [done|]. apply send_empty_polite.
  split; [vm_compute; discriminate|]. done.
Qed.

Definition chatty_c0 : @TcpConnection list_ring :=
  from_ok demo_c0 (demo_open false chatty).
Lemma chatty_opened : demo_open false chatty = Ok chatty_c0.
Proof. vm_compute. reflexivity. Qed.

(** The kernel took the first byte: the 256 empty fragments are in flight. *)
Definition chatty_c1 : @TcpConnection list_ring :=
  from_ok demo_c0 (step (A := first_fit) (WriteDone 1) chatty_c0).
Lemma chatty_step : step (A := first_fit) (WriteDone 1) chatty_c0 = Ok chatty_c1.
Proof. vm_compute. reflexivity. Qed.
Lemma chatty_valid : valid chatty_c0 (WriteDone 1).
Proof.
  split; [vm_compute; discriminate|]. right. split; [lia|]. intros bs Hbs. vm_compute in Hbs. injection Hbs as <-.
  vm_compute. discriminate.
Qed.

Lemma chatty_write_inv : exists s p, write_inv 4 chatty_c1 s p.
Proof.
  destruct (established_ok (A := first_fit) 4 ltac:(lia) [] 5 demo_m [0; 1]%nat 64 16 64 true chatty)
    as (c & Hc & Hi); [lia | exact demo_m_ok | lia | lia | exact chatty_polite |].
  pose proof chatty_opened as He. unfold demo_open in He. rewrite Hc in He. apply Ok_inj in He as ->.
  destruct (step_ok (A := first_fit) 4 ltac:(lia) (mkOthers [] demo_m) (WriteDone 1) chatty_c0 Hi chatty_valid (or_introl Z.le_0_1)) as (c1 & Hc1 & Hi1).
  rewrite chatty_step in Hc1. apply Ok_inj in Hc1 as <-. destruct Hi1 as [H _]. exact H.
Qed.

(** The output buffer then: the last fragment is the one behind the cursor. *)
Definition chatty_q : SendQueue.SendQueue := W.output_buffer_ (write_context_ chatty_c1).
Lemma chatty_q_curr : SendQueue.curr_ chatty_q = Some 257%nat.
Proof. vm_compute. reflexivity. Qed.
Lemma chatty_q_last : SendQueue.next_ <$> (SendQueue.heap chatty_q !! 257%nat) = Some None.
Proof. vm_compute. reflexivity. Qed.
Lemma chatty_q_size : size (SendQueue.heap chatty_q) = 257%nat.
Proof. vm_compute. reflexivity. Qed.
Lemma chatty_q_total : SendQueue.total_len_ chatty_q = 1.
Proof. vm_compute. reflexivity. Qed.
Lemma chatty_sending :
  W.is_sending_ (write_context_ chatty_c1) = true /\ W.max_slices_ (write_context_ chatty_c1) = 256%nat /\
  W.write_handle_ (write_context_ chatty_c1) = false /\
  SendQueue.iovs_bytes (SendQueue.heap chatty_q) (W.temp_data_ (write_context_ chatty_c1)) = Ok [].
Proof. vm_compute. done. Qed.

Lemma chatty_stuck : stuck 4 chatty_c1.
Proof.
  destruct chatty_write_inv as (s & p & Hw). destruct chatty_sending as (Hse & Hmax & Hwh & Hb0).
  pose proof (wi_sending _ _ _ _ Hw) as Hs. rewrite Hse in Hs. destruct Hs as (_ & _ & Hb).
  unfold chatty_q in Hb0. rewrite Hb0 in Hb. apply Ok_inj in Hb. symmetry in Hb.
  pose proof (wi_rep _ _ _ _ Hw) as Hr. fold chatty_q in Hr.
  pose proof (SendQueue.rep_shape _ _ _ Hr) as Hsh. pose proof (SendQueue.rep_total _ _ _ Hr) as Ht.
  rewrite chatty_q_total, SendQueue.bytes_app, Hb in Ht. cbn [app] in Ht.
  pose proof (SendQueue.rep_curr _ _ _ Hr) as Hcu. rewrite chatty_q_curr in Hcu.
  destruct p as [|[a f] p]; [discriminate Hcu|]. cbn in Hcu. assert (a = 257%nat) as -> by congruence.
  destruct (chain_at _ _ _ _ _ _ _ (SendQueue.shape_chain _ _ Hsh)) as [Hf Hnx].
  pose proof chatty_q_last as Hla. rewrite Hf in Hla. cbn in Hla. assert (SendQueue.next_ f = None) as Hn0 by congruence.
  rewrite Hn0 in Hnx. destruct p as [|x p]; [|discriminate Hnx].
  pose proof (SendQueue.shape_size _ _ Hsh) as Hlen. rewrite chatty_q_size, length_app in Hlen. cbn in Hlen.
  exists s, [(257%nat, f)]. rewrite Hmax, Hwh. split; [exact Hw|]. split; [exact Hse|]. split; [exact Hb|].
  split; [lia|]. split; [|left; reflexivity]. intros He. rewrite He in Ht. discriminate Ht.
Qed.

Lemma empty_fragments_livelock_witness :
  exists c', steps (A := first_fit) (replicate 1000 (WriteDone 0)) chatty_c1 = Ok c' /\
    wire c' = [x61] /\ buffered c' = 1.
Proof.
  destruct (empty_fragments_livelock (A := first_fit) 4 chatty_c1 1000 chatty_stuck) as (_ & c' & Hc' & _ & Hw & Hb).
  exists c'. split; [exact Hc'|]. rewrite Hw, Hb. split; vm_compute; reflexivity.
Defined.

End ConnectionProgress.
