(* ===== verification/ClientProtocol.v ===== *)
(** * What a client's coroutine promises reaches the wire

    A relation [I] between the bytes a coroutine has consumed and the bytes it has
    given to [send] is a protocol of the coroutine when its own code keeps [I] at
    every point where it can be suspended ([client_ok], which does not mention the
    connection).  [client_keeps_protocol] carries the protocol over to the
    connection in every smooth run; the echo server of the README and of
    [test/integration_test/IntegrationTest.cc] is the instance in which [I] is
    equality. *)

From S2P Require Import Prelude SendQueue ChunkPool InputChainBuffer TcpConnection ConnectionSafety ConnectionProgress.
Import ChunkPoolManagerInput TcpConnection ConnectionSafety ConnectionProgress.

Module ClientProtocol.

Section protocol.
Context {A : Allocator} {B : BufRing} {F : WriteErrors}.
Context (I : list byte -> list byte -> Prop).

(** ** The client alone

    [i] and [o]: what the coroutine has consumed and sent so far.  It is suspended
    in [send], after its data was appended, in [PrepareToRead] and at its end. *)
Fixpoint client_ok (p : prog) (i o : list byte) : Prop :=
  match p with
  | Send data k => I i (o ++ data) /\ forall b, client_ok (k b) i (o ++ data)
  | PrepareToRead k => I i o /\ forall n, client_ok (k n) i o
  | Read _ k => forall d, client_ok (k d) (i ++ d) o
  | Peek k => forall x, client_ok (k x) i o
  | Retrieve _ k => forall d, client_ok k (i ++ d) o
  | Offload _ => False
  | Return => I i o
  end.

(** ** The client on its connection *)

(** The protocol holds, and what the suspended coroutine does next keeps it. *)
Definition talk (c : TcpConnection) : Prop :=
  I (consumed c) (appended c) /\
  match frame_ c with
  | NotStarted p => client_ok p (consumed c) (appended c)
  | AtSend k => forall b, client_ok (k b) (consumed c) (appended c)
  | AtRecv k => forall n, client_ok (k n) (consumed c) (appended c)
  | _ => True
  end.

(** A coroutine that waits for data has consumed what has arrived. *)
Definition settled (c : TcpConnection) : Prop :=
  talk c /\ forall k, frame_ c = AtRecv k -> R.isEmpty (read_context_ c) = true.

Notation said c := (consumed c, appended c, frame_ c, R.input_buffer_ (read_context_ c), closing_ c,
  R.read_handle_ (read_context_ c), W.write_handle_ (write_context_ c)) (only parsing).

Lemma talk_same c c' : consumed c' = consumed c -> appended c' = appended c -> frame_ c' = frame_ c -> talk c -> talk c'.
Proof. intros Hc Ha Hf. unfold talk. by rewrite Hc, Ha, Hf. Qed.

Lemma settled_same c c' :
  consumed c' = consumed c -> appended c' = appended c -> frame_ c' = frame_ c ->
  R.input_buffer_ (read_context_ c') = R.input_buffer_ (read_context_ c) -> settled c -> settled c'.
Proof.
  intros Hc Ha Hf Hb [Ht He]. split; [by apply (talk_same c)|]. unfold R.isEmpty. rewrite Hf, Hb. exact He.
Qed.

Lemma flush_said c c' : flush c = Ok c' -> said c' = said c.
Proof. unfold flush. intros H. by ok_inv. Qed.

Lemma sendInLoop_said d c c' :
  sendInLoop d c = Ok c' ->
  said c' = (consumed c, appended c ++ d, frame_ c, R.input_buffer_ (read_context_ c), closing_ c,
    R.read_handle_ (read_context_ c), W.write_handle_ (write_context_ c)).
Proof.
  unfold sendInLoop. intros H. ok_inv; [done|].
  match goal with H : flush _ = _ |- _ => apply flush_said in H end. simpl in *. congruence.
Qed.

Lemma run_settled p : forall c c',
  run true p c = Ok c' -> closing_ c = false -> client_ok p (consumed c) (appended c) -> settled c'.
Proof.
  induction p as [d k IH|k IH|sz k IH|k IH|sz k IH|k IH|]; intros c c' H Hcl Hp; simpl in H, Hp.
  - unfold send_await_ready in H. rewrite Hcl in H. simpl in H.
    destruct (sendInLoop d c) as [c1|] eqn:E; [|done]. simpl in H. destruct Hp as [Hi Hk].
    apply sendInLoop_said in E. injection E as Hc Ha _ _ Hcl1 _ _. rewrite Hcl in Hcl1.
    destruct (negb _); simpl in H.
    + unfold send_await_resume in H. rewrite Hcl1 in H. apply IH in H; [done..|]. by rewrite Hc, Ha.
    + simplify_eq/=. split; [|done]. unfold talk. simpl. by rewrite Hc, Ha.
  - unfold recv_await_ready, recv_await_resume, recv_await_suspend, recv_suspend_here in H. rewrite Hcl in H. simpl in H.
    destruct Hp as [Hi Hk]. destruct (R.isEmpty (read_context_ c)) eqn:Ee; simpl in H.
    + case_decide; simplify_eq/=; (split; [by split|]); intros k' _; exact Ee.
    + destruct (R.is_error_ _); by eapply IH.
  - destruct (read sz c) as [[d c1]|] eqn:E; [|done]. simpl in H. pose proof (read_io _ _ _ _ E) as Hk.
    apply IH in H; [done | congruence |]. unfold read in E. by ok_inv.
  - destruct (peek c) as [x|]; [|done]. by eapply IH.
  - destruct (retrieve sz c) as [c1|] eqn:E; [|done]. simpl in H. pose proof (retrieve_io _ _ _ E) as Hk.
    apply IH in H; [done | congruence |]. unfold retrieve in E. by ok_inv.
  - done.
  - simplify_eq/=. by repeat split.
Qed.

Lemma resume_settled c c' : resume c = Ok c' -> closing_ c = false -> talk c -> settled c'.
Proof.
  unfold resume, send_await_resume, recv_await_resume. intros H Hcl [_ Hf]. simpl in H. rewrite Hcl in H.
  destruct (frame_ c); try done; [by eapply run_settled in H..|].
  destruct (R.is_error_ _); by eapply run_settled in H.
Qed.

Lemma handleClose_settled c c' : handleClose c = Ok c' -> settled c -> settled c'.
Proof.
  intros H [[Hi Hf] He]. unfold handleClose, destroy_task in H.
  assert (Hs : consumed c' = consumed c /\ appended c' = appended c /\
    R.input_buffer_ (read_context_ c') = R.input_buffer_ (read_context_ c) /\
    (frame_ c' = frame_ c \/ frame_ c' = FrameDestroyed)).
  { destruct (closing_ c); simpl in H.
    - destruct (task_handle_ c); [|simplify_eq; auto]. destruct (frame_ c); simplify_eq/=; auto.
    - destruct (R.read_handle_ _ || W.write_handle_ _), (task_handle_ c), (frame_ c) eqn:E; simplify_eq/=;
        destruct (close_callback_ c); simpl; rewrite ?E; auto. }
  destruct Hs as (Hc & Ha & Hb & Hfr). unfold settled, talk, R.isEmpty. rewrite Hc, Ha, Hb.
  by destruct Hfr as [-> | ->].
Qed.

(** Handles are left only with open connections, and a coroutine that waits for
    data has its handle with the read context. *)
Definition registered (c : TcpConnection) : Prop :=
  (R.read_handle_ (read_context_ c) = true -> closing_ c = false) /\
  (W.write_handle_ (write_context_ c) = true -> closing_ c = false) /\
  (forall k, frame_ c = AtRecv k -> R.read_handle_ (read_context_ c) = true).

Lemma inv_registered D o c : inv D o c -> registered c.
Proof.
  intros (_ & _ & (_ & _ & _ & Hc)). unfold registered. destruct (closing_ c).
  - destruct Hc as (-> & -> & [[-> _]|[-> _]]); done.
  - destruct Hc as [_ Hc]. split; [done|]. split; [done|]. intros k Hk. rewrite Hk in Hc. by destruct Hc.
Qed.

Lemma registered_same c c' : said c' = said c -> registered c -> registered c'.
Proof. intros [= _ _ Hf _ Hc Hr Hw]. unfold registered. by rewrite Hf, Hc, Hr, Hw. Qed.

(** ** Completions *)

Lemma write_continue_settled c c' :
  write_continue c = Ok c' -> registered c -> settled c -> settled c'.
Proof.
  unfold write_continue. intros H (_ & Hr & _) Hs.
  destruct (if 0 <? _ then _ else _) as [c1|] eqn:E1; [|done]. cbn [mbind result_bind] in H.
  assert (Hc1 : said c1 = said c) by (destruct (0 <? _); [by apply flush_said | by apply Ok_inj in E1; subst c1]).
  injection Hc1 as Hc Ha Hf Hb Hcl _ Hh. destruct (alive c1); [|done]. cbn [mbind result_bind] in H.
  destruct (_ && _) eqn:E2; [|apply Ok_inj in H; subst; by apply (settled_same c)].
  destruct (assert_ _); [|done]. apply andb_true_iff in E2 as [E2 _].
  eapply resume_settled; [exact H | simpl; rewrite Hcl; apply Hr; congruence|].
  apply (talk_same c); [done..|apply Hs].
Qed.

Lemma write_handleError_said c b c' : write_handleError c = (b, c') -> said c' = said c.
Proof. unfold write_handleError. intros H. repeat case_match; by simplify_eq/=. Qed.

Lemma read_handleError_said c b c' : read_handleError c = (b, c') -> said c' = said c.
Proof. unfold read_handleError. intros H. repeat case_match; by simplify_eq/=. Qed.

(** A failure: the coroutine is told, then the connection is closed. *)
Lemma close_settled (h : bool) c c1 c' :
  (if h then resume c else Ok c) = Ok c1 -> handleClose c1 = Ok c' ->
  (h = true -> closing_ c = false) -> talk c -> (h = false -> settled c) -> settled c'.
Proof.
  intros H1 H2 Hh Ht Hs. apply handleClose_settled in H2; [done|].
  destruct h; [by apply resume_settled in H1; auto | apply Ok_inj in H1; subst; auto].
Qed.

Lemma write_on_completion_settled c c' :
  write_on_completion c = Ok c' -> registered c -> settled c -> settled c'.
Proof.
  unfold write_on_completion. intros H Hr Hs. destruct (assert_ _); [|done]. cbn [mbind result_bind] in H.
  destruct (W.res_ _ <? 0).
  2:{ destruct (SendQueue.retrieve _ _); [|done]. cbn [mbind result_bind] in H. by eapply write_continue_settled. }
  destruct (write_handleError c) as [b c1] eqn:E. apply write_handleError_said in E as Hsd.
  set (c2 := on_write (W.set_sending false) c1) in H.
  assert (Hr2 : registered c2) by by apply (registered_same c).
  assert (Hs2 : settled c2) by (injection Hsd as ? ? ? ? _ _ _; by apply (settled_same c)).
  destruct b; [|by apply (write_continue_settled c2)].
  destruct (if W.write_handle_ _ then _ else _) as [c3|] eqn:E3; [|done]. cbn [mbind result_bind] in H.
  destruct (W.holder_ _); [|done]. destruct (handleClose c3) as [c4|] eqn:E4; [|done]. cbn [mbind result_bind] in H.
  destruct (alive _); [|done]. apply Ok_inj in H. subst c'. apply (settled_same c4); [done..|].
  eapply close_settled; [exact E3 | exact E4 | apply Hr2 | apply Hs2 | intros _; exact Hs2].
Qed.

(** The data of a completion is in the buffer: the coroutine is woken. *)
Lemma read_wake_settled c c' : read_wake c = Ok c' -> registered c -> talk c -> settled c'.
Proof.
  unfold read_wake. intros H (Hr & _ & Hk) Ht. destruct (R.read_handle_ _).
  - destruct (assert_ _); [|done]. eapply resume_settled; [exact H | by apply Hr | by apply (talk_same c)].
  - apply Ok_inj in H. subst. split; [done|]. intros k Hf. by specialize (Hk k Hf).
Qed.

Lemma read_finish_settled b c c' : read_finish b c = Ok c' -> registered c -> talk c -> settled c'.
Proof.
  unfold read_finish. intros H Hr Ht. destruct (negb _); [|by eapply read_wake_settled].
  destruct (_ && _); [|destruct (_ && _)].
  - destruct (alive _); [|done]. eapply read_wake_settled; [exact H | by apply (registered_same c) | by apply (talk_same c)].
  - eapply read_wake_settled; [exact H | by apply (registered_same c) | by apply (talk_same c)].
  - destruct (if R.read_handle_ _ then _ else _) as [c3|] eqn:E3; [|done]. cbn [mbind result_bind] in H.
    destruct (R.holder_ _); [|done]. destruct (handleClose c3) as [c4|] eqn:E4; [|done]. cbn [mbind result_bind] in H.
    destruct (alive _); [|done]. apply Ok_inj in H. subst c'. apply (settled_same c4); [done..|].
    destruct Hr as (Hr & _ & Hk). eapply close_settled; [exact E3 | exact E4 | exact Hr | done |].
    intros Hn. split; [done|]. intros k Hf. specialize (Hk k Hf). congruence.
Qed.

Lemma read_on_completion_settled c c' : read_on_completion c = Ok c' -> registered c -> talk c -> settled c'.
Proof.
  unfold read_on_completion. intros H Hr Ht. do 2 (ok_step; [|done]; cbn [mbind result_bind] in H). clear E E0.
  destruct (_ <=? 0); cbn [mbind result_bind] in H.
  - destruct (read_handleError c) as [b c1] eqn:E. apply read_handleError_said in E.
    eapply read_finish_settled; [exact H | by apply (registered_same c) |].
    injection E as ? ? ? _ _ _ _. by apply (talk_same c).
  - destruct (read_data c) as [c1|] eqn:E; [|done]. cbn [mbind result_bind] in H.
    assert (Hsd : consumed c1 = consumed c /\ appended c1 = appended c /\ frame_ c1 = frame_ c /\ closing_ c1 = closing_ c /\
      R.read_handle_ (read_context_ c1) = R.read_handle_ (read_context_ c) /\
      W.write_handle_ (write_context_ c1) = W.write_handle_ (write_context_ c)).
    { unfold read_data in E. ok_inv. by case_match. }
    destruct Hsd as (Hc & Ha & Hf & Hcl & Hrh & Hwh).
    eapply read_finish_settled; [exact H | | by apply (talk_same c)].
    unfold registered. by rewrite Hf, Hcl, Hrh, Hwh.
Qed.

Lemma step_settled D o e c c' : inv D o c -> step e c = Ok c' -> settled c -> settled c'.
Proof.
  intros Hi H Hs. pose proof (inv_registered _ _ _ Hi) as Hr.
  destruct e as [res|res flags data| | |]; simpl in H.
  - destruct (SendQueue.iovs_bytes _ _); [|done]. cbn [mbind result_bind] in H.
    eapply write_on_completion_settled; [exact H | by apply (registered_same c) | by apply (settled_same c)].
  - eapply read_on_completion_settled; [exact H | |].
    + apply (registered_same c); [|done]. by destruct (0 <? res), (IORING_CQE_F_MORE flags).
    + apply (talk_same c); [by destruct (0 <? res), (IORING_CQE_F_MORE flags)..|apply Hs].
  - destruct Hi as (_ & _ & (_ & _ & Hf & _)). rewrite Hf in H. apply Ok_inj in H. by subst.
  - destruct Hi as (_ & _ & (_ & _ & _ & Hc)).
    assert (Hne : forall p, frame_ c <> Elsewhere p).
    { intros p Hf. rewrite Hf in Hc. destruct (closing_ c); [by destruct Hc as (_ & _ & [[? _]|[? _]]) | by destruct Hc]. }
    destruct (frame_ c) as [| | | |p| |] eqn:Ef; try (apply Ok_inj in H; by subst). by destruct (Hne p).
  - apply Ok_inj in H. subst. by apply (settled_same c).
Qed.

Lemma open_settled fd m ihw ihc ohw cb p c :
  open_connection fd m ihw ihc ohw cb false p = Ok c -> client_ok p [] [] -> settled c.
Proof.
  unfold open_connection, new_TcpConnection, W.new_WriteContext. intros H Hp. destruct (fd =? 0); [done|].
  cbn [mbind result_bind] in H. unfold Established, resume in H. simpl in H. by eapply run_settled in H.
Qed.

Context (D : Z) (D_nonneg : 0 <= D).

Lemma steps_settled o es : forall c c',
  inv D o c -> valid_run c es -> Forall smooth es -> steps es c = Ok c' -> settled c -> settled c'.
Proof.
  induction es as [|e es IH]; intros c c' Hi Hv Hsm H Hs; [apply Ok_inj in H; by subst|].
  destruct Hv as [Hv Hvs]. apply Forall_cons in Hsm as [Hsm Hsms].
  destruct (step_ok D D_nonneg o e c Hi Hv Hsm) as (c1 & Hc1 & Hi1). simpl in H. rewrite Hc1 in H.
  apply (IH c1); [done | by apply Hvs | done | done | by apply (step_settled D o e c)].
Qed.

(** What has arrived is what was consumed followed by what is in the input buffer,
    which is empty when the coroutine waits for data; what was given to [send] is
    what is on the wire followed by what is queued. *)
Lemma client_streams o fd m av ihw ihc ohw cb p es c0 c :
  fd <> 0 -> pool_ok m av [] o -> 0 <= ohw -> ohw + D < SIZE_MAX -> polite D p -> client_ok p [] [] ->
  open_connection fd m ihw ihc ohw cb false p = Ok c0 ->
  valid_run c0 es -> Forall smooth es -> steps es c0 = Ok c ->
  exists unread queued, I (consumed c) (appended c) /\
    concat (map delivered es) = consumed c ++ unread /\ appended c = wire c ++ queued /\
    zlen unread = InputChainBuffer.getTotalLen (R.input_buffer_ (read_context_ c)) /\ zlen queued = buffered c /\
    (forall k, frame_ c = AtRecv k -> unread = []) /\
    (closing_ c = false -> writes_in_flight c = 0%nat -> queued = []).
Proof.
  intros Hfd Hm H0 H1 Hp Hcl Hc0 Hv Hsm Hs.
  destruct (run_inv D D_nonneg _ _ _ _ _ _ _ _ _ _ _ _ Hfd Hm H0 H1 Hp Hc0 Hv Hsm Hs) as [Hi Hi'].
  destruct (steps_settled _ _ _ _ Hi Hv Hsm Hs (open_settled _ _ _ _ _ _ _ _ Hc0 Hcl)) as [[HI _] He].
  destruct (inv_stream D _ c Hi') as (q & Hq & Hz & Hqe).
  destruct Hi' as (_ & (l & av' & [[_ Hr _ Hst] _]) & _). apply steps_received in Hs.
  pose proof (open_kept _ _ _ _ _ _ _ _ _ Hc0) as Ho. assert (received c0 = []) as Hr0 by congruence.
  rewrite Hr0 in Hs. simpl in Hs. pose proof (InputChainBuffer.rep_total _ _ _ Hr) as Ht.
  exists (InputChainBuffer.bytes (pool c) l), q. split_and!; try done; [congruence|].
  intros k Hk. specialize (He k Hk). apply Z.eqb_eq in He. apply length_zero_iff_nil.
  unfold InputChainBuffer.getTotalLen in He. unfold zlen in Ht. lia.
Qed.

(** C20. Whatever relation between its input and its output the code of a polite
    coroutine keeps at its suspension points holds of the connection at any point
    of a smooth run (no write fails with [EAGAIN], [ENOBUFS] or [EINTR], after which
    the code skips the batch; the table keeps the connection): of a first part of what
    the kernel delivered and of what it took, followed by what is still queued. *)
Theorem client_keeps_protocol o fd m av ihw ihc ohw cb p es c0 c :
  fd <> 0 -> pool_ok m av [] o -> 0 <= ohw -> ohw + D < SIZE_MAX -> polite D p -> client_ok p [] [] ->
  open_connection fd m ihw ihc ohw cb false p = Ok c0 ->
  valid_run c0 es -> Forall smooth es -> steps es c0 = Ok c ->
  exists input unread queued, concat (map delivered es) = input ++ unread /\ I input (wire c ++ queued) /\
    zlen queued = buffered c /\ (forall k, frame_ c = AtRecv k -> unread = []) /\
    (closing_ c = false -> writes_in_flight c = 0%nat -> queued = []).
Proof.
  intros Hfd Hm H0 H1 Hp Hcl Hc0 Hv Hsm Hs.
  destruct (client_streams _ _ _ _ _ _ _ _ _ _ _ _ Hfd Hm H0 H1 Hp Hcl Hc0 Hv Hsm Hs)
    as (u & q & HI & Hu & Hq & _ & Hz & Hr & Hqe).
  exists (consumed c), u, q. rewrite <- Hq. done.
Qed.

End protocol.

(** ** The echo server *)

(** The coroutine [echo_server] of the README and of the integration test, for [n]
    rounds of its loop.  [checked]: it looks at the result of [send], as the
    library asks for; the coroutine of the README does not. *)
Fixpoint echo_server (checked : bool) (n : nat) : prog :=
  match n with
  | O => Return
  | S n =>
      PrepareToRead (fun size =>
        if size <? 0 then Return
        else Read size (fun data =>
          if bool_decide (data = []) then echo_server checked n
          else Send data (fun ok => if checked && negb ok then Return else echo_server checked n)))
  end.

(** It is polite if it looks at the result of [send] where writes may fail. *)
Lemma echo_server_polite {F : WriteErrors} checked n :
  (write_errors = true -> checked = true) -> polite (2 ^ 31) (echo_server checked n).
Proof.
  intros Hch. induction n as [|n IH]; simpl; [done|]. split; [done|]. intros r _ Hr. destruct (Z.ltb_spec r 0); [done|].
  split; [lia|]. intros d Hd. case_bool_decide; [done|]. cbn [polite]. split; [lia|].
  rewrite andb_false_r. split; [|done]. intros Hw. by rewrite (Hch Hw).
Qed.

(** Every byte it reads it sends, before it waits again. *)
Lemma echo_server_ok checked n : forall i, client_ok eq (echo_server checked n) i i.
Proof.
  induction n as [|n IH]; intros i; simpl; [done|]. split; [done|]. intros r. destruct (r <? 0); [done|]. simpl.
  intros d. case_bool_decide as Hd; [subst; rewrite app_nil_r; apply IH|]. simpl. split; [done|].
  intros b. destruct (checked && negb b); [done | apply IH].
Qed.

Section echo.
Context {A : Allocator} {B : BufRing} {F : WriteErrors}.

(** The echo server sends back exactly what it receives: at any point of a smooth
    run and for any number of rounds, what the kernel delivered is what
    is on the wire, what is queued and what is still to be read, in this order;
    and when the coroutine waits for data on an open connection with no write in
    flight, everything that arrived has gone back.  For the coroutine as the README has
    it, which ignores the result of [send], no write may fail. *)
Theorem echo_server_correct checked n o fd m av ihw ihc ohw cb es c0 c :
  (write_errors = true -> checked = true) ->
  fd <> 0 -> pool_ok m av [] o -> 0 <= ohw -> ohw + 2 ^ 31 < SIZE_MAX ->
  open_connection fd m ihw ihc ohw cb false (echo_server checked n) = Ok c0 ->
  valid_run c0 es -> Forall smooth es -> steps es c0 = Ok c ->
  exists queued unread, concat (map delivered es) = wire c ++ queued ++ unread /\ zlen queued = buffered c /\
    zlen unread = InputChainBuffer.getTotalLen (R.input_buffer_ (read_context_ c)) /\
    (forall k, closing_ c = false -> frame_ c = AtRecv k -> writes_in_flight c = 0%nat ->
       wire c = concat (map delivered es)).
Proof.
  intros Hch Hfd Hm H0 H1 Hc0 Hv Hsm Hs.
  destruct (client_streams eq (2 ^ 31) ltac:(lia) _ _ _ _ _ _ _ _ _ _ _ _ Hfd Hm H0 H1 (echo_server_polite checked n Hch)
    (echo_server_ok checked n []) Hc0 Hv Hsm Hs) as (u & q & HI & Hu & Hq & Hzu & Hzq & Hr & Hqe).
  exists q, u. split; [by rewrite app_assoc, <- Hq, Hu, HI|]. split; [done|]. split; [done|].
  intros k Hc Hf Hn. by rewrite Hu, (Hr k Hf), app_nil_r, HI, Hq, (Hqe Hc Hn), app_nil_r.
Qed.

End echo.

(** ** Witnesses

    The coroutine of the README, in a run in which no write fails. *)

#[local] Instance no_errors : WriteErrors := false.

(** Three bytes arrive, the kernel takes the echo in two parts. *)
Definition echo_c0 : @TcpConnection list_ring := from_ok demo_c0 (demo_open false (echo_server false 3)).
Definition echo_events : list event := [ReadDone 3 (flags_of 0 true) [x61; x62; x63]; WriteDone 2; WriteDone 1].
Definition echo_c : @TcpConnection list_ring := from_ok demo_c0 (steps (A := first_fit) echo_events echo_c0).

Lemma echo_established : demo_open false (echo_server false 3) = Ok echo_c0.
Proof. vm_compute. reflexivity. Qed.
Lemma echo_steps : steps (A := first_fit) echo_events echo_c0 = Ok echo_c.
Proof. vm_compute. reflexivity. Qed.
Lemma echo_valid : valid_run (A := first_fit) echo_c0 echo_events.
Proof.
  split.
  { split; [vm_compute; discriminate|]. change (0 <? 3) with true.
    split; [reflexivity|]. split; [vm_compute; discriminate|]. split; [reflexivity|].
    exists 0, [1]. split; reflexivity. }
  intros c1 H1. vm_compute in H1. injection H1 as <-. split.
  { split; [vm_compute; discriminate|]. right. split; [lia|]. intros bs Hbs. vm_compute in Hbs.
    injection Hbs as <-. vm_compute. discriminate. }
  intros c2 H2. vm_compute in H2. injection H2 as <-. split; [|by intros].
  split; [vm_compute; discriminate|]. right. split; [lia|]. intros bs Hbs. vm_compute in Hbs.
  injection Hbs as <-. vm_compute. discriminate.
Qed.

Lemma echo_smooth : Forall smooth echo_events.
Proof. repeat constructor; lia. Qed.

Lemma echo_server_correct_witness : wire echo_c = [x61; x62; x63].
Proof.
  destruct (echo_server_correct (A := first_fit) false 3 [] 5 demo_m [0; 1]%nat 64 16 64 true echo_events echo_c0 echo_c)
    as (q & u & _ & _ & _ & Hall).
  - done.
  - lia.
  - exact demo_m_ok.
  - lia.
  - lia.
  - exact echo_established.
  - exact echo_valid.
  - exact echo_smooth.
  - exact echo_steps.
  - eapply Hall; vm_compute; reflexivity.
Defined.

Lemma client_keeps_protocol_witness :
  exists input unread queued, [x61; x62; x63] = input ++ unread /\ input = wire echo_c ++ queued.
Proof.
  destruct (client_keeps_protocol (A := first_fit) eq (2 ^ 31) ltac:(lia) [] 5 demo_m [0; 1]%nat 64 16 64 true (echo_server false 3)
              echo_events echo_c0 echo_c) as (i & u & q & Hd & HI & _).
  - lia.
  - exact demo_m_ok.
  - lia.
  - lia.
  - exact (echo_server_polite false 3 (fun H => H)).
  - exact (echo_server_ok false 3 []).
  - exact echo_established.
  - exact echo_valid.
  - exact echo_smooth.
  - exact echo_steps.
  - exists i, u, q. split; [exact Hd | exact HI].
Defined.

End ClientProtocol.
