(* ===== verification/LoopConnections.v ===== *)
(** * The connections of a loop

    Several connections live on one [IoUringLoop] and share its buffer pool
    ([getInputPool]).  The loop handles one completion at a time; the pool is
    handed to the connection the completion belongs to and taken back after it.
    The theorems carry the safety of one connection over to any number of them, under
    its conditions (polite coroutines, smooth completions, [lcalm]) and when a
    connection is dropped with nothing in flight: whatever the interleaving, no
    connection disturbs another, and the chunks of the pool come back when the
    connections are gone. *)

From S2P Require Import Prelude SendQueue ChunkPool InputChainBuffer InputBuffers TcpConnection ConnectionSafety ConnectionProgress.
Import ChunkPoolManagerInput TcpConnection ConnectionSafety.

Module LoopConnections.

Section loop.
Context {A : Allocator} {B : BufRing} {F : WriteErrors}.

(** [shared] is the pool of the loop; the [pool] of a connection in [conns] is the
    pool as of its last step and is replaced before the next one. *)
Record loop_state := mkLoop {
  shared : Manager;
  conns : gmap nat TcpConnection
}.

Inductive loop_event :=
  | Establish (i : nat) (fd ihw ihc ohw : Z) (p : prog)  (** the closure of [newConnection] runs *)
  | On (i : nat) (e : event)                             (** something happens to connection [i] *)
  | Drop (i : nat).                                      (** the server's table lets go of it *)

(** The last reference to a connection that goes away runs its destructor. *)
Definition drop_connection (c : TcpConnection) : result (option TcpConnection * Manager) :=
  let c := set_map false (close_calls c) c in
  match refs c with
  | O => c ← destruct_TcpConnection c; Ok (None, pool c)
  | S _ => Ok (Some c, pool c)
  end.

Definition lstep (e : loop_event) (L : loop_state) : result loop_state :=
  match e with
  | Establish i fd ihw ihc ohw p =>
      c ← open_connection fd (shared L) ihw ihc ohw true false p;
      Ok (mkLoop (pool c) (<[i := c]> (conns L)))
  | On i e =>
      match conns L !! i with
      | Some c => c ← step e (set_pool (shared L) c); Ok (mkLoop (pool c) (<[i := c]> (conns L)))
      | None => Fault Dangling
      end
  | Drop i =>
      match conns L !! i with
      | Some c =>
          '(r, m) ← drop_connection (set_pool (shared L) c);
          Ok (mkLoop m (match r with Some c => <[i := c]> (conns L) | None => delete i (conns L) end))
      | None => Fault Dangling
      end
  end.

Fixpoint lsteps (es : list loop_event) (L : loop_state) : result loop_state :=
  match es with
  | [] => Ok L
  | e :: es => L ← lstep e L; lsteps es L
  end.

Context (D : Z) (D_nonneg : 0 <= D).

(** What can happen: a new connection has a coroutine that keeps to the rules,
    completions are those the kernel can report, and the table lets go of a
    connection that is in it, after it closed. *)
Definition lvalid (L : loop_state) (e : loop_event) : Prop :=
  match e with
  | Establish i fd ihw ihc ohw p =>
      conns L !! i = None /\ fd <> 0 /\ 0 <= ohw /\ ohw + D < SIZE_MAX /\ polite D p
  | On i e => exists c, conns L !! i = Some c /\ valid (set_pool (shared L) c) e
  | Drop i => exists c, conns L !! i = Some c /\ closing_ c = true /\ in_map c = true
  end.
Definition lvalid_run : loop_state -> list loop_event -> Prop := throughout lstep lvalid.

(** What the theorems assume and the code does not ensure: no transient write errors,
    and a connection is dropped when none of its operations is in flight. *)
Definition lcalm (L : loop_state) (e : loop_event) : Prop :=
  match e with
  | Establish _ _ _ _ _ _ => True
  | On i e => smooth e
  | Drop i => forall c, conns L !! i = Some c -> reads_in_flight c = 0%nat /\ writes_in_flight c = 0%nat
  end.
Definition lcalm_run : loop_state -> list loop_event -> Prop := throughout lstep lcalm.

(** ** The invariant *)

(** A connection the table let go of, whose finished coroutine keeps it alive. *)
Record retired (c : TcpConnection) : Prop := {
  rt_map : in_map c = false;
  rt_frame : frame_ c = Finished;
  rt_functors : functors c = [];
  rt_reads : reads_in_flight c = 0%nat;
  rt_writes : writes_in_flight c = 0%nat
}.

Definition receiving (c : TcpConnection) : Prop :=
  match R.status_ (read_context_ c) with
  | STOPED => R.holder_ (read_context_ c) = false /\ reads_in_flight c = 0%nat
  | _ => R.holder_ (read_context_ c) = true /\ reads_in_flight c = 1%nat
  end.

(** A connection on a loop with pool [m]; [l] are its chunks. *)
Record on_loop (m : Manager) (c : TcpConnection) (l : list (nat * Chunk.Chunk)) : Prop := {
  ol_write : exists s p, write_inv D c s p;
  ol_rep : InputChainBuffer.rep m (R.input_buffer_ (read_context_ c)) l;
  ol_stream : received c = consumed c ++ InputChainBuffer.bytes m l;
  ol_live : (receiving c /\ coroutine_ok D true true c) \/ retired c
}.

(** [ls] are the chunks of every connection, [av] those in the ring. *)
Record loop_inv (n : nat) (L : loop_state) (ls : gmap nat (list (nat * Chunk.Chunk))) (av : list nat) : Prop := {
  li_pool : pool_ok (shared L) av [] (InputBuffers.held ls);
  li_chunks : length (chunks_data_ (shared L)) = n;
  li_dom i : ls !! i = None <-> conns L !! i = None;
  li_conn i c l : conns L !! i = Some c -> ls !! i = Some l -> on_loop (shared L) c l
}.

Definition linv (n : nat) (L : loop_state) : Prop := exists ls av, loop_inv n L ls av.

(** *** One connection and the others *)

(** What connection [i] sees of the loop. *)
Definition rest (ls : gmap nat (list (nat * Chunk.Chunk))) (L : loop_state) (i : nat) : others :=
  mkOthers (InputBuffers.held (delete i ls)) (shared L).

Lemma inv_on_loop o c : inv D o c -> exists l av, input_inv o c l av /\ on_loop (pool c) c l.
Proof. intros (Hw & (l & av & [[Hp Hr Hk Hs] Hst]) & Hco). exists l, av. split; [done|]. split; try done. by left. Qed.

Lemma on_loop_pool m c m' l : on_loop m c l -> on_loop m (set_pool m' c) l.
Proof.
  intros [(s & p & Hw) Hr Hs Hl]. split; try done; [exists s, p; by eapply write_inv_mono|].
  destruct Hl as [?|[? ? ? ? ?]]; [by left | by right].
Qed.

(** A connection whose chunks nobody touched. *)
Lemma on_loop_keeps o m c l :
  keeps o m -> l.*1 ⊆ theirs o -> on_loop (before o) c l -> on_loop m c l.
Proof.
  intros Hk Hl [Hw Hr Hs Hv]. destruct (keeps_data _ _ Hk _ _ Hl Hr) as [Hr' Hb]. split; try done. by rewrite Hb.
Qed.

Lemma lookup_chunks n L ls av i c :
  loop_inv n L ls av -> conns L !! i = Some c ->
  exists l, ls !! i = Some l /\ on_loop (shared L) c l /\ pool_ok (shared L) av [] (l.*1 ++ InputBuffers.held (delete i ls)).
Proof.
  intros [Hp _ Hd Hc] Hi. destruct (ls !! i) as [l|] eqn:El; [|apply Hd in El; congruence].
  exists l. split; [done|]. split; [by apply (Hc i)|]. eapply pool_held_perm, Hp. by apply InputBuffers.held_delete.
Qed.

(** Connection [i] takes a step that leaves the others' data in place. *)
Lemma loop_update n L ls av i c m' l' av' :
  loop_inv n L ls av -> keeps (rest ls L i) m' -> pool_ok m' av' [] (l'.*1 ++ InputBuffers.held (delete i ls)) ->
  on_loop m' c l' -> loop_inv n (mkLoop m' (<[i := c]> (conns L))) (<[i := l']> ls) av'.
Proof.
  intros [Hp Hn Hd Hc] Hk Hp' Hon. split; simpl.
  - eapply pool_held_perm, Hp'. by rewrite InputBuffers.held_insert.
  - rewrite <- Hn. apply (keeps_chunks _ _ Hk).
  - intros j. destruct (decide (i = j)) as [<-|Hne]; [by rewrite !lookup_insert_eq|]. by rewrite !lookup_insert_ne.
  - intros j cj lj. destruct (decide (i = j)) as [<-|Hne].
    { rewrite !lookup_insert_eq. by intros [= <-] [= <-]. }
    rewrite !lookup_insert_ne by done. intros Hj Hl. apply (on_loop_keeps _ _ _ _ Hk); [|by apply (Hc j)].
    intros x Hx. apply (InputBuffers.elem_of_held _ j lj); [by rewrite lookup_delete_ne | done].
Qed.

(** Connection [i] is gone, and its chunks are in the ring. *)
Lemma loop_delete n L ls av i m' av' :
  loop_inv n L ls av -> keeps (rest ls L i) m' -> pool_ok m' av' [] (InputBuffers.held (delete i ls)) ->
  loop_inv n (mkLoop m' (delete i (conns L))) (delete i ls) av'.
Proof.
  intros [Hp Hn Hd Hc] Hk Hp'. split; simpl; try done.
  - rewrite <- Hn. apply (keeps_chunks _ _ Hk).
  - intros j. destruct (decide (i = j)) as [<-|Hne]; [by rewrite !lookup_delete_eq|]. by rewrite !lookup_delete_ne.
  - intros j cj lj. destruct (decide (i = j)) as [<-|Hne]; [by rewrite lookup_delete_eq|].
    rewrite !lookup_delete_ne by done. intros Hj Hl. apply (on_loop_keeps _ _ _ _ Hk); [|by apply (Hc j)].
    intros x Hx. apply (InputBuffers.elem_of_held _ j lj); [by rewrite lookup_delete_ne | done].
Qed.

(** The connection as it is when the pool is handed to it. *)
Lemma on_loop_inv ls L av i c l :
  on_loop (shared L) c l -> receiving c -> coroutine_ok D true true c ->
  pool_ok (shared L) av [] (l.*1 ++ InputBuffers.held (delete i ls)) -> inv D (rest ls L i) (set_pool (shared L) c).
Proof.
  intros Hon Hr Hco Hp. destruct (on_loop_pool _ _ (shared L) _ Hon) as [Hw Hre Hst _]. split; [done|]. split; [|done].
  exists l, av. split; [by split | done].
Qed.

(** ** The steps *)

Lemma establish_ok n L i fd ihw ihc ohw p :
  linv n L -> lvalid L (Establish i fd ihw ihc ohw p) ->
  exists L', lstep (Establish i fd ihw ihc ohw p) L = Ok L' /\ linv n L'.
Proof.
  intros (ls & av & Hinv) (Hi & Hfd & H0 & H1 & Hp).
  assert (Hli : ls !! i = None) by by apply (li_dom _ _ _ _ Hinv).
  assert (Hpo : pool_ok (shared L) av [] (InputBuffers.held (delete i ls)))
    by (rewrite delete_id by done; apply (li_pool _ _ _ _ Hinv)).
  destruct (established_ok D D_nonneg _ fd (shared L) av ihw ihc ohw true p Hfd Hpo H0 H1 Hp) as (c & Hc & Hci).
  destruct (inv_on_loop _ _ Hci) as (l & av' & [Hp' _ Hk _] & Hon).
  simpl. rewrite Hc. simpl. eexists. split; [done|]. exists (<[i := l]> ls), av'. by apply (loop_update _ _ _ av).
Qed.

(** A connection handles an event in its invariant, unless it is one that the table
    let go of, to which nothing happens any more. *)
Lemma on_step n L ls av i c e :
  loop_inv n L ls av -> conns L !! i = Some c -> valid (set_pool (shared L) c) e -> smooth e ->
  exists c', step e (set_pool (shared L) c) = Ok c' /\
    ((inv D (rest ls L i) (set_pool (shared L) c) /\ inv D (rest ls L i) c') \/
     (retired c /\ c' = set_pool (shared L) c)).
Proof.
  intros Hinv Hi Hv Hsm. destruct (lookup_chunks _ _ _ _ _ _ Hinv Hi) as (l & Hl & Hon & Hp).
  destruct (ol_live _ _ _ Hon) as [[Hr Hco]|Hrt].
  - pose proof (on_loop_inv ls L av i c l Hon Hr Hco Hp) as Hci.
    destruct (step_ok D D_nonneg _ e _ Hci Hv Hsm) as (c' & Hc' & Hci'). exists c'. split; [done|]. by left.
  - exists (set_pool (shared L) c). split; [|by right].
    destruct Hrt as [_ Hf Hfu Hre Hwr]. destruct e as [res|res flags data| | |]; simpl in *.
    + by destruct Hv as [? _].
    + by destruct Hv as [? _].
    + by rewrite Hfu.
    + by rewrite Hf.
    + done.
Qed.

Lemma on_ok n L i e :
  linv n L -> lvalid L (On i e) -> lcalm L (On i e) -> exists L', lstep (On i e) L = Ok L' /\ linv n L'.
Proof.
  intros (ls & av & Hinv) (c & Hi & Hv) Hsm. destruct (on_step n L ls av i c e Hinv Hi Hv Hsm) as (c' & Hc' & Hcase).
  simpl. rewrite Hi, Hc'. simpl. eexists. split; [done|]. destruct Hcase as [[_ Hci']|[Hrt ->]].
  - destruct (inv_on_loop _ _ Hci') as (l' & av' & [Hp' _ Hk _] & Hon2).
    exists (<[i := l']> ls), av'. by apply (loop_update _ _ _ av).
  - destruct (lookup_chunks _ _ _ _ _ _ Hinv Hi) as (l & Hl & Hon & Hp).
    exists (<[i := l]> ls), av. apply (loop_update _ _ _ av); try done. by apply on_loop_pool.
Qed.

(** The destructor gives the chunks back and leaves those of the others alone. *)
Lemma destruct_ok c s p l av t :
  write_inv D c s p -> InputChainBuffer.rep (pool c) (R.input_buffer_ (read_context_ c)) l ->
  pool_ok (pool c) av [] (l.*1 ++ t) -> task_handle_ c = false ->
  exists c', destruct_TcpConnection c = Ok c' /\ pool_ok (pool c') (av ++ l.*1) [] t /\
    keeps (mkOthers t (pool c)) (pool c').
Proof.
  intros Hw Hr Hp Ht. unfold destruct_TcpConnection.
  destruct (SendQueue.destroy_correct _ _ _ (wi_rep _ _ _ _ Hw)) as (q & -> & _). simpl.
  destruct (InputChainBuffer.destroy_ok _ _ _ _ _ _ Hp Hr) as (b & m & -> & _ & Hp' & Hz & Ho). simpl.
  unfold destroy_task. simpl. rewrite Ht. eexists. split; [done|]. split; [done|]. split; try done. simpl.
  rewrite (pool_length _ _ _ _ Hp), (pool_length _ _ _ _ Hp'), !length_app. simpl. lia.
Qed.

(** A closed connection without operations in flight: the contexts have released it. *)
Lemma closed_released m c l :
  on_loop m c l -> closing_ c = true -> in_map c = true -> reads_in_flight c = 0%nat -> writes_in_flight c = 0%nat ->
  W.holder_ (write_context_ c) = false /\ R.holder_ (read_context_ c) = false /\ functors c = [] /\
  base_here c = false /\
  ((frame_ c = FrameDestroyed /\ task_handle_ c = false) \/ (frame_ c = Finished /\ task_handle_ c = true)).
Proof.
  intros [(s & p & Hw) _ _ Hl] Hcl Hmap Hre Hwr. destruct Hl as [[Hr Hco]|Hrt]; [|rewrite (rt_map _ Hrt) in Hmap; done].
  destruct Hco as (_ & Hba & Hfu & Hc). rewrite Hcl in Hc. destruct Hc as (_ & _ & Hfr). split_and!; try done.
  - pose proof (wi_sending _ _ _ _ Hw) as Hs. destruct (W.is_sending_ _); destruct Hs as (? & ? & _); congruence.
  - unfold receiving in Hr. destruct (R.status_ _); destruct Hr; congruence.
Qed.

(** Its frame is destroyed: dropping it runs the destructor. *)
Lemma drop_destroyed n L ls av i c l :
  loop_inv n L ls av -> conns L !! i = Some c -> on_loop (shared L) c l ->
  pool_ok (shared L) av [] (l.*1 ++ InputBuffers.held (delete i ls)) ->
  W.holder_ (write_context_ c) = false -> R.holder_ (read_context_ c) = false -> functors c = [] ->
  frame_ c = FrameDestroyed -> task_handle_ c = false ->
  exists c', lstep (Drop i) L = Ok (mkLoop (pool c') (delete i (conns L))) /\
    pool_ok (pool c') (av ++ l.*1) [] (InputBuffers.held (delete i ls)) /\ keeps (rest ls L i) (pool c').
Proof.
  intros Hinv Hi Hon Hp Hwh Hrh Hfu Hfr Ht. simpl. rewrite Hi. unfold drop_connection.
  destruct (ol_write _ _ _ (on_loop_pool _ _ (shared L) _ Hon)) as (s & p & Hw).
  set (c0 := set_map _ _ _).
  assert (refs c0 = 0%nat) as -> by (unfold c0, refs; simpl; by rewrite Hwh, Hrh, Hfr, Hfu).
  destruct (destruct_ok c0 s p l av (InputBuffers.held (delete i ls))) as (c' & Hd & Hp' & Hk); try done;
    [by eapply write_inv_mono | apply Hon |].
  rewrite Hd. by exists c'.
Qed.

Lemma drop_ok n L i : linv n L -> lvalid L (Drop i) -> lcalm L (Drop i) -> exists L', lstep (Drop i) L = Ok L' /\ linv n L'.
Proof.
  intros (ls & av & Hinv) (c & Hi & Hcl & Hmap) Hcalm. destruct (Hcalm c Hi) as [Hre Hwr].
  destruct (lookup_chunks _ _ _ _ _ _ Hinv Hi) as (l & Hl & Hon & Hp).
  destruct (closed_released _ _ _ Hon Hcl Hmap Hre Hwr) as (Hwh & Hrh & Hfu & _ & [[Hfr Ht]|[Hfr Ht]]).
  - destruct (drop_destroyed n L ls av i c l Hinv Hi Hon Hp Hwh Hrh Hfu Hfr Ht) as (c' & Hd & Hp' & Hk).
    eexists. split; [exact Hd|]. exists (delete i ls), (av ++ l.*1). by apply (loop_delete _ _ _ av).
  - simpl. rewrite Hi. unfold drop_connection. set (c0 := set_map _ _ _).
    assert (Hrf : refs c0 = 1%nat) by (unfold c0, refs; simpl; by rewrite Hwh, Hrh, Hfr, Hfu).
    rewrite Hrf. simpl. eexists. split; [done|].
    exists (<[i := l]> ls), av. apply (loop_update _ _ _ av); try done.
    destruct (on_loop_pool _ _ (shared L) _ Hon) as [(s & p & Hw) ? ? ?].
    split; simpl; try done; [exists s, p; by eapply write_inv_mono|]. by right.
Qed.

Lemma lstep_ok n L e : linv n L -> lvalid L e -> lcalm L e -> exists L', lstep e L = Ok L' /\ linv n L'.
Proof. destruct e; [by intros ? ? _; apply establish_ok | apply on_ok | apply drop_ok]. Qed.

Lemma lsteps_ok n es : forall L,
  linv n L -> lvalid_run L es -> lcalm_run L es -> exists L', lsteps es L = Ok L' /\ linv n L'.
Proof.
  induction es as [|e es IH]; intros L H Hv Hc; simpl; [by exists L|]. destruct Hv as [Hv Hvs], Hc as [Hc Hcs].
  destruct (lstep_ok n L e H Hv Hc) as (L1 & H1 & Hi1). rewrite H1. simpl. apply IH; [done | by apply Hvs | by apply Hcs].
Qed.

Lemma lsteps_snoc es e : forall L L1 L2, lsteps es L = Ok L1 -> lstep e L1 = Ok L2 -> lsteps (es ++ [e]) L = Ok L2.
Proof.
  induction es as [|x es IH]; intros L L1 L2 Hs He; simpl in *; [simplify_eq; by rewrite He|].
  destruct (lstep x L) as [L'|]; [|done]. by eapply IH.
Qed.
Lemma throughout_snoc P es e : forall L L1,
  throughout lstep P L es -> lsteps es L = Ok L1 -> P L1 e -> throughout lstep P L (es ++ [e]).
Proof.
  induction es as [|x es IH]; intros L L1 Hv Hs He; simpl in *; [simplify_eq; by split|].
  destruct Hv as [Hx Hv]. split; [done|]. intros L' HL'. rewrite HL' in Hs. simpl in Hs. by eapply IH; [apply Hv|..].
Qed.

Lemma fresh_ok m av : pool_ok m av [] [] -> linv (length (chunks_data_ m)) (mkLoop m ∅).
Proof. intros Hp. exists ∅, av. by split. Qed.

(** ** What a connection received *)

(** The bytes the kernel delivered to connection [i] since it was established. *)
Definition deliver_to (i : nat) (d : list byte) (e : loop_event) : list byte :=
  match e with
  | Establish j _ _ _ _ _ => if decide (i = j) then [] else d
  | On j e => if decide (i = j) then d ++ ConnectionProgress.delivered e else d
  | Drop _ => d
  end.
Definition delivered_to (i : nat) (es : list loop_event) : list byte := fold_left (deliver_to i) es [].

Lemma destruct_received c c' : destruct_TcpConnection c = Ok c' -> received c' = received c.
Proof.
  unfold destruct_TcpConnection, destroy_task. intros H. destruct (SendQueue.destroy _); [|done]. simpl in H.
  destruct (InputChainBuffer.destroy _ _) as [[b m]|]; [|done]. simpl in H.
  destruct (task_handle_ c); [|by simplify_eq]. by destruct (frame_ c); simplify_eq.
Qed.

Lemma lstep_received i e L L' d :
  lstep e L = Ok L' -> (forall c, conns L !! i = Some c -> received c = d) ->
  forall c, conns L' !! i = Some c -> received c = deliver_to i d e.
Proof.
  intros Hs Hd c. destruct e as [j fd ihw ihc ohw p|j e|j]; simpl in *.
  - destruct (open_connection _ _ _ _ _ _ _ _) as [cj|] eqn:Eo; [|done]. simpl in Hs. simplify_eq/=.
    apply ConnectionProgress.open_kept in Eo. case_decide as Hij.
    + subst j. rewrite lookup_insert_eq. intros [= <-]. congruence.
    + rewrite lookup_insert_ne by done. apply Hd.
  - destruct (conns L !! j) as [cj|] eqn:Ej; [|done].
    destruct (step e _) as [cj'|] eqn:Es; [|done]. simpl in Hs. simplify_eq/=.
    apply ConnectionProgress.step_io in Es as [_ Es]. simpl in Es. case_decide as Hij.
    + subst j. rewrite lookup_insert_eq. intros [= <-]. rewrite Es. f_equal. by apply Hd.
    + rewrite lookup_insert_ne by done. apply Hd.
  - destruct (conns L !! j) as [cj|] eqn:Ej; [|done]. unfold drop_connection in Hs.
    destruct (refs _); [destruct (destruct_TcpConnection _); [|done]|]; simpl in Hs; simplify_eq/=.
    + intros [_ Hc]%lookup_delete_Some. by apply Hd.
    + destruct (decide (i = j)) as [<-|Hij]; [|rewrite lookup_insert_ne by done; apply Hd].
      rewrite lookup_insert_eq. intros [= <-]. simpl. by apply Hd.
Qed.

Lemma lsteps_received i es : forall L L' d,
  lsteps es L = Ok L' -> (forall c, conns L !! i = Some c -> received c = d) ->
  forall c, conns L' !! i = Some c -> received c = fold_left (deliver_to i) es d.
Proof.
  induction es as [|e es IH]; intros L L' d Hs Hd; simpl in *; [by simplify_eq|].
  destruct (lstep e L) as [L1|] eqn:E; [|done]. simpl in Hs. eapply IH; [exact Hs|]. by eapply lstep_received.
Qed.

(** ** Chunks *)

(** The chunks in the input buffers of all connections. *)
Definition chunks_of (c : TcpConnection) : Z := InputChainBuffer.getTotalChunk (R.input_buffer_ (read_context_ c)).
Definition chunks_held (L : loop_state) : Z := map_fold (fun _ c n => chunks_of c + n) 0 (conns L).

Lemma held_chunks (cs : gmap nat TcpConnection) : forall ls,
  (forall i, ls !! i = None <-> cs !! i = None) ->
  (forall i c l, cs !! i = Some c -> ls !! i = Some l -> chunks_of c = zlen l) ->
  map_fold (fun _ c n => chunks_of c + n) 0 cs = zlen (InputBuffers.held ls).
Proof.
  induction cs as [|i c cs Hi IH] using map_ind; intros ls Hd Hc.
  - assert (ls = ∅) as -> by (apply map_empty; intros i; by apply Hd). done.
  - destruct (ls !! i) as [l|] eqn:El; [|apply Hd in El; by rewrite lookup_insert_eq in El].
    rewrite map_fold_insert_L by (done || (intros; lia)). rewrite (IH (delete i ls)).
    + pose proof (Permutation_length (InputBuffers.held_delete _ _ _ El)) as Hp. rewrite length_app, length_fmap in Hp.
      rewrite (Hc i c l) by (done || apply lookup_insert_eq). unfold zlen in *. lia.
    + intros j. destruct (decide (i = j)) as [<-|Hne]; [by rewrite lookup_delete_eq|].
      rewrite lookup_delete_ne, Hd, lookup_insert_ne by done. done.
    + intros j cj lj Hj Hl. apply lookup_delete_Some in Hl as [Hne Hl]. apply (Hc j); [|done].
      by rewrite lookup_insert_ne.
Qed.

(** ** Properties *)




(** Dropping a closed connection with nothing in flight: the table's reference is the last one, so that the
    erasure itself, which the base loop executes, runs the destructor and puts the
    chunks of the input buffer back into the ring of the connection's own loop. *)
Theorem dropped_connection_returns_its_chunks n L i c :
  linv n L -> lvalid L (Drop i) -> lcalm L (Drop i) -> conns L !! i = Some c -> frame_ c = FrameDestroyed ->
  refs c = 1%nat /\ in_map c = true /\ base_here c = false /\
  exists L' l, lstep (Drop i) L = Ok L' /\ conns L' = delete i (conns L) /\ zlen l = chunks_of c /\
    available (input_buf_ring_ (shared L')) = available (input_buf_ring_ (shared L)) ++ l.
Proof.
  intros (ls & av & Hinv) (c' & Hi & Hcl & Hmap) Hcalm Hi' Hfr. assert (c' = c) as -> by congruence.
  destruct (Hcalm c Hi) as [Hre Hwr].
  destruct (lookup_chunks _ _ _ _ _ _ Hinv Hi) as (l & Hl & Hon & Hp).
  destruct (closed_released _ _ _ Hon Hcl Hmap Hre Hwr) as (Hwh & Hrh & Hfu & Hba & Ht).
  destruct Ht as [[_ Ht]|[? _]]; [|congruence].
  split; [unfold refs; by rewrite Hwh, Hrh, Hfr, Hfu, Hmap|]. split; [done|]. split; [done|].
  destruct (drop_destroyed n L ls av i c l Hinv Hi Hon Hp Hwh Hrh Hfu Hfr Ht) as (c1 & Hd & Hp' & Hk).
  exists (mkLoop (pool c1) (delete i (conns L))), (Z.of_nat <$> l.*1). split; [done|]. split; [done|]. simpl.
  rewrite (pool_avail _ _ _ _ Hp), (pool_avail _ _ _ _ Hp'), fmap_app. split; [|done].
  rewrite !zlen_fmap. symmetry. apply (InputChainBuffer.shape_chunks _ _ _ (InputChainBuffer.rep_shape _ _ _ (ol_rep _ _ _ Hon))).
Qed.

End loop.
(** ** A concrete run *)

#[local] Existing Instance demo_errors.

(** Two echo servers on a pool of two chunks: data arrives for both, the first peer
    closes, the server lets go of its connection, the second echo is sent. *)
Definition demo_run : list loop_event :=
  [Establish 1 5 64 16 64 (echo 3); Establish 2 6 64 16 64 (echo 3);
   On 1 (ReadDone 3 (flags_of 0 true) [x61; x62; x63]); On 2 (ReadDone 2 (flags_of 1 true) [x78; x79]);
   On 1 (WriteDone 3); On 1 (ReadDone 0 0 []); Drop 1; On 2 (WriteDone 2)].

Definition demo_L0 : @loop_state list_ring := mkLoop demo_m ∅.
Definition demo_L : @loop_state list_ring := from_ok demo_L0 (lsteps (A := first_fit) demo_run demo_L0).

Definition conn_at (i : nat) (L : @loop_state list_ring) : @TcpConnection list_ring := default demo_c0 (conns L !! i).
Lemma conn_at_eq i L : bool_decide (is_Some (conns L !! i)) = true -> conns L !! i = Some (conn_at i L).
Proof. intros H. apply bool_decide_eq_true in H as [c Hc]. unfold conn_at. by rewrite Hc. Qed.

(** Side conditions of a concrete event. *)
Ltac step_data b bs :=
  eexists; split; [apply conn_at_eq; vm_compute; reflexivity|]; split; [vm_compute; discriminate|]; split; [reflexivity|];
  split; [vm_compute; discriminate|]; split; [reflexivity|]; exists b, bs; split; vm_compute; reflexivity.
Ltac step_end :=
  eexists; split; [apply conn_at_eq; vm_compute; reflexivity|]; split; [vm_compute; discriminate | reflexivity].
Ltac step_sent :=
  let bs := fresh "bs" in let H := fresh "H" in
  eexists; split; [apply conn_at_eq; vm_compute; reflexivity|]; split; [vm_compute; discriminate|]; right; split; [lia|];
  intros bs H; vm_compute in H; injection H as <-; vm_compute; discriminate.

Lemma demo_run_valid : lvalid_run (A := first_fit) 4 demo_L0 demo_run.
Proof.
  do 2 (apply throughout_cons; [split_and!; try done; apply (echo_polite 3) | vm_compute; reflexivity|]).
  apply throughout_cons; [step_data 0 [1] | vm_compute; reflexivity|].
  apply throughout_cons; [step_data 1 [0] | vm_compute; reflexivity|].
  apply throughout_cons; [step_sent | vm_compute; reflexivity|].
  apply throughout_cons; [step_end | vm_compute; reflexivity|].
  apply throughout_cons; [|vm_compute; reflexivity|].
  { eexists. split; [apply conn_at_eq; vm_compute; reflexivity|]. split; vm_compute; reflexivity. }
  apply throughout_cons; [step_sent | vm_compute; reflexivity | exact I].
Qed.

(** Nothing of a connection is in flight. *)
Lemma idle_at i L :
  bool_decide (is_Some (conns L !! i)) = true -> reads_in_flight (conn_at i L) = 0%nat ->
  writes_in_flight (conn_at i L) = 0%nat -> lcalm L (Drop i).
Proof. intros Hi Hr Hw c Hc. rewrite (conn_at_eq i L Hi) in Hc. by injection Hc as <-. Qed.
Ltac step_idle := apply idle_at; vm_compute; reflexivity.

Lemma demo_run_calm : lcalm_run (A := first_fit) demo_L0 demo_run.
Proof.
  do 2 (apply throughout_cons; [exact I | vm_compute; reflexivity|]).
  do 2 (apply throughout_cons; [exact I | vm_compute; reflexivity|]).
  apply throughout_cons; [left; lia | vm_compute; reflexivity|].
  apply throughout_cons; [exact I | vm_compute; reflexivity|].
  apply throughout_cons; [step_idle | vm_compute; reflexivity|].
  apply throughout_cons; [left; lia | vm_compute; reflexivity | exact I].
Qed.

Lemma demo_run_ok : lsteps (A := first_fit) demo_run demo_L0 = Ok demo_L.
Proof. apply from_ok_eq. vm_compute. reflexivity. Qed.




(** A coroutine that waits in [send] with unread input when the peer closes; the
    write in flight fails too. *)
Definition unread : prog :=
  PrepareToRead (fun n => if n <? 0 then Return else Send [x7a] (fun _ => Return)).
Definition unread_run : list loop_event :=
  [Establish 1 5 64 16 0 unread; On 1 (ReadDone 3 (flags_of 0 true) [x61; x62; x63]); On 1 (ReadDone 0 0 []);
   On 1 (WriteDone (- EPIPE))].
Definition unread_L : @loop_state list_ring := from_ok demo_L0 (lsteps (A := first_fit) unread_run demo_L0).

Lemma unread_polite : polite 4 unread.
Proof. split; [done|]. intros n _. destruct (n <? 0); [done|]. by split. Qed.

Lemma unread_valid : lvalid_run (A := first_fit) 4 demo_L0 unread_run.
Proof.
  apply throughout_cons; [split_and!; try done; apply unread_polite | vm_compute; reflexivity|].
  apply throughout_cons; [step_data 0 [1] | vm_compute; reflexivity|].
  apply throughout_cons; [step_end | vm_compute; reflexivity|].
  apply throughout_cons; [|vm_compute; reflexivity | exact I].
  eexists. split; [apply conn_at_eq; vm_compute; reflexivity|]. split; [vm_compute; discriminate|].
  left. vm_compute. reflexivity.
Qed.

Lemma unread_calm : lcalm_run (A := first_fit) demo_L0 unread_run.
Proof.
  do 3 (apply throughout_cons; [exact I | vm_compute; reflexivity|]).
  apply throughout_cons; [right; by split | vm_compute; reflexivity | exact I].
Qed.

(** What a valid run reaches. *)
Lemma run_linv es :
  lvalid_run (A := first_fit) 4 demo_L0 es -> lcalm_run (A := first_fit) demo_L0 es -> is_ok (lsteps (A := first_fit) es demo_L0) = true ->
  linv 4 2 (from_ok demo_L0 (lsteps (A := first_fit) es demo_L0)).
Proof.
  intros Hv Hc Hok.
  destruct (lsteps_ok (A := first_fit) 4 ltac:(lia) 2 es demo_L0 (fresh_ok _ demo_m [0; 1]%nat demo_m_ok) Hv Hc)
    as (L & HL & Hi). rewrite HL. exact Hi.
Qed.

Lemma dropped_connection_returns_its_chunks_witness :
  exists L', lstep (A := first_fit) (Drop 1) unread_L = Ok L' /\ conns L' !! 1%nat = None /\
    available (input_buf_ring_ (shared unread_L)) = [1] /\
    exists l, zlen l = 1 /\ available (input_buf_ring_ (shared L')) = [1] ++ l.
Proof.
  assert (Hc : conns unread_L !! 1%nat = Some (conn_at 1 unread_L)) by (apply conn_at_eq; vm_compute; reflexivity).
  destruct (dropped_connection_returns_its_chunks (A := first_fit) 4 2 unread_L 1 (conn_at 1 unread_L))
    as (_ & _ & _ & L' & l & HL' & Hco & Hz & Ha).
  - apply run_linv; [exact unread_valid | exact unread_calm | vm_compute; reflexivity].
  - exists (conn_at 1 unread_L). split; [exact Hc|]. split; vm_compute; reflexivity.
  - step_idle.
  - exact Hc.
  - vm_compute. reflexivity.
  - exists L'. split; [exact HL'|]. split; [rewrite Hco; apply lookup_delete_eq|].
    assert (Hu : available (input_buf_ring_ (shared unread_L)) = [1]) by (vm_compute; reflexivity).
    split; [exact Hu|]. exists l. split; [rewrite Hz; vm_compute; reflexivity|]. rewrite Ha, Hu. reflexivity.
Defined.

End LoopConnections.
