(* ===== verification/LoopSystem.v ===== *)
(** * A loop and its connections

    [IoUringLoop] with the contexts of real connections.  A completion is dispatched
    to the connection its context belongs to; what the connection asks for in the
    handler goes to the ring or to the waiting queue.  The completions are now
    constrained by what the kernel was given, instead of by what the connection
    believes to be in flight, and the theorems show that the two agree. *)

From S2P Require Import Prelude SendQueue ChunkPool InputChainBuffer InputBuffers Timestamp IoUringLoop TcpConnection.
From S2P Require Import ConnectionSafety ConnectionProgress LoopConnections.
Import ChunkPoolManagerInput TcpConnection ConnectionSafety LoopConnections.

Module LoopSystem.
Module U := IoUringLoop.

Section system.
Context {A : Allocator} {B : BufRing} {RING : Uring} {F : WriteErrors}.

(** [ended]: the contexts of the operations that came to their end, in order. *)
Record sys := mkSys {
  uloop : U.IoUringLoop;
  cl : loop_state;
  ended : list nat
}.

(** The addresses of the two contexts of connection [i]; 1 is the loop itself. *)
Definition rd (i : nat) : nat := (2 * i + 2)%nat.
Definition wr (i : nat) : nat := (2 * i + 3)%nat.

(** What a request of connection [i] is for the loop: a write finds the [iovec]s in
    its context. *)
Definition translate (i : nat) (q : Request) : list U.request :=
  match q with
  | SubmitRead _ => [U.SubmitRead (rd i)]
  | SubmitWrite fd iov => [U.Register (wr i) (U.mkIoContext U.Write 0 0 fd iov); U.SubmitWrite (wr i)]
  | SubmitCancel => [U.SubmitCancel (rd i)]
  end.

(** The requests of connection [i] since its outbox was emptied. *)
Definition clear (c : TcpConnection) : TcpConnection :=
  mkConn (closing_ c) (sock_closed_ c) (task_handle_ c) (frame_ c) (close_callback_ c) (in_map c) (base_here c)
    (read_context_ c) (write_context_ c) (pool c) (functors c) [] (reads_in_flight c) (writes_in_flight c)
    (appended c) (wire c) (close_calls c) (received c) (consumed c).
Definition outbox (i : nat) (C : loop_state) : list Request :=
  match conns C !! i with Some c => requests c | None => [] end.
Definition empty_outboxes (C : loop_state) : loop_state := mkLoop (shared C) (clear <$> conns C).

Definition asks (i : nat) (C : loop_state) : list U.request := concat (translate i <$> outbox i C).

(** The completion entry of an event. *)
Definition cqe (i : nat) (e : event) : option (nat * Z * Z) :=
  match e with
  | WriteDone res => Some (wr i, res, 0)
  | ReadDone res flags _ => Some (rd i, res, flags)
  | _ => None
  end.
Definition finals (i : nat) (e : event) : list nat :=
  (if ConnectionProgress.ends_read e then [rd i] else []) ++ (if ConnectionProgress.ends_write e then [wr i] else []).

Inductive sys_event :=
  | SEstablish (i : nat) (fd ihw ihc ohw : Z) (p : prog)
  | SOn (i : nat) (e : event)
  | SDrop (i : nat)
  | SSubmit   (** [io_uring_submit] *)
  | SDrain.   (** [doingSubmitWaitingTask] *)

Definition sstep (e : sys_event) (S : sys) : result sys :=
  match e with
  | SEstablish i fd ihw ihc ohw p =>
      C ← lstep (Establish i fd ihw ihc ohw p) (cl S);
      L ← U.execs ([U.Register (rd i) (U.mkIoContext U.Read 0 0 fd []);
                    U.Register (wr i) (U.mkIoContext U.Write 0 0 fd [])] ++ asks i C) (uloop S);
      Ok (mkSys L C (ended S))
  | SOn i e =>
      C ← lstep (On i e) (empty_outboxes (cl S));
      L ← (match cqe i e with
           | Some q => U.dispatch (fun _ _ => asks i C) q (uloop S)
           | None => U.execs (asks i C) (uloop S)
           end);
      Ok (mkSys L C (ended S ++ finals i e))
  | SDrop i =>
      C ← lstep (Drop i) (cl S);
      L ← (match conns C !! i with
           | Some _ => Ok (uloop S)
           | None => U.execs [U.Release (rd i); U.Release (wr i)] (uloop S)
           end);
      Ok (mkSys L C (ended S))
  | SSubmit => Ok (mkSys (U.submit_ring (uloop S)) (cl S) (ended S))
  | SDrain => L ← U.doingSubmitWaitingTask (uloop S); Ok (mkSys L (cl S) (ended S))
  end.

Fixpoint ssteps (es : list sys_event) (S : sys) : result sys :=
  match es with
  | [] => Ok S
  | e :: es => S ← sstep e S; ssteps es S
  end.

Context (D : Z) (D_nonneg : 0 <= D).

(** A step succeeds with a state in [Q], or ends the program because the kernel took
    nothing from a full ring. *)
Notation completes := (finishes U.refused).

(** ** What the kernel can do *)

Definition count (p : nat) (l : list nat) : nat := length (filter (fun q => q = p) l).

(** The kernel has an entry for context [p] that has not ended. *)
Definition pending (p : nat) (S : sys) : Prop := (count p (ended S) < count p (user_data <$> U.kernel (uloop S)))%nat.

Definition svalid (S : sys) (e : sys_event) : Prop :=
  match e with
  | SEstablish i fd ihw ihc ohw p => lvalid D (cl S) (Establish i fd ihw ihc ohw p)
  | SOn i e => exists c, conns (cl S) !! i = Some c /\ reported (set_pool (shared (cl S)) c) e /\
      match cqe i e with Some (p, _, _) => pending p S | None => True end
  | SDrop i => lvalid D (cl S) (Drop i)
  | _ => True
  end.

Definition svalid_run : sys -> list sys_event -> Prop := throughout sstep svalid.

(** No transient write errors, and removals with nothing in flight. *)
Definition scalm (S : sys) (e : sys_event) : Prop :=
  match e with
  | SOn i e => smooth e
  | SDrop i => lcalm (cl S) (Drop i)
  | _ => True
  end.
Definition scalm_run : sys -> list sys_event -> Prop := throughout sstep scalm.

(** ** The invariant *)

(** The operations of context [p] that a connection counts as in flight. *)
Definition flying (C : loop_state) (p : nat) : nat :=
  match conns C !! Nat.div2 (p - 2) with
  | Some c => if Nat.even p then reads_in_flight c else writes_in_flight c
  | None => 0
  end.

Definition typed (L : U.IoUringLoop) (i : nat) : Prop :=
  (exists c, U.contexts L !! rd i = Some c /\ U.type_ c = U.Read) /\
  (exists c, U.contexts L !! wr i = Some c /\ U.type_ c = U.Write).

Record sinv (n : nat) (S : sys) : Prop := {
  si_loop : U.inv (uloop S);
  si_self : U.self (uloop S) = 1%nat;
  si_conns : linv D n (cl S);
  si_typed i c : conns (cl S) !! i = Some c -> typed (uloop S) i;
  si_count p : (2 <= p)%nat -> count p (U.asked (uloop S)) = (count p (ended S) + flying (cl S) p)%nat;
  si_ended p : (count p (ended S) <= count p (user_data <$> U.kernel (uloop S)))%nat
}.

(** *** Counting *)

Lemma count_app p l k : count p (l ++ k) = (count p l + count p k)%nat.
Proof. unfold count. by rewrite filter_app, length_app. Qed.

Lemma count_perm p l k : l ≡ₚ k -> count p l = count p k.
Proof. intros H. unfold count. by rewrite H. Qed.

Lemma count_prefix p (k k' : list Sqe) :
  k `prefix_of` k' -> (count p (user_data <$> k) <= count p (user_data <$> k'))%nat.
Proof. intros [x ->]. rewrite fmap_app, count_app. lia. Qed.

Lemma flying_rd C i : flying C (rd i) = match conns C !! i with Some c => reads_in_flight c | None => 0%nat end.
Proof.
  unfold flying, rd. replace (2 * i + 2 - 2)%nat with (2 * i)%nat by lia. rewrite Nat.div2_double.
  replace (2 * i + 2)%nat with (2 * (i + 1))%nat by lia. by rewrite Nat.even_even.
Qed.
Lemma flying_wr C i : flying C (wr i) = match conns C !! i with Some c => writes_in_flight c | None => 0%nat end.
Proof.
  unfold flying, wr. replace (2 * i + 3 - 2)%nat with (S (2 * i)) by lia. rewrite Nat.div2_succ_double.
  replace (2 * i + 3)%nat with (2 * (i + 1) + 1)%nat by lia. by rewrite Nat.even_odd.
Qed.
Lemma address_cases p : (2 <= p)%nat -> exists i, p = rd i \/ p = wr i.
Proof.
  intros Hp. exists (Nat.div2 (p - 2)). unfold rd, wr. pose proof (Nat.div2_odd (p - 2)) as H.
  destruct (Nat.odd (p - 2)); simpl Nat.b2n in H; lia.
Qed.

(** *** Requests *)

(** Requests that keep the contexts of the connections what they are. *)
Definition mild (r : U.request) : Prop :=
  match r with
  | U.Register p c => exists k, (p = rd k /\ U.type_ c = U.Read) \/ (p = wr k /\ U.type_ c = U.Write)
  | U.Release _ => False
  | _ => True
  end.

Lemma insert_typed (m : gmap nat U.IoContext) p c q t :
  (q = p -> U.type_ c = t) -> (exists x, m !! q = Some x /\ U.type_ x = t) ->
  exists x, <[p := c]> m !! q = Some x /\ U.type_ x = t.
Proof.
  intros Hc (x & Hx & Ht). destruct (decide (q = p)) as [->|Hne].
  - exists c. rewrite lookup_insert_eq. auto.
  - exists x. by rewrite lookup_insert_ne.
Qed.

Lemma exec_typed r L L' i : mild r -> U.exec r L = Ok L' -> typed L i -> typed L' i.
Proof.
  intros Hm He [Hr Hw]. apply U.exec_frame in He as [Hc _]. unfold typed. rewrite Hc.
  destruct r as [p c| | | | | | | |]; simpl in Hm; try done. destruct Hm as [k [[-> Ht]|[-> Ht]]].
  - split; apply insert_typed; try done. unfold rd, wr. intros ?; lia.
  - split; apply insert_typed; try done. unfold rd, wr. intros ?; lia.
Qed.

Lemma execs_frame rs : forall L L', Forall mild rs -> U.execs rs L = Ok L' ->
  U.kernel L `prefix_of` U.kernel L' /\ (forall i, typed L i -> typed L' i).
Proof.
  induction rs as [|r rs IH]; intros L L' Hm He; simpl in He; [by simplify_eq|].
  apply Forall_cons in Hm as [Hm1 Hm]. destruct (U.exec r L) as [L1|] eqn:E; [|done]. simpl in He.
  destruct (IH _ _ Hm He) as [Hk Ht]. split.
  - apply U.exec_frame in E as [_ Hk1]. by etrans.
  - intros i Hi. apply Ht. by eapply exec_typed.
Qed.

Lemma translate_mild i qs : Forall mild (concat (translate i <$> qs)).
Proof.
  induction qs as [|q qs IH]; [constructor|]. simpl. apply Forall_app. split; [|done].
  destruct q as [fd|fd iov|]; repeat constructor. simpl. exists i. by right.
Qed.

Lemma requests_ok_app L rs1 : forall rs2,
  U.requests_ok L rs1 -> (forall L', U.execs rs1 L = Ok L' -> U.requests_ok L' rs2) -> U.requests_ok L (rs1 ++ rs2).
Proof.
  revert L. induction rs1 as [|r rs1 IH]; intros L rs2 H1 H2; simpl in *; [by apply H2|].
  destruct H1 as [Hr H1]. split; [done|]. intros L1 HL1. apply IH; [by apply H1|]. intros L2 HL2. apply H2.
  by rewrite HL1.
Qed.

Lemma translate_ok i qs : forall L, typed L i -> U.requests_ok L (concat (translate i <$> qs)).
Proof.
  induction qs as [|q qs IH]; intros L Ht; [done|]. simpl. apply requests_ok_app.
  - destruct Ht as [Hr Hw]. destruct q as [fd|fd iov|]; simpl.
    + split; [|done]. split; [unfold rd; lia | done].
    + split; [done|]. intros L1 [= <-]. split; [|done]. split; [unfold wr; lia|]. simpl.
      eexists. rewrite lookup_insert_eq. done.
    + done.
  - intros L1 HL1. apply IH. eapply (execs_frame (translate i q)); [|exact HL1|done].
    destruct q; repeat constructor. simpl. exists i. by right.
Qed.

(** What connection [i] asked for, counted by context. *)
Lemma count_asked p i qs :
  Z.of_nat (count p (concat (U.requested 1 <$> concat (translate i <$> qs)))) =
  (if decide (p = rd i) then ConnectionProgress.reads_asked qs else 0) +
  (if decide (p = wr i) then ConnectionProgress.writes_asked qs else 0).
Proof.
  induction qs as [|q qs IH]; [by repeat case_decide|]. rewrite fmap_cons. simpl concat.
  rewrite fmap_app, concat_app, count_app, Nat2Z.inj_add, IH.
  unfold ConnectionProgress.reads_asked, ConnectionProgress.writes_asked.
  destruct q as [fd|fd iov|]; simpl; unfold count; simpl; rewrite ?filter_cons, ?filter_nil;
    repeat case_decide; subst; rewrite ?zlen_cons; simpl; try (unfold rd, wr in *; lia).
Qed.

(** The loop carries out the requests of a connection. *)
Lemma perform_ok L rs :
  U.inv L -> U.self L = 1%nat -> U.requests_ok L rs -> Forall mild rs ->
  completes (U.execs rs L) (fun L' => U.inv L' /\ U.self L' = 1%nat /\
    (forall p, count p (U.asked L') = (count p (U.asked L) + count p (concat (U.requested 1 <$> rs)))%nat) /\
    U.kernel L `prefix_of` U.kernel L' /\ (forall i, typed L i -> typed L' i)).
Proof.
  intros Hi Hs Hok Hm. eapply finishes_mono; [exact (U.execs_ok rs L Hi Hok)|]. intros L' He (Hi' & Ha & Hs' & _).
  destruct (execs_frame _ _ _ Hm He) as [Hk Ht]. split_and!; try done; [congruence|].
  intros p. by rewrite (count_perm p _ _ Ha), count_app, Hs.
Qed.

(** *** Emptying the outboxes *)

Lemma clear_ok m c l : on_loop D m c l -> on_loop D m (clear c) l.
Proof.
  intros [(s & p & Hw) ? ? Hl]. split; try done; [exists s, p; by eapply write_inv_mono|].
  destruct Hl as [?|[? ? ? ? ?]]; [by left | by right].
Qed.

Lemma empty_outboxes_ok n C : linv D n C -> linv D n (empty_outboxes C).
Proof.
  intros (ls & av & [Hp Hn Hd Hc]). exists ls, av. split; try done.
  - intros i. simpl. rewrite lookup_fmap, Hd. by destruct (conns C !! i).
  - intros i c l. simpl. rewrite lookup_fmap. intros Hi Hl. destruct (conns C !! i) as [c0|] eqn:E; [|done].
    simplify_eq/=. apply clear_ok. by apply (Hc i).
Qed.

Lemma clear_valid m c e : valid (set_pool m c) e -> valid (set_pool m (clear c)) e.
Proof. by destruct e. Qed.

(** *** The kernel's view and the connection's *)

Lemma kernel_asked p L : p <> 0%nat -> (count p (user_data <$> U.kernel L) <= count p (U.asked L))%nat.
Proof.
  intros Hp. unfold U.asked, U.stream. rewrite count_app, fmap_app, filter_app, count_app.
  assert (count p (filter (fun q => q <> 0%nat) (user_data <$> U.kernel L)) = count p (user_data <$> U.kernel L)); [|lia].
  unfold count. rewrite list_filter_filter. f_equal. apply list_filter_iff. intros x. split; [by intros [? ?]|by intros ->].
Qed.

Lemma not_waiting p S n :
  sinv n S -> (2 <= p)%nat -> flying (cl S) p = 0%nat -> p ∉ U.waiting_submit_queue_ (uloop S).
Proof.
  intros Hs Hp Hf Hin. pose proof (si_count _ _ Hs p Hp) as Hc. pose proof (si_ended _ _ Hs p) as He.
  assert (Hk : (count p (user_data <$> U.kernel (uloop S)) + count p (U.waiting_submit_queue_ (uloop S)) <= count p (U.asked (uloop S)))%nat).
  { pose proof (kernel_asked p (U.set_waiting [] (uloop S)) ltac:(lia)) as Hk. unfold U.asked in *. simpl in Hk.
    rewrite app_nil_r in Hk. rewrite count_app. change (U.stream (U.set_waiting [] (uloop S))) with (U.stream (uloop S)) in Hk. lia. }
  assert (0 < count p (U.waiting_submit_queue_ (uloop S)))%nat; [|lia].
  unfold count. apply list_elem_of_split in Hin as (l1 & l2 & ->). rewrite filter_app, filter_cons_True, length_app by done.
  simpl. lia.
Qed.

Lemma pending_flying p S n : sinv n S -> (2 <= p)%nat -> pending p S -> flying (cl S) p <> 0%nat.
Proof.
  intros Hs Hp Hpe. unfold pending in Hpe. pose proof (si_count _ _ Hs p Hp). pose proof (kernel_asked p (uloop S) ltac:(lia)). lia.
Qed.

Lemma svalid_in_flight n S i c e :
  sinv n S -> conns (cl S) !! i = Some c ->
  match cqe i e with Some (p, _, _) => pending p S | None => True end -> in_flight c e.
Proof.
  intros Hs Hi Hp. destruct e as [res|res flags data| | |]; simpl in *; try done.
  - apply (pending_flying _ _ _ Hs) in Hp; [|unfold wr; lia]. by rewrite flying_wr, Hi in Hp.
  - apply (pending_flying _ _ _ Hs) in Hp; [|unfold rd; lia]. by rewrite flying_rd, Hi in Hp.
Qed.

(** *** A completion *)

(** The balance of connection [i] over one event. *)
Lemma on_balance C C' i c e :
  conns C !! i = Some c -> in_flight c e -> lstep (On i e) (empty_outboxes C) = Ok C' ->
  exists c1, conns C' = <[i := c1]> (clear <$> conns C) /\ outbox i C' = requests c1 /\
    Z.of_nat (reads_in_flight c1) = Z.of_nat (reads_in_flight c) - (if ConnectionProgress.ends_read e then 1 else 0) +
      ConnectionProgress.reads_asked (requests c1) /\
    Z.of_nat (writes_in_flight c1) = Z.of_nat (writes_in_flight c) - (if ConnectionProgress.ends_write e then 1 else 0) +
      ConnectionProgress.writes_asked (requests c1).
Proof.
  intros Hi Hf H. simpl in H. rewrite lookup_fmap, Hi in H. simpl in H.
  destruct (step e _) as [c1|] eqn:E; [|done]. simpl in H. simplify_eq. exists c1. split; [done|].
  split; [unfold outbox; simpl; by rewrite lookup_insert_eq|].
  apply ConnectionProgress.step_due in E as [Hr Hw]; [|by destruct e].
  unfold ConnectionProgress.reads_due, ConnectionProgress.writes_due in *. simpl in *.
  change (ConnectionProgress.reads_asked []) with 0 in Hr. change (ConnectionProgress.writes_asked []) with 0 in Hw. lia.
Qed.

(** Dispatching a completion is to note its result in the context and to carry out
    the requests of the handler. *)
Definition noted (i : nat) (e : event) (L : U.IoUringLoop) (rs : list U.request) : list U.request :=
  match cqe i e with
  | Some (p, res, flags) =>
      match U.contexts L !! p with
      | Some c => U.Register p (U.set_result res flags c) :: rs
      | None => rs
      end
  | None => rs
  end.

Lemma dispatch_noted i e L rs :
  typed L i ->
  (match cqe i e with Some q => U.dispatch (fun _ _ => rs) q L | None => U.execs rs L end) = U.execs (noted i e L rs) L.
Proof.
  intros [(cr & Hr & Htr) (cw & Hw & Htw)]. unfold noted.
  destruct e as [res|res flags data| | |]; cbn [cqe]; try done; unfold U.dispatch.
  - rewrite (proj2 (Nat.eqb_neq (wr i) 0)) by (unfold wr; lia). cbn [deref]. rewrite Hw. cbn [mbind result_bind].
    by rewrite Htw.
  - rewrite (proj2 (Nat.eqb_neq (rd i) 0)) by (unfold rd; lia). cbn [deref]. rewrite Hr. cbn [mbind result_bind].
    by rewrite Htr.
Qed.

Lemma noted_ok i e L qs :
  typed L i -> U.requests_ok L (noted i e L (concat (translate i <$> qs))) /\
  Forall mild (noted i e L (concat (translate i <$> qs))) /\
  concat (U.requested 1 <$> noted i e L (concat (translate i <$> qs))) = concat (U.requested 1 <$> concat (translate i <$> qs)).
Proof.
  intros Ht. pose proof (translate_ok i qs L Ht) as Hok. pose proof (translate_mild i qs) as Hm.
  pose proof Ht as [(cr & Hr & Htr) (cw & Hw & Htw)]. unfold noted.
  assert (Hreg : forall p res flags c, U.contexts L !! p = Some c ->
    mild (U.Register p (U.set_result res flags c)) -> U.type_ c <> U.Wakeup ->
    U.requests_ok L (U.Register p (U.set_result res flags c) :: concat (translate i <$> qs)) /\
    Forall mild (U.Register p (U.set_result res flags c) :: concat (translate i <$> qs))).
  { intros p res flags c Hp Hmi Hne. split; [|by constructor]. split; [intros _; exact Hne|]. intros L1 HL1.
    apply translate_ok. by eapply exec_typed. }
  destruct e as [res|res flags data| | |]; simpl; try done.
  - rewrite Hw. destruct (Hreg (wr i) res 0 cw Hw) as [? ?]; [exists i; by right | congruence | done].
  - rewrite Hr. destruct (Hreg (rd i) res flags cr Hr) as [? ?]; [exists i; by left | congruence | done].
Qed.

Lemma count_finals p i e :
  Z.of_nat (count p (finals i e)) =
  (if decide (p = rd i) then if ConnectionProgress.ends_read e then 1 else 0 else 0) +
  (if decide (p = wr i) then if ConnectionProgress.ends_write e then 1 else 0 else 0).
Proof.
  unfold finals, count. destruct (ConnectionProgress.ends_read e), (ConnectionProgress.ends_write e); simpl;
    rewrite ?filter_cons, ?filter_nil; repeat case_decide; subst; simpl; (lia || (unfold rd, wr in *; lia)).
Qed.

Lemma finals_pending n S i c e p :
  sinv n S -> conns (cl S) !! i = Some c ->
  match cqe i e with Some (p, _, _) => pending p S | None => True end ->
  (count p (ended S ++ finals i e) <= count p (user_data <$> U.kernel (uloop S)))%nat.
Proof.
  intros Hs Hi Hp. rewrite count_app. pose proof (si_ended _ _ Hs p) as He. pose proof (count_finals p i e) as Hf.
  unfold pending in Hp. destruct e as [res|res flags data| | |]; simpl in *; repeat case_decide; subst;
    try (destruct (negb _)); unfold rd, wr in *; lia.
Qed.

(** Two connections' counts: an update of connection [i] is not seen elsewhere. *)
Lemma flying_other C C' i p :
  (forall j, j <> i -> match conns C' !! j, conns C !! j with
                       | Some c', Some c => reads_in_flight c' = reads_in_flight c /\ writes_in_flight c' = writes_in_flight c
                       | None, None => True
                       | _, _ => False
                       end) ->
  (2 <= p)%nat -> p <> rd i -> p <> wr i -> flying C' p = flying C p.
Proof.
  intros Hj Hp Hr Hw. destruct (address_cases p Hp) as [j [-> | ->]].
  - specialize (Hj j ltac:(by intros ->)). rewrite !flying_rd. destruct (conns C' !! j), (conns C !! j); try done. apply Hj.
  - specialize (Hj j ltac:(by intros ->)). rewrite !flying_wr. destruct (conns C' !! j), (conns C !! j); try done. apply Hj.
Qed.

Lemma cleared_other C i c1 : forall j, j <> i ->
  match <[i := c1]> (clear <$> conns C) !! j, conns C !! j with
  | Some c', Some c => reads_in_flight c' = reads_in_flight c /\ writes_in_flight c' = writes_in_flight c
  | None, None => True
  | _, _ => False
  end.
Proof. intros j Hne. rewrite lookup_insert_ne, lookup_fmap by done. by destruct (conns C !! j). Qed.

Lemma son_ok n S i e :
  sinv n S -> svalid S (SOn i e) -> scalm S (SOn i e) -> completes (sstep (SOn i e) S) (sinv n).
Proof.
  intros Hs (c & Hi & Hrep & Hpe) Hsm. pose proof (svalid_in_flight _ _ _ _ _ Hs Hi Hpe) as Hfl.
  assert (Hlv : lvalid D (empty_outboxes (cl S)) (On i e)).
  { exists (clear c). split; [simpl; by rewrite lookup_fmap, Hi|]. apply clear_valid. split; [by destruct e | done]. }
  destruct (lstep_ok D D_nonneg n _ _ (empty_outboxes_ok _ _ (si_conns _ _ Hs)) Hlv Hsm) as (C' & HC' & Hli).
  destruct (on_balance _ _ _ _ _ Hi Hfl HC') as (c1 & Hco & Hout & Hr & Hw).
  pose proof (si_typed _ _ Hs i c Hi) as Hty. unfold sstep. rewrite HC'. cbn [mbind result_bind].
  rewrite (dispatch_noted i e (uloop S) (asks i C') Hty). unfold asks. rewrite Hout.
  destruct (noted_ok i e (uloop S) (requests c1) Hty) as (Hok & Hmi & Hrq).
  eapply finishes_bind; [exact (perform_ok _ _ (si_loop _ _ Hs) (si_self _ _ Hs) Hok Hmi)|].
  intros L' _ (Hi' & Hse & Hcnt & Hk & Ht). apply finishes_ok. split; simpl; try done.
  - intros j cj Hj. apply Ht. rewrite Hco in Hj. destruct (decide (j = i)) as [->|Hne]; [by apply (si_typed _ _ Hs i c)|].
    rewrite lookup_insert_ne, lookup_fmap in Hj by done. destruct (conns (cl S) !! j) as [cj0|] eqn:Ej; [|done].
    by apply (si_typed _ _ Hs j cj0).
  - intros p Hp. rewrite Hcnt, Hrq, count_app. pose proof (si_count _ _ Hs p Hp) as Hc.
    pose proof (count_asked p i (requests c1)) as Ha. pose proof (count_finals p i e) as Hfi.
    destruct (decide (p = rd i)) as [->|Hnr].
    { rewrite flying_rd, Hi in Hc. rewrite flying_rd, Hco, lookup_insert_eq.
      rewrite decide_False in Ha, Hfi by (unfold rd, wr; lia). lia. }
    destruct (decide (p = wr i)) as [->|Hnw].
    { rewrite flying_wr, Hi in Hc. rewrite flying_wr, Hco, lookup_insert_eq. lia. }
    rewrite (flying_other (cl S) C' i p); [lia | | done | done | done]. rewrite Hco. apply cleared_other.
  - intros p. pose proof (finals_pending _ _ _ _ _ p Hs Hi Hpe). pose proof (count_prefix p _ _ Hk). lia.
Qed.

Lemma open_balance fd m ihw ihc ohw p c :
  open_connection fd m ihw ihc ohw true false p = Ok c ->
  Z.of_nat (reads_in_flight c) = ConnectionProgress.reads_asked (requests c) /\
  Z.of_nat (writes_in_flight c) = ConnectionProgress.writes_asked (requests c).
Proof.
  intros H. apply ConnectionProgress.open_kept in H. injection H as _ _ _ _ Hr Hw.
  unfold ConnectionProgress.reads_due, ConnectionProgress.writes_due in *. lia.
Qed.

Lemma sestablish_ok n S i fd ihw ihc ohw p :
  sinv n S -> svalid S (SEstablish i fd ihw ihc ohw p) ->
  completes (sstep (SEstablish i fd ihw ihc ohw p) S) (sinv n).
Proof.
  intros Hs Hv. destruct (lstep_ok D D_nonneg n _ _ (si_conns _ _ Hs) Hv I) as (C' & HC' & Hli). destruct Hv as (Hi & _).
  pose proof HC' as Hop. simpl in Hop. destruct (open_connection _ _ _ _ _ _ _ _) as [c|] eqn:Eo; [|done].
  simpl in Hop. injection Hop as Hop. destruct (open_balance _ _ _ _ _ _ _ Eo) as [Hr Hw].
  assert (Hco : conns C' = <[i := c]> (conns (cl S))) by by rewrite <- Hop.
  assert (Hout : outbox i C' = requests c) by (unfold outbox; by rewrite Hco, lookup_insert_eq).
  unfold sstep. rewrite HC'. cbn [mbind result_bind]. unfold asks. rewrite Hout.
  set (regs := [U.Register (rd i) _; U.Register (wr i) _]).
  set (L2 := U.set_contexts (<[wr i := U.mkIoContext U.Write 0 0 fd []]> (<[rd i := U.mkIoContext U.Read 0 0 fd []]> (U.contexts (uloop S)))) (uloop S)).
  assert (Hregs : U.execs regs (uloop S) = Ok L2) by done.
  assert (Hty : typed L2 i).
  { split; eexists; simpl; [rewrite lookup_insert_ne by (unfold rd, wr; lia)|]; by rewrite lookup_insert_eq. }
  assert (Hok : U.requests_ok (uloop S) (regs ++ concat (translate i <$> requests c))).
  { apply requests_ok_app; [split; [done|]; intros ? _; by split|]. intros L1 HL1. rewrite Hregs in HL1. simplify_eq.
    by apply translate_ok. }
  assert (Hmi : Forall mild (regs ++ concat (translate i <$> requests c))).
  { apply Forall_app. split; [|apply translate_mild]. repeat constructor; exists i; [by left | by right]. }
  eapply finishes_bind; [exact (perform_ok _ _ (si_loop _ _ Hs) (si_self _ _ Hs) Hok Hmi)|].
  intros L' HL' (Hi' & Hse & Hcnt & Hk & Ht). apply finishes_ok. split; simpl; try done.
  - intros j cj Hj. rewrite Hco in Hj. destruct (decide (j = i)) as [->|Hne].
    + destruct (execs_frame (concat (translate i <$> requests c)) L2 L') as [_ Htt]; [apply translate_mild | exact HL' | by apply Htt].
    + rewrite lookup_insert_ne in Hj by done. apply Ht. by apply (si_typed _ _ Hs j cj).
  - intros q Hq. rewrite Hcnt. change (concat (U.requested 1 <$> regs ++ ?rs)) with (concat (U.requested 1 <$> rs)).
    pose proof (si_count _ _ Hs q Hq) as Hc. pose proof (count_asked q i (requests c)) as Ha.
    destruct (decide (q = rd i)) as [->|Hnr].
    { rewrite flying_rd, Hi in Hc. rewrite flying_rd, Hco, lookup_insert_eq.
      rewrite decide_False in Ha by (unfold rd, wr; lia). lia. }
    destruct (decide (q = wr i)) as [->|Hnw].
    { rewrite flying_wr, Hi in Hc. rewrite flying_wr, Hco, lookup_insert_eq. lia. }
    rewrite (flying_other (cl S) C' i q); [lia | | done | done | done]. rewrite Hco. intros j Hne.
    rewrite lookup_insert_ne by done. by destruct (conns (cl S) !! j).
  - intros q. pose proof (si_ended _ _ Hs q). pose proof (count_prefix q _ _ Hk). lia.
Qed.

(** *** A connection goes *)

Lemma drop_balance C C' i c :
  conns C !! i = Some c -> lstep (Drop i) C = Ok C' ->
  conns C' = delete i (conns C) \/
  exists c', conns C' = <[i := c']> (conns C) /\ reads_in_flight c' = reads_in_flight c /\ writes_in_flight c' = writes_in_flight c.
Proof.
  intros Hi H. simpl in H. rewrite Hi in H. unfold drop_connection in H.
  destruct (refs _); [destruct (destruct_TcpConnection _); [|done]|]; simpl in H; simplify_eq/=; [by left|].
  right. by eexists.
Qed.

Lemma release_typed L i j :
  j <> i -> typed L j ->
  typed (U.set_contexts (delete (wr i) (delete (rd i) (U.contexts L))) L) j.
Proof.
  intros Hne [(cr & Hr & ?) (cw & Hw & ?)]. split.
  - exists cr. simpl. by rewrite !lookup_delete_ne by (unfold rd, wr; lia).
  - exists cw. simpl. by rewrite !lookup_delete_ne by (unfold rd, wr; lia).
Qed.

Lemma sdrop_ok n S i : sinv n S -> svalid S (SDrop i) -> scalm S (SDrop i) -> exists S', sstep (SDrop i) S = Ok S' /\ sinv n S'.
Proof.
  intros Hs Hv Hcm. destruct (lstep_ok D D_nonneg n _ _ (si_conns _ _ Hs) Hv Hcm) as (C' & HC' & Hli).
  destruct Hv as (c & Hi & _ & _). destruct (Hcm c Hi) as [Hre Hwr]. unfold sstep. rewrite HC'. cbn [mbind result_bind].
  assert (Hfr : flying (cl S) (rd i) = 0%nat) by (by rewrite flying_rd, Hi).
  assert (Hfw : flying (cl S) (wr i) = 0%nat) by (by rewrite flying_wr, Hi).
  destruct (drop_balance _ _ _ _ Hi HC') as [Hco|(c' & Hco & Hr' & Hw')]; rewrite Hco.
  - rewrite lookup_delete_eq. set (L' := U.set_contexts (delete (wr i) (delete (rd i) (U.contexts (uloop S)))) (uloop S)).
    assert (Hok : U.requests_ok (uloop S) [U.Release (rd i); U.Release (wr i)]).
    { split; [apply (not_waiting _ _ n Hs); [unfold rd; lia | done]|]. intros L1 [= <-].
      split; [|done]. simpl. apply (not_waiting _ _ n Hs); [unfold wr; lia | done]. }
    destruct (finishes_value _ _ _ L' (U.execs_ok _ _ (si_loop _ _ Hs) Hok) eq_refl) as (HiL & _).
    change (U.execs [U.Release (rd i); U.Release (wr i)] (uloop S)) with (Ok L') in *. simpl. eexists. split; [done|]. split; simpl; try done; [apply Hs | | | apply Hs].
    + intros j cj Hj. rewrite Hco in Hj. apply lookup_delete_Some in Hj as [Hne Hj].
      apply release_typed; [done|]. by apply (si_typed _ _ Hs j cj).
    + intros p Hp. change (U.asked L') with (U.asked (uloop S)). rewrite (si_count _ _ Hs p Hp). f_equal.
      destruct (decide (p = rd i)) as [->|Hnr]; [by rewrite Hfr, flying_rd, Hco, lookup_delete_eq|].
      destruct (decide (p = wr i)) as [->|Hnw]; [by rewrite Hfw, flying_wr, Hco, lookup_delete_eq|].
      symmetry. apply (flying_other _ _ i); try done. intros j Hne. rewrite Hco, lookup_delete_ne by done.
      by destruct (conns (cl S) !! j).
  - rewrite lookup_insert_eq. simpl. eexists. split; [done|]. split; simpl; try done; [apply Hs | apply Hs | | | apply Hs].
    + intros j cj Hj. rewrite Hco in Hj. destruct (decide (j = i)) as [->|Hne]; [by apply (si_typed _ _ Hs i c)|].
      rewrite lookup_insert_ne in Hj by done. by apply (si_typed _ _ Hs j cj).
    + intros p Hp. rewrite (si_count _ _ Hs p Hp). f_equal.
      destruct (decide (p = rd i)) as [->|Hnr]; [rewrite Hfr, flying_rd, Hco, lookup_insert_eq; congruence|].
      destruct (decide (p = wr i)) as [->|Hnw]; [rewrite Hfw, flying_wr, Hco, lookup_insert_eq; congruence|].
      symmetry. apply (flying_other _ _ i); try done. intros j Hne. rewrite Hco, lookup_insert_ne by done.
      by destruct (conns (cl S) !! j).
Qed.

(** *** The loop's own steps *)

Lemma loop_only_ok n S r L' :
  sinv n S -> U.request_ok (uloop S) r -> mild r -> U.requested 1 r = [] -> U.exec r (uloop S) = Ok L' ->
  sinv n (mkSys L' (cl S) (ended S)).
Proof.
  intros Hs Hr Hm Hq He. assert (Hok : U.requests_ok (uloop S) [r]) by by split.
  assert (He1 : U.execs [r] (uloop S) = Ok L') by (cbn [U.execs]; by rewrite He).
  destruct (finishes_value _ _ _ L' (perform_ok _ [r] (si_loop _ _ Hs) (si_self _ _ Hs) Hok ltac:(by constructor)) He1)
    as (Hi & Hse & Hc & Hk & Ht). split; simpl; try done; [apply Hs | | |].
  - intros i c Hi'. apply Ht. by apply (si_typed _ _ Hs i c).
  - intros p Hp. rewrite Hc, fmap_cons. simpl. rewrite Hq. unfold count at 2. simpl. rewrite Nat.add_0_r.
    by apply (si_count _ _ Hs).
  - intros p. pose proof (si_ended _ _ Hs p). pose proof (count_prefix p _ _ Hk). lia.
Qed.

Lemma sstep_ok n S e : sinv n S -> svalid S e -> scalm S e -> completes (sstep e S) (sinv n).
Proof.
  intros Hs Hv Hc. destruct e as [i fd ihw ihc ohw p|i e|i| |].
  - by apply sestablish_ok.
  - by apply son_ok.
  - left. by apply sdrop_ok.
  - apply finishes_ok. by apply (loop_only_ok n S U.SubmitRing).
  - destruct (U.drain_ok (uloop S) (si_loop _ _ Hs)) as (L' & HL' & _). unfold sstep. rewrite HL'.
    apply finishes_ok. by apply (loop_only_ok n S U.Drain).
Qed.

Lemma ssteps_ok n es : forall S,
  sinv n S -> svalid_run S es -> scalm_run S es -> completes (ssteps es S) (sinv n).
Proof.
  induction es as [|e es IH]; intros S H Hv Hc; [by apply finishes_ok|]. destruct Hv as [Hv Hvs], Hc as [Hc Hcs].
  eapply finishes_bind; [exact (sstep_ok n S e H Hv Hc)|].
  intros S1 H1 Hi1. apply IH; [done | by apply Hvs | by apply Hcs].
Qed.

(** A new loop without connections: only its wake-up read was submitted. *)
Definition idle (L : U.IoUringLoop) : Prop :=
  U.inv L /\ U.self L = 1%nat /\ Forall (fun p => p = 1%nat) (U.asked L).

Lemma count_none p l : Forall (fun q => q = 1%nat) l -> (2 <= p)%nat -> count p l = 0%nat.
Proof.
  intros Hl Hp. unfold count. induction Hl as [|q l -> _ IH]; [done|]. rewrite filter_cons_False by lia. done.
Qed.

Lemma idle_ok L m av : idle L -> pool_ok m av [] [] -> sinv (length (chunks_data_ m)) (mkSys L (mkLoop m ∅) []).
Proof.
  intros (Hi & Hse & Ha) Hp. split; simpl; try done; [by eapply fresh_ok | |].
  - intros p Hp2. rewrite count_none by done. unfold flying. simpl. by rewrite lookup_empty.
  - intros p. unfold count. simpl. lia.
Qed.

(** ** Properties *)

(** C9. The loop and its connections work together: from an idle loop (with a low-water
    mark of at least 1) and a pool with all chunks free, whatever the kernel reports
    for the entries it was given and however events, submissions and drains of the
    waiting queue interleave, no step faults.  The coroutines are polite, no write
    fails with [EAGAIN], [ENOBUFS] or [EINTR], and a closed connection is removed when
    it has nothing in flight; what a connection believes to be in flight is not assumed
    but proved.  The one other outcome is [LOG_FATAL], when [io_uring_submit] takes
    nothing from a full ring. *)
Theorem system_safe L m av es :
  idle L -> pool_ok m av [] [] -> svalid_run (mkSys L (mkLoop m ∅) []) es -> scalm_run (mkSys L (mkLoop m ∅) []) es ->
  completes (ssteps es (mkSys L (mkLoop m ∅) [])) (sinv (length (chunks_data_ m))).
Proof. intros Hi Hp Hv Hc. apply ssteps_ok; [by eapply idle_ok | done | done]. Qed.

(** C19. No wake-up is lost between a connection and its loop: in every run with polite
    coroutines, without transient write errors and with removals of connections that
    have nothing in flight, the operations a connection counts as in flight are exactly
    the entries of its contexts that were submitted and have not ended, each of them in
    the ring, with the kernel or in the waiting queue; so that a coroutine that waits
    for data has one receive there, and one that waits for room has one write there. *)
Theorem system_keeps_account L m av es S i c :
  idle L -> pool_ok m av [] [] -> svalid_run (mkSys L (mkLoop m ∅) []) es -> scalm_run (mkSys L (mkLoop m ∅) []) es ->
  ssteps es (mkSys L (mkLoop m ∅) []) = Ok S -> conns (cl S) !! i = Some c ->
  count (rd i) (U.asked (uloop S)) = (count (rd i) (ended S) + reads_in_flight c)%nat /\
  count (wr i) (U.asked (uloop S)) = (count (wr i) (ended S) + writes_in_flight c)%nat /\
  (closing_ c = false ->
   match frame_ c with
   | AtRecv _ => count (rd i) (U.asked (uloop S)) = (count (rd i) (ended S) + 1)%nat
   | AtSend _ => count (wr i) (U.asked (uloop S)) = (count (wr i) (ended S) + 1)%nat
   | _ => True
   end).
Proof.
  intros Hi Hp Hv Hcm Hs Hc.
  pose proof (finishes_value _ _ _ S (ssteps_ok _ es _ (idle_ok L m av Hi Hp) Hv Hcm) Hs) as Hinv.
  pose proof (si_count _ _ Hinv (rd i) ltac:(unfold rd; lia)) as Hr. rewrite flying_rd, Hc in Hr.
  pose proof (si_count _ _ Hinv (wr i) ltac:(unfold wr; lia)) as Hw. rewrite flying_wr, Hc in Hw.
  split; [done|]. split; [done|]. intros Hcl. destruct (si_conns _ _ Hinv) as (ls & av' & Hli).
  destruct (lookup_chunks _ _ _ _ _ _ _ Hli Hc) as (l & Hl & Hon & Hpo).
  destruct (ol_live _ _ _ _ Hon) as [[Hrc Hco]|Hrt]; [|by rewrite (rt_frame _ Hrt)].
  pose proof (on_loop_inv D ls (cl S) av' i c l Hon Hrc Hco Hpo) as Hci.
  destruct (frame_ c) eqn:Ef; try done.
  - rewrite Hw. f_equal. by eapply (inv_send_in_flight D _ _ _ Hci).
  - rewrite Hr. f_equal. by eapply (inv_recv_in_flight D _ _ _ Hci).
Qed.

End system.

(** ** A concrete run *)

#[local] Existing Instance demo_errors.

(** A ring of four entries, the wake-up read submitted. *)
Definition demo_loop : @U.IoUringLoop ListRing.list_uring :=
  U.mkIoUringLoop (ListRing.mkLring 4 [mkSqe (ReadFd 7) 1] eq_refl : @ring ListRing.list_uring) [] ∅ 3 [] 1 7 1 (mkTimespec 10 0).

Lemma idle_loop : idle demo_loop.
Proof.
  split; [split; simpl; try lia; constructor|]. split; [reflexivity|]. vm_compute. repeat constructor.
Qed.

Definition demo_S0 : @sys list_ring ListRing.list_uring := mkSys demo_loop (mkLoop demo_m ∅) [].

(** Two connections are established; the receive of the second is deferred by the
    low-water mark and drained into the ring later.  Data arrives for the first, its
    echo is submitted and completed; the peer of the second closes. *)
Definition system_run : list sys_event :=
  [SEstablish 0 5 64 16 64 (echo 3); SEstablish 1 6 64 16 64 (echo 3); SSubmit; SDrain; SSubmit;
   SOn 0 (ReadDone 3 (flags_of 0 true) [x61; x62; x63]); SSubmit; SOn 0 (WriteDone 3); SOn 1 (ReadDone 0 0 [])].
Definition conn_of (i : nat) (S : @sys list_ring ListRing.list_uring) : @TcpConnection list_ring :=
  default demo_c0 (conns (cl S) !! i).
Lemma conn_of_eq i S : bool_decide (is_Some (conns (cl S) !! i)) = true -> conns (cl S) !! i = Some (conn_of i S).
Proof. intros H. apply bool_decide_eq_true in H as [c Hc]. unfold conn_of. by rewrite Hc. Qed.

Lemma system_demo_valid : svalid_run (A := first_fit) 4 demo_S0 system_run.
Proof.
  do 2 (apply throughout_cons; [split_and!; try done; apply (echo_polite 3) | vm_compute; reflexivity|]).
  do 3 (apply throughout_cons; [exact I | vm_compute; reflexivity|]).
  apply throughout_cons; [|vm_compute; reflexivity|].
  { eexists. split; [apply conn_of_eq; vm_compute; reflexivity|]. split; [|apply Nat.ltb_lt; vm_compute; reflexivity].
    split; [reflexivity|]. split; [vm_compute; discriminate|]. split; [reflexivity|]. exists 0, [1].
    split; vm_compute; reflexivity. }
  apply throughout_cons; [exact I | vm_compute; reflexivity|].
  apply throughout_cons; [|vm_compute; reflexivity|].
  { eexists. split; [apply conn_of_eq; vm_compute; reflexivity|]. split; [|apply Nat.ltb_lt; vm_compute; reflexivity].
    right. split; [lia|]. intros bs Hbs. vm_compute in Hbs. injection Hbs as <-. vm_compute. discriminate. }
  apply throughout_cons; [|vm_compute; reflexivity | exact I].
  eexists. split; [apply conn_of_eq; vm_compute; reflexivity|]. split; [reflexivity|].
  apply Nat.ltb_lt. vm_compute. reflexivity.
Qed.

Lemma system_demo_calm : scalm_run (A := first_fit) demo_S0 system_run.
Proof.
  do 7 (apply throughout_cons; [exact I | vm_compute; reflexivity|]).
  apply throughout_cons; [left; lia | vm_compute; reflexivity|].
  apply throughout_cons; [exact I | vm_compute; reflexivity | exact I].
Qed.

Lemma system_safe_witness :
  exists S, ssteps (A := first_fit) system_run demo_S0 = Ok S /\ sinv 4 2 S.
Proof.
  exact (U.takes_all_ok _ _ U.demo_takes_all (system_safe (A := first_fit) 4 ltac:(lia) demo_loop demo_m [0; 1]%nat
    system_run idle_loop demo_m_ok system_demo_valid system_demo_calm)).
Defined.

Definition demo_S : @sys list_ring ListRing.list_uring := from_ok demo_S0 (ssteps (A := first_fit) system_run demo_S0).
Lemma demo_S_eq : ssteps (A := first_fit) system_run demo_S0 = Ok demo_S.
Proof. apply from_ok_eq. vm_compute. reflexivity. Qed.

Lemma system_keeps_account_witness :
  count (rd 0) (U.asked (uloop demo_S)) = (count (rd 0) (ended demo_S) + reads_in_flight (conn_of 0 demo_S))%nat /\
  count (wr 0) (ended demo_S) = 1%nat /\ reads_in_flight (conn_of 0 demo_S) = 1%nat.
Proof.
  destruct (system_keeps_account (A := first_fit) 4 ltac:(lia) demo_loop demo_m [0; 1]%nat system_run demo_S 0 (conn_of 0 demo_S)
              idle_loop demo_m_ok system_demo_valid system_demo_calm demo_S_eq) as (Hr & _ & _).
  - apply conn_of_eq. vm_compute. reflexivity.
  - split; [exact Hr|]. split; vm_compute; reflexivity.
Defined.

End LoopSystem.
