(* ===== verification/ThreadPool.v ===== *)
(** * The coroutine thread pool ([include/ThreadPool.h], [src/ThreadPool.cc])

    Coroutines are handed to worker threads through a bounded queue.  The workers
    and the threads that enqueue interleave: an event is one critical section or
    one step outside of it. *)

From S2P Require Import Prelude.

Module ThreadPool.

(** A worker of the constructor's loop: blocked in [cv_.wait], taking a coroutine out
    of the queue, holding it with the mutex released, or past the end of its
    function. *)
Inductive Worker :=
  | Waiting
  | Popping
  | Popped (h : nat)
  | Exited.

(** Who changes [tasks_] under the mutex. *)
Inductive Holder :=
  | ByEnqueue (h : nat)
  | ByWorker (i : nat).

(** [passed]: coroutines between their [await_ready], which does not take the
    lock, and their [await_suspend].  [enqueued], [taken] and [resumed] are the
    histories of the coroutines handed over, taken out of the queue, and resumed. *)
Record ThreadPool := mkThreadPool {
  tasks_ : list nat;
  started_ : bool;
  max_size_ : Z;
  threads_ : list Worker;
  mtx_ : option Holder;
  passed : list nat;
  enqueued : list nat;
  taken : list nat;
  resumed : list nat
}.

Definition new_ThreadPool (thread_num : nat) (queue_size : Z) : ThreadPool :=
  mkThreadPool [] true queue_size (replicate thread_num Waiting) None [] [] [] [].

Definition set_mtx (m : option Holder) (p : ThreadPool) : ThreadPool :=
  mkThreadPool (tasks_ p) (started_ p) (max_size_ p) (threads_ p) m (passed p) (enqueued p) (taken p) (resumed p).
Definition set_passed (l : list nat) (p : ThreadPool) : ThreadPool :=
  mkThreadPool (tasks_ p) (started_ p) (max_size_ p) (threads_ p) (mtx_ p) l (enqueued p) (taken p) (resumed p).
Definition set_worker (i : nat) (w : Worker) (p : ThreadPool) : ThreadPool :=
  mkThreadPool (tasks_ p) (started_ p) (max_size_ p) (<[i := w]> (threads_ p)) (mtx_ p) (passed p) (enqueued p) (taken p)
    (resumed p).

(** [enqueue]: it takes the mutex; the end of its critical section is [unlock]. *)
Definition enqueue (h : nat) (p : ThreadPool) : option ThreadPool :=
  match mtx_ p with
  | None => Some (set_mtx (Some (ByEnqueue h)) p)
  | Some _ => None
  end.
Definition emplace (h : nat) (p : ThreadPool) : ThreadPool :=
  mkThreadPool (tasks_ p ++ [h]) (started_ p) (max_size_ p) (threads_ p) None (passed p) (enqueued p ++ [h]) (taken p)
    (resumed p).

Definition stop (p : ThreadPool) : ThreadPool :=
  mkThreadPool (tasks_ p) false (max_size_ p) (threads_ p) (mtx_ p) (passed p) (enqueued p) (taken p) (resumed p).

(** [isFull] reads the size of the queue without the mutex: while another thread
    changes the queue this is a data race. *)
Definition isFull (p : ThreadPool) : result bool :=
  match mtx_ p with
  | None => Ok (max_size_ p <=? zlen (tasks_ p))
  | Some _ => Fault UndefinedBehaviour
  end.

(** [co_await pool.switchThread()]: [await_ready] refuses when the queue is full
    (the coroutine goes on at once and [await_resume] returns [success_], false);
    otherwise [await_suspend] enqueues the coroutine. *)
Record SwitchThreadAwaiter := mkAwaiter { success_ : bool }.
Definition new_SwitchThreadAwaiter : SwitchThreadAwaiter := mkAwaiter true.
Definition switchThread : SwitchThreadAwaiter := new_SwitchThreadAwaiter.
Definition await_ready (a : SwitchThreadAwaiter) (p : ThreadPool) : result (bool * SwitchThreadAwaiter) :=
  full ← isFull p;
  Ok (if (full : bool) then (true, mkAwaiter false) else (false, a)).
Definition await_suspend (h : nat) (p : ThreadPool) : option ThreadPool := enqueue h p.
Definition await_resume (a : SwitchThreadAwaiter) : bool := success_ a.

(** The function of worker [i]: it leaves the wait with the mutex, and returns or
    takes a coroutine out of the queue; it resumes the coroutine after it has released
    the mutex. *)
Definition worker_step (i : nat) (p : ThreadPool) : option ThreadPool :=
  match threads_ p !! i with
  | Some Waiting =>
      match mtx_ p with
      | Some _ => None
      | None =>
          if started_ p && bool_decide (tasks_ p = []) then None
          else if negb (started_ p) && bool_decide (tasks_ p = []) then Some (set_worker i Exited p)
          else Some (set_worker i Popping (set_mtx (Some (ByWorker i)) p))
      end
  | Some Popping =>
      match tasks_ p with
      | h :: ts =>
          Some (set_worker i (Popped h)
            (mkThreadPool ts (started_ p) (max_size_ p) (threads_ p) None (passed p) (enqueued p) (taken p ++ [h])
               (resumed p)))
      | [] => None
      end
  | Some (Popped h) =>
      Some (set_worker i Exited
        (mkThreadPool (tasks_ p) (started_ p) (max_size_ p) (threads_ p) (mtx_ p) (passed p) (enqueued p) (taken p)
           (resumed p ++ [h])))
  | _ => None
  end.

Inductive event :=
  | Switch (h : nat)      (** [await_ready] *)
  | Suspend (j : nat)     (** [await_suspend] of one of those that checked *)
  | Unlock                (** the end of the critical section of [enqueue] *)
  | Step (i : nat)
  | Stop.

(** The coroutines inside [switchThread]. *)
Definition switching (p : ThreadPool) : nat :=
  (length (passed p) + match mtx_ p with Some (ByEnqueue _) => 1 | _ => 0 end)%nat.

(** [k] bounds the coroutines that can be inside [switchThread] at once (the
    number of threads that run coroutines). *)
Definition step (k : nat) (e : event) (p : ThreadPool) : option (result ThreadPool) :=
  match e with
  | Switch h =>
      if (switching p <? k)%nat
      then Some ('(ready, _) ← await_ready switchThread p;
                 Ok (if (ready : bool) then p else set_passed (passed p ++ [h]) p))
      else None
  | Suspend j =>
      h ← passed p !! j;
      p ← await_suspend h (set_passed (delete j (passed p)) p);
      Some (Ok p)
  | Unlock =>
      match mtx_ p with
      | Some (ByEnqueue h) => Some (Ok (emplace h p))
      | _ => None
      end
  | Step i => p ← worker_step i p; Some (Ok p)
  | Stop => Some (Ok (stop p))
  end.

Inductive reachable (n k : nat) (m : Z) : ThreadPool -> Prop :=
  | reachable_init : reachable n k m (new_ThreadPool n m)
  | reachable_step e p p' : reachable n k m p -> step k e p = Some (Ok p') -> reachable n k m p'.

(** ** Invariants *)

#[global] Instance Worker_eq_dec : EqDecision Worker.
Proof. solve_decision. Defined.

(** The coroutine a worker holds; the workers that can still take one. *)
Definition held (w : Worker) : list nat := match w with Popped h => [h] | _ => [] end.
Definition ready (w : Worker) : nat := match w with Waiting | Popping => 1 | _ => 0 end.
Definition holds (l : list Worker) : list nat := l ≫= held.
Definition idle (l : list Worker) : nat := sum_list_with ready l.

Lemma idle_insert l i w w' :
  l !! i = Some w -> (idle (<[i := w']> l) + ready w = idle l + ready w')%nat.
Proof.
  intros Hi. unfold idle. rewrite <- (take_drop_middle l i w Hi) at 2.
  rewrite insert_take_drop by (by eapply lookup_lt_Some). rewrite !sum_list_with_app. simpl. lia.
Qed.

Lemma holds_insert l i w w' :
  l !! i = Some w -> holds (<[i := w']> l) ++ held w ≡ₚ holds l ++ held w'.
Proof.
  intros Hi. unfold holds. rewrite <- (take_drop_middle l i w Hi) at 2.
  rewrite insert_take_drop by (by eapply lookup_lt_Some). rewrite !bind_app, !bind_cons. solve_Permutation.
Qed.

Record inv (n k : nat) (m : Z) (p : ThreadPool) : Prop := {
  inv_fifo : taken p ++ tasks_ p = enqueued p;
  inv_once : resumed p ++ holds (threads_ p) ≡ₚ taken p;
  inv_workers : (length (taken p) + idle (threads_ p) <= n)%nat;
  inv_max : max_size_ p = m;
  inv_bound : zlen (tasks_ p) + Z.of_nat (switching p) <= Z.max 0 (m - 1 + Z.of_nat k)
}.

Lemma pool_init_inv n k m : inv n k m (new_ThreadPool n m).
Proof.
  split; simpl; try done; [| |unfold zlen, switching; simpl; lia].
  - unfold holds. by induction n.
  - unfold idle. induction n; simpl; lia.
Qed.

Lemma worker_inv n k m i p p' : inv n k m p -> worker_step i p = Some p' -> inv n k m p'.
Proof.
  intros [Hf Ho Hw Hm Hb] Hs. unfold worker_step in Hs. destruct (threads_ p !! i) as [w|] eqn:Hi; [|done].
  pose proof (fun w' => idle_insert _ _ _ w' Hi) as Hid. pose proof (fun w' => holds_insert _ _ _ w' Hi) as Hho.
  destruct w as [| |h|]; [| | |done].
  - specialize (Hid Popping) as Hid1. specialize (Hho Popping) as Hho1.
    specialize (Hid Exited). specialize (Hho Exited). simpl in *. rewrite !app_nil_r in Hho, Hho1.
    destruct (mtx_ p) eqn:Em; [done|]. destruct (_ && _); [done|].
    destruct (_ && _); simplify_eq; unfold switching in *; rewrite Em in Hb; split; unfold switching; simpl; rewrite ?Em, ?Hho, ?Hho1; done || lia.
  - destruct (tasks_ p) as [|h ts] eqn:Et; [done|]. simplify_eq. specialize (Hid (Popped h)). specialize (Hho (Popped h)).
    simpl in *. rewrite app_nil_r in Hho. rewrite zlen_cons in Hb. unfold switching in *. split; unfold switching; simpl; try done.
    + rewrite <- app_assoc. simpl. done.
    + rewrite Hho, app_assoc, Ho. done.
    + rewrite length_app. simpl. lia.
    + destruct (mtx_ p) as [[]|]; simpl in *; lia.
  - simplify_eq. specialize (Hid Exited). specialize (Hho Exited). simpl in *. rewrite app_nil_r in Hho.
    split; unfold switching; simpl; try done; [|lia]. rewrite <- Ho, <- Hho. solve_Permutation.
Qed.

Lemma pool_step_inv n k m e p p' : inv n k m p -> step k e p = Some (Ok p') -> inv n k m p'.
Proof.
  intros H Hs. destruct e as [h|j| |i|]; simpl in Hs.
  - destruct (Nat.ltb_spec (switching p) k) as [Hk|]; [|done]. unfold await_ready, isFull in Hs.
    destruct (mtx_ p) eqn:Em; [done|]. simpl in Hs.
    destruct (Z.leb_spec (max_size_ p) (zlen (tasks_ p))) as [|Hlt]; simpl in Hs; simplify_eq; [done|].
    destruct H as [Hf Ho Hw Hm Hb]. unfold switching in *. rewrite Em in Hb, Hk. split; unfold switching; simpl; try done. rewrite Em, length_app.
    simpl. lia.
  - destruct (passed p !! j) as [h|] eqn:Ep; [|done]. unfold await_suspend, enqueue in Hs. simpl in Hs.
    destruct (mtx_ p) eqn:Em; [done|]. simpl in Hs. simplify_eq. destruct H as [Hf Ho Hw Hm Hb]. unfold switching in *.
    rewrite Em in Hb. split; unfold switching; simpl; try done. pose proof (lookup_lt_Some _ _ _ Ep). rewrite length_delete by done. lia.
  - destruct (mtx_ p) as [[h|]|] eqn:Em; [|done|done]. simplify_eq. destruct H as [Hf Ho Hw Hm Hb]. unfold switching in *.
    rewrite Em in Hb. split; unfold switching; simpl; try done; [by rewrite app_assoc, Hf|]. rewrite zlen_app. unfold zlen in *. simpl. lia.
  - destruct (worker_step i p) as [q|] eqn:E; [|done]. simpl in Hs. simplify_eq. by eapply worker_inv.
  - simplify_eq. destruct H. by split.
Qed.

Lemma pool_reachable_inv n k m p : reachable n k m p -> inv n k m p.
Proof. induction 1; [apply pool_init_inv | eauto using pool_step_inv]. Qed.

(** ** Properties *)

(** C36. Up to a data race in [isFull]: coroutines are taken out of the queue in the order
    in which they were handed over; each one taken is held by one worker, which has
    not yet resumed it, or was resumed once, and nothing else is resumed; the queue
    holds fewer than [max_size_] coroutines and as many more as there are threads
    that can be in [switchThread] at once.  A pool of [n] threads takes at most [n]
    coroutines in its life (the function of a worker has no loop). *)
Theorem pool_fifo_and_bounded n k m p :
  reachable n k m p ->
  taken p ++ tasks_ p = enqueued p /\ resumed p ++ holds (threads_ p) ≡ₚ taken p /\
  zlen (tasks_ p) <= Z.max 0 (m - 1 + Z.of_nat k) /\ (length (taken p) <= n)%nat.
Proof.
  intros H. destruct (pool_reachable_inv _ _ _ _ H) as [? ? ? _ ?]. split_and!; try done; lia.
Qed.

(** A worker takes at most one coroutine in its life: all that the pool accepted
    beyond the number of its threads stay in the queue for good. *)
Theorem pool_runs_at_most_one_task_per_thread n k m p :
  reachable n k m p ->
  (length (resumed p) <= n)%nat /\ (length (enqueued p) - n <= length (tasks_ p))%nat.
Proof.
  intros H. destruct (pool_reachable_inv _ _ _ _ H) as [Hf Ho Hw _ _]. apply Permutation_length in Ho.
  rewrite length_app in Ho. rewrite <- Hf, length_app. lia.
Qed.

(** ** Witnesses *)

Fixpoint run (k : nat) (es : list event) (p : ThreadPool) : option ThreadPool :=
  match es with
  | [] => Some p
  | e :: es => match step k e p with Some (Ok p) => run k es p | _ => None end
  end.
Lemma pool_run_reachable n k m es : forall p p', reachable n k m p -> run k es p = Some p' -> reachable n k m p'.
Proof.
  induction es as [|e es IH]; intros p p' Hp Hr; simpl in Hr; [by simplify_eq|].
  destruct (step k e p) as [[q|]|] eqn:E; [|done|done]. eapply IH; [|exact Hr]. by eapply reachable_step.
Qed.

(** Two coroutines are handed over; the worker of a pool with one thread takes and
    resumes the first. *)
Definition demo_events : list event :=
  [Switch 7; Suspend 0; Unlock; Step 0; Step 0; Step 0; Switch 8; Suspend 0; Unlock].
Definition demo_pool : ThreadPool := mkThreadPool [8%nat] true 4 [Exited] None [] [7%nat; 8%nat] [7%nat] [7%nat].
Lemma demo_pool_reachable : reachable 1 1 4 demo_pool.
Proof. apply (pool_run_reachable 1 1 4 demo_events (new_ThreadPool 1 4)); [constructor | vm_compute; reflexivity]. Qed.

Lemma pool_fifo_and_bounded_witness : taken demo_pool ++ tasks_ demo_pool = [7%nat; 8%nat].
Proof. apply (pool_fifo_and_bounded 1 1 4 demo_pool). exact demo_pool_reachable. Defined.

Lemma pool_runs_at_most_one_task_per_thread_witness : (length (resumed demo_pool) <= 1)%nat.
Proof. apply (pool_runs_at_most_one_task_per_thread 1 1 4 demo_pool). exact demo_pool_reachable. Defined.

(** [isFull] races with [enqueue], and two workers can resume their coroutines in
    the other order. *)
Lemma isFull_races :
  (exists p, reachable 1 2 4 p /\ step 2 (Switch 9) p = Some (Fault UndefinedBehaviour)) /\
  (exists p, reachable 2 2 4 p /\ taken p = [7; 8]%nat /\ resumed p = [8; 7]%nat).
Proof.
  split; eexists.
  - split; [eapply (pool_run_reachable 1 2 4 [Switch 7; Suspend 0] (new_ThreadPool 1 4)); [constructor | vm_compute; reflexivity]|].
    reflexivity.
  - split; [|split]; [eapply (pool_run_reachable 2 2 4 [Switch 7; Suspend 0; Unlock; Switch 8; Suspend 0; Unlock; Step 0; Step 0; Step 1; Step 1;
      Step 1; Step 0] (new_ThreadPool 2 4)); [constructor | vm_compute; reflexivity]|reflexivity|reflexivity].
Qed.

End ThreadPool.

(** ** The destructor

    The end of a pool whose queue is empty, with the wait of the workers in its
    parts: a worker looks at [started_] under the mutex, and goes to sleep in a
    later step; the destructor stores [started_] and notifies without the mutex. *)

Module ThreadPoolShutdown.

Inductive Worker :=
  | AtPredicate   (** has the mutex, or waits for it *)
  | Deciding      (** the predicate was false; not asleep yet *)
  | Asleep
  | Ended.
Inductive Owner :=
  | InUse
  | Stopping      (** after [stop()] *)
  | Joining       (** after [notify_all()] *)
  | Gone.
#[global] Instance shutdown_Worker_eq_dec : EqDecision Worker.
Proof. solve_decision. Defined.

Record st := mkSt {
  started_ : bool;
  threads_ : list Worker;
  owner : Owner
}.

Definition new_pool (n : nat) : st := mkSt true (replicate n AtPredicate) InUse.

(** One step of a worker: the lambda of the constructor on an empty queue. *)
Definition worker_step (i : nat) (s : st) : option st :=
  match threads_ s !! i with
  | Some AtPredicate =>
      if bool_decide (Deciding ∈ threads_ s) then None
      else Some (mkSt (started_ s) (<[i := if started_ s then Deciding else Ended]> (threads_ s)) (owner s))
  | Some Deciding => Some (mkSt (started_ s) (<[i := Asleep]> (threads_ s)) (owner s))
  | _ => None
  end.

Definition wake (w : Worker) : Worker := match w with Asleep => AtPredicate | _ => w end.

(** [~ThreadPool] *)
Definition destroy_step (s : st) : option st :=
  match owner s with
  | InUse => Some (mkSt false (threads_ s) Stopping)
  | Stopping => Some (mkSt (started_ s) (wake <$> threads_ s) Joining)
  | Joining =>
      if bool_decide (Forall (fun w => w = Ended) (threads_ s)) then Some (mkSt (started_ s) (threads_ s) Gone) else None
  | Gone => None
  end.

Inductive event := WorkerStep (i : nat) | OwnerStep.
Definition step (e : event) (s : st) : option st :=
  match e with
  | WorkerStep i => worker_step i s
  | OwnerStep => destroy_step s
  end.
Fixpoint run (es : list event) (s : st) : option st :=
  match es with
  | [] => Some s
  | e :: es => s ← step e s; run es s
  end.

(** Workers that sleep when the destructor begins are all woken, and it returns: what
    is left to do gets less with every step, and there is always a step. *)
Definition todo (s : st) : nat :=
  (match owner s with InUse => 3 | Stopping => 2 | Joining => 1 | Gone => 0 end + length (filter (fun w => w <> Ended) (threads_ s)))%nat.

Definition ending (s : st) : Prop :=
  match owner s with
  | InUse => Forall (fun w => w = Asleep \/ w = Ended) (threads_ s)
  | Stopping => started_ s = false /\ Forall (fun w => w = Asleep \/ w = Ended) (threads_ s)
  | Joining => started_ s = false /\ Forall (fun w => w = AtPredicate \/ w = Ended) (threads_ s)
  | Gone => True
  end.

Lemma ending_owner s : ending s -> owner s = InUse \/ owner s = Stopping -> forall i, worker_step i s = None.
Proof.
  intros He Ho i. unfold worker_step. destruct (threads_ s !! i) as [w|] eqn:Hw; [|done].
  assert (Hf : Forall (fun w => w = Asleep \/ w = Ended) (threads_ s)).
  { unfold ending in He. by destruct Ho as [Ho|Ho]; rewrite Ho in He; [|destruct He]. }
  by destruct (Forall_lookup_1 _ _ _ _ Hf Hw) as [-> | ->].
Qed.

Lemma filter_alive_insert l i :
  l !! i = Some AtPredicate ->
  length (filter (fun w => w <> Ended) l) = S (length (filter (fun w => w <> Ended) (<[i := Ended]> l))).
Proof.
  revert i. induction l as [|w l IH]; intros i Hi; [done|]. destruct i as [|i]; simpl in Hi |- *.
  - simplify_eq. rewrite !filter_cons, decide_True, decide_False by (done || by intros []). done.
  - rewrite !filter_cons. case_decide; simpl; by rewrite (IH i Hi).
Qed.

Theorem destructor_returns s e s' :
  ending s -> owner s <> Gone ->
  (exists e s', step e s = Some s') /\ (step e s = Some s' -> ending s' /\ todo s' < todo s)%nat.
Proof.
  intros He Ho. unfold ending in He. split.
  - destruct (owner s) eqn:Eo; [by eexists OwnerStep, _; simpl; unfold destroy_step; rewrite Eo..| |done].
    destruct He as [Hst Hf]. destruct (decide (Forall (fun w => w = Ended) (threads_ s))) as [Ha|Hn].
    + exists OwnerStep. simpl. unfold destroy_step. rewrite Eo, bool_decide_eq_true_2 by done. by eexists.
    + assert (Hx : Exists (fun w => w <> Ended) (threads_ s)).
      { apply not_Forall_Exists in Hn; [done|]. intros w. apply _. }
      apply Exists_exists in Hx as (w & Hin & Hw). apply list_elem_of_lookup in Hin as [i Hi].
      destruct (Forall_lookup_1 _ _ _ _ Hf Hi) as [->|]; [|done]. exists (WorkerStep i). simpl. unfold worker_step.
      rewrite Hi, bool_decide_eq_false_2; [by eexists|]. intros Hd. apply list_elem_of_lookup in Hd as [j Hj].
      by destruct (Forall_lookup_1 _ _ _ _ Hf Hj).
  - destruct e as [i|]; simpl; intros Hs.
    + destruct (owner s) eqn:Eo; [by rewrite (ending_owner s) in Hs; [| unfold ending; rewrite Eo | left]
        | by rewrite (ending_owner s) in Hs; [| unfold ending; rewrite Eo | right] | |done].
      destruct He as [Hst Hf]. unfold worker_step in Hs. destruct (threads_ s !! i) as [w|] eqn:Hi; [|done].
      destruct (Forall_lookup_1 _ _ _ _ Hf Hi) as [-> | ->]; [|done].
      destruct (bool_decide _); [done|]. rewrite Hst in Hs. simplify_eq. unfold ending, todo. simpl. rewrite Eo. split.
      * split; [done|]. apply Forall_insert; [done|by right].
      * rewrite (filter_alive_insert _ _ Hi). lia.
    + unfold destroy_step in Hs. unfold ending, todo. destruct (owner s) eqn:Eo; simplify_eq/=; try done.
      * split; [done|lia].
      * destruct He as [Hst Hf]. split.
        -- split; [done|]. apply Forall_fmap. eapply Forall_impl; [exact Hf|]. simpl. intros w [-> | ->]; [by left|by right].
        -- enough (length (filter (fun w => w <> Ended) (wake <$> threads_ s)) = length (filter (fun w => w <> Ended) (threads_ s))) as -> by lia.
           clear. induction (threads_ s) as [|w l IH]; [done|]. rewrite fmap_cons, !filter_cons.
           destruct w; simpl; rewrite ?decide_True, ?decide_False by (done || by intros []); simpl; by rewrite ?IH.
      * destruct (bool_decide _) eqn:Eb; simplify_eq/=. split; [done|lia].
Qed.

(** The destructor can hang: its notification comes when a worker has looked at
    [started_] and is not asleep yet; the worker then sleeps for ever and the
    destructor waits for it. *)
Theorem destructor_can_hang :
  exists s, run [WorkerStep 0; OwnerStep; OwnerStep; WorkerStep 0] (new_pool 1) = Some s /\
    owner s = Joining /\ threads_ s = [Asleep] /\ forall e, step e s = None.
Proof.
  eexists. split; [reflexivity|]. split; [reflexivity|]. split; [reflexivity|].
  intros e. destruct e as [[|[|i]]|]; reflexivity.
Qed.

End ThreadPoolShutdown.
