(* ===== verification/Text.v ===== *)
(** * Text

    A C string is the list of its character codes; [snprintf] of decimal numbers. *)

From S2P Require Import Prelude.

Abbreviation text := (list Z) (only parsing).

Module Text.

(** The decimal digits of a number below [10 ^ fuel]. *)
Fixpoint digits (fuel : nat) (n : Z) : text :=
  match fuel with
  | O => []
  | S f => if n <? 10 then [48 + n] else digits f (n / 10) ++ [48 + n mod 10]
  end.

(** [%d] of an [int] (ten digits are enough for 32 bits). *)
Definition decimal (n : Z) : text := if n <? 0 then 45 :: digits 10 (- n) else digits 10 n.

(** [snprintf] into a buffer of [size] bytes keeps [size - 1] characters. *)
Definition snprintf (size : Z) (s : text) : text := ztake (size - 1) s.

Definition parse (s : text) : Z := fold_left (fun acc c => 10 * acc + (c - 48)) s 0.

Lemma parse_digits fuel : forall n, 0 <= n < 10 ^ Z.of_nat fuel -> parse (digits fuel n) = n.
Proof.
  induction fuel as [|f IH]; intros n Hn; [simpl in *; unfold parse; simpl; lia|].
  rewrite Nat2Z.inj_succ, Z.pow_succ_r in Hn by lia.
  simpl. destruct (Z.ltb_spec n 10) as [|Hge]; [unfold parse; simpl; lia|].
  unfold parse. rewrite fold_left_app. simpl.
  assert (Hd : 0 <= n / 10 < 10 ^ Z.of_nat f).
  { split; [apply Z.div_pos; lia | apply Z.div_lt_upper_bound; lia]. }
  fold (parse (digits f (n / 10))). rewrite (IH _ Hd). pose proof (Z.div_mod n 10). lia.
Qed.

Lemma length_digits fuel : forall n, (length (digits fuel n) <= fuel)%nat.
Proof.
  induction fuel as [|f IH]; intros n; [done|]. simpl. case_match; simpl; [lia|].
  rewrite length_app. simpl. specialize (IH (n / 10)). lia.
Qed.

Lemma length_digits_small k : forall fuel n, 0 <= n < 10 ^ Z.of_nat k -> (k <> 0)%nat -> (length (digits fuel n) <= k)%nat.
Proof.
  induction k as [|k IH]; intros fuel n Hn Hk; [done|]. destruct fuel as [|f]; simpl; [lia|].
  destruct (Z.ltb_spec n 10) as [|Hge]; [simpl; lia|]. rewrite length_app. simpl.
  rewrite Nat2Z.inj_succ, Z.pow_succ_r in Hn by lia.
  assert (k <> 0%nat) by (intros ->; simpl in Hn; lia).
  assert (0 <= n / 10 < 10 ^ Z.of_nat k).
  { split; [apply Z.div_pos; lia | apply Z.div_lt_upper_bound; lia]. }
  specialize (IH f (n / 10)). lia.
Qed.

Lemma decimal_inj n m : 0 <= n < 10 ^ 10 -> 0 <= m < 10 ^ 10 -> decimal n = decimal m -> n = m.
Proof.
  intros Hn Hm. unfold decimal. rewrite !(proj2 (Z.ltb_ge _ _)) by lia. intros E.
  rewrite <- (parse_digits 10 n), <- (parse_digits 10 m) by exact Hn || exact Hm. by rewrite E.
Qed.
End Text.
