(* ===== verification/InetAddress.v ===== *)
(** * Internet addresses ([src/InetAddress.cc])

    An IPv4 address with its port, made of a port and a text or of the
    [sockaddr_in] the kernel filled in, and printed. *)

From S2P Require Import Prelude Text.

Module InetAddress.

(** [sockaddr_in]: the address as the bytes in memory, the port as the 16-bit
    number that is read from memory (in network order). *)
Record sockaddr_in := mk { s_addr : list Z; sin_port : Z }.
(** The only member of an [InetAddress] is its [addr_]. *)
Definition InetAddress : Type := sockaddr_in.

Definition htons (p : Z) : Z := Z.lor (Z.shiftl (Z.land p 255) 8) (Z.land (Z.shiftr p 8) 255).
Abbreviation ntohs := htons (only parsing).

Definition inet_ntop (a : list Z) : text :=
  match a with
  | [a; b; c; d] => Text.decimal a ++ 46 :: Text.decimal b ++ 46 :: Text.decimal c ++ 46 :: Text.decimal d
  | _ => []
  end.

(** [addr] is what [inet_addr] makes of the text. *)
Definition new_InetAddress (port : Z) (addr : list Z) : InetAddress := mk addr (htons port).

(** [InetAddress(const sockaddr_in&)], [setSockAddr] and [getSockAddr]. *)
Definition from_sockaddr (addr : sockaddr_in) : InetAddress := addr.
Definition setSockAddr (addr : sockaddr_in) (a : InetAddress) : InetAddress := addr.
Definition getSockAddr (a : InetAddress) : sockaddr_in := a.

Definition toIp (a : InetAddress) : text := inet_ntop (s_addr a).
Definition toIpPort (a : InetAddress) : text :=
  let buf := inet_ntop (s_addr a) in
  buf ++ Text.snprintf (64 - zlen buf) (58 :: Text.decimal (ntohs (sin_port a))).
Definition toPort (a : InetAddress) : Z := ntohs (sin_port a).

Definition wf (a : InetAddress) : Prop :=
  length (s_addr a) = 4%nat /\ Forall (fun b => 0 <= b < 256) (s_addr a) /\ 0 <= sin_port a < 65536.

(** Joining a high part and a low byte. *)
Lemma lor_byte a b : 0 <= b < 256 -> Z.lor (Z.shiftl a 8) b = 256 * a + b.
Proof.
  intros Hb. assert (Hz : Z.land (Z.shiftl a 8) b = 0).
  { apply Z.bits_inj'. intros i Hi. rewrite Z.land_spec, Z.testbit_0_l.
    destruct (Z.ltb_spec i 8); [by rewrite Z.shiftl_spec_low|].
    destruct (Z.eq_dec b 0) as [->|]; [by rewrite Z.testbit_0_l, andb_false_r|].
    rewrite (Z.bits_above_log2 b i), andb_false_r; [done|lia|].
    apply Z.log2_lt_pow2; [lia|]. apply Z.lt_le_trans with (2 ^ 8); [lia | apply Z.pow_le_mono_r; lia]. }
  pose proof (Z.add_lor_land (Z.shiftl a 8) b) as E. rewrite Hz, Z.shiftl_mul_pow2 in E by lia.
  rewrite Z.shiftl_mul_pow2 by lia. change (2 ^ 8) with 256 in *. lia.
Qed.

Lemma htons_bytes p : htons p = 256 * (p mod 256) + (p / 256) mod 256.
Proof.
  unfold htons. change 255 with (Z.ones 8). rewrite !Z.land_ones, Z.shiftr_div_pow2 by lia.
  change (2 ^ 8) with 256. apply lor_byte. apply Z.mod_pos_bound. lia.
Qed.

Lemma htons_range p : 0 <= htons p < 65536.
Proof.
  rewrite htons_bytes. pose proof (Z.mod_pos_bound p 256). pose proof (Z.mod_pos_bound (p / 256) 256). lia.
Qed.

Lemma htons_involutive p : 0 <= p < 65536 -> ntohs (htons p) = p.
Proof.
  intros Hp. rewrite (htons_bytes (htons p)), (htons_bytes p).
  set (h := (p / 256) mod 256). set (l := p mod 256).
  assert (0 <= h < 256) by (apply Z.mod_pos_bound; lia).
  assert ((256 * l + h) / 256 = l) as -> by (symmetry; apply (Z.div_unique _ _ _ h); lia).
  assert ((256 * l + h) mod 256 = h) as -> by (symmetry; apply (Z.mod_unique _ _ l); lia).
  unfold h, l. rewrite Z.mod_mod by lia.
  rewrite (Z.mod_small (p / 256)) by (split; [apply Z.div_pos | apply Z.div_lt_upper_bound]; lia).
  pose proof (Z.div_mod p 256). lia.
Qed.

Lemma length_decimal n k : 0 <= n < 10 ^ Z.of_nat k -> (k <> 0)%nat -> zlen (Text.decimal n) <= Z.of_nat k.
Proof.
  intros Hn Hk. unfold Text.decimal, zlen. rewrite (proj2 (Z.ltb_ge n 0)) by lia.
  pose proof (Text.length_digits_small k 10 n Hn Hk). lia.
Qed.

Lemma inet_ntop_length a :
  length a = 4%nat -> Forall (fun b => 0 <= b < 256) a -> zlen (inet_ntop a) <= 15.
Proof.
  intros Hl Ha. destruct a as [|w [|x [|y [|z [|]]]]]; try done. rewrite !Forall_cons in Ha. destruct_and! Ha.
  unfold inet_ntop. rewrite !zlen_app, !zlen_cons, !zlen_app, !zlen_cons, zlen_app, zlen_cons.
  repeat match goal with |- context [Text.decimal ?v] =>
    lazymatch goal with
    | _ : zlen (Text.decimal v) <= 3 |- _ => fail
    | _ => assert (zlen (Text.decimal v) <= 3) by (apply (length_decimal v 3); [simpl; lia | done])
    end end. lia.
Qed.

(** The buffers are large enough. *)
Lemma toIpPort_eq a :
  wf a -> toIpPort a = toIp a ++ 58 :: Text.decimal (toPort a) /\ zlen (toIpPort a) <= 21.
Proof.
  intros (Hl & Hb & Hp). pose proof (inet_ntop_length _ Hl Hb) as Hn.
  pose proof (htons_range (sin_port a)) as Hr.
  assert (Hd : zlen (Text.decimal (ntohs (sin_port a))) <= 5) by (apply (length_decimal _ 5); [simpl; lia | done]).
  unfold toIpPort, Text.snprintf. rewrite ztake_all by (rewrite zlen_cons; lia).
  split; [done|]. rewrite zlen_app, zlen_cons. lia.
Qed.

Lemma new_InetAddress_wf port addr :
  length addr = 4%nat -> Forall (fun b => 0 <= b < 256) addr -> wf (new_InetAddress port addr).
Proof. intros. split_and!; try done; apply htons_range. Qed.

(** C37. An address made of a port and an address text gives the port back, and
    its printed form is the dotted address, a colon and the port in decimal: the
    buffer of 64 bytes never cuts it. *)
Theorem address_roundtrip port addr :
  0 <= port < 65536 -> length addr = 4%nat -> Forall (fun b => 0 <= b < 256) addr ->
  let a := new_InetAddress port addr in
  toPort a = port /\ toIpPort a = toIp a ++ 58 :: Text.decimal port /\
  Text.parse (Text.decimal port) = port.
Proof.
  intros Hp Hl Hb a. assert (Ht : toPort a = port) by (by apply htons_involutive).
  split; [done|]. split.
  - rewrite <- Ht at 1. by apply toIpPort_eq, new_InetAddress_wf.
  - unfold Text.decimal. rewrite (proj2 (Z.ltb_ge port 0)) by lia. apply (Text.parse_digits 10). lia.
Qed.

Lemma address_roundtrip_witness : toPort (new_InetAddress 8080 [127; 0; 0; 1]) = 8080.
Proof. apply (address_roundtrip 8080 [127; 0; 0; 1]); [lia | done | repeat constructor; lia]. Defined.

End InetAddress.
