(* ===== verification/Socket.v ===== *)
(** * Sockets ([src/Socket.cc])

    A [Socket] owns a descriptor and closes it once.  Descriptors are small
    numbers that the kernel gives out again as soon as they are closed, so that
    closing one twice, or closing one of somebody else, closes a connection that
    was opened in between.  The system calls are the interface [SocketApi]. *)

From S2P Require Import Prelude Text InetAddress.

Module Socket.
Import InetAddress(InetAddress, sockaddr_in).

(** ** The kernel

    [file k fd] is the open file a descriptor refers to, [opened k] the files
    opened so far: a descriptor number is used again, a file is not. *)
Class SocketApi := {
  kernel : Type;
  file : kernel -> Z -> option nat;
  opened : kernel -> gset nat;
  sys_close : Z -> kernel -> Z * kernel;
  sys_listen : Z -> Z -> kernel -> Z * kernel;
  sys_bind : Z -> sockaddr_in -> kernel -> Z * kernel;
  sys_accept4 : Z -> Z -> kernel -> Z * sockaddr_in * kernel;
  sys_shutdown : Z -> Z -> kernel -> Z * kernel;
  sys_setsockopt : Z -> Z -> Z -> Z -> kernel -> Z * kernel;
  sys_open : kernel -> Z * kernel;   (** any other call that gives a descriptor *)
  file_opened k fd f : file k fd = Some f -> f ∈ opened k;
  close_law fd k : opened (sys_close fd k).2 = opened k /\
    forall fd', file (sys_close fd k).2 fd' = if decide (fd' = fd) then None else file k fd';
  listen_law fd n k : opened (sys_listen fd n k).2 = opened k /\ forall fd', file (sys_listen fd n k).2 fd' = file k fd';
  bind_law fd a k : opened (sys_bind fd a k).2 = opened k /\ forall fd', file (sys_bind fd a k).2 fd' = file k fd';
  shutdown_law fd h k :
    opened (sys_shutdown fd h k).2 = opened k /\ forall fd', file (sys_shutdown fd h k).2 fd' = file k fd';
  setsockopt_law fd l o v k :
    opened (sys_setsockopt fd l o v k).2 = opened k /\ forall fd', file (sys_setsockopt fd l o v k).2 fd' = file k fd';
  accept_error fd fl k : (sys_accept4 fd fl k).1.1 < 0 ->
    opened (sys_accept4 fd fl k).2 = opened k /\ forall fd', file (sys_accept4 fd fl k).2 fd' = file k fd';
  accept_law fd fl k : 0 <= (sys_accept4 fd fl k).1.1 ->
    file k (sys_accept4 fd fl k).1.1 = None /\
    exists f, f ∉ opened k /\ opened (sys_accept4 fd fl k).2 = {[f]} ∪ opened k /\
      forall fd', file (sys_accept4 fd fl k).2 fd' =
        if decide (fd' = (sys_accept4 fd fl k).1.1) then Some f else file k fd';
  open_law k : file k (sys_open k).1 = None /\
    exists f, f ∉ opened k /\ opened (sys_open k).2 = {[f]} ∪ opened k /\
      forall fd', file (sys_open k).2 fd' = if decide (fd' = (sys_open k).1) then Some f else file k fd'
}.

(** ** [Socket] *)

Record Socket := mkSocket {
  socketfd_ : Z;
  closed_ : bool
}.

Definition SHUT_WR := 1.
Definition IPPROTO_TCP := 6.
Definition TCP_NODELAY := 1.
Definition SOL_SOCKET := 1.
Definition SO_REUSEADDR := 2.
Definition SO_KEEPALIVE := 9.
Definition SO_REUSEPORT := 15.
Definition SOCK_NONBLOCK := 2048.
Definition SOCK_CLOEXEC := 524288.

Section socket.
Context `{SocketApi}.

Definition new_Socket (socketfd : Z) : Socket := mkSocket socketfd false.
Definition fd (so : Socket) : Z := socketfd_ so.

Definition close (so : Socket) (k : kernel) : Socket * kernel :=
  if closed_ so then (so, k)
  else (mkSocket (socketfd_ so) true, (sys_close (socketfd_ so) k).2).

(** [~Socket] *)
Definition destruct_Socket (so : Socket) (k : kernel) : kernel := (close so k).2.

Definition listen (so : Socket) (k : kernel) : result kernel :=
  let '(r, k) := sys_listen (socketfd_ so) (1024 * 16) k in
  if negb (r =? 0) then Fault FatalExit else Ok k.

Definition bindAddress (addr : InetAddress) (so : Socket) (k : kernel) : result kernel :=
  let '(r, k) := sys_bind (socketfd_ so) (InetAddress.getSockAddr addr) k in
  if r <? 0 then Fault FatalExit else Ok k.

Definition accept (peer_addr : InetAddress) (so : Socket) (k : kernel) : Z * InetAddress * kernel :=
  let '(connfd, addr, k) := sys_accept4 (socketfd_ so) (Z.lor SOCK_NONBLOCK SOCK_CLOEXEC) k in
  (connfd, if 0 <=? connfd then InetAddress.setSockAddr addr peer_addr else peer_addr, k).

(** An error is only logged. *)
Definition shutDownWrite (so : Socket) (k : kernel) : kernel := (sys_shutdown (socketfd_ so) SHUT_WR k).2.

Definition setTcpNoDelay (on : bool) (so : Socket) (k : kernel) : kernel :=
  let optval := if on then 1 else 0 in
  (sys_setsockopt (socketfd_ so) IPPROTO_TCP TCP_NODELAY optval k).2.
Definition setReuseAddr (on : bool) (so : Socket) (k : kernel) : kernel :=
  let optval := if on then 1 else 0 in
  (sys_setsockopt (socketfd_ so) SOL_SOCKET SO_REUSEADDR optval k).2.
Definition setReusePort (on : bool) (so : Socket) (k : kernel) : kernel :=
  let optval := if on then 1 else 0 in
  (sys_setsockopt (socketfd_ so) SOL_SOCKET SO_REUSEPORT optval k).2.
Definition setKeepAlive (on : bool) (so : Socket) (k : kernel) : kernel :=
  let optval := if on then 1 else 0 in
  (sys_setsockopt (socketfd_ so) SOL_SOCKET SO_KEEPALIVE optval k).2.

End socket.

(** ** A process with sockets

    Objects are known by a number.  Ghost parts: the file an object was made for,
    and the files that [Socket] objects closed ([None]: a close of a descriptor
    that was not open). *)
Record world (K : Type) := mkWorld {
  kern : K;
  sockets : gmap nat (Socket * nat);
  closes : list (option nat)
}.
Arguments mkWorld {K} _ _ _.
Arguments kern {K} w.
Arguments sockets {K} w.
Arguments closes {K} w.

Inductive op :=
  | New (x : nat) (fd : Z)
  | Close (x : nat)
  | Destruct (x : nat)
  | Listen (x : nat)
  | Bind (x : nat) (addr : InetAddress)
  | Accept (x : nat) (peer : InetAddress)
  | ShutDownWrite (x : nat)
  | SetTcpNoDelay (x : nat) (on : bool)
  | SetReuseAddr (x : nat) (on : bool)
  | SetReusePort (x : nat) (on : bool)
  | SetKeepAlive (x : nat) (on : bool)
  | OtherOpen.

Section process.
Context `{SocketApi}.

Definition set_kern (k : kernel) (w : world kernel) : world kernel := mkWorld k (sockets w) (closes w).

(** What [close] does to the ghost history. *)
Definition log_close (so : Socket) (w : world kernel) : list (option nat) :=
  if closed_ so then closes w else closes w ++ [file (kern w) (socketfd_ so)].

Definition step (o : op) (w : world kernel) : result (world kernel) :=
  let on x g := match sockets w !! x with
                | None => Fault Dangling
                | Some (so, f) => g so f
                end in
  match o with
  | New x fd =>
      match sockets w !! x, file (kern w) fd with
      | None, Some f => Ok (mkWorld (kern w) (<[x := (new_Socket fd, f)]> (sockets w)) (closes w))
      | _, _ => Fault UndefinedBehaviour
      end
  | Close x => on x (fun so f =>
      let '(so', k) := close so (kern w) in
      Ok (mkWorld k (<[x := (so', f)]> (sockets w)) (log_close so w)))
  | Destruct x => on x (fun so f =>
      Ok (mkWorld (destruct_Socket so (kern w)) (delete x (sockets w)) (log_close so w)))
  | Listen x => on x (fun so _ => k ← listen so (kern w); Ok (set_kern k w))
  | Bind x addr => on x (fun so _ => k ← bindAddress addr so (kern w); Ok (set_kern k w))
  | Accept x peer => on x (fun so _ => let '(_, _, k) := accept peer so (kern w) in Ok (set_kern k w))
  | ShutDownWrite x => on x (fun so _ => Ok (set_kern (shutDownWrite so (kern w)) w))
  | SetTcpNoDelay x b => on x (fun so _ => Ok (set_kern (setTcpNoDelay b so (kern w)) w))
  | SetReuseAddr x b => on x (fun so _ => Ok (set_kern (setReuseAddr b so (kern w)) w))
  | SetReusePort x b => on x (fun so _ => Ok (set_kern (setReusePort b so (kern w)) w))
  | SetKeepAlive x b => on x (fun so _ => Ok (set_kern (setKeepAlive b so (kern w)) w))
  | OtherOpen => Ok (set_kern (sys_open (kern w)).2 w)
  end.

Fixpoint run (os : list op) (w : world kernel) : result (world kernel) :=
  match os with
  | [] => Ok w
  | o :: os => w ← step o w; run os w
  end.

(** ** Each descriptor is closed once, by its owner *)

Definition single (k : kernel) : Prop := forall a b f, file k a = Some f -> file k b = Some f -> a = b.

Record inv (w : world kernel) : Prop := {
  inv_single : single (kern w);
  inv_own : forall x so f, sockets w !! x = Some (so, f) -> closed_ so = false -> file (kern w) (socketfd_ so) = Some f;
  inv_distinct : forall x y so so' f f', sockets w !! x = Some (so, f) -> sockets w !! y = Some (so', f') ->
    closed_ so = false -> closed_ so' = false -> socketfd_ so = socketfd_ so' -> x = y;
  inv_gone : forall f, Some f ∈ closes w -> f ∈ opened (kern w) /\ forall a, file (kern w) a <> Some f;
  inv_once : None ∉ closes w /\ NoDup (closes w);
  inv_done : forall x so f, sockets w !! x = Some (so, f) -> closed_ so = true -> Some f ∈ closes w
}.

(** A [Socket] is made for an open descriptor that no other one owns, and is used
    while it exists. *)
Definition enabled (o : op) (w : world kernel) : Prop :=
  match o with
  | New x fd => sockets w !! x = None /\ is_Some (file (kern w) fd) /\
      map_Forall (fun _ x => closed_ x.1 = false -> socketfd_ x.1 <> fd) (sockets w)
  | Close x | Destruct x | Listen x | Bind x _ | Accept x _ | ShutDownWrite x | SetTcpNoDelay x _ | SetReuseAddr x _
  | SetReusePort x _ | SetKeepAlive x _ => is_Some (sockets w !! x)
  | OtherOpen => True
  end.

Lemma inv_kern_same k w :
  inv w -> opened k = opened (kern w) /\ (forall a, file k a = file (kern w) a) -> inv (set_kern k w).
Proof.
  intros [H1 H2 H3 H4 H5 H6] [Ho Hf]. split; simpl; try done.
  - intros a b f. rewrite !Hf. apply H1.
  - intros x so f. rewrite Hf. apply H2.
  - intros f Hin. rewrite Ho. destruct (H4 f Hin) as [? Hn]. split; [done|]. intros a. rewrite Hf. apply Hn.
Qed.

Lemma inv_kern_open k a0 w :
  inv w -> file (kern w) a0 = None ->
  (exists f, f ∉ opened (kern w) /\ opened k = {[f]} ∪ opened (kern w) /\
     forall a, file k a = if decide (a = a0) then Some f else file (kern w) a) ->
  inv (set_kern k w).
Proof.
  intros [H1 H2 H3 H4 H5 H6] Hn (f0 & Hf0 & Ho & Hf). split; simpl; try done.
  - intros a b f. rewrite !Hf. case_decide as Ha; case_decide as Hb; intros; simplify_eq; try done.
    + destruct Hf0. by eapply file_opened.
    + destruct Hf0. by eapply file_opened.
    + eauto.
  - intros x so f Hx Hc. rewrite Hf. case_decide as Ha; [|eauto]. specialize (H2 _ _ _ Hx Hc). congruence.
  - intros f Hin. destruct (H4 f Hin) as [Hop Hno]. rewrite Ho. split; [set_solver|]. intros a. rewrite Hf.
    case_decide; [intros ?; simplify_eq; by destruct Hf0 | apply Hno].
Qed.

(** A call of [close] on an object, with its effect on the kernel and the history. *)
Lemma close_inv x so f w :
  inv w -> sockets w !! x = Some (so, f) ->
  let k := (close so (kern w)).2 in
  single k /\
  (forall y so' f', sockets w !! y = Some (so', f') -> y <> x -> closed_ so' = false ->
     file k (socketfd_ so') = Some f') /\
  (forall g, Some g ∈ log_close so w -> g ∈ opened k /\ forall a, file k a <> Some g) /\
  None ∉ log_close so w /\ NoDup (log_close so w) /\ Some f ∈ log_close so w /\
  (forall g, g ∈ closes w -> g ∈ log_close so w).
Proof.
  intros [H1 H2 H3 H4 [H5 H5'] H6] Hx. unfold close, log_close. destruct (closed_ so) eqn:Hc; simpl.
  { split_and!; try done; eauto. }
  destruct (close_law (socketfd_ so) (kern w)) as [Ho Hf]. pose proof (H2 _ _ _ Hx Hc) as Hown.
  assert (Hgone : forall a, file (sys_close (socketfd_ so) (kern w)).2 a <> Some f).
  { intros a. rewrite Hf. case_decide as Ha; [done|]. intros Ha'. destruct Ha. by eapply H1. }
  split_and!.
  - intros a b g. rewrite !Hf. case_decide; [done|]. case_decide; [done|]. apply H1.
  - intros y so' f' Hy Hne Hc'. rewrite Hf, decide_False; [by eauto|]. intros Heq. by destruct Hne; eauto.
  - intros g Hin. apply elem_of_app in Hin as [Hin|Hin].
    + destruct (H4 g Hin) as [Hop Hno]. rewrite Ho. split; [done|]. intros a. rewrite Hf. case_decide; [done|apply Hno].
    + rewrite Hown in Hin. apply list_elem_of_singleton in Hin as [= ->]. rewrite Ho. split; [|done].
      by eapply file_opened.
  - rewrite not_elem_of_app. split; [done|]. rewrite Hown. by intros ?%list_elem_of_singleton.
  - apply NoDup_app. split_and!; [done| |apply NoDup_singleton]. intros g Hg ->%list_elem_of_singleton.
    rewrite Hown in Hg. destruct (H4 f Hg) as [_ Hno]. by apply (Hno (socketfd_ so)).
  - rewrite Hown. apply elem_of_app. right. by apply list_elem_of_singleton.
  - intros g Hg. apply elem_of_app. by left.
Qed.

Lemma close_closed so k : closed_ (close so k).1 = true.
Proof. unfold close. by destruct (closed_ so) eqn:Hc. Qed.

Lemma step_close x w : inv w -> is_Some (sockets w !! x) -> exists w', step (Close x) w = Ok w' /\ inv w'.
Proof.
  intros Hi [[so f] Hx]. destruct (close_inv x so f w Hi Hx) as (K1 & K2 & K3 & K4 & K5 & K6 & K7).
  simpl. rewrite Hx. pose proof (close_closed so (kern w)) as Hcl.
  destruct (close so (kern w)) as [so' k] eqn:Ec. simpl in *. eexists. split; [done|].
  destruct Hi as [H1 H2 H3 H4 H5 H6]. split; simpl; try done.
  - intros y sy fy Hy Hc. destruct (decide (y = x)) as [->|]; [rewrite lookup_insert_eq in Hy; simplify_eq; congruence|].
    rewrite lookup_insert_ne in Hy by done. eauto.
  - intros y z sy sz fy fz Hy Hz Hcy Hcz.
    destruct (decide (y = x)) as [->|]; [rewrite lookup_insert_eq in Hy; simplify_eq; congruence|].
    destruct (decide (z = x)) as [->|]; [rewrite lookup_insert_eq in Hz; simplify_eq; congruence|].
    rewrite lookup_insert_ne in Hy, Hz by done. eauto.
  - intros y sy fy Hy Hc. destruct (decide (y = x)) as [->|]; [rewrite lookup_insert_eq in Hy; by simplify_eq|].
    rewrite lookup_insert_ne in Hy by done. eauto.
Qed.

Lemma step_destruct x so f w :
  inv w -> sockets w !! x = Some (so, f) ->
  exists w', step (Destruct x) w = Ok w' /\ inv w' /\ Some f ∈ closes w'.
Proof.
  intros Hi Hx. destruct (close_inv x so f w Hi Hx) as (K1 & K2 & K3 & K4 & K5 & K6 & K7).
  simpl. rewrite Hx. eexists. split; [done|]. split; [|done].
  destruct Hi as [H1 H2 H3 H4 H5 H6]. split; simpl; try done.
  - intros y sy fy Hy Hc. apply lookup_delete_Some in Hy as [? Hy]. eauto.
  - intros y z sy sz fy fz Hy Hz. apply lookup_delete_Some in Hy as [? Hy], Hz as [? Hz]. eauto.
  - intros y sy fy Hy Hc. apply lookup_delete_Some in Hy as [? Hy]. eauto.
Qed.

Lemma step_new x fd w : inv w -> enabled (New x fd) w -> exists w', step (New x fd) w = Ok w' /\ inv w'.
Proof.
  intros Hi (Hx & [f Hf] & Hno). simpl. rewrite Hx, Hf. eexists. split; [done|].
  destruct Hi as [H1 H2 H3 H4 H5 H6]. split; simpl; try done.
  - intros y sy fy Hy Hc. destruct (decide (y = x)) as [->|]; [rewrite lookup_insert_eq in Hy; by simplify_eq|].
    rewrite lookup_insert_ne in Hy by done. eauto.
  - intros y z sy sz fy fz Hy Hz Hcy Hcz Heq.
    apply lookup_insert_Some in Hy as [[<- ?]|[? Hy]], Hz as [[<- ?]|[? Hz]]; simplify_eq/=; eauto.
    + by destruct (Hno _ _ Hz Hcz).
    + by destruct (Hno _ _ Hy Hcy).
  - intros y sy fy Hy Hc. destruct (decide (y = x)) as [->|]; [rewrite lookup_insert_eq in Hy; by simplify_eq|].
    rewrite lookup_insert_ne in Hy by done. eauto.
Qed.

(** Every operation, on an object that exists; [listen] and [bind] may exit. *)
Lemma op_inv o w :
  inv w -> enabled o w -> step o w = Fault FatalExit \/ exists w', step o w = Ok w' /\ inv w'.
Proof.
  intros Hi He. destruct o as [x fd|x|x|x|x a|x pe|x|x b|x b|x b|x b|].
  1: right; by apply step_new.
  1: right; by apply step_close.
  1: right; destruct He as [[so f] Hx]; destruct (step_destruct x so f w Hi Hx) as (w' & ? & ? & _); by eauto.
  all: try (destruct He as [[so f] Hx]; simpl; rewrite Hx).
  - unfold listen. pose proof (listen_law (socketfd_ so) (1024 * 16) (kern w)) as Hl.
    destruct (sys_listen _ _ _) as [r k]. destruct (negb (r =? 0)); [by left|]. right. eexists. split; [done|].
    by apply inv_kern_same.
  - unfold bindAddress. pose proof (bind_law (socketfd_ so) (InetAddress.getSockAddr a) (kern w)) as Hl.
    destruct (sys_bind _ _ _) as [r k]. destruct (r <? 0); [by left|]. right. eexists. split; [done|].
    by apply inv_kern_same.
  - right. unfold accept. set (fl := Z.lor _ _). pose proof (accept_error (socketfd_ so) fl (kern w)) as Hl.
    pose proof (accept_law (socketfd_ so) fl (kern w)) as Ha. destruct (sys_accept4 _ _ _) as [[connfd addr] k].
    eexists. split; [done|]. simpl in *. destruct (Z.lt_ge_cases connfd 0) as [Hlt|Hge].
    + apply inv_kern_same; [done|]. by apply Hl.
    + destruct (Ha Hge) as [Hn Hf]. by eapply inv_kern_open.
  - right. eexists. split; [done|]. apply inv_kern_same, shutdown_law; done.
  - right. eexists. split; [done|]. apply inv_kern_same, setsockopt_law; done.
  - right. eexists. split; [done|]. apply inv_kern_same, setsockopt_law; done.
  - right. eexists. split; [done|]. apply inv_kern_same, setsockopt_law; done.
  - right. eexists. split; [done|]. apply inv_kern_same, setsockopt_law; done.
  - right. eexists. split; [done|]. destruct (open_law (kern w)) as [? ?]. by eapply inv_kern_open.
Qed.

Fixpoint enabled_run (os : list op) (w : world kernel) : Prop :=
  match os with
  | [] => True
  | o :: os => enabled o w /\ forall w', step o w = Ok w' -> enabled_run os w'
  end.

Lemma calls_inv os : forall w,
  inv w -> enabled_run os w -> run os w = Fault FatalExit \/ exists w', run os w = Ok w' /\ inv w'.
Proof.
  induction os as [|o os IH]; intros w Hi He; simpl; [right; by exists w|]. destruct He as [He Hes].
  destruct (op_inv o w Hi He) as [Hs|(w1 & Hs & Hi1)]; rewrite Hs; simpl; [by left|]. apply IH; [done|]. by apply Hes.
Qed.

(** C29. A descriptor is closed once and by its owner, however descriptor numbers
    are used again: in every sequence of operations on any number of sockets and
    of other calls that open descriptors, a [Socket] that was not closed still has
    the file it was made for, one that was closed has closed that file, no file
    is closed twice and no close hits a descriptor that is not open.  [listen] and
    [bind] are the only operations that can end the program. *)
Theorem socket_closes_its_file_once k0 os :
  single k0 -> enabled_run os (mkWorld k0 ∅ []) ->
  run os (mkWorld k0 ∅ []) = Fault FatalExit \/
  exists w, run os (mkWorld k0 ∅ []) = Ok w /\ None ∉ closes w /\ NoDup (closes w) /\
    (forall x so f, sockets w !! x = Some (so, f) ->
       if closed_ so then Some f ∈ closes w else file (kern w) (socketfd_ so) = Some f) /\
    (forall x so f, sockets w !! x = Some (so, f) ->
       exists w', step (Destruct x) w = Ok w' /\ Some f ∈ closes w' /\ forall a, file (kern w') a <> Some f).
Proof.
  intros Hk He. assert (Hi0 : inv (mkWorld k0 ∅ [])).
  { split; simpl; try done; intros *; rewrite ?lookup_empty; try done. 1: by intros ?%elem_of_nil.
    split; [by intros ?%elem_of_nil | constructor]. }
  destruct (calls_inv os _ Hi0 He) as [?|(w & Hw & Hi)]; [by left|]. right. exists w. split; [done|].
  destruct (inv_once _ Hi) as [Hn Hnd]. split; [done|]. split; [done|]. split.
  - intros x so f Hx. destruct (closed_ so) eqn:Hc; [by eapply inv_done | by eapply inv_own].
  - intros x so f Hx. destruct (step_destruct x so f w Hi Hx) as (w' & Hw' & Hi' & Hf). exists w'.
    split; [done|]. split; [done|]. apply (inv_gone _ Hi' f Hf).
Qed.

End process.

(** ** A kernel with a table of descriptors *)

Record table := mkTable {
  fds : gmap nat nat;
  past : gset nat
}.
Definition table_file (k : table) (fd : Z) : option nat := if fd <? 0 then None else fds k !! Z.to_nat fd.
Definition table_opened (k : table) : gset nat := past k ∪ map_img (fds k).
Definition table_close (fd : Z) (k : table) : Z * table :=
  if fd <? 0 then (-1, k) else (0, mkTable (delete (Z.to_nat fd) (fds k)) (table_opened k)).
Definition table_open (k : table) : Z * table :=
  let a := fresh (elements (dom (fds k))) in
  let f := fresh (elements (table_opened k)) in
  (Z.of_nat a, mkTable (<[a := f]> (fds k)) ({[f]} ∪ table_opened k)).

Lemma table_close_law fd k : table_opened (table_close fd k).2 = table_opened k /\
  forall fd', table_file (table_close fd k).2 fd' = if decide (fd' = fd) then None else table_file k fd'.
Proof.
  unfold table_close, table_file. destruct (Z.ltb_spec fd 0) as [Hlt|Hge]; simpl.
  - split; [done|]. intros fd'. case_decide as He; [|done]. subst. by rewrite (proj2 (Z.ltb_lt _ _)).
  - split.
    + unfold table_opened at 1. simpl. apply set_eq. intros g. rewrite elem_of_union. split; [|by left].
      intros [?|Hg]; [done|]. apply elem_of_map_img in Hg as [a Ha]. apply lookup_delete_Some in Ha as [_ Ha].
      unfold table_opened. apply elem_of_union. right. apply elem_of_map_img. eauto.
    + intros fd'. destruct (Z.ltb_spec fd' 0); [by case_decide|]. case_decide as He; [subst; apply lookup_delete_eq|].
      apply lookup_delete_ne. lia.
Qed.

Lemma table_open_law k : table_file k (table_open k).1 = None /\
  exists f, f ∉ table_opened k /\ table_opened (table_open k).2 = {[f]} ∪ table_opened k /\
    forall fd', table_file (table_open k).2 fd' = if decide (fd' = (table_open k).1) then Some f else table_file k fd'.
Proof.
  unfold table_open. set (a := fresh (elements (dom (fds k)))). set (f := fresh (elements (table_opened k))). simpl.
  assert (Ha : fds k !! a = None) by (apply not_elem_of_dom; apply fresh_elements).
  unfold table_file. rewrite (proj2 (Z.ltb_ge (Z.of_nat a) 0)), Nat2Z.id by lia. split; [done|]. exists f.
  split; [apply fresh_elements|]. split.
  - unfold table_opened at 1. simpl. apply set_eq. intros g. rewrite !elem_of_union, elem_of_singleton, elem_of_map_img. split; [|by left].
    intros [?|[b Hb]]; [done|]. apply lookup_insert_Some in Hb as [[_ ->]|[_ Hb]]; [by left|]. right. unfold table_opened.
    apply elem_of_union. right. apply elem_of_map_img. eauto.
  - intros fd'. destruct (Z.ltb_spec fd' 0); [by rewrite decide_False by lia|]. simpl. case_decide as He.
    + subst. rewrite Nat2Z.id. apply lookup_insert_eq.
    + apply lookup_insert_ne. lia.
Qed.

Lemma table_file_opened k fd f : table_file k fd = Some f -> f ∈ table_opened k.
Proof.
  unfold table_file, table_opened. destruct (fd <? 0); [done|]. intros Hf. apply elem_of_union. right.
  apply elem_of_map_img. eauto.
Qed.

Definition no_address : sockaddr_in := InetAddress.mk [0; 0; 0; 0] 0.

Definition table_accept (fd flags : Z) (k : table) : Z * sockaddr_in * table :=
  ((table_open k).1, no_address, (table_open k).2).

(** Calls that succeed and leave the descriptors alone. *)
Lemma table_same k : table_opened k = table_opened k /\ forall fd', table_file k fd' = table_file k fd'.
Proof. done. Qed.
Lemma table_accept_error fd fl k : (table_accept fd fl k).1.1 < 0 ->
  table_opened (table_accept fd fl k).2 = table_opened k /\
  forall fd', table_file (table_accept fd fl k).2 fd' = table_file k fd'.
Proof. cbn. lia. Qed.
Lemma table_accept_law fd fl k : 0 <= (table_accept fd fl k).1.1 ->
  table_file k (table_accept fd fl k).1.1 = None /\
  exists f, f ∉ table_opened k /\ table_opened (table_accept fd fl k).2 = {[f]} ∪ table_opened k /\
    forall fd', table_file (table_accept fd fl k).2 fd' =
      if decide (fd' = (table_accept fd fl k).1.1) then Some f else table_file k fd'.
Proof. intros _. apply table_open_law. Qed.

Definition table_kernel : SocketApi := {|
  kernel := table; file := table_file; opened := table_opened; sys_close := table_close;
  sys_listen := fun _ _ k => (0, k); sys_bind := fun _ _ k => (0, k); sys_accept4 := table_accept;
  sys_shutdown := fun _ _ k => (0, k); sys_setsockopt := fun _ _ _ _ k => (0, k); sys_open := table_open;
  file_opened := table_file_opened; close_law := table_close_law; open_law := table_open_law;
  listen_law := fun _ _ k => table_same k; bind_law := fun _ _ k => table_same k;
  shutdown_law := fun _ _ k => table_same k; setsockopt_law := fun _ _ _ _ k => table_same k;
  accept_error := table_accept_error; accept_law := table_accept_law |}.

(** A listening socket accepts a connection, which is closed; the next one gets its
    descriptor number and is not closed by the first object's destructor. *)
Definition demo_ops : list op :=
  [OtherOpen; New 0 1; Bind 0 no_address; Listen 0; Accept 0 no_address; New 1 2; SetKeepAlive 1 true; Close 1;
   Accept 0 no_address; New 2 2; Destruct 1].
Definition demo_kernel : table := mkTable {[0%nat := 0%nat]} ∅.

Ltac next_op := intros ? H; vm_compute in H; injection H as <-.

Ltac op_ok := first [exact I | eexists; reflexivity
  | split; [reflexivity|]; split; [eexists; reflexivity|]; apply (bool_decide_unpack _); vm_compute; exact I].

Lemma demo_single : single (H := table_kernel) demo_kernel.
Proof.
  intros a b f. cbn. unfold table_file. simpl. destruct (Z.ltb_spec a 0); [done|]. destruct (Z.ltb_spec b 0); [done|].
  intros [? _]%lookup_singleton_Some [? _]%lookup_singleton_Some. lia.
Qed.

Lemma demo_calls_enabled : enabled_run (H := table_kernel) demo_ops (mkWorld demo_kernel ∅ []).
Proof. do 11 (split; [op_ok|next_op]). exact I. Qed.

Lemma socket_closes_its_file_once_witness :
  exists w, run (H := table_kernel) demo_ops (mkWorld demo_kernel ∅ []) = Ok w /\ NoDup (closes w) /\
    table_file (kern w) 2 = Some 3%nat.
Proof.
  assert (Hw : exists w, run (H := table_kernel) demo_ops (mkWorld demo_kernel ∅ []) = Ok w /\
    table_file (kern w) 2 = Some 3%nat) by (eexists; split; [vm_compute; reflexivity | vm_compute; reflexivity]).
  destruct Hw as (w & Hw & Hf).
  destruct (socket_closes_its_file_once (H := table_kernel) demo_kernel demo_ops) as [He|(w' & Hw' & _ & Hnd & _)].
  - exact demo_single.
  - exact demo_calls_enabled.
  - discriminate (eq_trans (eq_sym Hw) He).
  - exists w'. split; [exact Hw'|]. split; [exact Hnd|]. pose proof (eq_trans (eq_sym Hw) Hw') as E. injection E as <-. exact Hf.
Defined.

End Socket.
