(* ===== verification/ConnectionFaults.v ===== *)
(** * Where a connection goes wrong

    Runs of [TcpConnection] that the guards of the code do not exclude and that
    end in a failed assertion, in freed memory, in a descriptor that is no longer
    the connection's, or nowhere. *)

From S2P Require Import Prelude SendQueue ChunkPool InputChainBuffer InputBuffers TcpConnection ConnectionSafety.
From S2P Require Import ConnectionProgress ClientProtocol LoopConnections InetAddress Socket.
Import ChunkPoolManagerInput TcpConnection ConnectionSafety ClientProtocol LoopConnections.

Module ConnectionFaults.

Section faults.
Context {A : Allocator} {B : BufRing} {F : WriteErrors}.
Context (D : Z) (D_nonneg : 0 <= D).

(** The batch in flight is all there is to send. *)
Definition sole_batch (c : TcpConnection) (s : list (nat * SendQueue.TxFragment)) : Prop :=
  write_inv D c s [] /\ W.is_sending_ (write_context_ c) = true /\ SendQueue.bytes s <> [].

(** C38. A transient error on the only batch ([EAGAIN], [ENOBUFS], [EINTR], which
    [handleError] means to retry) stops the program: [curr_] was not moved back,
    so that [flush] finds no fragment and its assertion fails. *)
Theorem transient_error_asserts c s res :
  sole_batch c s -> res < 0 -> retryable res = true -> step (WriteDone res) c = Fault AssertionFailed.
Proof.
  intros (Hw & Hse & Hne) Hneg Hrt. pose proof (wi_sending _ _ _ _ Hw) as Hs. rewrite Hse in Hs.
  destruct Hs as (Hh & Hn & Hv). unfold step. rewrite Hv. simpl. unfold write_on_completion. simpl.
  rewrite Hh. simpl. rewrite (proj2 (Z.ltb_lt _ _) Hneg). unfold write_handleError. simpl.
  rewrite (proj2 (Z.ltb_lt _ _) Hneg).
  assert (Hno : (- res =? EPIPE) || (- res =? ECONNRESET) = false).
  { unfold retryable, EAGAIN, ENOBUFS, EINTR, EPIPE, ECONNRESET in *. apply orb_true_iff in Hrt.
    rewrite orb_true_iff, !Z.eqb_eq in Hrt. apply orb_false_iff. rewrite !Z.eqb_neq. lia. }
  rewrite Hno. unfold retryable in Hrt. pose proof (buffered_bytes _ _ _ (wi_rep _ _ _ _ Hw)) as Hb.
  unfold buffered in Hb. rewrite app_nil_r in Hb.
  assert (Hpos : 0 < zlen (SendQueue.bytes s)) by (destruct (SendQueue.bytes s); [done|]; rewrite zlen_cons;
    pose proof (zlen_nonneg l); lia).
  assert (Hfl : forall c1, write_context_ c1 = W.set_sending false (W.set_result res 0 (write_context_ c)) ->
    write_continue c1 = Fault AssertionFailed).
  { intros c1 Hc1. unfold write_continue. rewrite Hc1. simpl. rewrite Hb, (proj2 (Z.ltb_lt _ _) Hpos).
    unfold flush. rewrite Hc1. simpl.
    destruct (SendQueue.getBatchFragment_rep (W.max_slices_ (write_context_ c)) _ _ _ (wi_rep _ _ _ _ Hw))
      as (q' & -> & _). rewrite take_nil. done. }
  destruct ((- res =? EAGAIN) || (- res =? ENOBUFS)); [by apply Hfl|]. simpl in Hrt. rewrite Hrt. by apply Hfl.
Qed.

(** A receive that fails because the buffer ring is empty ([ENOBUFS]) is
    submitted again at once, although the coroutine has not consumed anything:
    the comments in [ReadContext] announce a pause until buffers come back. *)
Theorem enobufs_resubmits o c l av flags data :
  read_inv o c l av -> R.status_ (read_context_ c) = READING -> R.read_handle_ (read_context_ c) = false ->
  IORING_CQE_F_MORE flags = false ->
  exists c', step (ReadDone (- ENOBUFS) flags data) c = Ok c' /\
    requests c' = requests c ++ [SubmitRead (R.fd_ (read_context_ c))] /\ R.status_ (read_context_ c') = READING /\
    R.input_buffer_ (read_context_ c') = R.input_buffer_ (read_context_ c).
Proof.
  intros [_ Hs] Hst Hrh Hm. rewrite Hst in Hs. destruct Hs as [Hh _]. unfold step.
  change (0 <? - ENOBUFS) with false. rewrite Hm. unfold read_on_completion. simpl. rewrite Hh, Hst. simpl.
  unfold read_handleError. simpl. unfold read_finish. simpl. rewrite Hm, Hst. simpl. unfold read_wake. simpl.
  rewrite Hrh. by eexists.
Qed.

(** *** After the close *)

(** The fragments left in the queue are handed to the kernel in a new request. *)
Lemma flush_requests c p :
  SendQueue.rep (W.output_buffer_ (write_context_ c)) [] p -> p <> [] ->
  (0 < W.max_slices_ (write_context_ c))%nat -> W.holder_ (write_context_ c) = true ->
  exists c' iov, flush c = Ok c' /\ iov <> [] /\
    requests c' = requests c ++ [SubmitWrite (W.fd_ (write_context_ c)) iov] /\ sock_closed_ c' = sock_closed_ c.
Proof.
  intros Hr Hp Hm Hh. unfold flush.
  destruct (SendQueue.getBatchFragment_rep (W.max_slices_ (write_context_ c)) _ _ _ Hr) as (q' & -> & _).
  set (n := W.max_slices_ (write_context_ c)) in *. simpl.
  assert (Hne : map SendQueue.iovec_of (take n p) <> []) by (destruct n; [lia|]; by destruct p).
  rewrite (bool_decide_eq_false_2 _ Hne). simpl. rewrite Hh. eexists _, _. split; [done|]. by split.
Qed.

(** A write that completes in part on a closed connection is followed by another
    one: [on_completion] tests neither [closing_] nor the socket, and the rest of the
    output buffer goes to a descriptor number that is no longer the connection's. *)
Lemma closed_connection_keeps_writing o c res :
  inv D o c -> closing_ c = true -> 0 <= res < buffered c -> valid c (WriteDone res) ->
  exists c' iov, step (WriteDone res) c = Ok c' /\ iov <> [] /\
    requests c' = requests c ++ [SubmitWrite (W.fd_ (write_context_ c)) iov] /\ sock_closed_ c' = sock_closed_ c.
Proof.
  intros ((s & p & Hw) & _ & (Hmap & _ & _ & Hco)) Hcl Hres [Hfl Hv]. rewrite Hcl in Hco.
  destruct Hco as (_ & Hwh & _). pose proof (in_flight_sending _ _ _ _ Hw Hfl) as Hse.
  pose proof (wi_sending _ _ _ _ Hw) as Hs. rewrite Hse in Hs. destruct Hs as (Hh & _ & Hb).
  unfold step. rewrite Hb. simpl. unfold write_on_completion. simpl. rewrite Hh. simpl.
  rewrite (proj2 (Z.ltb_ge res 0)) by lia.
  pose proof (buffered_bytes _ _ _ (wi_rep _ _ _ _ Hw)) as Hz.
  pose proof (SendQueue.rep_bound _ _ _ (wi_rep _ _ _ _ Hw)).
  destruct (SendQueue.retrieve_rep res _ _ _ (wi_rep _ _ _ _ Hw)) as (q' & p' & -> & Hr' & Hb'); [lia|]. simpl.
  set (c1 := on_write (W.set_buffer q' _) _).
  assert (Hbu : buffered c1 = buffered c - res).
  { rewrite (buffered_bytes c1 [] p' Hr'). simpl. rewrite Hb', zlen_zdrop by lia. lia. }
  assert (Hne : p' <> []).
  { intros ->. rewrite (buffered_bytes c1 [] [] Hr') in Hbu. change (zlen (SendQueue.bytes ([] ++ []))) with 0 in Hbu. lia. }
  destruct (flush_requests c1 p' Hr' Hne (wi_slices _ _ _ _ Hw) Hh) as (c' & iov & Hf & Hiov & Hrq & Hso).
  destruct (flush_ok c1 p' Hr' Hne (wi_slices _ _ _ _ Hw) Hh) as (c2 & _ & _ & Hf2 & Hu & _).
  assert (c2 = c') as -> by congruence.
  unfold write_continue. fold (buffered c1). rewrite (proj2 (Z.ltb_lt _ _)) by lia. rewrite Hf. simpl.
  rewrite (alive_ok c') by (rewrite (un_map _ _ Hu); exact Hmap). simpl. rewrite (un_handle _ _ Hu). simpl. rewrite Hwh.
  simpl. by exists c', iov.
Qed.

(** A write of a closed connection completes in part. *)
Definition short_write (n : nat) (L : loop_state) (i : nat) (c : TcpConnection) (res : Z) : Prop :=
  linv D n L /\ conns L !! i = Some c /\ closing_ c = true /\ sock_closed_ c = true /\
  lvalid D L (On i (WriteDone res)) /\ 0 <= res < buffered c.

(** Bytes of a closed connection are sent to somebody else: the number of the
    closed descriptor is free, the next connection on the loop gets it (as the kernel
    gives out the lowest free number), and the first write that completes in part
    after that submits the rest of the old connection's output to the descriptor
    that is now the new peer's. *)
Theorem bytes_reach_the_next_connection n L i j c res ihw ihc ohw p :
  short_write n L i c res -> lvalid D L (Establish j (W.fd_ (write_context_ c)) ihw ihc ohw p) ->
  exists L' ci cj iov,
    lsteps [Establish j (W.fd_ (write_context_ c)) ihw ihc ohw p; On i (WriteDone res)] L = Ok L' /\
    conns L' !! i = Some ci /\ conns L' !! j = Some cj /\ sock_closed_ ci = true /\ sock_closed_ cj = false /\
    iov <> [] /\ requests ci = requests c ++ [SubmitWrite (W.fd_ (write_context_ cj)) iov].
Proof.
  intros (Hinv & Hi & Hcl & Hso & (c' & Hi' & Hv) & Hres) Hest. assert (c' = c) as -> by congruence.
  destruct (lstep_ok D D_nonneg n L _ Hinv Hest I) as (L1 & H1 & Hinv1). destruct Hest as (Hj & _).
  assert (Hij : i <> j) by (intros ->; congruence). simpl in H1.
  destruct (open_connection _ _ _ _ _ _ _ _) as [cj|] eqn:Eo; [|done]. simpl in H1.
  apply ConnectionProgress.open_kept in Eo as Hok. injection H1 as <-.
  cbn [lsteps lstep]. rewrite Eo. cbn [mbind result_bind shared conns].
  destruct Hinv1 as (ls & av & Hinv1). rewrite lookup_insert_ne, Hi by done.
  destruct (lookup_chunks _ _ _ _ _ i c Hinv1) as (l & Hl & Hon & Hp); [simpl; by rewrite lookup_insert_ne|].
  assert (Hci : inv D (mkOthers (InputBuffers.held (delete i ls)) (pool cj)) (set_pool (pool cj) c)).
  { destruct (on_loop_pool D _ _ (pool cj) _ Hon) as [Hw Hre Hst [[Hr Hco]|Hrt]].
    - split; [done|]. split; [|done]. exists l, av. split; [by split | done].
    - destruct Hv as [Hn _]. destruct Hrt as [_ _ _ _ Hw0]. done. }
  destruct (closed_connection_keeps_writing _ (set_pool (pool cj) c) res Hci Hcl Hres Hv) as (ci & iov & Hs & Hiov & Hrq & Hsc).
  rewrite Hs. exists (mkLoop (pool ci) (<[i := ci]> (<[j := cj]> (conns L)))), ci, cj, iov.
  simpl. rewrite lookup_insert_eq, lookup_insert_ne, lookup_insert_eq by done. simpl in Hrq, Hsc.
  split_and!; try done; [congruence | congruence|]. rewrite Hrq. do 2 f_equal. congruence.
Qed.

(** Nothing refers to the connection any more. *)
Lemma dead c :
  in_map c = false -> R.holder_ (read_context_ c) = false -> W.holder_ (write_context_ c) = false ->
  frame_ c = FrameDestroyed -> functors c = [] -> alive c = Fault Dangling.
Proof. intros H1 H2 H3 H4 H5. unfold alive, refs. by rewrite H1, H2, H3, H4, H5. Qed.

(** The queue is empty, and the write context drops its reference. *)
Lemma drained_dangles c p :
  SendQueue.rep (W.output_buffer_ (write_context_ c)) [] p -> SendQueue.bytes p = [] -> in_map c = false ->
  R.holder_ (read_context_ c) = false -> frame_ c = FrameDestroyed -> functors c = [] ->
  write_continue c = Fault Dangling.
Proof.
  intros Hr Hp Hmap Hrh Hfr Hfu. unfold write_continue. fold (buffered c).
  rewrite (buffered_bytes _ _ _ Hr). change ([] ++ p) with p. rewrite Hp. simpl. by rewrite dead.
Qed.

Lemma closed_again c : closing_ c = true -> task_handle_ c = false -> handleClose c = Ok c.
Proof. intros Hc Ht. unfold handleClose, destroy_task. by rewrite Hc, Ht. Qed.

Lemma failed_dangles c :
  W.res_ (write_context_ c) < 0 -> retryable (W.res_ (write_context_ c)) = false ->
  W.holder_ (write_context_ c) = true -> W.write_handle_ (write_context_ c) = false -> closing_ c = true ->
  task_handle_ c = false -> in_map c = false -> R.holder_ (read_context_ c) = false ->
  frame_ c = FrameDestroyed -> functors c = [] -> write_on_completion c = Fault Dangling.
Proof.
  intros Hneg Hrt Hh Hwh Hcl Ht Hmap Hrh Hfr Hfu. unfold write_on_completion. rewrite Hh. cbn [assert_ mbind result_bind].
  rewrite (proj2 (Z.ltb_lt _ _) Hneg), write_handleError_close by done.
  set (c1 := on_write (W.set_sending false) _).
  assert (Hc1 : handleClose c1 = Ok c1) by by apply closed_again.
  assert (Hd : alive (on_write (W.set_holder false) c1) = Fault Dangling) by by apply dead.
  change (W.write_handle_ (write_context_ c1)) with (W.write_handle_ (write_context_ c)). rewrite Hwh.
  cbn [mbind result_bind]. change (W.holder_ (write_context_ c1)) with (W.holder_ (write_context_ c)). rewrite Hh, Hc1.
  cbn [mbind result_bind]. by rewrite Hd.
Qed.

Lemma late_write_dangles c s p res :
  write_inv D c s p -> W.is_sending_ (write_context_ c) = true -> closing_ c = true -> in_map c = false ->
  W.write_handle_ (write_context_ c) = false -> R.holder_ (read_context_ c) = false ->
  frame_ c = FrameDestroyed -> task_handle_ c = false -> functors c = [] ->
  (res < 0 /\ retryable res = false) \/ res = buffered c ->
  step (WriteDone res) c = Fault Dangling.
Proof.
  intros Hw Hse Hcl Hmap Hwh Hrh Hfr Ht Hfu Hres. pose proof (wi_sending _ _ _ _ Hw) as Hs. rewrite Hse in Hs.
  destruct Hs as (Hh & _ & Hb). unfold step. rewrite Hb. cbn [mbind result_bind].
  destruct Hres as [[Hneg Hrt]| ->].
  - by apply failed_dangles.
  - pose proof (buffered_bytes _ _ _ (wi_rep _ _ _ _ Hw)) as Hz. pose proof (SendQueue.rep_bound _ _ _ (wi_rep _ _ _ _ Hw)).
    pose proof (zlen_nonneg (SendQueue.bytes (s ++ p))).
    unfold write_on_completion. cbn [write_context_ on_write set_in_flight set_bytes W.set_result W.res_ W.holder_ W.output_buffer_].
    rewrite Hh, (proj2 (Z.ltb_ge _ 0)) by lia. cbn [assert_ mbind result_bind].
    destruct (SendQueue.retrieve_rep (buffered c) _ _ _ (wi_rep _ _ _ _ Hw)) as (q' & p' & -> & Hr' & Hb'); [lia|].
    cbn [mbind result_bind]. eapply drained_dangles; try done.
    apply length_zero_iff_nil. apply (f_equal zlen) in Hb'. rewrite zlen_zdrop in Hb' by lia. unfold zlen in *. lia.
Qed.

(** A closed connection whose coroutine was destroyed. *)
Definition abandoned (o : others) (c : TcpConnection) : Prop :=
  inv D o c /\ closing_ c = true /\ frame_ c = FrameDestroyed.

(** C40. The last reference to a closed connection is released by the completion itself,
    when the server's table has let go of it already: the handler goes on in the
    context that was freed with the connection.  It happens to the write that takes
    the rest of the output, to a write that fails for good and to the end of the stream. *)
Theorem late_completion_uses_freed_context o c :
  abandoned o c ->
  exists c1, step MapErase c = Ok c1 /\
  (writes_in_flight c <> 0%nat -> reads_in_flight c = 0%nat ->
     forall res, valid c (WriteDone res) -> (res < 0 /\ retryable res = false) \/ res = buffered c ->
       step (WriteDone res) c1 = Fault Dangling) /\
  (reads_in_flight c <> 0%nat -> writes_in_flight c = 0%nat -> step (ReadDone 0 0 []) c1 = Fault Dangling).
Proof.
  intros (((s & p & Hw) & (l & av & [_ Hst]) & (_ & _ & Hfu & Hco)) & Hcl & Hfr). rewrite Hcl in Hco.
  destruct Hco as (Hrh & Hwh & [[_ Ht]|[? _]]); [|congruence]. eexists. split; [done|]. split.
  - intros Hn Hr0 res _ Hres. pose proof (in_flight_sending _ _ _ _ Hw Hn) as Hse.
    apply (late_write_dangles _ s p); try done; [by eapply write_inv_mono | destruct (R.status_ _), Hst; simpl; congruence].
  - intros Hn Hw0. assert (Hwo : W.holder_ (write_context_ c) = false).
    { pose proof (wi_sending _ _ _ _ Hw) as Hs. destruct (W.is_sending_ _), Hs as (? & ? & _); congruence. }
    unfold step. simpl. unfold read_on_completion. simpl.
    destruct (R.status_ (read_context_ c)) eqn:Es, Hst as [Hho ?]; try congruence; rewrite Hho; simpl;
      unfold read_finish; simpl; rewrite Es; simpl; rewrite Hrh; simpl; rewrite Hho;
      unfold handleClose, destroy_task; simpl; rewrite Hcl, Ht; simpl; by rewrite dead.
Qed.

End faults.

(** ** Concrete runs *)

#[local] Existing Instance demo_errors.

(** A receive in flight that nobody waits for. *)
Definition demo_reading : @TcpConnection list_ring :=
  mkConn false false true Finished true true false
    (R.set_holder true (R.set_status READING (R.new_ReadContext 64 16 5)))
    (W.mk 0 0 false false SendQueue.new_SendQueue 64 false false 256 [] 5) demo_m [] [SubmitRead 5] 1 0 [] [] 0 [] [].

(** ** Properties: where the code goes wrong *)

(** When the server's base loop is the loop of the connection (a server
    without worker threads), the end of the stream frees the connection under
    the running handler: [handleClose] destroys the coroutine and empties the
    server's table, [holder_.reset()] drops the last reference, and the
    assignment to [status_] behind it writes to freed memory. *)
Theorem close_on_base_loop_uses_freed_context :
  exists c0, demo_open true (echo 3) = Ok c0 /\
    valid c0 (ReadDone 0 0 []) /\
    step (A := first_fit) (ReadDone 0 0 []) c0 = Fault Dangling.
Proof.
  eexists. split; [vm_compute; reflexivity|]. split; [split; [discriminate | reflexivity]|]. vm_compute. reflexivity.
Qed.

(** A coroutine that echoes one message and goes on elsewhere. *)
Definition offloading : prog :=
  PrepareToRead (fun _ => Read 4 (fun d => Send d (fun _ => Offload Return))).

(** A coroutine that moved to another thread is destroyed while it runs: the
    end of the stream closes the connection and rightly leaves the coroutine
    alone, but the failure of the write still in flight calls [handleClose] a
    second time, whose other branch destroys the coroutine without a check. *)
Theorem second_close_destroys_running_coroutine :
  exists c0 c1 c2, demo_open false offloading = Ok c0 /\
    valid c0 (ReadDone 3 (flags_of 0 true) [x61; x62; x63]) /\
    step (A := first_fit) (ReadDone 3 (flags_of 0 true) [x61; x62; x63]) c0 = Ok c1 /\
    valid c1 (ReadDone 0 0 []) /\ step (A := first_fit) (ReadDone 0 0 []) c1 = Ok c2 /\
    frame_ c2 = Elsewhere Return /\ valid c2 (WriteDone (- EPIPE)) /\
    step (A := first_fit) (WriteDone (- EPIPE)) c2 = Fault UndefinedBehaviour.
Proof.
  eexists _, _, _. split; [vm_compute; reflexivity|]. split.
  { split; [discriminate|]. change (0 <? 3) with true. split; [reflexivity|]. split; [vm_compute; discriminate|].
    split; [reflexivity|]. exists 0, [1]. split; reflexivity. }
  split; [vm_compute; reflexivity|]. split; [split; [discriminate | reflexivity]|].
  split; [vm_compute; reflexivity|]. split; [reflexivity|]. split.
  { split; [discriminate|]. left. reflexivity. }
  vm_compute. reflexivity.
Qed.

(** A coroutine that returns by itself is never destroyed: nothing is in
    flight, so that no completion can close the connection, and the frame keeps
    the connection and its socket alive for good. *)
Theorem finished_coroutine_is_kept es :
  exists c0, demo_open false Return = Ok c0 /\
    (valid_run (A := first_fit) c0 es -> MapErase ∉ es -> steps (A := first_fit) es c0 = Ok c0) /\
    frame_ c0 = Finished /\ sock_closed_ c0 = false /\ refs c0 <> 0%nat.
Proof.
  eexists. split; [vm_compute; reflexivity|]. set (c0 := mkConn _ _ _ _ _ _ _ _ _ _ _ _ _ _ _ _ _ _ _).
  split; [|split; [reflexivity | split; [reflexivity | discriminate]]].
  induction es as [|e es IH]; intros Hv Hn; [reflexivity|]. destruct Hv as [Hv Hvs].
  apply not_elem_of_cons in Hn as [Hne Hn].
  assert (Hs : step (A := first_fit) e c0 = Ok c0).
  { destruct e as [res|res flags data| | |]; [by destruct Hv as [? _]|by destruct Hv as [? _]|done|done|done]. }
  change (match step (A := first_fit) e c0 with Ok c => steps (A := first_fit) es c | Fault f => Fault f end = Ok c0).
  rewrite Hs. apply IH; [by apply Hvs | done].
Qed.

(** A coroutine that goes back to reading on another thread. *)
Definition roaming : prog :=
  PrepareToRead (fun _ => Read 4 (fun _ => Offload (PrepareToRead (fun _ => Return)))).

(** A coroutine that reads on another thread while the peer closes makes its
    connection receive on the descriptor it has just closed: the closure behind
    [PrepareToRead] tests the input buffer and the status, and not [closing_]. *)
Theorem closed_connection_reads_again :
  exists c0 c, demo_open false roaming = Ok c0 /\
    valid_run (A := first_fit) c0 [ReadDone 3 (flags_of 0 true) [x61; x62; x63]; OtherThread; ReadDone 0 0 []; RunFunctor] /\
    steps (A := first_fit) [ReadDone 3 (flags_of 0 true) [x61; x62; x63]; OtherThread; ReadDone 0 0 []; RunFunctor] c0 = Ok c /\
    sock_closed_ c = true /\ requests c = [SubmitRead 5; SubmitRead 5] /\ R.status_ (read_context_ c) = READING.
Proof.
  eexists _, _. split; [vm_compute; reflexivity|]. split.
  { split; [split; [discriminate|]; change (0 <? 3) with true; split; [reflexivity|]; split; [vm_compute; discriminate|];
      split; [reflexivity|]; exists 0, [1]; split; reflexivity|].
    intros c1 H1. vm_compute in H1. injection H1 as <-. split; [split; exact I|].
    intros c2 H2. vm_compute in H2. injection H2 as <-. split; [split; [discriminate | reflexivity]|].
    intros c3 H3. split; [split; exact I|]. intros c4 H4. exact I. }
  split; [vm_compute; reflexivity|]. split; [reflexivity|]. split; reflexivity.
Qed.

(** The echo server of the README on a connection with an output mark of two bytes:
    three bytes arrive and their echo waits for room, two more arrive, and then
    the write fails. *)
Definition readme_c0 : @TcpConnection list_ring :=
  from_ok demo_c0 (open_connection (A := first_fit) 5 demo_m 64 16 2 true false (echo_server false 5)).
Definition readme_events : list event :=
  [ReadDone 3 (flags_of 0 true) [x61; x62; x63]; ReadDone 2 (flags_of 1 true) [x64; x65]; WriteDone (- EPIPE)].

(** The echo server of the README, which does not look at what [send] returns, can
    stop the program: told of a failed write it reads on and sends again, the new
    write is submitted while the handler of the failed one goes on to close the
    connection and to let go of it, and whatever that write completes with, the
    assertion on [holder_] fails. *)
Theorem unchecked_send_asserts :
  open_connection (A := first_fit) 5 demo_m 64 16 2 true false (echo_server false 5) = Ok readme_c0 /\
  valid_run (A := first_fit) readme_c0 readme_events /\
  exists c, steps (A := first_fit) readme_events readme_c0 = Ok c /\ closing_ c = true /\ writes_in_flight c = 1%nat /\
    forall res, step (A := first_fit) (WriteDone res) c = Fault AssertionFailed.
Proof.
  split; [vm_compute; reflexivity|]. split.
  - split.
    { split; [vm_compute; discriminate|]. change (0 <? 3) with true. split; [reflexivity|].
      split; [vm_compute; discriminate|]. split; [reflexivity|]. exists 0, [1]. split; reflexivity. }
    intros c1 H1. vm_compute in H1. injection H1 as <-. split.
    { split; [vm_compute; discriminate|]. change (0 <? 2) with true. split; [reflexivity|].
      split; [vm_compute; discriminate|]. split; [reflexivity|]. exists 1, [0]. split; reflexivity. }
    intros c2 H2. vm_compute in H2. injection H2 as <-. split; [|by intros].
    split; [vm_compute; discriminate|]. left. reflexivity.
  - eexists. split; [vm_compute; reflexivity|]. split; [reflexivity|]. split; [reflexivity|].
    intros res. reflexivity.
Qed.

(** Two messages are echoed; the first write fails with [EAGAIN] while the second
    message is queued behind it. *)
Definition skipping_events : list event :=
  [ReadDone 3 (flags_of 0 true) [x61; x62; x63]; ReadDone 2 (flags_of 1 true) [x78; x79]; WriteDone (- EAGAIN); WriteDone 2].

(** A transient error with more data queued corrupts the stream: the failed batch is
    skipped, the next one is sent in its place, and its completion frees bytes of the
    first. *)
Theorem transient_error_skips_a_batch :
  valid_run (A := first_fit) demo_c0 skipping_events /\
  exists c, steps (A := first_fit) skipping_events demo_c0 = Ok c /\
    appended c = [x61; x62; x63; x78; x79] /\ wire c = [x78; x79].
Proof.
  split.
  - split.
    { split; [vm_compute; discriminate|]. change (0 <? 3) with true. split; [reflexivity|].
      split; [vm_compute; discriminate|]. split; [reflexivity|]. exists 0, [1]. split; reflexivity. }
    intros c1 H1. vm_compute in H1. injection H1 as <-. split.
    { split; [vm_compute; discriminate|]. change (0 <? 2) with true. split; [reflexivity|].
      split; [vm_compute; discriminate|]. split; [reflexivity|]. exists 1, [0]. split; reflexivity. }
    intros c2 H2. vm_compute in H2. injection H2 as <-. split; [split; [vm_compute; discriminate | by left]|].
    intros c3 H3. vm_compute in H3. injection H3 as <-. split; [|by intros].
    split; [vm_compute; discriminate|]. right. split; [lia|]. intros bs Hbs. vm_compute in Hbs.
    injection Hbs as <-. vm_compute. discriminate.
  - eexists. split; [vm_compute; reflexivity|]. split; reflexivity.
Qed.

(** ** Witnesses *)

(** The peer closed while the echo is in flight. *)
Definition closing_events : list event := [ReadDone 3 (flags_of 0 true) [x61; x62; x63]; ReadDone 0 0 []].
Definition demo_closed : @TcpConnection list_ring := from_ok demo_c0 (steps (A := first_fit) closing_events demo_c0).
Lemma demo_closed_steps : steps (A := first_fit) closing_events demo_c0 = Ok demo_closed.
Proof. vm_compute. reflexivity. Qed.
Lemma closing_valid : valid_run (A := first_fit) demo_c0 closing_events.
Proof.
  split.
  { split; [vm_compute; discriminate|]. change (0 <? 3) with true.
    split; [reflexivity|]. split; [vm_compute; discriminate|]. split; [reflexivity|].
    exists 0, [1]. split; reflexivity. }
  intros c1 H1. vm_compute in H1. injection H1 as <-. split; [split; [vm_compute; discriminate | reflexivity]|].
  intros c2 H2. exact I.
Qed.
Lemma demo_closed_inv : inv 4 (mkOthers [] demo_m) demo_closed.
Proof.
  destruct (run_inv (A := first_fit) 4 ltac:(lia) [] 5 demo_m [0; 1]%nat 64 16 64 true (echo 3) closing_events demo_c0
              demo_closed) as [_ Hi];
    [lia | exact demo_m_ok | lia | lia | exact (echo_polite 3) | exact demo_established | exact closing_valid |
     repeat constructor | exact demo_closed_steps | exact Hi].
Qed.
Lemma demo_closed_write res : res = 3 \/ res = 1 -> valid demo_closed (WriteDone res).
Proof.
  intros Hr. split; [vm_compute; discriminate|]. right. split; [lia|]. intros bs Hbs. vm_compute in Hbs.
  injection Hbs as <-. change (zlen [x61; x62; x63]) with 3. lia.
Qed.

Lemma late_completion_uses_freed_context_witness :
  exists c1, step (A := first_fit) MapErase demo_closed = Ok c1 /\ step (A := first_fit) (WriteDone 3) c1 = Fault Dangling.
Proof.
  destruct (late_completion_uses_freed_context (A := first_fit) 4 (mkOthers [] demo_m) demo_closed) as (c1 & H1 & H2 & _).
  - split; [exact demo_closed_inv|]. split; vm_compute; reflexivity.
  - exists c1. split; [exact H1|]. apply H2.
    + vm_compute. discriminate.
    + vm_compute. reflexivity.
    + apply demo_closed_write. left. reflexivity.
    + right. vm_compute. reflexivity.
Defined.

(** The loop of that connection. *)
Definition leak_run : list loop_event :=
  [Establish 1 5 64 16 64 (echo 3); On 1 (ReadDone 3 (flags_of 0 true) [x61; x62; x63]); On 1 (ReadDone 0 0 [])].
Definition leak_L : @loop_state list_ring := from_ok demo_L0 (lsteps (A := first_fit) leak_run demo_L0).
Lemma leak_valid : lvalid_run (A := first_fit) 4 demo_L0 leak_run.
Proof.
  apply throughout_cons; [split_and!; try done; apply (echo_polite 3) | vm_compute; reflexivity|].
  apply throughout_cons; [step_data 0 [1] | vm_compute; reflexivity|].
  apply throughout_cons; [step_end | vm_compute; reflexivity | exact I].
Qed.
Lemma leak_inv : linv 4 2 leak_L.
Proof.
  apply run_linv; [exact leak_valid | | vm_compute; reflexivity].
  do 3 (apply throughout_cons; [exact I | vm_compute; reflexivity|]). exact I.
Qed.

(** The kernel gives the number of the closed descriptor to the next connection. *)
Lemma number_used_again k : Socket.fds k = {[0 := 0; 1 := 1; 2 := 2; 3 := 3; 4 := 4; 5 := 5]}%nat ->
  (Socket.table_open (Socket.table_close 5 k).2).1 = 5.
Proof. intros Hk. unfold Socket.table_open, Socket.table_close. simpl. rewrite Hk. vm_compute. reflexivity. Qed.

Lemma bytes_reach_the_next_connection_witness :
  exists L' ci cj iov,
    lsteps (A := first_fit) [Establish 2 5 64 16 64 (echo 3); On 1 (WriteDone 1)] leak_L = Ok L' /\
    conns L' !! 1%nat = Some ci /\ conns L' !! 2%nat = Some cj /\ sock_closed_ ci = true /\ sock_closed_ cj = false /\
    iov <> [] /\ requests ci = requests (conn_at 1 leak_L) ++ [SubmitWrite (W.fd_ (write_context_ cj)) iov].
Proof.
  set (c := conn_at 1 leak_L).
  assert (Hc : conns leak_L !! 1%nat = Some c) by (apply conn_at_eq; vm_compute; reflexivity).
  assert (Hfd : W.fd_ (write_context_ c) = 5) by (vm_compute; reflexivity).
  assert (Hb : buffered c = 3) by (vm_compute; reflexivity).
  destruct (bytes_reach_the_next_connection (A := first_fit) 4 ltac:(lia) 2 leak_L 1 2 c 1 64 16 64 (echo 3))
    as (L' & ci & cj & iov & HL & H1 & H2 & H3 & H4 & H5 & H6).
  - split; [exact leak_inv|]. split; [exact Hc|]. split; [vm_compute; reflexivity|]. split; [vm_compute; reflexivity|].
    split; [step_sent | rewrite Hb; lia].
  - split; [vm_compute; reflexivity|]. rewrite Hfd. split; [lia|]. split; [lia|]. split; [lia|]. exact (echo_polite 3).
  - rewrite Hfd in HL. exists L', ci, cj, iov. split; [exact HL|]. split; [exact H1|]. split; [exact H2|].
    split; [exact H3|]. split; [exact H4|]. split; [exact H5 | exact H6].
Defined.

(** The connection after the echo of three bytes, with the batch in flight. *)
Definition demo_c1 : @TcpConnection list_ring :=
  from_ok demo_c0 (step (A := first_fit) (ReadDone 3 (flags_of 0 true) [x61; x62; x63]) demo_c0).
Definition demo_sent : list (nat * SendQueue.TxFragment) :=
  [(0%nat, SendQueue.set_buffer [x61; x62; x63] SendQueue.new_TxFragment)].
Definition demo_q : SendQueue.SendQueue :=
  {| SendQueue.heap := {[ 0%nat := SendQueue.set_buffer [x61; x62; x63] SendQueue.new_TxFragment ]};
     SendQueue.head_ := Some 0%nat; SendQueue.tail_ := Some 0%nat; SendQueue.curr_ := None;
     SendQueue.slice_size_ := 1; SendQueue.total_len_ := 3 |}.
Lemma demo_q_rep : SendQueue.rep demo_q demo_sent [].
Proof.
  split; [|done..]. split; try done.
  - constructor; [done|]. constructor.
  - apply (bool_decide_unpack _). done.
  - repeat constructor; simpl; done.
Qed.
Lemma demo_c1_buffer : W.output_buffer_ (write_context_ demo_c1) = demo_q.
Proof. vm_compute. reflexivity. Qed.
Lemma demo_c1_inv : write_inv 4 demo_c1 demo_sent [].
Proof.
  split.
  - rewrite demo_c1_buffer. exact demo_q_rep.
  - vm_compute. reflexivity.
  - apply Nat.ltb_lt. vm_compute. reflexivity.
  - split; [apply Z.leb_le | apply Z.ltb_lt]; vm_compute; reflexivity.
  - assert (W.is_sending_ (write_context_ demo_c1) = true) as -> by (vm_compute; reflexivity).
    split; [vm_compute; reflexivity|]. split; vm_compute; reflexivity.
  - done.
Qed.

Lemma transient_error_asserts_witness :
  step (A := first_fit) (WriteDone (- EAGAIN)) demo_c1 = Fault AssertionFailed.
Proof.
  apply (transient_error_asserts (A := first_fit) 4 demo_c1 demo_sent (- EAGAIN)).
  - split; [exact demo_c1_inv|]. split; [vm_compute; reflexivity | vm_compute; discriminate].
  - vm_compute. reflexivity.
  - vm_compute. reflexivity.
Defined.

Lemma demo_reading_inv : read_inv (mkOthers [] demo_m) demo_reading [] [0; 1]%nat.
Proof.
  split; [|done]. split; [exact demo_m_ok | | apply keeps_refl | done]. split; [split|]; simpl; try done; constructor.
Qed.

Lemma enobufs_resubmits_witness :
  exists c', step (A := first_fit) (ReadDone (- ENOBUFS) 0 []) demo_reading = Ok c' /\
    requests c' = [SubmitRead 5; SubmitRead 5].
Proof.
  destruct (enobufs_resubmits (A := first_fit) (mkOthers [] demo_m) demo_reading [] [0; 1]%nat 0 []) as (c' & Hc' & Hq & _).
  - exact demo_reading_inv.
  - reflexivity.
  - reflexivity.
  - reflexivity.
  - exists c'. split; [exact Hc' | exact Hq].
Defined.

End ConnectionFaults.
