(* ===== verification/Logger.v ===== *)
(** * The log ([src/Logger.cc], [Logger.h], [Timestamp::to_string])

    The macros set the level of the one logger of the process, format the message
    into a buffer of their own and call [log], which reads the level again.  The
    threads of the server share the logger without a lock: a call is two steps,
    between which other threads can make theirs. *)

From Stdlib Require Import Strings.String Strings.Ascii.
From S2P Require Import Prelude Text.

Module Logger.

(** ** [Timestamp::to_string] *)

(** What [localtime] gives. *)
Record tm := mkTm {
  tm_year : Z;
  tm_mon : Z;
  tm_mday : Z;
  tm_hour : Z;
  tm_min : Z;
  tm_sec : Z
}.

(** A number in decimal, at least [width] characters wide. *)
Definition pad (c : Z) (width : nat) (n : Z) : text :=
  let s := Text.decimal n in replicate (width - length s) c ++ s.

(** ["%4d/%02d/%02d %02d/%02d/%02d"] *)
Definition to_string (localtime : Z -> tm) (microSecondsSinceEpoch : Z) : text :=
  let seconds := Z.quot microSecondsSinceEpoch 1000000 in
  let t := localtime seconds in
  Text.snprintf 128
    (pad 32 4 (tm_year t + 1900) ++ 47 :: pad 48 2 (tm_mon t + 1) ++ 47 :: pad 48 2 (tm_mday t) ++ 32 ::
     pad 48 2 (tm_hour t) ++ 47 :: pad 48 2 (tm_min t) ++ 47 :: pad 48 2 (tm_sec t)).

Definition tm_ok (t : tm) : Prop :=
  1000 <= tm_year t + 1900 < 10000 /\ 0 <= tm_mon t < 12 /\ 1 <= tm_mday t <= 31 /\ 0 <= tm_hour t < 24 /\
  0 <= tm_min t < 60 /\ 0 <= tm_sec t <= 60.

Lemma pad_two n : 0 <= n < 100 -> pad 48 2 n = [48 + n / 10; 48 + n mod 10].
Proof.
  intros Hn. unfold pad, Text.decimal. rewrite (proj2 (Z.ltb_ge n 0)) by lia. cbn [Text.digits].
  destruct (Z.ltb_spec n 10) as [Hlt|Hge].
  - rewrite Z.div_small, Z.mod_small by lia. reflexivity.
  - assert (0 <= n / 10 < 10) by (split; [apply Z.div_pos; lia | apply Z.div_lt_upper_bound; lia]).
    rewrite (proj2 (Z.ltb_lt (n / 10) 10)) by lia. reflexivity.
Qed.

Lemma pad_four n :
  1000 <= n < 10000 -> pad 32 4 n = [48 + n / 10 / 10 / 10; 48 + (n / 10 / 10) mod 10; 48 + (n / 10) mod 10; 48 + n mod 10].
Proof.
  intros Hn. unfold pad, Text.decimal. rewrite (proj2 (Z.ltb_ge n 0)) by lia. cbn [Text.digits].
  assert (100 <= n / 10 < 1000) by (split; [apply Z.div_le_lower_bound; lia | apply Z.div_lt_upper_bound; lia]).
  assert (10 <= n / 10 / 10 < 100) by (split; [apply Z.div_le_lower_bound; lia | apply Z.div_lt_upper_bound; lia]).
  assert (1 <= n / 10 / 10 / 10 < 10) by (split; [apply Z.div_le_lower_bound; lia | apply Z.div_lt_upper_bound; lia]).
  rewrite (proj2 (Z.ltb_ge n 10)), (proj2 (Z.ltb_ge (n / 10) 10)), (proj2 (Z.ltb_ge (n / 10 / 10) 10)),
    (proj2 (Z.ltb_lt (n / 10 / 10 / 10) 10)) by lia. reflexivity.
Qed.

Lemma two_inj n m : 48 + n / 10 = 48 + m / 10 -> 48 + n mod 10 = 48 + m mod 10 -> n = m.
Proof. intros H1 H2. rewrite (Z.div_mod n 10), (Z.div_mod m 10) by lia. lia. Qed.

(** The text of a time is never cut, has nineteen characters and determines the time
    to the second. *)
Theorem to_string_faithful lt us us' :
  tm_ok (lt (Z.quot us 1000000)) -> tm_ok (lt (Z.quot us' 1000000)) ->
  zlen (to_string lt us) = 19 /\
  (to_string lt us = to_string lt us' -> lt (Z.quot us 1000000) = lt (Z.quot us' 1000000)).
Proof.
  set (t := lt (Z.quot us 1000000)). set (t' := lt (Z.quot us' 1000000)).
  intros (H1 & H2 & H3 & H4 & H5 & H6) (G1 & G2 & G3 & G4 & G5 & G6). unfold to_string. fold t t'.
  rewrite !pad_four, !pad_two by lia. split; [reflexivity|].
  cbn [app]. unfold Text.snprintf, ztake. change (Z.to_nat (128 - 1)) with 127%nat. cbn [take]. intros E.
  injection E as E1 E2 E3 E4 E5 E6 E7 E8 E9 E10 E11 E12 E13 E14.
  assert (Hy : tm_year t + 1900 = tm_year t' + 1900).
  { apply two_inj; [|lia]. f_equal. apply two_inj; [|lia]. f_equal. apply two_inj; lia. }
  assert (tm_mon t + 1 = tm_mon t' + 1) by (apply two_inj; lia).
  assert (tm_mday t = tm_mday t') by (apply two_inj; lia).
  assert (tm_hour t = tm_hour t') by (apply two_inj; lia).
  assert (tm_min t = tm_min t') by (apply two_inj; lia).
  assert (tm_sec t = tm_sec t') by (apply two_inj; lia).
  destruct t, t'; simpl in *. f_equal; lia.
Qed.

(** ** The logger *)

Inductive LogLevel := INFO | ERROR | FATAL | DEBUG.
#[global] Instance LogLevel_eq_dec : EqDecision LogLevel.
Proof. solve_decision. Defined.

(** [log_level_] of the one instance, which is zeroed as a static object; the lines
    written; the threads that are inside a macro, with their buffer and the level
    they asked for; whether a [LOG_FATAL] has ended the program. *)
Record st := mkSt {
  log_level_ : LogLevel;
  out : list text;
  busy : gmap nat (LogLevel * text);
  exited : bool
}.
Definition getInstance : st := mkSt INFO [] ∅ false.

Definition setLogLevel (level : LogLevel) (s : st) : st := mkSt level (out s) (busy s) (exited s).

Definition pre (level : LogLevel) : text :=
  match level with
  | INFO => [91; 73; 78; 70; 79; 93]
  | ERROR => [91; 69; 82; 82; 79; 82; 93]
  | FATAL => [91; 70; 65; 84; 65; 76; 93]
  | DEBUG => [91; 68; 69; 66; 85; 71; 93]
  end.

Section logger.
Context (localtime : Z -> tm) (mudebug : bool).

(** [log]; [now] is the time of the system clock. *)
Definition log (now : Z) (msg : text) (s : st) : st :=
  let line := pre (log_level_ s) ++ to_string localtime now ++ 58 :: msg ++ [10] in
  mkSt (log_level_ s) (out s ++ [line]) (busy s) (exited s).

(** The two halves of a macro in thread [t]: the level, the buffer with the formatted
    message [msg]; then the call of [log], and [exit(-1)] in [LOG_FATAL]. *)
Definition macro_begin (t : nat) (level : LogLevel) (msg : text) (s : st) : st :=
  let s := setLogLevel level s in
  mkSt (log_level_ s) (out s) (<[t := (level, Text.snprintf 1024 msg)]> (busy s)) (exited s).
Definition macro_end (t : nat) (now : Z) (s : st) : option st :=
  match busy s !! t with
  | None => None
  | Some (level, buffer) =>
      let s := log now buffer s in
      Some (mkSt (log_level_ s) (out s) (delete t (busy s)) (bool_decide (level = FATAL)))
  end.

Inductive event :=
  | Begin (t : nat) (level : LogLevel) (msg : text)
  | End_ (t : nat) (now : Z).

Definition step (e : event) (s : st) : option st :=
  if exited s then None
  else
    match e with
    | Begin t level msg =>
        match busy s !! t with
        | Some _ => None
        | None => Some (macro_begin t level msg s)
        end
    | End_ t now => macro_end t now s
    end.

(** The macros: what thread [t] does, when nothing comes in between. *)
Definition LOG_INFO (t : nat) (msg : text) (now : Z) : list event := [Begin t INFO msg; End_ t now].
Definition LOG_ERROR (t : nat) (msg : text) (now : Z) : list event := [Begin t ERROR msg; End_ t now].
(** The second half ends the program. *)
Definition LOG_FATAL (t : nat) (msg : text) (now : Z) : list event := [Begin t FATAL msg; End_ t now].
(** Without [MUDEBUG] the macro is empty. *)
Definition LOG_DEBUG (t : nat) (msg : text) (now : Z) : list event :=
  if mudebug then [Begin t DEBUG msg; End_ t now] else [].

Fixpoint run (es : list event) (s : st) : option st :=
  match es with
  | [] => Some s
  | e :: es => s ← step e s; run es s
  end.

(** A call of a macro by a thread that is not interrupted by another one's. *)
Record call := mkCall {
  c_thread : nat;
  c_level : LogLevel;
  c_msg : text;
  c_now : Z
}.
Definition call_events (c : call) : list event :=
  match c_level c with
  | INFO => LOG_INFO (c_thread c) (c_msg c) (c_now c)
  | ERROR => LOG_ERROR (c_thread c) (c_msg c) (c_now c)
  | FATAL => LOG_FATAL (c_thread c) (c_msg c) (c_now c)
  | DEBUG => LOG_DEBUG (c_thread c) (c_msg c) (c_now c)
  end.
(** The line that is wanted, written out: the name of the level in brackets, year,
    month and day, hour, minute and second in digits, a colon, the message cut
    after 1023 characters and the end of the line. *)
Definition chars (s : string) : text := (fun c => Z.of_N (N_of_ascii c)) <$> list_ascii_of_string s.
Definition digit (n : Z) : Z := 48 + n mod 10.
Definition two_digits (n : Z) : text := [digit (n / 10); digit n].
Definition four_digits (n : Z) : text := two_digits (n / 100) ++ two_digits n.
Definition wanted_level (level : LogLevel) : text :=
  chars match level with
        | INFO => "[INFO]"
        | ERROR => "[ERROR]"
        | FATAL => "[FATAL]"
        | DEBUG => "[DEBUG]"
        end.
Definition wanted_time (t : tm) : text :=
  four_digits (tm_year t + 1900) ++ chars "/" ++ two_digits (tm_mon t + 1) ++ chars "/" ++ two_digits (tm_mday t) ++
  chars " " ++ two_digits (tm_hour t) ++ chars "/" ++ two_digits (tm_min t) ++ chars "/" ++ two_digits (tm_sec t).
Definition second_of (c : call) : tm := localtime (Z.quot (c_now c) 1000000).
Definition call_line (c : call) : list text :=
  if bool_decide (c_level c = DEBUG) && negb mudebug then []
  else [wanted_level (c_level c) ++ wanted_time (second_of c) ++ chars ":" ++ take 1023 (c_msg c) ++ [10]].

Lemma pre_wanted level : pre level = wanted_level level.
Proof. by destruct level. Qed.

Lemma to_string_wanted us :
  tm_ok (localtime (Z.quot us 1000000)) -> to_string localtime us = wanted_time (localtime (Z.quot us 1000000)).
Proof.
  set (t := localtime _). intros (H1 & H2 & H3 & H4 & H5 & H6). unfold to_string. fold t.
  rewrite pad_four, !pad_two by lia. cbn [app]. unfold Text.snprintf, ztake. change (Z.to_nat (128 - 1)) with 127%nat. cbn [take].
  assert (Htwo : forall n, 0 <= n < 100 -> [48 + n / 10; 48 + n mod 10] = two_digits n).
  { intros n Hn. unfold two_digits, digit. rewrite (Z.mod_small (n / 10)); [done|].
    split; [apply Z.div_pos; lia | apply Z.div_lt_upper_bound; lia]. }
  unfold wanted_time. rewrite <- !Htwo by lia. cbn [app chars fmap list_fmap list_ascii_of_string].
  set (y := tm_year t + 1900) in *. unfold four_digits, two_digits, digit. cbn [app].
  replace (y / 10 / 10 / 10) with ((y / 100 / 10) mod 10).
  - replace (y / 10 / 10) with (y / 100) by (rewrite Z.div_div by lia; done). reflexivity.
  - rewrite !Z.div_div by lia. apply Z.mod_small. split; [apply Z.div_pos; lia | apply Z.div_lt_upper_bound; lia].
Qed.

Lemma run_app es es' s s' : run es s = Some s' -> run (es ++ es') s = run es' s'.
Proof.
  revert s. induction es as [|e es IH]; intros s H; simpl in *; [by simplify_eq|].
  destruct (step e s) as [s1|]; [|done]. simpl in *. by apply IH.
Qed.

Lemma call_ok c s :
  tm_ok (second_of c) -> busy s = ∅ -> exited s = false ->
  exists s', run (call_events c) s = Some s' /\ busy s' = ∅ /\ out s' = out s ++ call_line c /\
    exited s' = bool_decide (c_level c = FATAL).
Proof.
  intros Ht Hb He. unfold call_line. destruct c as [t l m now]. unfold second_of in *. simpl in *.
  destruct (bool_decide (l = DEBUG) && negb mudebug) eqn:Ed; simpl.
  - apply andb_true_iff in Ed as [Hl%bool_decide_eq_true Hm]. subst l. exists s. unfold call_events, LOG_DEBUG. simpl.
    destruct mudebug; [done|]. by rewrite app_nil_r.
  - assert (Hce : call_events (mkCall t l m now) = [Begin t l m; End_ t now]).
    { unfold call_events. destruct l; try done. unfold LOG_DEBUG. simpl. by destruct mudebug. }
    assert (Hbeg : step (Begin t l m) s = Some (macro_begin t l m s)) by (unfold step; by rewrite He, Hb, lookup_empty).
    rewrite Hce. cbn [run]. rewrite Hbeg. cbn [mbind option_bind].
    unfold step, macro_end, macro_begin. simpl. rewrite He. simpl.
    rewrite lookup_insert_eq. simpl. eexists. split; [done|]. simpl.
    rewrite Hb, insert_empty, delete_singleton_eq, pre_wanted, (to_string_wanted now Ht). done.
Qed.

(** C31. When calls of the log macros do not overlap and the year has four digits, every
    message is printed once, in order, as a line with the name of its own level, the
    date and time of the call in digits and the message, cut after 1023 characters,
    also when different threads make the calls; debug messages are printed just
    with [MUDEBUG]; and a fatal message is the last one, after which the program
    has ended. *)
Theorem messages_keep_their_level calls c :
  Forall (fun c => c_level c <> FATAL) calls -> Forall (fun c => tm_ok (second_of c)) (calls ++ [c]) ->
  exists s, run ((calls ++ [c]) ≫= call_events) getInstance = Some s /\
    out s = (calls ++ [c]) ≫= call_line /\
    exited s = bool_decide (c_level c = FATAL) /\
    (c_level c = FATAL -> forall e, step e s = None).
Proof.
  intros Hc [Ht Hlast]%Forall_app. rewrite Forall_singleton in Hlast.
  assert (Hall : forall s, busy s = ∅ -> exited s = false ->
    exists s', run (calls ≫= call_events) s = Some s' /\ busy s' = ∅ /\ exited s' = false /\
      out s' = out s ++ (calls ≫= call_line)).
  { induction Hc as [|d cs Hd _ IH]; intros s Hb He; [exists s; by rewrite app_nil_r|].
    apply Forall_cons in Ht as [Hd1 Ht]. specialize (IH Ht). destruct (call_ok d s Hd1 Hb He) as (s1 & Hs1 & Hb1 & Ho1 & He1). rewrite (bool_decide_eq_false_2 _ Hd) in He1.
    destruct (IH s1 Hb1 He1) as (s2 & Hs2 & Hb2 & He2 & Ho2). exists s2. rewrite !bind_cons, (run_app _ _ _ _ Hs1).
    split_and!; try done. by rewrite Ho2, Ho1, <- app_assoc. }
  destruct (Hall getInstance eq_refl eq_refl) as (s1 & Hs1 & Hb1 & He1 & Ho1).
  destruct (call_ok c s1 Hlast Hb1 He1) as (s2 & Hs2 & Hb2 & Ho2 & He2). exists s2.
  assert (Hone : forall {X} (g : call -> list X), [c] ≫= g = g c) by (intros; by rewrite bind_cons, app_nil_r).
  rewrite !bind_app, (run_app _ _ _ _ Hs1), !Hone. split_and!; try done.
  - by rewrite Ho2, Ho1.
  - intros Hf e. unfold step. by rewrite He2, bool_decide_eq_true_2.
Qed.

(** When two threads log at the same time, a message can be printed with the level of
    the other one's message. *)
Theorem level_race now :
  exists s, run [Begin 0 INFO [97]; Begin 1 ERROR [98]; End_ 0 now; End_ 1 now] getInstance = Some s /\
    out s = [pre ERROR ++ to_string localtime now ++ chars ":a" ++ [10];
             pre ERROR ++ to_string localtime now ++ chars ":b" ++ [10]].
Proof. eexists. split; [reflexivity|]. reflexivity. Qed.

End logger.

Definition demo_tm (seconds : Z) : tm := mkTm 126 0 1 0 0 0.
Definition demo_calls : list call := [mkCall 0 INFO [97] 0; mkCall 1 DEBUG [98] 5].
Definition demo_last : call := mkCall 1 FATAL [99] 7.

Lemma messages_keep_their_level_witness :
  exists s, run demo_tm ((demo_calls ++ [demo_last]) ≫= call_events false) getInstance = Some s /\
    out s = [chars "[INFO]2026/01/01 00/00/00:a" ++ [10]; chars "[FATAL]2026/01/01 00/00/00:c" ++ [10]] /\ exited s = true.
Proof.
  destruct (messages_keep_their_level demo_tm false demo_calls demo_last) as (s & Hs & Ho & He & _).
  - repeat constructor; discriminate.
  - repeat constructor; vm_compute; congruence.
  - exists s. split; [exact Hs|]. rewrite Ho, He. split; reflexivity.
Defined.

End Logger.
