(* ===== verification/LoopThread.v ===== *)
(** * A thread with a loop ([src/Thread.cc], [src/CurrentThread.cc],
      [src/IoUringLoopThread.cc])

    [IoUringLoopThread] starts a thread, waits until the thread has built its loop
    and hands the loop out; its destructor stops the loop and waits for the thread.
    The owner and the thread interleave: every step is an atomic action of one of
    them, between two accesses to what they share. *)

From S2P Require Import Prelude Text.

(** ** [CurrentThread]: the thread id is asked of the kernel once *)

Module CurrentThread.

(** [t_cachedTid] is a thread-local variable; [gettid] the answer of the kernel. *)
Definition cacheTid (gettid t_cachedTid : Z) : Z := if t_cachedTid =? 0 then gettid else t_cachedTid.
(** The result, and the variable after the call. *)
Definition tid (gettid t_cachedTid : Z) : Z * Z :=
  let t_cachedTid := if t_cachedTid =? 0 then cacheTid gettid t_cachedTid else t_cachedTid in
  (t_cachedTid, t_cachedTid).

(** The variable after [n] calls in a thread. *)
Fixpoint cached (gettid : Z) (n : nat) : Z :=
  match n with
  | O => 0
  | S n => (tid gettid (cached gettid n)).2
  end.

(** Every call in a thread gives the id of the thread. *)
Lemma tid_is_gettid gettid n : (tid gettid (cached gettid n)).1 = gettid.
Proof.
  assert (H : forall c, c = 0 \/ c = gettid -> tid gettid c = (gettid, gettid)).
  { intros c Hc. unfold tid, cacheTid. destruct (Z.eqb_spec c 0); [done|]. by destruct Hc as [?| ->]. }
  assert (Hn : cached gettid n = 0 \/ cached gettid n = gettid).
  { induction n as [|n IH]; [by left|]. right. cbn [cached]. by rewrite (H _ IH). }
  by rewrite (H _ Hn).
Qed.

End CurrentThread.

(** ** [Thread] *)

Module Thread.

(** [thread_] is the [std::thread]: none, joinable, or joined or detached. *)
Inductive std_thread := NoThread | Joinable | Released.
#[global] Instance std_thread_eq_dec : EqDecision std_thread.
Proof. solve_decision. Defined.

Record Thread := mkThread {
  name_ : text;
  started_ : bool;
  joined_ : bool;
  thread_ : std_thread;
  tid_ : Z
}.

Definition prefix : text := [84; 104; 114; 101; 97; 100].
(** [atomic_int] wraps around. *)
Definition wrap_int (z : Z) : Z := (z + 2 ^ 31) mod 2 ^ 32 - 2 ^ 31.

(** [setDefaultName]: the counter of all threads goes up, a thread without a name
    is called after it. *)
Definition setDefaultName (num_created : Z) (name : text) : Z * text :=
  let num := wrap_int (num_created + 1) in
  (num, if bool_decide (name = []) then Text.snprintf 32 (prefix ++ Text.decimal num) else name).

Definition new_Thread (num_created : Z) (name : text) : Z * Thread :=
  let '(num, name) := setDefaultName num_created name in
  (num, mkThread name false false NoThread 0).

(** [start], up to the wait for the id of the new thread.  Replacing a [std::thread]
    that is joinable calls [std::terminate]. *)
Definition start (t : Thread) : result Thread :=
  match thread_ t with
  | Joinable => Fault Terminated
  | _ => Ok (mkThread (name_ t) true (joined_ t) Joinable (tid_ t))
  end.

(** What the new thread does before it calls [func_]. *)
Definition set_tid (gettid : Z) (t : Thread) : Thread :=
  mkThread (name_ t) (started_ t) (joined_ t) (thread_ t) (CurrentThread.tid gettid 0).1.

(** [join]; [std::thread::join] throws unless the thread is joinable. *)
Definition join (t : Thread) : result Thread :=
  _ ← assert_ (started_ t);
  _ ← assert_ (negb (joined_ t));
  if started_ t && negb (joined_ t) then
    match thread_ t with
    | Joinable => Ok (mkThread (name_ t) (started_ t) true Released (tid_ t))
    | NoThread => Fault NullDeref
    | Released => Fault Terminated
    end
  else Ok t.

(** [~Thread] detaches a thread that runs and was not joined; then the destructor
    of [std::thread] terminates the program if the thread is joinable. *)
Definition destruct_Thread (t : Thread) : result unit :=
  if started_ t && negb (joined_ t) then
    match thread_ t with
    | Joinable => Ok tt
    | NoThread => Fault NullDeref
    | Released => Fault Terminated
    end
  else match thread_ t with Joinable => Fault Terminated | _ => Ok tt end.

(** The flags describe the [std::thread]. *)
Definition wf (t : Thread) : Prop :=
  thread_ t = (if started_ t then if joined_ t then Released else Joinable else NoThread) /\
  (joined_ t = true -> started_ t = true).

Lemma new_Thread_wf n name : wf (new_Thread n name).2 /\ started_ (new_Thread n name).2 = false.
Proof. by unfold new_Thread, setDefaultName. Qed.

Lemma thread_start_wf t : wf t -> started_ t = false -> exists t', start t = Ok t' /\ wf t' /\ started_ t' = true /\ joined_ t' = false.
Proof.
  intros [Ht Hj] Hs. unfold start. rewrite Hs in Ht. rewrite Ht. eexists. split; [done|].
  assert (joined_ t = false) as Hjf by (destruct (joined_ t); [by rewrite Hj in Hs | done]).
  split; [|done]. split; simpl; [by rewrite Hjf | done].
Qed.

Lemma join_wf t : wf t -> started_ t = true -> joined_ t = false -> exists t', join t = Ok t' /\ wf t'.
Proof.
  intros [Ht _] Hs Hj. rewrite Hs, Hj in Ht. unfold join. rewrite Hs, Hj. simpl. rewrite Ht. by eexists.
Qed.

Lemma destruct_wf t : wf t -> destruct_Thread t = Ok tt.
Proof.
  intros [Ht Hj]. unfold destruct_Thread. rewrite Ht. destruct (started_ t), (joined_ t); try done.
Qed.

(** The default name is never cut by its buffer, and tells the number. *)
Lemma default_name_full num :
  0 <= num < 2 ^ 31 - 1 -> (setDefaultName num []).2 = prefix ++ Text.decimal (num + 1).
Proof.
  intros Hn. unfold setDefaultName, wrap_int. rewrite Z.mod_small by lia.
  replace (num + 1 + 2 ^ 31 - 2 ^ 31) with (num + 1) by lia. cbn [snd].
  rewrite bool_decide_eq_true_2 by done. unfold Text.snprintf. apply ztake_all. rewrite zlen_app. unfold Text.decimal.
  rewrite (proj2 (Z.ltb_ge _ _)) by lia. change (zlen prefix) with 6. unfold zlen.
  pose proof (Text.length_digits 10 (num + 1)). lia.
Qed.

End Thread.

(** ** [IoUringLoopThread] *)

Module IoUringLoopThread.

(** Where the owner is. *)
Inductive Owner :=
  | Constructed   (** after the constructor *)
  | Starting      (** in [startLoop], waiting for the id of the thread *)
  | Waiting       (** at the predicate of [cv_.wait] *)
  | Asleep        (** in [cv_.wait], to be notified *)
  | Woken         (** the predicate held *)
  | InUse         (** [startLoop] has returned *)
  | Exiting       (** in the destructor, after [exiting_ = true] *)
  | Quitting      (** [loop_] was not null *)
  | Waking        (** in [loop_->quit()], after [quit_ = true] *)
  | Joining       (** before or in [thread_->join()] *)
  | Destroyed.

(** Where the thread is. *)
Inductive Worker :=
  | None_         (** there is no thread yet *)
  | Spawned
  | Announced     (** its id is set, [start] may return *)
  | LoopBuilt     (** [loop] exists *)
  | CalledBack    (** the initialisation callback has returned *)
  | Going         (** [exiting_] was false *)
  | Published     (** [loop_] was set and the owner notified *)
  | Entered       (** in [loop()], after [if(quit_) return] *)
  | Looping       (** in the [while] of [loop()] *)
  | LoopLeft      (** [loop()] has returned *)
  | Cleared       (** [loop_ = nullptr] *)
  | Ending        (** the destructor of the local loop has begun *)
  | Ended.        (** the thread has ended *)

#[global] Instance Owner_eq_dec : EqDecision Owner.
Proof. solve_decision. Defined.
#[global] Instance loop_Worker_eq_dec : EqDecision Worker.
Proof. solve_decision. Defined.

(** [loop_] tells whether the pointer is set; [quit_] is the flag of the loop;
    [returned] the pointer that [startLoop] returned; [other]: another thread is in
    [quit()] of the loop, after [quit_ = true]. *)
Record st := mkSt {
  owner : Owner;
  worker : Worker;
  thread_ : option Thread.Thread;
  loop_ : bool;
  exiting_ : bool;
  quit_ : bool;
  returned : option bool;
  other : bool
}.

Definition set_owner (o : Owner) (s : st) : st :=
  mkSt o (worker s) (thread_ s) (loop_ s) (exiting_ s) (quit_ s) (returned s) (other s).
Definition set_worker (w : Worker) (s : st) : st :=
  mkSt (owner s) w (thread_ s) (loop_ s) (exiting_ s) (quit_ s) (returned s) (other s).
Definition set_thread (t : option Thread.Thread) (s : st) : st :=
  mkSt (owner s) (worker s) t (loop_ s) (exiting_ s) (quit_ s) (returned s) (other s).
Definition set_loop (b : bool) (s : st) : st :=
  mkSt (owner s) (worker s) (thread_ s) b (exiting_ s) (quit_ s) (returned s) (other s).
Definition set_exiting (b : bool) (s : st) : st :=
  mkSt (owner s) (worker s) (thread_ s) (loop_ s) b (quit_ s) (returned s) (other s).
Definition set_quit (b : bool) (s : st) : st :=
  mkSt (owner s) (worker s) (thread_ s) (loop_ s) (exiting_ s) b (returned s) (other s).
Definition set_returned (b : bool) (s : st) : st :=
  mkSt (owner s) (worker s) (thread_ s) (loop_ s) (exiting_ s) (quit_ s) (Some b) (other s).
Definition set_other (b : bool) (s : st) : st :=
  mkSt (owner s) (worker s) (thread_ s) (loop_ s) (exiting_ s) (quit_ s) (returned s) b.

Definition new_IoUringLoopThread : st := mkSt Constructed None_ None false false false None false.

(** The loop is a local variable of the thread. *)
Definition loop_alive (s : st) : bool :=
  match worker s with
  | LoopBuilt | CalledBack | Going | Published | Entered | Looping | LoopLeft | Cleared => true
  | _ => false
  end.

(** [loop_->quit()] of another thread: it sets [quit_]; after that it reads
    [thread_id_] in [isInLoopThread] and writes to the eventfd in [wakeUp].  The loop
    leaves its [while] whenever it finds [quit_] set, also before it is woken. *)
Definition quit (s : st) : result st := if loop_alive s then Ok (set_quit true s) else Fault Dangling.
Definition wakeUp (s : st) : result st := if loop_alive s then Ok s else Fault Dangling.

(** [startLoop] up to the wait in [Thread::start]. *)
Definition startLoop (num_created : Z) (name : text) (s : st) : result st :=
  _ ← assert_ (bool_decide (thread_ s = None));
  t ← Thread.start (Thread.new_Thread num_created name).2;
  Ok (set_owner Starting (set_worker Spawned (set_thread (Some t) s))).

(** The next action of the owner in the rest of [startLoop]; [None]: it is blocked, or
    it is not there. *)
Definition startLoop_step (s : st) : option (result st) :=
  match owner s with
  | Starting => if bool_decide (worker s = Spawned) then None else Some (Ok (set_owner Waiting s))
  | Waiting => Some (Ok (set_owner (if loop_ s then Woken else Asleep) s))
  | Woken => Some (Ok (set_owner InUse (set_returned (loop_ s) s)))
  | _ => None
  end.

(** [~IoUringLoopThread]: its start, and its next action. *)
Definition destroy (s : st) : st := set_owner Exiting (set_exiting true s).
Definition destroy_step (s : st) : option (result st) :=
  match owner s with
  | Exiting => Some (Ok (set_owner (if loop_ s then Quitting else Joining) s))
  | Quitting => Some (s ← quit s; Ok (set_owner Waking s))
  | Waking => Some (s ← wakeUp s; Ok (set_owner Joining s))
  | Joining =>
      match thread_ s with
      | None => Some (Ok (set_owner Destroyed s))
      | Some t =>
          if bool_decide (worker s = Ended)
          then Some (t ← Thread.join t; Ok (set_owner Destroyed (set_thread (Some t) s)))
          else None
      end
  | _ => None
  end.

Definition owner_step (s : st) : option (result st) :=
  match owner s with
  | Exiting | Quitting | Waking | Joining => destroy_step s
  | _ => startLoop_step s
  end.

(** The next action of the thread: the closure of [Thread::start], [ThreadFunc] and
    [loop()].  [cb_quits]: the initialisation callback calls [quit()].  The destructor
    of the loop uses the ring it has deleted ([LoopLife.v]), so that no thread gets
    past it in order. *)
Definition worker_step (cb_quits : bool) (gettid : Z) (s : st) : option (result st) :=
  match worker s with
  | Ending => Some (Fault Dangling)
  | w => Ok <$> match w with
  | None_ | Ended | Ending => None
  | Spawned => Some (set_worker Announced (set_thread (Thread.set_tid gettid <$> thread_ s) s))
  | Announced => Some (set_worker LoopBuilt (set_quit false s))
  | LoopBuilt => Some (set_worker CalledBack (if cb_quits then set_quit true s else s))
  | CalledBack => Some (set_worker (if exiting_ s then Ending else Going) s)
  | Going =>
      Some (set_worker Published (set_loop true
        (match owner s with Asleep => set_owner Waiting s | _ => s end)))
  | Published => Some (set_worker (if quit_ s then LoopLeft else Entered) s)
  | Entered => Some (set_worker Looping (set_quit false s))
  | Looping => if quit_ s then Some (set_worker LoopLeft s) else None
  | LoopLeft => Some (set_worker Cleared (set_loop false s))
  | Cleared => Some (set_worker Ending s)
  end
  end.

(** The client calls [startLoop] on a new object and destroys an object it uses;
    [QuitElsewhere], [WakeElsewhere]: the two halves of a [quit()] of somebody else who
    has the loop. *)
Inductive event :=
  | StartLoop
  | Destroy
  | OwnerStep
  | WorkerStep
  | QuitElsewhere
  | WakeElsewhere.

Section run.
Context (cb_quits : bool) (gettid num_created : Z) (name : text).

Definition step (e : event) (s : st) : option (result st) :=
  match e with
  | StartLoop => match owner s with
                 | Constructed | InUse => Some (startLoop num_created name s)
                 | _ => None
                 end
  | Destroy => match owner s with
               | Constructed | InUse => Some (Ok (destroy s))
               | _ => None
               end
  | OwnerStep => owner_step s
  | WorkerStep => worker_step cb_quits gettid s
  | QuitElsewhere => if loop_ s && negb (other s) then Some (s ← quit s; Ok (set_other true s)) else None
  | WakeElsewhere => if other s then Some (s ← wakeUp s; Ok (set_other false s)) else None
  end.

(** The states to which events that [P] allows lead. *)
Inductive reachable (P : event -> st -> bool) : st -> Prop :=
  | reachable_init : reachable P new_IoUringLoopThread
  | reachable_step e s s' : reachable P s -> P e s = true -> step e s = Some (Ok s') -> reachable P s'.

(** No event that [P] allows can happen. *)
Definition deadlocked (P : event -> st -> bool) (s : st) : Prop := forall e, P e s = true -> step e s = None.

Fixpoint steps (es : list event) (s : st) : option (result st) :=
  match es with
  | [] => Some (Ok s)
  | e :: es => match step e s with
               | Some (Ok s) => steps es s
               | r => r
               end
  end.

(** [startLoop] is called once; nobody else stops the loop. *)
Definition calm (e : event) (s : st) : bool :=
  match e with
  | StartLoop => bool_decide (owner s = Constructed)
  | QuitElsewhere | WakeElsewhere => false
  | _ => true
  end.
Definition any (e : event) (s : st) : bool := true.

(** The events of a run that [P] allows. *)
Fixpoint allowed (P : event -> st -> bool) (es : list event) (s : st) : bool :=
  match es with
  | [] => true
  | e :: es => P e s && match step e s with Some (Ok s) => allowed P es s | _ => false end
  end.

Lemma steps_reachable P es : forall s s',
  reachable P s -> allowed P es s = true -> steps es s = Some (Ok s') -> reachable P s'.
Proof.
  induction es as [|e es IH]; intros s s' Hr Ha Hs; simpl in *; [by simplify_eq|].
  apply andb_true_iff in Ha as [HP Ha]. destruct (step e s) as [[s1|]|] eqn:He; try done.
  apply (IH s1 s'); [by eapply reachable_step | done | done].
Qed.

End run.

(** ** When nobody else stops the loop *)

Section calm.
Context (gettid num_created : Z) (name : text).
Notation step := (step false gettid num_created name).
Notation steps := (steps false gettid num_created name).
Notation reachable := (reachable false gettid num_created name).

Definition published (w : Worker) : bool :=
  match w with Published | Entered | Looping | LoopLeft => true | _ => false end.
Definition exits (o : Owner) : bool :=
  match o with Exiting | Quitting | Waking | Joining | Destroyed => true | _ => false end.

(** Where the two threads can be at the same time, and [quit_] then. *)
Definition together (o : Owner) (w : Worker) (q : bool) : bool :=
  match o with
  | Constructed => false
  | Starting =>
      match w with None_ | LoopLeft | Cleared | Ending | Ended => false | _ => negb q end
  | Waiting =>
      match w with None_ | Spawned | LoopLeft | Cleared | Ending | Ended => false | _ => negb q end
  | Asleep =>
      match w with Announced | LoopBuilt | CalledBack | Going => negb q | _ => false end
  | Woken | InUse | Exiting | Quitting =>
      match w with Published | Entered | Looping => negb q | _ => false end
  | Waking | Joining =>
      match w with Published | Entered | Looping | LoopLeft | Cleared | Ending => true | _ => false end
  | Destroyed => false
  end.

Definition without_thread (o : Owner) : bool :=
  match o with Constructed | Exiting | Joining | Destroyed => true | _ => false end.

Record inv (s : st) : Prop := {
  inv_loop : loop_ s = published (worker s);
  inv_exiting : exiting_ s = exits (owner s);
  inv_thread :
    match thread_ s with
    | None => worker s = None_ /\ quit_ s = false /\ without_thread (owner s) = true
    | Some t => Thread.wf t /\ Thread.started_ t = true /\ Thread.joined_ t = bool_decide (owner s = Destroyed) /\
                together (owner s) (worker s) (quit_ s) = true
    end;
  inv_returned : owner s = InUse -> returned s = Some true
}.

Lemma inv_init : inv new_IoUringLoopThread.
Proof. by split. Qed.

(** What can go wrong in the step of an event: the thread is past [loop()] and destroys
    its loop, and the owner may be about to use it in the second half of [quit()]. *)
Definition at_fault (e : event) (s : st) : Prop :=
  worker s = Ending /\ exits (owner s) = true /\
  (e = WorkerStep \/ (e = OwnerStep /\ owner s = Waking)).

(** What an event leads to. *)
Definition leads (e : event) (s : st) : Prop :=
  step e s = None \/ (exists s', step e s = Some (Ok s') /\ inv s') \/
  (step e s = Some (Fault Dangling) /\ at_fault e s).

Lemma owner_step_inv s : inv s -> leads OwnerStep s.
Proof.
  intros [Hl He Ht Hr]. destruct s as [o w t lp ex q ret ot]. simpl in *. subst lp ex.
  unfold leads, at_fault. simpl. unfold owner_step, startLoop_step, destroy_step. simpl.
  destruct t as [t|]; [destruct Ht as (Hwf & Hst & Hjo & Htg)|destruct Ht as (-> & -> & Ho)].
  - destruct o; simpl in *; try (by left); try (destruct w; simpl in *; try discriminate).
    all: destruct q; simpl in *; try discriminate.
    all: try (by left); try (right; left; eexists; split; [reflexivity|]; split; simpl; by auto).
    all: right; right; by naive_solver.
  - destruct o; simpl in *; try discriminate; try (by left).
    all: right; left; eexists; split; [reflexivity|]; split; simpl; by auto.
Qed.

Lemma worker_step_inv s : inv s -> leads WorkerStep s.
Proof.
  intros [Hl He Ht Hr]. destruct s as [o w t lp ex q ret ot]. simpl in *. subst lp ex. unfold leads, at_fault. simpl.
  unfold worker_step. simpl.
  destruct t as [t|]; [destruct Ht as (Hwf & Hst & Hjo & Htg)|destruct Ht as (-> & -> & Ho); by left].
  destruct w; simpl; try (by left); destruct o; simpl in *; try discriminate;
    destruct q; simpl in *; try discriminate; try (by left);
    try (right; left; eexists; split; [reflexivity|]; split; simpl; by auto); right; right; by naive_solver.
Qed.

Lemma event_inv e s : inv s -> calm e s = true -> leads e s.
Proof.
  intros Hi Hc. destruct e; simpl in *; [| | by apply owner_step_inv | by apply worker_step_inv |done|done].
  - apply bool_decide_eq_true in Hc. unfold leads. simpl. rewrite Hc. right. left. pose proof (inv_thread _ Hi) as Ht.
    pose proof (inv_loop _ Hi) as Hl. pose proof (inv_exiting _ Hi) as He. rewrite Hc in *.
    destruct (thread_ s) as [t|] eqn:Et; [by destruct Ht as (_ & _ & _ & ?)|]. destruct Ht as (Hw & Hq & _).
    unfold startLoop. rewrite Et, bool_decide_eq_true_2 by done. cbn [assert_ mbind result_bind].
    destruct (Thread.new_Thread_wf num_created name) as [Hwf Hns].
    destruct (Thread.thread_start_wf _ Hwf Hns) as (t & Hs & Hwf' & Hst & Hjo). rewrite Hs. cbn [mbind result_bind].
    eexists. split; [done|]. rewrite Hw in Hl. split; simpl; try done. by rewrite Hq.
  - unfold leads. simpl. destruct (owner s) eqn:Eo; try (by left); right; left; (eexists; split; [done|]).
    all: destruct Hi as [Hl He Ht Hr]; rewrite Eo in *; split; simpl; try done.
    all: destruct (thread_ s); destruct_and! Ht; by auto.
Qed.

Lemma calm_inv s : reachable calm s -> inv s.
Proof.
  induction 1 as [|e s s' Hr IH Hc Hs]; [exact inv_init|].
  destruct (event_inv e s IH Hc) as [?|[(s1 & ? & ?)|[? _]]]; congruence.
Qed.

(** C25. A loop thread starts safely: in every interleaving of the owner and the thread, with
    [startLoop] called once and nobody else stopping the loop, no assertion of
    [startLoop] fails, [startLoop] returns the loop, and the loop exists while the
    object is in use and while [loop_] points to it.  A step can only go wrong after
    the destructor of the object was called and when the thread is in the destructor
    of its loop: it is the step of that destructor, or the owner's use of the loop in
    the second half of [quit()]. *)
Theorem loop_thread_safe s :
  reachable calm s ->
  (forall e f, calm e s = true -> step e s = Some (Fault f) ->
     f = Dangling /\ worker s = Ending /\ exiting_ s = true /\
     (e = WorkerStep \/ (e = OwnerStep /\ owner s = Waking))) /\
  (owner s = InUse -> returned s = Some true /\ loop_ s = true /\ loop_alive s = true) /\
  (loop_ s = true -> loop_alive s = true).
Proof.
  intros Hr. pose proof (calm_inv s Hr) as Hi. split; [|split].
  - intros e f Hc He. destruct (event_inv e s Hi Hc) as [?|[(s' & ? & _)|[Hf (Hw & Hx & Hcase)]]]; [congruence..|].
    rewrite (inv_exiting _ Hi). split; [congruence|]. done.
  - intros Ho. destruct Hi as [Hl _ Ht Hret]. rewrite Ho in *. split; [by apply Hret|].
    destruct (thread_ s); [|by destruct_and! Ht]. destruct Ht as (_ & _ & _ & Ht). unfold loop_alive. rewrite Hl.
    by destruct (worker s).
  - intros Hl. rewrite (inv_loop _ Hi) in Hl. unfold loop_alive. by destruct (worker s).
Qed.
End calm.

(** ** Runs *)

Definition demo_name : text := [108].

(** The thread goes on to its loop, the owner gets the loop. *)
Definition to_looping : list event :=
  [StartLoop; WorkerStep; OwnerStep; OwnerStep; WorkerStep; WorkerStep; WorkerStep; WorkerStep; OwnerStep; OwnerStep;
   WorkerStep; WorkerStep].

Definition after (cb_quits : bool) (es : list event) : st :=
  match steps cb_quits 77 0 demo_name es new_IoUringLoopThread with
  | Some (Ok s) => s
  | _ => new_IoUringLoopThread
  end.

Lemma after_reachable P cb_quits es :
  allowed cb_quits 77 0 demo_name P es new_IoUringLoopThread = true ->
  (match steps cb_quits 77 0 demo_name es new_IoUringLoopThread with Some (Ok _) => true | _ => false end) = true ->
  reachable cb_quits 77 0 demo_name P (after cb_quits es).
Proof.
  intros Ha Hs. unfold after. destruct (steps _ _ _ _ _ _) as [[s|]|] eqn:E; try done.
  eapply steps_reachable; [apply reachable_init | exact Ha | exact E].
Qed.

(** The thread gets as far as to the start of [loop()]; the owner destroys the object
    before [quit_ = false]. *)
Definition stop_early : list event :=
  [StartLoop; WorkerStep; OwnerStep; WorkerStep; WorkerStep; WorkerStep; WorkerStep; OwnerStep; OwnerStep; WorkerStep;
   Destroy; OwnerStep; OwnerStep; OwnerStep; WorkerStep].

(** The callback stops the loop; the owner looks at [loop_] when the thread has gone. *)
Definition callback_quits : list event :=
  [StartLoop; WorkerStep; OwnerStep; WorkerStep; WorkerStep; WorkerStep; WorkerStep; WorkerStep; WorkerStep; WorkerStep;
   OwnerStep].

(** A loop thread can hang its owner.  The destructor waits for ever when its
    [quit()] comes between the two lines of [loop()] that test and clear [quit_]:
    the thread sleeps in its loop and the owner in [join].  [startLoop] waits for
    ever when the initialisation callback stops the loop: the thread may have set
    [loop_] and cleared it again before the owner looks. *)
Theorem loop_thread_can_hang :
  (exists s, reachable false 77 0 demo_name calm s /\ owner s = Joining /\ worker s = Looping /\
     deadlocked false 77 0 demo_name calm s) /\
  (exists s, reachable true 77 0 demo_name calm s /\ owner s = Asleep /\ worker s = Ending /\
     forall e s', calm e s = true -> step true 77 0 demo_name e s <> Some (Ok s')).
Proof.
  split.
  - exists (after false stop_early). split; [by apply after_reachable|]. do 2 (split; [reflexivity|]).
    intros e He. by destruct e.
  - exists (after true callback_quits). split; [by apply after_reachable|]. do 2 (split; [reflexivity|]).
    intros e s' He. by destruct e.
Qed.

(** The owner is in the middle of [quit()] when the thread sees [quit_], leaves the
    loop and destroys it. *)
Definition race_quit : list event :=
  to_looping ++ [Destroy; OwnerStep; OwnerStep; WorkerStep; WorkerStep; WorkerStep].
(** Somebody else stops the loop between the test of [loop_] in the destructor and
    the call of [quit()]. *)
Definition race_other : list event :=
  to_looping ++ [QuitElsewhere; Destroy; OwnerStep; WorkerStep; WorkerStep; WorkerStep].

(** C26. The destructor of a loop thread can use a destroyed loop, also when nobody else
    stops the loop: [quit()] sets [quit_] first and uses the loop after that, when the
    thread may have left the loop and begun to destroy it.  When somebody else stops
    the loop the same can happen at the start of [quit()], since the destructor tests
    [loop_] without the mutex. *)
Theorem quit_uses_destroyed_loop :
  (exists s, reachable false 77 0 demo_name calm s /\ owner s = Waking /\ loop_alive s = false /\
    step false 77 0 demo_name OwnerStep s = Some (Fault Dangling)) /\
  (exists s, reachable false 77 0 demo_name any s /\ owner s = Quitting /\ loop_alive s = false /\
    step false 77 0 demo_name OwnerStep s = Some (Fault Dangling)).
Proof.
  split.
  - exists (after false race_quit). split; [by apply after_reachable|]. by do 2 (split; [reflexivity|]).
  - exists (after false race_other). split; [by apply after_reachable|]. by do 2 (split; [reflexivity|]).
Qed.

Lemma to_looping_reachable : reachable false 77 0 demo_name calm (after false to_looping).
Proof. by apply after_reachable. Qed.

Lemma loop_thread_safe_witness :
  owner (after false to_looping) = InUse /\ returned (after false to_looping) = Some true.
Proof.
  destruct (loop_thread_safe 77 0 demo_name (after false to_looping) to_looping_reachable) as (_ & H & _).
  split; [reflexivity|]. apply H. reflexivity.
Defined.

End IoUringLoopThread.
