(* ===== verification/LoopThreadPool.v ===== *)
(** * The pool of loop threads ([src/IoUringLoopThreadPool.cc])

    The threads of a server, each with its loop, and the loop that is next in
    turn for a new connection. *)

From S2P Require Import Prelude Text.

Module IoUringLoopThreadPool.
Section pool.
Context {A : Allocator}.

(** A loop is known by its address.  A thread of the pool is its name; [init_calls]
    records the loops that the initialisation callback was called with. *)
Record IoUringLoopThreadPool := mk {
  base_loop_ : nat;
  name_ : text;
  started_ : bool;
  next_ : Z;
  num_threads_ : Z;
  threads_ : list text;
  loops_ : list nat;
  init_calls : list nat
}.

Definition new_IoUringLoopThreadPool (base : nat) (name : text) : IoUringLoopThreadPool :=
  mk base name false 0 0 [] [] [].

Definition setNumThreads (n : Z) (p : IoUringLoopThreadPool) : result IoUringLoopThreadPool :=
  _ ← assert_ (negb (started_ p));
  Ok (mk (base_loop_ p) (name_ p) (started_ p) (next_ p) n (threads_ p) (loops_ p) (init_calls p)).

(** One turn of the loop of [start]: a thread whose loop is a new object.
    [cb]: the callback is set; the thread calls it before it publishes the loop. *)
Definition start_thread (cb : bool) (i : nat) (p : IoUringLoopThreadPool) : IoUringLoopThreadPool :=
  let loop := malloc (list_to_set (base_loop_ p :: loops_ p)) in
  mk (base_loop_ p) (name_ p) (started_ p) (next_ p) (num_threads_ p)
    (threads_ p ++ [name_ p ++ Text.decimal (Z.of_nat i)]) (loops_ p ++ [loop])
    (if cb then init_calls p ++ [loop] else init_calls p).

Definition start (cb : bool) (p : IoUringLoopThreadPool) : IoUringLoopThreadPool :=
  let p := mk (base_loop_ p) (name_ p) true (next_ p) (num_threads_ p) (threads_ p) (loops_ p) (init_calls p) in
  let p := foldl (fun p i => start_thread cb i p) p (seq 0 (Z.to_nat (num_threads_ p))) in
  if (num_threads_ p =? 0) && cb
  then mk (base_loop_ p) (name_ p) (started_ p) (next_ p) (num_threads_ p) (threads_ p) (loops_ p)
         (init_calls p ++ [base_loop_ p])
  else p.

Definition set_next (n : Z) (p : IoUringLoopThreadPool) : IoUringLoopThreadPool :=
  mk (base_loop_ p) (name_ p) (started_ p) n (num_threads_ p) (threads_ p) (loops_ p) (init_calls p).

(** [vector::operator[]] out of range and a remainder by zero are undefined. *)
Definition getNextLoop (p : IoUringLoopThreadPool) : result (nat * IoUringLoopThreadPool) :=
  if bool_decide (loops_ p = []) then Ok (base_loop_ p, p)
  else
    if (next_ p <? 0) || (num_threads_ p =? 0) then Fault UndefinedBehaviour
    else match loops_ p !! Z.to_nat (next_ p) with
         | None => Fault UndefinedBehaviour
         | Some loop => Ok (loop, set_next (Z.rem (next_ p + 1) (num_threads_ p)) p)
         end.

Definition getAllLoops (p : IoUringLoopThreadPool) : list nat :=
  if bool_decide (loops_ p = []) then [base_loop_ p] else loops_ p.

(** [k] calls of [getNextLoop]. *)
Fixpoint getNextLoops (k : nat) (p : IoUringLoopThreadPool) : result (list nat * IoUringLoopThreadPool) :=
  match k with
  | O => Ok ([], p)
  | S k =>
      '(l, p) ← getNextLoop p;
      '(ls, p) ← getNextLoops k p;
      Ok (l :: ls, p)
  end.

(** *** Invariant: the loops are distinct and different from the base loop, and
    there are as many as threads. *)
Record wf (p : IoUringLoopThreadPool) : Prop := {
  wf_nodup : NoDup (base_loop_ p :: loops_ p);
  wf_count : zlen (loops_ p) = Z.max 0 (num_threads_ p);
  wf_next : 0 <= next_ p;
  wf_next_lt : loops_ p <> [] -> next_ p < num_threads_ p
}.

(** The loop for the [i]-th connection. *)
Definition loop_at (p : IoUringLoopThreadPool) (i : nat) : nat :=
  let ls := getAllLoops p in nth (i mod length ls) ls 0%nat.

Lemma start_threads_ok cb n : forall i p,
  NoDup (base_loop_ p :: loops_ p) ->
  let p' := foldl (fun p i => start_thread cb i p) p (seq i n) in
  base_loop_ p' = base_loop_ p /\ num_threads_ p' = num_threads_ p /\ next_ p' = next_ p /\
  started_ p' = started_ p /\ NoDup (base_loop_ p' :: loops_ p') /\
  length (loops_ p') = (length (loops_ p) + n)%nat /\
  exists ls, loops_ p' = loops_ p ++ ls /\ init_calls p' = init_calls p ++ (if cb then ls else []).
Proof.
  induction n as [|n IH]; intros i p Hnd; simpl.
  { split_and!; try done. exists []. destruct cb; by rewrite !app_nil_r. }
  destruct (IH (S i) (start_thread cb i p)) as (H1 & H2 & H3 & H4 & H5 & H6 & ls & H7 & H8).
  { simpl. rewrite app_comm_cons. apply NoDup_app. split_and!; [done| |apply NoDup_singleton].
    intros x Hx ->%list_elem_of_singleton. revert Hx. rewrite <- (elem_of_list_to_set (C := gset nat)).
    apply malloc_fresh. }
  simpl in *. rewrite length_app in H6. simpl in H6. split_and!; try done; [lia|].
  eexists. rewrite H7, H8, <- app_assoc. split; [done|]. destruct cb; [by rewrite <- app_assoc|done].
Qed.

Lemma start_wf cb base name n p :
  setNumThreads n (new_IoUringLoopThreadPool base name) = Ok p ->
  wf (start cb p) /\ base_loop_ (start cb p) = base /\ num_threads_ (start cb p) = n /\ next_ (start cb p) = 0 /\
  init_calls (start cb p) = (if cb then if n <? 0 then [] else getAllLoops (start cb p) else []).
Proof.
  intros [= <-]. unfold start. simpl.
  destruct (start_threads_ok cb (Z.to_nat n) 0 (mk base name true 0 n [] [] [])) as (H1 & H2 & H3 & _ & H5 & H6 & ls & H7 & H8).
  { apply NoDup_singleton. }
  set (p' := foldl _ _ _) in *. simpl in H1, H2, H3, H6, H7, H8.
  assert (Hls : loops_ p' = [] <-> n <= 0) by (rewrite <- length_zero_iff_nil, H6; lia).
  split_and!.
  - assert (wf p'); [|by destruct (_ && _); [destruct H; split|]].
    split; [done | unfold zlen; lia | lia | rewrite Hls; lia].
  - by destruct (_ && _).
  - by destruct (_ && _).
  - by destruct (_ && _).
  - rewrite H2. destruct cb; [|rewrite andb_false_r; by rewrite H8]. rewrite andb_true_r.
    unfold getAllLoops. destruct (Z.eqb_spec n 0) as [->|Hn]; simpl; [done|].
    rewrite H8. simpl. rewrite <- H7. simpl. destruct (Z.ltb_spec n 0); [by apply Hls; lia|].
    rewrite bool_decide_eq_false_2; [done|]. rewrite Hls. lia.
Qed.

(** One call: the loop in turn. *)
Lemma getNextLoop_ok p :
  wf p -> exists p', getNextLoop p = Ok (loop_at p (Z.to_nat (next_ p)), p') /\ wf p' /\
    getAllLoops p' = getAllLoops p /\ base_loop_ p' = base_loop_ p /\ loops_ p' = loops_ p /\
    next_ p' = (if bool_decide (loops_ p = []) then next_ p else (next_ p + 1) mod zlen (loops_ p)).
Proof.
  intros H. unfold getNextLoop, loop_at, getAllLoops. case_bool_decide as Hl.
  { exists p. split_and!; try done. by rewrite bool_decide_eq_true_2. }
  destruct H as [Hnd Hc Hn Hlt]. specialize (Hlt Hl).
  assert (Hlen : zlen (loops_ p) = num_threads_ p) by lia.
  rewrite (proj2 (Z.ltb_ge _ _)), (proj2 (Z.eqb_neq _ _)) by lia. simpl. unfold zlen in *.
  destruct (lookup_lt_is_Some_2 (loops_ p) (Z.to_nat (next_ p))) as [l Hx]; [lia|]. rewrite Hx.
  exists (set_next (Z.rem (next_ p + 1) (num_threads_ p)) p). split; [|split_and!; simpl; try done].
  - rewrite Nat.mod_small by lia. by rewrite (nth_lookup_Some _ _ _ _ Hx).
  - split; simpl; [done | done | |intros _]; apply Z.rem_bound_pos; lia.
  - by rewrite bool_decide_eq_false_2.
  - rewrite Hlen. apply Z.rem_mod_nonneg; lia.
Qed.

Lemma getNextLoops_ok k : forall p,
  wf p -> exists p', getNextLoops k p = Ok (loop_at p <$> seq (Z.to_nat (next_ p)) k, p') /\ wf p'.
Proof.
  induction k as [|k IH]; intros p H; simpl; [eauto|].
  destruct (getNextLoop_ok p H) as (p1 & -> & H1 & Ha & _ & Hl & Hnx). simpl.
  destruct (IH p1 H1) as (p2 & -> & H2). simpl. exists p2. split; [|done]. do 3 f_equal.
  unfold loop_at. rewrite Ha. rewrite <- fmap_S_seq, <- list_fmap_compose.
  assert (Hn : 0 <= next_ p) by apply H.
  destruct (decide (loops_ p = [])) as [Hl0|Hl0].
  - rewrite bool_decide_eq_true_2 in Hnx by done. rewrite Hnx. apply list_fmap_ext. intros i x _. simpl.
    unfold getAllLoops. rewrite bool_decide_eq_true_2 by done. cbn [length]. by rewrite !Nat.mod_1_r.
  - rewrite bool_decide_eq_false_2 in Hnx by done. unfold getAllLoops. rewrite bool_decide_eq_false_2 by done.
    apply list_eq. intros i. rewrite !list_lookup_fmap.
    destruct (decide (i < k)%nat); [|rewrite !lookup_seq_ge by lia; done].
    rewrite !lookup_seq_lt by lia. simpl. do 2 f_equal.
    assert (length (loops_ p) <> 0)%nat by (by rewrite length_zero_iff_nil).
    rewrite Hnx. unfold zlen. rewrite Z2Nat.inj_mod, Nat2Z.id by lia.
    rewrite Nat.Div0.add_mod_idemp_l. f_equal. lia.
Qed.

(** With [n] threads the pool has [n] loops of their own, and its [k]-th
    call of [getNextLoop] gives the loop number [k mod n] (the base loop when
    there are no threads); the initialisation callback is called once for each
    loop.  No call is out of range. *)
Theorem round_robin base name n cb p k :
  setNumThreads n (new_IoUringLoopThreadPool base name) = Ok p ->
  let q := start cb p in
  NoDup (base :: loops_ q) /\ length (loops_ q) = Z.to_nat n /\
  (0 <= n -> init_calls q = if cb then getAllLoops q else []) /\
  exists q', getNextLoops k q = Ok ((fun i => nth (i mod length (getAllLoops q)) (getAllLoops q) 0%nat) <$> seq 0 k, q').
Proof.
  intros Hp q. destruct (start_wf cb base name n p Hp) as (Hw & Hb & Hn & Hx & Hi). fold q in Hw, Hb, Hn, Hx, Hi.
  split_and!.
  - rewrite <- Hb. apply Hw.
  - pose proof (wf_count _ Hw). unfold zlen in *. lia.
  - intros H0. rewrite Hi, (proj2 (Z.ltb_ge n 0)) by lia. done.
  - destruct (getNextLoops_ok k q Hw) as (q' & Hq & _). exists q'. by rewrite Hq, Hx.
Qed.
End pool.

Lemma round_robin_witness :
  let q := start (A := first_fit) true (mk 0 [] false 0 2 [] [] []) in
  exists q', getNextLoops 3 q = Ok ([1; 2; 1]%nat, q').
Proof.
  destruct (round_robin (A := first_fit) 0 [] 2 true (mk 0 [] false 0 2 [] [] []) 3) as (_ & _ & _ & H); [reflexivity|].
  exact H.
Defined.
End IoUringLoopThreadPool.
