(* ===== verification/LoopLife.v ===== *)
(** * Construction and destruction of a loop ([src/IoUringLoop.cc],
      [src/ChunkPoolManagerInput.cc], [ChunkPool.h])

    What a loop acquires (the [io_uring] on the heap, the eventfd, the mapped
    memory of its buffer pool, the thread-local pointer that allows one loop per
    thread) and what its destructor gives back, in the order in which C++ runs
    the body of the destructor and then the destructors of the members. *)

From S2P Require Import Prelude ChunkPool LoopThread.

Module LoopLife.
Import ChunkPoolManagerInput.

(** The [io_uring] object: zeroed by [new], then initialised. *)
Record io_uring := mkRing {
  initialised : bool;
  buf_rings : list Z   (** the buffer groups registered with it *)
}.

(** What the process holds; [t_loopInThisThread] is that of the thread that
    constructs and destroys the loop. *)
Record process := mkProcess {
  rings : gmap nat io_uring;
  open_fds : gset Z;
  mappings : gmap Z Z;
  t_loopInThisThread : ptr
}.

Definition set_rings (r : gmap nat io_uring) (p : process) : process :=
  mkProcess r (open_fds p) (mappings p) (t_loopInThisThread p).
Definition set_fds (s : gset Z) (p : process) : process :=
  mkProcess (rings p) s (mappings p) (t_loopInThisThread p).
Definition set_mappings (m : gmap Z Z) (p : process) : process :=
  mkProcess (rings p) (open_fds p) m (t_loopInThisThread p).
Definition set_t_loop (l : ptr) (p : process) : process :=
  mkProcess (rings p) (open_fds p) (mappings p) l.

Record IoUringLoopParams := mkParams {
  ring_size_ : Z;
  cqes_size_ : Z;
  low_water_mark_ : Z;
  chunk_size_ : Z;
  chunk_num_ : Z
}.

Section loop.
Context {A : Allocator} {B : BufRing}.

(** The answers of the system during a construction. *)
Record environment := mkEnv {
  eventfd_ret : Z;
  gettid : Z;
  queue_init_ret : Z;
  mmap : Z -> bool -> option Z;
  sizeof_ring : Z;
  sizeof_buf : Z;
  register_ret : Z;
  contents : Z -> byte
}.

(** The members that own something, and the constants. *)
Record IoUringLoop := mkLoop {
  ring_ : ptr;
  looping_ : bool;
  quit_ : bool;
  thread_id_ : Z;
  sqe_low_water_mark_ : Z;
  cqes_ : Z;
  wakeup_fd_ : Z;
  input_chunk_manager_ : option Manager;
  input_buf_ring_addr : Z   (** the address of the manager's buffer ring *)
}.

Definition createEventFd (ret : Z) : result Z := if ret <? 0 then Fault FatalExit else Ok ret.

(** [io_uring_queue_init]: its result is not looked at. *)
Definition io_uring_queue_init (a : nat) (ret : Z) (p : process) : process :=
  set_rings (<[a := mkRing (0 <=? ret) []]> (rings p)) p.

(** [new ChunkPoolManagerInput(loop)], with what it maps and registers. *)
Definition make_manager (env : environment) (ring : nat) (chunk_size chunk_num bid : Z) (p : process)
    : result (Manager * Z * Z * process) :=
  '(m, bid) ← new_Manager (mmap env) (sizeof_ring env) (sizeof_buf env) (register_ret env) chunk_size chunk_num
                (contents env) bid;
  r ← deref (rings p) (Some ring);
  let p := set_rings (<[ring := mkRing (initialised r) (get_buf_group_id m :: buf_rings r)]> (rings p)) p in
  let ring_mem := default 0 (mmap env (ChunkPoolManagerInput.ring_size_ m) false) in
  let p := set_mappings (<[pool_data_ptr_ (pool_ m) := bytes_ (pool_ m)]>
                          (<[ring_mem := ChunkPoolManagerInput.ring_size_ m]> (mappings p))) p in
  Ok (m, bid, ring_mem, p).

(** The constructor of the object at address [this]; [bid] is the counter of buffer
    groups. *)
Definition new_IoUringLoop (this : nat) (ring_size cqes_size low_water_mark chunk_size chunk_num : Z)
    (env : environment) (bid : Z) (p : process) : result (IoUringLoop * Z * process) :=
  let ring := malloc (dom (rings p)) in
  let p := set_rings (<[ring := mkRing false []]> (rings p)) p in
  fd ← createEventFd (eventfd_ret env);
  let p := set_fds ({[fd]} ∪ open_fds p) p in
  match t_loopInThisThread p with
  | Some _ => Fault FatalExit
  | None =>
      let p := set_t_loop (Some this) p in
      if negb (Z.land chunk_num (u64 (chunk_num - 1)) =? 0) then Fault FatalExit else
      let p := io_uring_queue_init ring (queue_init_ret env) p in
      '(m, bid, ring_mem, p) ← make_manager env ring chunk_size chunk_num bid p;
      Ok (mkLoop (Some ring) false false (gettid env) low_water_mark cqes_size fd (Some m) ring_mem, bid, p)
  end.

Definition new_IoUringLoop_params (this : nat) (params : IoUringLoopParams)
    : environment -> Z -> process -> result (IoUringLoop * Z * process) :=
  new_IoUringLoop this (ring_size_ params) (cqes_size_ params) (low_water_mark_ params) (chunk_size_ params)
    (chunk_num_ params).

(** Called in a thread with the id [gettid] and the cached id [t_cachedTid]. *)
Definition isInLoopThread (gettid t_cachedTid : Z) (L : IoUringLoop) : bool :=
  thread_id_ L =? (CurrentThread.tid gettid t_cachedTid).1.
Definition getInputPool (L : IoUringLoop) : result Manager :=
  match input_chunk_manager_ L with Some m => Ok m | None => Fault NullDeref end.

(** [~ChunkPool] *)
Definition destroy_ChunkPool (c : ChunkPool) (p : process) : process :=
  set_mappings (delete (pool_data_ptr_ c) (mappings p)) p.

(** [~ChunkPoolManagerInput], then the destructor of its member [pool_]. *)
Definition destroy_manager (L : IoUringLoop) (m : Manager) (p : process) : result process :=
  p ← match ring_ L with
      | None => Ok p
      | Some a =>
          r ← deref (rings p) (Some a);
          Ok (set_rings (<[a := mkRing (initialised r)
                                  (filter (fun g => g <> get_buf_group_id m) (buf_rings r))]> (rings p)) p)
      end;
  let p := set_mappings (delete (input_buf_ring_addr L) (mappings p)) p in
  Ok (destroy_ChunkPool (pool_ m) p).

(** [io_uring_queue_exit(ring_)] and [delete ring_]. *)
Definition io_uring_queue_exit (r : ptr) (p : process) : result process :=
  x ← deref (rings p) r;
  match r with
  | None => Fault NullDeref
  | Some a => Ok (set_rings (<[a := mkRing false []]> (rings p)) p)
  end.
Definition delete_ring (r : ptr) (p : process) : result process :=
  match r with
  | None => Ok p
  | Some a =>
      _ ← deref (rings p) (Some a);
      Ok (set_rings (delete a (rings p)) p)
  end.

(** The body of [~IoUringLoop]. *)
Definition destroy_body (L : IoUringLoop) (p : process) : result process :=
  let p := set_fds (open_fds p ∖ {[wakeup_fd_ L]}) p in
  p ← io_uring_queue_exit (ring_ L) p;
  p ← delete_ring (ring_ L) p;
  Ok (set_t_loop None p).

(** [~IoUringLoop]: the body, then the members in the reverse order of their
    declaration; of these [input_chunk_manager_] uses the loop. *)
Definition destroy_IoUringLoop (L : IoUringLoop) (p : process) : result process :=
  p ← destroy_body L p;
  match input_chunk_manager_ L with
  | None => Ok p
  | Some m => destroy_manager L m p
  end.

(** ** Lemmas *)

Lemma queue_exit_ok a p r :
  rings p !! a = Some r -> exists p', io_uring_queue_exit (Some a) p = Ok p' /\ rings p' !! a = Some (mkRing false []) /\
    mappings p' = mappings p /\ open_fds p' = open_fds p.
Proof.
  intros Hr. unfold io_uring_queue_exit, deref. rewrite Hr. simpl. eexists. split; [done|].
  split; [apply lookup_insert_eq | done].
Qed.

Lemma destroy_body_ok L a p r :
  ring_ L = Some a -> rings p !! a = Some r ->
  exists p', destroy_body L p = Ok p' /\ rings p' !! a = None /\ mappings p' = mappings p /\
    open_fds p' = open_fds p ∖ {[wakeup_fd_ L]} /\ t_loopInThisThread p' = None.
Proof.
  intros HL Hr. unfold destroy_body. rewrite HL. set (p0 := set_fds _ p).
  destruct (queue_exit_ok a p0 r Hr) as (p1 & -> & Hr1 & Hm1 & Hf1). cbn [mbind result_bind].
  unfold delete_ring, deref. rewrite Hr1. cbn [mbind result_bind]. eexists. split; [done|]. simpl.
  split; [apply lookup_delete_eq|]. done.
Qed.

(** What a construction that succeeds leaves. *)
Lemma constructed this rs cs lw sz n env bid p L bid' p' :
  new_IoUringLoop this rs cs lw sz n env bid p = Ok (L, bid', p') ->
  exists a r m, ring_ L = Some a /\ rings p !! a = None /\ rings p' !! a = Some r /\
    input_chunk_manager_ L = Some m /\ t_loopInThisThread p = None /\ t_loopInThisThread p' = Some this.
Proof.
  unfold new_IoUringLoop. set (a := malloc _). intros H.
  assert (Hfr : rings p !! a = None) by (apply not_elem_of_dom, malloc_fresh).
  destruct (createEventFd _) as [fd|]; [|done]. cbn [mbind result_bind] in H. simpl in H.
  destruct (t_loopInThisThread p) eqn:Et; [done|]. destruct (negb _); [done|].
  unfold make_manager in H. destruct (new_Manager _ _ _ _ _ _ _ _) as [[m b]|]; [|done]. cbn [mbind result_bind] in H.
  unfold deref in H. simpl in H. rewrite lookup_insert_eq in H. simpl in H. simplify_eq.
  eexists a, _, m. simpl. split_and!; try done. apply lookup_insert_eq.
Qed.

(** ** Properties *)

(** C30. The constructor builds one loop per thread: when the thread has none, the
    number of chunks is a power of two of at most 65536 and the system calls
    succeed, the loop has an eventfd, a buffer pool whose chunks are all free and
    registered with its ring under a new group id, and is the loop of its thread,
    which [isInLoopThread] tells from all others, however often they have asked; a
    second loop in the same thread stops the program, whatever its parameters. *)
Theorem loop_constructed this rs cs lw sz n env bid p :
  t_loopInThisThread p = None -> 0 < n <= 2 ^ 16 -> Z.land n (n - 1) = 0 -> 0 <= sz -> sz * n < SIZE_MAX ->
  0 <= eventfd_ret env -> 0 <= register_ret env ->
  (is_Some (mmap env (u64 (sz * n)) true) \/ is_Some (mmap env (u64 (sz * n)) false)) ->
  is_Some (mmap env (u64 (sizeof_ring env + n * sizeof_buf env)) false) ->
  exists L m p', new_IoUringLoop this rs cs lw sz n env bid p = Ok (L, u16 (bid + 1), p') /\
    getInputPool L = Ok m /\ pool_ok m (seq 0 (Z.to_nat n)) [] [] /\
    (forall t k, isInLoopThread t (CurrentThread.cached t k) L = true <-> t = gettid env) /\
    wakeup_fd_ L = eventfd_ret env /\ eventfd_ret env ∈ open_fds p' /\ t_loopInThisThread p' = Some this /\
    (exists a r, ring_ L = Some a /\ rings p !! a = None /\ rings p' !! a = Some r /\ buf_rings r = [bid]) /\
    (forall that rs' cs' lw' sz' n' env' bid' , 0 <= eventfd_ret env' ->
       new_IoUringLoop that rs' cs' lw' sz' n' env' bid' p' = Fault FatalExit).
Proof.
  intros Ht Hn Hp2 Hsz Hszn Hfd Hreg Hmm Hring.
  destruct (new_Manager_ok (mmap env) (sizeof_ring env) (sizeof_buf env) (register_ret env) sz n (contents env) bid
              Hn Hp2 Hsz Hszn Hreg Hmm Hring) as (m & Hm & Hpo & Hbg & _).
  unfold new_IoUringLoop at 1, createEventFd. set (a := malloc (dom (rings p))).
  assert (Hfr : rings p !! a = None) by (apply not_elem_of_dom, malloc_fresh).
  rewrite (proj2 (Z.ltb_ge _ _) Hfd). cbn [mbind result_bind]. simpl. rewrite Ht, (wrap_small 64 (n - 1)) by lia.
  rewrite Hp2. simpl. unfold make_manager. rewrite Hm. cbn [mbind result_bind]. unfold deref. simpl.
  rewrite lookup_insert_eq. cbn [mbind result_bind]. eexists _, m, _. split; [done|]. simpl. split_and!; try done.
  - intros t k. unfold isInLoopThread. rewrite CurrentThread.tid_is_gettid; cbn [thread_id_]; rewrite Z.eqb_eq. split; congruence.
  - set_solver.
  - exists a, (mkRing (0 <=? queue_init_ret env) [bid]). split_and!; try done.
    rewrite lookup_insert_eq. simpl. by rewrite Hbg.
  - intros that rs' cs' lw' sz' n' env' bid' Hfd'. unfold new_IoUringLoop, createEventFd.
    by rewrite (proj2 (Z.ltb_ge _ _) Hfd').
Qed.

(** C39. The destructor of a loop uses its [io_uring] after it was freed: the body
    deletes [ring_] without clearing the pointer, and the destructor of the member
    [input_chunk_manager_], which runs after the body, unregisters the buffer ring
    through it.  This holds of every loop that was constructed. *)
Theorem loop_destructor_uses_freed_ring this rs cs lw sz n env bid p L bid' p' :
  new_IoUringLoop this rs cs lw sz n env bid p = Ok (L, bid', p') ->
  (exists q, destroy_body L p' = Ok q) /\ destroy_IoUringLoop L p' = Fault Dangling.
Proof.
  intros Hc. destruct (constructed _ _ _ _ _ _ _ _ _ _ _ _ Hc) as (a & r & m & Hr & _ & Hr' & Hm & _).
  destruct (destroy_body_ok L a p' r Hr Hr') as (q & Hq & Hnone & _). split; [by exists q|].
  unfold destroy_IoUringLoop. rewrite Hq. cbn [mbind result_bind]. rewrite Hm. unfold destroy_manager.
  rewrite Hr. unfold deref. by rewrite Hnone.
Qed.
End loop.

(** ** A concrete loop *)

Definition demo_env : environment :=
  mkEnv 3 77 0 (fun b huge => if huge then None else Some (b + 4096)) 16 16 0 (fun _ => x00).
Definition demo_process : process := mkProcess ∅ ∅ ∅ None.

Lemma loop_constructed_witness :
  exists L p', new_IoUringLoop (A := first_fit) (B := list_ring) 0 256 64 32 4096 4 demo_env 1 demo_process = Ok (L, 2, p') /\
    t_loopInThisThread p' = Some 0%nat.
Proof.
  destruct (loop_constructed (A := first_fit) (B := list_ring) 0 256 64 32 4096 4 demo_env 1 demo_process)
    as (L & m & p' & Hl & _ & _ & _ & _ & _ & Ht & _).
  - reflexivity.
  - lia.
  - reflexivity.
  - lia.
  - vm_compute. reflexivity.
  - vm_compute. discriminate.
  - vm_compute. discriminate.
  - right. eexists. reflexivity.
  - eexists. reflexivity.
  - exists L, p'. split; [exact Hl | exact Ht].
Defined.

Lemma loop_destructor_uses_freed_ring_witness :
  exists L p', new_IoUringLoop (A := first_fit) (B := list_ring) 0 256 64 32 4096 4 demo_env 1 demo_process = Ok (L, 2, p') /\
    destroy_IoUringLoop L p' = Fault Dangling.
Proof.
  assert (H : exists L p', new_IoUringLoop (A := first_fit) (B := list_ring) 0 256 64 32 4096 4 demo_env 1 demo_process =
    Ok (L, 2, p')) by (eexists _, _; cbv [new_IoUringLoop]; reflexivity).
  destruct H as (L & p' & H). exists L, p'. split; [exact H|].
  apply (loop_destructor_uses_freed_ring (A := first_fit) 0 256 64 32 4096 4 demo_env 1 demo_process L 2 p' H).
Defined.

End LoopLife.
