(* ===== verification/Server.v ===== *)
(** * The server ([src/TcpServer.cc], [src/Acceptor.cc], [src/AcceptContext.cc])

    The acceptor keeps a multishot accept armed in the base loop; the server
    gives every accepted descriptor a name, a connection in its table and one of
    the loops of its pool, in turn.  Connections are created and erased on the
    base loop; the other loops start and close them. *)

From S2P Require Import Prelude Text InetAddress LoopThreadPool.

(** ** [AcceptContext] and [Acceptor] *)

Module Acceptor.
Import InetAddress(InetAddress).

Record AcceptContext := mkAcceptContext {
  res_ : Z;
  flags_ : Z;
  fd_ : Z;
  is_error_ : bool;
  is_accepting_ : bool;
  acceptor_ : bool
}.

(** [armed] counts the accept requests that were submitted and are not finished;
    [closed] are the descriptors the acceptor closed itself. *)
Record Acceptor := mkAcceptor {
  listening_ : bool;
  accept_context_ : AcceptContext;
  armed : nat;
  closed : list Z
}.

Definition new_AcceptContext (fd : Z) : result AcceptContext :=
  _ ← assert_ (negb (fd =? 0));
  Ok (mkAcceptContext 0 0 fd false false false).

(** [fd] is what [::socket] returned; [bound]: whether [::bind] succeeds. *)
Definition new_Acceptor (fd : Z) (bound : bool) : result Acceptor :=
  if fd <? 0 then Fault FatalExit
  else
    c ← new_AcceptContext fd;
    if bound then Ok (mkAcceptor false c 0 []) else Fault FatalExit.

Definition set_context (c : AcceptContext) (a : Acceptor) : Acceptor :=
  mkAcceptor (listening_ a) c (armed a) (closed a).
Definition submitAccept (a : Acceptor) : Acceptor :=
  mkAcceptor (listening_ a) (accept_context_ a) (S (armed a)) (closed a).

(** [ok]: whether [::listen] succeeds. *)
Definition listen (ok : bool) (a : Acceptor) : result Acceptor :=
  if ok then
    let c := accept_context_ a in
    let a := mkAcceptor true (mkAcceptContext (res_ c) (flags_ c) (fd_ c) (is_error_ c) true true) (armed a) (closed a) in
    Ok (submitAccept a)
  else Fault FatalExit.

Definition EMFILE := 24.
Definition ENFILE := 23.
Definition ECANCELED := 125.
Definition IORING_CQE_F_MORE (flags : Z) : bool := Z.testbit flags 1.

Definition set_error (b : bool) (c : AcceptContext) : AcceptContext :=
  mkAcceptContext (res_ c) (flags_ c) (fd_ c) b (is_accepting_ c) (acceptor_ c).
Definition set_accepting (b : bool) (c : AcceptContext) : AcceptContext :=
  mkAcceptContext (res_ c) (flags_ c) (fd_ c) (is_error_ c) b (acceptor_ c).

Definition handleError (c : AcceptContext) : bool * AcceptContext :=
  if res_ c <? 0 then
    let err := - res_ c in
    if err =? ECANCELED then (true, c)
    else if (err =? EMFILE) || (err =? ENFILE) then (true, set_error true c)
    else (true, set_error true c)
  else (false, c).

Section callback.
(** The connection callback changes a state of its owner's. *)
Context {S : Type} (getpeername : Z -> InetAddress).
Context (connection_callback_ : option (Z -> InetAddress -> S -> result S)).

Definition handleRead (connfd : Z) (a : Acceptor) (s : S) : result (Acceptor * S) :=
  if 0 <? connfd then
    let peer_addr := getpeername connfd in
    match connection_callback_ with
    | Some cb => s ← cb connfd peer_addr s; Ok (a, s)
    | None => Ok (mkAcceptor (listening_ a) (accept_context_ a) (armed a) (closed a ++ [connfd]), s)
    end
  else Ok (a, s).

Definition on_completion (a : Acceptor) (s : S) : result (Acceptor * S) :=
  let c := accept_context_ a in
  _ ← assert_ (is_accepting_ c);
  '(need_close, a, s) ←
    (if res_ c <? 0 then let '(b, c) := handleError c in Ok (b, set_context c a, s)
     else if acceptor_ c then '(a, s) ← handleRead (res_ c) a s; Ok (false, a, s)
     else Fault NullDeref);
  if negb (IORING_CQE_F_MORE (flags_ c)) then
    if negb need_close
    then if acceptor_ c then Ok (submitAccept a, s) else Fault NullDeref
    else Ok (set_context (set_accepting false (accept_context_ a)) a, s)
  else Ok (a, s).

(** The loop delivers a completion of the accept: without [MORE] the request is
    finished. *)
Definition complete (res flags : Z) (a : Acceptor) (s : S) : result (Acceptor * S) :=
  let c := accept_context_ a in
  let c := mkAcceptContext res flags (fd_ c) (is_error_ c) (is_accepting_ c) (acceptor_ c) in
  let n := if IORING_CQE_F_MORE flags then armed a else pred (armed a) in
  on_completion (mkAcceptor (listening_ a) c n (closed a)) s.

(** While it accepts there is one accept request, otherwise none. *)
Record wf (a : Acceptor) : Prop := {
  wf_armed : armed a = if is_accepting_ (accept_context_ a) then 1%nat else 0%nat;
  wf_bound : is_accepting_ (accept_context_ a) = true -> acceptor_ (accept_context_ a) = true
}.

Ltac finish_complete Ha := simplify_eq; simpl; (split; [split; simpl; auto; by rewrite Ha | auto]).

(** What a completion does to the acceptor, whatever the callback does. *)
Lemma complete_ok res flags a s a' s' :
  wf a -> complete res flags a s = Ok (a', s') ->
  is_accepting_ (accept_context_ a) = true /\ wf a' /\
  is_accepting_ (accept_context_ a') = IORING_CQE_F_MORE flags || negb (res <? 0) /\
  (if 0 <? res
   then match connection_callback_ with Some cb => cb res (getpeername res) s = Ok s' | None => s' = s end
   else s' = s).
Proof.
  intros [Ha Hb] H. unfold complete, on_completion in H. simpl in H.
  destruct (is_accepting_ (accept_context_ a)) eqn:Ec; [|done]. simpl in H. rewrite (Hb eq_refl) in H. simpl in H.
  split; [done|]. destruct (Z.ltb_spec res 0) as [Hr|Hr].
  - rewrite (proj2 (Z.ltb_ge 0 res)) by lia. unfold handleError in H. simpl in H.
    rewrite (proj2 (Z.ltb_lt res 0)) in H by done.
    destruct (- res =? ECANCELED), ((- res =? EMFILE) || (- res =? ENFILE)), (IORING_CQE_F_MORE flags);
      simpl in H; finish_complete Ha.
  - unfold handleRead in H. destruct (Z.ltb_spec 0 res) as [Hp|Hp].
    + destruct connection_callback_ as [cb|].
      * destruct (cb res (getpeername res) s) as [s1|] eqn:Ecb; [|done]. simpl in H.
        destruct (IORING_CQE_F_MORE flags); simpl in H; finish_complete Ha.
      * simpl in H. destruct (IORING_CQE_F_MORE flags); simpl in H; finish_complete Ha.
    + simpl in H. destruct (IORING_CQE_F_MORE flags); simpl in H; finish_complete Ha.
Qed.

(** A completion succeeds when the callback does. *)
Lemma complete_total res flags a s :
  wf a -> is_accepting_ (accept_context_ a) = true ->
  (forall cb, connection_callback_ = Some cb -> 0 < res -> exists s', cb res (getpeername res) s = Ok s') ->
  exists a' s', complete res flags a s = Ok (a', s').
Proof.
  intros [Ha Hb] Ec Hcb. unfold complete, on_completion. simpl. rewrite Ec, (Hb Ec). simpl.
  destruct (Z.ltb_spec res 0).
  - destruct (handleError _) as [b c]. simpl. destruct (IORING_CQE_F_MORE flags), b; simpl; eauto.
  - unfold handleRead. destruct (Z.ltb_spec 0 res); [|simpl; destruct (IORING_CQE_F_MORE flags); simpl; eauto].
    destruct connection_callback_ as [cb|]; [|simpl; destruct (IORING_CQE_F_MORE flags); simpl; eauto].
    destruct (Hcb cb eq_refl) as [s' ->]; [done|]. simpl. destruct (IORING_CQE_F_MORE flags); simpl; eauto.
Qed.
End callback.
End Acceptor.

(** ** [TcpServer] *)

Module TcpServer.
Import InetAddress(InetAddress) Acceptor(Acceptor) IoUringLoopThreadPool(IoUringLoopThreadPool).
Module Pool := IoUringLoopThreadPool.

(** What [std::make_shared<TcpConnection>] is given. *)
Record Connection := mkConnection {
  conn_name : text;
  getLoop : nat;
  sock_fd : Z;
  local_addr : InetAddress;
  peer_addr : InetAddress
}.

(** The closures the server queues in loops; a connection is its number in the
    order of creation. *)
Inductive Functor :=
  | Listen
  | Establish (conn : nat)
  | RemoveInLoop (conn : nat)
  | Destroy (conn : nat).

(** [connections]: all connections made.  [queues]: the pending closures of each
    loop.  [closing]: the connections whose [handleClose] called the close
    callback.  [alive]: the server is not destroyed.  Histories: the connections
    established, each with the loop that did it, and those erased. *)
Record TcpServer := mk {
  loop_ : nat;
  ip_port : text;
  name_ : text;
  pool_ : IoUringLoopThreadPool;
  connection_map_ : gmap text nat;
  num_threads_ : Z;
  started_ : Z;
  next_conn_id_ : Z;
  alive : bool;
  connections : list Connection;
  queues : gmap nat (list Functor);
  closing : list nat;
  established : list (nat * nat);
  erased : list nat
}.

Definition INT_MAX : Z := 2 ^ 31 - 1.

Section server.
Context {A : Allocator} (getpeername getsockname : Z -> InetAddress).

Definition new_TcpServer (base_loop : nat) (bind_addr : InetAddress) (name : text) : TcpServer :=
  mk base_loop (InetAddress.toIpPort bind_addr) name (Pool.new_IoUringLoopThreadPool base_loop name) ∅ 0 0 1 true
    [] ∅ [] [] [].

Definition set_pool (p : IoUringLoopThreadPool) (n st : Z) (s : TcpServer) : TcpServer :=
  mk (loop_ s) (ip_port s) (name_ s) p (connection_map_ s) n st (next_conn_id_ s) (alive s)
    (connections s) (queues s) (closing s) (established s) (erased s).
Definition set_queues (q : gmap nat (list Functor)) (s : TcpServer) : TcpServer :=
  mk (loop_ s) (ip_port s) (name_ s) (pool_ s) (connection_map_ s) (num_threads_ s) (started_ s)
    (next_conn_id_ s) (alive s) (connections s) q (closing s) (established s) (erased s).
Definition set_map (m : gmap text nat) (e : list nat) (s : TcpServer) : TcpServer :=
  mk (loop_ s) (ip_port s) (name_ s) (pool_ s) m (num_threads_ s) (started_ s) (next_conn_id_ s)
    (alive s) (connections s) (queues s) (closing s) (established s) e.
Definition set_closing (l : list nat) (s : TcpServer) : TcpServer :=
  mk (loop_ s) (ip_port s) (name_ s) (pool_ s) (connection_map_ s) (num_threads_ s) (started_ s)
    (next_conn_id_ s) (alive s) (connections s) (queues s) l (established s) (erased s).
Definition set_established (l : list (nat * nat)) (s : TcpServer) : TcpServer :=
  mk (loop_ s) (ip_port s) (name_ s) (pool_ s) (connection_map_ s) (num_threads_ s) (started_ s)
    (next_conn_id_ s) (alive s) (connections s) (queues s) (closing s) l (erased s).
Definition set_alive (b : bool) (s : TcpServer) : TcpServer :=
  mk (loop_ s) (ip_port s) (name_ s) (pool_ s) (connection_map_ s) (num_threads_ s) (started_ s)
    (next_conn_id_ s) b (connections s) (queues s) (closing s) (established s) (erased s).

Definition queue (l : nat) (s : TcpServer) : list Functor := default [] (queues s !! l).
Definition queueInLoop (l : nat) (f : Functor) (s : TcpServer) : TcpServer :=
  set_queues (<[l := queue l s ++ [f]]> (queues s)) s.

Definition setThreadNum (n : Z) (s : TcpServer) : result TcpServer :=
  _ ← assert_ (started_ s =? 0);
  p ← Pool.setNumThreads n (pool_ s);
  Ok (set_pool p n (started_ s) s).

(** [runInLoop] runs [listen] at once on the base loop's thread ([here]) and
    queues it from another one; [ok]: [::listen] succeeds. *)
Definition start (here ok cb : bool) (x : Acceptor * TcpServer) : result (Acceptor * TcpServer) :=
  let '(a, s) := x in
  let fetched := started_ s in
  let s := set_pool (pool_ s) (num_threads_ s) (started_ s + 1) s in
  if fetched =? 0 then
    let s := set_pool (Pool.start cb (pool_ s)) (num_threads_ s) (started_ s) s in
    if here then a ← Acceptor.listen ok a; Ok (a, s)
    else Ok (a, queueInLoop (loop_ s) Listen s)
  else Ok (a, s).

Definition conn_name_of (s : TcpServer) (id : Z) : text :=
  name_ s ++ Text.snprintf 64 (45 :: ip_port s ++ 35 :: Text.decimal id).

(** The increment of the [int] counter is undefined at [INT_MAX]. *)
Definition newConnection (fd : Z) (peer : InetAddress) (s : TcpServer) : result TcpServer :=
  '(ioloop, p) ← Pool.getNextLoop (pool_ s);
  let name := conn_name_of s (next_conn_id_ s) in
  if next_conn_id_ s =? INT_MAX then Fault UndefinedBehaviour
  else
    let id := length (connections s) in
    let s := mk (loop_ s) (ip_port s) (name_ s) p (<[name := id]> (connection_map_ s)) (num_threads_ s) (started_ s)
               (next_conn_id_ s + 1) (alive s)
               (connections s ++ [mkConnection name ioloop fd (getsockname fd) peer]) (queues s) (closing s)
               (established s) (erased s) in
    Ok (queueInLoop ioloop (Establish id) s).

(** A closure that captured the server uses it. *)
Definition this (s : TcpServer) : result unit := if alive s then Ok tt else Fault Dangling.

Definition removeConnectionInLoop (id : nat) (s : TcpServer) : result TcpServer :=
  _ ← this s;
  match connections s !! id with
  | None => Fault Dangling
  | Some c => Ok (set_map (delete (conn_name c) (connection_map_ s)) (erased s ++ [id]) s)
  end.

(** Called on the thread of loop [cur]: [runInLoop] of the base loop. *)
Definition removeConnection (cur : nat) (id : nat) (s : TcpServer) : result TcpServer :=
  _ ← this s;
  if decide (cur = loop_ s) then removeConnectionInLoop id s
  else Ok (queueInLoop (loop_ s) (RemoveInLoop id) s).

(** A connection closes on its loop: the first time it calls the close callback,
    which is [removeConnection]. *)
Definition close_connection (id : nat) (s : TcpServer) : result TcpServer :=
  match connections s !! id with
  | None => Fault Dangling
  | Some c =>
      if decide (id ∈ closing s) then Ok s
      else removeConnection (getLoop c) id (set_closing (closing s ++ [id]) s)
  end.

(** [~TcpServer]: every connection of the table is to be destroyed in its loop. *)
Definition destroy (s : TcpServer) : TcpServer :=
  set_alive false (map_fold (fun _ id s =>
    match connections s !! id with
    | Some c => queueInLoop (getLoop c) (Destroy id) s
    | None => s
    end) s (connection_map_ s)).

(** ** Events

    A completion of the accept in the base loop and the close callback of a
    connection on its loop (while the server lives); a loop runs its oldest
    closure. *)
Inductive event :=
  | AcceptDone (res flags : Z)
  | Closed (conn : nat)
  | RunFunctor (l : nat).

Definition run_functor (l : nat) (f : Functor) (a : Acceptor) (s : TcpServer) : result (Acceptor * TcpServer) :=
  match f with
  | Listen => _ ← this s; a ← Acceptor.listen true a; Ok (a, s)
  | Establish id => _ ← this s; Ok (a, set_established (established s ++ [(l, id)]) s)
  | RemoveInLoop id => s ← removeConnectionInLoop id s; Ok (a, s)
  | Destroy id => s ← close_connection id s; Ok (a, s)
  end.

Definition step (e : event) (x : Acceptor * TcpServer) : result (Acceptor * TcpServer) :=
  let '(a, s) := x in
  match e with
  | AcceptDone res flags => Acceptor.complete getpeername (Some newConnection) res flags a s
  | Closed id => s ← close_connection id s; Ok (a, s)
  | RunFunctor l =>
      match queue l s with
      | [] => Ok (a, s)
      | f :: fs => run_functor l f a (set_queues (<[l := fs]> (queues s)) s)
      end
  end.

(** The kernel completes an accept only while one is armed; only a connection
    that was made is closed. *)
Definition enabled (e : event) (x : Acceptor * TcpServer) : Prop :=
  match e with
  | AcceptDone _ _ => Acceptor.armed x.1 <> 0%nat
  | Closed id => (id < length (connections x.2))%nat
  | RunFunctor _ => True
  end.

(** A server that is constructed, given its threads and started. *)
Definition launch (base : nat) (bind_addr : InetAddress) (name : text) (fd n : Z) (here cb : bool)
    : result (Acceptor * TcpServer) :=
  a ← Acceptor.new_Acceptor fd true;
  s ← setThreadNum n (new_TcpServer base bind_addr name);
  start here true cb (a, s).

Fixpoint steps (es : list event) (x : Acceptor * TcpServer) : result (Acceptor * TcpServer) :=
  match es with
  | [] => Ok x
  | e :: es => x ← step e x; steps es x
  end.

(** The events of a run are enabled when they happen. *)
Inductive reachable (x0 : Acceptor * TcpServer) : Acceptor * TcpServer -> Prop :=
  | reachable_refl : reachable x0 x0
  | reachable_step e x x' : reachable x0 x -> enabled e x -> step e x = Ok x' -> reachable x0 x'.

(** ** Invariant *)

Definition establishing (f : Functor) : option nat := match f with Establish id => Some id | _ => None end.
Definition listening (f : Functor) : option unit := match f with Listen => Some tt | _ => None end.

(** The connections of a loop, in the order of their creation; those it has
    established; those it has still to establish. *)
Definition assigned (l : nat) (s : TcpServer) : list nat :=
  fst <$> filter (fun x => getLoop x.2 = l) (imap pair (connections s)).
Definition established_on (l : nat) (s : TcpServer) : list nat :=
  snd <$> filter (fun x => x.1 = l) (established s).
Definition pending_on (l : nat) (s : TcpServer) : list nat := omap establishing (queue l s).

Definition functor_ok (l : nat) (s : TcpServer) (f : Functor) : Prop :=
  match f with
  | Listen => l = loop_ s
  | Establish _ => True
  | RemoveInLoop id => l = loop_ s /\ (id < length (connections s))%nat
  | Destroy _ => False
  end.

Record inv0 (x : Acceptor * TcpServer) : Prop := {
  inv_acceptor : Acceptor.wf x.1;
  inv_listen : (length (omap listening (queue (loop_ x.2) x.2)) + Acceptor.armed x.1 <= 1)%nat;
  inv_alive : alive x.2 = true;
  inv_pool : Pool.wf (pool_ x.2);
  inv_turn : Pool.loops_ (pool_ x.2) <> [] ->
    Pool.next_ (pool_ x.2) = zlen (connections x.2) mod zlen (Pool.loops_ (pool_ x.2));
  inv_ip : zlen (ip_port x.2) <= 21;
  inv_next : next_conn_id_ x.2 = 1 + zlen (connections x.2);
  inv_max : next_conn_id_ x.2 <= INT_MAX;
  inv_conn i c : connections x.2 !! i = Some c ->
    conn_name c = conn_name_of x.2 (Z.of_nat i + 1) /\ getLoop c = Pool.loop_at (pool_ x.2) i;
  inv_map nm id : connection_map_ x.2 !! nm = Some id <->
    exists c, connections x.2 !! id = Some c /\ conn_name c = nm /\ id ∉ erased x.2;
  inv_erased id : id ∈ erased x.2 -> (id < length (connections x.2))%nat;
  inv_established l : established_on l x.2 ++ pending_on l x.2 = assigned l x.2;
  inv_functors l f : f ∈ queue l x.2 -> functor_ok l x.2 f
}.

(** The connections that closed are those that are erased, those whose erasure is
    queued, and those of [extra], whose erasure is in progress. *)
Definition closing_ok (extra : nat -> Prop) (s : TcpServer) : Prop :=
  forall id, id ∈ closing s <-> id ∈ erased s \/ RemoveInLoop id ∈ queue (loop_ s) s \/ extra id.

Definition inv (x : Acceptor * TcpServer) : Prop := inv0 x /\ closing_ok (fun _ => False) x.2.

Lemma queue_queueInLoop l f s k :
  queue k (queueInLoop l f s) = if decide (k = l) then queue l s ++ [f] else queue k s.
Proof.
  unfold queueInLoop, queue. simpl. case_decide as E; [subst; by rewrite lookup_insert_eq|].
  by rewrite lookup_insert_ne.
Qed.

Lemma queue_pop l fs s k :
  queue k (set_queues (<[l := fs]> (queues s)) s) = if decide (k = l) then fs else queue k s.
Proof.
  unfold queue. simpl. case_decide as E; [subst; by rewrite lookup_insert_eq|]. by rewrite lookup_insert_ne.
Qed.

Lemma conn_name_of_inj s i j :
  zlen (ip_port s) <= 21 -> 0 <= i <= INT_MAX -> 0 <= j <= INT_MAX -> conn_name_of s i = conn_name_of s j -> i = j.
Proof.
  intros Hip Hi Hj. unfold conn_name_of, Text.snprintf, INT_MAX in *.
  assert (Hl : forall k, 0 <= k <= 2 ^ 31 - 1 -> zlen (Text.decimal k) <= 10).
  { intros k Hk. apply (InetAddress.length_decimal k 10); [|done]. change (10 ^ Z.of_nat 10) with 10000000000. lia. }
  pose proof (Hl i Hi). pose proof (Hl j Hj).
  rewrite !ztake_all by (rewrite zlen_cons, zlen_app, zlen_cons; lia).
  intros E%app_inv_head. injection E as E%app_inv_head. injection E as E.
  apply (Text.decimal_inj i j) in E; [done | |]; change (10 ^ 10) with 10000000000; lia.
Qed.

Lemma inv_names x : inv0 x -> NoDup (conn_name <$> connections x.2).
Proof.
  intros H. apply NoDup_alt. intros i j nm Hi Hj. rewrite list_lookup_fmap in Hi, Hj.
  destruct (connections x.2 !! i) as [c|] eqn:Ei; [|done]. destruct (connections x.2 !! j) as [d|] eqn:Ej; [|done].
  simpl in Hi, Hj. simplify_eq.
  destruct (inv_conn _ H _ _ Ei) as [Hc _]. destruct (inv_conn _ H _ _ Ej) as [Hd _].
  pose proof (lookup_lt_Some _ _ _ Ei). pose proof (lookup_lt_Some _ _ _ Ej).
  pose proof (inv_next _ H) as Hn. pose proof (inv_max _ H) as Hm. unfold zlen in Hn.
  assert (Z.of_nat i + 1 = Z.of_nat j + 1); [|lia].
  apply (conn_name_of_inj x.2); [apply H | lia | lia | congruence].
Qed.

(** A closure that starts nothing is queued. *)
Lemma queue_inv0 a s l f :
  inv0 (a, s) -> functor_ok l s f -> listening f = None -> establishing f = None -> inv0 (a, queueInLoop l f s).
Proof.
  intros H Hf Hl He. destruct H. split; simpl in *; try done.
  - rewrite queue_queueInLoop. case_decide as E; [|done]. rewrite <- E, omap_app. simpl. by rewrite Hl, app_nil_r.
  - intros k. specialize (inv_established0 k). unfold pending_on in *. rewrite queue_queueInLoop.
    case_decide; [|done]. subst. rewrite omap_app. simpl. by rewrite He, app_nil_r.
  - intros k g. rewrite queue_queueInLoop. case_decide; [|by apply inv_functors0]. subst.
    rewrite elem_of_app, list_elem_of_singleton. intros [Hg| ->]; [by apply inv_functors0 | done].
Qed.

(** Erasing a connection. *)
Lemma erase_inv0 a s id :
  inv0 (a, s) -> (id < length (connections s))%nat ->
  exists s', removeConnectionInLoop id s = Ok s' /\ inv0 (a, s') /\
    (closing_ok (fun i => i = id) s -> closing_ok (fun _ => False) s').
Proof.
  intros H Hid. destruct (lookup_lt_is_Some_2 _ _ Hid) as [c Hc]. pose proof (inv_names _ H) as Hnd.
  unfold removeConnectionInLoop, this. rewrite (inv_alive _ H : alive s = true). simpl. rewrite Hc.
  eexists. split; [done|]. split.
  - destruct H. split; simpl in *; try done.
    + intros nm i. rewrite lookup_delete_Some, inv_map0. split.
      * intros (Hne & d & Hd & <- & He). exists d. split_and!; try done. rewrite elem_of_app, list_elem_of_singleton.
        intros [?| ->]; [done|]. congruence.
      * intros (d & Hd & <- & He). rewrite elem_of_app, list_elem_of_singleton in He.
        split; [|exists d; split_and!; naive_solver]. intros Hn. apply He. right.
        rewrite NoDup_alt in Hnd. apply (Hnd i id (conn_name c)); rewrite list_lookup_fmap; simpl;
          [rewrite Hd | rewrite Hc]; simpl; congruence.
    + intros i. rewrite elem_of_app, list_elem_of_singleton. intros [?| ->]; auto.
  - intros Hcl i. specialize (Hcl i). simpl in *. rewrite Hcl, elem_of_app, list_elem_of_singleton.
    change (queue (loop_ s) (set_map _ _ s)) with (queue (loop_ s) s). tauto.
Qed.

Lemma close_connection_inv a s id :
  inv (a, s) -> (id < length (connections s))%nat ->
  exists s', close_connection id s = Ok s' /\ inv (a, s').
Proof.
  intros [H Hcl] Hid. simpl in Hcl. destruct (lookup_lt_is_Some_2 _ _ Hid) as [c Hc].
  unfold close_connection. rewrite Hc. case_decide as Hin; [by exists s|].
  set (s1 := set_closing (closing s ++ [id]) s).
  assert (H1 : inv0 (a, s1)) by (destruct H; by split).
  assert (Hc1 : closing_ok (fun i => i = id) s1).
  { intros i. specialize (Hcl i). simpl. rewrite elem_of_app, list_elem_of_singleton, Hcl.
    change (queue (loop_ s) s1) with (queue (loop_ s) s). tauto. }
  unfold removeConnection, this. rewrite (inv_alive _ H1 : alive s1 = true). simpl. case_decide.
  - destruct (erase_inv0 a s1 id H1 Hid) as (s2 & Hs2 & H2 & Hc2). exists s2. split; [done|]. split; auto.
  - eexists. split; [done|]. split.
    + apply queue_inv0; done.
    + intros i. specialize (Hc1 i). simpl in *. rewrite Hc1, queue_queueInLoop.
      rewrite decide_True, elem_of_app, list_elem_of_singleton by done.
      change (queue (loop_ s) s1) with (queue (loop_ s) s). naive_solver.
Qed.

(** A connection is made: its name is new and its loop is the one in turn. *)
Lemma turn_loop a s :
  inv0 (a, s) ->
  exists p, Pool.getNextLoop (pool_ s) = Ok (Pool.loop_at (pool_ s) (length (connections s)), p) /\ Pool.wf p /\
    (forall i, Pool.loop_at p i = Pool.loop_at (pool_ s) i) /\
    (Pool.loops_ p <> [] -> Pool.next_ p = (zlen (connections s) + 1) mod zlen (Pool.loops_ p)).
Proof.
  intros H. destruct (Pool.getNextLoop_ok _ (inv_pool _ H)) as (p & Hp & Hw & Ha & Hb & Hl & Hn). simpl in *.
  exists p. assert (Hat : forall i, Pool.loop_at p i = Pool.loop_at (pool_ s) i).
  { intros i. unfold Pool.loop_at. by rewrite Ha. }
  pose proof (inv_turn _ H) as Ht. simpl in Ht. pose proof (Pool.wf_next _ (inv_pool _ H)) as Hpos. simpl in Hpos.
  destruct (decide (Pool.loops_ (pool_ s) = [])) as [E|E].
  - split_and!; try done; [|rewrite Hl; done]. rewrite Hp. unfold Pool.loop_at, Pool.getAllLoops.
    rewrite bool_decide_eq_true_2 by done. cbn [length]. by rewrite !Nat.mod_1_r.
  - specialize (Ht E). assert (length (Pool.loops_ (pool_ s)) <> 0)%nat by (by rewrite length_zero_iff_nil).
    rewrite bool_decide_eq_false_2 in Hn by done. split_and!; try done.
    + rewrite Hp. do 2 f_equal. unfold Pool.loop_at, Pool.getAllLoops. rewrite bool_decide_eq_false_2 by done.
      rewrite Ht. unfold zlen. rewrite Z2Nat.inj_mod, !Nat2Z.id by lia. by rewrite Nat.Div0.mod_mod.
    + intros _. rewrite Hn, Hl, Ht. by rewrite Zplus_mod_idemp_l.
Qed.

Lemma new_name_fresh a s i d :
  inv0 (a, s) -> connections s !! i = Some d -> conn_name d <> conn_name_of s (next_conn_id_ s).
Proof.
  intros H Hd E. destruct (inv_conn _ H i d Hd) as [Hn _]. simpl in Hn. pose proof (lookup_lt_Some _ _ _ Hd).
  pose proof (inv_next _ H) as Hnx. pose proof (inv_max _ H) as Hmx. simpl in Hnx, Hmx. unfold zlen in *.
  assert (Z.of_nat i + 1 = next_conn_id_ s); [|lia].
  apply (conn_name_of_inj s); [apply (inv_ip _ H) | lia | lia | congruence].
Qed.

(** The table after a connection was added under a fresh name. *)
Lemma map_add a s c :
  inv0 (a, s) -> conn_name c = conn_name_of s (next_conn_id_ s) ->
  forall nm id, <[conn_name c := length (connections s)]> (connection_map_ s) !! nm = Some id <->
    exists d, (connections s ++ [c]) !! id = Some d /\ conn_name d = nm /\ id ∉ erased s.
Proof.
  intros H Hc nm id. rewrite lookup_insert_Some. setoid_rewrite (inv_map _ H nm id). simpl. split.
  - intros [[<- <-]|(Hne & d & Hd & <- & He)].
    + exists c. rewrite list_lookup_middle by done. split_and!; try done.
      intros Hin. pose proof (inv_erased _ H _ Hin). simpl in *. lia.
    + exists d. split_and!; try done. by apply lookup_app_l_Some.
  - intros (d & Hd & <- & He). apply lookup_app_Some in Hd as [Hd|[Hi Hd]].
    + right. split; [rewrite Hc; intros E; by apply (new_name_fresh a s id d)|]. by exists d.
    + rewrite list_lookup_singleton_Some in Hd. destruct Hd as [Hz <-]. left. split; [done | lia].
Qed.

Lemma newConnection_inv a s fd peer s' :
  inv (a, s) -> newConnection fd peer s = Ok s' -> inv (a, s') /\ loop_ s' = loop_ s /\
    omap listening (queue (loop_ s) s') = omap listening (queue (loop_ s) s).
Proof.
  intros [H Hcl] Hs. destruct (turn_loop a s H) as (p & Hp & Hw & Hat & Ht). unfold newConnection in Hs.
  rewrite Hp in Hs. simpl in Hs. destruct (Z.eqb_spec (next_conn_id_ s) INT_MAX) as [|Hmax]; [done|]. injection Hs as <-.
  set (nm := conn_name_of s (next_conn_id_ s)). set (l := Pool.loop_at (pool_ s) (length (connections s))).
  set (c := mkConnection nm l fd (getsockname fd) peer).
  set (s1 := mk _ _ _ _ _ _ _ _ _ _ _ _ _ _).
  assert (Hq : forall k, queue k s1 = queue k s) by done.
  assert (Hlis : omap listening (queue (loop_ s) (queueInLoop l (Establish (length (connections s))) s1)) =
                 omap listening (queue (loop_ s) s)).
  { rewrite queue_queueInLoop. case_decide as E; [|done]. rewrite <- E, omap_app, Hq. simpl. by rewrite app_nil_r. }
  split; [|done]. split.
  2:{ intros i. specialize (Hcl i). simpl in *. rewrite Hcl, queue_queueInLoop, Hq. case_decide as E; [|done].
      rewrite <- E, elem_of_app, list_elem_of_singleton. naive_solver. }
  pose proof (inv_next _ H) as Hnx. pose proof (inv_max _ H) as Hmx. simpl in Hnx, Hmx.
  split; simpl; try apply H; try done.
  - rewrite Hlis. apply H.
  - intros Hne. rewrite zlen_app. by apply Ht.
  - rewrite zlen_app. unfold zlen in *. simpl. lia.
  - lia.
  - intros i d. rewrite lookup_app_Some, Hat. intros [Hd|[Hi Hd]]; [by apply (inv_conn _ H)|].
    rewrite list_lookup_singleton_Some in Hd. destruct Hd as [Hz <-].
    replace i with (length (connections s)) by lia. split; [|done]. simpl. unfold nm. rewrite Hnx. unfold zlen. f_equal. lia.
  - exact (map_add a s c H eq_refl).
  - intros i Hi. rewrite length_app. pose proof (inv_erased _ H i Hi). simpl in *. lia.
  - intros k. pose proof (inv_established _ H k) as Hk. simpl in Hk.
    unfold assigned, pending_on in *. rewrite queue_queueInLoop, Hq. simpl. rewrite imap_app, filter_app, fmap_app.
    rewrite <- Hk. simpl. rewrite filter_cons, filter_nil. simpl. unfold established_on. simpl.
    destruct (decide (k = l)) as [->|Hne].
    + rewrite decide_True by done. rewrite omap_app, app_assoc. simpl. by rewrite Nat.add_0_r.
    + rewrite decide_False by done. simpl. by rewrite app_nil_r.
  - intros k f. rewrite queue_queueInLoop, Hq. intros Hf.
    assert (Hc : f ∈ queue k s \/ f = Establish (length (connections s))).
    { case_decide; [subst; rewrite elem_of_app, list_elem_of_singleton in Hf; done | by left]. }
    destruct Hc as [Hc| ->]; [|done]. pose proof (inv_functors _ H k f Hc) as Ho. destruct f; simpl in *; try done.
    rewrite length_app. simpl. lia.
Qed.

Lemma acceptor_inv a a' s :
  inv (a, s) -> Acceptor.wf a' ->
  (length (omap listening (queue (loop_ s) s)) + Acceptor.armed a' <= 1)%nat -> inv (a', s).
Proof. intros [[] Hc] Hw Hl. split; [by split | done]. Qed.

Lemma complete_inv a s res flags a' s' :
  inv (a, s) -> Acceptor.complete getpeername (Some newConnection) res flags a s = Ok (a', s') -> inv (a', s').
Proof.
  intros H Hs. destruct (Acceptor.complete_ok _ _ _ _ _ _ _ _ (inv_acceptor _ (proj1 H)) Hs) as (Hac & Hw & _ & Hcb).
  pose proof (inv_listen _ (proj1 H)) as Hl. pose proof (Acceptor.wf_armed _ (inv_acceptor _ (proj1 H))) as Har.
  pose proof (Acceptor.wf_armed _ Hw) as Har'. simpl in *. rewrite Hac in Har. simpl in Har.
  assert (Hone : (Acceptor.armed a' <= 1)%nat) by (rewrite Har'; case_match; lia).
  destruct (0 <? res); [|subst; apply (acceptor_inv a); [done | done | lia]].
  destruct (newConnection_inv a s _ _ _ H Hcb) as (H' & Hlp & Hlis).
  apply (acceptor_inv a); [done | done |]. rewrite Hlp, Hlis. lia.
Qed.

Lemma omap_step {X Y} (g : X -> option Y) x l :
  omap g (x :: l) = match g x with Some y => y :: omap g l | None => omap g l end.
Proof. reflexivity. Qed.

(** A loop takes its oldest closure, one that starts nothing. *)
Lemma pop_inv0 a s l f fs :
  inv0 (a, s) -> queue l s = f :: fs -> establishing f = None ->
  inv0 (a, set_queues (<[l := fs]> (queues s)) s).
Proof.
  intros H Hq He. set (s1 := set_queues _ s). destruct H. split; simpl in *; try done.
  - unfold s1. rewrite queue_pop. case_decide as E; [|done]. rewrite E, Hq, omap_step in inv_listen0.
    destruct (listening f); cbn [length] in inv_listen0; lia.
  - intros k. specialize (inv_established0 k). unfold pending_on in *. unfold s1. rewrite queue_pop.
    case_decide as E; [|done]. rewrite E, Hq in inv_established0. simpl in inv_established0. rewrite He in inv_established0.
    by rewrite E.
  - intros k g. unfold s1. rewrite queue_pop. case_decide as E; [|apply inv_functors0]. intros Hg.
    apply (inv_functors0 k). rewrite E, Hq. by constructor.
Qed.

Lemma pop_closing a s l f fs :
  inv (a, s) -> queue l s = f :: fs ->
  closing_ok (fun i => f = RemoveInLoop i) (set_queues (<[l := fs]> (queues s)) s).
Proof.
  intros [H Hcl] Hq i. specialize (Hcl i). simpl in *. rewrite Hcl, queue_pop. case_decide as E.
  - rewrite E, Hq, elem_of_cons. naive_solver.
  - split; [tauto|]. intros [?|[?|Hf]]; [tauto | tauto |]. exfalso. subst f.
    pose proof (inv_functors _ H l (RemoveInLoop i)) as Ho. simpl in Ho. rewrite Hq in Ho.
    destruct Ho as [Ho _]; [by constructor|]. by apply E.
Qed.

Lemma closing_ok_weaken (P : nat -> Prop) s : closing_ok P s -> (forall i, ~ P i) -> closing_ok (fun _ => False) s.
Proof. intros H HP i. specialize (H i). specialize (HP i). tauto. Qed.

Lemma functor_inv a s l f fs :
  inv (a, s) -> queue l s = f :: fs ->
  exists x, run_functor l f a (set_queues (<[l := fs]> (queues s)) s) = Ok x /\ inv x.
Proof.
  intros H Hq. pose proof (pop_closing a s l f fs H Hq) as Hcl.
  assert (Hf : functor_ok l s f) by (apply (inv_functors _ (proj1 H) l); simpl; rewrite Hq; by constructor).
  assert (Hal : alive s = true) by (apply (inv_alive _ (proj1 H))).
  set (s1 := set_queues _ s) in *. destruct f as [|id|id|id]; [| | |done]; simpl in Hf.
  - simpl. unfold this. simpl. rewrite Hal. simpl. eexists. split; [done|].
    pose proof (inv_listen _ (proj1 H)) as Hl. simpl in Hl. rewrite <- Hf, Hq, omap_step in Hl.
    cbn [length listening] in Hl. apply (acceptor_inv a).
    + split; [apply (pop_inv0 a s l Listen); [apply H | done | done] | by apply (closing_ok_weaken _ _ Hcl)].
    + split; simpl; [lia | done].
    + simpl. unfold s1. rewrite queue_pop, decide_True by done. lia.
  - simpl. unfold this. simpl. rewrite Hal. simpl. eexists. split; [done|]. split.
    2:{ apply (closing_ok_weaken _ _ Hcl). done. }
    destruct H as [[] _]. split; simpl in *; try done.
    + change (queue (loop_ s) (set_established _ s1)) with (queue (loop_ s) s1). unfold s1. rewrite queue_pop.
      case_decide as E; [|done]. by rewrite E, Hq in inv_listen0.
    + intros k. specialize (inv_established0 k). unfold pending_on, established_on in *. simpl.
      change (queue k (set_established _ s1)) with (queue k s1). unfold s1. rewrite queue_pop, filter_app, fmap_app.
      rewrite filter_cons, filter_nil. simpl. destruct (decide (k = l)) as [E|E].
      * rewrite E, Hq in inv_established0. rewrite E, decide_True by done. simpl in *. by rewrite <- app_assoc.
      * rewrite decide_False by done. by rewrite app_nil_r.
    + intros k g. change (queue k (set_established _ s1)) with (queue k s1). unfold s1. rewrite queue_pop.
      case_decide as E; [|apply inv_functors0]. intros Hg. apply (inv_functors0 k). rewrite E, Hq. by constructor.
  - simpl. destruct (erase_inv0 a s1 id) as (s2 & -> & H2 & Hc2); [by apply (pop_inv0 a s l (RemoveInLoop id)); [apply H|..]| apply Hf|].
    simpl. eexists. split; [done|]. split; [done|]. apply Hc2. intros i. rewrite (Hcl i). naive_solver.
Qed.

Lemma step_ok_inv e x : inv x -> enabled e x -> next_conn_id_ x.2 < INT_MAX -> exists x', step e x = Ok x' /\ inv x'.
Proof.
  destruct x as [a s]. intros H He Hn. destruct e as [res flags|id|l]; simpl in *.
  - destruct (Acceptor.complete_total getpeername (Some newConnection) res flags a s) as (a' & s' & Hs).
    + apply (proj1 H).
    + pose proof (Acceptor.wf_armed _ (inv_acceptor _ (proj1 H))) as Ha. simpl in Ha. rewrite Ha in He. by case_match.
    + intros cb [= <-] _. destruct (turn_loop a s (proj1 H)) as (p & Hp & _). unfold newConnection. rewrite Hp. simpl.
      rewrite (proj2 (Z.eqb_neq _ _)) by lia. eauto.
    + eexists. split; [done|]. by apply (complete_inv a s res flags).
  - destruct (close_connection_inv a s id H He) as (s' & -> & H'). simpl. eauto.
  - destruct (queue l s) as [|f fs] eqn:Hq; [by eexists|]. by apply functor_inv.
Qed.

Lemma step_keeps_inv e x x' : inv x -> enabled e x -> step e x = Ok x' -> inv x'.
Proof.
  intros H He Hs. destruct x as [a s], e as [res flags|id|l]; simpl in *.
  - destruct x' as [a' s']. by apply (complete_inv a s res flags).
  - destruct (close_connection_inv a s id H He) as (s' & E & H'). rewrite E in Hs. simpl in Hs. by simplify_eq.
  - destruct (queue l s) as [|f fs] eqn:Hq; [by simplify_eq|].
    destruct (functor_inv a s l f fs H Hq) as (x & E & H'). rewrite E in Hs. by simplify_eq.
Qed.

Lemma launch_inv base bind_addr name fd n here cb x :
  InetAddress.wf bind_addr -> launch base bind_addr name fd n here cb = Ok x -> inv x.
Proof.
  intros Hb Hx. unfold launch in Hx. unfold Acceptor.new_Acceptor, Acceptor.new_AcceptContext in Hx.
  destruct (fd <? 0); [done|]. destruct (negb (fd =? 0)); [|done]. simpl in Hx.
  destruct (Pool.start_wf cb base name n _ eq_refl) as (Hw & Hba & Hn & Hnx & _).
  set (p := Pool.start cb _) in *.
  assert (H : forall q, (forall l f, f ∈ default [] (q !! l) -> l = base /\ f = Listen) ->
    forall a, Acceptor.wf a -> (length (omap listening (default [] (q !! base))) + Acceptor.armed a <= 1)%nat ->
    inv (a, mk base (InetAddress.toIpPort bind_addr) name p ∅ n 1 1 true [] q [] [] [])).
  { intros q Hq a Ha Hl. split; [split; simpl; try done|].
    - by apply InetAddress.toIpPort_eq.
    - intros nm id. split; [done|]. by intros (c & Hc & _).
    - intros id Hid. by apply not_elem_of_nil in Hid.
    - intros l. unfold established_on, pending_on, assigned, queue. simpl.
      destruct (omap establishing (default [] (q !! l))) as [|i ids] eqn:E; [done|]. exfalso.
      assert (Hi : i ∈ i :: ids) by constructor. rewrite <- E in Hi. apply list_elem_of_omap in Hi as (f & Hf & He).
      destruct (Hq l f Hf) as [_ ->]. done.
    - intros l f Hf. by destruct (Hq l f Hf) as [-> ->].
    - intros id. simpl. split; [intros Hi; by apply not_elem_of_nil in Hi|].
      intros [Hi|[Hi|[]]]; [by apply not_elem_of_nil in Hi|]. destruct (Hq _ _ Hi) as [_ ?]. done. }
  destruct here; simpl in Hx; injection Hx as <-.
  - apply (H ∅); [|by split|rewrite lookup_empty; simpl; lia]. intros l f. rewrite lookup_empty. intros Hi. by apply not_elem_of_nil in Hi.
  - apply H; [|by split|]; unfold queue; simpl; rewrite lookup_empty; simpl.
    + intros l f. destruct (decide (l = base)) as [->|Hne].
      * rewrite lookup_insert_eq. simpl. by intros ->%list_elem_of_singleton.
      * rewrite lookup_insert_ne, lookup_empty by done. intros Hi. by apply not_elem_of_nil in Hi.
    + rewrite lookup_insert_eq. simpl. lia.
Qed.

Lemma reachable_server_inv x0 x : inv x0 -> reachable x0 x -> inv x.
Proof. intros H. induction 1; [done|]. eauto using step_keeps_inv. Qed.

Section properties.
Context (base : nat) (bind_addr : InetAddress) (name : text) (fd n : Z) (here cb : bool) (x0 : Acceptor * TcpServer).
Hypothesis Haddr : InetAddress.wf bind_addr.
Hypothesis Hlaunch : launch base bind_addr name fd n here cb = Ok x0.

(** C32. The table of the server is exact: connections have different names, so
    that none ever replaces another in the table, and a name is mapped to a
    connection just when that connection was made under it and is not erased;
    once the base loop has run its closures, the table holds all connections but
    those that closed. *)
Theorem connection_table_exact x :
  reachable x0 x ->
  NoDup (conn_name <$> connections x.2) /\
  (forall nm id, connection_map_ x.2 !! nm = Some id <->
    exists c, connections x.2 !! id = Some c /\ conn_name c = nm /\ id ∉ erased x.2) /\
  (queue (loop_ x.2) x.2 = [] -> forall id, id ∈ closing x.2 <-> id ∈ erased x.2).
Proof.
  intros Hr. destruct (reachable_server_inv _ _ (launch_inv _ _ _ _ _ _ _ _ Haddr Hlaunch) Hr) as [H Hc].
  split_and!; [by apply inv_names | apply H |]. intros Hq id. rewrite (Hc id), Hq, elem_of_nil. tauto.
Qed.

(** C33. The [i]-th connection belongs to the loop in turn, and every loop
    establishes its connections once each, in the order in which they were
    accepted: those it has established followed by those that wait in its queue
    are the connections assigned to it. *)
Theorem connections_established_in_order x :
  reachable x0 x ->
  (forall i c, connections x.2 !! i = Some c -> getLoop c = Pool.loop_at (pool_ x.2) i) /\
  (forall l, established_on l x.2 ++ pending_on l x.2 = assigned l x.2).
Proof.
  intros Hr. destruct (reachable_server_inv _ _ (launch_inv _ _ _ _ _ _ _ _ Haddr Hlaunch) Hr) as [H _].
  split; [|apply H]. intros i c Hi. by apply (inv_conn _ H).
Qed.

(** The server does not fail on any event as long as the counter of
    connections is below [INT_MAX], and an accept that delivers a descriptor
    leaves exactly one accept request armed and one more connection, which is in
    the table. *)
Theorem server_accepts e x :
  reachable x0 x -> enabled e x -> next_conn_id_ x.2 < INT_MAX ->
  exists x', step e x = Ok x' /\
    (forall res flags, e = AcceptDone res flags -> 0 < res ->
      Acceptor.armed x'.1 = 1%nat /\
      exists c, connections x'.2 = connections x.2 ++ [c] /\ sock_fd c = res /\
        connection_map_ x'.2 !! conn_name c = Some (length (connections x.2))).
Proof.
  intros Hr He Hn. pose proof (reachable_server_inv _ _ (launch_inv _ _ _ _ _ _ _ _ Haddr Hlaunch) Hr) as H.
  destruct (step_ok_inv e x H He Hn) as (x' & Hx' & H'). exists x'. split; [done|]. intros res flags -> Hres.
  destruct x as [a s], x' as [a' s']. simpl in *.
  destruct (Acceptor.complete_ok _ _ _ _ _ _ _ _ (inv_acceptor _ (proj1 H)) Hx') as (_ & Hw & Hac & Hcb).
  rewrite (proj2 (Z.ltb_lt 0 res)) in Hcb by done. rewrite (proj2 (Z.ltb_ge res 0)), orb_true_r in Hac by lia.
  split; [rewrite (Acceptor.wf_armed _ Hw), Hac; done|]. unfold newConnection in Hcb.
  destruct (Pool.getNextLoop (pool_ s)) as [[l p]|]; [|done]. simpl in Hcb.
  destruct (next_conn_id_ s =? INT_MAX); [done|]. injection Hcb as <-. simpl.
  eexists. split; [done|]. simpl. split; [done|]. by rewrite lookup_insert_eq.
Qed.
End properties.

(** *** The accept after an error *)

Lemma erase_keeps id s s' :
  removeConnectionInLoop id s = Ok s' -> connections s' = connections s /\ loop_ s' = loop_ s /\ queues s' = queues s.
Proof.
  unfold removeConnectionInLoop, this. destruct (alive s); [|done]. simpl.
  destruct (connections s !! id); [|done]. by intros [= <-].
Qed.

Lemma close_keeps id s s' :
  close_connection id s = Ok s' -> connections s' = connections s /\ loop_ s' = loop_ s /\
    forall l, omap listening (queue l s') = omap listening (queue l s).
Proof.
  unfold close_connection. destruct (connections s !! id) as [c|]; [|done]. case_decide; [by intros [= <-]|].
  unfold removeConnection, this. destruct (alive _); [|done]. simpl. case_decide.
  - intros (H1 & H2 & H3)%erase_keeps. split_and!; try done. intros l. unfold queue. by rewrite H3.
  - intros [= <-]. split_and!; try done. intros l. rewrite queue_queueInLoop. case_decide; [|done]. subst.
    rewrite omap_app. simpl. by rewrite app_nil_r.
Qed.

Definition stopped (x : Acceptor * TcpServer) : Prop :=
  Acceptor.is_accepting_ (Acceptor.accept_context_ x.1) = false /\ omap listening (queue (loop_ x.2) x.2) = [].

Lemma stopped_step e x x' :
  inv x -> stopped x -> enabled e x -> step e x = Ok x' -> stopped x' /\ connections x'.2 = connections x.2.
Proof.
  intros H [Ha Hl] He Hs. destruct x as [a s], e as [res flags|id|l]; simpl in *.
  - pose proof (Acceptor.wf_armed _ (inv_acceptor _ (proj1 H))) as Har. simpl in Har. by rewrite Ha in Har.
  - destruct (close_connection id s) as [s'|] eqn:E; [|done]. simpl in Hs. injection Hs as <-.
    destruct (close_keeps _ _ _ E) as (Hc & Hlp & Hq). split; [|done]. split; [done|]. simpl. by rewrite Hlp, Hq.
  - destruct (queue l s) as [|f fs] eqn:Hq; [by simplify_eq|].
    pose proof (inv_functors _ (proj1 H) l f) as Hf. simpl in Hf. rewrite Hq in Hf. specialize (Hf ltac:(by constructor)).
    set (s1 := set_queues _ s) in Hs.
    assert (Hl1 : f <> Listen /\ omap listening (queue (loop_ s) s1) = []).
    { unfold s1. rewrite queue_pop. case_decide as E.
      - rewrite E, Hq, omap_step in Hl. by destruct f.
      - split; [|done]. intros ->. by apply E. }
    destruct Hl1 as [Hne Hl1]. destruct f as [|id|id|id]; [done| | |done]; simpl in Hs.
    + destruct (this s1); [|done]. simpl in Hs. by simplify_eq.
    + destruct (removeConnectionInLoop id s1) as [s2|] eqn:E; [|done]. simpl in Hs. injection Hs as <-.
      destruct (erase_keeps _ _ _ E) as (Hc & Hlp & Hqs). split; [|done]. split; [done|]. simpl.
      unfold queue in *. by rewrite Hlp, Hqs.
Qed.

Lemma stopped_reachable x x' : inv x -> stopped x -> reachable x x' -> stopped x' /\ connections x'.2 = connections x.2.
Proof.
  intros H Hst. induction 1 as [|e y z Hr [IH IHc] He Hs]; [done|].
  destruct (stopped_step e y z (reachable_server_inv _ _ H Hr) IH He Hs) as [? ?]. split; [done|congruence].
Qed.

(** An accept that completes with an error and without [MORE] (the process
    is out of descriptors, say, where the message announces a pause) is never
    submitted again: whatever happens afterwards, no accept request is armed and
    no connection is made. *)
Theorem accept_error_is_final base bind_addr name fd n here cb x0 x res flags x1 x2 :
  InetAddress.wf bind_addr -> launch base bind_addr name fd n here cb = Ok x0 -> reachable x0 x ->
  enabled (AcceptDone res flags) x -> res < 0 -> Acceptor.IORING_CQE_F_MORE flags = false ->
  step (AcceptDone res flags) x = Ok x1 -> reachable x1 x2 ->
  Acceptor.armed x2.1 = 0%nat /\ connections x2.2 = connections x.2.
Proof.
  intros Hw Hla Hr He Hres Hm Hs Hr2.
  pose proof (reachable_server_inv _ _ (launch_inv _ _ _ _ _ _ _ _ Hw Hla) Hr) as H.
  pose proof (step_keeps_inv _ _ _ H He Hs) as H1. pose proof (reachable_server_inv _ _ H1 Hr2) as H2.
  destruct x as [a s], x1 as [a1 s1], x2 as [a2 s2]. simpl in *.
  destruct (Acceptor.complete_ok _ _ _ _ _ _ _ _ (inv_acceptor _ (proj1 H)) Hs) as (Hac & _ & Hac1 & Hcb). simpl in Hac.
  rewrite (proj2 (Z.ltb_ge 0 res)) in Hcb by lia. subst s1. rewrite Hm, (proj2 (Z.ltb_lt res 0)) in Hac1 by done.
  pose proof (inv_listen _ (proj1 H)) as Hl. pose proof (Acceptor.wf_armed _ (inv_acceptor _ (proj1 H))) as Har.
  simpl in Hl, Har. rewrite Hac in Har.
  destruct (stopped_reachable (a1, s) (a2, s2) H1) as [[Hst _] Hc]; [|done|].
  - split; [done|]. simpl. apply length_zero_iff_nil. lia.
  - pose proof (Acceptor.wf_armed _ (inv_acceptor _ (proj1 H2))) as Har2. simpl in *. by rewrite Har2, Hst.
Qed.

End server.

(** ** Witnesses: a server with one thread accepts a connection *)

Definition demo_addr : InetAddress := InetAddress.new_InetAddress 8080 [127; 0; 0; 1].
Definition demo_peer : Z -> InetAddress := fun _ => demo_addr.
Definition demo_name : text := [115].
Definition demo_launch (n : Z) : result (Acceptor * TcpServer) := launch (A := first_fit) 0 demo_addr demo_name 3 n true false.
Definition demo_server (n : Z) (es : list event) : Acceptor * TcpServer :=
  match (x ← demo_launch n; steps demo_peer demo_peer es x) with
  | Ok x => x
  | Fault _ => (Acceptor.mkAcceptor false (Acceptor.mkAcceptContext 0 0 0 false false false) 0 [],
                new_TcpServer 0 demo_addr demo_name)
  end.

Lemma demo_addr_wf : InetAddress.wf demo_addr.
Proof. apply InetAddress.new_InetAddress_wf; [done | repeat constructor; lia]. Qed.

Lemma demo_launched n : n = 0 \/ n = 1 -> demo_launch n = Ok (demo_server n []).
Proof. intros [-> | ->]; vm_compute; reflexivity. Qed.

Definition demo_accept : event := AcceptDone 7 2.
Lemma demo_accept_reachable : reachable demo_peer demo_peer (demo_server 1 []) (demo_server 1 [demo_accept]).
Proof.
  eapply (reachable_step _ _ _ demo_accept); [apply reachable_refl | vm_compute; lia | vm_compute; reflexivity].
Qed.

Lemma connection_table_exact_witness :
  connection_map_ (demo_server 1 [demo_accept]).2 !! conn_name_of (demo_server 1 []).2 1 = Some 0%nat.
Proof.
  apply (connection_table_exact (A := first_fit) demo_peer demo_peer 0 demo_addr demo_name 3 1 true false
    (demo_server 1 []) demo_addr_wf (demo_launched 1 (or_intror eq_refl)) _ demo_accept_reachable).
  eexists. split_and!; [vm_compute; reflexivity | vm_compute; reflexivity | apply not_elem_of_nil].
Defined.

Lemma connections_established_in_order_witness : pending_on 1 (demo_server 1 [demo_accept]).2 = [0%nat].
Proof.
  exact (proj2 (connections_established_in_order (A := first_fit) demo_peer demo_peer 0 demo_addr demo_name 3 1 true
    false (demo_server 1 []) demo_addr_wf (demo_launched 1 (or_intror eq_refl)) _ demo_accept_reachable) 1%nat).
Defined.

Lemma server_accepts_witness : exists x', step demo_peer demo_peer demo_accept (demo_server 1 []) = Ok x'.
Proof.
  destruct (server_accepts (A := first_fit) demo_peer demo_peer 0 demo_addr demo_name 3 1 true false (demo_server 1 [])
    demo_addr_wf (demo_launched 1 (or_intror eq_refl)) demo_accept _ (reachable_refl _ _ _)) as (x' & Hx & _);
    [vm_compute; lia | vm_compute; reflexivity |]. by exists x'.
Defined.

(** [EMFILE] without [MORE]. *)
Definition demo_emfile : event := AcceptDone (-24) 0.
Lemma accept_error_is_final_witness : Acceptor.armed (demo_server 1 [demo_emfile]).1 = 0%nat.
Proof.
  apply (accept_error_is_final (A := first_fit) demo_peer demo_peer 0 demo_addr demo_name 3 1 true false
    (demo_server 1 []) (demo_server 1 []) (-24) 0 (demo_server 1 [demo_emfile]) (demo_server 1 [demo_emfile])
    demo_addr_wf (demo_launched 1 (or_intror eq_refl)) (reachable_refl _ _ _));
    [vm_compute; lia | lia | reflexivity | vm_compute; reflexivity | apply reachable_refl].
Defined.

(** The destructor of the server queues the destruction of its connections, but
    the close callback they then call captured the server: a loop that still runs
    uses it after its end. *)
Lemma destroyed_server_is_used :
  let x := demo_server 0 [demo_accept; RunFunctor 0] in
  queue 0 (destroy x.2) = [Destroy 0] /\
  step demo_peer demo_peer (RunFunctor 0) (x.1, destroy x.2) = Fault Dangling.
Proof. vm_compute. split; reflexivity. Qed.

End TcpServer.
