(* ===== verification/ServerSystem.v ===== *)
(** * The server and its loops

    [TcpServer] in front of the loops of its pool, with the real connections of
    [LoopConnections.v] on them: an accepted descriptor becomes an entry of the
    table and a closure in the queue of a loop, which runs it by establishing the
    connection; a connection that closes calls the close callback, which queues
    its removal in the base loop, which drops it.

    A run of the whole projects to a run of the server of [Server.v] and, for every
    loop, to a run of [LoopConnections.v], so that the theorems about the parts hold
    of the whole.  What the server and the loops assume of each other is proved here;
    what they assume of the kernel and of the timing ([wcalm]: no transient write
    errors, and the base loop gets to a removal when nothing of the connection is in
    flight) stays a condition of the theorems. *)

From S2P Require Import Prelude Text InetAddress SendQueue ChunkPool InputChainBuffer InputBuffers TcpConnection.
From S2P Require Import ConnectionSafety ConnectionProgress ClientProtocol LoopConnections LoopThreadPool Server.
Import ChunkPoolManagerInput TcpConnection ConnectionSafety ConnectionProgress ClientProtocol LoopConnections.

Module ServerSystem.
Module S := Server.TcpServer.
Module P := IoUringLoopThreadPool.

Section system.
Context {A : Allocator} {B : BufRing} {F : WriteErrors} (getpeername getsockname : Z -> InetAddress.InetAddress).

(** [coroutine_handler_] *)
Context (handler : S.Connection -> prog).

(** The server with its acceptor, and the connections of each loop of its pool;
    connection [id] of the server is connection [id] of its loop. *)
Record world := mkWorld {
  front : Acceptor.Acceptor * S.TcpServer;
  loops : gmap nat loop_state
}.
Abbreviation server w := (front w).2.

Inductive wevent :=
  | WAccept (res flags : Z)      (** the accept completes in the base loop *)
  | WOn (id : nat) (e : event)   (** something happens to connection [id] *)
  | WRun (l : nat).              (** loop [l] runs its oldest closure *)

(** What [newConnection] gives to the connection. *)
Definition kHighWaterMark : Z := 4096 * 16.
Definition kHighWaterMarkChunk : Z := 16.

Definition on_worker (l : nat) (e : loop_event) (w : world) : result world :=
  match loops w !! l with
  | Some L => L ← lstep e L; Ok (mkWorld (front w) (<[l := L]> (loops w)))
  | None => Fault Dangling
  end.

(** [conn->Established(coroutine_handler_(conn))] on the thread of its loop. *)
Definition establish (id : nat) (k : S.Connection) (w : world) : result world :=
  on_worker (S.getLoop k)
    (Establish id (S.sock_fd k) kHighWaterMark kHighWaterMarkChunk kHighWaterMark (handler k)) w.

(** How often connection [id] has called its close callback. *)
Definition calls (l id : nat) (w : world) : nat :=
  match loops w !! l with
  | Some L => match conns L !! id with Some c => close_calls c | None => 0 end
  | None => 0
  end.

(** A handler of the connection runs to its end; the close callback it may call
    only queues a closure in the base loop. *)
Definition handle (id : nat) (e : event) (w : world) : result world :=
  match S.connections (server w) !! id with
  | None => Fault Dangling
  | Some k =>
      w' ← on_worker (S.getLoop k) (On id e) w;
      if decide (calls (S.getLoop k) id w' = calls (S.getLoop k) id w) then Ok w'
      else x ← S.step getpeername getsockname (S.Closed id) (front w'); Ok (mkWorld x (loops w'))
  end.

(** The erasure from the table releases the table's reference; [Destroy] is queued
    by [~TcpServer] only, whose connections use it after its end. *)
Definition run_closure (f : S.Functor) (w : world) : result world :=
  match f with
  | S.Listen => Ok w
  | S.Establish id =>
      match S.connections (server w) !! id with Some k => establish id k w | None => Fault Dangling end
  | S.RemoveInLoop id =>
      match S.connections (server w) !! id with Some k => on_worker (S.getLoop k) (Drop id) w | None => Fault Dangling end
  | S.Destroy _ => Fault Dangling
  end.

Definition wstep (e : wevent) (w : world) : result world :=
  match e with
  | WAccept res flags =>
      x ← S.step getpeername getsockname (S.AcceptDone res flags) (front w); Ok (mkWorld x (loops w))
  | WOn id e => handle id e w
  | WRun l =>
      match S.queue l (server w) with
      | [] => Ok w
      | f :: _ =>
          x ← S.step getpeername getsockname (S.RunFunctor l) (front w);
          run_closure f (mkWorld x (loops w))
      end
  end.

Fixpoint wsteps (es : list wevent) (w : world) : result world :=
  match es with
  | [] => Ok w
  | e :: es => w ← wstep e w; wsteps es w
  end.

Context (D : Z) (D_nonneg : 0 <= D).

(** What can happen: the kernel completes an accept while one is armed, and
    operations of the connections that are in flight, with results as in
    [ConnectionSafety.v]; a loop runs its closures at any time. *)
Definition wvalid (w : world) (e : wevent) : Prop :=
  match e with
  | WAccept _ _ => Acceptor.armed (front w).1 <> 0%nat /\ S.next_conn_id_ (server w) < S.INT_MAX
  | WOn id e => exists k L, S.connections (server w) !! id = Some k /\ loops w !! S.getLoop k = Some L /\
      lvalid D L (On id e)
  | WRun l => True
  end.
Definition wvalid_run : world -> list wevent -> Prop := throughout wstep wvalid.

(** What the theorems assume and the code does not ensure: no transient write errors,
    and the base loop gets to the removal of a connection when none of its operations
    is in flight any more. *)
Definition wcalm (w : world) (e : wevent) : Prop :=
  match e with
  | WAccept _ _ => True
  | WOn id e => smooth e
  | WRun l =>
      match S.queue l (server w) with
      | S.RemoveInLoop id :: _ => forall k L c,
          S.connections (server w) !! id = Some k -> loops w !! S.getLoop k = Some L -> conns L !! id = Some c ->
          reads_in_flight c = 0%nat /\ writes_in_flight c = 0%nat
      | _ => True
      end
  end.
Definition wcalm_run : world -> list wevent -> Prop := throughout wstep wcalm.

(** ** What the server does in a step *)

Definition removal (f : S.Functor) : option nat := match f with S.RemoveInLoop id => Some id | _ => None end.
Definition removing (s : S.TcpServer) : list nat := omap removal (S.queue (S.loop_ s) s).

(** What most steps leave alone. *)
Record steady (s s' : S.TcpServer) : Prop := {
  st_loop : S.loop_ s' = S.loop_ s;
  st_base : P.base_loop_ (S.pool_ s') = P.base_loop_ (S.pool_ s);
  st_loops : P.loops_ (S.pool_ s') = P.loops_ (S.pool_ s)
}.

Lemma accept_front a s a' s' res flags :
  S.inv (a, s) -> S.step getpeername getsockname (S.AcceptDone res flags) (a, s) = Ok (a', s') ->
  steady s s' /\ S.closing s' = S.closing s /\ S.erased s' = S.erased s /\ S.established s' = S.established s /\
  removing s' = removing s /\
  (S.connections s' = S.connections s \/
   exists k, S.connections s' = S.connections s ++ [k] /\ 0 < S.sock_fd k).
Proof.
  intros [H _] Hs. simpl in Hs.
  destruct (Acceptor.complete_ok _ _ _ _ _ _ _ _ (S.inv_acceptor _ H) Hs) as (_ & _ & _ & Hcb).
  destruct (Z.ltb_spec 0 res) as [Hp|]; [|subst; by split_and!; [..|left]].
  destruct (P.getNextLoop_ok _ (S.inv_pool _ H)) as (p & Hp1 & _ & _ & Hb & Hl & _). simpl in Hp1, Hb, Hl.
  unfold S.newConnection in Hcb. rewrite Hp1 in Hcb. simpl in Hcb.
  destruct (S.next_conn_id_ s =? S.INT_MAX); [done|]. injection Hcb as <-. split_and!; try done.
  - unfold removing. rewrite S.queue_queueInLoop. simpl. case_decide as E; [|done]. rewrite omap_app. simpl.
    rewrite app_nil_r. by rewrite E.
  - right. eexists. split; [done|]. done.
Qed.

Lemma closed_front a s id k :
  S.inv (a, s) -> S.connections s !! id = Some k -> S.getLoop k <> S.loop_ s -> id ∉ S.closing s ->
  exists s', S.step getpeername getsockname (S.Closed id) (a, s) = Ok (a, s') /\
    steady s s' /\ S.closing s' = S.closing s ++ [id] /\ S.erased s' = S.erased s /\
    S.established s' = S.established s /\ removing s' = removing s ++ [id] /\ S.connections s' = S.connections s.
Proof.
  intros [H _] Hk Hl Hn. simpl. unfold S.close_connection. rewrite Hk, decide_False by done.
  unfold S.removeConnection, S.this. simpl. rewrite (S.inv_alive _ H : S.alive s = true). simpl.
  rewrite decide_False by done. eexists. split; [done|]. split_and!; try done.
  unfold removing. rewrite S.queue_queueInLoop. simpl. rewrite decide_True by done. by rewrite omap_app.
Qed.

Lemma close_established id s s' : S.close_connection id s = Ok s' -> S.established s' = S.established s.
Proof.
  unfold S.close_connection, S.removeConnection, S.removeConnectionInLoop, S.this.
  destruct (S.connections s !! id) as [k|] eqn:Hk; [|done]. case_decide; [by intros [= <-]|]. simpl.
  destruct (S.alive s) eqn:Ha; [|done]. cbn [mbind result_bind]. case_decide; [|by intros [= <-]].
  simpl. rewrite ?Hk. by intros [= <-].
Qed.

(** The oldest closure of loop [l] runs: only the histories change, and the table. *)
Lemma run_front a s l f fs a' s' :
  S.inv (a, s) -> S.queue l s = f :: fs ->
  S.step getpeername getsockname (S.RunFunctor l) (a, s) = Ok (a', s') ->
  S.functor_ok l s f /\ steady s s' /\ S.closing s' = S.closing s /\ S.connections s' = S.connections s /\
  S.established s' = S.established s ++ (match f with S.Establish id => [(l, id)] | _ => [] end) /\
  S.erased s' = S.erased s ++ (match f with S.RemoveInLoop id => [id] | _ => [] end) /\
  removing s = (match f with S.RemoveInLoop id => [id] | _ => [] end) ++ removing s'.
Proof.
  intros [H _] Hq Hs. assert (Hf : S.functor_ok l s f).
  { apply (S.inv_functors _ H l). simpl. rewrite Hq. by constructor. }
  split; [done|]. simpl in Hs. rewrite Hq in Hs.
  assert (Hr : forall s1, S.queues s1 = <[l := fs]> (S.queues s) -> S.loop_ s1 = S.loop_ s ->
    removing s = (match f with S.RemoveInLoop id => [id] | _ => [] end) ++ removing s1).
  { intros s1 Hq1 Hl1. unfold removing. rewrite Hl1. unfold S.queue at 2. rewrite Hq1.
    destruct (decide (l = S.loop_ s)) as [<-|Hne].
    - rewrite lookup_insert_eq, Hq, S.omap_step. by destruct f.
    - rewrite lookup_insert_ne by done. destruct f; try done. by destruct Hf. }
  destruct f as [|id|id|id]; [| | |done]; simpl in Hs; unfold S.this in Hs; simpl in Hs;
    rewrite ?(S.inv_alive _ H : S.alive s = true) in Hs; simpl in Hs.
  - injection Hs as <- <-. simpl. rewrite !app_nil_r. split_and!; try done. by apply Hr.
  - injection Hs as <- <-. simpl. rewrite !app_nil_r. split_and!; try done. by apply Hr.
  - unfold S.removeConnectionInLoop, S.this in Hs. simpl in Hs. rewrite (S.inv_alive _ H : S.alive s = true) in Hs. simpl in Hs.
    destruct (S.connections s !! id); [|done]. simpl in Hs. injection Hs as <- <-. simpl. rewrite !app_nil_r.
    split_and!; try done. by apply Hr.
Qed.

(** It takes nothing but that closure from the queue of the loop. *)
Lemma run_queue a s l f fs a' s' :
  S.inv (a, s) -> S.queue l s = f :: fs ->
  S.step getpeername getsockname (S.RunFunctor l) (a, s) = Ok (a', s') -> S.queue l s' = fs.
Proof.
  intros [H _] Hq Hs. assert (Hf : S.functor_ok l s f).
  { apply (S.inv_functors _ H l). simpl. rewrite Hq. by constructor. }
  cbn [S.step] in Hs. rewrite Hq in Hs. set (s1 := S.set_queues _ s) in Hs.
  assert (Hp : S.queue l s1 = fs) by (unfold s1; by rewrite S.queue_pop, decide_True).
  destruct f as [|id|id|id]; [| | |done]; cbn [S.run_functor] in Hs.
  - destruct (S.this s1); [|done]. simpl in Hs. by injection Hs as _ <-.
  - destruct (S.this s1); [|done]. simpl in Hs. by injection Hs as _ <-.
  - destruct (S.removeConnectionInLoop id s1) as [s2|] eqn:E; [|done]. simpl in Hs. injection Hs as _ <-.
    destruct (S.erase_keeps _ _ _ E) as (_ & _ & Hk). unfold S.queue in *. by rewrite Hk.
Qed.

(** ** How the parts fit together *)

(** The connection [c] of loop [l] as the server knows it: in the table until it is
    erased, closing once it has called back. *)
Record known (s : S.TcpServer) (l id : nat) (c : TcpConnection) : Prop := {
  kn_conn : exists k, S.connections s !! id = Some k /\ S.getLoop k = l;
  kn_established : (l, id) ∈ S.established s;
  kn_told : told c;
  kn_table : in_map c = true <-> id ∉ S.erased s;
  kn_closing : closing_ c = true <-> id ∈ S.closing s
}.

Record glued (s : S.TcpServer) (ls : gmap nat loop_state) : Prop := {
  gl_workers : P.loops_ (S.pool_ s) <> [];
  gl_base : P.base_loop_ (S.pool_ s) = S.loop_ s;
  gl_loops l : l ∈ P.loops_ (S.pool_ s) -> is_Some (ls !! l);
  gl_fd id k : S.connections s !! id = Some k -> 0 < S.sock_fd k;
  gl_once : NoDup (S.erased s ++ removing s);
  gl_here l L id c : ls !! l = Some L -> conns L !! id = Some c -> known s l id c;
  gl_there id k : S.connections s !! id = Some k -> (S.getLoop k, id) ∈ S.established s -> id ∉ S.erased s ->
    exists L c, ls !! S.getLoop k = Some L /\ conns L !! id = Some c;
  gl_closing id : id ∈ S.closing s -> exists k, S.connections s !! id = Some k /\ (S.getLoop k, id) ∈ S.established s
}.

(** *** Facts about the server alone *)

Lemma elem_of_numbered {X} (l : list X) i x : (i, x) ∈ imap pair l <-> l !! i = Some x.
Proof.
  rewrite list_elem_of_lookup. setoid_rewrite list_lookup_imap. split.
  - intros [j Hj]. destruct (l !! j) eqn:E; simpl in Hj; [|done]. by simplify_eq.
  - intros Hi. exists i. by rewrite Hi.
Qed.

Lemma elem_of_assigned l s id :
  id ∈ S.assigned l s <-> exists k, S.connections s !! id = Some k /\ S.getLoop k = l.
Proof.
  unfold S.assigned. rewrite list_elem_of_fmap. split.
  - intros ([i k] & -> & [Hl Hx]%list_elem_of_filter). exists k. by rewrite elem_of_numbered in Hx.
  - intros (k & Hk & Hl). exists (id, k). split; [done|]. apply list_elem_of_filter. by rewrite elem_of_numbered.
Qed.

Lemma assigned_nodup l s : NoDup (S.assigned l s).
Proof.
  unfold S.assigned. apply NoDup_fmap_fst.
  - intros i x y [_ Hx]%list_elem_of_filter [_ Hy]%list_elem_of_filter.
    rewrite elem_of_numbered in Hx, Hy. congruence.
  - apply NoDup_filter, NoDup_alt. intros i j [n x]. rewrite !list_lookup_imap.
    destruct (S.connections s !! i), (S.connections s !! j); simpl; [|done..]. intros [= <- _] [= <- _]. done.
Qed.

Lemma established_elem l id s : (l, id) ∈ S.established s <-> id ∈ S.established_on l s.
Proof.
  unfold S.established_on. rewrite list_elem_of_fmap. split.
  - intros H. exists (l, id). split; [done|]. by apply list_elem_of_filter.
  - by intros ([l' id'] & -> & [<- H]%list_elem_of_filter).
Qed.

Lemma established_known a s l id :
  S.inv0 (a, s) -> (l, id) ∈ S.established s -> exists k, S.connections s !! id = Some k /\ S.getLoop k = l.
Proof.
  intros H He. apply elem_of_assigned. rewrite <- (S.inv_established _ H l : _ = S.assigned l s).
  apply elem_of_app. left. by apply established_elem.
Qed.

(** A connection that waits to be established is one of that loop's, and no loop has
    established it. *)
Lemma pending_fresh a s l id fs :
  S.inv0 (a, s) -> S.queue l s = S.Establish id :: fs ->
  (exists k, S.connections s !! id = Some k /\ S.getLoop k = l) /\ (forall l', (l', id) ∉ S.established s).
Proof.
  intros H Hq. pose proof (S.inv_established _ H l : _ = S.assigned l s) as He. unfold S.pending_on in He.
  simpl in He. rewrite Hq, S.omap_step in He. simpl in He.
  assert (Hk : exists k, S.connections s !! id = Some k /\ S.getLoop k = l).
  { apply elem_of_assigned. rewrite <- He. set_solver. }
  split; [done|]. intros l' Hin. destruct (established_known a s l' id H Hin) as (k' & Hk' & Hl').
  destruct Hk as (k & Hk & Hl). assert (l' = l) as -> by congruence. apply established_elem in Hin.
  pose proof (assigned_nodup l s) as Hnd. rewrite <- He in Hnd. apply NoDup_app in Hnd as (_ & Hnd & _).
  apply (Hnd id Hin). constructor.
Qed.

Lemma erased_closing a s id : S.inv (a, s) -> id ∈ S.erased s -> id ∈ S.closing s.
Proof. intros [_ Hc] He. apply (Hc id : id ∈ S.closing s <-> _). by left. Qed.

(** Every connection belongs to a loop of the pool, which is not the base loop. *)
Lemma worker_loop a s ls id k :
  S.inv0 (a, s) -> glued s ls -> S.connections s !! id = Some k ->
  S.getLoop k ∈ P.loops_ (S.pool_ s) /\ S.getLoop k <> S.loop_ s.
Proof.
  intros H [Hw Hb _ _ _ _ _ _] Hk. destruct (S.inv_conn _ H id k Hk) as [_ Hl]. simpl in Hl.
  assert (Hin : S.getLoop k ∈ P.loops_ (S.pool_ s)).
  { rewrite Hl. unfold P.loop_at, P.getAllLoops. rewrite bool_decide_eq_false_2 by done.
    apply list_elem_of_In, nth_In, Nat.mod_upper_bound. by rewrite length_zero_iff_nil. }
  split; [done|]. rewrite <- Hb. pose proof (P.wf_nodup _ (S.inv_pool _ H)) as Hnd. simpl in Hnd.
  apply NoDup_cons in Hnd as [Hnd _]. congruence.
Qed.

(** A removal that waits is that of a connection that called back. *)
Lemma removing_closing a s id : S.inv (a, s) -> id ∈ removing s -> id ∈ S.closing s.
Proof.
  intros [_ Hc] Hr. apply (Hc id : id ∈ S.closing s <-> _). right. left. unfold removing in Hr.
  apply list_elem_of_omap in Hr as ([| | |] & Hf & He); simpl in He; by simplify_eq.
Qed.

(** The histories of the server say the same of every connection but [id]. *)
Record elsewhere (id : nat) (s s' : S.TcpServer) : Prop := {
  el_established l j : j <> id -> (l, j) ∈ S.established s' <-> (l, j) ∈ S.established s;
  el_erased j : j <> id -> j ∈ S.erased s' <-> j ∈ S.erased s;
  el_closing j : j <> id -> j ∈ S.closing s' <-> j ∈ S.closing s
}.

Lemma known_elsewhere s s' l id j c :
  elsewhere id s s' -> S.connections s' = S.connections s -> j <> id -> known s l j c -> known s' l j c.
Proof.
  intros [Hes Her Hcl] Hc Hj [Hk He Ht Hm Hg].
  split; [by rewrite Hc | by apply Hes | done | by rewrite Her | by rewrite Hcl].
Qed.

(** A step that concerns connection [id] of loop [l] only. *)
Lemma glued_at s ls s' l L L' id k :
  glued s ls -> steady s s' -> elsewhere id s s' -> S.connections s' = S.connections s ->
  S.connections s !! id = Some k -> S.getLoop k = l -> ls !! l = Some L ->
  NoDup (S.erased s' ++ removing s') -> (forall j, j <> id -> conns L' !! j = conns L !! j) ->
  (forall c, conns L' !! id = Some c -> known s' l id c) ->
  ((l, id) ∈ S.established s' -> id ∉ S.erased s' -> is_Some (conns L' !! id)) ->
  (id ∈ S.closing s' -> (l, id) ∈ S.established s') -> glued s' (<[l := L']> ls).
Proof.
  intros [Hw Hb Hl Hfd Ho Hh Ht Hcl] [E1 E2 E3] He Hc Hk Hkl HL Hnd Hj Hkn Hth Hco. split.
  - by rewrite E3.
  - by rewrite E2, E1.
  - intros l' Hl'. rewrite E3 in Hl'. destruct (decide (l = l')) as [<-|]; [by rewrite lookup_insert_eq|].
    rewrite lookup_insert_ne by done. by apply Hl.
  - by rewrite Hc.
  - done.
  - intros l' L2 j c HL2 Hcj. destruct (decide (l = l')) as [<-|Hne].
    + rewrite lookup_insert_eq in HL2. injection HL2 as <-. destruct (decide (j = id)) as [->|Hji]; [by apply Hkn|].
      apply (known_elsewhere s s' l id); [done..|]. apply (Hh l L); [done|]. by rewrite <- (Hj j).
    + rewrite lookup_insert_ne in HL2 by done. pose proof (Hh _ _ _ _ HL2 Hcj) as Hkj.
      destruct (decide (j = id)) as [->|Hji]; [|by apply (known_elsewhere s s' l' id)].
      exfalso. destruct (kn_conn _ _ _ _ Hkj) as (k' & Hk' & Hl'). congruence.
  - intros j k' Hk' Hes Her. rewrite Hc in Hk'. destruct (decide (j = id)) as [->|Hji].
    + assert (k' = k) as -> by congruence. rewrite Hkl in *. destruct (Hth Hes Her) as [c Hcj].
      exists L', c. by rewrite lookup_insert_eq.
    + apply (el_established _ _ _ He) in Hes; [|done]. rewrite (el_erased _ _ _ He) in Her by done.
      destruct (Ht j k' Hk' Hes Her) as (L2 & c & HL2 & Hcj). destruct (decide (l = S.getLoop k')) as [E|E].
      * exists L', c. rewrite E, lookup_insert_eq. split; [done|]. rewrite Hj by done. congruence.
      * exists L2, c. by rewrite lookup_insert_ne.
  - intros j Hjc. rewrite Hc. destruct (decide (j = id)) as [->|Hji].
    + exists k. split; [done|]. rewrite Hkl. by apply Hco.
    + apply (el_closing _ _ _ He) in Hjc; [|done]. destruct (Hcl j Hjc) as (k' & Hk' & Hes). exists k'. split; [done|].
      by apply (el_established _ _ _ He).
Qed.

(** A step of the server that leaves the histories alone and may add a connection. *)
Lemma glued_grow a s ls s' :
  S.inv0 (a, s) -> glued s ls -> steady s s' -> S.closing s' = S.closing s -> S.erased s' = S.erased s ->
  S.established s' = S.established s -> removing s' = removing s ->
  (S.connections s' = S.connections s \/
   exists k, S.connections s' = S.connections s ++ [k] /\ 0 < S.sock_fd k) -> glued s' ls.
Proof.
  intros Hinv [Hw Hb Hl Hfd Ho Hh Ht Hcl] [E1 E2 E3] Ec Ee Es Er Hcs.
  assert (Hmono : forall id k, S.connections s !! id = Some k -> S.connections s' !! id = Some k).
  { intros id k Hk. destruct Hcs as [->|(k' & -> & _)]; [done|]. by apply lookup_app_l_Some. }
  split; rewrite ?E1, ?E2, ?E3, ?Ec, ?Ee, ?Es, ?Er; try done.
  - intros id k Hk. destruct Hcs as [Hcs|(k' & Hcs & Hpos)]; rewrite Hcs in Hk; [by apply (Hfd id)|].
    apply lookup_app_Some in Hk as [Hk|[_ Hk]]; [by apply (Hfd id)|].
    apply list_lookup_singleton_Some in Hk as [_ <-]. done.
  - intros l L id c HL Hc. destruct (Hh l L id c HL Hc) as [(k & Hk & Hkl) H2 H3 H4 H5].
    split; rewrite ?Ec, ?Ee, ?Es; try done. exists k. eauto.
  - intros id k Hk Hes Her. destruct (established_known _ _ _ _ Hinv Hes) as (k' & Hk' & _).
    pose proof (Hmono _ _ Hk'). assert (k' = k) as -> by congruence. by apply Ht.
  - intros id Hid. destruct (Hcl id Hid) as (k & Hk & Hes). eauto.
Qed.

(** ** What a loop does in a step *)

Lemma on_worker_ok l e w L L' :
  loops w !! l = Some L -> lstep e L = Ok L' -> on_worker l e w = Ok (mkWorld (front w) (<[l := L']> (loops w))).
Proof. unfold on_worker. intros -> ->. done. Qed.

Lemma establish_conns L L' id fd ihw ihc ohw p :
  lstep (Establish id fd ihw ihc ohw p) L = Ok L' ->
  exists c, conns L' = <[id := c]> (conns L) /\ open_connection fd (shared L) ihw ihc ohw true false p = Ok c.
Proof. simpl. destruct (open_connection _ _ _ _ _ _ _ _) as [c|]; [|done]. intros [= <-]. by exists c. Qed.

Lemma open_told fd m ihw ihc ohw p c :
  open_connection fd m ihw ihc ohw true false p = Ok c -> told c /\ closing_ c = false /\ received c = [].
Proof. intros H%open_kept. unfold told. assert (closing_ c = false) as -> by congruence. split_and!; congruence. Qed.

Lemma on_conns n L L' id e :
  linv D n L -> lvalid D L (On id e) -> smooth e -> lstep (On id e) L = Ok L' ->
  exists c c', conns L !! id = Some c /\ conns L' = <[id := c']> (conns L) /\
    step e (set_pool (shared L) c) = Ok c' /\ in_map c' = in_map c /\ (forall I, settled I c -> settled I c').
Proof.
  intros (ls & av & Hinv) (c & Hc & Hv) Hsm Hs. destruct (on_step D D_nonneg n L ls av id c e Hinv Hc Hv Hsm) as (c' & Hc' & Hcase).
  simpl in Hs. rewrite Hc, Hc' in Hs. apply Ok_inj in Hs. subst L'. exists c, c'. split_and!; try done.
  - destruct Hcase as [[H1 H2]|[_ ->]]; [|done].
    destruct H1 as (_ & _ & Hm & _), H2 as (_ & _ & Hm' & _). simpl in Hm. congruence.
  - intros I Hse. assert (Hse' : settled I (set_pool (shared L) c)) by by apply (settled_same I c).
    destruct Hcase as [[H1 _]|[_ ->]]; [|done]. by apply (step_settled I D _ e _ _ H1 Hc').
Qed.

(** What is left of a connection the table lets go of. *)
Lemma drop_conns L L' id :
  lstep (Drop id) L = Ok L' ->
  exists c, conns L !! id = Some c /\
    (conns L' = delete id (conns L) \/
     conns L' = <[id := set_map false (close_calls c) (set_pool (shared L) c)]> (conns L)).
Proof.
  simpl. destruct (conns L !! id) as [c|]; [|done]. unfold drop_connection. intros H. exists c. split; [done|].
  destruct (refs _); [destruct (destruct_TcpConnection _); [|done]|]; simpl in H; apply Ok_inj in H; subst L';
    [by left | by right].
Qed.

(** ** The invariant *)

Section run.
Context (m : nat -> Manager) (av : nat -> list nat) (x0 : Acceptor.Acceptor * S.TcpServer).
Context (pools : forall l, pool_ok (m l) (av l) [] []) (launched : S.inv x0).
Context (handler_polite : forall k, polite D (handler k)) (mark_fits : kHighWaterMark + D < SIZE_MAX).

(** A loop that got where it is by a run of its own. *)
Definition loop_run (l : nat) (L : loop_state) : Prop :=
  exists es, lvalid_run D (mkLoop (m l) ∅) es /\ lcalm_run (mkLoop (m l) ∅) es /\ lsteps es (mkLoop (m l) ∅) = Ok L.

Record winv (w : world) : Prop := {
  wi_front : S.reachable getpeername getsockname x0 (front w);
  wi_loop l L : loops w !! l = Some L -> loop_run l L;
  wi_glue : glued (server w) (loops w)
}.

Lemma loop_run_linv l L : loop_run l L -> linv D (length (chunks_data_ (m l))) L.
Proof.
  intros (es & Hv & Hc & Hs). destruct (lsteps_ok D D_nonneg _ es _ (fresh_ok D _ _ (pools l)) Hv Hc) as (L' & Hs' & Hi). congruence.
Qed.

Lemma loop_run_step l L e :
  loop_run l L -> lvalid D L e -> lcalm L e -> exists L', lstep e L = Ok L' /\ loop_run l L'.
Proof.
  intros Hr Hv Hc. destruct (lstep_ok D D_nonneg _ L e (loop_run_linv _ _ Hr) Hv Hc) as (L' & HL' & _). exists L'. split; [done|].
  destruct Hr as (es & Hes & Hcs & Hs). exists (es ++ [e]).
  split_and!; [by eapply throughout_snoc | by eapply throughout_snoc | by eapply lsteps_snoc].
Qed.

Lemma winv_server w : winv w -> S.inv (front w).
Proof. intros H. apply (S.reachable_server_inv getpeername getsockname x0); [done | apply H]. Qed.

(** The loops after one of them took a step. *)
Lemma loops_insert w l L :
  winv w -> loop_run l L -> forall l' L', <[l := L]> (loops w) !! l' = Some L' -> loop_run l' L'.
Proof. intros H HL l' L' [[<- <-]|[_ Hl]]%lookup_insert_Some; [done|]. by apply (wi_loop _ H). Qed.

Lemma accept_ok w res flags :
  winv w -> wvalid w (WAccept res flags) -> exists w', wstep (WAccept res flags) w = Ok w' /\ winv w'.
Proof.
  intros H [Ha Hn]. pose proof (winv_server w H) as Hi.
  destruct (S.step_ok_inv getpeername getsockname (S.AcceptDone res flags) (front w) Hi Ha Hn) as (x' & Hx' & _).
  cbn [wstep]. rewrite Hx'. eexists. split; [done|]. destruct H as [Hr Hl Hg]. split; simpl.
  - by apply (S.reachable_step _ _ x0 (S.AcceptDone res flags) (front w)).
  - done.
  - destruct w as [[a s] ls], x' as [a' s']. simpl in *.
    destruct (accept_front a s a' s' res flags Hi Hx') as (H1 & H2 & H3 & H4 & H5 & H6).
    apply (glued_grow a s); try done. apply Hi.
Qed.

(** An event of a connection: what it does to the connection, and whether it calls
    the close callback. *)
Lemma calls_eq w l L id c : loops w !! l = Some L -> conns L !! id = Some c -> calls l id w = close_calls c.
Proof. unfold calls. by intros -> ->. Qed.

Lemma handle_steps w id e k L :
  winv w -> S.connections (server w) !! id = Some k -> loops w !! S.getLoop k = Some L -> lvalid D L (On id e) -> smooth e ->
  exists L' c c', loop_run (S.getLoop k) L' /\ lstep (On id e) L = Ok L' /\ conns L !! id = Some c /\
    conns L' = <[id := c']> (conns L) /\ step e (set_pool (shared L) c) = Ok c' /\
    known (server w) (S.getLoop k) id c /\ told c' /\ in_map c' = in_map c /\
    (forall I, settled I c -> settled I c') /\ (closing_ c = true -> closing_ c' = true) /\
    handle id e w =
      (if bool_decide (closing_ c' = closing_ c) then Ok (mkWorld (front w) (<[S.getLoop k := L']> (loops w)))
       else x ← S.step getpeername getsockname (S.Closed id) (front w); Ok (mkWorld x (<[S.getLoop k := L']> (loops w)))).
Proof.
  intros H Hk HL Hv Hsm. pose proof (wi_loop _ H _ _ HL) as Hrun.
  destruct (loop_run_step _ _ (On id e) Hrun Hv Hsm) as (L' & HL' & Hrun').
  destruct (on_conns _ L L' id e (loop_run_linv _ _ Hrun) Hv Hsm HL') as (c & c' & Hc & Hcs & Hst & Hm & Hse).
  pose proof (gl_here _ _ (wi_glue _ H) _ _ _ _ HL Hc) as Hkn.
  destruct (step_tells _ _ _ Hst (kn_told _ _ _ _ Hkn)) as [Ht Hcl]. simpl in Hcl.
  exists L', c, c'. split_and!; try done. unfold handle. rewrite Hk, (on_worker_ok _ _ _ _ _ HL HL').
  cbn [mbind result_bind]. rewrite (calls_eq w _ L id c), (calls_eq _ _ L' id c') by
    (done || apply lookup_insert_eq || (rewrite Hcs; apply lookup_insert_eq)).
  destruct (kn_told _ _ _ _ Hkn) as [_ E], Ht as [_ E']. rewrite E, E'. simpl.
  by destruct (closing_ c), (closing_ c').
Qed.

Lemma known_step s l id c c' :
  known s l id c -> told c' -> in_map c' = in_map c -> closing_ c' = closing_ c -> known s l id c'.
Proof. intros [H1 H2 H3 H4 H5] Ht Hm Hc. by split; rewrite ?Hm, ?Hc. Qed.

Lemma handle_ok w id e :
  winv w -> wvalid w (WOn id e) -> smooth e -> exists w', wstep (WOn id e) w = Ok w' /\ winv w'.
Proof.
  intros H (k & L & Hk & HL & Hv) Hsm.
  destruct (handle_steps w id e k L H Hk HL Hv Hsm) as (L' & c & c' & Hrun & _ & Hc & Hcs & _ & Hkn & Ht & Hm & _ & Hmono & Hh).
  pose proof (winv_server w H) as Hi. destruct w as [[a s] ls]. cbn [front loops snd fst wstep] in *. rewrite Hh. clear Hh.
  assert (Hother : forall j, j <> id -> conns L' !! j = conns L !! j) by (intros j Hj; by rewrite Hcs, lookup_insert_ne).
  assert (Hid : conns L' !! id = Some c') by (rewrite Hcs; apply lookup_insert_eq).
  case_bool_decide as Hcl.
  - eexists. split; [done|]. split; [apply H | by apply (loops_insert _ _ _ H) |]. simpl.
    apply (glued_at s ls s (S.getLoop k) L L' id k); try done; [apply H | by apply (gl_once _ _ (wi_glue _ H)) | |].
    + rewrite Hid. intros ? [= <-]. by apply (known_step s _ id c).
    + intros _. apply Hkn.
  - assert (closing_ c = false /\ closing_ c' = true) as [E E'] by (destruct (closing_ c), (closing_ c'); naive_solver).
    assert (Hn : id ∉ S.closing s) by (rewrite <- (kn_closing _ _ _ _ Hkn), E; done).
    destruct (worker_loop a s ls id k (proj1 Hi) (wi_glue _ H) Hk) as [_ Hb].
    destruct (closed_front a s id k Hi Hk Hb Hn) as (s' & Hs' & Hst & Ec & Ee & Es & Er & Eco).
    rewrite Hs'. eexists. split; [done|]. split; [|by apply (loops_insert _ _ _ H)|].
    + apply (S.reachable_step _ _ x0 (S.Closed id) (a, s)); [apply H | by eapply lookup_lt_Some | done].
    + simpl. apply (glued_at s ls s' (S.getLoop k) L L' id k); try done; [apply H | | | |].
      * split; intros; rewrite ?Ec, ?Ee, ?Es; try done. set_solver.
      * rewrite Ee, Er, app_assoc. apply NoDup_app. split; [apply (gl_once _ _ (wi_glue _ H))|].
        split; [|apply NoDup_singleton]. intros j Hj ->%list_elem_of_singleton. apply Hn.
        apply elem_of_app in Hj as [Hj|Hj]; [by apply (erased_closing a) | by apply (removing_closing a)].
      * rewrite Hid. intros ? [= <-]. destruct Hkn as [H1 H2 H3 H4 H5].
        split; rewrite ?Eco, ?Es, ?Ee, ?Ec, ?Hm, ?E'; try done. set_solver.
      * intros _. rewrite Es. apply Hkn.
Qed.

(** *** Closures *)

Lemma run_front_ok a s l f fs :
  S.inv (a, s) -> S.queue l s = f :: fs ->
  exists a' s', S.step getpeername getsockname (S.RunFunctor l) (a, s) = Ok (a', s').
Proof.
  intros H Hq. destruct (S.functor_inv a s l f fs H Hq) as ([a' s'] & Hx & _). exists a', s'. simpl. by rewrite Hq.
Qed.

(** A connection that waits to be established can be. *)
Lemma establish_steps w l id fs :
  winv w -> S.queue l (server w) = S.Establish id :: fs ->
  exists k L L' c, S.connections (server w) !! id = Some k /\ S.getLoop k = l /\ loops w !! l = Some L /\
    lstep (Establish id (S.sock_fd k) kHighWaterMark kHighWaterMarkChunk kHighWaterMark (handler k)) L = Ok L' /\
    loop_run l L' /\ conns L' = <[id := c]> (conns L) /\ told c /\ closing_ c = false /\ in_map c = true /\
    open_connection (S.sock_fd k) (shared L) kHighWaterMark kHighWaterMarkChunk kHighWaterMark true false (handler k) = Ok c.
Proof.
  intros H Hq. pose proof (winv_server w H) as Hi. destruct w as [[a s] ls]. cbn [front loops snd] in *.
  destruct (pending_fresh a s l id fs (proj1 Hi) Hq) as [(k & Hk & Hl) Hne]. pose proof (wi_glue _ H) as Hg. cbn [front loops snd] in Hg.
  destruct (worker_loop a s ls id k (proj1 Hi) Hg Hk) as [Hw _]. rewrite Hl in Hw.
  destruct (gl_loops _ _ Hg l Hw) as [L HL]. pose proof (wi_loop _ H _ _ HL) as Hrun.
  assert (Hn : conns L !! id = None).
  { destruct (conns L !! id) as [c|] eqn:Hc; [|done]. destruct (Hne l). apply (gl_here _ _ Hg l L id c HL Hc). }
  pose proof (gl_fd _ _ Hg id k Hk) as Hfd.
  assert (Hv : lvalid D L (Establish id (S.sock_fd k) kHighWaterMark kHighWaterMarkChunk kHighWaterMark (handler k)))
    by (split_and!; try done; lia).
  destruct (loop_run_step l L _ Hrun Hv I) as (L' & HL' & Hrun').
  destruct (establish_conns _ _ _ _ _ _ _ _ HL') as (c & Hcs & Ho). destruct (open_told _ _ _ _ _ _ _ Ho) as (Ht & Hcl & _).
  exists k, L, L', c. split_and!; try done. destruct (loop_run_linv _ _ Hrun) as (xs & av' & Hli).
  destruct Hv as (_ & Hv1 & Hv2 & Hv3 & Hv4).
  destruct (established_ok D D_nonneg _ _ _ _ kHighWaterMark kHighWaterMarkChunk _ true _ Hv1 (li_pool _ _ _ _ _ Hli) Hv2 Hv3 Hv4)
    as (c2 & Hc2 & Hinv). assert (c2 = c) as -> by (rewrite Ho in Hc2; by apply Ok_inj in Hc2). apply Hinv.
Qed.

Lemma establish_glued a s ls a' s' l L L' id k c fs :
  S.inv (a, s) -> glued s ls -> S.queue l s = S.Establish id :: fs ->
  S.step getpeername getsockname (S.RunFunctor l) (a, s) = Ok (a', s') ->
  S.connections s !! id = Some k -> S.getLoop k = l -> ls !! l = Some L -> conns L' = <[id := c]> (conns L) ->
  told c -> closing_ c = false -> in_map c = true -> glued s' (<[l := L']> ls).
Proof.
  intros Hi Hg Hq Hs Hk Hl HL Hcs Ht Hcl Hm.
  destruct (run_front a s l _ fs a' s' Hi Hq Hs) as (_ & Hst & Ec & Eco & Es & Ee & Er).
  destruct (pending_fresh a s l id fs (proj1 Hi) Hq) as [_ Hne].
  assert (Hnc : id ∉ S.closing s).
  { intros Hc. destruct (gl_closing _ _ Hg id Hc) as (k' & _ & He). by apply (Hne _ He). }
  assert (Hnr : id ∉ S.erased s) by (intros He; by apply Hnc, (erased_closing a)).
  rewrite app_nil_r in Ee. simpl in Er. apply (glued_at s ls s' l L L' id k); try done.
  - split; intros; rewrite ?Ec, ?Ee, ?Es; try done. set_solver.
  - rewrite Ee, <- Er. apply (gl_once _ _ Hg).
  - intros j Hj. by rewrite Hcs, lookup_insert_ne.
  - rewrite Hcs, lookup_insert_eq. intros ? [= <-].
    split; rewrite ?Eco, ?Es, ?Ee, ?Ec, ?Hm, ?Hcl; try done; [by exists k | set_solver].
  - intros _ _. by rewrite Hcs, lookup_insert_eq.
  - by rewrite Ec.
Qed.

(** A connection whose removal is at the head of the queue: it called back, it is in
    the table, and its loop has it. *)
Lemma removal_steps w l id fs :
  winv w -> S.queue l (server w) = S.RemoveInLoop id :: fs ->
  exists k L c, S.connections (server w) !! id = Some k /\ loops w !! S.getLoop k = Some L /\
    conns L !! id = Some c /\ closing_ c = true /\ in_map c = true.
Proof.
  intros H Hq. pose proof (winv_server w H) as Hi. pose proof (wi_glue _ H) as Hg. destruct w as [[a s] ls].
  cbn [front loops snd] in *.
  destruct (S.inv_functors _ (proj1 Hi) l (S.RemoveInLoop id)) as [Hl _]; [simpl; rewrite Hq; by constructor|].
  simpl in Hl. assert (Hr : id ∈ removing s) by (unfold removing; rewrite <- Hl, Hq; simpl; by constructor).
  pose proof (removing_closing a s id Hi Hr) as Hc. destruct (gl_closing _ _ Hg id Hc) as (k & Hk & He).
  assert (Hn : id ∉ S.erased s).
  { intros Hin. pose proof (gl_once _ _ Hg) as Hnd. apply NoDup_app in Hnd as (_ & Hnd & _). by apply (Hnd id Hin). }
  destruct (gl_there _ _ Hg id k Hk He Hn) as (L & c & HL & Hcc). exists k, L, c.
  destruct (gl_here _ _ Hg _ _ _ _ HL Hcc) as [_ _ _ Hm Hcl]. split_and!; try done; [by apply Hcl | by apply Hm].
Qed.

Lemma removal_glued a s ls a' s' l L L' id k fs :
  S.inv (a, s) -> glued s ls -> S.queue l s = S.RemoveInLoop id :: fs ->
  S.step getpeername getsockname (S.RunFunctor l) (a, s) = Ok (a', s') ->
  S.connections s !! id = Some k -> ls !! S.getLoop k = Some L -> lstep (Drop id) L = Ok L' ->
  glued s' (<[S.getLoop k := L']> ls).
Proof.
  intros Hi Hg Hq Hs Hk HL HL'.
  destruct (run_front a s l _ fs a' s' Hi Hq Hs) as (_ & Hst & Ec & Eco & Es & Ee & Er). rewrite app_nil_r in Es.
  destruct (drop_conns L L' id HL') as (c & Hc & Hcs).
  destruct (gl_here _ _ Hg _ _ _ _ HL Hc) as [H1 H2 H3 H4 H5].
  assert (Hin : id ∈ S.erased s') by (rewrite Ee; set_solver).
  apply (glued_at s ls s' (S.getLoop k) L L' id k); try done.
  - split; intros; rewrite ?Ec, ?Ee, ?Es; try done. set_solver.
  - rewrite Ee, <- app_assoc, <- Er. apply (gl_once _ _ Hg).
  - intros j Hj. destruct Hcs as [-> | ->]; [by rewrite lookup_delete_ne | by rewrite lookup_insert_ne].
  - intros c' Hc'. destruct Hcs as [E|E]; rewrite E in Hc'; [by rewrite lookup_delete_eq in Hc'|].
    rewrite lookup_insert_eq in Hc'. injection Hc' as <-. split; rewrite ?Eco, ?Es, ?Ec; try done.
  - intros _. rewrite Es. exact H2.
Qed.

Lemma closure_ok w l : winv w -> wcalm w (WRun l) -> exists w', wstep (WRun l) w = Ok w' /\ winv w'.
Proof.
  intros H Hv. cbn [wstep wcalm] in *. destruct (S.queue l (server w)) as [|f fs] eqn:Hq; [by exists w|].
  pose proof (winv_server w H) as Hi. pose proof (wi_glue _ H) as Hg. pose proof (wi_front _ H) as Hr.
  pose proof (establish_steps w l) as Hest. pose proof (removal_steps w l) as Hrem. pose proof (loops_insert w) as Hins.
  pose proof (wi_loop _ H) as Hlp. destruct w as [[a s] ls]. cbn [front loops snd] in *.
  destruct (run_front_ok a s l f fs Hi Hq) as (a' & s' & Hs).
  destruct (run_front a s l f fs a' s' Hi Hq Hs) as (Hf & Hst & Ec & Eco & Es & Ee & Er).
  rewrite Hs. cbn [mbind result_bind].
  assert (Hr' : S.reachable getpeername getsockname x0 (a', s')) by by apply (S.reachable_step _ _ x0 (S.RunFunctor l) (a, s)).
  destruct f as [|id|id|id]; [| | |done]; cbn [run_closure front loops snd].
  - eexists. split; [done|]. split; try done. simpl. rewrite app_nil_r in Es, Ee.
    apply (glued_grow a s); try done; [apply Hi | by left].
  - destruct (Hest id fs H Hq) as (k & L & L' & c & Hk & Hl & HL & HL' & Hrun & Hcs & Ht & Hcl & Hm & _).
    rewrite Eco, Hk. unfold establish. rewrite Hl, (on_worker_ok l _ (mkWorld _ _) L L' HL HL'). eexists. split; [done|].
    split; [done | by apply (Hins l L' H) |]. simpl. by apply (establish_glued a s ls a' s' l L L' id k c fs).
  - destruct (Hrem id fs H Hq) as (k & L & c & Hk & HL & Hc & Hcl & Hm). destruct (Hv k L c Hk HL Hc) as [H1 H2].
    destruct (loop_run_step _ L (Drop id) (Hlp _ _ HL)) as (L' & HL' & Hrun); [by exists c | intros ? ?; by simplify_eq|].
    rewrite Eco, Hk, (on_worker_ok _ _ (mkWorld _ _) L L' HL HL'). eexists. split; [done|].
    split; [done | by apply (Hins _ L' H) |]. simpl. by apply (removal_glued a s ls a' s' l L L' id k fs).
Qed.

Lemma wstep_ok w e : winv w -> wvalid w e -> wcalm w e -> exists w', wstep e w = Ok w' /\ winv w'.
Proof. destruct e; [by intros ? ? _; apply accept_ok | apply handle_ok | by intros ? _; apply closure_ok]. Qed.

Lemma wsteps_ok es : forall w,
  winv w -> wvalid_run w es -> wcalm_run w es -> exists w', wsteps es w = Ok w' /\ winv w'.
Proof.
  induction es as [|e es IH]; intros w H Hv Hc; simpl; [by exists w|]. destruct Hv as [Hv Hvs], Hc as [Hc Hcs].
  destruct (wstep_ok w e H Hv Hc) as (w1 & H1 & Hi1). rewrite H1. simpl. apply IH; [done | by apply Hvs | by apply Hcs].
Qed.

(** *** The base loop catches up *)

(** The connections that closed and are in the table have no operation in flight. *)
Definition quiet (w : world) : Prop :=
  forall l L id c, loops w !! l = Some L -> conns L !! id = Some c -> closing_ c = true -> in_map c = true ->
    reads_in_flight c = 0%nat /\ writes_in_flight c = 0%nat.

Lemma quiet_calm w : winv w -> quiet w -> wcalm w (WRun (S.loop_ (server w))).
Proof.
  intros H Hq. simpl. destruct (S.queue _ _) as [|[| |id|] fs] eqn:E; try done. intros k L c Hk HL Hc.
  destruct (removal_steps w _ id fs H E) as (k' & L' & c' & Hk' & HL' & Hc' & Hcl & Hm). simplify_eq.
  by apply (Hq (S.getLoop k) L id c).
Qed.

Lemma drain_step w f fs :
  winv w -> quiet w -> S.queue (S.loop_ (server w)) (server w) = f :: fs ->
  exists w', wstep (WRun (S.loop_ (server w))) w = Ok w' /\ winv w' /\ quiet w' /\
    S.loop_ (server w') = S.loop_ (server w) /\ S.queue (S.loop_ (server w')) (server w') = fs.
Proof.
  intros H Hq Hf. destruct (wstep_ok w (WRun _) H I (quiet_calm w H Hq)) as (w' & Hs & H'). exists w'. split; [done|].
  split; [done|]. pose proof (winv_server w H) as Hi. pose proof (wi_glue _ H) as Hg.
  rewrite (surjective_pairing (front w)) in Hi. cbn [wstep] in Hs. rewrite Hf in Hs.
  destruct (run_front_ok _ (server w) _ f fs Hi Hf) as (a' & s' & Hx).
  destruct (run_front _ (server w) _ f fs a' s' Hi Hf Hx) as (Hfo & Hst & _ & Eco & _).
  pose proof (run_queue _ _ _ _ _ _ _ Hi Hf Hx) as Hq'. rewrite <- surjective_pairing in Hx. rewrite Hx in Hs.
  cbn [mbind result_bind] in Hs. pose proof (st_loop _ _ Hst) as Hl.
  destruct f as [|id|id|id]; [| | |done]; cbn [run_closure front loops snd] in Hs.
  - apply Ok_inj in Hs. subst w'. simpl. by rewrite Hl.
  - destruct (pending_fresh _ _ _ _ _ (proj1 Hi) Hf) as [(k & Hk & Hkl) _].
    by destruct (worker_loop _ _ _ _ _ (proj1 Hi) Hg Hk).
  - destruct (S.connections s' !! id) as [k|]; [|done]. unfold on_worker in Hs. cbn [loops] in Hs.
    destruct (loops w !! S.getLoop k) as [L|] eqn:HL; [|done].
    destruct (lstep (Drop id) L) as [L'|] eqn:HL'; [|done]. apply Ok_inj in Hs. subst w'. simpl. rewrite Hl.
    split; [|done]. destruct (drop_conns L L' id HL') as (c & Hc & Hcs).
    intros l2 L2 j cj HL2 Hcj. cbn [loops] in HL2.
    apply lookup_insert_Some in HL2 as [[<- <-]|[_ HL2]]; [|by apply (Hq l2 L2 j cj)].
    destruct Hcs as [E|E]; rewrite E in Hcj.
    + apply lookup_delete_Some in Hcj as [_ Hcj]. by apply (Hq (S.getLoop k) L j cj).
    + apply lookup_insert_Some in Hcj as [[<- <-]|[_ Hcj]]; [done|]. by apply (Hq (S.getLoop k) L j cj).
Qed.

Lemma drain n : forall w,
  winv w -> quiet w -> length (S.queue (S.loop_ (server w)) (server w)) = n ->
  exists w', wsteps (replicate n (WRun (S.loop_ (server w)))) w = Ok w' /\ winv w' /\
    S.queue (S.loop_ (server w')) (server w') = [].
Proof.
  induction n as [|n IH]; intros w H Hq Hn.
  - exists w. split; [done|]. split; [done|]. by apply length_zero_iff_nil.
  - destruct (S.queue _ _) as [|f fs] eqn:Hf; [done|]. injection Hn as Hn.
    destruct (drain_step w f fs H Hq Hf) as (w1 & Hs & H1 & Hq1 & Hl & Hf1).
    destruct (IH w1 H1 Hq1) as (w' & Hs' & Hw' & He); [by rewrite Hf1|]. exists w'. split; [|done].
    cbn [replicate wsteps]. rewrite Hs. cbn [mbind result_bind]. by rewrite <- Hl.
Qed.

(** ** What the connections received *)

(** The bytes the kernel delivered to connection [id] of the server. *)
Definition delivered_on (id : nat) (e : wevent) : list byte :=
  match e with WOn j e => if decide (j = id) then delivered e else [] | _ => [] end.
Definition delivered_in (id : nat) (es : list wevent) : list byte := concat (map (delivered_on id) es).

Section protocol.
Context (I : list byte -> list byte -> Prop) (handler_ok : forall k, client_ok I (handler k) [] []).

(** [g id] is what was delivered to connection [id]. *)
Record streams (g : nat -> list byte) (w : world) : Prop := {
  sm_conn l L id c : loops w !! l = Some L -> conns L !! id = Some c -> received c = g id /\ settled I c;
  sm_none id : (forall l, (l, id) ∉ S.established (server w)) -> g id = []
}.

(** Connection [id] of loop [l] changes, the others stay. *)
Lemma streams_at g g' w x l L L' id :
  streams g w -> loops w !! l = Some L -> (forall j, j <> id -> conns L' !! j = conns L !! j) ->
  (forall j, j <> id -> g' j = g j) -> (forall c, conns L' !! id = Some c -> received c = g' id /\ settled I c) ->
  (forall l' L2, l' <> l -> loops w !! l' = Some L2 -> conns L2 !! id = None) ->
  (forall l' j, (l', j) ∈ S.established (server w) -> (l', j) ∈ S.established x.2) ->
  (exists l', (l', id) ∈ S.established x.2) -> streams g' (mkWorld x (<[l := L']> (loops w))).
Proof.
  intros [Hs Hn] HL Hc Hg Hid Ho He [le Hee]. split; simpl.
  - intros l' L2 j c HL2 Hcj. destruct (decide (l = l')) as [<-|Hne].
    + rewrite lookup_insert_eq in HL2. injection HL2 as <-. destruct (decide (j = id)) as [->|Hj]; [by apply Hid|].
      rewrite Hc in Hcj by done. rewrite Hg by done. by apply (Hs l L).
    + rewrite lookup_insert_ne in HL2 by done. destruct (decide (j = id)) as [->|Hj].
      * rewrite (Ho l' L2) in Hcj; [done | done | done].
      * rewrite Hg by done. by apply (Hs l' L2).
  - intros j Hj. destruct (decide (j = id)) as [->|Hji]; [by destruct (Hj le)|]. rewrite Hg by done.
    apply Hn. intros l' Hl'. by apply (Hj l'), He.
Qed.

(** A connection is on the loop the server assigned it to only. *)
Lemma one_loop w id k l' L2 :
  winv w -> S.connections (server w) !! id = Some k -> l' <> S.getLoop k -> loops w !! l' = Some L2 ->
  conns L2 !! id = None.
Proof.
  intros H Hk Hne HL2. destruct (conns L2 !! id) as [c|] eqn:Hc; [|done].
  destruct (kn_conn _ _ _ _ (gl_here _ _ (wi_glue _ H) _ _ _ _ HL2 Hc)) as (k' & Hk' & Hl'). congruence.
Qed.

Lemma streams_front g w x :
  streams g w -> S.established x.2 = S.established (server w) -> streams g (mkWorld x (loops w)).
Proof. intros [H1 H2] He. split; [done|]. simpl. by rewrite He. Qed.

Lemma streams_ext g g' w : (forall id, g' id = g id) -> streams g w -> streams g' w.
Proof. intros E [H1 H2]. split; intros *; rewrite E; eauto. Qed.

Lemma handle_streams g w id e w' :
  winv w -> wvalid w (WOn id e) -> smooth e -> wstep (WOn id e) w = Ok w' -> streams g w ->
  streams (fun j => g j ++ delivered_on j (WOn id e)) w'.
Proof.
  intros H (k & L & Hk & HL & Hv) Hsm Hs Hg.
  destruct (handle_steps w id e k L H Hk HL Hv Hsm)
    as (L' & c & c' & Hrun & _ & Hc & Hcs & Hst & Hkn & _ & _ & Hse & _ & Hh).
  cbn [wstep] in Hs. rewrite Hh in Hs. clear Hh.
  assert (Hx : exists x, w' = mkWorld x (<[S.getLoop k := L']> (loops w)) /\ S.established x.2 = S.established (server w)).
  { case_bool_decide; [apply Ok_inj in Hs; subst w'; by eexists|]. destruct w as [[a s] ls]. cbn [front loops snd] in *.
    cbn [S.step] in Hs. destruct (S.close_connection id s) as [s'|] eqn:Es; [|done]. apply Ok_inj in Hs. subst w'.
    apply close_established in Es. by eexists. }
  destruct Hx as (x & -> & He). destruct (step_io _ _ _ Hst) as [_ Hre].
  apply (streams_at g _ w x (S.getLoop k) L L' id Hg HL).
  - intros j Hj. by rewrite Hcs, lookup_insert_ne.
  - intros j Hj. simpl. by rewrite decide_False, app_nil_r.
  - rewrite Hcs, lookup_insert_eq. intros ? [= <-]. simpl. rewrite decide_True, Hre by done.
    destruct (sm_conn _ _ Hg _ _ _ _ HL Hc) as [<- Hsc]. split; [done|]. by apply Hse.
  - intros l' L2 Hne HL2. by apply (one_loop w id k l').
  - by rewrite He.
  - exists (S.getLoop k). rewrite He. apply Hkn.
Qed.

Lemma run_streams g w l w' :
  winv w -> wstep (WRun l) w = Ok w' -> streams g w -> streams g w'.
Proof.
  intros H Hs Hg. cbn [wstep] in Hs.
  destruct (S.queue l (server w)) as [|f fs] eqn:Hq; [by apply Ok_inj in Hs; subst|].
  pose proof (winv_server w H) as Hi. rewrite (surjective_pairing (front w)) in Hi.
  destruct (run_front_ok _ (server w) l f fs Hi Hq) as (a' & s' & Hx).
  destruct (run_front _ (server w) l f fs a' s' Hi Hq Hx) as (Hf & _ & _ & Eco & Es & _ & _).
  rewrite <- surjective_pairing in Hx. rewrite Hx in Hs. cbn [mbind result_bind] in Hs.
  destruct f as [|id|id|id]; [| | |done]; cbn [run_closure front loops snd] in Hs.
  - apply Ok_inj in Hs. subst w'. rewrite app_nil_r in Es. by apply streams_front.
  - destruct (establish_steps w l id fs H Hq) as (k & L & L' & c & Hk & Hl & HL & HL' & _ & Hcs & _ & _ & _ & Ho).
    rewrite Eco, Hk in Hs. unfold establish in Hs. rewrite Hl, (on_worker_ok l _ (mkWorld _ _) L L' HL HL') in Hs.
    apply Ok_inj in Hs. subst w'. destruct (open_told _ _ _ _ _ _ _ Ho) as (_ & _ & Hre).
    destruct (pending_fresh _ _ _ _ _ (proj1 Hi) Hq) as [_ Hne].
    apply (streams_at g g w (a', s') l L L' id Hg HL); simpl; try done.
    + intros j Hj. by rewrite Hcs, lookup_insert_ne.
    + rewrite Hcs, lookup_insert_eq. intros ? [= <-]. rewrite Hre. split; [|by eapply open_settled].
      symmetry. by apply (sm_none _ _ Hg).
    + intros l' L2 Hll HL2. apply (one_loop w id k l'); [done | done | congruence | done].
    + intros l' j. rewrite Es. set_solver.
    + exists l. rewrite Es. set_solver.
  - destruct (S.connections s' !! id) as [k|] eqn:Hk; [|done]. rewrite Eco in Hk. unfold on_worker in Hs. cbn [loops] in Hs.
    destruct (loops w !! S.getLoop k) as [L|] eqn:HL; [|done].
    destruct (lstep (Drop id) L) as [L'|] eqn:HL'; [|done]. apply Ok_inj in Hs. subst w'.
    destruct (drop_conns L L' id HL') as (c & Hc & Hcs). rewrite app_nil_r in Es.
    apply (streams_at g g w (a', s') (S.getLoop k) L L' id Hg HL); simpl; try done.
    + intros j Hj. destruct Hcs as [-> | ->]; [by rewrite lookup_delete_ne | by rewrite lookup_insert_ne].
    + intros c' Hc'. destruct Hcs as [E|E]; rewrite E in Hc'; [by rewrite lookup_delete_eq in Hc'|].
      rewrite lookup_insert_eq in Hc'. injection Hc' as <-. destruct (sm_conn _ _ Hg _ _ _ _ HL Hc) as [? ?].
      split; [done|]. by apply (settled_same I c).
    + intros l' L2 Hll HL2. by apply (one_loop w id k l').
    + by rewrite Es.
    + exists (S.getLoop k). rewrite Es. apply (gl_here _ _ (wi_glue _ H) _ _ _ _ HL Hc).
Qed.

Lemma wstep_streams g w e w' :
  winv w -> wvalid w e -> wcalm w e -> wstep e w = Ok w' -> streams g w -> streams (fun id => g id ++ delivered_on id e) w'.
Proof.
  intros H Hv Hc Hs Hg. destruct e as [res flags|id e|l]; [|by apply (handle_streams g w)|].
  - apply (streams_ext g); [intros; apply app_nil_r|]. pose proof (winv_server w H) as Hi. cbn [wstep] in Hs.
    destruct (S.step _ _ _ _) as [[a' s']|] eqn:E; [|done]. apply Ok_inj in Hs. subst w'.
    destruct w as [[a s] ls]. destruct (accept_front a s a' s' res flags Hi E) as (_ & _ & _ & He & _).
    by apply (streams_front g (mkWorld (a, s) ls)).
  - apply (streams_ext g); [intros; apply app_nil_r|]. by apply (run_streams g w l).
Qed.

Lemma wsteps_streams es : forall g w w',
  winv w -> wvalid_run w es -> wcalm_run w es -> wsteps es w = Ok w' -> streams g w -> streams (fun id => g id ++ delivered_in id es) w'.
Proof.
  induction es as [|e es IH]; intros g w w' H Hv Hc Hs Hg; simpl in Hs.
  - apply Ok_inj in Hs. subst. apply (streams_ext g); [|done]. intros. apply app_nil_r.
  - destruct Hv as [Hv Hvs], Hc as [Hc Hcs]. destruct (wstep_ok w e H Hv Hc) as (w1 & H1 & Hi1).
    rewrite H1 in Hs. cbn [mbind result_bind] in Hs.
    pose proof (IH _ w1 w' Hi1 (Hvs _ H1) (Hcs _ H1) Hs (wstep_streams g w e w1 H Hv Hc H1 Hg)) as Hw.
    eapply streams_ext, Hw. intros id. unfold delivered_in. simpl. by rewrite app_assoc.
Qed.

(** What a connection of the service says: what was delivered to it is what its
    coroutine consumed followed by its input buffer, what was given to [send] is on
    the wire or queued, and the two keep the protocol. *)
Lemma service_streams g w l L id c :
  winv w -> streams g w -> loops w !! l = Some L -> conns L !! id = Some c ->
  exists unread queued, I (consumed c) (appended c) /\ g id = consumed c ++ unread /\ appended c = wire c ++ queued /\
    zlen unread = InputChainBuffer.getTotalLen (R.input_buffer_ (read_context_ c)) /\ zlen queued = buffered c /\
    (forall k, frame_ c = AtRecv k -> unread = []) /\
    (closing_ c = false -> writes_in_flight c = 0%nat -> queued = []).
Proof.
  intros H Hg HL Hc. destruct (sm_conn _ _ Hg _ _ _ _ HL Hc) as [<- [[HI _] He]].
  destruct (loop_run_linv _ _ (wi_loop _ H _ _ HL)) as (ls & av' & Hli).
  destruct (lookup_chunks _ _ _ _ _ _ _ Hli Hc) as (xs & _ & [(s & p & Hw) Hr Hst _] & _).
  destruct (write_inv_stream D c s p Hw) as (q & Hq & Hz & Hqe). pose proof (InputChainBuffer.rep_total _ _ _ Hr) as Ht.
  exists (InputChainBuffer.bytes (shared L) xs), q. split_and!; try done.
  intros k Hk. specialize (He k Hk). apply Z.eqb_eq in He. apply length_zero_iff_nil.
  unfold InputChainBuffer.getTotalLen in He. unfold zlen in Ht. lia.
Qed.

End protocol.
End run.

(** ** The start *)

(** The loops of the pool with their buffer pools, before any connection. *)
Definition start_world (m : nat -> Manager) (x : Acceptor.Acceptor * S.TcpServer) : world :=
  mkWorld x (list_to_map ((fun l => (l, mkLoop (m l) ∅)) <$> P.loops_ (S.pool_ x.2))).

Lemma start_loops m x l L : loops (start_world m x) !! l = Some L -> L = mkLoop (m l) ∅.
Proof. intros (l' & [= -> ->] & _)%elem_of_list_to_map_2%list_elem_of_fmap. done. Qed.

Lemma launch_fresh base bind_addr name fd n here cb x :
  S.launch base bind_addr name fd n here cb = Ok x -> 0 < n ->
  P.loops_ (S.pool_ x.2) <> [] /\ P.base_loop_ (S.pool_ x.2) = S.loop_ x.2 /\ S.connections x.2 = [] /\
  S.erased x.2 = [] /\ S.established x.2 = [] /\ S.closing x.2 = [] /\ removing x.2 = [].
Proof.
  intros Hx Hn. unfold S.launch, Acceptor.new_Acceptor, Acceptor.new_AcceptContext in Hx.
  destruct (fd <? 0); [done|]. destruct (negb (fd =? 0)); [|done]. simpl in Hx.
  destruct (P.start_wf cb base name n _ eq_refl) as (Hw & Hba & Hnt & _). set (p := P.start cb _) in *.
  assert (Hl : P.loops_ p <> []).
  { intros E. pose proof (P.wf_count _ Hw) as Hc. rewrite E, Hnt in Hc. change (zlen (@nil nat)) with 0 in Hc. lia. }
  destruct here; simpl in Hx; injection Hx as <-; split_and!; try done.
  unfold removing, S.queue. simpl. rewrite lookup_insert_eq. unfold S.queue. simpl. by rewrite lookup_empty.
Qed.

Section properties.
Context (m : nat -> Manager) (av : nat -> list nat).
Context (base : nat) (bind_addr : InetAddress.InetAddress) (name : text) (fd n : Z) (here cb : bool)
        (x0 : Acceptor.Acceptor * S.TcpServer).
Hypothesis pools : forall l, pool_ok (m l) (av l) [] [].
Hypothesis Haddr : InetAddress.wf bind_addr.
Hypothesis Hlaunch : S.launch base bind_addr name fd n here cb = Ok x0.
Hypothesis threads : 0 < n.

Lemma start_winv : winv m x0 (start_world m x0).
Proof.
  destruct (launch_fresh _ _ _ _ _ _ _ _ Hlaunch threads) as (Hl & Hb & Hc & He & Hes & Hcl & Hr). split.
  - apply S.reachable_refl.
  - intros l L ->%start_loops. by exists [].
  - split; cbn [front start_world loops snd]; rewrite ?Hc, ?He, ?Hes, ?Hcl, ?Hr; try done.
    + intros l Hin. destruct (list_to_map _ !! l) as [L|] eqn:E; [done|].
      apply not_elem_of_list_to_map in E. destruct E. rewrite <- list_fmap_compose. by apply list_elem_of_fmap; exists l.
    + by constructor.
    + intros l L id c ->%start_loops. done.
    + intros id Hid. by apply not_elem_of_nil in Hid.
Qed.

Hypothesis handler_polite : forall k, polite D (handler k).
Hypothesis mark_fits : kHighWaterMark + D < SIZE_MAX.

Lemma run_winv es w :
  wvalid_run (start_world m x0) es -> wcalm_run (start_world m x0) es -> wsteps es (start_world m x0) = Ok w ->
  S.inv (front w) /\ winv m x0 w.
Proof.
  intros Hv Hc Hs. pose proof (S.launch_inv _ _ _ _ _ _ _ _ Haddr Hlaunch) as Hi.
  destruct (wsteps_ok m av x0 pools Hi handler_polite mark_fits es _ start_winv Hv Hc) as (w' & Hs' & Hw).
  rewrite Hs in Hs'. apply Ok_inj in Hs'. subst w'. split; [|done]. by apply (winv_server m x0 Hi).
Qed.

Lemma listed_not_erased w id k :
  S.inv (front w) -> S.connections (server w) !! id = Some k ->
  S.connection_map_ (server w) !! S.conn_name k = Some id <-> id ∉ S.erased (server w).
Proof. intros [Hi _] Hk. rewrite (S.inv_map _ Hi). split; [by intros (? & _ & _ & ?) | by exists k]. Qed.

(** The base loop has run its closures: the connections that are not erased are the
    open ones. *)
Lemma kept_is_open w id k :
  S.inv (front w) -> glued (server w) (loops w) -> S.queue (S.loop_ (server w)) (server w) = [] ->
  S.connections (server w) !! id = Some k -> (S.getLoop k, id) ∈ S.established (server w) ->
  id ∉ S.erased (server w) <->
  exists L c, loops w !! S.getLoop k = Some L /\ conns L !! id = Some c /\ closing_ c = false.
Proof.
  intros [Hi Hcl] Hg Hq Hk He. assert (Hce : id ∈ S.closing (server w) <-> id ∈ S.erased (server w)).
  { rewrite (Hcl id : _ <-> _), Hq, elem_of_nil. tauto. }
  split.
  - intros Hn. destruct (gl_there _ _ Hg id k Hk He Hn) as (L & c & HL & Hc). exists L, c. split_and!; try done.
    apply not_true_iff_false. rewrite (kn_closing _ _ _ _ (gl_here _ _ Hg _ L id c HL Hc)). by rewrite Hce.
  - intros (L & c & HL & Hc & Hm). rewrite <- Hce, <- (kn_closing _ _ _ _ (gl_here _ _ Hg _ L id c HL Hc)), Hm. done.
Qed.


(** C5. The whole refines its parts: after a calm run the server is in a state that the
    server alone reaches, and every loop is in one that its connections alone reach
    from the loop's fresh pool by steps that are valid and calm there.  That
    descriptors are not zero, that no connection is established twice and that only a
    connection that closed and is still in the table is removed is proved; assumed are
    polite coroutines, that the kernel completes what is in flight and not with a
    transient write error, and that the base loop gets to a removal when nothing of
    the connection is in flight, which the code does not ensure. *)
Theorem server_system_refines es w :
  wvalid_run (start_world m x0) es -> wcalm_run (start_world m x0) es -> wsteps es (start_world m x0) = Ok w ->
  S.reachable getpeername getsockname x0 (front w) /\
  forall l L, loops w !! l = Some L ->
    exists les, lvalid_run D (mkLoop (m l) ∅) les /\ lcalm_run (mkLoop (m l) ∅) les /\ lsteps les (mkLoop (m l) ∅) = Ok L.
Proof. intros Hv Hc Hs. destruct (run_winv es w Hv Hc Hs) as [_ [Hr Hl _]]. by split. Qed.

(** C3. The table and the loops agree in a calm run (polite coroutines, no transient write
    errors, removals with nothing in flight): an established connection is in the
    server's table just when its loop has it and holds the table's reference; once the
    base loop has run its closures, just when it has not closed.  Every connection
    has called the close callback once if it closed and never otherwise, and no
    connection is erased twice. *)
Theorem server_table_matches es w id k :
  wvalid_run (start_world m x0) es -> wcalm_run (start_world m x0) es -> wsteps es (start_world m x0) = Ok w ->
  S.connections (server w) !! id = Some k -> (S.getLoop k, id) ∈ S.established (server w) ->
  let listed := S.connection_map_ (server w) !! S.conn_name k = Some id in
  let on_loop P := exists L c, loops w !! S.getLoop k = Some L /\ conns L !! id = Some c /\ P c in
  (listed <-> on_loop (fun c => in_map c = true)) /\
  (S.queue (S.loop_ (server w)) (server w) = [] -> listed <-> on_loop (fun c => closing_ c = false)) /\
  (forall L c, loops w !! S.getLoop k = Some L -> conns L !! id = Some c ->
     close_calls c = if closing_ c then 1%nat else 0%nat) /\
  NoDup (S.erased (server w)).
Proof.
  intros Hv Hcm Hs Hk He. destruct (run_winv es w Hv Hcm Hs) as [Hi [_ _ Hg]]. simpl.
  rewrite (listed_not_erased w id k Hi Hk).
  pose proof (fun L c HL Hc => gl_here _ _ Hg (S.getLoop k) L id c HL Hc) as Hkn. split_and!.
  - split.
    + intros Hn. destruct (gl_there _ _ Hg id k Hk He Hn) as (L & c & HL & Hc). exists L, c. split_and!; try done.
      by apply (Hkn L c HL Hc).
    + intros (L & c & HL & Hc & Hm). by apply (Hkn L c HL Hc).
  - intros Hq. by apply kept_is_open.
  - intros L c HL Hc. apply (kn_told _ _ _ _ (Hkn L c HL Hc)).
  - pose proof (gl_once _ _ Hg) as Hnd. by apply NoDup_app in Hnd as [? _].
Qed.

(** C4. Closed connections leave: at any point of a calm run (polite coroutines, no transient
    write errors, removals with nothing in flight) at which no connection that closed
    and is still listed has an operation in flight, the base loop can run all the
    closures of its queue; it comes to the end of it, and then the table lists just the
    established connections that are open, and those that wait to be established. *)
Theorem server_removes_the_closed es w :
  wvalid_run (start_world m x0) es -> wcalm_run (start_world m x0) es -> wsteps es (start_world m x0) = Ok w ->
  quiet w ->
  let base := S.loop_ (server w) in
  exists w', wsteps (replicate (length (S.queue base (server w))) (WRun base)) w = Ok w' /\
    forall id k, S.connections (server w') !! id = Some k ->
      S.connection_map_ (server w') !! S.conn_name k = Some id <->
      (S.getLoop k, id) ∉ S.established (server w') \/
      exists L c, loops w' !! S.getLoop k = Some L /\ conns L !! id = Some c /\ closing_ c = false.
Proof.
  intros Hv Hcm Hs Hq. destruct (run_winv es w Hv Hcm Hs) as [_ Hw]. pose proof (S.launch_inv _ _ _ _ _ _ _ _ Haddr Hlaunch) as Hi0.
  destruct (drain m av x0 pools Hi0 handler_polite mark_fits _ w Hw Hq eq_refl) as (w' & Hs' & Hw' & He).
  exists w'. split; [done|]. intros id k Hk. pose proof (winv_server m x0 Hi0 w' Hw') as Hi. pose proof (wi_glue _ _ _ Hw') as Hg.
  rewrite (listed_not_erased w' id k Hi Hk). destruct (decide ((S.getLoop k, id) ∈ S.established (server w'))) as [Hes|Hes].
  - rewrite (kept_is_open w' id k Hi Hg He Hk Hes). split; [by right | by intros [?|?]].
  - split; [by left|]. intros _ Her. rewrite (surjective_pairing (front w')) in Hi.
    destruct (gl_closing _ _ Hg id (erased_closing _ _ _ Hi Her)) as (k' & Hk' & Hes'). congruence.
Qed.

End properties.
End system.

(** ** The echo service *)

Section echo.
Context {A : Allocator} {B : BufRing} {F : WriteErrors} (getpeername getsockname : Z -> InetAddress.InetAddress).

(** The [coroutine_handler_] of an echo service; the coroutine of the README and of the
    integration test does not look at the result of [send], the [checked] one does. *)
Definition echo_handler (checked : bool) (rounds : nat) (k : S.Connection) : prog := echo_server checked rounds.


End echo.
(** ** A concrete run *)

#[local] Instance demo_no_errors : WriteErrors := false.

(** Two clients of the echo service of the README with two worker loops: both are accepted and
    established, data arrives for both and goes back, the first one closes and
    the base loop removes it. *)
Definition demo_pool : nat -> @Manager list_ring := fun _ => demo_m.
Definition demo_events : list wevent :=
  [WAccept 7 2; WAccept 8 2; WRun 1; WRun 2;
   WOn 0 (ReadDone 3 (flags_of 0 true) [x61; x62; x63]); WOn 1 (ReadDone 2 (flags_of 0 true) [x78; x79]);
   WOn 0 (WriteDone 3); WOn 1 (WriteDone 2); WOn 0 (ReadDone 0 0 []); WRun 0].

Definition demo_x0 : Acceptor.Acceptor * S.TcpServer := S.demo_server 2 [].
Definition demo_w0 : @world list_ring := start_world demo_pool demo_x0.
Definition demo_step (e : wevent) (w : @world list_ring) : result world :=
  wstep (A := first_fit) S.demo_peer S.demo_peer (echo_handler false 3) e w.
Definition demo_w (es : list wevent) : @world list_ring :=
  from_ok demo_w0 (wsteps (A := first_fit) S.demo_peer S.demo_peer (echo_handler false 3) es demo_w0).

Lemma demo_x0_launched : S.launch (A := first_fit) 0 S.demo_addr S.demo_name 3 2 true false = Ok demo_x0.
Proof. vm_compute. reflexivity. Qed.

Lemma demo_pools l : pool_ok (demo_pool l) [0; 1]%nat [] [].
Proof. exact demo_m_ok. Qed.

(** The conditions of a concrete run, event by event. *)
Lemma run_cons P w e es :
  P w e -> is_ok (demo_step e w) = true ->
  throughout (wstep (A := first_fit) S.demo_peer S.demo_peer (echo_handler false 3)) P (from_ok w (demo_step e w)) es ->
  throughout (wstep (A := first_fit) S.demo_peer S.demo_peer (echo_handler false 3)) P w (e :: es).
Proof. apply throughout_cons. Qed.

(** Side conditions of a concrete event. *)
Lemma on_valid id e (w : @world list_ring) k L c :
  S.connections (front w).2 !! id = Some k -> loops w !! S.getLoop k = Some L -> conns L !! id = Some c ->
  valid (set_pool (shared L) c) e -> wvalid (2 ^ 31) w (WOn id e).
Proof. intros Hk HL Hc Hv. exists k, L. split_and!; [done..|]. by exists c. Qed.

Lemma removal_calm l id fs (w : @world list_ring) k L c :
  S.queue l (front w).2 = S.RemoveInLoop id :: fs ->
  S.connections (front w).2 !! id = Some k -> loops w !! S.getLoop k = Some L -> conns L !! id = Some c ->
  reads_in_flight c = 0%nat -> writes_in_flight c = 0%nat -> wcalm w (WRun l).
Proof. intros Hq Hk HL Hc Hr Hw. simpl. rewrite Hq. intros k' L' c' Hk' HL' Hc'. by simplify_eq. Qed.

Ltac run_data b bs :=
  eapply on_valid; [vm_compute; reflexivity | vm_compute; reflexivity | apply conn_at_eq; vm_compute; reflexivity|];
  split; [vm_compute; discriminate|]; split; [reflexivity|];
  split; [vm_compute; discriminate|]; split; [reflexivity|]; exists b, bs; split; vm_compute; reflexivity.
Ltac run_end :=
  eapply on_valid; [vm_compute; reflexivity | vm_compute; reflexivity | apply conn_at_eq; vm_compute; reflexivity|];
  split; [vm_compute; discriminate | reflexivity].
Ltac run_sent :=
  let bs := fresh "bs" in let H := fresh "H" in
  eapply on_valid; [vm_compute; reflexivity | vm_compute; reflexivity | apply conn_at_eq; vm_compute; reflexivity|];
  split; [vm_compute; discriminate|]; right; split; [lia|];
  intros bs H; vm_compute in H; injection H as <-; vm_compute; discriminate.

Lemma demo_events_valid : wvalid_run (A := first_fit) S.demo_peer S.demo_peer (echo_handler false 3) (2 ^ 31) demo_w0 demo_events.
Proof.
  do 2 (apply run_cons; [split; [vm_compute; discriminate | vm_compute; reflexivity] | vm_compute; reflexivity|]).
  do 2 (apply run_cons; [exact I | vm_compute; reflexivity|]).
  apply run_cons; [run_data 0 [1] | vm_compute; reflexivity|].
  apply run_cons; [run_data 0 [1] | vm_compute; reflexivity|].
  do 2 (apply run_cons; [run_sent | vm_compute; reflexivity|]).
  apply run_cons; [run_end | vm_compute; reflexivity|].
  apply run_cons; [exact I | vm_compute; reflexivity | exact I].
Qed.

Lemma demo_events_calm : wcalm_run (A := first_fit) S.demo_peer S.demo_peer (echo_handler false 3) demo_w0 demo_events.
Proof.
  do 6 (apply run_cons; [exact I | vm_compute; reflexivity|]).
  do 2 (apply run_cons; [left; lia | vm_compute; reflexivity|]).
  apply run_cons; [exact I | vm_compute; reflexivity|].
  apply run_cons; [|vm_compute; reflexivity | exact I].
  eapply removal_calm; [vm_compute; reflexivity | vm_compute; reflexivity | vm_compute; reflexivity
    | apply conn_at_eq; vm_compute; reflexivity | vm_compute; reflexivity | vm_compute; reflexivity].
Qed.

Lemma demo_events_run :
  wsteps (A := first_fit) S.demo_peer S.demo_peer (echo_handler false 3) demo_events demo_w0 = Ok (demo_w demo_events).
Proof. apply from_ok_eq. vm_compute. reflexivity. Qed.

Lemma demo_polite : forall k, polite (2 ^ 31) (echo_handler false 3 k).
Proof. intros k. by apply echo_server_polite. Qed.


Lemma server_system_refines_witness :
  S.reachable S.demo_peer S.demo_peer demo_x0 (front (demo_w demo_events)).
Proof.
  exact (proj1 (server_system_refines (A := first_fit) S.demo_peer S.demo_peer (echo_handler false 3) (2 ^ 31) ltac:(lia) demo_pool
    (fun _ => [0; 1]%nat) 0 S.demo_addr S.demo_name 3 2 true false demo_x0 demo_pools S.demo_addr_wf demo_x0_launched
    ltac:(lia) demo_polite ltac:(reflexivity) demo_events _ demo_events_valid demo_events_calm demo_events_run)).
Defined.

(** The second connection, still open. *)
Definition demo_k : S.Connection := S.mkConnection (S.conn_name_of demo_x0.2 2) 2 8 S.demo_addr S.demo_addr.
Definition demo_loop (l : nat) : @loop_state list_ring := default demo_L0 (loops (demo_w demo_events) !! l).

Lemma server_table_matches_witness :
  S.connection_map_ (front (demo_w demo_events)).2 !! S.conn_name demo_k = Some 1%nat.
Proof.
  destruct (server_table_matches (A := first_fit) S.demo_peer S.demo_peer (echo_handler false 3) (2 ^ 31) ltac:(lia) demo_pool
    (fun _ => [0; 1]%nat) 0 S.demo_addr S.demo_name 3 2 true false demo_x0 demo_pools S.demo_addr_wf demo_x0_launched
    ltac:(lia) demo_polite ltac:(reflexivity) demo_events (demo_w demo_events) 1 demo_k demo_events_valid demo_events_calm demo_events_run)
    as (_ & Hq & _).
  - vm_compute. reflexivity.
  - apply (list_elem_of_lookup_2 _ 1). vm_compute. reflexivity.
  - apply Hq; [vm_compute; reflexivity|]. exists (demo_loop 2), (conn_at 1 (demo_loop 2)).
    split; [vm_compute; reflexivity|]. split; [apply conn_at_eq|]; vm_compute; reflexivity.
Defined.


(** Just before the base loop runs: the first connection has closed. *)
Definition demo_closed : list wevent := take 9 demo_events.

Lemma quiet_bool (w : @world list_ring) :
  bool_decide (map_Forall (fun _ L => map_Forall (fun _ c => closing_ c = true -> in_map c = true ->
    reads_in_flight c = 0%nat /\ writes_in_flight c = 0%nat) (conns L)) (loops w)) = true -> quiet w.
Proof. intros H%bool_decide_eq_true_1 l L id c HL Hc. exact (H l L HL id c Hc). Qed.

Lemma server_removes_the_closed_witness :
  exists w', wsteps (A := first_fit) S.demo_peer S.demo_peer (echo_handler false 3) [WRun 0] (demo_w demo_closed) = Ok w'.
Proof.
  destruct (server_removes_the_closed (A := first_fit) S.demo_peer S.demo_peer (echo_handler false 3) (2 ^ 31) ltac:(lia) demo_pool
    (fun _ => [0; 1]%nat) 0 S.demo_addr S.demo_name 3 2 true false demo_x0 demo_pools S.demo_addr_wf demo_x0_launched
    ltac:(lia) demo_polite ltac:(reflexivity) demo_closed (demo_w demo_closed)) as (w' & Hw' & _).
  - apply (throughout_app _ _ _ [WRun 0]). exact demo_events_valid.
  - apply (throughout_app _ _ _ [WRun 0]). exact demo_events_calm.
  - apply from_ok_eq. vm_compute. reflexivity.
  - apply quiet_bool. vm_compute. reflexivity.
  - exists w'. replace [WRun 0] with (replicate (length (S.queue (S.loop_ (front (demo_w demo_closed)).2)
      (front (demo_w demo_closed)).2)) (WRun (S.loop_ (front (demo_w demo_closed)).2))); [exact Hw'|].
    vm_compute. reflexivity.
Defined.

End ServerSystem.
